(* ===== verification/_CoqProject ===== *)
-Q . S2P
Prelude.v
Sha256.v
Crypto.v
Toy.v
Smt.v
SmtSpec.v
SmtRefine.v
SmtProofs.v
SmtTheorems.v
SmtJson.v
Errors.v
ErrorsV2.v
Chain.v
ToyCbor.v
BlockCodec.v
ChainTheorems.v
Config.v
Rotation.v
RotationTheorems.v
Mandates.v
MandateTheorems.v
Vrf.v
Identity.v
IdentityTheorems.v
Quorum.v
QuorumTheorems.v
TriadTheorems.v
LightClient.v
LightTheorems.v
State.v
StateTheorems.v
Spectral.v
Gossip.v
Engine.v
EngineCycle.v
EngineApi.v
SubChain.v
Storage.v
ToyStore.v
ToyBlock.v
Genesis.v
GenesisTheorems.v
Demo.v
EngineFrame.v
EngineTheorems.v
CycleTheorems.v
SoloTheorems.v
ApiTheorems.v
SoloChain.v
CommitTheorems.v
Typed.v
Receipts.v
SubChainTheorems.v
StorageTheorems.v
Transport.v
TransportTheorems.v
P2p.v
P2pTheorems.v
P2pMesh.v
P2pMeshTheorems.v
Rest.v
Grpc.v
RestTheorems.v
GrpcTheorems.v
Anchor.v
ToyDisk.v
AnchorTheorems.v
Published.v
Daemon.v
DaemonTheorems.v
Client.v
NodeTheorems.v
Conformance.v
ConformanceTheorems.v
EngineLoop.v
EngineLoopTheorems.v
Provectl.v
ProvectlTheorems.v
PipelineSim.v
CubeRoom.v
