(* ===== verification/Prelude.v ===== *)
(** * Gleipnir: verification of the 3CP provenance chain

    Gleipnir anchors hashes of artefacts in a chain of blocks. Validators with post-quantum
    identities elect a proposer per cycle by a VRF, agree on a block in two phases (PREPARE
    signatures, then a COMMIT by the leader), insert the anchored hashes into a sparse
    Merkle tree, and let light clients check blocks and inclusion proofs. Keys rotate with
    an overlap, and mandates state which events have to be anchored.

    ** Parts and files

    - This file: bytes and machine integers ([u64], [i64] write the wrap-around out), Go
      slices ([slice]: nil is [None]), the [outcome] of a Go call (value, error or panic)
      with its sequencing notation in scope [%go], generic list lemmas and automation.
    - [Sha256]: SHA-256, computed. [Crypto]: the class [Primitives] (BLAKE3, ML-DSA-65) and
      the wrappers of pkg/identity/dilithium.go and hash.go. [Toy], [ToyCbor]: concrete
      instances of the parameters, on which every hypothesis is shown to be satisfiable.
    - [Smt] (pkg/smt/smt.go): the content-addressed tree, one definition per method.
      [SmtSpec] is the abstract trie, [SmtRefine] and [SmtProofs] relate the two,
      [SmtTheorems] states the results; [SmtJson] (smt_serialization.go) the stored form.
    - [Errors] (pkg/validation/validation.go): the error values and [errors.Is].
    - [Chain], [ChainTheorems] (pkg/chain): blocks, entries, mandates, rotation records,
      their hashes, signatures and codecs.
    - [Config] (pkg/state/config.go); [Rotation], [RotationTheorems]
      (pkg/validation/key_rotation.go); [Mandates], [MandateTheorems] (mandate_*.go,
      compliance_checker.go).
    - [Vrf], [Identity], [IdentityTheorems] (pkg/identity).
    - [Quorum], [QuorumTheorems], [TriadTheorems] (pkg/consensus: quorum.go, degraded.go,
      the quorum check of commit.go, triad.go, ratelimit.go).
    - [LightClient], [LightTheorems] (pkg/lightclient).
    - [State], [StateTheorems] (pkg/state): the transition of the network state, with
      binary64 floats from SpecFloat.
    - [Gossip] (pkg/consensus/gossip.go): the interface as a class with its laws, the
      in-memory bus as its instance.
    - [Engine], [EngineCycle], [EngineApi] (pkg/consensus: engine.go, prepare.go, commit.go,
      api.go, key_rotation.go, mandates.go): the engine's state, a whole consensus cycle
      and the submission and query handlers. [EngineFrame], [EngineTheorems],
      [CycleTheorems], [SoloTheorems], [ApiTheorems], [SoloChain] hold their properties,
      [Demo] the concrete worlds of the witnesses.
    - [SubChain], [SubChainTheorems] (pkg/consensus/subchain.go, pkg/chain/subchain.go):
      sub-chains whose roots are anchored through the engine.
    - [Storage], [ToyStore], [StorageTheorems] (pkg/storage/bolt.go, persist and
      loadPersisted of the engine): the classes [Bolt] and [Json] stand for bbolt and
      encoding/json; [ToyStore] instantiates them.
    - [Transport], [TransportTheorems] (pkg/transport/secure_conn.go, peer.go,
      pkg/identity/kyber.go): code on a connection is a [proc], run against a fixed input
      ([run1]) or against its peer ([run2]); the class [SecurePrims] stands for Kyber, the
      AEAD and HKDF.
    - [P2p], [P2pTheorems] (pkg/transport/p2p/gossip.go): the second instance of the gossip
      interface, with the messages it sends and the handlers of what it receives.
      [P2pMesh], [P2pMeshTheorems]: the connectivity of that bus, with the host's links as
      an environment.
    - [Rest], [RestTheorems] (pkg/rest/server.go): requests and responses as records, the
      classes [SubmitJson] and [UidDecode] for the decoders; the wait for an anchor is a
      scan of the engines seen at its ticks.
    - [Grpc], [GrpcTheorems] (pkg/server, client/client.go): protobuf messages as records,
      every call of the service and the requests of the Go client. [Client]
      (client/client.go): the calls of the client on that service.
    - [BlockCodec], [ToyBlock] (pkg/chain/cbor.go): encoded blocks, for what leaves a node.
    - [Genesis], [GenesisTheorems] (pkg/protocol, cmd/genesis): the genesis block of the
      library and the command that writes one.
    - [Anchor], [ToyDisk], [AnchorTheorems] (pkg/anchor): publication of blocks on a disk
      whose operations may fail.
    - [Daemon], [DaemonTheorems] (cmd/provenanced): from flags to the servers of a node.
    - [Spectral] (pkg/state: power_iter.go, graph.go): the spectral check without cache.
    - [Conformance], [ConformanceTheorems] (cmd/conformance-test): the cases of the suite as
      programs against the class [AnchorClient], and a node with its server as an instance
      of it, under any schedule of cycles and other clients.
    - [EngineLoop], [EngineLoopTheorems] (engine.go: Start, cycleLoop): the goroutine of the
      engine as a step relation, with the calls of other goroutines between its moves.
    - [ErrorsV2] (pkg/validation/errors_v2.go): the protocol errors and their test.
    - [Provectl], [ProvectlTheorems] (cmd/provectl): the admin command, over the class
      [FileSystem] of [Anchor] and the class [AnchorClient] of [Conformance].
    - [PipelineSim] (cmd/pipeline-sim): the load generator; its
      compare-and-swap loops as a machine of atomic steps that callers interleave.
    - [CubeRoom] (frontend-test/cube-room): identities derived from a company
      key, and onboarding records anchored over the REST interface.
    - Across components: [Receipts] (anchor proofs against the chain), [CommitTheorems] (leader and validators over a shared bus), [Typed]
      (field widths along a chain), [Published] (engine and publisher), [NodeTheorems]
      (daemon, client, gRPC server, engine and light client).

    ** How the code is represented

    A method that takes a lock is one step on the component's state. The engine's handlers
    run in a state monad [M] whose state survives errors and panics ([World]: the engine,
    the shared bus, a step counter). Other engines act on the bus only between this
    engine's accesses: every access is preceded by [env], an arbitrary function of the
    step, so a theorem for all [env] holds for every interleaving. [clock] is the time read
    at a step and [patience] the number of polls that fit into a wait that starts there.
    [RunCycle] recovers panics, so it is the state [cycle_body] leaves.
    Code outside the repository is a class parameter with its documented laws: BLAKE3 (32
    bytes), ML-DSA (signatures verify), ristretto255 (group laws the VRF uses), canonical
    CBOR (decoding inverts encoding; for blocks, where the text is valid UTF-8), gonum (linear
    algebra). Security assumptions are
    never axioms: a theorem that needs collision freedom names the finitely many messages
    whose digests must differ.
    Blocks are values. The one place where sharing shows is the metadata map that
    [ApplyDegradedBlock] writes; the map belongs to the block that is committed next, and
    the model threads that block.

    ** Fuel

    The tree's loops run over the depth, an argument. [expectedEvents] has fuel; one unit
    per second of the window is proved to be enough, for it and for [CheckComplianceMandate]. [StreamBlocks] needs at most
    maxStreamBlocks iterations, and [updateMinMax] at most four steps when nothing disturbs
    it. [SHA-256] and HKDF run over their input.

    ** What the theorems show

    - The tree refines an abstract trie; roots commit to the contents; proofs are sound and
      complete; serialisation round-trips.
    - Block, mandate and rotation hashes bind what they cover; signing and codecs compose.
    - Rotations are accepted exactly under the rules, whose sums of cycles wrap around as in
      the code, and the keys of a cycle follow from the history; mandate resolution meets its
      specification, and so do compliance reports when no interval passes the range of int64.
    - Quorums count distinct signers, intersect, and are the same for the engine and for
      a light client; proposer selection is order independent; degraded mode and rate
      limits meet reference definitions over all histories.
    - The light client accepts exactly its contract; accepted histories are unique.
    - A cycle commits or rolls back; leader and validators commit the same block; a submission
      and the state transition do on every branch what their declarative descriptions say.
    - On a single node, over all histories of submissions, mandates, configuration changes and
      cycles ([solo_op] in [SoloChain]; key rotations are not among them, since the engine goes
      on signing with its old key): the chain is accepted by any light client, keeps the widths
      of the block schema, the empty legacy anchor apart, and is what the publisher leaves on
      disk; every receipt for a hash is backed by a block, with a Merkle path that verifies;
      and whenever the node can compute its VRF proof, the next cycle anchors what is pending.
    - The cycle loop of an engine with a positive interval never crashes and keeps its period
      within bounds; on a single node it serves likewise.
    - Sub-chains refine an abstract history; the store gives back what it was given, and,
      while writes succeed and no cycle panics, a restarted node agrees with the one that
      stopped.
    - The handshake agrees on a key and frames arrive in order; over libp2p what is
      published is delivered, and no stream of a peer can withdraw a vote or a proof.
    - REST authentication accepts exactly what a key holder signed recently, and a signature
      fits one request only; a submission is answered, queued and anchored as the answer
      says. Over gRPC blocks arrive unchanged, proofs verify and clients authenticate.
    - The genesis command writes exactly what a valid specification says; which peer lists the
      daemon accepts (one identity under two addresses is among them, against the comment in
      the code); a hash submitted by a client to a node started from flags is verified by that
      client after the next cycle. The lifecycle case of the conformance suite fails on a
      single node only for lack of admission, of time, or of another hash in the tree.
    - The identities that the admin command writes start nodes; the shared counters of the
      load generator are right under every interleaving and its loops end; derivation paths
      of the front end are never reused and determine the identities.
    - Each deviation of the code from its intent that the model showed is a theorem too.

    ** Not modelled

    The libp2p host and the mDNS service, HTTP listening and TLS, flag parsing, dialling and
    printing, and the benchmark report, which runs other programs, are I/O around the
    packages above; protobuf code is generated. The interval of a real ticker and the
    scheduling of goroutines are not modelled in time: [EngineLoop] lets every order of moves
    and calls happen. Unicode case mapping and JSON and CBOR text are parameters.
*)
From Stdlib Require Export ZArith Lia.
From stdpp Require Export base strings sorting numbers gmap.
From stdpp Require Export list.

#[export] Set Default Goal Selector "!".

(** ** Bytes and machine integers

    A byte is a [Z] kept in [0, 256); a Go [[]byte] or [[n]byte] is a list of bytes.
    [uint64] and [int64] values are [Z] with the wrap-around written out. *)

Abbreviation bytes := (list Z).

Declare Scope go_scope.
Delimit Scope go_scope with go.

Definition byte_ok (b : Z) : Prop := (0 <= b < 256)%Z.

Definition bytes_ok (n : nat) (l : bytes) : Prop := length l = n ∧ Forall byte_ok l.

Definition u64 (z : Z) : Z := (z mod 2 ^ 64)%Z.

Definition i64 (z : Z) : Z := ((z + 2 ^ 63) mod 2 ^ 64 - 2 ^ 63)%Z.

Definition max_i64 : Z := (2 ^ 63 - 1)%Z.

Definition u64_ok (z : Z) : Prop := (0 <= z < 2 ^ 64)%Z.

Definition i64_ok (z : Z) : Prop := (- 2 ^ 63 <= z < 2 ^ 63)%Z.

(** The zero value of [[n]byte]. *)
Definition zeros (n : nat) : bytes := replicate n 0%Z.

(** Little-endian encoding of the low [n] bytes of [z] ([binary.LittleEndian]). *)
Fixpoint le_bytes (n : nat) (z : Z) : bytes :=
  match n with
  | O => []
  | S n' => (z mod 256)%Z :: le_bytes n' (z / 256)%Z
  end.

(** Big-endian encoding ([binary.BigEndian]). *)
Definition be_bytes (n : nat) (z : Z) : bytes := rev (le_bytes n z).

Fixpoint le_value (l : bytes) : Z :=
  match l with
  | [] => 0
  | b :: l' => b + 256 * le_value l'
  end%Z.

Definition be_value (l : bytes) : Z := le_value (rev l).

(** The bytes of a Go string: [[]byte(s)]. *)
Fixpoint string_bytes (s : string) : bytes :=
  match s with
  | EmptyString => []
  | String a s' => Z.of_nat (Ascii.nat_of_ascii a) :: string_bytes s'
  end.

(** [copy(dst[:], src)] into a fresh zeroed array of [n] bytes. *)
Definition copy_array (n : nat) (src : bytes) : bytes :=
  take n src ++ zeros (n - length src).

(** [bytes.Compare(a, b) < 0]: lexicographic order, a proper prefix is smaller. *)
Fixpoint bytes_ltb (a b : bytes) : bool :=
  match a, b with
  | [], [] => false
  | [], _ :: _ => true
  | _ :: _, [] => false
  | x :: a', y :: b' =>
      if decide (x = y) then bytes_ltb a' b' else (x <? y)%Z
  end.

(** ** Outcomes of Go code

    A call returns a value, returns an error, or panics (an index out of range). *)

Inductive outcome (E A : Type) : Type :=
| Ok (a : A)
| Err (e : E)
| Panic.
Arguments Ok {E A} a.
Arguments Err {E A} e.
Arguments Panic {E A}.

Definition outcome_bind {E A B} (m : outcome E A) (k : A → outcome E B) : outcome E B :=
  match m with
  | Ok a => k a
  | Err e => Err e
  | Panic => Panic
  end.

(** [if cond { return err }]. *)
Definition fail_if {E} (cond : bool) (e : E) : outcome E unit :=
  if cond then Err e else Ok tt.

Notation "x <-! m ;; k" := (outcome_bind m (fun x => k))
  (at level 100, m at next level, right associativity) : go_scope.
Notation "m ;;! k" := (outcome_bind m (fun _ => k))
  (at level 100, right associativity) : go_scope.

(** Reading [l[i]]: a panic when [i] is out of range. *)
Definition index {E A} (l : list A) (i : nat) : outcome E A :=
  match l !! i with
  | Some a => Ok a
  | None => Panic
  end.

(** ** Automation *)

Create HintDb gleipnir.
Create Rewrite HintDb lens.

#[export] Instance outcome_eq_dec {E A} `{EqDecision E, EqDecision A} :
  EqDecision (outcome E A).
Proof. solve_decision. Defined.

(** Case analysis on the outcomes and conditions that decide a hypothesis about the
    result of a handler. *)
Ltac outcome_step H :=
  match type of H with
  | outcome_bind ?m _ = _ =>
      let E := fresh "E" in destruct m eqn:E; simpl in H; try discriminate H
  | fail_if ?c _ = _ => unfold fail_if in H
  | (if ?c then _ else _) = _ =>
      let E := fresh "E" in destruct c eqn:E; try discriminate H
  | match ?m with _ => _ end = _ =>
      let E := fresh "E" in destruct m eqn:E; try discriminate H
  end.

Ltac outcome_inv H := repeat (outcome_step H).

(** ** Generic lemmas *)

Lemma fail_if_Ok {E} (c : bool) (e : E) u : fail_if c e = Ok u ↔ c = false.
Proof. destruct c, u; simpl; split; congruence. Qed.

Lemma fail_if_Err {E} (c : bool) (e e' : E) : fail_if c e = Err e' ↔ c = true ∧ e = e'.
Proof. destruct c; simpl; split; intuition congruence. Qed.

Lemma bind_Ok {E A B} (m : outcome E A) (k : A → outcome E B) b :
  outcome_bind m k = Ok b ↔ ∃ a, m = Ok a ∧ k a = Ok b.
Proof.
  destruct m as [a| |]; simpl; split; try (intros (a' & Ha & _); discriminate Ha);
    try discriminate.
  - eauto.
  - by intros (a' & [= ->] & Hk).
Qed.

Lemma index_Ok {E A} (l : list A) i a : @index E A l i = Ok a ↔ l !! i = Some a.
Proof. unfold index. destruct (l !! i); split; congruence. Qed.

Lemma index_not_Err {E A} (l : list A) i (e : E) : index l i ≠ Err e.
Proof. unfold index. by destruct (l !! i). Qed.

Lemma index_Panic {E A} (l : list A) i : @index E A l i = Panic ↔ length l ≤ i.
Proof.
  unfold index. rewrite <- lookup_ge_None. destruct (l !! i); split; congruence.
Qed.

Lemma length_le_bytes n z : length (le_bytes n z) = n.
Proof. revert z. induction n; intros; simpl; auto. Qed.

Lemma length_be_bytes n z : length (be_bytes n z) = n.
Proof. unfold be_bytes. rewrite length_rev. apply length_le_bytes. Qed.

Lemma le_bytes_ok n z : Forall byte_ok (le_bytes n z).
Proof.
  revert z. induction n; intros; simpl; constructor; auto.
  unfold byte_ok. apply Z.mod_pos_bound. lia.
Qed.

Lemma le_value_le_bytes n z : le_value (le_bytes n z) = (z mod 256 ^ Z.of_nat n)%Z.
Proof.
  revert z. induction n as [|n IH]; intros z; simpl.
  - by rewrite Z.mod_1_r.
  - rewrite IH. rewrite Nat2Z.inj_succ, Z.pow_succ_r by lia.
    rewrite Z.rem_mul_r by lia. lia.
Qed.

Lemma le_bytes_inj n z1 z2 :
  (0 <= z1 < 256 ^ Z.of_nat n)%Z → (0 <= z2 < 256 ^ Z.of_nat n)%Z →
  le_bytes n z1 = le_bytes n z2 → z1 = z2.
Proof.
  intros H1 H2 Heq. apply (f_equal le_value) in Heq.
  rewrite !le_value_le_bytes, !Z.mod_small in Heq; auto.
Qed.

Lemma be_bytes_inj n z1 z2 :
  (0 <= z1 < 256 ^ Z.of_nat n)%Z → (0 <= z2 < 256 ^ Z.of_nat n)%Z →
  be_bytes n z1 = be_bytes n z2 → z1 = z2.
Proof.
  unfold be_bytes. intros H1 H2 Heq. apply (f_equal (@rev Z)) in Heq.
  rewrite !rev_involutive in Heq. by eapply le_bytes_inj.
Qed.

Lemma le64_inj z1 z2 : u64_ok z1 → u64_ok z2 → le_bytes 8 z1 = le_bytes 8 z2 → z1 = z2.
Proof. unfold u64_ok. apply (le_bytes_inj 8). Qed.

Lemma length_zeros n : length (zeros n) = n.
Proof. apply length_replicate. Qed.

Lemma length_copy_array n src : length (copy_array n src) = n.
Proof. unfold copy_array. rewrite length_app, length_take, length_zeros. lia. Qed.

Lemma copy_array_id n src : length src = n → copy_array n src = src.
Proof.
  intros <-. unfold copy_array. rewrite firstn_all, Nat.sub_diag. apply app_nil_r.
Qed.

Lemma u64_small z : u64_ok z → u64 z = z.
Proof. intros. by apply Z.mod_small. Qed.

Lemma u64_range z : u64_ok (u64 z).
Proof. by apply Z.mod_pos_bound. Qed.

(** Reinterpreting the bits of an [int64] as [uint64] loses nothing. *)
Lemma u64_i64_inj a b : i64_ok a → i64_ok b → u64 a = u64 b → a = b.
Proof.
  unfold i64_ok, u64. intros Ha Hb Heq.
  pose proof (Z.div_mod a (2 ^ 64) ltac:(lia)).
  pose proof (Z.div_mod b (2 ^ 64) ltac:(lia)).
  nia.
Qed.

Lemma app_inj_length {A} (a1 a2 b1 b2 : list A) :
  length a1 = length a2 → a1 ++ b1 = a2 ++ b2 → a1 = a2 ∧ b1 = b2.
Proof. intros. by apply app_inj_1. Qed.

Lemma length_string_bytes s : length (string_bytes s) = String.length s.
Proof. induction s; simpl; congruence. Qed.

Lemma string_bytes_inj s1 s2 : string_bytes s1 = string_bytes s2 → s1 = s2.
Proof.
  revert s2. induction s1 as [|a s1 IH]; intros [|b s2]; simpl; intros Heq; try done.
  injection Heq as Hab Hs. apply Nat2Z.inj in Hab.
  rewrite <- (Ascii.ascii_nat_embedding a), <- (Ascii.ascii_nat_embedding b), Hab.
  f_equal. auto.
Qed.

(** [bytes_ltb] is a strict total order: the facts the sorted listings rely on. *)
Lemma bytes_ltb_irrefl a : bytes_ltb a a = false.
Proof. induction a; simpl; [done|]. by case_decide. Qed.

Lemma bytes_ltb_trans a b c :
  bytes_ltb a b = true → bytes_ltb b c = true → bytes_ltb a c = true.
Proof.
  revert b c. induction a as [|x a IH]; intros [|y b] [|z c]; simpl; try done.
  intros H1 H2. repeat case_decide; subst; try done; try lia; eauto.
Qed.

Lemma bytes_ltb_total a b : bytes_ltb a b = false → bytes_ltb b a = false → a = b.
Proof.
  revert b. induction a as [|x a IH]; intros [|y b]; simpl; try done.
  intros H1 H2. repeat case_decide; subst; try done; [f_equal; eauto|lia].
Qed.

Lemma bytes_ltb_asym a b : bytes_ltb a b = true → bytes_ltb b a = false.
Proof.
  intros H1. destruct (bytes_ltb b a) eqn:E; [|done].
  pose proof (bytes_ltb_trans a b a H1 E) as Ht. by rewrite bytes_ltb_irrefl in Ht.
Qed.

(** ** Sorting by a byte key ([sort.Slice] with [bytes.Compare])

    The relation is the weak order; the listings sorted with it have distinct keys, so the
    result does not depend on the sorting algorithm. *)
Definition bytes_le (a b : bytes) : Prop := bytes_ltb b a = false.

#[export] Instance bytes_le_dec : RelDecision bytes_le.
Proof. intros a b. unfold bytes_le. apply _. Defined.

Definition key_le {A} (key : A → bytes) (x y : A) : Prop := bytes_le (key x) (key y).

#[export] Instance key_le_dec {A} (key : A → bytes) : RelDecision (key_le key).
Proof. intros a b. unfold key_le. apply _. Defined.

Definition sort_by {A} (key : A → bytes) (l : list A) : list A := merge_sort (key_le key) l.

#[export] Instance key_le_trans {A} (key : A → bytes) : Transitive (key_le key).
Proof.
  intros x y z. unfold key_le, bytes_le. intros Hxy Hyz.
  destruct (bytes_ltb (key z) (key x)) eqn:E; [|done].
  destruct (bytes_ltb (key z) (key y)) eqn:E1; [congruence|].
  destruct (bytes_ltb (key y) (key z)) eqn:E2.
  - rewrite (bytes_ltb_trans _ _ _ E2 E) in Hxy. done.
  - rewrite (bytes_ltb_total _ _ E1 E2) in E. congruence.
Qed.

#[export] Instance key_le_total {A} (key : A → bytes) : Total (key_le key).
Proof.
  intros x y. unfold key_le, bytes_le. destruct (bytes_ltb (key y) (key x)) eqn:E; [|by left].
  right. by apply bytes_ltb_asym.
Qed.

Lemma sort_by_Permutation {A} (key : A → bytes) (l : list A) : sort_by key l ≡ₚ l.
Proof. apply merge_sort_Permutation. Qed.

Lemma sort_by_sorted {A} (key : A → bytes) (l : list A) :
  StronglySorted (key_le key) (sort_by key l).
Proof. apply StronglySorted_merge_sort; apply _. Qed.

Lemma StronglySorted_snoc {A} (R : A → A → Prop) l x :
  StronglySorted R (l ++ [x]) ↔ StronglySorted R l ∧ Forall (fun y => R y x) l.
Proof.
  induction l as [|y l IH]; simpl.
  - split; [intros _; split; constructor|intros _; repeat constructor].
  - split.
    + intros Hs. apply StronglySorted_inv in Hs as [Hs Hy].
      apply IH in Hs as [Hs Hx]. apply Forall_app in Hy as [Hy [Hyx _]%Forall_cons].
      split; [by constructor|by constructor].
    + intros [Hs Hx]. apply StronglySorted_inv in Hs as [Hs Hy]. apply Forall_cons in Hx as [Hyx Hx].
      constructor; [by apply IH|]. apply Forall_app. split; [done|by constructor].
Qed.

Lemma StronglySorted_filter {A} (R : A → A → Prop) (P : A → Prop) `{∀ x, Decision (P x)} l :
  StronglySorted R l → StronglySorted R (filter P l).
Proof.
  induction 1 as [|x l Hl IH Hx]; [constructor|]. rewrite filter_cons. case_decide; [|done].
  constructor; [done|]. rewrite Forall_forall in Hx. apply Forall_forall.
  intros y [_ Hy]%list_elem_of_filter. by apply Hx.
Qed.

Lemma filter_all {A} (P : A → Prop) `{∀ x, Decision (P x)} l : Forall P l → filter P l = l.
Proof. induction 1 as [|x l Hx Hl IH]; [done|]. rewrite filter_cons_True by done. by rewrite IH. Qed.

Lemma filter_none {A} (P : A → Prop) `{∀ x, Decision (P x)} l : Forall (fun x => ¬ P x) l → filter P l = [].
Proof. induction 1 as [|x l Hx Hl IH]; [done|]. by rewrite filter_cons_False. Qed.

Lemma filter_agree {A} (P Q : A → Prop) `{∀ x, Decision (P x), ∀ x, Decision (Q x)} (l : list A) :
  (∀ x, x ∈ l → P x ↔ Q x) → filter P l = filter Q l.
Proof.
  induction l as [|x l IH]; intros Hiff; [done|]. rewrite !filter_cons, IH by (intros; apply Hiff; by right).
  destruct (Hiff x) as [H1 H2]; [by left|]. repeat case_decide; tauto || done.
Qed.

Lemma snoc_lookup {A} (x : A) l : (l ++ [x]) !! length l = Some x.
Proof. rewrite lookup_app_r, Nat.sub_diag; done. Qed.

Lemma fail_if_pass {E A} (c : bool) (e : E) (k : outcome E A) x :
  outcome_bind (fail_if c e) (fun _ => k) = Ok x ↔ c = false ∧ k = Ok x.
Proof. destruct c; simpl; split; intuition congruence. Qed.

#[export] Hint Rewrite @length_app @length_zeros length_le_bytes length_be_bytes
  length_copy_array @length_take @length_replicate length_string_bytes : lens.
#[export] Hint Resolve le_bytes_ok u64_range : gleipnir.

Ltac len_simpl := autorewrite with lens in *; simpl in *.
