(* ===== verification/Sha256.v ===== *)
(** * SHA-256 (crypto/sha256) and HMAC-SHA256 (crypto/hmac)

    The block hash of [chain.ComputeBlockHash] and the HKDF of [identity.NewUIDZero] use
    the hash function of Go's standard library, which is modelled here as FIPS 180-4
    defines it, on 32-bit words kept in [Z]. *)
From S2P Require Import Prelude.
Local Open Scope Z_scope.

Definition w32 (z : Z) : Z := z mod 2 ^ 32.

Definition rotr (n x : Z) : Z :=
  Z.lor (Z.shiftr x n) (w32 (Z.shiftl x (32 - n))).

Definition ch (x y z : Z) : Z := Z.lxor (Z.land x y) (Z.land (Z.lxor x (2 ^ 32 - 1)) z).
Definition maj (x y z : Z) : Z := Z.lxor (Z.lxor (Z.land x y) (Z.land x z)) (Z.land y z).
Definition bsig0 (x : Z) : Z := Z.lxor (Z.lxor (rotr 2 x) (rotr 13 x)) (rotr 22 x).
Definition bsig1 (x : Z) : Z := Z.lxor (Z.lxor (rotr 6 x) (rotr 11 x)) (rotr 25 x).
Definition ssig0 (x : Z) : Z := Z.lxor (Z.lxor (rotr 7 x) (rotr 18 x)) (Z.shiftr x 3).
Definition ssig1 (x : Z) : Z := Z.lxor (Z.lxor (rotr 17 x) (rotr 19 x)) (Z.shiftr x 10).

Definition sha_k : list Z :=
  [1116352408; 1899447441; 3049323471; 3921009573; 961987163; 1508970993; 2453635748; 2870763221;
   3624381080; 310598401; 607225278; 1426881987; 1925078388; 2162078206; 2614888103; 3248222580;
   3835390401; 4022224774; 264347078; 604807628; 770255983; 1249150122; 1555081692; 1996064986;
   2554220882; 2821834349; 2952996808; 3210313671; 3336571891; 3584528711; 113926993; 338241895;
   666307205; 773529912; 1294757372; 1396182291; 1695183700; 1986661051; 2177026350; 2456956037;
   2730485921; 2820302411; 3259730800; 3345764771; 3516065817; 3600352804; 4094571909; 275423344;
   430227734; 506948616; 659060556; 883997877; 958139571; 1322822218; 1537002063; 1747873779;
   1955562222; 2024104815; 2227730452; 2361852424; 2428436474; 2756734187; 3204031479; 3329325298].

Definition sha_h0 : list Z :=
  [1779033703; 3144134277; 1013904242; 2773480762; 1359893119; 2600822924; 528734635; 1541459225].

(** The message, a 1 bit, zeros up to 56 modulo 64, and the bit length in 8 bytes. *)
Definition sha_pad (m : bytes) : bytes :=
  let k := (Z.to_nat ((55 - Z.of_nat (length m)) mod 64))%nat in
  m ++ [0x80] ++ zeros k ++ be_bytes 8 (8 * Z.of_nat (length m)).

(** The next [n] words of the message schedule, given the last sixteen. *)
Fixpoint sha_schedule (n : nat) (last16 : list Z) : list Z :=
  match n with
  | O => []
  | S n' =>
      let w := w32 (ssig1 (nth 14 last16 0) + nth 9 last16 0 +
                    ssig0 (nth 1 last16 0) + nth 0 last16 0) in
      w :: sha_schedule n' (tail last16 ++ [w])
  end.

Definition sha_round (h : list Z) (kw : Z * Z) : list Z :=
  let '(k, w) := kw in
  let a := nth 0 h 0 in let b := nth 1 h 0 in let c := nth 2 h 0 in let d := nth 3 h 0 in
  let e := nth 4 h 0 in let f := nth 5 h 0 in let g := nth 6 h 0 in let hh := nth 7 h 0 in
  let t1 := hh + bsig1 e + ch e f g + k + w in
  let t2 := bsig0 a + maj a b c in
  [w32 (t1 + t2); a; b; c; w32 (d + t1); e; f; g].

(** Words of a block of bytes, four big-endian bytes each. *)
Fixpoint be_words (n : nat) (l : bytes) : list Z :=
  match n with
  | O => []
  | S n' => be_value (take 4 l) :: be_words n' (drop 4 l)
  end.

Definition sha_block (h : list Z) (block : bytes) : list Z :=
  let w := be_words 16 block in
  let ws := w ++ sha_schedule 48 w in
  let h' := fold_left sha_round (zip sha_k ws) h in
  zip_with (fun x y => w32 (x + y)) h h'.

Fixpoint sha_blocks (n : nat) (h : list Z) (m : bytes) : list Z :=
  match n with
  | O => h
  | S n' => sha_blocks n' (sha_block h (take 64 m)) (drop 64 m)
  end.

(** [sha256.Sum256]. *)
Definition sha256 (m : bytes) : bytes :=
  let p := sha_pad m in
  mjoin (map (be_bytes 4) (sha_blocks (length p / 64) sha_h0 p)).

(** [hmac.New(sha256.New, key)] over one message. *)
Definition hmac_sha256 (key msg : bytes) : bytes :=
  let k0 := if (64 <? Z.of_nat (length key)) then sha256 key else key in
  let k := k0 ++ zeros (64 - length k0) in
  let ipad := map (fun b => Z.lxor b 0x36) k in
  let opad := map (fun b => Z.lxor b 0x5c) k in
  sha256 (opad ++ sha256 (ipad ++ msg)).

(** ** Test vectors and output length *)

Example sha256_abc :
  be_value (sha256 (string_bytes "abc"%string)) =
  0xba7816bf8f01cfea414140de5dae2223b00361a396177a9cb410ff61f20015ad.
Proof. vm_compute. reflexivity. Qed.

Example sha256_two_blocks :
  be_value (sha256 (string_bytes "abcdbcdecdefdefgefghfghighijhijkijkljklmklmnlmnomnopnopq"%string)) =
  0x248d6a61d20638b8e5c026930c3e6039a33ce45964ff2167f6ecedd419db06c1.
Proof. vm_compute. reflexivity. Qed.

Example hmac_sha256_rfc4231_2 :
  be_value (hmac_sha256 (string_bytes "Jefe"%string) (string_bytes "what do ya want for nothing?"%string)) =
  0x5bdcc146bf60754e6a042426089575c75a003f089d2739839dec58b964ec3843.
Proof. vm_compute. reflexivity. Qed.

Lemma length_sha_block h block : length h = 8%nat → length (sha_block h block) = 8%nat.
Proof.
  intros Hh. unfold sha_block. rewrite length_zip_with.
  set (ws := be_words 16 block ++ _). clearbody ws.
  assert (Hf : ∀ l h0, length h0 = 8%nat → length (fold_left sha_round l h0) = 8%nat).
  { intros l. induction l as [|[k w] l IH]; intros h0 Hh0; simpl; auto. }
  rewrite (Hf _ _ Hh). lia.
Qed.

Lemma length_sha_blocks n h m : length h = 8%nat → length (sha_blocks n h m) = 8%nat.
Proof.
  revert h m. induction n; intros h m Hh; simpl; auto using length_sha_block.
Qed.

Lemma length_be_words_join (n : nat) (l : list Z) :
  length (mjoin (map (be_bytes n) l)) = (n * length l)%nat.
Proof.
  induction l as [|x l IH]; [simpl; lia|].
  change (mjoin (map (be_bytes n) (x :: l))) with (be_bytes n x ++ mjoin (map (be_bytes n) l)).
  rewrite length_app, length_be_bytes, IH. simpl. lia.
Qed.

(** Every digest is 32 bytes long. *)
Lemma length_sha256 m : length (sha256 m) = 32%nat.
Proof.
  unfold sha256. rewrite length_be_words_join. by rewrite length_sha_blocks.
Qed.

#[export] Hint Rewrite length_sha256 : lens.
