(* ===== verification/Crypto.v ===== *)
(** * Cryptographic primitives (pkg/identity: dilithium.go, hash.go, signature.go)

    BLAKE3 and the ML-DSA-65 lattice arithmetic are not code of the repository; they are
    the operations of the class [Primitives], over which every definition that uses them
    is parametrised. [MldsaCorrect] and [Blake3Length] state the documented behaviour the
    code relies on. The wrappers of pkg/identity, with their length guards, are modelled
    in full, and so is encoding/hex. *)
From S2P Require Import Prelude.

Class Primitives := {
  (** [blake3.Sum256] and [blake3.New(32, nil)] over the concatenation of the writes. *)
  blake3 : bytes → bytes;
  (** [mldsa.NewPrivateKey(MLDSA65, seed).PublicKey().Bytes()]. *)
  mldsa_public : bytes → bytes;
  (** [PrivateKey.SignDeterministic(msg, nil)]; [None] when it returns an error. *)
  mldsa_sign : bytes → bytes → option bytes;
  (** [mldsa.NewPublicKey] followed by [mldsa.Verify] with no context. *)
  mldsa_verify : bytes → bytes → bytes → bool;
}.

Definition Dilithium3PublicKeySize : nat := 1952.
Definition Dilithium3SecretKeySize : nat := 32.
Definition Dilithium3SignatureSize : nat := 3309.
Definition Dilithium3SeedSize : nat := 32.

(** FIPS 204 for a 32-byte seed: the sizes of Table 2, signing succeeds, and a signature
    verifies under the public key of the seed that made it. *)
Class MldsaCorrect `{Primitives} : Prop := {
  mldsa_public_length seed :
    length seed = Dilithium3SeedSize → length (mldsa_public seed) = Dilithium3PublicKeySize;
  mldsa_sign_total seed msg :
    length seed = Dilithium3SeedSize → ∃ sig, mldsa_sign seed msg = Some sig;
  mldsa_sign_length seed msg sig :
    length seed = Dilithium3SeedSize → mldsa_sign seed msg = Some sig →
    length sig = Dilithium3SignatureSize;
  mldsa_verify_sign seed msg sig :
    length seed = Dilithium3SeedSize → mldsa_sign seed msg = Some sig →
    mldsa_verify (mldsa_public seed) msg sig = true;
}.

(** A BLAKE3-256 digest has 32 bytes. *)
Class Blake3Length `{Primitives} : Prop :=
  length_blake3 (m : bytes) : length (blake3 m) = 32%nat.

(** [blake3] has no collision among the messages of [D]: the form in which the code
    relies on collision resistance. [D] is always instantiated with the messages an
    execution hashes. *)
Definition collision_free `{Primitives} (D : bytes → Prop) : Prop :=
  ∀ m1 m2, D m1 → D m2 → blake3 m1 = blake3 m2 → m1 = m2.

(** The digest function does not collide on these two messages. *)
Definition no_collision (digest : bytes → bytes) (m1 m2 : bytes) : Prop :=
  digest m1 = digest m2 → m1 = m2.

Section identity.
Context `{Primitives}.

(** identity.Hash and identity.Blake3Hash. *)
Definition Hash (data : bytes) : bytes := blake3 data.

(** identity.SignDilithium: nil (the empty slice) on any failure. *)
Definition SignDilithium (skBytes msg : bytes) : bytes :=
  if decide (length skBytes = Dilithium3SecretKeySize) then
    match mldsa_sign skBytes msg with
    | Some sig => sig
    | None => []
    end
  else [].

(** identity.VerifyDilithium. *)
Definition VerifyDilithium (pkBytes msg sig : bytes) : bool :=
  if decide (length pkBytes = Dilithium3PublicKeySize ∧ length sig = Dilithium3SignatureSize)
  then mldsa_verify pkBytes msg sig
  else false.

(** identity.GenerateDilithiumKeyFromSeed: the secret key is the seed. *)
Definition GenerateDilithiumKeyFromSeed (seed : bytes) : option (bytes * bytes) :=
  if decide (length seed = Dilithium3SeedSize) then Some (mldsa_public seed, seed) else None.

(** identity.VerifyBatch. *)
Definition VerifyBatch (messages signatures publicKeys : list bytes) : option (list bool) :=
  if decide (length messages = length signatures ∧ length signatures = length publicKeys) then
    Some (zip_with (fun pk ms => VerifyDilithium pk (fst ms) (snd ms))
            publicKeys (zip messages signatures))
  else None.

(** identity.CanonicalPayload. *)
Definition CanonicalPayload (hash submitter : bytes) (timestamp : Z) (label : string) : bytes :=
  hash ++ submitter ++ le_bytes 8 (u64 timestamp) ++ string_bytes label.

(** identity.SignPayload and identity.VerifySignature. *)
Definition SignPayload (secretKey hash submitter : bytes) (timestamp : Z) (label : string) : bytes :=
  SignDilithium secretKey (CanonicalPayload hash submitter timestamp label).

Definition VerifySignature (pubKey hash submitter : bytes) (timestamp : Z) (label : string)
    (signature : bytes) : bool :=
  VerifyDilithium pubKey (CanonicalPayload hash submitter timestamp label) signature.
End identity.

(** ** encoding/hex *)

Definition hex_digit (n : Z) : Ascii.ascii :=
  if (n <? 10)%Z then Ascii.ascii_of_nat (48 + Z.to_nat n)
  else Ascii.ascii_of_nat (87 + Z.to_nat n).

(** [hex.EncodeToString]. *)
Fixpoint hex_encode (l : bytes) : string :=
  match l with
  | [] => EmptyString
  | b :: l' => String (hex_digit (b / 16)%Z) (String (hex_digit (b mod 16)%Z) (hex_encode l'))
  end.

Definition hex_value (a : Ascii.ascii) : option Z :=
  let n := Z.of_nat (Ascii.nat_of_ascii a) in
  if ((48 <=? n) && (n <=? 57))%Z then Some (n - 48)%Z
  else if ((97 <=? n) && (n <=? 102))%Z then Some (n - 87)%Z
  else if ((65 <=? n) && (n <=? 70))%Z then Some (n - 55)%Z
  else None.

(** [hex.DecodeString]: an error on an odd length or a character that is not hex. *)
Fixpoint hex_decode (s : string) : option bytes :=
  match s with
  | EmptyString => Some []
  | String a (String b s') =>
      match hex_value a, hex_value b, hex_decode s' with
      | Some x, Some y, Some l => Some ((16 * x + y)%Z :: l)
      | _, _, _ => None
      end
  | String _ EmptyString => None
  end.

(** ** Lemmas *)

Section facts.
Context `{Primitives}.

Lemma length_SignDilithium `{!MldsaCorrect} sk msg :
  length sk = Dilithium3SecretKeySize →
  length (SignDilithium sk msg) = Dilithium3SignatureSize.
Proof.
  intros Hsk. unfold SignDilithium. rewrite decide_True by done.
  destruct (mldsa_sign_total sk msg Hsk) as [sig Hs]. rewrite Hs.
  by eapply mldsa_sign_length.
Qed.

Lemma VerifyDilithium_Sign `{!MldsaCorrect} sk msg :
  length sk = Dilithium3SecretKeySize →
  VerifyDilithium (mldsa_public sk) msg (SignDilithium sk msg) = true.
Proof.
  intros Hsk. unfold VerifyDilithium. rewrite decide_True.
  - unfold SignDilithium. rewrite decide_True by done.
    destruct (mldsa_sign_total sk msg Hsk) as [sig Hs]. rewrite Hs.
    by eapply mldsa_verify_sign.
  - split; [by apply mldsa_public_length|by apply length_SignDilithium].
Qed.

Lemma VerifyDilithium_true pk msg sig :
  VerifyDilithium pk msg sig = true →
  length pk = Dilithium3PublicKeySize ∧ length sig = Dilithium3SignatureSize ∧
  mldsa_verify pk msg sig = true.
Proof. unfold VerifyDilithium. case_decide; naive_solver. Qed.

(** A signature is over one submission: payloads of entries with 32-byte hashes and
    16-byte submitters coincide only when every signed field does. *)
Lemma CanonicalPayload_inj h1 h2 s1 s2 t1 t2 l1 l2 :
  length h1 = 32%nat → length h2 = 32%nat → length s1 = 16%nat → length s2 = 16%nat →
  i64_ok t1 → i64_ok t2 →
  CanonicalPayload h1 s1 t1 l1 = CanonicalPayload h2 s2 t2 l2 →
  h1 = h2 ∧ s1 = s2 ∧ t1 = t2 ∧ l1 = l2.
Proof.
  intros Hh1 Hh2 Hs1 Hs2 Ht1 Ht2 Heq. unfold CanonicalPayload in Heq.
  apply app_inj_length in Heq as [-> Heq]; [|congruence].
  apply app_inj_length in Heq as [-> Heq]; [|congruence].
  apply app_inj_length in Heq as [Ht Hl]; [|by rewrite !length_le_bytes].
  apply le64_inj in Ht; auto with gleipnir.
  split_and!; auto using string_bytes_inj, u64_i64_inj.
Qed.
End facts.

Lemma hex_value_digit n : (0 <= n < 16)%Z → hex_value (hex_digit n) = Some n.
Proof.
  intros Hn.
  assert (Hc : n ∈ (Z.of_nat <$> seq 0 16)).
  { apply list_elem_of_fmap. exists (Z.to_nat n). rewrite elem_of_seq. lia. }
  simpl in Hc. repeat (apply elem_of_cons in Hc as [->|Hc]; [reflexivity|]).
  by apply not_elem_of_nil in Hc.
Qed.

Lemma hex_decode_encode l : Forall byte_ok l → hex_decode (hex_encode l) = Some l.
Proof.
  unfold byte_ok. induction 1 as [|b l Hb Hl IH]; [done|]. simpl.
  rewrite !hex_value_digit, IH.
  - f_equal. f_equal. rewrite <- Z.div_mod; lia.
  - apply Z.mod_pos_bound. lia.
  - split; [apply Z.div_pos; lia|apply Z.div_lt_upper_bound; lia].
Qed.

Lemma hex_encode_inj l1 l2 :
  Forall byte_ok l1 → Forall byte_ok l2 → hex_encode l1 = hex_encode l2 → l1 = l2.
Proof.
  intros H1 H2 Heq. apply (f_equal hex_decode) in Heq.
  rewrite !hex_decode_encode in Heq by done. congruence.
Qed.

Lemma length_hex_encode l : String.length (hex_encode l) = (2 * length l)%nat.
Proof. induction l as [|b l IH]; simpl; [done|]. rewrite IH. lia. Qed.
