(* ===== verification/Toy.v ===== *)
(** * A concrete instance of the cryptographic primitives

    The theorems are parametric in [Primitives]. This instance makes their hypotheses
    checkable by computation: a polynomial digest and a signature that names its seed and
    the digest of the message. It has the sizes of the real primitives and nothing of
    their security. *)
From S2P Require Import Prelude Crypto.

Definition toy_digest (m : bytes) : bytes :=
  le_bytes 6 (foldl (fun acc b => Z.land (acc * 1048577 + b + 1) (Z.ones 47))%Z 7%Z m) ++
  zeros 26.

Definition toy_public (seed : bytes) : bytes :=
  copy_array Dilithium3PublicKeySize seed.

Definition toy_sign (seed msg : bytes) : option bytes :=
  Some (copy_array Dilithium3SignatureSize (take 32 seed ++ toy_digest msg)).

Definition toy_verify (pk msg sig : bytes) : bool :=
  bool_decide (take 32 pk = take 32 sig) && bool_decide (take 32 (drop 32 sig) = toy_digest msg).

#[export] Instance ToyPrimitives : Primitives := {|
  blake3 := toy_digest;
  mldsa_public := toy_public;
  mldsa_sign := toy_sign;
  mldsa_verify := toy_verify;
|}.

#[export] Instance toy_blake3_length : Blake3Length.
Proof. intros m. reflexivity. Qed.

#[export] Instance toy_mldsa_correct : MldsaCorrect.
Proof.
  split.
  - intros seed _. apply length_copy_array.
  - intros seed msg _. by eexists.
  - intros seed msg sig _ [= <-]. apply length_copy_array.
  - intros seed msg sig Hs [= <-]. simpl. unfold toy_verify.
    assert (Hd : length (toy_digest msg) = 32) by reflexivity.
    unfold Dilithium3SeedSize in Hs. unfold toy_public, copy_array.
    rewrite (take_ge seed Dilithium3PublicKeySize) by (rewrite Hs; unfold Dilithium3PublicKeySize; lia).
    rewrite (take_ge seed 32) by lia.
    rewrite (take_ge (seed ++ toy_digest msg) Dilithium3SignatureSize)
      by (rewrite length_app, Hs, Hd; unfold Dilithium3SignatureSize; lia).
    rewrite <- app_assoc, !take_app_le, !(take_ge seed 32), drop_app_le, (drop_ge seed 32) by lia.
    rewrite app_nil_l, take_app_le, take_ge by lia. by rewrite !bool_decide_eq_true_2.
Qed.

(** A 32-byte string with the given low byte. *)
Definition key32 (b : Z) : bytes := b :: zeros 31.
