(* ===== verification/Smt.v ===== *)
(** * Sparse Merkle tree (pkg/smt/smt.go)

    The tree is the struct of the source: a root digest, a depth, a content-addressed
    store of nodes and the table of empty-subtree digests. Operations pass the store
    explicitly. A level [lvl] stands for the source's [depth] argument plus one, so that
    [depth < 0] is [lvl = 0]. *)
From S2P Require Import Prelude Crypto.

Section smt.
Context `{Primitives}.

Record node := MkNode {
  n_left : bytes;
  n_right : bytes;
  n_hash : bytes;
  n_leaf : bool;
  n_key : bytes;
  n_value : bytes;
}.

Record SparseMerkleTree := MkSMT {
  t_root : bytes;
  t_depth : nat;
  t_store : gmap bytes node;
  t_zeroes : list bytes;
}.

Definition hashLen : nat := 32.

(** The bytes written to the hasher by [parentHash] and [leafHash]. *)
Definition parent_msg (left right : bytes) : bytes := left ++ right.

Definition leaf_msg (key value : bytes) : bytes :=
  string_bytes "leaf" ++
  be_bytes 8 (Z.of_nat (length key)) ++ key ++
  be_bytes 8 (Z.of_nat (length value)) ++ value.

Definition parentHash (left right : bytes) : bytes := blake3 (parent_msg left right).

Definition leafHash (key value : bytes) : bytes := blake3 (leaf_msg key value).

(** The loop of [New]: entry 0 is the zero array, entry i hashes entry i-1 twice. *)
Fixpoint zero_prefix (n : nat) : list bytes :=
  match n with
  | O => []
  | S n' =>
      let zs := zero_prefix n' in
      zs ++ [match zs !! pred n' with
             | None => zeros hashLen
             | Some z => parentHash z z
             end]
  end.

(** [New(depth)]: the slice has [depth+1] entries, of which the loop fills [depth]. *)
Definition New (depth : nat) : SparseMerkleTree :=
  {| t_root := zeros hashLen;
     t_depth := depth;
     t_store := ∅;
     t_zeroes := zero_prefix depth ++ [zeros hashLen] |}.

(** [path(key, depth)]: the bit of the key that chooses the child at a depth. *)
Definition path (key : bytes) (depth : Z) : Z :=
  if (depth <? 0)%Z then 0%Z
  else
    match key !! Z.to_nat (depth / 8) with
    | None => 0%Z
    | Some b => Z.land (Z.shiftr b (depth mod 8)) 1
    end.

Definition leaf_node (key value : bytes) : node :=
  {| n_left := zeros hashLen; n_right := zeros hashLen; n_hash := leafHash key value;
     n_leaf := true; n_key := key; n_value := value |}.

Definition inner_node (left right : bytes) : node :=
  {| n_left := left; n_right := right; n_hash := parentHash left right;
     n_leaf := false; n_key := []; n_value := [] |}.

(** [h := parentHash(l, r); t.store[h] = &node{Left: l, Right: r, Hash: h}; return h]. *)
Definition store_inner (st : gmap bytes node) (left right : bytes) : gmap bytes node * bytes :=
  (<[parentHash left right := inner_node left right]> st, parentHash left right).

(** [splitAndInsert]. [zeroes[depth]] is in range: the level is at most the depth. *)
Fixpoint splitAndInsert (zeroes : list bytes) (st : gmap bytes node)
    (key1 h1 key2 h2 : bytes) (lvl : nat) : gmap bytes node * bytes :=
  match lvl with
  | O => (st, h2)
  | S depth =>
      let b1 := path key1 (Z.of_nat depth) in
      let b2 := path key2 (Z.of_nat depth) in
      if (b1 =? b2)%Z then
        let '(st1, child) := splitAndInsert zeroes st key1 h1 key2 h2 depth in
        let zero := nth depth zeroes (zeros hashLen) in
        if (b1 =? 0)%Z then store_inner st1 child zero else store_inner st1 zero child
      else if (b1 =? 0)%Z then store_inner st h1 h2
      else store_inner st h2 h1
  end.

(** [insertAt]. The recursion descends through the store, so it is given fuel; [None] is
    a descent that has not ended. *)
Fixpoint insertAt (fuel : nat) (zeroes : list bytes) (st : gmap bytes node)
    (current key value : bytes) (lvl : nat) : option (gmap bytes node * bytes) :=
  match fuel with
  | O => None
  | S fuel' =>
      match st !! current with
      | None =>
          Some (<[leafHash key value := leaf_node key value]> st, leafHash key value)
      | Some n =>
          if n_leaf n then
            if decide (n_key n = key) then
              Some (<[leafHash key value := leaf_node key value]> st, leafHash key value)
            else
              match lvl with
              | O => Some (st, n_hash n)
              | S _ =>
                  let existingLH := leafHash (n_key n) (n_value n) in
                  let newLH := leafHash key value in
                  let st1 := <[newLH := leaf_node key value]> st in
                  Some (splitAndInsert zeroes st1 (n_key n) existingLH key newLH lvl)
              end
          else if (path key (Z.of_nat lvl - 1) =? 0)%Z then
            '(st1, newLeft) ← insertAt fuel' zeroes st (n_left n) key value (pred lvl);
            Some (store_inner st1 newLeft (n_right n))
          else
            '(st1, newRight) ← insertAt fuel' zeroes st (n_right n) key value (pred lvl);
            Some (store_inner st1 (n_left n) newRight)
      end
  end.

(** [Insert]: the root is replaced; the error result is always nil. *)
Definition Insert (t : SparseMerkleTree) (key value : bytes) : option SparseMerkleTree :=
  '(st, root) ← insertAt (S (t_depth t)) (t_zeroes t) (t_store t) (t_root t) key value (t_depth t);
  Some {| t_root := root; t_depth := t_depth t; t_store := st; t_zeroes := t_zeroes t |}.

(** [BulkInsert], given the order in which the map's iteration visits the entries. *)
Fixpoint BulkInsert (t : SparseMerkleTree) (entries : list (bytes * bytes)) :
    option SparseMerkleTree :=
  match entries with
  | [] => Some t
  | (key, value) :: rest => t' ← Insert t key value; BulkInsert t' rest
  end.

(** [Clone]: values are immutable here, so the deep copy is the value itself. *)
Definition Clone (t : SparseMerkleTree) : SparseMerkleTree :=
  {| t_root := t_root t; t_depth := t_depth t;
     t_store := (fun n => {| n_left := n_left n; n_right := n_right n; n_hash := n_hash n;
                             n_leaf := n_leaf n; n_key := n_key n; n_value := n_value n |})
                  <$> t_store t;
     t_zeroes := t_zeroes t |}.

Definition Root (t : SparseMerkleTree) : bytes := t_root t.

(** The loop of [Get]; [None] is [ErrNotFound]. *)
Fixpoint get_loop (st : gmap bytes node) (key current : bytes) (lvl : nat) : option bytes :=
  match lvl with
  | O => None
  | S depth =>
      match st !! current with
      | None => None
      | Some n =>
          if n_leaf n then
            if decide (n_key n = key) then Some (n_value n) else None
          else if (path key (Z.of_nat depth) =? 0)%Z
          then get_loop st key (n_left n) depth
          else get_loop st key (n_right n) depth
      end
  end.

Definition Get (t : SparseMerkleTree) (key : bytes) : option bytes :=
  get_loop (t_store t) key (t_root t) (t_depth t).

(** The loop of [Prove] and the check after it; the siblings are prepended. *)
Fixpoint prove_loop (st : gmap bytes node) (key current : bytes) (lvl : nat)
    (proof : list bytes) : option (list bytes) :=
  match lvl with
  | O =>
      match st !! current with
      | None => None
      | Some n =>
          if n_leaf n && bool_decide (n_key n = key) then Some proof else None
      end
  | S depth =>
      match st !! current with
      | None => None
      | Some n =>
          if n_leaf n then
            if decide (n_key n = key) then Some proof else None
          else if (path key (Z.of_nat depth) =? 0)%Z
          then prove_loop st key (n_left n) depth (n_right n :: proof)
          else prove_loop st key (n_right n) depth (n_left n :: proof)
      end
  end.

Definition Prove (t : SparseMerkleTree) (key : bytes) : option (list bytes) :=
  prove_loop (t_store t) key (t_root t) (t_depth t) [].

(** The loop of [Verify]: the sibling at position i belongs to depth [depth + i]. *)
Fixpoint verify_loop (key current : bytes) (proof : list bytes) (depth : Z) : bytes :=
  match proof with
  | [] => current
  | p :: proof' =>
      let current' := if (path key depth =? 0)%Z then parentHash current p
                      else parentHash p current in
      verify_loop key current' proof' (depth + 1)
  end.

Definition Verify (t : SparseMerkleTree) (key value root : bytes) (proof : list bytes) : bool :=
  if (t_depth t <? length proof)%nat then false
  else
    bool_decide (verify_loop key (leafHash key value) proof
                   (Z.of_nat (t_depth t) - Z.of_nat (length proof)) = root).
End smt.

#[export] Instance node_eq_dec : EqDecision node.
Proof. solve_decision. Defined.

Section encoding.
Context `{Primitives}.

(** The field lengths make the leaf encoding injective: moving the boundary between the
    key and the value changes the message. *)
Lemma leaf_msg_inj k1 v1 k2 v2 :
  (Z.of_nat (length k1) < 2 ^ 64)%Z → (Z.of_nat (length k2) < 2 ^ 64)%Z →
  leaf_msg k1 v1 = leaf_msg k2 v2 → k1 = k2 ∧ v1 = v2.
Proof.
  intros H1 H2 Heq. unfold leaf_msg in Heq.
  apply app_inj_length in Heq as [_ Heq]; [|done].
  apply app_inj_length in Heq as [Hl Heq]; [|by rewrite !length_be_bytes].
  apply be_bytes_inj in Hl; [|split; [lia|exact H1]|split; [lia|exact H2]].
  apply app_inj_length in Heq as [-> Heq]; [|lia].
  apply app_inj_length in Heq as [_ ->]; [done|by rewrite !length_be_bytes].
Qed.

Lemma length_leaf_msg k v : length (leaf_msg k v) = (20 + length k + length v)%nat.
Proof. unfold leaf_msg. len_simpl. lia. Qed.

Lemma length_zero_prefix n : length (zero_prefix n) = n.
Proof. induction n as [|n IH]; simpl; [done|]. rewrite length_app, IH. simpl. lia. Qed.
End encoding.
