(* ===== verification/SmtSpec.v ===== *)
(** * Abstract specification of the sparse Merkle tree

    A [tree] is the shape the store of [Smt.v] denotes: subtrees with no key, a leaf at
    the highest position that separates its key from the others, and inner nodes.
    [tinsert] and [tlookup] are the operations on shapes. A [canon]ical shape is determined
    by the finite map it stores ([canon_ext]), so the order of insertions does not matter. *)
From S2P Require Import Prelude Crypto Smt.

Inductive tree : Type :=
| TEmpty
| TLeaf (k v : bytes)
| TNode (l r : tree).

#[export] Instance tree_eq_dec : EqDecision tree.
Proof. solve_decision. Defined.

(** The child a key belongs to below a node at a depth. *)
Definition goes_left (k : bytes) (d : nat) : bool := (path k (Z.of_nat d) =? 0)%Z.

Fixpoint tsplit (lvl : nat) (k0 v0 k v : bytes) : tree :=
  match lvl with
  | O => TLeaf k v
  | S d =>
      match goes_left k0 d, goes_left k d with
      | true, true => TNode (tsplit d k0 v0 k v) TEmpty
      | false, false => TNode TEmpty (tsplit d k0 v0 k v)
      | true, false => TNode (TLeaf k0 v0) (TLeaf k v)
      | false, true => TNode (TLeaf k v) (TLeaf k0 v0)
      end
  end.

Fixpoint tinsert (lvl : nat) (k v : bytes) (T : tree) {struct T} : tree :=
  match T with
  | TEmpty => TLeaf k v
  | TLeaf k0 v0 =>
      if decide (k0 = k) then TLeaf k v
      else match lvl with O => T | S _ => tsplit lvl k0 v0 k v end
  | TNode l r =>
      match lvl with
      | O => T
      | S d => if goes_left k d then TNode (tinsert d k v l) r else TNode l (tinsert d k v r)
      end
  end.

Fixpoint tlookup (lvl : nat) (k : bytes) (T : tree) {struct T} : option bytes :=
  match T with
  | TEmpty => None
  | TLeaf k0 v0 => if decide (k0 = k) then Some v0 else None
  | TNode l r =>
      match lvl with
      | O => None
      | S d => tlookup d k (if goes_left k d then l else r)
      end
  end.

Definition tinsert_all (lvl : nat) (kvs : list (bytes * bytes)) (T : tree) : tree :=
  fold_left (fun T kv => tinsert lvl (fst kv) (snd kv) T) kvs T.

Fixpoint tkeys (T : tree) : list bytes :=
  match T with
  | TEmpty => []
  | TLeaf k _ => [k]
  | TNode l r => tkeys l ++ tkeys r
  end.

(** Two keys that are told apart by the bits below a level. *)
Definition separated (lvl : nat) (k1 k2 : bytes) : Prop :=
  ∃ d, d < lvl ∧ goes_left k1 d ≠ goes_left k2 d.

(** Keys [k1] and [k2] choose the same children at and above [lvl]. *)
Definition agree_from (lvl depth : nat) (k1 k2 : bytes) : Prop :=
  ∀ d, lvl ≤ d < depth → goes_left k1 d = goes_left k2 d.

Fixpoint canon (lvl : nat) (T : tree) {struct T} : Prop :=
  match T with
  | TEmpty => True
  | TLeaf _ _ => True
  | TNode l r =>
      match lvl with
      | O => False
      | S d => canon d l ∧ canon d r ∧
               Forall (fun k => goes_left k d = true) (tkeys l) ∧
               Forall (fun k => goes_left k d = false) (tkeys r) ∧
               2 ≤ length (tkeys l) + length (tkeys r)
      end
  end.

(** ** Lookup after insertion *)

Lemma path_cases k d : path k d = 0%Z ∨ path k d = 1%Z.
Proof.
  unfold path. destruct (d <? 0)%Z; [by left|].
  destruct (k !! _); [|by left].
  rewrite (Z.land_ones _ 1) by lia. change (2 ^ 1)%Z with 2%Z.
  pose proof (Z.mod_pos_bound (Z.shiftr z (d mod 8)) 2). lia.
Qed.

Lemma path_eqb k1 k2 d :
  (path k1 (Z.of_nat d) =? path k2 (Z.of_nat d))%Z = Bool.eqb (goes_left k1 d) (goes_left k2 d).
Proof.
  unfold goes_left.
  destruct (path_cases k1 (Z.of_nat d)) as [-> | ->], (path_cases k2 (Z.of_nat d)) as [-> | ->];
    reflexivity.
Qed.

Lemma separated_S d k0 k :
  separated (S d) k0 k → goes_left k0 d = goes_left k d → separated d k0 k.
Proof.
  intros (e & He & Hne) Heq. exists e. split; [|done].
  destruct (decide (e = d)); [congruence|lia].
Qed.

Lemma not_separated_0 k0 k : ¬ separated 0 k0 k.
Proof. intros (d & Hd & _). lia. Qed.

Lemma tlookup_tsplit lvl k0 v0 k v k' :
  separated lvl k0 k →
  tlookup lvl k' (tsplit lvl k0 v0 k v) =
    if decide (k = k') then Some v else if decide (k0 = k') then Some v0 else None.
Proof.
  induction lvl as [|d IH]; intros Hsep; [by apply not_separated_0 in Hsep|].
  simpl. destruct (goes_left k0 d) eqn:E0, (goes_left k d) eqn:E1;
    simpl; destruct (goes_left k' d) eqn:E';
    try (rewrite IH by (apply separated_S; [done|congruence]));
    simpl; repeat case_decide; congruence.
Qed.

Lemma tlookup_tinsert lvl k v T k' :
  (∀ k0, k0 ∈ tkeys T → k0 ≠ k → separated lvl k0 k) → canon lvl T →
  tlookup lvl k' (tinsert lvl k v T) = if decide (k = k') then Some v else tlookup lvl k' T.
Proof.
  revert lvl. induction T as [|k0 v0|l IHl r IHr]; intros lvl Hsep Hc.
  - destruct lvl; done.
  - assert (Hs : k0 ≠ k → separated lvl k0 k) by (apply Hsep; simpl; set_solver).
    simpl. case_decide as Hk; subst.
    + destruct lvl; simpl; by repeat case_decide.
    + specialize (Hs Hk). destruct lvl as [|d]; [by apply not_separated_0 in Hs|].
      rewrite tlookup_tsplit by done. by repeat case_decide.
  - destruct lvl as [|d]; [done|]. destruct Hc as (Hcl & Hcr & Hkl & Hkr & _).
    simpl. rewrite Forall_forall in Hkl, Hkr.
    destruct (goes_left k d) eqn:E; simpl; destruct (goes_left k' d) eqn:E'.
    + rewrite IHl; [done| |done]. intros k0 Hk0 Hne.
      apply separated_S; [apply Hsep; [simpl; set_solver|done]|]. rewrite E. by apply Hkl.
    + rewrite decide_False; [done|congruence].
    + rewrite decide_False; [done|congruence].
    + rewrite IHr; [done| |done]. intros k0 Hk0 Hne.
      apply separated_S; [apply Hsep; [simpl; set_solver|done]|]. rewrite E. by apply Hkr.
Qed.

(** ** Canonicity *)

Lemma tkeys_tsplit lvl k0 v0 k v :
  separated lvl k0 k → tkeys (tsplit lvl k0 v0 k v) ≡ₚ [k0; k].
Proof.
  induction lvl as [|d IH]; intros Hsep; [by apply not_separated_0 in Hsep|].
  simpl. destruct (goes_left k0 d) eqn:E0, (goes_left k d) eqn:E1; simpl;
    rewrite ?app_nil_r; [| |apply Permutation_swap|]; try done;
    apply IH; (apply separated_S; [done|congruence]).
Qed.

Lemma tkeys_tinsert lvl k v T :
  (∀ k0, k0 ∈ tkeys T → k0 ≠ k → separated lvl k0 k) → canon lvl T →
  (∀ x, x ∈ tkeys (tinsert lvl k v T) ↔ x = k ∨ x ∈ tkeys T) ∧
  length (tkeys T) ≤ length (tkeys (tinsert lvl k v T)).
Proof.
  revert lvl. induction T as [|k0 v0|l IHl r IHr]; intros lvl Hsep Hc.
  - destruct lvl; simpl; (split; [set_solver|lia]).
  - simpl. case_decide as Hk; subst; simpl; [split; [set_solver|done]|].
    assert (Hs : separated lvl k0 k) by (apply Hsep; [simpl; set_solver|done]).
    destruct lvl as [|d]; [by apply not_separated_0 in Hs|].
    pose proof (tkeys_tsplit (S d) k0 v0 k v Hs) as Hp. split.
    + intros x. rewrite Hp. set_solver.
    + rewrite Hp. simpl. lia.
  - destruct lvl as [|d]; [done|]. destruct Hc as (Hcl & Hcr & Hkl & Hkr & _).
    rewrite Forall_forall in Hkl, Hkr.
    simpl. destruct (goes_left k d) eqn:E; simpl; rewrite !length_app.
    + edestruct (IHl d) as [Hin Hlen]; [|done|].
      { intros k0 Hk0 Hne. apply separated_S; [apply Hsep; [simpl; set_solver|done]|].
        rewrite E. by apply Hkl. }
      split; [|lia]. intros x. rewrite !elem_of_app, Hin. tauto.
    + edestruct (IHr d) as [Hin Hlen]; [|done|].
      { intros k0 Hk0 Hne. apply separated_S; [apply Hsep; [simpl; set_solver|done]|].
        rewrite E. by apply Hkr. }
      split; [|lia]. intros x. rewrite !elem_of_app, Hin. tauto.
Qed.

Lemma canon_tsplit lvl k0 v0 k v : separated lvl k0 k → canon lvl (tsplit lvl k0 v0 k v).
Proof.
  induction lvl as [|d IH]; intros Hsep; [by apply not_separated_0 in Hsep|].
  simpl. destruct (goes_left k0 d) eqn:E0, (goes_left k d) eqn:E1; simpl;
    try (split_and!; repeat constructor; (done || lia)).
  - assert (Hs : separated d k0 k) by (apply separated_S; [done|congruence]).
    pose proof (tkeys_tsplit d k0 v0 k v Hs) as Hp.
    rewrite (Permutation_length Hp). split_and!; auto; try (simpl; lia);
      apply Forall_forall; intros x Hx; try rewrite Hp in Hx; set_solver.
  - assert (Hs : separated d k0 k) by (apply separated_S; [done|congruence]).
    pose proof (tkeys_tsplit d k0 v0 k v Hs) as Hp.
    rewrite (Permutation_length Hp). split_and!; auto; try (simpl; lia);
      apply Forall_forall; intros x Hx; try rewrite Hp in Hx; set_solver.
Qed.

Lemma canon_tinsert lvl k v T :
  (∀ k0, k0 ∈ tkeys T → k0 ≠ k → separated lvl k0 k) → canon lvl T →
  canon lvl (tinsert lvl k v T).
Proof.
  revert lvl. induction T as [|k0 v0|l IHl r IHr]; intros lvl Hsep Hc.
  - by destruct lvl.
  - simpl. case_decide; subst; [by destruct lvl|].
    assert (Hs : separated lvl k0 k) by (apply Hsep; [simpl; set_solver|done]).
    destruct lvl as [|d]; [by apply not_separated_0 in Hs|]. by apply canon_tsplit.
  - destruct lvl as [|d]; [done|]. pose proof Hc as (Hcl & Hcr & Hkl & Hkr & Hn).
    pose proof Hkl as Hkl'. pose proof Hkr as Hkr'. rewrite Forall_forall in Hkl', Hkr'.
    simpl. destruct (goes_left k d) eqn:E; simpl.
    + assert (Hsl : ∀ k0, k0 ∈ tkeys l → k0 ≠ k → separated d k0 k).
      { intros k0 Hk0 Hne. apply separated_S; [apply Hsep; [simpl; set_solver|done]|].
        rewrite E. by apply Hkl'. }
      destruct (tkeys_tinsert d k v l Hsl Hcl) as [Hin Hlen].
      split_and!; auto; [|lia]. apply Forall_forall. intros x Hx%Hin. naive_solver.
    + assert (Hsr : ∀ k0, k0 ∈ tkeys r → k0 ≠ k → separated d k0 k).
      { intros k0 Hk0 Hne. apply separated_S; [apply Hsep; [simpl; set_solver|done]|].
        rewrite E. by apply Hkr'. }
      destruct (tkeys_tinsert d k v r Hsr Hcr) as [Hin Hlen].
      split_and!; auto; [|lia]. apply Forall_forall. intros x Hx%Hin. naive_solver.
Qed.

(** The keys of a canonical shape are exactly those it finds. *)
Lemma tlookup_tkeys lvl T k : canon lvl T → (k ∈ tkeys T ↔ is_Some (tlookup lvl k T)).
Proof.
  revert lvl. induction T as [|k0 v0|l IHl r IHr]; intros lvl Hc.
  - destruct lvl; simpl; (split; [set_solver|by intros []]).
  - destruct lvl; simpl; case_decide; subst; rewrite list_elem_of_singleton; naive_solver.
  - destruct lvl as [|d]; [done|]. destruct Hc as (Hcl & Hcr & Hkl & Hkr & _).
    rewrite Forall_forall in Hkl, Hkr. simpl. rewrite elem_of_app.
    destruct (goes_left k d) eqn:E.
    + rewrite <- (IHl d Hcl). split; [|tauto]. intros [?|Hr]; [done|].
      apply Hkr in Hr. congruence.
    + rewrite <- (IHr d Hcr). split; [|tauto]. intros [Hl|?]; [|done].
      apply Hkl in Hl. congruence.
Qed.

Lemma NoDup_tkeys lvl T : canon lvl T → NoDup (tkeys T).
Proof.
  revert lvl. induction T as [|k0 v0|l IHl r IHr]; intros lvl Hc.
  - constructor.
  - simpl. constructor; [set_solver|constructor].
  - destruct lvl as [|d]; [done|]. destruct Hc as (Hcl & Hcr & Hkl & Hkr & _).
    rewrite Forall_forall in Hkl, Hkr. simpl. apply NoDup_app. split_and!; eauto.
    intros x Hx1%Hkl Hx2%Hkr. congruence.
Qed.

(** ** Extensionality *)

Lemma tlookup_Some_key lvl T k v : canon lvl T → tlookup lvl k T = Some v → k ∈ tkeys T.
Proof. intros Hc Hk. apply (tlookup_tkeys lvl T k Hc). by eexists. Qed.

Lemma canon_two_keys d l r :
  canon (S d) (TNode l r) → ∃ k1 k2, k1 ≠ k2 ∧ k1 ∈ tkeys (TNode l r) ∧ k2 ∈ tkeys (TNode l r).
Proof.
  intros Hc. pose proof (NoDup_tkeys _ _ Hc) as Hnd.
  assert (Hlen : 2 ≤ length (tkeys (TNode l r))).
  { simpl. rewrite length_app. by destruct Hc as (_ & _ & _ & _ & Hn). }
  destruct (tkeys (TNode l r)) as [|k1 [|k2 ks]]; simpl in Hlen; [lia|lia|].
  exists k1, k2. apply NoDup_cons in Hnd as [Hn _]. set_solver.
Qed.

(** The lookups of the two children are the two halves of the parent's. *)
Lemma tlookup_child d l r (b : bool) k :
  canon (S d) (TNode l r) →
  tlookup d k (if b then l else r) =
    if Bool.eqb (goes_left k d) b then tlookup (S d) k (TNode l r) else None.
Proof.
  intros (Hcl & Hcr & Hkl & Hkr & _). rewrite Forall_forall in Hkl, Hkr. simpl.
  destruct b, (goes_left k d) eqn:E; simpl; try done.
  - destruct (tlookup d k l) eqn:Ek; [|done]. apply tlookup_Some_key in Ek; [|done].
    apply Hkl in Ek. congruence.
  - destruct (tlookup d k r) eqn:Ek; [|done]. apply tlookup_Some_key in Ek; [|done].
    apply Hkr in Ek. congruence.
Qed.

Lemma canon_ext_node lvl l r T :
  canon lvl (TNode l r) → canon lvl T →
  (∀ k, tlookup lvl k (TNode l r) = tlookup lvl k T) → ∃ l' r', T = TNode l' r'.
Proof.
  intros Hc HcT Hext. destruct lvl as [|d]; [done|].
  destruct (canon_two_keys d l r Hc) as (k1 & k2 & Hne & H1 & H2).
  apply (tlookup_tkeys _ _ _ Hc) in H1, H2. rewrite Hext in H1, H2.
  destruct T as [|k0 v0|l' r']; [by destruct H1| |by eauto].
  simpl in H1, H2. repeat case_decide; by (destruct H1, H2; congruence).
Qed.

Lemma canon_ext lvl T1 T2 :
  canon lvl T1 → canon lvl T2 → (∀ k, tlookup lvl k T1 = tlookup lvl k T2) → T1 = T2.
Proof.
  revert lvl T2. induction T1 as [|k1 v1|l IHl r IHr]; intros lvl T2 Hc1 Hc2 Hext.
  - destruct T2 as [|k2 v2|l2 r2]; [done| |].
    + specialize (Hext k2). simpl in Hext. by rewrite decide_True in Hext.
    + destruct (canon_ext_node lvl l2 r2 TEmpty) as (? & ? & ?); done.
  - destruct T2 as [|k2 v2|l2 r2].
    + specialize (Hext k1). simpl in Hext. by rewrite decide_True in Hext.
    + pose proof (Hext k1) as He. simpl in He. rewrite decide_True in He by done.
      case_decide; congruence.
    + destruct (canon_ext_node lvl l2 r2 (TLeaf k1 v1)) as (? & ? & ?); done.
  - destruct (canon_ext_node lvl l r T2) as (l2 & r2 & ->); [done..|].
    destruct lvl as [|d]; [done|].
    pose proof Hc1 as (Hl1 & Hr1 & _). pose proof Hc2 as (Hl2 & Hr2 & _). f_equal.
    + apply (IHl d); [done..|]. intros k.
      rewrite (tlookup_child d l r true k Hc1), (tlookup_child d l2 r2 true k Hc2).
      by rewrite Hext.
    + apply (IHr d); [done..|]. intros k.
      rewrite (tlookup_child d l r false k Hc1), (tlookup_child d l2 r2 false k Hc2).
      by rewrite Hext.
Qed.

(** ** Sequences of insertions *)

(** Keys that differ are told apart within the depth of the tree. *)
Definition keys_separated (lvl : nat) (ks : list bytes) : Prop :=
  ∀ k1 k2, k1 ∈ ks → k2 ∈ ks → k1 ≠ k2 → separated lvl k1 k2.

(** The last value written for a key. *)
Fixpoint last_write (kvs : list (bytes * bytes)) (k : bytes) : option bytes :=
  match kvs with
  | [] => None
  | (k0, v0) :: rest =>
      match last_write rest k with
      | Some v => Some v
      | None => if decide (k0 = k) then Some v0 else None
      end
  end.

Lemma tinsert_all_spec lvl kvs T :
  keys_separated lvl (tkeys T ++ kvs.*1) → canon lvl T →
  canon lvl (tinsert_all lvl kvs T) ∧
  (∀ x, x ∈ tkeys (tinsert_all lvl kvs T) → x ∈ tkeys T ++ kvs.*1) ∧
  ∀ k, tlookup lvl k (tinsert_all lvl kvs T) =
       match last_write kvs k with Some v => Some v | None => tlookup lvl k T end.
Proof.
  revert T. induction kvs as [|[k v] rest IH]; intros T Hsep Hc; simpl.
  { split_and!; [done|intros x; set_solver|done]. }
  assert (Hs : ∀ k0, k0 ∈ tkeys T → k0 ≠ k → separated lvl k0 k).
  { intros k0 Hk0 Hne. apply Hsep; simpl; set_solver. }
  destruct (tkeys_tinsert lvl k v T Hs Hc) as [Hin _].
  destruct (IH (tinsert lvl k v T)) as (Hc' & Hk' & Hl').
  { intros k1 k2 H1 H2. apply Hsep; simpl in *; rewrite elem_of_app, Hin in *; set_solver. }
  { by apply canon_tinsert. }
  split_and!; [done| |].
  - intros x Hx%Hk'. rewrite elem_of_app, Hin in Hx. simpl. set_solver.
  - intros k'. rewrite Hl', tlookup_tinsert by done.
    destruct (last_write rest k'); [done|]. by case_decide.
Qed.

(** 32-byte keys that differ have a bit that differs, so depth 256 separates them. *)
Lemma goes_left_testbit k d b :
  k !! (d / 8)%nat = Some b → goes_left k d = negb (Z.testbit b (Z.of_nat d mod 8)).
Proof.
  intros Hb. unfold goes_left, path.
  rewrite (proj2 (Z.ltb_ge (Z.of_nat d) 0)) by lia.
  replace (Z.to_nat (Z.of_nat d / 8)) with (d / 8)%nat
    by (change 8%Z with (Z.of_nat 8); rewrite <- Nat2Z.inj_div, Nat2Z.id; done).
  rewrite Hb, (Z.land_ones _ 1), <- Z.bit0_mod by lia.
  rewrite Z.shiftr_spec, Z.add_0_l by lia. by destruct (Z.testbit b _).
Qed.

Lemma byte_testbit_ext a b :
  byte_ok a → byte_ok b → (∀ i, (0 <= i < 8)%Z → Z.testbit a i = Z.testbit b i) → a = b.
Proof.
  unfold byte_ok. intros Ha Hb Hext. apply Z.bits_inj'. intros n Hn.
  destruct (Z.ltb_spec n 8); [apply Hext; lia|].
  assert (2 ^ 8 <= 2 ^ n)%Z by (apply Z.pow_le_mono_r; lia).
  rewrite !Z.testbit_eqb, !Z.div_small by lia. done.
Qed.

Lemma bytes_separated n k1 k2 :
  bytes_ok n k1 → bytes_ok n k2 → k1 ≠ k2 → separated (8 * n) k1 k2.
Proof.
  intros [Hl1 Hb1] [Hl2 Hb2] Hne.
  destruct (decide (Exists (fun d => goes_left k1 d ≠ goes_left k2 d) (seq 0 (8 * n)))) as [Hd|Hd].
  { apply Exists_exists in Hd as (d & Hd%elem_of_seq & ?). exists d. split; [lia|done]. }
  exfalso. apply Hne. apply list_eq_same_length with n; [done..|].
  intros i x y Hi Hx Hy. rewrite Forall_forall in Hb1, Hb2.
  apply byte_testbit_ext;
    [eapply Hb1, list_elem_of_lookup_2, Hx|eapply Hb2, list_elem_of_lookup_2, Hy|].
  intros j Hj. apply dec_stable. intros Hbit. apply Hd.
  apply Exists_exists. exists (8 * i + Z.to_nat j). split; [apply elem_of_seq; lia|].
  assert (Hdiv : (8 * i + Z.to_nat j) / 8 = i).
  { symmetry. apply (Nat.div_unique _ 8 i (Z.to_nat j)); lia. }
  assert (Hmod : (Z.of_nat (8 * i + Z.to_nat j) mod 8 = j)%Z).
  { symmetry. apply (Z.mod_unique_pos _ 8 (Z.of_nat i) j); lia. }
  rewrite !(goes_left_testbit _ _ x), !(goes_left_testbit _ _ y), Hmod by (rewrite Hdiv; done).
  by destruct (Z.testbit x j), (Z.testbit y j).
Qed.
