(* ===== verification/SmtRefine.v ===== *)
(** * Refinement of the sparse Merkle tree

    The content-addressed store of [Smt.v] implements the shapes of [SmtSpec.v]. The
    representation invariant [smt_rep] says that the root is the digest of a canonical
    shape whose nodes are all in the store, and that no stored node has the digest of an
    empty subtree. It is relative to a set [D] of messages on which BLAKE3 has no
    collision and no all-zero digest; the closed theorems instantiate [D] with the
    messages the run hashes. *)
From S2P Require Import Prelude Crypto Smt SmtSpec.

Section refine.
Context `{Primitives}.

(** The digest of an empty subtree at a level ([zeroes[i]] of the source). *)
Fixpoint zero_at (i : nat) : bytes :=
  match i with
  | O => zeros hashLen
  | S j => let z := zero_at j in parentHash z z
  end.

Fixpoint thash (lvl : nat) (T : tree) {struct T} : bytes :=
  match T with
  | TEmpty => zero_at lvl
  | TLeaf k v => leafHash k v
  | TNode l r => parentHash (thash (pred lvl) l) (thash (pred lvl) r)
  end.

(** The root of the struct: the empty tree has the zero array as its root. *)
Definition root_hash (depth : nat) (T : tree) : bytes :=
  match T with TEmpty => zeros hashLen | _ => thash depth T end.

(** The messages hashed to obtain the digest of a shape. *)
Fixpoint tree_msgs (lvl : nat) (T : tree) {struct T} : list bytes :=
  match T with
  | TEmpty => []
  | TLeaf k v => [leaf_msg k v]
  | TNode l r =>
      parent_msg (thash (pred lvl) l) (thash (pred lvl) r) ::
      tree_msgs (pred lvl) l ++ tree_msgs (pred lvl) r
  end.

Definition zero_msgs (depth : nat) : list bytes :=
  (fun i => parent_msg (zero_at i) (zero_at i)) <$> seq 0 depth.

(** Entries as the engine inserts them: 32-byte keys and 32-byte values. *)
Definition entry_ok (k v : bytes) : Prop := length k = hashLen ∧ length v = hashLen.

Fixpoint tree_entries_ok (T : tree) : Prop :=
  match T with
  | TEmpty => True
  | TLeaf k v => entry_ok k v
  | TNode l r => tree_entries_ok l ∧ tree_entries_ok r
  end.

(** Every node of a shape is in the store under its digest. *)
Fixpoint stored (st : gmap bytes node) (lvl : nat) (T : tree) {struct T} : Prop :=
  match T with
  | TEmpty => True
  | TLeaf k v => st !! leafHash k v = Some (leaf_node k v)
  | TNode l r =>
      st !! thash lvl T = Some (inner_node (thash (pred lvl) l) (thash (pred lvl) r)) ∧
      stored st (pred lvl) l ∧ stored st (pred lvl) r
  end.

(** What a stored node can be. *)
Inductive node_ok (D : bytes → Prop) (depth : nat) : bytes → node → Prop :=
| node_ok_leaf k v :
    entry_ok k v → D (leaf_msg k v) →
    node_ok D depth (leafHash k v) (leaf_node k v)
| node_ok_inner l r :
    length l = hashLen → length r = hashLen → D (parent_msg l r) →
    (∀ i, i < depth → ¬ (l = zero_at i ∧ r = zero_at i)) →
    node_ok D depth (parentHash l r) (inner_node l r).

Definition store_ok (D : bytes → Prop) (depth : nat) (st : gmap bytes node) : Prop :=
  map_Forall (node_ok D depth) st.

(** The hashing assumption for a set of messages. *)
Record hash_ok (D : bytes → Prop) (depth : nat) : Prop := {
  hash_ok_inj : collision_free D;
  hash_ok_nonzero m : D m → blake3 m ≠ zeros hashLen;
  hash_ok_zero i : i < depth → D (parent_msg (zero_at i) (zero_at i));
}.

Record smt_rep (D : bytes → Prop) (t : SparseMerkleTree) (T : tree) : Prop := {
  rep_zeroes : t_zeroes t = t_zeroes (New (t_depth t));
  rep_root : t_root t = root_hash (t_depth t) T;
  rep_store : store_ok D (t_depth t) (t_store t);
  rep_stored : stored (t_store t) (t_depth t) T;
  rep_canon : canon (t_depth t) T;
  rep_entries : tree_entries_ok T;
  rep_msgs : Forall D (tree_msgs (t_depth t) T);
}.

(** ** Digests *)

Context `{!Blake3Length}.

Lemma length_parentHash l r : length (parentHash l r) = hashLen.
Proof. apply length_blake3. Qed.

Lemma length_leafHash k v : length (leafHash k v) = hashLen.
Proof. apply length_blake3. Qed.

Lemma length_zero_at i : length (zero_at i) = hashLen.
Proof. destruct i; [apply length_zeros|apply length_parentHash]. Qed.

Lemma length_thash lvl T : length (thash lvl T) = hashLen.
Proof.
  destruct T; simpl; auto using length_zero_at, length_leafHash, length_parentHash.
Qed.

#[local] Hint Resolve length_parentHash length_leafHash length_zero_at length_thash : core.

Lemma zero_prefix_lookup n i : i < n → zero_prefix n !! i = Some (zero_at i).
Proof.
  revert i. induction n as [|n IH]; intros i Hi; [lia|]. simpl.
  destruct (decide (i < n)).
  - rewrite lookup_app_l by (rewrite length_zero_prefix; done). auto.
  - assert (i = n) as -> by lia.
    rewrite lookup_app_r by (rewrite length_zero_prefix; lia).
    rewrite length_zero_prefix, Nat.sub_diag. simpl.
    destruct n as [|n]; [done|]. rewrite IH by (simpl; lia). done.
Qed.

Lemma zeroes_nth depth i : i < depth → nth i (t_zeroes (New depth)) (zeros hashLen) = zero_at i.
Proof.
  intros Hi. apply nth_lookup_Some. simpl.
  rewrite lookup_app_l by (rewrite length_zero_prefix; done).
  by apply zero_prefix_lookup.
Qed.

Section with_D.
Context (D : bytes → Prop) (depth : nat) (HD : hash_ok D depth).

Lemma parent_hash_inj l r l' r' :
  length l = hashLen → length l' = hashLen →
  D (parent_msg l r) → D (parent_msg l' r') →
  parentHash l r = parentHash l' r' → l = l' ∧ r = r'.
Proof.
  intros Hl Hl' H1 H2 Heq. apply (hash_ok_inj _ _ HD) in Heq; [|done..].
  apply app_inj_length; [congruence|done].
Qed.

Lemma leaf_hash_inj k v k' v' :
  entry_ok k v → entry_ok k' v' → D (leaf_msg k v) → D (leaf_msg k' v') →
  leafHash k v = leafHash k' v' → k = k' ∧ v = v'.
Proof.
  intros [Hk _] [Hk' _] H1 H2 Heq. apply (hash_ok_inj _ _ HD) in Heq; [|done..].
  apply leaf_msg_inj; [rewrite Hk|rewrite Hk'|]; done.
Qed.

(** Leaves hash 84 bytes and inner nodes 64: the domains are apart. *)
Lemma leaf_parent_hash k v l r :
  entry_ok k v → length l = hashLen → length r = hashLen →
  D (leaf_msg k v) → D (parent_msg l r) → leafHash k v ≠ parentHash l r.
Proof.
  intros [Hk Hv] Hl Hr H1 H2 Heq. apply (hash_ok_inj _ _ HD) in Heq; [|done..].
  apply (f_equal length) in Heq. rewrite length_leaf_msg in Heq.
  unfold parent_msg in Heq. rewrite length_app in Heq.
  rewrite Hk, Hv, Hl, Hr in Heq. discriminate Heq.
Qed.

Lemma leaf_zero k v i :
  entry_ok k v → D (leaf_msg k v) → i ≤ depth → leafHash k v ≠ zero_at i.
Proof.
  intros Hkv Hm Hi. destruct i as [|j]; simpl.
  - by apply (hash_ok_nonzero _ _ HD).
  - apply leaf_parent_hash; auto. apply (hash_ok_zero _ _ HD). lia.
Qed.

Lemma parent_zero l r i :
  length l = hashLen → length r = hashLen → D (parent_msg l r) → i ≤ depth →
  parentHash l r = zero_at i → ∃ j, i = S j ∧ l = zero_at j ∧ r = zero_at j.
Proof.
  intros Hl Hr Hm Hi Heq. destruct i as [|j]; simpl in Heq.
  - by apply (hash_ok_nonzero _ _ HD) in Heq.
  - exists j. split; [done|]. apply parent_hash_inj in Heq; auto.
    apply (hash_ok_zero _ _ HD). lia.
Qed.

(** No stored node has the digest of an empty subtree. *)
Lemma store_zero st i : store_ok D depth st → i ≤ depth → st !! zero_at i = None.
Proof.
  intros Hst Hi. destruct (st !! zero_at i) as [n|] eqn:E; [|done]. exfalso.
  apply Hst in E. remember (zero_at i) as h eqn:Hh. destruct E as [k v Hkv Hm|l r Hl Hr Hm Hz].
  - by eapply leaf_zero.
  - destruct (parent_zero l r i) as (j & -> & -> & ->); [done..|].
    apply (Hz j); [lia|done].
Qed.

Lemma Forall_msgs_leaf lvl k v : Forall D (tree_msgs lvl (TLeaf k v)) ↔ D (leaf_msg k v).
Proof. simpl. by rewrite Forall_singleton. Qed.

Lemma Forall_msgs_node lvl l r :
  Forall D (tree_msgs lvl (TNode l r)) ↔
  D (parent_msg (thash (pred lvl) l) (thash (pred lvl) r)) ∧
  Forall D (tree_msgs (pred lvl) l) ∧ Forall D (tree_msgs (pred lvl) r).
Proof. simpl. by rewrite Forall_cons, Forall_app. Qed.

(** A nonempty shape does not hash to the digest of an empty one. *)
Lemma thash_nonzero T lvl i :
  T ≠ TEmpty → canon lvl T → tree_entries_ok T → Forall D (tree_msgs lvl T) →
  i ≤ depth → thash lvl T ≠ zero_at i.
Proof.
  revert lvl i. induction T as [|k v|l IHl r IHr]; intros lvl i Hne Hc Hok Hm Hi; [done| |].
  - apply Forall_msgs_leaf in Hm. by apply leaf_zero.
  - apply Forall_msgs_node in Hm as (Hm & Hml & Hmr).
    destruct lvl as [|d]; [done|]. simpl in *. intros Heq.
    destruct Hc as (Hcl & Hcr & _ & _ & Hn). destruct Hok as [Hokl Hokr].
    destruct (parent_zero (thash d l) (thash d r) i) as (j & -> & Hl & Hr); auto.
    destruct (decide (tkeys l = [])) as [El|El].
    + refine (IHr d j _ Hcr Hokr Hmr _ Hr); [|lia].
      intros ->. rewrite El in Hn. simpl in Hn. lia.
    + refine (IHl d j _ Hcl Hokl Hml _ Hl); [|lia]. by intros ->.
Qed.

(** The digest determines the shape. *)
Lemma thash_inj T1 T2 lvl :
  lvl ≤ depth → canon lvl T1 → canon lvl T2 → tree_entries_ok T1 → tree_entries_ok T2 →
  Forall D (tree_msgs lvl T1) → Forall D (tree_msgs lvl T2) →
  thash lvl T1 = thash lvl T2 → T1 = T2.
Proof.
  revert T2 lvl. induction T1 as [|k v|l IHl r IHr];
    intros T2 lvl Hlvl Hc1 Hc2 Ho1 Ho2 Hm1 Hm2 Heq.
  - destruct (decide (T2 = TEmpty)) as [->|Hne] ; [done|].
    exfalso. by apply (thash_nonzero T2 lvl lvl).
  - destruct T2 as [|k2 v2|l2 r2].
    + exfalso. by apply (thash_nonzero (TLeaf k v) lvl lvl).
    + apply Forall_msgs_leaf in Hm1, Hm2. simpl in Heq.
      by apply leaf_hash_inj in Heq as [-> ->].
    + apply Forall_msgs_leaf in Hm1. apply Forall_msgs_node in Hm2 as (Hm2 & _).
      exfalso. revert Heq. by apply leaf_parent_hash.
  - destruct T2 as [|k2 v2|l2 r2].
    + exfalso. by apply (thash_nonzero (TNode l r) lvl lvl).
    + apply Forall_msgs_leaf in Hm2. apply Forall_msgs_node in Hm1 as (Hm1 & _).
      exfalso. symmetry in Heq. revert Heq. by apply leaf_parent_hash.
    + apply Forall_msgs_node in Hm1 as (Hm1 & Hml & Hmr).
      apply Forall_msgs_node in Hm2 as (Hm2 & Hml2 & Hmr2).
      destruct lvl as [|d]; [done|]. destruct Hc1 as (? & ? & _), Hc2 as (? & ? & _).
      destruct Ho1, Ho2. simpl in *. apply parent_hash_inj in Heq as [Hl Hr]; auto.
      f_equal; [apply (IHl l2 d)|apply (IHr r2 d)]; auto; lia.
Qed.

Lemma tree_entries_tsplit lvl k0 v0 k v :
  entry_ok k0 v0 → entry_ok k v → tree_entries_ok (tsplit lvl k0 v0 k v).
Proof.
  intros Hk0 Hk1. induction lvl as [|d IH]; simpl; [done|].
  by destruct (goes_left k0 d), (goes_left k d); simpl.
Qed.

Lemma tree_entries_tinsert lvl k v T :
  tree_entries_ok T → entry_ok k v → tree_entries_ok (tinsert lvl k v T).
Proof.
  intros HT Hkv. revert lvl. induction T as [|k0 v0|l IHl r IHr]; intros lvl.
  - by destruct lvl.
  - simpl. case_decide; [done|]. destruct lvl; [done|]. by apply tree_entries_tsplit.
  - destruct HT. destruct lvl as [|d]; [done|]. simpl. destruct (goes_left k d); simpl; auto.
Qed.

(** ** Growth of the store *)

Lemma stored_mono st st' lvl T : st ⊆ st' → stored st lvl T → stored st' lvl T.
Proof.
  intros Hsub. revert lvl. induction T as [|k v|l IHl r IHr]; intros lvl; [done| |].
  - simpl. intros Hk. by eapply lookup_weaken.
  - intros (Hn & Hl & Hr). split_and!; [by eapply lookup_weaken|auto..].
Qed.

(** Writing a node under its own digest: an existing entry is the same node, so the
    store only grows. *)
Lemma store_add_leaf st k v :
  store_ok D depth st → entry_ok k v → D (leaf_msg k v) →
  st ⊆ <[leafHash k v := leaf_node k v]> st ∧
  store_ok D depth (<[leafHash k v := leaf_node k v]> st).
Proof.
  intros Hst Hkv Hm. split.
  - destruct (st !! leafHash k v) as [n|] eqn:E; [|by apply insert_subseteq].
    assert (n = leaf_node k v) as ->; [|by rewrite insert_id].
    pose proof (Hst _ _ E) as Hn. inversion Hn as [k' v' Hkv' Hm' Heq|l r Hl Hr Hm' Hz Heq]; subst.
    + by apply leaf_hash_inj in Heq as [-> ->].
    + symmetry in Heq. by apply leaf_parent_hash in Heq.
  - apply map_Forall_insert_2; [by constructor|done].
Qed.

Lemma store_add_inner st l r :
  store_ok D depth st → length l = hashLen → length r = hashLen → D (parent_msg l r) →
  (∀ i, i < depth → ¬ (l = zero_at i ∧ r = zero_at i)) →
  st ⊆ (store_inner st l r).1 ∧ store_ok D depth (store_inner st l r).1.
Proof.
  intros Hst Hl Hr Hm Hz. unfold store_inner. simpl. split.
  - destruct (st !! parentHash l r) as [n|] eqn:E; [|by apply insert_subseteq].
    assert (n = inner_node l r) as ->; [|by rewrite insert_id].
    pose proof (Hst _ _ E) as Hn.
    inversion Hn as [k' v' Hkv' Hm' Heq|l' r' Hl' Hr' Hm' Hz' Heq]; subst.
    + by apply leaf_parent_hash in Heq.
    + by apply parent_hash_inj in Heq as [-> ->].
  - apply map_Forall_insert_2; [by constructor|done].
Qed.

(** Storing the node above two stored subtrees. *)
Lemma store_node st d l r :
  S d ≤ depth → store_ok D depth st → stored st d l → stored st d r →
  canon (S d) (TNode l r) → tree_entries_ok (TNode l r) →
  Forall D (tree_msgs (S d) (TNode l r)) →
  ∃ st', store_inner st (thash d l) (thash d r) = (st', thash (S d) (TNode l r)) ∧
         st ⊆ st' ∧ store_ok D depth st' ∧ stored st' (S d) (TNode l r).
Proof.
  intros Hd Hst Hl Hr Hc Ho Hm. pose proof Hm as (Hm0 & Hml & Hmr)%Forall_msgs_node.
  destruct (store_add_inner st (thash d l) (thash d r)) as [Hsub Hok]; auto.
  { intros i Hi [El Er]. apply (thash_nonzero (TNode l r) (S d) (S i)); auto.
    simpl. by rewrite El, Er. }
  eexists. split; [reflexivity|]. split_and!; [done..|].
  simpl. split_and!; [by rewrite lookup_insert_eq|by eapply stored_mono..].
Qed.

Context (zs : list bytes) (Hzs : ∀ i, i < depth → nth i zs (zeros hashLen) = zero_at i).

Lemma splitAndInsert_rep lvl st k0 v0 k v :
  lvl ≤ depth → store_ok D depth st →
  stored st lvl (TLeaf k0 v0) → stored st lvl (TLeaf k v) →
  entry_ok k0 v0 → entry_ok k v → separated lvl k0 k →
  Forall D (tree_msgs lvl (tsplit lvl k0 v0 k v)) →
  ∃ st', splitAndInsert zs st k0 (leafHash k0 v0) k (leafHash k v) lvl
         = (st', thash lvl (tsplit lvl k0 v0 k v)) ∧
         st ⊆ st' ∧ store_ok D depth st' ∧ stored st' lvl (tsplit lvl k0 v0 k v).
Proof.
  induction lvl as [|d IH]; intros Hlvl Hst Hs0 Hs1 Ho0 Ho1 Hsep Hm;
    [by apply not_separated_0 in Hsep|].
  pose proof (canon_tsplit (S d) k0 v0 k v Hsep) as Hc.
  simpl splitAndInsert. rewrite path_eqb. fold (goes_left k0 d).
  rewrite Hzs by lia. simpl in Hm, Hc |- *.
  destruct (goes_left k0 d) eqn:E0, (goes_left k d) eqn:E1; simpl Bool.eqb; cbv iota.
  - apply Forall_msgs_node in Hm as Hm'. destruct Hm' as (_ & Hml & _).
    assert (Hsep' : separated d k0 k) by (apply separated_S; [done|congruence]).
    destruct IH as (st1 & -> & Hsub & Hok & Hs); [lia|done..|].
    destruct (store_node st1 d (tsplit d k0 v0 k v) TEmpty) as (st2 & Heq & Hsub2 & Hok2 & Hs2);
      auto using tree_entries_tsplit; [done|split; auto using tree_entries_tsplit; done|].
    simpl thash in Heq. rewrite Heq. exists st2. split_and!; [done|by etrans|done..].
  - destruct (store_node st d (TLeaf k0 v0) (TLeaf k v)) as (st2 & Heq & Hs2); auto; [done|].
    simpl thash in Heq. rewrite Heq. eauto.
  - destruct (store_node st d (TLeaf k v) (TLeaf k0 v0)) as (st2 & Heq & Hs2); auto; [done|].
    simpl thash in Heq. rewrite Heq. eauto.
  - apply Forall_msgs_node in Hm as Hm'. destruct Hm' as (_ & _ & Hmr).
    assert (Hsep' : separated d k0 k) by (apply separated_S; [done|congruence]).
    destruct IH as (st1 & -> & Hsub & Hok & Hs); [lia|done..|].
    destruct (store_node st1 d TEmpty (tsplit d k0 v0 k v)) as (st2 & Heq & Hsub2 & Hok2 & Hs2);
      auto using tree_entries_tsplit; [done|split; auto using tree_entries_tsplit; done|].
    simpl thash in Heq. rewrite Heq. exists st2. split_and!; [done|by etrans|done..].
Qed.

Lemma tsplit_msgs_new lvl k0 v0 k v :
  Forall D (tree_msgs lvl (tsplit lvl k0 v0 k v)) → D (leaf_msg k v).
Proof.
  induction lvl as [|d IH]; simpl; [by intros ?%Forall_inv|].
  destruct (goes_left k0 d), (goes_left k d);
    intros (_ & Hl & Hr)%Forall_msgs_node; simpl in *; rewrite ?Forall_singleton in *; auto.
Qed.

Lemma child_separated d (b : bool) k l r :
  canon (S d) (TNode l r) → goes_left k d = b →
  (∀ k0, k0 ∈ tkeys (TNode l r) → k0 ≠ k → separated (S d) k0 k) →
  ∀ k0, k0 ∈ tkeys (if b then l else r) → k0 ≠ k → separated d k0 k.
Proof.
  intros (_ & _ & Hkl & Hkr & _) Hb Hsep k0 Hk0 Hne. rewrite Forall_forall in Hkl, Hkr.
  apply separated_S.
  - apply Hsep; [|done]. simpl. apply elem_of_app. destruct b; auto.
  - rewrite Hb. destruct b; auto.
Qed.

(** [insertAt] with fuel above the level returns, and refines [tinsert]. *)
Lemma insertAt_rep T : ∀ fuel lvl st cur k v,
  lvl < fuel → lvl ≤ depth → store_ok D depth st → stored st lvl T → canon lvl T →
  tree_entries_ok T → entry_ok k v →
  (∀ k0, k0 ∈ tkeys T → k0 ≠ k → separated lvl k0 k) →
  Forall D (tree_msgs lvl (tinsert lvl k v T)) →
  match T with TEmpty => st !! cur = None | _ => cur = thash lvl T end →
  ∃ st', insertAt fuel zs st cur k v lvl = Some (st', thash lvl (tinsert lvl k v T)) ∧
         st ⊆ st' ∧ store_ok D depth st' ∧ stored st' lvl (tinsert lvl k v T).
Proof.
  induction T as [|k0 v0|l IHl r IHr]; intros [|fuel] lvl st cur k v Hf Hlvl Hst Hs Hc Ho Hkv Hsep Hm Hcur;
    try lia.
  - simpl. rewrite Hcur. apply Forall_msgs_leaf in Hm.
    destruct (store_add_leaf st k v) as [Hsub Hok]; [done..|].
    eexists. split_and!; [reflexivity|done..|]. simpl. apply lookup_insert_eq.
  - subst cur. simpl in Hs |- *. rewrite Hs. simpl in Hm |- *.
    assert (Hs' : k0 ≠ k → separated lvl k0 k) by (apply Hsep; simpl; set_solver).
    case_decide as Hk.
    + apply Forall_msgs_leaf in Hm. destruct (store_add_leaf st k v) as [Hsub Hok]; [done..|].
      eexists. split_and!; [reflexivity|done..|]. simpl. apply lookup_insert_eq.
    + specialize (Hs' Hk). destruct lvl as [|d]; [by apply not_separated_0 in Hs'|].
      destruct (store_add_leaf st k v) as [Hsub Hok]; [done..|by eapply tsplit_msgs_new|].
      destruct (splitAndInsert_rep (S d) (<[leafHash k v:=leaf_node k v]> st) k0 v0 k v)
        as (st' & Heq & Hsub' & Hok' & Hs2); [done|done| |apply lookup_insert_eq|done..|].
      { by eapply lookup_weaken. }
      rewrite Heq. exists st'. split_and!; [done|by etrans|done..].
  - subst cur. destruct Hs as (Hn & Hsl & Hsr). destruct lvl as [|d]; [done|].
    pose proof Hc as (Hcl & Hcr & Hcond). destruct Ho as [Hol Hor].
    pose proof (canon_tinsert (S d) k v (TNode l r) Hsep Hc) as Hc'.
    cbn [insertAt]. rewrite Hn. cbn [n_leaf inner_node n_left n_right pred].
    replace (Z.of_nat (S d) - 1)%Z with (Z.of_nat d) by lia. fold (goes_left k d).
    simpl in Hm, Hc' |- *.
    destruct (goes_left k d) eqn:E;
      apply Forall_msgs_node in Hm as Hm'; destruct Hm' as (_ & Hml & Hmr); simpl in Hml, Hmr.
    + destruct (IHl fuel d st (thash d l) k v) as (st1 & -> & Hsub1 & Hok1 & Hs1); auto; try lia.
      { by apply (child_separated d true k l r). }
      { destruct l; auto. simpl. apply store_zero; auto. lia. }
      simpl. destruct (store_node st1 d (tinsert d k v l) r) as (st2 & Heq & Hsub2 & Hok2 & Hs2);
        [lia|done|done|by eapply stored_mono|done|by split; [apply tree_entries_tinsert|]|done|].
      rewrite Heq. exists st2. split; [done|]. split; [by etrans|done].
    + destruct (IHr fuel d st (thash d r) k v) as (st1 & -> & Hsub1 & Hok1 & Hs1); auto; try lia.
      { by apply (child_separated d false k l r). }
      { destruct r; auto. simpl. apply store_zero; auto. lia. }
      simpl. destruct (store_node st1 d l (tinsert d k v r)) as (st2 & Heq & Hsub2 & Hok2 & Hs2);
        [lia|done|by eapply stored_mono|done|done|by split; [|apply tree_entries_tinsert]|done|].
      rewrite Heq. exists st2. split; [done|]. split; [by etrans|done].
Qed.
End with_D.
End refine.
