(* ===== verification/SmtProofs.v ===== *)
(** * Sparse Merkle tree: inclusion proofs and the theorems about whole runs

    [Insert], [BulkInsert], [Prove], [Verify] and [Get] against the shapes of
    [SmtSpec.v], then the statements about a tree built from a list of entries. *)
From S2P Require Import Prelude Crypto Smt SmtSpec SmtRefine.

Section ops.
Context `{Primitives} `{!Blake3Length}.

Lemma smt_rep_New D depth : smt_rep D (New depth) TEmpty.
Proof. constructor; simpl; auto; apply map_Forall_empty. Qed.

Lemma root_hash_nonempty depth T : T ≠ TEmpty → root_hash depth T = thash depth T.
Proof. by destruct T. Qed.

Lemma tinsert_nonempty lvl k v T : tinsert lvl k v T ≠ TEmpty.
Proof.
  destruct T as [|k0 v0|l r], lvl as [|d]; simpl; try case_decide; try done;
    repeat match goal with |- context [goes_left ?a ?b] => destruct (goes_left a b) end; done.
Qed.

(** What the loops start from: the root either is not stored (empty tree) or is the
    digest of the shape. *)
Lemma rep_current D t T :
  hash_ok D (t_depth t) → smt_rep D t T →
  match T with
  | TEmpty => t_store t !! t_root t = None
  | _ => t_root t = thash (t_depth t) T
  end.
Proof.
  intros HD [Hz Hr Hst _ _ _ _]. destruct T; auto. rewrite Hr. simpl.
  apply (store_zero D (t_depth t) HD (t_store t) 0); [done|lia].
Qed.

Lemma Insert_rep D t T k v :
  hash_ok D (t_depth t) → smt_rep D t T → entry_ok k v →
  (∀ k0, k0 ∈ tkeys T → k0 ≠ k → separated (t_depth t) k0 k) →
  Forall D (tree_msgs (t_depth t) (tinsert (t_depth t) k v T)) →
  ∃ t', Insert t k v = Some t' ∧ smt_rep D t' (tinsert (t_depth t) k v T) ∧
        t_depth t' = t_depth t ∧ t_store t ⊆ t_store t'.
Proof.
  intros HD Hrep Hkv Hsep Hm. pose proof (rep_current D t T HD Hrep) as Hcur.
  destruct Hrep as [Hz Hr Hst Hs Hc Ho _].
  destruct (insertAt_rep D (t_depth t) HD (t_zeroes t)
              ltac:(rewrite Hz; apply zeroes_nth) T (S (t_depth t)) (t_depth t)
              (t_store t) (t_root t) k v) as (st' & Heq & Hsub & Hok & Hs'); auto.
  unfold Insert. rewrite Heq. simpl. eexists. split; [reflexivity|].
  split_and!; [|done..]. constructor; simpl; auto.
  - by rewrite root_hash_nonempty by apply tinsert_nonempty.
  - by apply canon_tinsert.
  - by apply tree_entries_tinsert.
Qed.

(** The messages hashed by a sequence of insertions. *)
Fixpoint run_msgs (lvl : nat) (kvs : list (bytes * bytes)) (T : tree) : list bytes :=
  match kvs with
  | [] => []
  | (k, v) :: rest =>
      tree_msgs lvl (tinsert lvl k v T) ++ run_msgs lvl rest (tinsert lvl k v T)
  end.

Lemma BulkInsert_rep D kvs t T :
  hash_ok D (t_depth t) → smt_rep D t T →
  Forall (fun kv => entry_ok kv.1 kv.2) kvs →
  keys_separated (t_depth t) (tkeys T ++ kvs.*1) →
  Forall D (run_msgs (t_depth t) kvs T) →
  ∃ t', BulkInsert t kvs = Some t' ∧ smt_rep D t' (tinsert_all (t_depth t) kvs T) ∧
        t_depth t' = t_depth t ∧ t_store t ⊆ t_store t'.
Proof.
  revert t T. induction kvs as [|[k v] rest IH]; intros t T HD Hrep Hkv Hsep Hm.
  { exists t. by split_and!. }
  apply Forall_cons in Hkv as [Hkv Hrest]. simpl in Hm. apply Forall_app in Hm as [Hm1 Hm2].
  assert (Hs : ∀ k0, k0 ∈ tkeys T → k0 ≠ k → separated (t_depth t) k0 k).
  { intros k0 Hk0 Hne. apply Hsep; simpl; set_solver. }
  destruct (Insert_rep D t T k v) as (t1 & Heq & Hrep1 & Hd1 & Hsub1); auto.
  destruct (tkeys_tinsert (t_depth t) k v T Hs (rep_canon _ _ _ Hrep)) as [Hin _].
  destruct (IH t1 (tinsert (t_depth t) k v T)) as (t2 & Heq2 & Hrep2 & Hd2 & Hsub2);
    rewrite ?Hd1; auto.
  { intros k1 k2 Hk1 Hk2. apply Hsep; simpl; rewrite elem_of_app, Hin in *; set_solver. }
  rewrite Hd1 in Hrep2. exists t2. simpl. rewrite Heq. simpl.
  split_and!; [done..|congruence|by etrans].
Qed.

(** ** Inclusion proofs *)

(** The siblings of a key's path, from the leaf up. *)
Fixpoint siblings (lvl : nat) (k : bytes) (T : tree) {struct T} : list bytes :=
  match T with
  | TNode l r =>
      match lvl with
      | O => []
      | S d => if goes_left k d then siblings d k l ++ [thash d r]
               else siblings d k r ++ [thash d l]
      end
  | _ => []
  end.

Lemma length_siblings lvl k T : canon lvl T → length (siblings lvl k T) ≤ lvl.
Proof.
  revert lvl. induction T as [|k0 v0|l IHl r IHr]; intros [|d] Hc; simpl; try lia.
  destruct Hc as (Hl & Hr & _). destruct (goes_left k d); rewrite length_app; simpl.
  - specialize (IHl d Hl). lia.
  - specialize (IHr d Hr). lia.
Qed.

(** Keys told apart only by the lowest bit have a full-length path. *)
Lemma length_siblings_tsplit lvl k1 v1 k2 v2 k :
  separated lvl k1 k2 → agree_from 1 lvl k1 k2 → k = k1 ∨ k = k2 →
  length (siblings lvl k (tsplit lvl k1 v1 k2 v2)) = lvl.
Proof.
  intros Hsep Hag Hk. induction lvl as [|d IH]; [by apply not_separated_0 in Hsep|]. simpl.
  destruct d as [|d'].
  { destruct (goes_left k1 0) eqn:E1, (goes_left k2 0) eqn:E2; simpl;
      destruct Hk as [-> | ->]; rewrite ?E1, ?E2; done. }
  assert (Heq : goes_left k1 (S d') = goes_left k2 (S d')) by (apply Hag; lia).
  assert (Hk' : goes_left k (S d') = goes_left k2 (S d')) by (destruct Hk; congruence).
  specialize (IH ltac:(by apply separated_S) ltac:(intros e He; apply Hag; lia)).
  rewrite Heq. destruct (goes_left k2 (S d')); cbn [siblings]; rewrite Hk', length_app, IH;
    simpl; lia.
Qed.

Section loops.
Context (D : bytes → Prop) (depth : nat) (HD : hash_ok D depth).

Definition at_root (st : gmap bytes node) (lvl : nat) (cur : bytes) (T : tree) : Prop :=
  match T with TEmpty => st !! cur = None | _ => cur = thash lvl T end.

Lemma at_root_child st d T :
  d ≤ depth → store_ok D depth st → at_root st d (thash d T) T.
Proof. intros Hd Hst. destruct T; simpl; auto. by apply (store_zero D depth HD). Qed.

Lemma prove_loop_rep T : ∀ lvl st cur k acc,
  lvl ≤ depth → store_ok D depth st → stored st lvl T → canon lvl T → at_root st lvl cur T →
  prove_loop st k cur lvl acc = (fun _ => siblings lvl k T ++ acc) <$> tlookup lvl k T.
Proof.
  induction T as [|k0 v0|l IHl r IHr]; intros lvl st cur k acc Hlvl Hst Hs Hc Hcur; unfold at_root in Hcur.
  - destruct lvl; simpl; by rewrite Hcur.
  - simpl in Hs. subst cur. destruct lvl; simpl; rewrite Hs; simpl; [|by case_decide].
    case_bool_decide; by case_decide.
  - subst cur. destruct lvl as [|d]; [done|]. destruct Hs as (Hn & Hsl & Hsr).
    destruct Hc as (Hcl & Hcr & _). cbn [prove_loop]. rewrite Hn.
    cbn [n_leaf inner_node n_left n_right pred]. fold (goes_left k d).
    simpl tlookup. simpl siblings.
    destruct (goes_left k d); [rewrite IHl|rewrite IHr]; auto using at_root_child with lia;
      by rewrite <- app_assoc.
Qed.

Lemma get_loop_rep T : ∀ lvl st cur k,
  lvl ≤ depth → store_ok D depth st → stored st lvl T → canon lvl T → at_root st lvl cur T →
  get_loop st k cur lvl =
    if decide (length (siblings lvl k T) < lvl) then tlookup lvl k T else None.
Proof.
  induction T as [|k0 v0|l IHl r IHr]; intros lvl st cur k Hlvl Hst Hs Hc Hcur; unfold at_root in Hcur.
  - destruct lvl; simpl; [done|]. by rewrite Hcur.
  - simpl in Hs. subst cur. destruct lvl; simpl; [done|]. by rewrite Hs.
  - subst cur. destruct lvl as [|d]; [done|]. destruct Hs as (Hn & Hsl & Hsr).
    destruct Hc as (Hcl & Hcr & _). cbn [get_loop]. rewrite Hn.
    cbn [n_leaf inner_node n_left n_right pred]. fold (goes_left k d).
    simpl tlookup. simpl siblings.
    destruct (goes_left k d); rewrite length_app; simpl; [rewrite IHl|rewrite IHr];
      auto using at_root_child with lia; apply decide_ext; lia.
Qed.

Lemma verify_loop_app k c p q d :
  verify_loop k c (p ++ [q]) d =
    if (path k (d + Z.of_nat (length p)) =? 0)%Z
    then parentHash (verify_loop k c p d) q else parentHash q (verify_loop k c p d).
Proof.
  revert c d. induction p as [|x p IH]; intros c d; simpl; [by rewrite Z.add_0_r|].
  rewrite IH. by replace (d + 1 + Z.of_nat (length p))%Z with (d + Z.of_nat (S (length p)))%Z by lia.
Qed.

Lemma verify_loop_siblings T lvl k v :
  canon lvl T → tlookup lvl k T = Some v →
  verify_loop k (leafHash k v) (siblings lvl k T)
    (Z.of_nat lvl - Z.of_nat (length (siblings lvl k T))) = thash lvl T.
Proof.
  revert lvl. induction T as [|k0 v0|l IHl r IHr]; intros lvl Hc Hl; simpl in *.
  - done.
  - case_decide; congruence.
  - destruct lvl as [|d]; [done|]. destruct Hc as (Hcl & Hcr & _).
    destruct (goes_left k d) eqn:E; rewrite length_app, verify_loop_app; simpl length;
      replace (Z.of_nat (S d) - _ + _)%Z with (Z.of_nat d) by lia;
      unfold goes_left in E; rewrite E; f_equal; cbn [pred];
      [rewrite <- (IHl d Hcl Hl)|rewrite <- (IHr d Hcr Hl)]; f_equal; lia.
Qed.

(** The messages [Verify] hashes. *)
Fixpoint verify_msgs (key current : bytes) (proof : list bytes) (d : Z) : list bytes :=
  match proof with
  | [] => []
  | p :: proof' =>
      let m := if (path key d =? 0)%Z then parent_msg current p else parent_msg p current in
      m :: verify_msgs key (blake3 m) proof' (d + 1)
  end.

Lemma verify_msgs_app k c p q d :
  verify_msgs k c (p ++ [q]) d =
    verify_msgs k c p d ++
      [if (path k (d + Z.of_nat (length p)) =? 0)%Z
       then parent_msg (verify_loop k c p d) q else parent_msg q (verify_loop k c p d)].
Proof.
  revert c d. induction p as [|x p IH]; intros c d; simpl; [by rewrite Z.add_0_r|].
  rewrite IH. replace (d + 1 + Z.of_nat (length p))%Z with (d + Z.of_nat (S (length p)))%Z by lia.
  by destruct (path k d =? 0)%Z.
Qed.

Lemma length_verify_loop k c p d : length c = hashLen → length (verify_loop k c p d) = hashLen.
Proof.
  revert c d. induction p as [|x p IH]; intros c d Hc; [done|].
  simpl. apply IH. case_match; apply length_blake3.
Qed.

(** One step down: the parent digest splits into the digest of the child on the key's side. *)
Lemma verify_step T d k c q :
  S d ≤ depth → canon (S d) T → tree_entries_ok T → Forall D (tree_msgs (S d) T) →
  length c = hashLen → length q = hashLen →
  D (if goes_left k d then parent_msg c q else parent_msg q c) →
  (if goes_left k d then parentHash c q else parentHash q c) = thash (S d) T →
  ∃ T', canon d T' ∧ tree_entries_ok T' ∧ Forall D (tree_msgs d T') ∧ c = thash d T' ∧
        tlookup (S d) k T = tlookup d k T'.
Proof.
  intros Hd Hc Ho Hm Hlc Hlq HD' Heq. destruct T as [|k0 v0|l r].
  - exists TEmpty. split_and!; try done. simpl in *.
    destruct (goes_left k d); apply (parent_hash_inj D depth HD) in Heq;
      try apply (hash_ok_zero _ _ HD); auto using length_zero_at; try lia; tauto.
  - exfalso. apply Forall_msgs_leaf in Hm.
    destruct (goes_left k d); symmetry in Heq;
      by apply (leaf_parent_hash D depth HD) in Heq.
  - apply Forall_msgs_node in Hm as (Hm & Hml & Hmr). destruct Hc as (Hcl & Hcr & _), Ho as [Hol Hor].
    exists (if goes_left k d then l else r). simpl in *.
    destruct (goes_left k d); apply (parent_hash_inj D depth HD) in Heq as [Hl Hr];
      auto using length_thash; split_and!; auto.
Qed.

Lemma verify_loop_nonzero k v proof d :
  Forall D (leaf_msg k v :: verify_msgs k (leafHash k v) proof d) →
  verify_loop k (leafHash k v) proof d ≠ zeros hashLen.
Proof.
  intros [Hl Hm]%Forall_cons. destruct proof as [|p q _] using rev_ind.
  - simpl. by apply (hash_ok_nonzero _ _ HD).
  - rewrite verify_msgs_app in Hm. apply Forall_app in Hm as [_ [Hm _]%Forall_cons].
    rewrite verify_loop_app. destruct (_ =? 0)%Z; by apply (hash_ok_nonzero _ _ HD).
Qed.

Lemma root_hash_inj T1 T2 :
  canon depth T1 → canon depth T2 → tree_entries_ok T1 → tree_entries_ok T2 →
  Forall D (tree_msgs depth T1) → Forall D (tree_msgs depth T2) →
  root_hash depth T1 = root_hash depth T2 → T1 = T2.
Proof.
  intros Hc1 Hc2 Ho1 Ho2 Hm1 Hm2.
  destruct (decide (T1 = TEmpty)) as [->|H1], (decide (T2 = TEmpty)) as [->|H2];
    try rewrite (root_hash_nonempty depth T1) by done;
    try rewrite (root_hash_nonempty depth T2) by done; simpl; intros Heq.
  - done.
  - symmetry in Heq. apply (thash_nonzero D depth HD T2 depth 0) in Heq; auto; [done|lia].
  - apply (thash_nonzero D depth HD T1 depth 0) in Heq; auto; [done|lia].
  - by apply (thash_inj D depth HD T1 T2 depth).
Qed.

(** A path that recomputes the digest of a shape leads to the leaf it starts from. *)
Lemma verify_loop_sound k v proof : ∀ T lvl,
  lvl ≤ depth → canon lvl T → tree_entries_ok T → Forall D (tree_msgs lvl T) →
  entry_ok k v → Forall (fun p => length p = hashLen) proof → length proof ≤ lvl →
  Forall D (leaf_msg k v ::
            verify_msgs k (leafHash k v) proof (Z.of_nat lvl - Z.of_nat (length proof))) →
  verify_loop k (leafHash k v) proof (Z.of_nat lvl - Z.of_nat (length proof)) = thash lvl T →
  tlookup lvl k T = Some v.
Proof.
  induction proof as [|q p IH] using rev_ind; intros T lvl Hlvl Hc Ho Hm Hkv Hp Hlen HmV Heq;
    apply Forall_cons in HmV as [Hleaf HmV].
  - simpl in Heq. destruct T as [|k0 v0|l r]; simpl in Heq.
    + by apply (leaf_zero D depth HD) in Heq.
    + apply Forall_msgs_leaf in Hm. apply (leaf_hash_inj D depth HD) in Heq as [-> ->]; auto.
      simpl. by rewrite decide_True.
    + apply Forall_msgs_node in Hm as (Hm & _).
      apply (leaf_parent_hash D depth HD) in Heq; auto using length_thash. done.
  - rewrite length_app in *. simpl length in *. apply Forall_app in Hp as [Hp [Hq _]%Forall_cons].
    destruct lvl as [|d]; [lia|].
    rewrite verify_msgs_app in HmV. rewrite verify_loop_app in Heq.
    replace (Z.of_nat (S d) - Z.of_nat (length p + 1))%Z
      with (Z.of_nat d - Z.of_nat (length p))%Z in * by lia.
    replace (Z.of_nat d - Z.of_nat (length p) + Z.of_nat (length p))%Z with (Z.of_nat d) in * by lia.
    apply Forall_app in HmV as [HmV [Hmp _]%Forall_cons].
    fold (goes_left k d) in Heq, Hmp.
    assert (Hlv := length_verify_loop k (leafHash k v) p (Z.of_nat d - Z.of_nat (length p))
                     (length_leafHash k v)).
    destruct (verify_step T d k (verify_loop k (leafHash k v) p (Z.of_nat d - Z.of_nat (length p))) q)
      as (T' & Hc' & Ho' & Hm' & Heq' & ->); auto.
    apply (IH T' d); auto; lia.
Qed.
End loops.

(** ** Theorems about a tree built from a list of entries *)

(** The assumption on BLAKE3 for one run: no collision and no zero digest among the
    messages that the empty-subtree table, the insertions and [extra] hash. *)
Definition run_hash_ok (depth : nat) (kvs : list (bytes * bytes)) (extra : list bytes) : Prop :=
  hash_ok (fun m => m ∈ zero_msgs depth ++ run_msgs depth kvs TEmpty ++ extra) depth.

(** Entries with 32-byte keys and values, whose keys the depth tells apart. *)
Definition run_ok (depth : nat) (kvs : list (bytes * bytes)) : Prop :=
  Forall (fun kv => entry_ok kv.1 kv.2) kvs ∧ keys_separated depth kvs.*1.

Lemma BulkInsert_run D depth kvs :
  hash_ok D depth → run_ok depth kvs → Forall D (run_msgs depth kvs TEmpty) →
  ∃ t, BulkInsert (New depth) kvs = Some t ∧ t_depth t = depth ∧
       smt_rep D t (tinsert_all depth kvs TEmpty) ∧
       ∀ k, tlookup depth k (tinsert_all depth kvs TEmpty) = last_write kvs k.
Proof.
  intros HD [Hkv Hsep] Hm.
  destruct (BulkInsert_rep D kvs (New depth) TEmpty) as (t & Heq & Hrep & Hd & _);
    auto using smt_rep_New.
  exists t. split_and!; [done..|]. intros k.
  destruct (tinsert_all_spec depth kvs TEmpty) as (_ & _ & ->); [done..|].
  by destruct (last_write kvs k).
Qed.

Lemma run_msgs_covered depth kvs extra :
  Forall (fun m => m ∈ zero_msgs depth ++ run_msgs depth kvs TEmpty ++ extra)
    (run_msgs depth kvs TEmpty).
Proof. apply Forall_forall. intros m Hm. rewrite !elem_of_app. auto. Qed.
End ops.
