(* ===== verification/SmtTheorems.v ===== *)
(** * Sparse Merkle tree: the properties

    Statements about [New], [BulkInsert], [Prove], [Verify], [Get] and the serialised
    form, for every list of entries, with concrete instances. *)
From S2P Require Import Prelude Crypto Toy Smt SmtSpec SmtRefine SmtProofs.

(** ** Deciding the hypotheses of a run *)

Section check.
Context `{Primitives}.

Definition msgs_okb (l : list bytes) : bool :=
  bool_decide (NoDup (blake3 <$> remove_dups l)) &&
  bool_decide (Forall (fun m => blake3 m ≠ zeros hashLen) l).

Lemma msgs_okb_hash_ok depth l :
  msgs_okb l = true → zero_msgs depth ⊆ l → hash_ok (fun m => m ∈ l) depth.
Proof.
  unfold msgs_okb. intros [H1 H2]%andb_true_iff Hz.
  apply bool_decide_eq_true in H1, H2. split.
  - intros m1 m2 Hm1 Hm2 Heq. apply elem_of_remove_dups, list_elem_of_lookup in Hm1 as [i Hi].
    apply elem_of_remove_dups, list_elem_of_lookup in Hm2 as [j Hj].
    assert (i = j) as ->; [|congruence].
    apply (NoDup_lookup _ i j (blake3 m1) H1); rewrite list_lookup_fmap, ?Hi, ?Hj; simpl; congruence.
  - by apply Forall_forall.
  - intros i Hi. apply Hz. unfold zero_msgs. apply list_elem_of_fmap. exists i.
    rewrite elem_of_seq. split; [done|lia].
Qed.

(** The messages of the empty subtrees, each digest computed once. *)
Fixpoint zero_msgs_from (n : nat) (z : bytes) : list bytes :=
  match n with
  | O => []
  | S n' => parent_msg z z :: zero_msgs_from n' (parentHash z z)
  end.

Lemma zero_msgs_from_eq n : ∀ i,
  zero_msgs_from n (zero_at i) = (fun i => parent_msg (zero_at i) (zero_at i)) <$> seq i n.
Proof.
  induction n as [|n IH]; intros i; [done|]. cbn [zero_msgs_from seq]. rewrite fmap_cons. f_equal.
  exact (IH (S i)).
Qed.

Definition run_hash_okb (depth : nat) (kvs : list (bytes * bytes)) (extra : list bytes) : bool :=
  msgs_okb (zero_msgs_from depth (zeros hashLen) ++ run_msgs depth kvs TEmpty ++ extra).

Lemma run_hash_okb_ok depth kvs extra :
  run_hash_okb depth kvs extra = true → run_hash_ok depth kvs extra.
Proof.
  unfold run_hash_okb. change (zeros hashLen) with (zero_at 0). rewrite zero_msgs_from_eq.
  intros Hb. apply msgs_okb_hash_ok; [done|]. set_solver.
Qed.
End check.

Definition run_okb (depth : nat) (kvs : list (bytes * bytes)) : bool :=
  forallb (fun kv => (length kv.1 =? hashLen)%nat && (length kv.2 =? hashLen)%nat) kvs &&
  forallb (fun k1 => forallb (fun k2 =>
    bool_decide (k1 = k2) ||
    existsb (fun d => negb (Bool.eqb (goes_left k1 d) (goes_left k2 d))) (seq 0 depth))
    kvs.*1) kvs.*1.

Lemma run_okb_ok depth kvs : run_okb depth kvs = true → run_ok depth kvs.
Proof.
  unfold run_okb. intros [H1 H2]%andb_true_iff. rewrite forallb_forall in H1, H2. split.
  - apply Forall_forall. intros kv Hkv%list_elem_of_In%H1.
    apply andb_true_iff in Hkv as [?%Nat.eqb_eq ?%Nat.eqb_eq]. done.
  - intros k1 k2 Hk1%list_elem_of_In%H2 Hk2%list_elem_of_In Hne.
    rewrite forallb_forall in Hk1. apply Hk1 in Hk2. apply orb_true_iff in Hk2 as [Hk2|Hk2].
    { by apply bool_decide_eq_true in Hk2. }
    apply existsb_exists in Hk2 as (d & [_ Hd]%in_seq & Hb). exists d. split; [lia|].
    intros Heq. rewrite Heq, Bool.eqb_reflx in Hb. discriminate Hb.
Qed.

(** Depth 256, the engine's: well-formed 32-byte keys are always told apart. *)
Lemma run_ok_256 kvs :
  Forall (fun kv => bytes_ok 32 kv.1 ∧ length kv.2 = hashLen) kvs → run_ok 256 kvs.
Proof.
  intros Hkv. rewrite Forall_forall in Hkv. split.
  - apply Forall_forall. intros kv [[? _] ?]%Hkv. done.
  - intros k1 k2 Hk1 Hk2 Hne.
    apply list_elem_of_fmap in Hk1 as (kv1 & -> & Hk1), Hk2 as (kv2 & -> & Hk2).
    apply (bytes_separated 32); [apply Hkv, Hk1|apply Hkv, Hk2|done].
Qed.

Section theorems.
Context `{Primitives} `{!Blake3Length}.

(** C6: Inserting a list of entries into an empty tree returns a tree that represents the
    specification's shape: the root is its digest, every node is stored under its own
    digest, no stored node has the digest of an empty subtree, and the shape finds exactly
    the last value written for each key. *)
Theorem smt_insert_refines depth kvs :
  run_ok depth kvs → run_hash_ok depth kvs [] →
  ∃ t, BulkInsert (New depth) kvs = Some t ∧ t_depth t = depth ∧
       smt_rep (fun m => m ∈ zero_msgs depth ++ run_msgs depth kvs TEmpty ++ []) t
         (tinsert_all depth kvs TEmpty) ∧
       ∀ k, tlookup depth k (tinsert_all depth kvs TEmpty) = last_write kvs k.
Proof. intros Hrun HD. apply BulkInsert_run; [done..|]. apply run_msgs_covered. Qed.

Lemma Prove_complete depth kvs k :
  run_ok depth kvs → run_hash_ok depth kvs [] →
  ∃ t, BulkInsert (New depth) kvs = Some t ∧
       match last_write kvs k with
       | Some v => ∃ proof, Prove t k = Some proof ∧ length proof ≤ depth ∧
                            Verify t k v (Root t) proof = true
       | None => Prove t k = None
       end.
Proof.
  intros Hrun HD.
  destruct (BulkInsert_run _ depth kvs HD Hrun (run_msgs_covered depth kvs []))
    as (t & Heq & Hd & Hrep & Hl).
  exists t. split; [done|]. subst depth. set (T := tinsert_all _ _ _) in *.
  pose proof (rep_current _ t T HD Hrep) as Hcur. destruct Hrep as [_ Hr Hst Hs Hc _ _].
  assert (HP : Prove t k = (fun _ => siblings (t_depth t) k T ++ []) <$> tlookup (t_depth t) k T)
    by (eapply prove_loop_rep; eauto).
  rewrite Hl in HP. rewrite HP. specialize (Hl k). destruct (last_write kvs k) as [v|]; [|done].
  eexists. split; [reflexivity|]. rewrite app_nil_r.
  pose proof (length_siblings (t_depth t) k T Hc) as Hlen. split; [done|].
  unfold Verify. rewrite (proj2 (Nat.ltb_ge _ _)) by done.
  rewrite bool_decide_eq_true, verify_loop_siblings by done.
  unfold Root. rewrite Hr, root_hash_nonempty; [done|]. intros HT. rewrite HT in Hl. done.
Qed.

(** Completeness of inclusion proofs. [Prove] succeeds exactly for the keys that were
    inserted, with at most [depth] siblings, and [Verify] accepts the proof for the last
    value written against the current root. *)
Theorem smt_prove_complete depth kvs k :
  run_ok depth kvs → run_hash_ok depth kvs [] →
  ∃ t, BulkInsert (New depth) kvs = Some t ∧
       match last_write kvs k with
       | Some v => ∃ proof, Prove t k = Some proof ∧ length proof ≤ depth ∧
                            Verify t k v (Root t) proof = true
       | None => Prove t k = None
       end.
Proof. apply Prove_complete. Qed.

Lemma Verify_sound depth kvs t k v proof :
  run_ok depth kvs → BulkInsert (New depth) kvs = Some t →
  entry_ok k v → Forall (fun p => length p = hashLen) proof →
  run_hash_ok depth kvs (leaf_msg k v :: verify_msgs k (leafHash k v) proof
                           (Z.of_nat depth - Z.of_nat (length proof))) →
  Verify t k v (Root t) proof = true → last_write kvs k = Some v.
Proof.
  intros Hrun Hb Hkv Hp HD HV. set (extra := _ :: _) in HD.
  destruct (BulkInsert_run _ depth kvs HD Hrun (run_msgs_covered depth kvs extra))
    as (t' & Heq & Hd & Hrep & Hl).
  rewrite Hb in Heq. injection Heq as <-. subst depth. set (T := tinsert_all _ _ _) in *.
  assert (Hextra : Forall (fun m => m ∈ zero_msgs (t_depth t) ++
            run_msgs (t_depth t) kvs TEmpty ++ extra) extra).
  { apply Forall_forall. intros m Hm. rewrite !elem_of_app. auto. }
  unfold Verify, Root in HV. destruct (t_depth t <? length proof)%nat eqn:Elen; [done|].
  apply Nat.ltb_ge in Elen. apply bool_decide_eq_true in HV.
  rewrite <- Hl. destruct (decide (T = TEmpty)) as [HT|HT].
  - exfalso. rewrite (rep_root _ _ _ Hrep), HT in HV. simpl in HV. revert HV.
    apply (verify_loop_nonzero _ (t_depth t) HD), Hextra.
  - eapply (verify_loop_sound _ (t_depth t) HD k v proof); eauto using rep_canon, rep_entries, rep_msgs.
    by rewrite HV, (rep_root _ _ _ Hrep), root_hash_nonempty.
Qed.

(** C7: Soundness of inclusion proofs. A proof that [Verify] accepts for a key and a value
    against the root of a tree shows that the value is the last one written for the key,
    whatever siblings the proof is made of. *)
Theorem smt_verify_sound depth kvs t k v proof :
  run_ok depth kvs → BulkInsert (New depth) kvs = Some t →
  entry_ok k v → Forall (fun p => length p = hashLen) proof →
  run_hash_ok depth kvs (leaf_msg k v :: verify_msgs k (leafHash k v) proof
                           (Z.of_nat depth - Z.of_nat (length proof))) →
  Verify t k v (Root t) proof = true → last_write kvs k = Some v.
Proof. apply Verify_sound. Qed.

(** C17: The root commits to the contents and to nothing else: two trees have the same root
    exactly when the same last values were written, in whatever order and with whatever
    overwritten values. *)
Theorem smt_root_commits depth kvs1 kvs2 t1 t2 :
  run_ok depth kvs1 → run_ok depth kvs2 →
  BulkInsert (New depth) kvs1 = Some t1 → BulkInsert (New depth) kvs2 = Some t2 →
  run_hash_ok depth kvs1 (run_msgs depth kvs2 TEmpty) →
  Root t1 = Root t2 ↔ ∀ k, last_write kvs1 k = last_write kvs2 k.
Proof.
  intros Hrun1 Hrun2 Hb1 Hb2 HD.
  destruct (BulkInsert_run _ depth kvs1 HD Hrun1 (run_msgs_covered depth kvs1 _))
    as (t1' & Heq1 & Hd1 & Hrep1 & Hl1).
  destruct (BulkInsert_run _ depth kvs2 HD Hrun2) as (t2' & Heq2 & Hd2 & Hrep2 & Hl2).
  { apply Forall_forall. intros m Hm. rewrite !elem_of_app. auto. }
  rewrite Hb1 in Heq1. rewrite Hb2 in Heq2. injection Heq1 as <-. injection Heq2 as <-.
  pose proof (rep_canon _ _ _ Hrep1) as Hc1. pose proof (rep_canon _ _ _ Hrep2) as Hc2.
  unfold Root. rewrite (rep_root _ _ _ Hrep1), (rep_root _ _ _ Hrep2), Hd1, Hd2.
  rewrite Hd1 in Hc1. rewrite Hd2 in Hc2. split.
  - intros Heq k. rewrite <- Hl1, <- Hl2.
    pose proof (rep_msgs _ _ _ Hrep1) as Hm1. pose proof (rep_msgs _ _ _ Hrep2) as Hm2.
    rewrite Hd1 in Hm1. rewrite Hd2 in Hm2. f_equal.
    apply (root_hash_inj _ depth HD); eauto using rep_entries.
  - intros Heq. f_equal. apply (canon_ext depth); [done..|]. intros k. by rewrite Hl1, Hl2.
Qed.

(** [Get] returns the last value written for a key, unless the key's leaf is at the
    lowest level (a proof of [depth] siblings), where it reports that the key is missing. *)
Theorem smt_get_spec depth kvs t k :
  run_ok depth kvs → run_hash_ok depth kvs [] → BulkInsert (New depth) kvs = Some t →
  Get t k = match Prove t k with
            | Some proof => if decide (length proof < depth) then last_write kvs k else None
            | None => None
            end.
Proof.
  intros Hrun HD Hb.
  destruct (BulkInsert_run _ depth kvs HD Hrun (run_msgs_covered depth kvs []))
    as (t' & Heq & Hd & Hrep & Hl).
  rewrite Hb in Heq. injection Heq as <-. subst depth. set (T := tinsert_all _ _ _) in *.
  pose proof (rep_current _ t T HD Hrep) as Hcur. destruct Hrep as [_ Hr Hst Hs Hc _ _].
  assert (HP : Prove t k = (fun _ => siblings (t_depth t) k T ++ []) <$> tlookup (t_depth t) k T)
    by (eapply prove_loop_rep; eauto).
  assert (HG : Get t k = if decide (length (siblings (t_depth t) k T) < t_depth t)
                         then tlookup (t_depth t) k T else None)
    by (eapply get_loop_rep; eauto).
  rewrite HP, HG, Hl, app_nil_r. destruct (last_write kvs k); [done|]. by case_decide.
Qed.

(** Two keys that differ only in the lowest bit of their first byte: after both are
    inserted, [Prove] succeeds for each of them and [Get] finds neither. *)
Theorem smt_get_misses_lowest depth k1 v1 k2 v2 :
  run_ok depth [(k1, v1); (k2, v2)] → run_hash_ok depth [(k1, v1); (k2, v2)] [] →
  k1 ≠ k2 → agree_from 1 depth k1 k2 →
  ∃ t, BulkInsert (New depth) [(k1, v1); (k2, v2)] = Some t ∧
       Get t k1 = None ∧ Get t k2 = None ∧
       is_Some (Prove t k1) ∧ is_Some (Prove t k2).
Proof.
  intros Hrun HD Hne Hagree.
  destruct (BulkInsert_run _ depth _ HD Hrun (run_msgs_covered depth _ []))
    as (t & Heq & Hd & Hrep & Hl).
  exists t. split; [done|]. subst depth.
  assert (Hsep : separated (t_depth t) k1 k2).
  { destruct Hrun as [_ Hsep]. apply Hsep; [simpl; set_solver..|done]. }
  set (T := tinsert_all _ _ _) in *.
  assert (HT : T = tsplit (t_depth t) k1 v1 k2 v2).
  { unfold T. cbn. destruct (t_depth t); [by apply not_separated_0 in Hsep|].
    by rewrite decide_False. }
  pose proof (rep_current _ t T HD Hrep) as Hcur. destruct Hrep as [_ Hr Hst Hs Hc _ _].
  assert (HP : ∀ k, Prove t k = (fun _ => siblings (t_depth t) k T ++ []) <$> tlookup (t_depth t) k T)
    by (intros; eapply prove_loop_rep; eauto).
  assert (HG : ∀ k, Get t k = if decide (length (siblings (t_depth t) k T) < t_depth t)
                              then tlookup (t_depth t) k T else None)
    by (intros; eapply get_loop_rep; eauto).
  assert (Hk : ∀ k, k = k1 ∨ k = k2 → length (siblings (t_depth t) k T) = t_depth t).
  { intros k Hk. rewrite HT. by apply length_siblings_tsplit. }
  rewrite !HG, !HP, !decide_False by (rewrite Hk; auto; lia).
  rewrite !Hl. simpl. repeat case_decide; try done; split_and!; by eauto.
Qed.
End theorems.

(** ** Instances *)

Definition demo_entries : list (bytes * bytes) :=
  [(key32 1, key32 10); (key32 2, key32 20); (key32 3, key32 30); (key32 1, key32 11)].

Definition demo_permuted : list (bytes * bytes) :=
  [(key32 3, key32 30); (key32 1, key32 11); (key32 2, key32 20)].

Lemma smt_insert_refines_witness :
  run_ok 8 demo_entries ∧ run_hash_ok 8 demo_entries [] ∧
  ∃ t, BulkInsert (New 8) demo_entries = Some t ∧ t_depth t = 8 ∧
       smt_rep (fun m => m ∈ zero_msgs 8 ++ run_msgs 8 demo_entries TEmpty ++ []) t
         (tinsert_all 8 demo_entries TEmpty) ∧
       ∀ k, tlookup 8 k (tinsert_all 8 demo_entries TEmpty) = last_write demo_entries k.
Proof.
  assert (H1 : run_ok 8 demo_entries) by (apply run_okb_ok; vm_compute; reflexivity).
  assert (H2 : run_hash_ok 8 demo_entries []) by (apply run_hash_okb_ok; vm_compute; reflexivity).
  split; [exact H1|]. split; [exact H2|]. exact (smt_insert_refines 8 demo_entries H1 H2).
Defined.

Lemma smt_prove_complete_witness :
  ∃ t, BulkInsert (New 8) demo_entries = Some t ∧
       ∃ proof, Prove t (key32 1) = Some proof ∧ length proof ≤ 8 ∧
                Verify t (key32 1) (key32 11) (Root t) proof = true.
Proof.
  exact (smt_prove_complete 8 demo_entries (key32 1)
           ltac:(apply run_okb_ok; vm_compute; reflexivity)
           ltac:(apply run_hash_okb_ok; vm_compute; reflexivity)).
Defined.

Definition demo_tree : SparseMerkleTree :=
  default (New 8) (BulkInsert (New 8) demo_entries).

Definition demo_proof : list bytes := default [] (Prove demo_tree (key32 1)).

Lemma smt_verify_sound_witness :
  Verify demo_tree (key32 1) (key32 11) (Root demo_tree) demo_proof = true ∧
  last_write demo_entries (key32 1) = Some (key32 11).
Proof.
  assert (HV : Verify demo_tree (key32 1) (key32 11) (Root demo_tree) demo_proof = true)
    by (vm_compute; reflexivity).
  split; [exact HV|].
  apply (smt_verify_sound 8 demo_entries demo_tree (key32 1) (key32 11) demo_proof).
  - apply run_okb_ok. vm_compute. reflexivity.
  - vm_compute. reflexivity.
  - split; vm_compute; reflexivity.
  - vm_compute. repeat constructor.
  - apply run_hash_okb_ok. vm_compute. reflexivity.
  - exact HV.
Defined.

Lemma smt_root_commits_witness :
  Root demo_tree = Root (default (New 8) (BulkInsert (New 8) demo_permuted)) ∧
  ∀ k, last_write demo_entries k = last_write demo_permuted k.
Proof.
  assert (HR : Root demo_tree = Root (default (New 8) (BulkInsert (New 8) demo_permuted)))
    by (vm_compute; reflexivity).
  split; [exact HR|]. revert HR.
  apply (smt_root_commits 8 demo_entries demo_permuted);
    [apply run_okb_ok; vm_compute; reflexivity..| | |apply run_hash_okb_ok]; vm_compute; reflexivity.
Defined.

Lemma smt_get_spec_witness :
  Get demo_tree (key32 1) = Some (key32 11) ∧ Get demo_tree (key32 2) = None ∧
  last_write demo_entries (key32 2) = Some (key32 20).
Proof.
  assert (H1 : run_ok 8 demo_entries) by (apply run_okb_ok; vm_compute; reflexivity).
  assert (H2 : run_hash_ok 8 demo_entries []) by (apply run_hash_okb_ok; vm_compute; reflexivity).
  assert (H3 : BulkInsert (New 8) demo_entries = Some demo_tree) by (vm_compute; reflexivity).
  rewrite (smt_get_spec 8 demo_entries demo_tree (key32 1) H1 H2 H3).
  rewrite (smt_get_spec 8 demo_entries demo_tree (key32 2) H1 H2 H3).
  vm_compute. auto.
Defined.

Lemma smt_get_misses_lowest_witness :
  ∃ t, BulkInsert (New 8) [(key32 2, key32 20); (key32 3, key32 30)] = Some t ∧
       Get t (key32 2) = None ∧ Get t (key32 3) = None ∧
       is_Some (Prove t (key32 2)) ∧ is_Some (Prove t (key32 3)).
Proof.
  apply (smt_get_misses_lowest 8 (key32 2) (key32 20) (key32 3) (key32 30)).
  - apply run_okb_ok. vm_compute. reflexivity.
  - apply run_hash_okb_ok. vm_compute. reflexivity.
  - discriminate.
  - intros d Hd. do 8 (destruct d as [|d]; [try lia; reflexivity|]). lia.
Defined.
