(* ===== verification/SmtJson.v ===== *)
(** * Serialised form of the sparse Merkle tree (pkg/smt/smt_serialization.go)

    [MarshalJSON] builds the value handed to [json.Marshal] and [UnmarshalJSON] reads the
    value [json.Unmarshal] filled; encoding/json itself maps such values to text and back.
    The store is keyed by hexadecimal strings. *)
From S2P Require Import Prelude Crypto Toy Smt.

Record serializableTree := MkSerTree {
  s_root : bytes;
  s_depth : nat;
  s_zeroes : list bytes;
  s_store : gmap string node;
}.

(** The two loops rebuild a map key by key. *)
Definition MarshalJSON (t : SparseMerkleTree) : serializableTree :=
  {| s_root := t_root t; s_depth := t_depth t; s_zeroes := t_zeroes t;
     s_store := list_to_map ((fun kn => (hex_encode kn.1, kn.2)) <$> map_to_list (t_store t)) |}.

(** A store key that is not hexadecimal is an error; a short one is padded with zeros. *)
Definition UnmarshalJSON (st : serializableTree) : option SparseMerkleTree :=
  entries ← mapM (fun kn => k ← hex_decode kn.1; Some (copy_array hashLen k, kn.2))
              (map_to_list (s_store st));
  Some {| t_root := s_root st; t_depth := s_depth st; t_store := list_to_map entries;
          t_zeroes := s_zeroes st |}.

Section roundtrip.
Context (m : gmap bytes node) (Hm : ∀ k n, m !! k = Some n → bytes_ok hashLen k).

Lemma NoDup_hex_keys :
  NoDup ((fun kn : bytes * node => (hex_encode kn.1, kn.2)) <$> map_to_list m).*1.
Proof.
  rewrite <- list_fmap_compose.
  change (fst ∘ _) with (hex_encode ∘ (fst : bytes * node → bytes)).
  rewrite list_fmap_compose.
  apply NoDup_fmap_2_strong; [|apply NoDup_fst_map_to_list].
  intros k1 k2 Hk1 Hk2 Heq. apply list_elem_of_fmap in Hk1 as ([? n1] & -> & Hk1), Hk2 as ([? n2] & -> & Hk2).
  apply elem_of_map_to_list in Hk1, Hk2.
  apply hex_encode_inj; [eapply Hm, Hk1|eapply Hm, Hk2|done].
Qed.

Lemma decode_hex_entries :
  ∃ l, l ≡ₚ map_to_list m ∧
  mapM (fun kn : string * node => k ← hex_decode kn.1; Some (copy_array hashLen k, kn.2))
    (map_to_list (list_to_map ((fun kn => (hex_encode kn.1, kn.2)) <$> map_to_list m) : gmap string node))
  = Some l.
Proof.
  pose proof (map_to_list_to_map (M := gmap string) _ NoDup_hex_keys) as Hp.
  apply Permutation_map_inv in Hp as (l & Heq & Hl).
  exists l. split; [done|]. rewrite Heq.
  apply (mapM_fmap_Forall_Some _ (fun kn : bytes * node => (hex_encode kn.1, kn.2)) l).
  apply Forall_forall. intros [k n] Hk. rewrite <- Hl in Hk. apply elem_of_map_to_list in Hk.
  destruct (Hm _ _ Hk) as [Hlen Hok]. simpl.
  rewrite hex_decode_encode by done. simpl. by rewrite copy_array_id.
Qed.
End roundtrip.

Lemma Unmarshal_Marshal t :
  (∀ k n, t_store t !! k = Some n → bytes_ok hashLen k) →
  UnmarshalJSON (MarshalJSON t) = Some t.
Proof.
  intros Hm. unfold UnmarshalJSON, MarshalJSON. simpl.
  destruct (decode_hex_entries (t_store t) Hm) as (l & Hl & ->). simpl.
  destruct t as [root depth st zs]; simpl in *. do 2 f_equal.
  rewrite <- (list_to_map_to_list st). apply list_to_map_proper; [|done].
  rewrite Hl. apply NoDup_fst_map_to_list.
Qed.

(** A tree whose store keys are 32-byte strings is read back unchanged from its
    serialised form. *)
Theorem smt_json_roundtrip t :
  (∀ k n, t_store t !! k = Some n → bytes_ok hashLen k) →
  UnmarshalJSON (MarshalJSON t) = Some t.
Proof. apply Unmarshal_Marshal. Qed.

Definition demo_store_tree : SparseMerkleTree :=
  {| t_root := leafHash (key32 1) (key32 2); t_depth := 4;
     t_store := {[ leafHash (key32 1) (key32 2) := leaf_node (key32 1) (key32 2) ]};
     t_zeroes := t_zeroes (New 4) |}.

Lemma smt_json_roundtrip_witness :
  UnmarshalJSON (MarshalJSON demo_store_tree) = Some demo_store_tree.
Proof.
  apply (smt_json_roundtrip demo_store_tree). intros k n Hk.
  unfold demo_store_tree in Hk. cbn [t_store] in Hk. apply lookup_singleton_Some in Hk as [<- _].
  split; [reflexivity|]. apply Forall_app. split; [apply le_bytes_ok|].
  apply Forall_replicate. unfold byte_ok. lia.
Defined.
