(* ===== verification/Errors.v ===== *)
(** * Error values (pkg/validation/errors_v2.go, validation.go and the packages' sentinels)

    One constructor per sentinel the modelled code returns. Wrapping with [%w] keeps the
    sentinel's identity, so a wrapped error is its sentinel; [EValidation] is the
    structured [ValidationError], whose code clients read with [FromError]. *)
From S2P Require Import Prelude.

Inductive gerror : Type :=
(* pkg/validation/validation.go *)
| ErrInvalidHash | ErrInvalidSubmitter | ErrInvalidSignature | ErrUnknownSubmitter
| ErrLabelTooLong | ErrRateLimited | ErrEngineStopped
(* pkg/validation/errors_v2.go *)
| ErrKeyRotationInvalidOldSig | ErrKeyRotationInvalidNewSig | ErrKeyRotationLeadTime
| ErrKeyRotationOverlap | ErrKeyRotationDuplicate | ErrKeyRotationInvalidEntry
| ErrInvalidMandateEntry | ErrMandateNotFound | ErrMandateExpired
| ErrMandateAuthorityMismatch | ErrMandateMissingRequiredField | ErrComplianceWindowInvalid
(* pkg/chain *)
| ErrInvalidCurrentKey | ErrInvalidNewKey | ErrInvalidNewSig | ErrSigningFailed
| ErrHashMismatch | ErrMandateHashMismatch | ErrMandateSignature | ErrMandateSigning
(* pkg/consensus *)
| ErrQuorumNotMet | ErrVRFSelectionFailed | ErrIncompleteVRFProofs
| ErrSubChainNotFound | ErrSubChainExists
(* pkg/lightclient *)
| ErrBlockNotFound | ErrNoValidatorSet | ErrValidatorSetMismatch | ErrChainBreak
| ErrBlockHashMismatch | ErrLightQuorumNotMet | ErrBadSignature | ErrUnknownProposer
| ErrBitmapMismatch | ErrUnsupportedVersion | ErrDegradedNotAnnounced | ErrEntryNotAnchored
(* pkg/state *)
| ErrNetworkFragmented | ErrChainBroken
(* errors made in place with fmt.Errorf, by their format string *)
| ErrText (msg : string)
(* an error of the CBOR codec *)
| ErrCbor
| EValidation (code msg : string) (e : gerror).

#[export] Instance gerror_eq_dec : EqDecision gerror.
Proof. solve_decision. Defined.

Definition ErrCodeInvalidHash : string := "INVALID_HASH".
Definition ErrCodeInvalidSubmitter : string := "INVALID_SUBMITTER".
Definition ErrCodeInvalidSignature : string := "INVALID_SIGNATURE".
Definition ErrCodeSubmitterMismatch : string := "SUBMITTER_MISMATCH".
Definition ErrCodeLabelTooLong : string := "LABEL_TOO_LONG".
Definition ErrCodeRateLimited : string := "RATE_LIMITED".
Definition ErrCodeEngineStopped : string := "ENGINE_STOPPED".

Definition WrapValidationError (code msg : string) (err : gerror) : gerror :=
  EValidation code msg err.

(** [errors.As] with a [*ValidationError] target: the outermost one in the chain. *)
Definition FromError (err : gerror) : option string :=
  match err with
  | EValidation code _ _ => Some code
  | _ => None
  end.

(** [errors.Is(err, target)] for a sentinel target. *)
Fixpoint errors_Is (err target : gerror) : bool :=
  bool_decide (err = target) ||
  match err with
  | EValidation _ _ e => errors_Is e target
  | _ => false
  end.

Record APILimits := MkAPILimits {
  MaxLabelLen : Z;
  MaxTotalPending : Z;
  MaxPendingPerSubmitter : Z;
}.

Definition DefaultAPILimits : APILimits :=
  {| MaxLabelLen := 256; MaxTotalPending := 100000; MaxPendingPerSubmitter := 5000 |}.

(** The loop of [IsZeroHash]. *)
Definition IsZeroHash (hash : bytes) : bool := forallb (Z.eqb 0) hash.

Definition ValidateEntry (hash submitter : bytes) (label : string) (limits : APILimits) :
    outcome gerror unit := (
  fail_if (IsZeroHash hash)
    (WrapValidationError ErrCodeInvalidHash "invalid hash" ErrInvalidHash) ;;!
  fail_if (bool_decide (submitter = zeros 16))
    (WrapValidationError ErrCodeInvalidSubmitter "invalid submitter" ErrInvalidSubmitter) ;;!
  fail_if (MaxLabelLen limits <? Z.of_nat (String.length label))%Z
    (WrapValidationError ErrCodeLabelTooLong "label too long" ErrLabelTooLong) ;;!
  Ok tt)%go.

Lemma IsZeroHash_spec hash : IsZeroHash hash = true ↔ hash = zeros (length hash).
Proof.
  unfold IsZeroHash, zeros. induction hash as [|b l IH]; [done|].
  cbn [forallb length replicate]. rewrite andb_true_iff, IH, Z.eqb_eq. split.
  - intros [<- Hl]. by rewrite <- Hl.
  - intros [= -> Hl]. done.
Qed.
