(* ===== verification/ErrorsV2.v ===== *)
(** * Protocol errors (pkg/validation/errors_v2.go)

    The sentinels of the protocol with their texts, and the test for them. The modelled
    handlers use the smaller type of Errors.v, whose values forget how often an error was
    wrapped; here wrapping is kept, because the test compares values. *)
From S2P Require Import Prelude.

Inductive v2_error :=
| ErrQuorumNotMet | ErrCycleTimeout | ErrDegradedMode | ErrByzantineLeader | ErrInvalidPrepareSig
| ErrInvalidVRFProof | ErrSlashingEvidence | ErrNetworkFragmented | ErrKeyRotationInvalidOldSig
| ErrKeyRotationInvalidNewSig | ErrKeyRotationLeadTime | ErrKeyRotationOverlap
| ErrKeyRotationDuplicate | ErrKeyRotationInvalidEntry | ErrInvalidMandateEntry
| ErrMandateNotFound | ErrMandateInactive | ErrMandateExpired | ErrMandateSuperseded
| ErrMandateAuthorityMismatch | ErrMandateVersionConflict | ErrMandateMissingRequiredField
| ErrMandateRefRequired | ErrComplianceWindowInvalid | ErrPendingExpired
| ErrMaxCycleDurationExceeded | ErrInvalidCycleDuration | ErrSkipEmptyCyclesDisabled
| ErrPublisherNonCompliant | ErrInsufficientRedundancy | ErrInvalidPublisherConfig
| ErrIPFSPublishFailed | ErrS3PublishFailed | ErrCIDMismatch | ErrEntropyInsufficient
| ErrInvalidNetworkID | ErrUID0DerivationFailed | ErrConfigInvalid | ErrBatchVerifyWorkersTooLow
| ErrRequiredSigsMismatch | ErrMinValidatorsNotMet.

#[export] Instance v2_error_eq_dec : EqDecision v2_error.
Proof. solve_decision. Defined.

Definition v2_text (e : v2_error) : string :=
  match e with
  | ErrQuorumNotMet => "3cp: PREPARE quorum not met"
  | ErrCycleTimeout => "3cp: cycle timeout exceeded"
  | ErrDegradedMode => "3cp: network in degraded mode"
  | ErrByzantineLeader => "3cp: byzantine leader double proposal"
  | ErrInvalidPrepareSig => "3cp: invalid PREPARE signature"
  | ErrInvalidVRFProof => "3cp: invalid VRF proof"
  | ErrSlashingEvidence => "3cp: slashing evidence detected"
  | ErrNetworkFragmented => "3cp: network fragmented (lambda1 below threshold)"
  | ErrKeyRotationInvalidOldSig => "3cp: key rotation invalid old signature"
  | ErrKeyRotationInvalidNewSig => "3cp: key rotation invalid new signature"
  | ErrKeyRotationLeadTime => "3cp: key rotation insufficient lead time"
  | ErrKeyRotationOverlap => "3cp: key rotation insufficient key overlap"
  | ErrKeyRotationDuplicate => "3cp: key rotation already exists for cycle"
  | ErrKeyRotationInvalidEntry => "3cp: invalid key rotation entry"
  | ErrInvalidMandateEntry => "3cp: invalid mandate entry"
  | ErrMandateNotFound => "3cp: mandate not found"
  | ErrMandateInactive => "3cp: mandate not yet active"
  | ErrMandateExpired => "3cp: mandate expired"
  | ErrMandateSuperseded => "3cp: mandate superseded"
  | ErrMandateAuthorityMismatch => "3cp: mandate authority mismatch"
  | ErrMandateVersionConflict => "3cp: mandate version conflict"
  | ErrMandateMissingRequiredField => "3cp: mandate required field missing"
  | ErrMandateRefRequired => "3cp: mandate reference required"
  | ErrComplianceWindowInvalid => "3cp: invalid compliance window"
  | ErrPendingExpired => "3cp: pending entry expired (MaxPendingTTL exceeded)"
  | ErrMaxCycleDurationExceeded => "3cp: max cycle duration exceeded"
  | ErrInvalidCycleDuration => "3cp: invalid cycle duration"
  | ErrSkipEmptyCyclesDisabled => "3cp: empty cycle not allowed (SkipEmptyCycles=false)"
  | ErrPublisherNonCompliant => "3cp: anchor publisher non-compliant"
  | ErrInsufficientRedundancy => "3cp: insufficient anchor redundancy"
  | ErrInvalidPublisherConfig => "3cp: invalid publisher configuration"
  | ErrIPFSPublishFailed => "3cp: IPFS publish failed"
  | ErrS3PublishFailed => "3cp: S3 publish failed"
  | ErrCIDMismatch => "3cp: CID mismatch with content hash"
  | ErrEntropyInsufficient => "3cp: entropy source insufficient (< 80 bits)"
  | ErrInvalidNetworkID => "3cp: invalid network ID"
  | ErrUID0DerivationFailed => "3cp: UID0 v2 derivation failed"
  | ErrConfigInvalid => "3cp: invalid configuration"
  | ErrBatchVerifyWorkersTooLow => "3cp: batch verify workers must be >= 4"
  | ErrRequiredSigsMismatch => "3cp: RequiredSigs must equal ceil(2N/3)"
  | ErrMinValidatorsNotMet => "3cp: initial validators less than MinValidators"
  end.

(** An error value: a sentinel, one made around another with [%w], or any other. *)
Inductive go_error :=
| GoV2 (e : v2_error)
| GoWrap (text : string) (e : go_error)
| GoOther (text : string).

(** The cases of the switch in [IsV2Error]. *)
Definition v2_cases : list v2_error :=
  [ErrQuorumNotMet; ErrCycleTimeout; ErrDegradedMode; ErrByzantineLeader; ErrInvalidPrepareSig;
   ErrInvalidVRFProof; ErrSlashingEvidence; ErrNetworkFragmented; ErrKeyRotationInvalidOldSig;
   ErrKeyRotationInvalidNewSig; ErrKeyRotationLeadTime; ErrKeyRotationOverlap;
   ErrKeyRotationDuplicate; ErrKeyRotationInvalidEntry; ErrMandateInactive; ErrMandateExpired;
   ErrMandateSuperseded; ErrMandateAuthorityMismatch; ErrMandateVersionConflict;
   ErrMandateMissingRequiredField; ErrMandateRefRequired; ErrInvalidMandateEntry;
   ErrMandateNotFound; ErrComplianceWindowInvalid; ErrPendingExpired;
   ErrMaxCycleDurationExceeded; ErrInvalidCycleDuration; ErrSkipEmptyCyclesDisabled;
   ErrPublisherNonCompliant; ErrInsufficientRedundancy; ErrInvalidPublisherConfig;
   ErrIPFSPublishFailed; ErrS3PublishFailed; ErrCIDMismatch; ErrEntropyInsufficient;
   ErrInvalidNetworkID; ErrUID0DerivationFailed; ErrConfigInvalid; ErrBatchVerifyWorkersTooLow;
   ErrRequiredSigsMismatch; ErrMinValidatorsNotMet].

(** [switch err]: equality of error values, so a wrapped sentinel is no case. *)
Definition IsV2Error (err : go_error) : bool :=
  match err with
  | GoV2 e => bool_decide (e ∈ v2_cases)
  | _ => false
  end.

(** [errors.Is] with a sentinel. *)
Fixpoint errors_Is_v2 (err : go_error) (target : v2_error) : bool :=
  match err with
  | GoV2 e => bool_decide (e = target)
  | GoWrap _ e => errors_Is_v2 e target
  | GoOther _ => false
  end.

(** ** Theorems *)

(** No sentinel is missing from the switch. *)
Lemma v2_cases_all e : e ∈ v2_cases.
Proof. destruct e; apply (bool_decide_unpack _); vm_compute; exact I. Qed.

(** The test holds of the sentinels themselves, and of nothing that wraps one. *)
Lemma IsV2Error_spec err : IsV2Error err = true ↔ ∃ e, err = GoV2 e.
Proof.
  destruct err as [e|t e|t]; cbn; [|by split; [|intros [? ?]]..]. rewrite bool_decide_eq_true.
  split; [by eexists|]. intros _. apply v2_cases_all.
Qed.

(** So it says no to an error that [errors.Is] recognises. *)
Lemma wrapped_not_v2 text e : errors_Is_v2 (GoWrap text (GoV2 e)) e = true ∧ IsV2Error (GoWrap text (GoV2 e)) = false.
Proof. cbn. by rewrite bool_decide_true. Qed.

(** Sentinels are told apart by their texts. *)
Lemma v2_text_inj e1 e2 : v2_text e1 = v2_text e2 → e1 = e2.
Proof. destruct e1, e2; first [reflexivity | discriminate]. Qed.
