(* ===== verification/Chain.v ===== *)
(** * Blocks, entries and mandates (pkg/chain: block.go, cbor.go, mandate_signature.go)

    Fixed-size Go arrays are byte lists; [well-formed] predicates give their lengths. A
    slice is a list, and [slice A] (an [option]) where the source, or the canonical CBOR
    encoding, tells nil from empty. The CBOR codec is a library of the build: its encoders
    are the operations of the class [Cbor], with the documented laws in [CborLaws]. *)
From Stdlib Require Import SpecFloat.
From S2P Require Import Prelude Crypto Sha256 Errors.

Abbreviation slice A := (option (list A)).
Abbreviation float64 := spec_float.

#[export] Instance spec_float_eq_dec : EqDecision spec_float.
Proof. solve_decision. Defined.

(** The elements of a slice; nil has none. *)
Definition elems {A} (s : slice A) : list A := default [] s.

Record ProvenanceEntry := MkEntry {
  e_Hash : bytes;
  e_Submitter : bytes;
  e_Timestamp : Z;
  e_Label : string;
  e_Approver : option bytes;
  e_Reference : option bytes;
  e_Signature : bytes;
  e_MandateRef : option bytes;
}.

Record ValidatorInfo := MkValidatorInfo {
  v_ValidatorID : bytes;
  v_Dilithium3PK : bytes;
  v_VRFPK : bytes;
  v_ContractHash : bytes;
}.

Record QuorumConfig := MkQuorumConfig {
  TotalValidators : Z;
  RequiredSigs : Z;
}.

Record Block := MkBlock {
  b_Index : Z;
  b_PrevHash : bytes;
  b_StateRoot : bytes;
  b_Proposer : bytes;
  b_Anchored : slice ProvenanceEntry;
  b_Lambda1 : float64;
  b_Timestamp : Z;
  b_Validators : list ValidatorInfo;
  b_Quorum : QuorumConfig;
  b_BlockHash : bytes;
  b_ProtocolVersion : Z;
  b_PrepareSigsBitmap : slice Z;
  b_PrepareSigs : slice bytes;
  b_CommitSig : bytes;
  b_ExternalAnchors : list string;
  b_KeyRotationEpoch : Z;
  b_LegacyAnchor : bytes;
  b_Metadata : gmap string bytes;
}.

(** The values genesis puts in a rule's [Fields] map ([interface{}]). *)
Inductive field_value :=
| FInt (z : Z) | FBool (b : bool) | FString (s : string) | FFloat (f : float64).

Record Rule := MkRule {
  r_EventClass : string;
  r_Description : string;
  r_SeverityMin : float64;
  r_SeverityMax : float64;
  r_AssetCriticalityMin : Z;
  r_RegulatoryScope : slice string;
  r_Mandatory : bool;
  r_RequiredFields : slice string;
  r_MaxDeferralSec : Z;
  r_Fields : gmap string field_value;
}.

Record MandateEntry := MkMandate {
  m_ID : bytes;
  m_Authority : bytes;
  m_Version : Z;
  m_PrevVersion : bytes;
  m_ValidFrom : Z;
  m_ValidUntil : Z;
  m_Supersedes : bytes;
  m_Rules : slice Rule;
  m_PolicyHash : bytes;
  m_PolicyURI : bytes;
  m_Signature : bytes;
}.

Record KeyRotationEntry := MkRotation {
  k_Hash : bytes;
  k_Submitter : bytes;
  k_Timestamp : Z;
  k_Label : string;
  k_NewPublicKey : bytes;
  k_NewVRFPublicKey : bytes;
  k_EffectiveCycle : Z;
  k_ExpiryCycle : Z;
  k_SignatureOld : slice Z;
  k_SignatureNew : slice Z;
}.

Record KeyRotationPayload := MkRotationPayload {
  p_Label : string;
  p_Submitter : bytes;
  p_NewPublicKey : bytes;
  p_NewVRFPublicKey : bytes;
  p_EffectiveCycle : Z;
  p_ExpiryCycle : Z;
}.

#[export] Instance ProvenanceEntry_eq_dec : EqDecision ProvenanceEntry.
Proof. solve_decision. Defined.
#[export] Instance ValidatorInfo_eq_dec : EqDecision ValidatorInfo.
Proof. solve_decision. Defined.
#[export] Instance QuorumConfig_eq_dec : EqDecision QuorumConfig.
Proof. solve_decision. Defined.
#[export] Instance Block_eq_dec : EqDecision Block.
Proof. solve_decision. Defined.
#[export] Instance field_value_eq_dec : EqDecision field_value.
Proof. solve_decision. Defined.
#[export] Instance Rule_eq_dec : EqDecision Rule.
Proof. solve_decision. Defined.
#[export] Instance MandateEntry_eq_dec : EqDecision MandateEntry.
Proof. solve_decision. Defined.
#[export] Instance KeyRotationEntry_eq_dec : EqDecision KeyRotationEntry.
Proof. solve_decision. Defined.

Definition MandateLabel : string := "3cp:mandate:v1".
Definition KeyRotationLabel : string := "3cp:key-rotation:v1".

(** ** The CBOR codec *)

(** [deterministicMode.Marshal] and [cbor.Unmarshal] at the types the code uses them. *)
Class Cbor := {
  cbor_entries : slice ProvenanceEntry → option bytes;
  cbor_quorum : QuorumConfig → option bytes;
  cbor_mandate : MandateEntry → option bytes;
  uncbor_mandate : bytes → option MandateEntry;
  cbor_rotation : KeyRotationEntry → option bytes;
  uncbor_rotation : bytes → option KeyRotationEntry;
  cbor_rotation_payload : KeyRotationPayload → option bytes;
}.

(** RFC 8949 section 4.2: encoding succeeds on these types, is injective, and decoding
    inverts it. (A mandate whose rules carry [Fields] is left out: decoding into
    [interface{}] changes the integer types.) *)
Class CborLaws `{Cbor} : Prop := {
  cbor_entries_total es : is_Some (cbor_entries es);
  cbor_entries_inj es1 es2 c :
    cbor_entries es1 = Some c → cbor_entries es2 = Some c → es1 = es2;
  cbor_quorum_total q : is_Some (cbor_quorum q);
  cbor_quorum_inj q1 q2 c : cbor_quorum q1 = Some c → cbor_quorum q2 = Some c → q1 = q2;
  cbor_mandate_total m :
    Forall (fun r => r_Fields r = ∅) (elems (m_Rules m)) → is_Some (cbor_mandate m);
  cbor_mandate_roundtrip m c :
    Forall (fun r => r_Fields r = ∅) (elems (m_Rules m)) →
    cbor_mandate m = Some c → uncbor_mandate c = Some m;
  cbor_rotation_total k : is_Some (cbor_rotation k);
  cbor_rotation_roundtrip k c : cbor_rotation k = Some c → uncbor_rotation c = Some k;
  cbor_rotation_payload_total p : is_Some (cbor_rotation_payload p);
  cbor_rotation_payload_inj p1 p2 c :
    cbor_rotation_payload p1 = Some c → cbor_rotation_payload p2 = Some c → p1 = p2;
}.

(** A marshalling call of the code: the encoding or the codec's error. *)
Definition marshal (r : option bytes) : outcome gerror bytes :=
  match r with Some c => Ok c | None => Err ErrCbor end.

(** ** Blocks *)

Definition DefaultQuorumConfig : QuorumConfig :=
  {| TotalValidators := 3; RequiredSigs := 3 |}.

Definition QuorumConfig_IsValid (q : QuorumConfig) : bool :=
  ((0 <? TotalValidators q) && (0 <? RequiredSigs q) && (RequiredSigs q <=? TotalValidators q))%Z.

Definition CloneProvenanceEntry (e : option ProvenanceEntry) : ProvenanceEntry :=
  match e with
  | None => {| e_Hash := zeros 32; e_Submitter := zeros 16; e_Timestamp := 0; e_Label := "";
               e_Approver := None; e_Reference := None; e_Signature := []; e_MandateRef := None |}
  | Some e =>
      {| e_Hash := e_Hash e; e_Submitter := e_Submitter e; e_Timestamp := e_Timestamp e;
         e_Label := e_Label e; e_Approver := e_Approver e; e_Reference := e_Reference e;
         e_Signature := e_Signature e; e_MandateRef := e_MandateRef e |}
  end.

(** [CloneBlock]: the slices are rebuilt element by element. [append(nil, s...)] of an
    empty bitmap is nil. *)
Definition CloneBlock (b : option Block) : option Block :=
  match b with
  | None => None
  | Some b => Some
      {| b_Index := b_Index b; b_PrevHash := b_PrevHash b; b_StateRoot := b_StateRoot b;
         b_Proposer := b_Proposer b;
         b_Anchored :=
           match b_Anchored b with
           | None => None
           | Some es => Some (map (fun e => CloneProvenanceEntry (Some e)) es)
           end;
         b_Lambda1 := b_Lambda1 b; b_Timestamp := b_Timestamp b;
         b_Validators := b_Validators b; b_Quorum := b_Quorum b; b_BlockHash := b_BlockHash b;
         b_ProtocolVersion := b_ProtocolVersion b;
         b_PrepareSigsBitmap :=
           match b_PrepareSigsBitmap b with Some (x :: l) => Some (x :: l) | _ => None end;
         b_PrepareSigs := b_PrepareSigs b; b_CommitSig := b_CommitSig b;
         b_ExternalAnchors := b_ExternalAnchors b; b_KeyRotationEpoch := b_KeyRotationEpoch b;
         b_LegacyAnchor := b_LegacyAnchor b; b_Metadata := b_Metadata b |}
  end.

Section hashing.
Context `{Primitives, Cbor}.

(** The bytes [ComputeBlockHash] writes to the SHA-256 state. An encoding error is
    discarded by the source and leaves the encoding nil. *)
Definition block_preimage (b : Block) : bytes :=
  le_bytes 8 (b_Index b) ++ b_PrevHash b ++ b_StateRoot b ++ b_Proposer b ++
  blake3 (default [] (cbor_entries (b_Anchored b))) ++
  le_bytes 8 (u64 (b_Timestamp b)) ++ default [] (cbor_quorum (b_Quorum b)).

Definition ComputeBlockHash (b : Block) : bytes := sha256 (block_preimage b).

Definition Block_VerifyHash (b : Block) : bool :=
  bool_decide (b_BlockHash b = ComputeBlockHash b).

(** ** Mandates *)

(** The mandate with its derived fields cleared. *)
Definition mandate_body (m : MandateEntry) : MandateEntry :=
  {| m_ID := zeros 32; m_Authority := m_Authority m; m_Version := m_Version m;
     m_PrevVersion := m_PrevVersion m; m_ValidFrom := m_ValidFrom m;
     m_ValidUntil := m_ValidUntil m; m_Supersedes := m_Supersedes m; m_Rules := m_Rules m;
     m_PolicyHash := m_PolicyHash m; m_PolicyURI := m_PolicyURI m; m_Signature := [] |}.

Definition MandateID (m : MandateEntry) : bytes :=
  match cbor_mandate (mandate_body m) with
  | None => zeros 32
  | Some encoded => blake3 encoded
  end.

Definition Mandate_VerifyHash (m : MandateEntry) : bool := bool_decide (m_ID m = MandateID m).

Definition IsActiveAt (m : MandateEntry) (timestamp : Z) : bool :=
  if (timestamp <? m_ValidFrom m)%Z then false
  else (m_ValidUntil m =? 0)%Z || (timestamp <=? m_ValidUntil m)%Z.

Definition MarshalPayloadCBOR (m : MandateEntry) : option bytes := cbor_mandate (mandate_body m).

Definition UnmarshalMandateEntry (data : bytes) : outcome gerror MandateEntry :=
  match uncbor_mandate data with
  | None => Err ErrCbor
  | Some m => if negb (Mandate_VerifyHash m) then Err ErrMandateHashMismatch else Ok m
  end.

Definition MarshalMandateEntry (m : MandateEntry) : option bytes := cbor_mandate m.

Definition MandateSignatureSize : nat := Dilithium3SignatureSize.

Definition set_mandate_sig (m : MandateEntry) (id sig : bytes) : MandateEntry :=
  {| m_ID := id; m_Authority := m_Authority m; m_Version := m_Version m;
     m_PrevVersion := m_PrevVersion m; m_ValidFrom := m_ValidFrom m;
     m_ValidUntil := m_ValidUntil m; m_Supersedes := m_Supersedes m; m_Rules := m_Rules m;
     m_PolicyHash := m_PolicyHash m; m_PolicyURI := m_PolicyURI m; m_Signature := sig |}.

(** [SignWithAuthority]: the updated mandate, or an error with the mandate unchanged. *)
Definition SignWithAuthority (m : MandateEntry) (secretKey : bytes) :
    outcome gerror MandateEntry := (
  fail_if (negb (length secretKey =? Dilithium3SecretKeySize)%nat) ErrMandateSigning ;;!
  payload <-! marshal (MarshalPayloadCBOR m) ;;
  let sig := SignDilithium secretKey payload in
  fail_if (negb (length sig =? MandateSignatureSize)%nat) ErrMandateSigning ;;!
  let m1 := set_mandate_sig m (m_ID m) sig in
  Ok (set_mandate_sig m1 (MandateID m1) sig))%go.

Definition VerifyAuthoritySignature (m : MandateEntry) (publicKey : bytes) : bool :=
  if negb (length (m_Signature m) =? MandateSignatureSize)%nat then false
  else match MarshalPayloadCBOR m with
       | None => false
       | Some payload => VerifyDilithium publicKey payload (m_Signature m)
       end.

(** ** Key rotation entries (pkg/chain/key_rotation.go) *)

Definition KeyRotationPublicKeySize : nat := Dilithium3PublicKeySize.
Definition KeyRotationSecretKeySize : nat := Dilithium3SecretKeySize.
Definition KeyRotationSignatureSize : nat := Dilithium3SignatureSize.

Definition Payload (k : KeyRotationEntry) : KeyRotationPayload :=
  {| p_Label := KeyRotationLabel; p_Submitter := k_Submitter k;
     p_NewPublicKey := k_NewPublicKey k; p_NewVRFPublicKey := k_NewVRFPublicKey k;
     p_EffectiveCycle := k_EffectiveCycle k; p_ExpiryCycle := k_ExpiryCycle k |}.

Definition PayloadBytes (k : KeyRotationEntry) : option bytes := cbor_rotation_payload (Payload k).

Definition set_rotation (k : KeyRotationEntry) (hash : bytes) (sigOld sigNew : slice Z) :
    KeyRotationEntry :=
  {| k_Hash := hash; k_Submitter := k_Submitter k; k_Timestamp := k_Timestamp k;
     k_Label := k_Label k; k_NewPublicKey := k_NewPublicKey k;
     k_NewVRFPublicKey := k_NewVRFPublicKey k; k_EffectiveCycle := k_EffectiveCycle k;
     k_ExpiryCycle := k_ExpiryCycle k; k_SignatureOld := sigOld; k_SignatureNew := sigNew |}.

Definition Rotation_ComputeHash (k : KeyRotationEntry) : bytes :=
  match cbor_rotation (set_rotation k (zeros 32) (k_SignatureOld k) (k_SignatureNew k)) with
  | None => zeros 32
  | Some encoded => blake3 encoded
  end.

Definition Rotation_VerifyHash (k : KeyRotationEntry) : bool :=
  bool_decide (k_Hash k = Rotation_ComputeHash k).

Definition InOverlap (k : KeyRotationEntry) (cycle : Z) : bool :=
  (k_EffectiveCycle k <=? cycle)%Z && (cycle <=? k_ExpiryCycle k)%Z.

Definition IsEffective (k : KeyRotationEntry) (cycle : Z) : bool :=
  (k_EffectiveCycle k <=? cycle)%Z.

Definition newRotationEntryShell (submitter newPublicKey newVRFPublicKey : bytes)
    (effectiveCycle expiryCycle timestamp : Z) : KeyRotationEntry :=
  {| k_Hash := zeros 32; k_Submitter := submitter; k_Timestamp := timestamp;
     k_Label := KeyRotationLabel; k_NewPublicKey := newPublicKey;
     k_NewVRFPublicKey := newVRFPublicKey; k_EffectiveCycle := effectiveCycle;
     k_ExpiryCycle := expiryCycle; k_SignatureOld := None; k_SignatureNew := None |}.

Definition signRotationWithCurrentKey (entry : KeyRotationEntry) (currentSecretKey : bytes) :
    outcome gerror KeyRotationEntry := (
  fail_if (negb (length currentSecretKey =? KeyRotationSecretKeySize)%nat) ErrInvalidCurrentKey ;;!
  payloadBytes <-! marshal (PayloadBytes entry) ;;
  let sigOld := SignDilithium currentSecretKey payloadBytes in
  fail_if (negb (length sigOld =? KeyRotationSignatureSize)%nat) ErrSigningFailed ;;!
  let entry1 := set_rotation entry (k_Hash entry) (Some sigOld) (k_SignatureNew entry) in
  Ok (set_rotation entry1 (Rotation_ComputeHash entry1) (Some sigOld) (k_SignatureNew entry1)))%go.

Definition NewKeyRotationEntry (submitter currentSecretKey newPublicKey newVRFPublicKey
    newSecretKey : bytes) (effectiveCycle expiryCycle timestamp : Z) :
    outcome gerror KeyRotationEntry := (
  fail_if (negb (length newSecretKey =? KeyRotationSecretKeySize)%nat) ErrInvalidNewKey ;;!
  let entry := newRotationEntryShell submitter newPublicKey newVRFPublicKey
                 effectiveCycle expiryCycle timestamp in
  payloadBytes <-! marshal (PayloadBytes entry) ;;
  let sigNew := SignDilithium newSecretKey payloadBytes in
  fail_if (negb (length sigNew =? KeyRotationSignatureSize)%nat) ErrSigningFailed ;;!
  signRotationWithCurrentKey
    (set_rotation entry (k_Hash entry) (k_SignatureOld entry) (Some sigNew)) currentSecretKey)%go.

Definition NewKeyRotationEntryWithNewSignature (submitter currentSecretKey newPublicKey
    newVRFPublicKey sigNew : bytes) (effectiveCycle expiryCycle timestamp : Z) :
    outcome gerror KeyRotationEntry := (
  let entry := newRotationEntryShell submitter newPublicKey newVRFPublicKey
                 effectiveCycle expiryCycle timestamp in
  fail_if (negb (length sigNew =? KeyRotationSignatureSize)%nat) ErrInvalidNewSig ;;!
  signRotationWithCurrentKey
    (set_rotation entry (k_Hash entry) (k_SignatureOld entry) (Some sigNew)) currentSecretKey)%go.

Definition KeyRotationPayloadFor (submitter newPublicKey newVRFPublicKey : bytes)
    (effectiveCycle expiryCycle : Z) : option bytes :=
  PayloadBytes
    {| k_Hash := zeros 32; k_Submitter := submitter; k_Timestamp := 0;
       k_Label := KeyRotationLabel; k_NewPublicKey := newPublicKey;
       k_NewVRFPublicKey := newVRFPublicKey; k_EffectiveCycle := effectiveCycle;
       k_ExpiryCycle := expiryCycle; k_SignatureOld := None; k_SignatureNew := None |}.

Definition MarshalKeyRotationEntry (k : KeyRotationEntry) : option bytes := cbor_rotation k.

Definition UnmarshalKeyRotationEntry (data : bytes) : outcome gerror KeyRotationEntry :=
  match uncbor_rotation data with
  | None => Err ErrCbor
  | Some k => if negb (Rotation_VerifyHash k) then Err ErrHashMismatch else Ok k
  end.
End hashing.
