(* ===== verification/ToyCbor.v ===== *)
(** * A concrete instance of the CBOR codec's interface

    Every value is written as the bits of its [Countable] code, which is injective and
    decodable: enough to check the hypotheses of the theorems by computation. *)
From Stdlib Require Import SpecFloat.
From stdpp Require Import countable.
From S2P Require Import Prelude Crypto Chain.

Fixpoint pos_bits (p : positive) : bytes :=
  match p with
  | xH => []
  | xO p' => 0%Z :: pos_bits p'
  | xI p' => 1%Z :: pos_bits p'
  end.

Fixpoint bits_pos (l : bytes) : positive :=
  match l with
  | [] => xH
  | b :: l' => if (b =? 0)%Z then xO (bits_pos l') else xI (bits_pos l')
  end.

Lemma bits_pos_bits p : bits_pos (pos_bits p) = p.
Proof. induction p; simpl; congruence. Qed.

Definition toy_cbor {A} `{Countable A} (x : A) : bytes := pos_bits (encode x).
Definition toy_uncbor {A} `{Countable A} (l : bytes) : option A := decode (bits_pos l).

Lemma toy_uncbor_cbor {A} `{Countable A} (x : A) : toy_uncbor (toy_cbor x) = Some x.
Proof. unfold toy_uncbor, toy_cbor. rewrite bits_pos_bits. apply decode_encode. Qed.

Lemma toy_cbor_inj {A} `{Countable A} (x y : A) : toy_cbor x = toy_cbor y → x = y.
Proof.
  intros Heq. apply (f_equal (toy_uncbor (A := A))) in Heq. rewrite !toy_uncbor_cbor in Heq. congruence.
Qed.

#[export] Instance spec_float_countable : Countable spec_float.
Proof.
  refine (inj_countable'
    (fun f => match f with
              | S754_zero b => inl b
              | S754_infinity b => inr (inl b)
              | S754_nan => inr (inr (inl tt))
              | S754_finite b m e => inr (inr (inr (b, m, e)))
              end)
    (fun x => match x with
              | inl b => S754_zero b
              | inr (inl b) => S754_infinity b
              | inr (inr (inl _)) => S754_nan
              | inr (inr (inr (b, m, e))) => S754_finite b m e
              end) _).
  by intros [].
Defined.

#[export] Instance entry_countable : Countable ProvenanceEntry.
Proof.
  refine (inj_countable
    (fun e => [encode (e_Hash e); encode (e_Submitter e); encode (e_Timestamp e); encode (e_Label e); encode (e_Approver e); encode (e_Reference e); encode (e_Signature e); encode (e_MandateRef e)])
    (fun l => match l with
              | [p0; p1; p2; p3; p4; p5; p6; p7] => x0 ← decode p0; x1 ← decode p1; x2 ← decode p2; x3 ← decode p3; x4 ← decode p4; x5 ← decode p5; x6 ← decode p6; x7 ← decode p7; Some (MkEntry x0 x1 x2 x3 x4 x5 x6 x7)
              | _ => None
              end) _).
  intros []. cbn -[encode decode]. by rewrite !decode_encode.
Defined.

#[export] Instance quorum_countable : Countable QuorumConfig.
Proof.
  refine (inj_countable
    (fun q => [encode (TotalValidators q); encode (RequiredSigs q)])
    (fun l => match l with
              | [p0; p1] => x0 ← decode p0; x1 ← decode p1; Some (MkQuorumConfig x0 x1)
              | _ => None
              end) _).
  intros []. cbn -[encode decode]. by rewrite !decode_encode.
Defined.

#[export] Instance field_value_countable : Countable field_value.
Proof.
  refine (inj_countable'
    (fun f => match f with
              | FInt z => inl z | FBool b => inr (inl b) | FString s => inr (inr (inl s))
              | FFloat x => inr (inr (inr x))
              end)
    (fun x => match x with
              | inl z => FInt z | inr (inl b) => FBool b | inr (inr (inl s)) => FString s
              | inr (inr (inr x)) => FFloat x
              end) _).
  by intros [].
Defined.

#[export] Instance rule_countable : Countable Rule.
Proof.
  refine (inj_countable
    (fun r => [encode (r_EventClass r); encode (r_Description r); encode (r_SeverityMin r); encode (r_SeverityMax r); encode (r_AssetCriticalityMin r); encode (r_RegulatoryScope r); encode (r_Mandatory r); encode (r_RequiredFields r); encode (r_MaxDeferralSec r); encode (r_Fields r)])
    (fun l => match l with
              | [p0; p1; p2; p3; p4; p5; p6; p7; p8; p9] => x0 ← decode p0; x1 ← decode p1; x2 ← decode p2; x3 ← decode p3; x4 ← decode p4; x5 ← decode p5; x6 ← decode p6; x7 ← decode p7; x8 ← decode p8; x9 ← decode p9; Some (MkRule x0 x1 x2 x3 x4 x5 x6 x7 x8 x9)
              | _ => None
              end) _).
  intros []. cbn -[encode decode]. by rewrite !decode_encode.
Defined.

#[export] Instance mandate_countable : Countable MandateEntry.
Proof.
  refine (inj_countable
    (fun m => [encode (m_ID m); encode (m_Authority m); encode (m_Version m); encode (m_PrevVersion m); encode (m_ValidFrom m); encode (m_ValidUntil m); encode (m_Supersedes m); encode (m_Rules m); encode (m_PolicyHash m); encode (m_PolicyURI m); encode (m_Signature m)])
    (fun l => match l with
              | [p0; p1; p2; p3; p4; p5; p6; p7; p8; p9; p10] => x0 ← decode p0; x1 ← decode p1; x2 ← decode p2; x3 ← decode p3; x4 ← decode p4; x5 ← decode p5; x6 ← decode p6; x7 ← decode p7; x8 ← decode p8; x9 ← decode p9; x10 ← decode p10; Some (MkMandate x0 x1 x2 x3 x4 x5 x6 x7 x8 x9 x10)
              | _ => None
              end) _).
  intros []. cbn -[encode decode]. by rewrite !decode_encode.
Defined.

#[export] Instance rotation_countable : Countable KeyRotationEntry.
Proof.
  refine (inj_countable
    (fun k => [encode (k_Hash k); encode (k_Submitter k); encode (k_Timestamp k); encode (k_Label k); encode (k_NewPublicKey k); encode (k_NewVRFPublicKey k); encode (k_EffectiveCycle k); encode (k_ExpiryCycle k); encode (k_SignatureOld k); encode (k_SignatureNew k)])
    (fun l => match l with
              | [p0; p1; p2; p3; p4; p5; p6; p7; p8; p9] => x0 ← decode p0; x1 ← decode p1; x2 ← decode p2; x3 ← decode p3; x4 ← decode p4; x5 ← decode p5; x6 ← decode p6; x7 ← decode p7; x8 ← decode p8; x9 ← decode p9; Some (MkRotation x0 x1 x2 x3 x4 x5 x6 x7 x8 x9)
              | _ => None
              end) _).
  intros []. cbn -[encode decode]. by rewrite !decode_encode.
Defined.

#[export] Instance payload_eq_dec : EqDecision KeyRotationPayload.
Proof. solve_decision. Defined.

#[export] Instance payload_countable : Countable KeyRotationPayload.
Proof.
  refine (inj_countable
    (fun p => [encode (p_Label p); encode (p_Submitter p); encode (p_NewPublicKey p); encode (p_NewVRFPublicKey p); encode (p_EffectiveCycle p); encode (p_ExpiryCycle p)])
    (fun l => match l with
              | [p0; p1; p2; p3; p4; p5] => x0 ← decode p0; x1 ← decode p1; x2 ← decode p2; x3 ← decode p3; x4 ← decode p4; x5 ← decode p5; Some (MkRotationPayload x0 x1 x2 x3 x4 x5)
              | _ => None
              end) _).
  intros []. cbn -[encode decode]. by rewrite !decode_encode.
Defined.

#[export] Instance ToyCbor : Cbor := {|
  cbor_entries es := Some (toy_cbor es);
  cbor_quorum q := Some (toy_cbor q);
  cbor_mandate m := Some (toy_cbor m);
  uncbor_mandate := toy_uncbor;
  cbor_rotation k := Some (toy_cbor k);
  uncbor_rotation := toy_uncbor;
  cbor_rotation_payload p := Some (toy_cbor p);
|}.

#[export] Instance toy_cbor_laws : CborLaws.
Proof.
  split; simpl; try (intros; by eexists);
    try (intros ? ? ? [= <-] [= Heq]; symmetry; by apply toy_cbor_inj);
    intros ? ?.
  - intros _ [= <-]. apply toy_uncbor_cbor.
  - intros [= <-]. apply toy_uncbor_cbor.
Qed.
