(* ===== verification/BlockCodec.v ===== *)
(** * The CBOR codec of blocks (pkg/chain/cbor.go)

    The encoder and the decoder of the CBOR library are the operations of [BlockCbor]. The
    encoder writes text as it is and the decoder rejects text that is not UTF-8, so the round
    trip is a law on the blocks whose text is valid UTF-8. Nil and empty slices of a block have different encodings. *)
From S2P Require Import Prelude Crypto Errors Chain.

Class BlockCbor := {
  cbor_block : Block → option bytes;
  uncbor_block : bytes → option Block;
}.

(** Membership of a byte in a range, and in the range of the continuation bytes. *)
Definition byte_in (lo hi b : Z) : bool := (lo <=? b)%Z && (b <=? hi)%Z.
Definition utf8_cont : Z → bool := byte_in 0x80 0xBF.

(** The second byte that a three-byte or four-byte form may have after its first: no overlong
    forms, no surrogates, nothing above U+10FFFF. *)
Definition utf8_second (a b : Z) : bool :=
  if (a =? 0xE0)%Z then byte_in 0xA0 0xBF b
  else if (a =? 0xED)%Z then byte_in 0x80 0x9F b
  else if (a =? 0xF0)%Z then byte_in 0x90 0xBF b
  else if (a =? 0xF4)%Z then byte_in 0x80 0x8F b
  else utf8_cont b.

(** [utf8.Valid]. *)
Fixpoint utf8_valid (l : bytes) : bool :=
  match l with
  | [] => true
  | a :: l1 =>
      if byte_in 0 0x7F a then utf8_valid l1
      else if byte_in 0xC2 0xDF a then
        match l1 with b :: l2 => utf8_cont b && utf8_valid l2 | _ => false end
      else if byte_in 0xE0 0xEF a then
        match l1 with b :: c :: l3 => utf8_second a b && utf8_cont c && utf8_valid l3 | _ => false end
      else if byte_in 0xF0 0xF4 a then
        match l1 with
        | b :: c :: d :: l4 => utf8_second a b && utf8_cont c && utf8_cont d && utf8_valid l4
        | _ => false
        end
      else false
  end.

Definition utf8_text (s : string) : bool := utf8_valid (string_bytes s).

(** ASCII text is valid; so are the accented, CJK and astral characters below, and neither
    an overlong form, a surrogate, a cut-off form nor a stray continuation byte is. *)
Lemma utf8_valid_ascii l : Forall (fun a => byte_in 0 0x7F a = true) l → utf8_valid l = true.
Proof. induction 1 as [|a l Ha _ IH]; [done|]. cbn [utf8_valid]. by rewrite Ha. Qed.

Example utf8_valid_forms :
  forallb utf8_valid [[0xC3; 0xA9]; [0xE4; 0xB8; 0xAD]; [0xF0; 0x9F; 0x98; 0x80]]%Z = true ∧
  existsb utf8_valid [[0xC0; 0xAF]; [0xED; 0xA0; 0x80]; [0xE4; 0xB8]; [0x80]; [0xF4; 0x90; 0x80; 0x80]]%Z = false.
Proof. split; reflexivity. Qed.

(** The strings of a block: the labels of its entries, its anchors and the keys of its metadata. *)
Definition block_texts (b : Block) : list string :=
  (e_Label <$> elems (b_Anchored b)) ++ b_ExternalAnchors b ++ (fst <$> map_to_list (b_Metadata b)).

Definition block_utf8 (b : Block) : bool := forallb utf8_text (block_texts b).

(** Encoding succeeds, and decoding inverts it. *)
Class BlockCborLaws `{BlockCbor} : Prop := {
  cbor_block_total b : is_Some (cbor_block b);
  cbor_block_roundtrip b c : block_utf8 b = true → cbor_block b = Some c → uncbor_block c = Some b;
}.

Section codec.
Context `{BlockCbor}.

Definition MarshalCBOR (b : Block) : outcome gerror bytes :=
  match cbor_block b with Some data => Ok data | None => Err ErrCbor end.

Definition UnmarshalCBOR (data : bytes) : outcome gerror Block :=
  match uncbor_block data with Some b => Ok b | None => Err ErrCbor end.

Lemma MarshalCBOR_Ok b data : MarshalCBOR b = Ok data ↔ cbor_block b = Some data.
Proof. unfold MarshalCBOR. destruct (cbor_block b); naive_solver. Qed.

Lemma MarshalCBOR_total `{!BlockCborLaws} b : ∃ data, MarshalCBOR b = Ok data.
Proof. destruct (cbor_block_total b) as [data E]. exists data. by apply MarshalCBOR_Ok. Qed.

Lemma UnmarshalCBOR_Marshal `{!BlockCborLaws} b data :
  block_utf8 b = true → MarshalCBOR b = Ok data → UnmarshalCBOR data = Ok b.
Proof.
  intros Ha Hm%MarshalCBOR_Ok. unfold UnmarshalCBOR. by rewrite (cbor_block_roundtrip b data Ha Hm).
Qed.
End codec.
