(* ===== verification/ChainTheorems.v ===== *)
(** * Properties of blocks, mandates and rotation entries

    What the block hash commits to, and that what the constructors sign is what the
    verifiers check. *)
From Stdlib Require Import SpecFloat.
From S2P Require Import Prelude Crypto Toy Sha256 Errors Chain ToyCbor.

Section theorems.
Context `{Primitives, Cbor} `{!Blake3Length, !MldsaCorrect, !CborLaws}.

Lemma marshal_Ok r c : marshal r = Ok c ↔ r = Some c.
Proof. destruct r; simpl; split; congruence. Qed.

(** ** Block hash *)

(** The field widths and ranges of the Go types. *)
Record block_wf (b : Block) : Prop := {
  wf_Index : u64_ok (b_Index b);
  wf_PrevHash : length (b_PrevHash b) = 32;
  wf_StateRoot : length (b_StateRoot b) = 32;
  wf_Proposer : length (b_Proposer b) = 16;
  wf_Timestamp : i64_ok (b_Timestamp b);
}.

(** What the hash is meant to cover (spec 4.4). *)
Definition block_committed (b : Block) :=
  (b_Index b, b_PrevHash b, b_StateRoot b, b_Proposer b, b_Anchored b, b_Timestamp b, b_Quorum b).

Lemma block_preimage_inj b1 b2 :
  block_wf b1 → block_wf b2 →
  no_collision blake3 (default [] (cbor_entries (b_Anchored b1)))
    (default [] (cbor_entries (b_Anchored b2))) →
  block_preimage b1 = block_preimage b2 → block_committed b1 = block_committed b2.
Proof.
  intros [Hi1 Hp1 Hs1 Hr1 Ht1] [Hi2 Hp2 Hs2 Hr2 Ht2] Hcf Heq. unfold block_preimage in Heq.
  apply app_inj_length in Heq as [Hidx Heq]; [|by rewrite !length_le_bytes].
  apply app_inj_length in Heq as [Hprev Heq]; [|congruence].
  apply app_inj_length in Heq as [Hroot Heq]; [|congruence].
  apply app_inj_length in Heq as [Hprop Heq]; [|congruence].
  apply app_inj_length in Heq as [Hanch Heq]; [|by rewrite !length_blake3].
  apply app_inj_length in Heq as [Hts Hq]; [|by rewrite !length_le_bytes].
  apply le64_inj in Hidx; [|done..].
  apply le64_inj in Hts; auto with gleipnir. apply u64_i64_inj in Hts; [|done..].
  apply Hcf in Hanch.
  destruct (cbor_entries_total (b_Anchored b1)) as [c1 Hc1], (cbor_entries_total (b_Anchored b2)) as [c2 Hc2].
  destruct (cbor_quorum_total (b_Quorum b1)) as [q1 Hq1], (cbor_quorum_total (b_Quorum b2)) as [q2 Hq2].
  rewrite Hc1, Hc2 in Hanch. rewrite Hq1, Hq2 in Hq. simpl in *. subst c2 q2.
  unfold block_committed.
  rewrite Hidx, Hprev, Hroot, Hprop, Hts, (cbor_entries_inj _ _ _ Hc1 Hc2), (cbor_quorum_inj _ _ _ Hq1 Hq2).
  done.
Qed.

Lemma ComputeBlockHash_committed b1 b2 :
  block_committed b1 = block_committed b2 → ComputeBlockHash b1 = ComputeBlockHash b2.
Proof.
  unfold block_committed, ComputeBlockHash, block_preimage. by intros [= -> -> -> -> -> -> ->].
Qed.

(** Two well-formed blocks have the same hash exactly when their index, previous hash,
    state root, proposer, anchored entries, timestamp and quorum configuration agree,
    unless SHA-256 or BLAKE3 collides on the very messages the two hashes are made of. *)
Theorem block_hash_binds b1 b2 :
  block_wf b1 → block_wf b2 →
  no_collision sha256 (block_preimage b1) (block_preimage b2) →
  no_collision blake3 (default [] (cbor_entries (b_Anchored b1)))
    (default [] (cbor_entries (b_Anchored b2))) →
  ComputeBlockHash b1 = ComputeBlockHash b2 ↔ block_committed b1 = block_committed b2.
Proof.
  intros Hwf1 Hwf2 Hsha Hcf. split.
  - intros Heq. by apply block_preimage_inj; auto.
  - apply ComputeBlockHash_committed.
Qed.

(** ** Mandates *)

Lemma mandate_body_set m id sig : mandate_body (set_mandate_sig m id sig) = mandate_body m.
Proof. done. Qed.

Lemma MandateID_body m1 m2 : mandate_body m1 = mandate_body m2 → MandateID m1 = MandateID m2.
Proof. unfold MandateID. by intros ->. Qed.

Definition no_fields (m : MandateEntry) : Prop :=
  Forall (fun r => r_Fields r = ∅) (elems (m_Rules m)).

(** Signing a mandate with a 32-byte key succeeds; the result keeps every signed field,
    carries an identifier that commits to its contents and a signature that verifies under
    the signer's public key, and survives encoding and checked decoding. *)
Theorem mandate_sign_roundtrip m sk :
  length sk = Dilithium3SecretKeySize → no_fields m →
  ∃ m' data, SignWithAuthority m sk = Ok m' ∧ mandate_body m' = mandate_body m ∧
    Mandate_VerifyHash m' = true ∧ VerifyAuthoritySignature m' (mldsa_public sk) = true ∧
    MarshalMandateEntry m' = Some data ∧ UnmarshalMandateEntry data = Ok m'.
Proof.
  intros Hsk Hf. destruct (cbor_mandate_total (mandate_body m) Hf) as [payload Hp].
  pose (sig := SignDilithium sk payload).
  assert (Hlen : length sig = MandateSignatureSize) by (by apply length_SignDilithium).
  pose (m1 := set_mandate_sig m (m_ID m) sig). pose (m2 := set_mandate_sig m1 (MandateID m1) sig).
  assert (Hid : Mandate_VerifyHash m2 = true) by (by apply bool_decide_eq_true).
  destruct (cbor_mandate_total m2 Hf) as [data Hd].
  exists m2, data. split_and!; auto.
  - unfold SignWithAuthority. rewrite Hsk, Nat.eqb_refl. simpl.
    unfold MarshalPayloadCBOR. rewrite Hp. simpl. fold sig. by rewrite Hlen, Nat.eqb_refl.
  - unfold VerifyAuthoritySignature. cbn [m_Signature m2 set_mandate_sig].
    rewrite Hlen, Nat.eqb_refl. simpl.
    unfold MarshalPayloadCBOR. change (mandate_body m2) with (mandate_body m). rewrite Hp.
    by apply VerifyDilithium_Sign.
  - unfold UnmarshalMandateEntry. rewrite (cbor_mandate_roundtrip m2 data Hf Hd). by rewrite Hid.
Qed.

(** A mandate whose body was changed after it was signed is rejected: its identifier no
    longer commits to its contents. *)
Theorem mandate_tamper_detected m m' :
  no_fields m → no_fields m' → Mandate_VerifyHash m = true → m_ID m' = m_ID m →
  mandate_body m' ≠ mandate_body m →
  no_collision blake3 (default [] (cbor_mandate (mandate_body m)))
    (default [] (cbor_mandate (mandate_body m'))) →
  Mandate_VerifyHash m' = false.
Proof.
  intros Hf Hf' Hv Hid Hne Hcf. apply bool_decide_eq_true in Hv. apply bool_decide_eq_false.
  rewrite Hid, Hv. intros Heq. apply Hne. unfold MandateID in Heq.
  destruct (cbor_mandate_total (mandate_body m) Hf) as [c Hc].
  destruct (cbor_mandate_total (mandate_body m') Hf') as [c' Hc'].
  rewrite Hc, Hc' in Heq, Hcf. pose proof (Hcf Heq) as Hcc. simpl in Hcc. subst c'.
  pose proof (cbor_mandate_roundtrip (mandate_body m) c Hf Hc) as Hr.
  pose proof (cbor_mandate_roundtrip (mandate_body m') c Hf' Hc') as Hr'. congruence.
Qed.

(** ** Rotation entries *)

(** What a constructor's entry satisfies. *)
Record rotation_signed (k : KeyRotationEntry) (payload skOld : bytes) : Prop := {
  rs_label : k_Label k = KeyRotationLabel;
  rs_payload : PayloadBytes k = Some payload;
  rs_hash : Rotation_VerifyHash k = true;
  rs_old_len : length (elems (k_SignatureOld k)) = KeyRotationSignatureSize;
  rs_new_len : length (elems (k_SignatureNew k)) = KeyRotationSignatureSize;
  rs_old : VerifyDilithium (mldsa_public skOld) payload (elems (k_SignatureOld k)) = true;
}.

Lemma signRotationWithCurrentKey_spec entry skOld sigNew :
  length skOld = KeyRotationSecretKeySize → k_Label entry = KeyRotationLabel →
  k_SignatureNew entry = Some sigNew → length sigNew = KeyRotationSignatureSize →
  ∃ k payload, signRotationWithCurrentKey entry skOld = Ok k ∧ rotation_signed k payload skOld ∧
    Payload k = Payload entry ∧ k_SignatureNew k = Some sigNew ∧
    k_Timestamp k = k_Timestamp entry.
Proof.
  intros Hsk Hlab Hsig Hlen. destruct (cbor_rotation_payload_total (Payload entry)) as [payload Hp].
  pose (sigOld := SignDilithium skOld payload).
  assert (Hlo : length sigOld = KeyRotationSignatureSize) by (by apply length_SignDilithium).
  pose (e1 := set_rotation entry (k_Hash entry) (Some sigOld) (k_SignatureNew entry)).
  exists (set_rotation e1 (Rotation_ComputeHash e1) (Some sigOld) (k_SignatureNew e1)), payload.
  split_and!; try done.
  - unfold signRotationWithCurrentKey. rewrite Hsk, Nat.eqb_refl. simpl.
    unfold PayloadBytes. rewrite Hp. simpl. fold sigOld. by rewrite Hlo, Nat.eqb_refl.
  - constructor; try done.
    + by apply bool_decide_eq_true.
    + simpl. by rewrite Hsig.
    + by apply VerifyDilithium_Sign.
Qed.

Lemma NewKeyRotationEntry_spec sub skOld pkNew vrf skNew eff exp ts :
  length skOld = KeyRotationSecretKeySize → length skNew = KeyRotationSecretKeySize →
  ∃ k payload, NewKeyRotationEntry sub skOld pkNew vrf skNew eff exp ts = Ok k ∧
    rotation_signed k payload skOld ∧
    Payload k = Payload (newRotationEntryShell sub pkNew vrf eff exp ts) ∧
    VerifyDilithium (mldsa_public skNew) payload (elems (k_SignatureNew k)) = true.
Proof.
  intros Ho Hn. pose (shell := newRotationEntryShell sub pkNew vrf eff exp ts).
  destruct (cbor_rotation_payload_total (Payload shell)) as [payload Hp].
  pose (sigNew := SignDilithium skNew payload).
  assert (Hln : length sigNew = KeyRotationSignatureSize) by (by apply length_SignDilithium).
  destruct (signRotationWithCurrentKey_spec
              (set_rotation shell (k_Hash shell) (k_SignatureOld shell) (Some sigNew)) skOld sigNew)
    as (k & payload' & Hk & Hs & Hpl & Hsn & _); [done..|].
  exists k, payload'. split_and!; [|done|done|].
  - unfold NewKeyRotationEntry. rewrite Hn, Nat.eqb_refl. simpl.
    fold shell. unfold PayloadBytes. rewrite Hp. simpl. fold sigNew. rewrite Hln, Nat.eqb_refl. done.
  - rewrite Hsn. simpl. assert (payload' = payload) as ->; [|by apply VerifyDilithium_Sign].
    pose proof (rs_payload _ _ _ Hs) as Hp'. unfold PayloadBytes in Hp'. rewrite Hpl in Hp'.
    change (cbor_rotation_payload (Payload shell) = Some payload') in Hp'. congruence.
Qed.

(** A rotation entry built with two 32-byte secret keys is signed by both over the same
    payload, carries the requested cycles and keys, has a hash that commits to it, and
    survives encoding and checked decoding. *)
Theorem rotation_entry_roundtrip sub skOld pkNew vrf skNew eff exp ts :
  length skOld = KeyRotationSecretKeySize → length skNew = KeyRotationSecretKeySize →
  ∃ k payload data, NewKeyRotationEntry sub skOld pkNew vrf skNew eff exp ts = Ok k ∧
    KeyRotationPayloadFor sub pkNew vrf eff exp = Some payload ∧
    VerifyDilithium (mldsa_public skOld) payload (elems (k_SignatureOld k)) = true ∧
    VerifyDilithium (mldsa_public skNew) payload (elems (k_SignatureNew k)) = true ∧
    MarshalKeyRotationEntry k = Some data ∧ UnmarshalKeyRotationEntry data = Ok k.
Proof.
  intros Ho Hn.
  destruct (NewKeyRotationEntry_spec sub skOld pkNew vrf skNew eff exp ts Ho Hn)
    as (k & payload & Hk & Hs & Hpl & Hnew).
  destruct (cbor_rotation_total k) as [data Hd]. exists k, payload, data.
  split_and!; auto; [|by apply (rs_old _ _ _ Hs)|].
  - rewrite <- (rs_payload _ _ _ Hs). unfold KeyRotationPayloadFor, PayloadBytes. by rewrite Hpl.
  - unfold UnmarshalKeyRotationEntry. rewrite (cbor_rotation_roundtrip k data Hd).
    by rewrite (rs_hash _ _ _ Hs).
Qed.
End theorems.

Lemma map_CloneProvenanceEntry es : map (fun e => CloneProvenanceEntry (Some e)) es = es.
Proof. induction es as [|[] es IH]; [done|]. cbn [map]. by rewrite IH. Qed.

(** Deep copies: the clone of a block is equal to it, a bitmap that is empty but not nil
    apart. *)
Lemma CloneBlock_Some b :
  b_PrepareSigsBitmap b ≠ Some [] → CloneBlock (Some b) = Some b.
Proof.
  destruct b as [i ph sr pr an la ts va qu bh pv bm sg cs ea ke lg md].
  unfold CloneBlock. cbn [b_PrepareSigsBitmap b_Anchored]. intros Hb.
  destruct an as [es|]; rewrite ?map_CloneProvenanceEntry; by destruct bm as [[|]|].
Qed.

(** ** Instances *)

Definition demo_block (timestamp : Z) : Block :=
  {| b_Index := 7; b_PrevHash := key32 1; b_StateRoot := key32 2; b_Proposer := zeros 16;
     b_Anchored := Some []; b_Lambda1 := S754_zero false; b_Timestamp := timestamp;
     b_Validators := []; b_Quorum := DefaultQuorumConfig; b_BlockHash := [];
     b_ProtocolVersion := 2; b_PrepareSigsBitmap := None; b_PrepareSigs := None;
     b_CommitSig := []; b_ExternalAnchors := []; b_KeyRotationEpoch := 0;
     b_LegacyAnchor := []; b_Metadata := ∅ |}.

Lemma demo_block_wf ts : i64_ok ts → block_wf (demo_block ts).
Proof. intros Hts. constructor; try reflexivity; [unfold u64_ok; simpl; lia|done]. Qed.

Lemma block_hash_binds_witness :
  ComputeBlockHash (demo_block 100) ≠ ComputeBlockHash (demo_block (-100)).
Proof.
  intros Heq.
  apply (block_hash_binds (demo_block 100) (demo_block (-100))) in Heq.
  - discriminate Heq.
  - apply demo_block_wf. unfold i64_ok. lia.
  - apply demo_block_wf. unfold i64_ok. lia.
  - intros Hc. exfalso. revert Hc. vm_compute. discriminate.
  - intros _. reflexivity.
Defined.

Definition demo_mandate : MandateEntry :=
  {| m_ID := zeros 32; m_Authority := zeros 16; m_Version := 1; m_PrevVersion := zeros 32;
     m_ValidFrom := 10; m_ValidUntil := 1000; m_Supersedes := zeros 32;
     m_Rules := Some [MkRule "deploy" "" (S754_zero false) (S754_zero false) 0 None true
                        (Some ["Approver"]) 60 ∅];
     m_PolicyHash := zeros 32; m_PolicyURI := []; m_Signature := [] |}.

Lemma mandate_sign_roundtrip_witness :
  ∃ m' data, SignWithAuthority demo_mandate (key32 5) = Ok m' ∧
    mandate_body m' = mandate_body demo_mandate ∧
    Mandate_VerifyHash m' = true ∧ VerifyAuthoritySignature m' (mldsa_public (key32 5)) = true ∧
    MarshalMandateEntry m' = Some data ∧ UnmarshalMandateEntry data = Ok m'.
Proof.
  apply (mandate_sign_roundtrip demo_mandate (key32 5)); [reflexivity|].
  repeat constructor.
Defined.

Definition demo_mandate_id : MandateEntry :=
  set_mandate_sig demo_mandate (MandateID demo_mandate) [].

Definition demo_mandate_forged : MandateEntry :=
  {| m_ID := MandateID demo_mandate; m_Authority := zeros 16; m_Version := 1;
     m_PrevVersion := zeros 32; m_ValidFrom := 10; m_ValidUntil := 0;
     m_Supersedes := zeros 32; m_Rules := m_Rules demo_mandate; m_PolicyHash := zeros 32;
     m_PolicyURI := []; m_Signature := [] |}.

Lemma mandate_tamper_detected_witness : Mandate_VerifyHash demo_mandate_forged = false.
Proof.
  apply (mandate_tamper_detected demo_mandate_id demo_mandate_forged).
  - repeat constructor.
  - repeat constructor.
  - vm_compute. reflexivity.
  - reflexivity.
  - discriminate.
  - intros Hc. exfalso. revert Hc. vm_compute. discriminate.
Defined.

Lemma rotation_entry_roundtrip_witness :
  ∃ k payload data,
    NewKeyRotationEntry (zeros 16) (key32 1) [] [] (key32 2) 20 40 5 = Ok k ∧
    KeyRotationPayloadFor (zeros 16) [] [] 20 40 = Some payload ∧
    VerifyDilithium (mldsa_public (key32 1)) payload (elems (k_SignatureOld k)) = true ∧
    VerifyDilithium (mldsa_public (key32 2)) payload (elems (k_SignatureNew k)) = true ∧
    MarshalKeyRotationEntry k = Some data ∧ UnmarshalKeyRotationEntry data = Ok k.
Proof.
  apply (rotation_entry_roundtrip (zeros 16) (key32 1) [] [] (key32 2) 20 40 5); reflexivity.
Defined.
