(* ===== verification/Config.v ===== *)
(** * Network configuration and state types (pkg/state: config.go, state.go)

    Durations are nanoseconds ([time.Duration] is an int64); floats are IEEE binary64
    values of [SpecFloat]. *)
From Stdlib Require Import SpecFloat.
From S2P Require Import Prelude Chain.

Record Config := MkConfig {
  Eta : float64;
  DecayRate : float64;
  MinLambda1 : float64;
  LambdaInterval : Z;
  SMTDepth : nat;
  CycleTimeout : Z;
  MaxCycleDuration : Z;
  BaseInterval : Z;
  SafetyFactor : float64;
  SkipEmptyCycles : bool;
  MaxPendingTTL : Z;
  BatchVerifyWorkers : Z;
  KeyRotationLeadTime : Z;
  MinKeyOverlap : Z;
  MinValidators : Z;
  GraceCycles : Z;
}.

Definition second : Z := 1000000000.

Definition DefaultConfig : Config :=
  {| Eta := S754_finite false 5044031582654956 (-54);
     DecayRate := S754_finite false 7205759403792794 (-57);
     MinLambda1 := S754_finite false 7205759403792794 (-56);
     LambdaInterval := 10;
     SMTDepth := 256;
     CycleTimeout := 10 * second;
     MaxCycleDuration := 10 * second;
     BaseInterval := 3 * second;
     SafetyFactor := S754_finite false 6755399441055744 (-52);
     SkipEmptyCycles := true;
     MaxPendingTTL := 100;
     BatchVerifyWorkers := 0;
     KeyRotationLeadTime := 10;
     MinKeyOverlap := 10;
     MinValidators := 4;
     GraceCycles := 10 |}.

Record NodeState := MkNodeState {
  ns_UID : bytes;
  ns_Status : float64;
  ns_Consecutive : Z;
  ns_JoinCycle : Z;
  ns_Dilithium3PK : bytes;
  ns_VRFPK : bytes;
}.

Record Edge := MkEdge {
  ed_From : string;
  ed_To : string;
  ed_Weight : float64;
}.

Record NetworkState := MkNetworkState {
  st_Cycle : Z;
  st_Nodes : gmap string NodeState;
  st_Graph : list Edge;
  st_Lambda1 : float64;
  st_SupervisionRoot : bytes;
  st_ActiveMandates : list MandateEntry;
  st_ValidatorSet : list ValidatorInfo;
}.
