(* ===== verification/Rotation.v ===== *)
(** * Key rotation validator (pkg/validation/key_rotation.go)

    The validator's state is its validator set, the current cycle, the configuration and
    the accepted rotations per validator. The mutex serialises the operations, so each is
    one step on the state. [sort.Search] is written out as the binary search it is. *)
From S2P Require Import Prelude Crypto Errors Chain Config.

Record KeyRotationValidator := MkKRV {
  kv_validators : gmap bytes bytes;
  kv_currentCycle : Z;
  kv_cfg : Config;
  kv_rotations : gmap bytes (list KeyRotationEntry);
}.

(** The loop of [sort.Search]: [fuel] bounds the number of halvings. *)
Fixpoint search_loop (fuel : nat) (f : nat → bool) (i j : nat) : nat :=
  match fuel with
  | O => i
  | S fuel' =>
      if (i <? j)%nat then
        let h := ((i + j) / 2)%nat in
        if negb (f h) then search_loop fuel' f (h + 1)%nat j else search_loop fuel' f i h
      else i
  end.

Definition sort_Search (n : nat) (f : nat → bool) : nat := search_loop n f 0 n.

Section validator.
Context `{Primitives, Cbor}.

(** [SetValidatorSet]: a later entry for the same ID overwrites an earlier one. *)
Definition SetValidatorSet (v : KeyRotationValidator) (validators : list ValidatorInfo) :
    KeyRotationValidator :=
  {| kv_validators := foldl (fun m vi => <[v_ValidatorID vi := v_Dilithium3PK vi]> m) ∅ validators;
     kv_currentCycle := kv_currentCycle v; kv_cfg := kv_cfg v; kv_rotations := kv_rotations v |}.

Definition NewKeyRotationValidator (validators : list ValidatorInfo) (currentCycle : Z)
    (cfg : Config) : KeyRotationValidator :=
  SetValidatorSet {| kv_validators := ∅; kv_currentCycle := currentCycle; kv_cfg := cfg;
                     kv_rotations := ∅ |} validators.

Definition SetCycle (v : KeyRotationValidator) (cycle : Z) : KeyRotationValidator :=
  {| kv_validators := kv_validators v; kv_currentCycle := cycle; kv_cfg := kv_cfg v;
     kv_rotations := kv_rotations v |}.

Definition CurrentCycle (v : KeyRotationValidator) : Z := kv_currentCycle v.

Definition findValidatorByID (v : KeyRotationValidator) (id : bytes) : option bytes :=
  kv_validators v !! id.

(** Reading a missing key of a Go map of slices yields nil. *)
Definition rotations_of (v : KeyRotationValidator) (id : bytes) : list KeyRotationEntry :=
  default [] (kv_rotations v !! id).

Definition lastRotationCycle (v : KeyRotationValidator) (id : bytes) : option Z :=
  k_EffectiveCycle <$> last (rotations_of v id).

Definition authorisingCycle (entry : KeyRotationEntry) : Z :=
  if (k_EffectiveCycle entry =? 0)%Z then 0%Z else (k_EffectiveCycle entry - 1)%Z.

(** The loop of [GetActivePublicKey]. *)
Fixpoint active_loop (current : bytes) (rs : list KeyRotationEntry) (cycle : Z) : list bytes :=
  match rs with
  | [] => [current]
  | r :: rest =>
      if (cycle <? k_EffectiveCycle r)%Z then [current]
      else if InOverlap r cycle then [current; k_NewPublicKey r]
      else active_loop (k_NewPublicKey r) rest cycle
  end.

Definition GetActivePublicKey (v : KeyRotationValidator) (validatorID : bytes) (cycle : Z) :
    outcome gerror (list bytes) :=
  match kv_validators v !! validatorID with
  | None => Err ErrUnknownSubmitter
  | Some current => Ok (active_loop current (rotations_of v validatorID) cycle)
  end.

Definition verifyAgainstActiveKeys (v : KeyRotationValidator) (id registered : bytes)
    (cycle : Z) (msg sig : bytes) : bool :=
  let keys := match GetActivePublicKey v id cycle with Ok ks => ks | _ => [registered] end in
  existsb (fun pk => VerifyDilithium pk msg sig) keys.

Definition Validate (v : KeyRotationValidator) (entry : option KeyRotationEntry) :
    outcome gerror unit :=
  match entry with
  | None => Err ErrKeyRotationInvalidEntry
  | Some entry => (
      fail_if (negb (bool_decide (k_Label entry = KeyRotationLabel))) ErrKeyRotationInvalidEntry ;;!
      fail_if (negb (Rotation_VerifyHash entry)) ErrKeyRotationInvalidEntry ;;!
      payloadBytes <-! marshal (PayloadBytes entry) ;;
      match findValidatorByID v (k_Submitter entry) with
      | None => Err ErrUnknownSubmitter
      | Some registered =>
          let currentCycle := kv_currentCycle v in
          let leadTime := KeyRotationLeadTime (kv_cfg v) in
          let minOverlap := MinKeyOverlap (kv_cfg v) in
          fail_if (negb (length (elems (k_SignatureOld entry)) =? KeyRotationSignatureSize)%nat)
            ErrKeyRotationInvalidOldSig ;;!
          fail_if (negb (length (elems (k_SignatureNew entry)) =? KeyRotationSignatureSize)%nat)
            ErrKeyRotationInvalidNewSig ;;!
          fail_if (negb (verifyAgainstActiveKeys v (k_Submitter entry) registered
                           (authorisingCycle entry) payloadBytes (elems (k_SignatureOld entry))))
            ErrKeyRotationInvalidOldSig ;;!
          fail_if (negb (VerifyDilithium (k_NewPublicKey entry) payloadBytes
                           (elems (k_SignatureNew entry))))
            ErrKeyRotationInvalidNewSig ;;!
          fail_if (k_EffectiveCycle entry <? u64 (currentCycle + leadTime))%Z
            ErrKeyRotationLeadTime ;;!
          fail_if (k_ExpiryCycle entry <? u64 (k_EffectiveCycle entry + minOverlap))%Z
            ErrKeyRotationOverlap ;;!
          match lastRotationCycle v (k_Submitter entry) with
          | Some lastCycle =>
              fail_if (k_EffectiveCycle entry <=? lastCycle)%Z ErrKeyRotationDuplicate
          | None => Ok tt
          end
      end)%go
  end.

(** [sort.Slice] over the IDs: insertion sort by [bytes.Compare]. *)
Definition ValidatorIDs (v : KeyRotationValidator) : list bytes :=
  sort_by id (map_to_list (kv_validators v)).*1.

Definition set_rotations (v : KeyRotationValidator) (rs : gmap bytes (list KeyRotationEntry)) :
    KeyRotationValidator :=
  {| kv_validators := kv_validators v; kv_currentCycle := kv_currentCycle v;
     kv_cfg := kv_cfg v; kv_rotations := rs |}.

(** The effective cycle at an index, as the search predicate reads it. *)
Definition effective_at (entries : list KeyRotationEntry) (i : nat) : Z :=
  match entries !! i with Some r => k_EffectiveCycle r | None => 0%Z end.

(** [append(entries, nil); copy(entries[idx+1:], entries[idx:]); entries[idx] = entry]. *)
Definition insert_at (entries : list KeyRotationEntry) (idx : nat) (entry : KeyRotationEntry) :
    list KeyRotationEntry :=
  take idx entries ++ entry :: drop idx entries.

Definition RecordRotation (v : KeyRotationValidator) (entry : option KeyRotationEntry) :
    outcome gerror KeyRotationValidator :=
  match entry with
  | None => Err ErrKeyRotationInvalidEntry
  | Some entry =>
      let id := k_Submitter entry in
      let stale := match lastRotationCycle v id with
                   | Some last => (k_EffectiveCycle entry <=? last)%Z
                   | None => false
                   end in
      if stale then Err ErrKeyRotationDuplicate
      else
        let entries := rotations_of v id in
        let idx := sort_Search (length entries)
                     (fun i => (k_EffectiveCycle entry <=? effective_at entries i)%Z) in
        if (idx <? length entries)%nat && (effective_at entries idx =? k_EffectiveCycle entry)%Z
        then Err ErrKeyRotationDuplicate
        else Ok (set_rotations v (<[id := insert_at entries idx entry]> (kv_rotations v)))
  end.

Definition ValidateAndRecord (v : KeyRotationValidator) (entry : option KeyRotationEntry) :
    outcome gerror KeyRotationValidator :=
  (Validate v entry ;;! RecordRotation v entry)%go.

Definition Rotations (v : KeyRotationValidator) (validatorID : bytes) : list KeyRotationEntry :=
  rotations_of v validatorID.
End validator.
