(* ===== verification/RotationTheorems.v ===== *)
(** * Properties of the key rotation validator *)
From S2P Require Import Prelude Crypto Toy Errors Chain ToyCbor ChainTheorems Config Rotation.

(** ** Binary search *)

Lemma search_loop_spec f n fuel i j :
  (∀ a b, a ≤ b → b < n → f a = true → f b = true) →
  i ≤ j → j ≤ n → j - i ≤ fuel →
  (∀ k, k < i → f k = false) → (∀ k, j ≤ k → k < n → f k = true) →
  let r := search_loop fuel f i j in
  r ≤ n ∧ (∀ k, k < r → f k = false) ∧ (∀ k, r ≤ k → k < n → f k = true).
Proof.
  intros Hmono. revert i j. induction fuel as [|fuel IH]; intros i j Hij Hjn Hfuel Hlo Hhi; cbn [search_loop].
  { assert (i = j) as -> by lia. split_and!; auto; lia. }
  destruct (i <? j) eqn:E; [apply Nat.ltb_lt in E|apply Nat.ltb_ge in E].
  2: { assert (i = j) as -> by lia. split_and!; auto; lia. }
  assert (Hh : i ≤ (i + j) / 2 < j).
  { split; [apply Nat.div_le_lower_bound|apply Nat.div_lt_upper_bound]; lia. }
  set (h := (i + j) / 2) in *. destruct (f h) eqn:Ef; cbn [negb].
  - apply IH; auto; try lia. intros k Hk1 Hk2. by apply (Hmono h).
  - apply IH; auto; try lia. intros k Hk. destruct (f k) eqn:Ek; [|done].
    rewrite <- Ef. symmetry. apply (Hmono k); [lia..|done].
Qed.

(** [sort.Search] finds the least index at which a monotone predicate holds. *)
Lemma sort_Search_spec n f :
  (∀ a b, a ≤ b → b < n → f a = true → f b = true) →
  sort_Search n f ≤ n ∧ (∀ k, k < sort_Search n f → f k = false) ∧
  (∀ k, sort_Search n f ≤ k → k < n → f k = true).
Proof. intros Hmono. apply search_loop_spec; auto; lia. Qed.

Lemma sort_Search_none n f : (∀ k, k < n → f k = false) → sort_Search n f = n.
Proof.
  intros Hf. destruct (sort_Search_spec n f) as (Hle & _ & Hhi).
  { intros a b Hab Hb Ha. rewrite Hf in Ha; [done|lia]. }
  destruct (decide (sort_Search n f = n)); [done|].
  specialize (Hhi (sort_Search n f) ltac:(lia) ltac:(lia)). rewrite Hf in Hhi; [done|lia].
Qed.

(** ** The history invariant *)

Definition cycles_sorted (rs : list KeyRotationEntry) : Prop :=
  StronglySorted Z.lt (k_EffectiveCycle <$> rs).

(** Every validator's rotations are strictly ascending by effective cycle. *)
Definition rotations_sorted (v : KeyRotationValidator) : Prop :=
  map_Forall (fun _ rs => cycles_sorted rs) (kv_rotations v).

Lemma rotations_of_sorted v id : rotations_sorted v → cycles_sorted (rotations_of v id).
Proof.
  intros Hv. unfold rotations_of. destruct (kv_rotations v !! id) eqn:E; [by apply Hv in E|constructor].
Qed.

(** The last rotation is the most recent one. *)
Lemma last_is_max v id :
  rotations_sorted v →
  match lastRotationCycle v id with
  | Some c => Forall (fun r => (k_EffectiveCycle r <= c)%Z) (rotations_of v id)
  | None => rotations_of v id = []
  end.
Proof.
  intros Hv%(rotations_of_sorted v id). unfold lastRotationCycle.
  destruct (rotations_of v id) as [|r rs _] using rev_ind; [done|].
  rewrite last_snoc. simpl. unfold cycles_sorted in Hv. rewrite fmap_app in Hv. simpl in Hv.
  apply StronglySorted_snoc in Hv as [_ Hv]. apply Forall_app. split; [|by repeat constructor].
  rewrite Forall_fmap in Hv. eapply Forall_impl; [exact Hv|]. intros r'. unfold compose. simpl. lia.
Qed.

Definition is_stale (v : KeyRotationValidator) (e : KeyRotationEntry) : bool :=
  match lastRotationCycle v (k_Submitter e) with
  | Some last => (k_EffectiveCycle e <=? last)%Z
  | None => false
  end.

Lemma not_stale_newer v e :
  rotations_sorted v → is_stale v e = false →
  Forall (fun r => (k_EffectiveCycle r < k_EffectiveCycle e)%Z) (rotations_of v (k_Submitter e)).
Proof.
  intros Hv Hst. pose proof (last_is_max v (k_Submitter e) Hv) as Hmax. unfold is_stale in Hst.
  destruct (lastRotationCycle v (k_Submitter e)) as [c|]; [|by rewrite Hmax].
  eapply Forall_impl; [exact Hmax|]. intros r Hr. simpl in Hr. lia.
Qed.

Lemma RecordRotation_eq v e :
  rotations_sorted v →
  RecordRotation v (Some e) =
    if is_stale v e then Err ErrKeyRotationDuplicate
    else Ok (set_rotations v (<[k_Submitter e := rotations_of v (k_Submitter e) ++ [e]]> (kv_rotations v))).
Proof.
  intros Hv. unfold RecordRotation. fold (is_stale v e). destruct (is_stale v e) eqn:Est; [done|].
  pose proof (not_stale_newer v e Hv Est) as Hnew. rewrite Forall_lookup in Hnew.
  rewrite sort_Search_none.
  - rewrite Nat.ltb_irrefl. simpl. unfold insert_at.
    by rewrite firstn_all, drop_all.
  - intros k Hk. unfold effective_at. apply lookup_lt_is_Some in Hk as [r Hr]. rewrite Hr.
    apply Hnew in Hr. lia.
Qed.

Lemma record_keeps_sorted v v' e :
  rotations_sorted v → RecordRotation v (Some e) = Ok v' → rotations_sorted v'.
Proof.
  intros Hv. rewrite RecordRotation_eq by done. destruct (is_stale v e) eqn:Est; [done|].
  intros [= <-]. unfold rotations_sorted. simpl. apply map_Forall_insert_2; [|done].
  unfold cycles_sorted. rewrite fmap_app. simpl. apply StronglySorted_snoc.
  split; [by apply rotations_of_sorted|]. apply Forall_fmap. by apply not_stale_newer.
Qed.

(** ** Active keys *)

(** The key in force once a list of rotations has closed. *)
Definition base_key (registered : bytes) (closed : list KeyRotationEntry) : bytes :=
  default registered (k_NewPublicKey <$> last closed).

Lemma active_loop_spec rs cycle : ∀ current,
  ∃ closed rest, rs = closed ++ rest ∧
    Forall (fun r => (k_EffectiveCycle r <= cycle)%Z ∧ InOverlap r cycle = false) closed ∧
    active_loop current rs cycle =
      base_key current closed ::
        match rest with
        | r :: _ => if InOverlap r cycle then [k_NewPublicKey r] else []
        | [] => []
        end ∧
    match rest with
    | r :: _ => InOverlap r cycle = true ∨ (cycle < k_EffectiveCycle r)%Z
    | [] => True
    end.
Proof.
  induction rs as [|r rs IH]; intros current.
  { exists [], []. by split_and!. }
  simpl. destruct (cycle <? k_EffectiveCycle r)%Z eqn:E1.
  { apply Z.ltb_lt in E1. exists [], (r :: rs). split_and!; auto.
    replace (InOverlap r cycle) with false; [done|]. unfold InOverlap. lia. }
  apply Z.ltb_ge in E1. destruct (InOverlap r cycle) eqn:E2.
  { exists [], (r :: rs). rewrite E2. split_and!; [done..|by left]. }
  destruct (IH (k_NewPublicKey r)) as (closed & rest & -> & Hc & Heq & Hr).
  exists (r :: closed), rest. split_and!; auto. rewrite Heq. f_equal.
  unfold base_key. rewrite last_cons. by destruct (last closed).
Qed.

Section theorems.
Context `{Primitives, Cbor}.

(** Recording a rotation on a sorted history fails exactly when a rotation of the same
    validator with the same or a later effective cycle is already there, and otherwise
    appends it; the other validators' histories and the order invariant are kept. *)
Theorem record_rotation_appends v e :
  rotations_sorted v →
  match RecordRotation v (Some e) with
  | Ok v' => rotations_sorted v' ∧ Rotations v' (k_Submitter e) = Rotations v (k_Submitter e) ++ [e] ∧
             (∀ id, id ≠ k_Submitter e → Rotations v' id = Rotations v id) ∧
             Forall (fun r => (k_EffectiveCycle r < k_EffectiveCycle e)%Z) (Rotations v (k_Submitter e))
  | Err err => err = ErrKeyRotationDuplicate ∧
               Exists (fun r => (k_EffectiveCycle e <= k_EffectiveCycle r)%Z) (Rotations v (k_Submitter e))
  | Panic => False
  end.
Proof.
  intros Hv. pose proof (record_keeps_sorted v) as Hkeep. specialize (Hkeep).
  destruct (RecordRotation v (Some e)) as [v'|err|] eqn:E;
    rewrite RecordRotation_eq in E by done; destruct (is_stale v e) eqn:Est; try discriminate E.
  - pose proof (not_stale_newer v e Hv Est) as Hnew. injection E as <-. split_and!; [| | |done].
    + apply (Hkeep _ e Hv). by rewrite RecordRotation_eq, Est.
    + unfold Rotations, rotations_of. simpl. by rewrite lookup_insert_eq.
    + intros id Hid. unfold Rotations, rotations_of. simpl. by rewrite lookup_insert_ne.
  - injection E as <-. split; [done|]. unfold is_stale, lastRotationCycle in Est. unfold Rotations.
    destruct (rotations_of v (k_Submitter e)) as [|r rs _] using rev_ind; [done|].
    rewrite last_snoc in Est. simpl in Est. apply Exists_app. right. constructor. lia.
Qed.

(** The keys authoritative in a cycle: the new key of the last rotation whose overlap
    has closed (or the registered key), together with the new key of the next rotation
    when its overlap window contains the cycle. *)
Theorem active_keys_spec v id registered cycle :
  kv_validators v !! id = Some registered →
  ∃ closed rest, Rotations v id = closed ++ rest ∧
    Forall (fun r => (k_ExpiryCycle r < cycle)%Z) closed ∧
    match rest with
    | r :: _ => if InOverlap r cycle
                then GetActivePublicKey v id cycle = Ok [base_key registered closed; k_NewPublicKey r]
                else (cycle < k_EffectiveCycle r)%Z ∧
                     GetActivePublicKey v id cycle = Ok [base_key registered closed]
    | [] => GetActivePublicKey v id cycle = Ok [base_key registered closed]
    end.
Proof.
  intros Hid. unfold Rotations, GetActivePublicKey. rewrite Hid.
  destruct (active_loop_spec (rotations_of v id) cycle registered) as (closed & rest & Heq & Hc & Ha & Hr).
  exists closed, rest. rewrite Ha. split_and!; [done| |].
  - eapply Forall_impl; [exact Hc|]. unfold InOverlap. intros r [H1' H2']. lia.
  - destruct rest as [|r rest]; [done|]. destruct (InOverlap r cycle); [done|].
    by destruct Hr as [Hr|Hr].
Qed.

(** The rules of a rotation. The sums of cycles are those of the code, modulo 2^64. *)
Record rotation_rules (v : KeyRotationValidator) (e : KeyRotationEntry) : Prop := {
  rr_label : k_Label e = KeyRotationLabel;
  rr_hash : Rotation_VerifyHash e = true;
  rr_lengths : length (elems (k_SignatureOld e)) = KeyRotationSignatureSize ∧
    length (elems (k_SignatureNew e)) = KeyRotationSignatureSize;
  rr_signed : ∃ payload keys pk, PayloadBytes e = Some payload ∧
    GetActivePublicKey v (k_Submitter e) (authorisingCycle e) = Ok keys ∧ pk ∈ keys ∧
    VerifyDilithium pk payload (elems (k_SignatureOld e)) = true ∧
    VerifyDilithium (k_NewPublicKey e) payload (elems (k_SignatureNew e)) = true;
  rr_lead : ((kv_currentCycle v + KeyRotationLeadTime (kv_cfg v)) mod 2 ^ 64 <= k_EffectiveCycle e)%Z;
  rr_overlap : ((k_EffectiveCycle e + MinKeyOverlap (kv_cfg v)) mod 2 ^ 64 <= k_ExpiryCycle e)%Z;
  rr_newer : Forall (fun r => (k_EffectiveCycle r < k_EffectiveCycle e)%Z) (Rotations v (k_Submitter e));
}.

Lemma newer_not_stale v e :
  Forall (fun r => (k_EffectiveCycle r < k_EffectiveCycle e)%Z) (Rotations v (k_Submitter e)) → is_stale v e = false.
Proof.
  unfold is_stale, lastRotationCycle, Rotations.
  destruct (rotations_of v (k_Submitter e)) as [|r rs _] using rev_ind; [done|].
  rewrite last_snoc. cbn. intros [_ [Hr _]%Forall_cons]%Forall_app. lia.
Qed.

Lemma Validate_rules v e : rotations_sorted v → Validate v (Some e) = Ok tt → rotation_rules v e.
Proof.
  intros Hs. unfold Validate. intros Hv.
  apply fail_if_pass in Hv as [Hlab Hv]. apply fail_if_pass in Hv as [Hhash Hv].
  apply bind_Ok in Hv as (payload & Hp & Hv). apply marshal_Ok in Hp.
  destruct (findValidatorByID v (k_Submitter e)) as [reg|] eqn:Hreg; [|done].
  apply fail_if_pass in Hv as [Hlo Hv]. apply fail_if_pass in Hv as [Hln Hv].
  apply fail_if_pass in Hv as [Hold Hv]. apply fail_if_pass in Hv as [Hnew Hv].
  apply fail_if_pass in Hv as [Hlead Hv]. apply fail_if_pass in Hv as [Hov Hv].
  apply negb_false_iff in Hlab, Hhash, Hlo, Hln, Hold, Hnew. apply bool_decide_eq_true in Hlab.
  apply Nat.eqb_eq in Hlo, Hln.
  unfold verifyAgainstActiveKeys in Hold. apply existsb_exists in Hold as (pk & Hpk & Hsig).
  unfold findValidatorByID in Hreg. unfold u64 in Hlead, Hov.
  constructor; auto; try lia.
  - exists payload. unfold GetActivePublicKey in *. rewrite Hreg in *.
    eexists _, pk. apply list_elem_of_In in Hpk. split_and!; eauto.
  - apply not_stale_newer; [done|]. unfold is_stale. destruct (lastRotationCycle v (k_Submitter e)); [|done].
    by apply fail_if_Ok in Hv.
Qed.

Lemma Validate_by_rules v e : rotation_rules v e → Validate v (Some e) = Ok tt.
Proof.
  intros [Hlab Hhash [Hlo Hln] (payload & keys & pk & Hp & Hkeys & Hin & Hold & Hnew) Hlead Hov Hnewer].
  apply newer_not_stale in Hnewer as Hst. unfold Validate.
  rewrite Hlab, bool_decide_eq_true_2, Hhash, Hp by done. simpl.
  pose proof Hkeys as Hkeys'. unfold GetActivePublicKey, findValidatorByID in *.
  destruct (kv_validators v !! k_Submitter e) as [reg|] eqn:Hreg; [|done].
  rewrite Hlo, Hln, Nat.eqb_refl. simpl. unfold verifyAgainstActiveKeys, GetActivePublicKey.
  rewrite Hreg, (proj2 (existsb_exists _ _)); [|exists pk].
  - simpl. rewrite Hnew. simpl. unfold fail_if at 1, u64. rewrite (proj2 (Z.ltb_ge _ _) Hlead). simpl.
    unfold fail_if at 1. rewrite (proj2 (Z.ltb_ge _ _) Hov). simpl.
    unfold is_stale in Hst. destruct (lastRotationCycle v (k_Submitter e)); [|done].
    by rewrite Hst.
  - injection Hkeys as ->. by rewrite <- list_elem_of_In.
Qed.

(** C19: [Validate] accepts exactly the rotations that meet the rules: label, hash and
    signature lengths are right, one payload is signed by a key authoritative just before
    the rotation takes effect and by the incoming key, the effective cycle is not before
    the current one plus the lead time, the expiry is not before the effective cycle plus
    the overlap, and every earlier rotation of the validator is older. The two sums are
    taken modulo 2^64, as in the code: only when they do not wrap around are lead time and
    overlap respected (see [overlap_wraps_and_locks] for a rotation that is accepted and
    expires before it takes effect). *)
Theorem validate_sound v e : rotations_sorted v →
  (Validate v (Some e) = Ok tt ↔ rotation_rules v e) ∧
  (Validate v (Some e) = Ok tt →
     ((0 <= kv_currentCycle v + KeyRotationLeadTime (kv_cfg v) < 2 ^ 64)%Z →
        (kv_currentCycle v + KeyRotationLeadTime (kv_cfg v) <= k_EffectiveCycle e)%Z) ∧
     ((0 <= k_EffectiveCycle e + MinKeyOverlap (kv_cfg v) < 2 ^ 64)%Z →
        (k_EffectiveCycle e + MinKeyOverlap (kv_cfg v) <= k_ExpiryCycle e)%Z)).
Proof.
  intros Hs. split; [split; [by apply Validate_rules|apply Validate_by_rules]|].
  intros Hv%Validate_rules; [|done]. destruct Hv as [_ _ _ _ Hlead Hov _].
  split; intros Hw; by rewrite Z.mod_small in * by done.
Qed.

(** While the overlap of one rotation is open, a later rotation of the same validator
    that is already effective is not consulted: its key is not among the authoritative
    ones, although its own overlap window contains the cycle. *)
Theorem open_overlap_hides_later v id registered r1 r2 rest cycle :
  kv_validators v !! id = Some registered → Rotations v id = r1 :: r2 :: rest →
  InOverlap r1 cycle = true → InOverlap r2 cycle = true →
  k_NewPublicKey r2 ≠ registered → k_NewPublicKey r2 ≠ k_NewPublicKey r1 →
  ∃ keys, GetActivePublicKey v id cycle = Ok keys ∧ k_NewPublicKey r2 ∉ keys.
Proof.
  unfold Rotations, GetActivePublicKey. intros Hid Hrs H1' H2' Hn1 Hn2.
  rewrite Hid, Hrs. simpl. rewrite H1'.
  replace (cycle <? k_EffectiveCycle r1)%Z with false by (unfold InOverlap in H1'; lia).
  eexists. split; [reflexivity|]. set_solver.
Qed.

Context `{!MldsaCorrect, !CborLaws}.

Lemma Validate_signed v e payload skOld keys :
  rotation_signed e payload skOld →
  GetActivePublicKey v (k_Submitter e) (authorisingCycle e) = Ok keys →
  mldsa_public skOld ∈ keys →
  VerifyDilithium (k_NewPublicKey e) payload (elems (k_SignatureNew e)) = true →
  (u64 (kv_currentCycle v + KeyRotationLeadTime (kv_cfg v)) <= k_EffectiveCycle e)%Z →
  (u64 (k_EffectiveCycle e + MinKeyOverlap (kv_cfg v)) <= k_ExpiryCycle e)%Z →
  Forall (fun r => (k_EffectiveCycle r < k_EffectiveCycle e)%Z) (Rotations v (k_Submitter e)) →
  Validate v (Some e) = Ok tt.
Proof.
  intros [Hlab Hp Hh Hlo Hln Hold] Hkeys Hin Hnew Hlead Hov Hst.
  apply Validate_by_rules. constructor; [done..| |done|done|done]. by exists payload, keys, (mldsa_public skOld).
Qed.

(** C18: Completeness of the rotation path. A rotation made with a key authoritative just
    before its effective cycle, respecting lead time, overlap and order, passes [Validate]
    and is appended to the validator's history. *)
Theorem rotation_accepted_and_recorded v sub skOld vrf skNew eff exp ts keys :
  rotations_sorted v →
  length skOld = KeyRotationSecretKeySize → length skNew = KeyRotationSecretKeySize →
  GetActivePublicKey v sub (if eff =? 0 then 0 else eff - 1)%Z = Ok keys →
  mldsa_public skOld ∈ keys →
  (u64 (kv_currentCycle v + KeyRotationLeadTime (kv_cfg v)) <= eff)%Z →
  (u64 (eff + MinKeyOverlap (kv_cfg v)) <= exp)%Z →
  Forall (fun r => (k_EffectiveCycle r < eff)%Z) (Rotations v sub) →
  ∃ e v', NewKeyRotationEntry sub skOld (mldsa_public skNew) vrf skNew eff exp ts = Ok e ∧
          ValidateAndRecord v (Some e) = Ok v' ∧
          Rotations v' sub = Rotations v sub ++ [e] ∧ rotations_sorted v'.
Proof.
  intros Hs Ho Hn Hkeys Hin Hlead Hov Hnewer.
  destruct (NewKeyRotationEntry_spec sub skOld (mldsa_public skNew) vrf skNew eff exp ts Ho Hn)
    as (e & payload & He & Hsig & Hpl & Hnew).
  injection Hpl as Hsub Hpk Hvrf Heff Hexp.
  assert (Hst : is_stale v e = false) by (apply newer_not_stale; by rewrite Hsub, Heff).
  assert (HV : Validate v (Some e) = Ok tt).
  { apply (Validate_signed v e payload skOld keys); rewrite ?Heff, ?Hexp, ?Hpk; auto.
    - unfold authorisingCycle. by rewrite Heff, Hsub.
    - by rewrite Hsub. }
  exists e. unfold ValidateAndRecord. rewrite HV. simpl. pose proof (RecordRotation_eq v e Hs) as Hrec. rewrite Hst in Hrec.
  eexists. split_and!; [done|exact Hrec| |by eapply record_keeps_sorted].
  unfold Rotations, rotations_of. simpl. rewrite Hsub. by rewrite lookup_insert_eq.
Qed.

(** The overlap check wraps around. A validator may announce a rotation effective at
    the last cycle 2^64-1 with an expiry below it; it is accepted, and from then on every
    further rotation of that validator is refused. *)
Theorem overlap_wraps_and_locks v sub reg skOld vrf skNew ts :
  rotations_sorted v → kv_validators v !! sub = Some reg → Rotations v sub = [] →
  reg = mldsa_public skOld →
  length skOld = KeyRotationSecretKeySize → length skNew = KeyRotationSecretKeySize →
  (0 < MinKeyOverlap (kv_cfg v) < 2 ^ 64)%Z →
  ∃ e v', k_Submitter e = sub ∧ (k_ExpiryCycle e < k_EffectiveCycle e)%Z ∧
    NewKeyRotationEntry sub skOld (mldsa_public skNew) vrf skNew (2 ^ 64 - 1)
      (MinKeyOverlap (kv_cfg v) - 1) ts = Ok e ∧
    ValidateAndRecord v (Some e) = Ok v' ∧
    ∀ e2, k_Submitter e2 = sub → u64_ok (k_EffectiveCycle e2) →
          RecordRotation v' (Some e2) = Err ErrKeyRotationDuplicate.
Proof.
  intros Hs Hid Hrs -> Ho Hn Hm. pose (exp := (MinKeyOverlap (kv_cfg v) - 1)%Z).
  destruct (NewKeyRotationEntry_spec sub skOld (mldsa_public skNew) vrf skNew (2 ^ 64 - 1) exp ts Ho Hn)
    as (e & payload & He & Hsig & Hpl & Hnew).
  injection Hpl as Hsub Hpk Hvrf Heff Hexp.
  assert (Hst : is_stale v e = false).
  { unfold is_stale, lastRotationCycle. unfold Rotations in Hrs. by rewrite Hsub, Hrs. }
  assert (Hwrap : u64 (2 ^ 64 - 1 + MinKeyOverlap (kv_cfg v)) = exp).
  { unfold u64, exp. symmetry. apply (Z.mod_unique_pos _ _ 1); lia. }
  assert (HV : Validate v (Some e) = Ok tt).
  { apply (Validate_signed v e payload skOld [mldsa_public skOld]); rewrite ?Heff, ?Hexp, ?Hpk; auto.
    - unfold GetActivePublicKey. unfold Rotations in Hrs. by rewrite Hsub, Hid, Hrs.
    - by left.
    - pose proof (u64_range (kv_currentCycle v + KeyRotationLeadTime (kv_cfg v))) as Hr.
      unfold u64_ok in Hr. lia.
    - rewrite Hwrap. lia.
    - by rewrite Hsub, Hrs. }
  pose proof (RecordRotation_eq v e Hs) as Hrec. rewrite Hst in Hrec.
  exists e. eexists. split_and!; [done|rewrite Heff, Hexp; unfold exp; lia|done| |].
  - unfold ValidateAndRecord. rewrite HV. simpl. exact Hrec.
  - intros e2 Hsub2 Hr2. rewrite RecordRotation_eq by (by eapply record_keeps_sorted).
    replace (is_stale _ e2) with true; [done|].
    unfold is_stale, lastRotationCycle, rotations_of. simpl. rewrite Hsub2, <- Hsub, lookup_insert_eq.
    simpl. rewrite last_snoc. simpl. unfold u64_ok in Hr2. lia.
Qed.
End theorems.

(** ** Instances *)

Definition demo_id : bytes := 9%Z :: zeros 15.

Definition demo_validator : ValidatorInfo :=
  {| v_ValidatorID := demo_id; v_Dilithium3PK := toy_public (key32 1); v_VRFPK := zeros 32;
     v_ContractHash := zeros 32 |}.

Definition demo_krv : KeyRotationValidator := NewKeyRotationValidator [demo_validator] 5 DefaultConfig.

Definition demo_rotation (eff exp : Z) (pk : bytes) : KeyRotationEntry :=
  newRotationEntryShell demo_id pk (zeros 32) eff exp 0.

Definition demo_krv2 : KeyRotationValidator :=
  set_rotations demo_krv
    {[ demo_id := [demo_rotation 20 40 (toy_public (key32 2)); demo_rotation 30 50 (toy_public (key32 3))] ]}.

Lemma demo_krv_sorted : rotations_sorted demo_krv.
Proof. apply map_Forall_empty. Qed.

Lemma demo_krv2_sorted : rotations_sorted demo_krv2.
Proof. apply map_Forall_singleton. repeat constructor. Qed.

Lemma record_rotation_appends_witness :
  RecordRotation demo_krv2 (Some (demo_rotation 25 90 [])) = Err ErrKeyRotationDuplicate ∧
  Exists (fun r => (25 <= k_EffectiveCycle r)%Z) (Rotations demo_krv2 demo_id).
Proof.
  pose proof (record_rotation_appends demo_krv2 (demo_rotation 25 90 []) demo_krv2_sorted) as Hr.
  assert (E : RecordRotation demo_krv2 (Some (demo_rotation 25 90 [])) = Err ErrKeyRotationDuplicate)
    by (vm_compute; reflexivity).
  split; [exact E|]. rewrite E in Hr. exact (proj2 Hr).
Defined.

Lemma active_keys_spec_witness :
  ∃ closed rest, Rotations demo_krv2 demo_id = closed ++ rest ∧
    Forall (fun r => (k_ExpiryCycle r < 45)%Z) closed ∧
    match rest with
    | r :: _ => if InOverlap r 45
                then GetActivePublicKey demo_krv2 demo_id 45 =
                       Ok [base_key (toy_public (key32 1)) closed; k_NewPublicKey r]
                else (45 < k_EffectiveCycle r)%Z ∧
                     GetActivePublicKey demo_krv2 demo_id 45 = Ok [base_key (toy_public (key32 1)) closed]
    | [] => GetActivePublicKey demo_krv2 demo_id 45 = Ok [base_key (toy_public (key32 1)) closed]
    end.
Proof.
  apply (active_keys_spec demo_krv2 demo_id (toy_public (key32 1)) 45). vm_compute. reflexivity.
Defined.

Definition demo_entry : KeyRotationEntry :=
  match NewKeyRotationEntry demo_id (key32 1) (toy_public (key32 2)) (zeros 32) (key32 2) 20 40 0 with
  | Ok e => e
  | _ => demo_rotation 0 0 []
  end.

Lemma validate_sound_witness :
  Validate demo_krv (Some demo_entry) = Ok tt ∧ (5 + 10 <= k_EffectiveCycle demo_entry)%Z.
Proof.
  assert (HV : Validate demo_krv (Some demo_entry) = Ok tt) by (vm_compute; reflexivity).
  split; [exact HV|].
  apply (validate_sound demo_krv demo_entry demo_krv_sorted); [exact HV|]. vm_compute. by split.
Defined.

Lemma open_overlap_hides_later_witness :
  ∃ keys, GetActivePublicKey demo_krv2 demo_id 35 = Ok keys ∧ toy_public (key32 3) ∉ keys.
Proof.
  apply (open_overlap_hides_later demo_krv2 demo_id (toy_public (key32 1))
           (demo_rotation 20 40 (toy_public (key32 2))) (demo_rotation 30 50 (toy_public (key32 3))) [] 35);
    vm_compute; (reflexivity || discriminate).
Defined.

Lemma rotation_accepted_and_recorded_witness :
  ∃ e v', NewKeyRotationEntry demo_id (key32 1) (mldsa_public (key32 2)) (zeros 32) (key32 2) 20 40 0 = Ok e ∧
          ValidateAndRecord demo_krv (Some e) = Ok v' ∧
          Rotations v' demo_id = Rotations demo_krv demo_id ++ [e] ∧ rotations_sorted v'.
Proof.
  apply (rotation_accepted_and_recorded demo_krv demo_id (key32 1) (zeros 32) (key32 2) 20 40 0
           [toy_public (key32 1)]).
  - exact demo_krv_sorted.
  - reflexivity.
  - reflexivity.
  - vm_compute. reflexivity.
  - by left.
  - vm_compute. discriminate.
  - vm_compute. discriminate.
  - constructor.
Defined.

Lemma overlap_wraps_and_locks_witness :
  ∃ e v', k_Submitter e = demo_id ∧ (k_ExpiryCycle e < k_EffectiveCycle e)%Z ∧
    NewKeyRotationEntry demo_id (key32 1) (mldsa_public (key32 2)) (zeros 32) (key32 2) (2 ^ 64 - 1)
      (MinKeyOverlap (kv_cfg demo_krv) - 1) 0 = Ok e ∧
    ValidateAndRecord demo_krv (Some e) = Ok v' ∧
    ∀ e2, k_Submitter e2 = demo_id → u64_ok (k_EffectiveCycle e2) →
          RecordRotation v' (Some e2) = Err ErrKeyRotationDuplicate.
Proof.
  apply (overlap_wraps_and_locks demo_krv demo_id (toy_public (key32 1)) (key32 1) (zeros 32) (key32 2) 0).
  - exact demo_krv_sorted.
  - vm_compute. reflexivity.
  - vm_compute. reflexivity.
  - reflexivity.
  - reflexivity.
  - reflexivity.
  - vm_compute. split; reflexivity.
Defined.
