(* ===== verification/Mandates.v ===== *)
(** * Mandate resolution, validation and compliance (pkg/validation: mandate_resolver.go,
    mandate_validator.go, mandate_authority.go, compliance_checker.go)

    The resolver's map is a [gmap] from mandate ID to body. A report's explanatory text is
    kept as the values it is formatted from. *)
From Stdlib Require Import SpecFloat.
From S2P Require Import Prelude Crypto Errors Chain Config.

Record MandateResolver := MkResolver {
  mr_mandates : gmap bytes MandateEntry;
}.

(** [bytesLess]: the loop over [a], then the comparison of lengths. *)
Fixpoint bytesLess (a b : bytes) : bool :=
  match a, b with
  | [], _ => (0 <? length b)%nat
  | _ :: _, [] => false
  | x :: a', y :: b' => if negb (x =? y)%Z then (x <? y)%Z else bytesLess a' b'
  end.

Lemma bytesLess_ltb a b : bytesLess a b = bytes_ltb a b.
Proof.
  revert b. induction a as [|x a IH]; intros [|y b]; simpl; try done.
  case_decide as E; [subst; by rewrite Z.eqb_refl, IH|].
  apply Z.eqb_neq in E. by rewrite E.
Qed.

Section resolver.
Context `{Primitives, Cbor}.

(** [Put]: the identifier is recomputed. *)
Definition Put (r : MandateResolver) (mandate : option MandateEntry) : outcome gerror MandateResolver :=
  match mandate with
  | None => Err ErrMandateNotFound
  | Some m =>
      let clone := set_mandate_sig m (MandateID m) (m_Signature m) in
      Ok {| mr_mandates := <[m_ID clone := clone]> (mr_mandates r) |}
  end.

(** [NewMandateResolver]: the error of [Put] is ignored. *)
Definition NewMandateResolver (mandates : list MandateEntry) : MandateResolver :=
  foldl (fun r m => match Put r (Some m) with Ok r' => r' | _ => r end)
    {| mr_mandates := ∅ |} mandates.

Definition GetMandateByID (r : MandateResolver) (id : bytes) : option MandateEntry :=
  mr_mandates r !! id.

(** [All]: ordered by ID. *)
Definition All (r : MandateResolver) : list MandateEntry :=
  sort_by m_ID (map_to_list (mr_mandates r)).*2.

(** The first loop of [GetActiveMandates]. *)
Definition superseded_ids (all : list MandateEntry) : gset bytes :=
  foldl (fun s m => if decide (m_Supersedes m = zeros 32) then s else {[ m_Supersedes m ]} ∪ s) ∅ all.

Definition GetActiveMandates (r : MandateResolver) (timestamp : Z) : list MandateEntry :=
  let all := All r in
  let superseded := superseded_ids all in
  filter (fun m => m_ID m ∉ superseded ∧ IsActiveAt m timestamp = true) all.

Definition GetMandateByReference (r : MandateResolver) (ref : option bytes) : option MandateEntry :=
  match ref with
  | None => None
  | Some id => GetMandateByID r id
  end.

Definition GetLatestVersion (r : MandateResolver) (root : bytes) : option MandateEntry :=
  foldl (fun latest m =>
    if decide (m_ID m ≠ root ∧ m_PrevVersion m ≠ root ∧ m_Supersedes m ≠ root) then latest
    else match latest with
         | None => Some m
         | Some l => if (m_Version l <? m_Version m)%Z then Some m else latest
         end) None (All r).

(** ** Authority (mandate_authority.go) *)

(** [lookup] is [None] for a nil function. *)
Definition ValidateMandateAuthority (mandate : option MandateEntry)
    (lookup : option (bytes → option bytes)) : outcome gerror unit :=
  match mandate with
  | None => Err ErrInvalidMandateEntry
  | Some m =>
      match lookup with
      | None => Err ErrInvalidMandateEntry
      | Some lookup => (
          fail_if (negb (Mandate_VerifyHash m)) ErrMandateHashMismatch ;;!
          fail_if (negb (length (m_Signature m) =? MandateSignatureSize)%nat) ErrMandateSignature ;;!
          match lookup (m_Authority m) with
          | None => Err ErrMandateAuthorityMismatch
          | Some publicKey => fail_if (negb (VerifyAuthoritySignature m publicKey)) ErrMandateSignature
          end)%go
      end
  end.

(** ** Submission-time validation (mandate_validator.go) *)

Definition entryMatchesRule (entry : ProvenanceEntry) (rule : Rule) : bool :=
  if bool_decide (r_EventClass rule = "") then true
  else bool_decide (e_Label entry = r_EventClass rule).

Definition entryHasField (entry : ProvenanceEntry) (field : string) : bool :=
  if bool_decide (field = "Approver") then bool_decide (is_Some (e_Approver entry))
  else if bool_decide (field = "Reference") then bool_decide (is_Some (e_Reference entry))
  else if bool_decide (field = "Signature") then (0 <? length (e_Signature entry))%nat
  else if bool_decide (field = "MandateRef") then bool_decide (is_Some (e_MandateRef entry))
  else if bool_decide (field = "Label") then bool_decide (e_Label entry ≠ "")
  else if bool_decide (field = "Submitter") then bool_decide (e_Submitter entry ≠ zeros 16)
  else if bool_decide (field = "Hash") then bool_decide (e_Hash entry ≠ zeros 32)
  else true.

Fixpoint validateRule (fields : list string) (entry : ProvenanceEntry) : outcome gerror unit :=
  match fields with
  | [] => Ok tt
  | field :: rest =>
      if negb (entryHasField entry field) then Err ErrMandateMissingRequiredField
      else validateRule rest entry
  end.

Fixpoint validateRules (rules : list Rule) (entry : ProvenanceEntry) : outcome gerror unit :=
  match rules with
  | [] => Ok tt
  | rule :: rest =>
      if negb (entryMatchesRule entry rule) then validateRules rest entry
      else (validateRule (elems (r_RequiredFields rule)) entry ;;! validateRules rest entry)%go
  end.

Definition ValidateEntryAgainstMandates (r : MandateResolver) (entry : option ProvenanceEntry)
    (timestamp : Z) : outcome gerror unit :=
  match entry with
  | None => Err ErrInvalidMandateEntry
  | Some entry =>
      match e_MandateRef entry with
      | None => Ok tt
      | Some ref =>
          match GetMandateByID r ref with
          | None => Err ErrMandateNotFound
          | Some mandate =>
              if negb (IsActiveAt mandate timestamp) then Err ErrMandateExpired
              else validateRules (elems (m_Rules mandate)) entry
          end
      end
  end.
End resolver.

(** ** Verification-time compliance (compliance_checker.go) *)

Record ComplianceWindow := MkWindow {
  w_StartTimestamp : Z;
  w_EndTimestamp : Z;
  w_StartCycle : Z;
  w_EndCycle : Z;
}.

Definition ComplianceWindow_Validate (w : ComplianceWindow) : outcome gerror unit := (
  fail_if ((w_StartTimestamp w <=? 0) || (w_EndTimestamp w <=? 0))%Z ErrComplianceWindowInvalid ;;!
  fail_if (w_EndTimestamp w <? w_StartTimestamp w)%Z ErrComplianceWindowInvalid ;;!
  fail_if (w_EndCycle w <? w_StartCycle w)%Z ErrComplianceWindowInvalid)%go.

Inductive ComplianceStatus := StatusMissing | StatusMissingFields.

Record ComplianceGap := MkGap {
  g_MandateID : bytes;
  g_RuleIndex : nat;
  g_EventClass : string;
  g_WindowStart : Z;
  g_WindowEnd : Z;
  g_Status : ComplianceStatus;
  g_MissingFields : list string;
}.

Record ComplianceReport := MkReport {
  cr_MandateID : bytes;
  cr_MandateLabel : string;
  cr_Window : ComplianceWindow;
  cr_TotalExpected : nat;
  cr_TotalAnchored : nat;
  cr_Gaps : list ComplianceGap;
  cr_ComplianceRate : float64;
  cr_Timestamp : Z;
}.

Record expectation := MkExpectation { x_start : Z; x_end : Z }.

(** The bucket loop of [expectedEvents], with [int64] wrap-around. [None] is a loop that
    has not ended within the fuel. *)
Fixpoint expected_loop (fuel : nat) (bucketStart last step : Z) : option (list expectation) :=
  if (bucketStart <? last)%Z then
    match fuel with
    | O => None
    | S fuel' =>
        let bucketEnd := i64 (bucketStart + step) in
        let bucketEnd := if (last <? bucketEnd)%Z then last else bucketEnd in
        rest ← expected_loop fuel' (i64 (bucketStart + step)) last step;
        Some ({| x_start := bucketStart; x_end := bucketEnd |} :: rest)
    end
  else Some [].

Definition maxDeferralSec : Z := max_i64 / second.

Definition expectedEvents (fuel : nat) (rule : Rule) (window : ComplianceWindow) :
    option (list expectation) :=
  let start := w_StartTimestamp window in
  let last := w_EndTimestamp window in
  let whole := [{| x_start := start; x_end := last |}] in
  if (r_MaxDeferralSec rule =? 0)%Z then Some whole
  else if (maxDeferralSec <? r_MaxDeferralSec rule)%Z then Some whole
  else
    let step := i64 (r_MaxDeferralSec rule * second) in
    if (step <=? 0)%Z then Some whole
    else expected_loop fuel start last step.

Definition missingFields (rule : Rule) (entry : ProvenanceEntry) : list string :=
  filter (fun field => entryHasField entry field = false) (elems (r_RequiredFields rule)).

(** The loop of [findMatchingEntry]; [found] is the first incomplete match so far. *)
Fixpoint find_loop (rule : Rule) (exp : expectation) (entries : list ProvenanceEntry)
    (found : option (ProvenanceEntry * list string)) : option (ProvenanceEntry * list string) :=
  match entries with
  | [] => found
  | entry :: rest =>
      if negb (entryMatchesRule entry rule) then find_loop rule exp rest found
      else if (e_Timestamp entry <? x_start exp)%Z || (x_end exp <=? e_Timestamp entry)%Z
      then find_loop rule exp rest found
      else
        match missingFields rule entry with
        | [] => Some (entry, [])
        | missing =>
            find_loop rule exp rest
              (match found with None => Some (entry, missing) | Some _ => found end)
        end
  end.

Definition findMatchingEntry (rule : Rule) (exp : expectation) (entries : list ProvenanceEntry) :
    option (ProvenanceEntry * list string) := find_loop rule exp entries None.

(** The counters and gaps accumulated by the loops of [CheckComplianceMandate]. *)
Record tally := MkTally { tl_expected : nat; tl_anchored : nat; tl_gaps : list ComplianceGap }.

Definition tally_expectation (mandateID : bytes) (i : nat) (rule : Rule)
    (entries : list ProvenanceEntry) (t : tally) (exp : expectation) : tally :=
  let gap status fields :=
    {| g_MandateID := mandateID; g_RuleIndex := i; g_EventClass := r_EventClass rule;
       g_WindowStart := x_start exp; g_WindowEnd := x_end exp; g_Status := status;
       g_MissingFields := fields |} in
  match findMatchingEntry rule exp entries with
  | Some (_, []) =>
      {| tl_expected := S (tl_expected t); tl_anchored := S (tl_anchored t); tl_gaps := tl_gaps t |}
  | Some (_, missing) =>
      {| tl_expected := S (tl_expected t); tl_anchored := tl_anchored t;
         tl_gaps := tl_gaps t ++ [gap StatusMissingFields missing] |}
  | None =>
      {| tl_expected := S (tl_expected t); tl_anchored := tl_anchored t;
         tl_gaps := tl_gaps t ++ [gap StatusMissing []] |}
  end.

Fixpoint tally_rules (fuel : nat) (mandateID : bytes) (i : nat) (rules : list Rule)
    (window : ComplianceWindow) (entries : list ProvenanceEntry) (t : tally) : option tally :=
  match rules with
  | [] => Some t
  | rule :: rest =>
      if negb (r_Mandatory rule) then tally_rules fuel mandateID (S i) rest window entries t
      else
        exps ← expectedEvents fuel rule window;
        tally_rules fuel mandateID (S i) rest window entries
          (foldl (tally_expectation mandateID i rule entries) t exps)
  end.

(** [float64] conversion of an integer and division, round to nearest even. *)
Definition float_of_nat (n : nat) : float64 := binary_normalize 53 1024 (Z.of_nat n) 0 false.
Definition float_div (x y : float64) : float64 := SFdiv 53 1024 x y.

(** [CheckComplianceMandate] at wall-clock time [now]; [None] is a bucket loop out of fuel. *)
Definition CheckComplianceMandate (fuel : nat) (now : Z) (r : MandateResolver) (mandateID : bytes)
    (window : ComplianceWindow) (entries : list ProvenanceEntry) :
    option (outcome gerror ComplianceReport) :=
  match ComplianceWindow_Validate window with
  | Err e => Some (Err e)
  | Panic => Some Panic
  | Ok _ =>
      match GetMandateByID r mandateID with
      | None => Some (Err ErrMandateNotFound)
      | Some mandate =>
          t ← tally_rules fuel mandateID 0 (elems (m_Rules mandate)) window entries (MkTally 0 0 []);
          Some (Ok {| cr_MandateID := mandateID; cr_MandateLabel := MandateLabel; cr_Window := window;
                      cr_TotalExpected := tl_expected t; cr_TotalAnchored := tl_anchored t;
                      cr_Gaps := tl_gaps t;
                      cr_ComplianceRate :=
                        if (0 <? tl_expected t)%nat
                        then float_div (float_of_nat (tl_anchored t)) (float_of_nat (tl_expected t))
                        else S754_zero false;
                      cr_Timestamp := now |})
      end
  end.

Fixpoint check_all_loop (fuel : nat) (now : Z) (r : MandateResolver) (all : list MandateEntry)
    (window : ComplianceWindow) (entries : list ProvenanceEntry) :
    option (outcome gerror (list ComplianceReport)) :=
  match all with
  | [] => Some (Ok [])
  | m :: rest =>
      res ← CheckComplianceMandate fuel now r (m_ID m) window entries;
      match res with
      | Err e => Some (Err e)
      | Panic => Some Panic
      | Ok report =>
          more ← check_all_loop fuel now r rest window entries;
          Some (outcome_bind more (fun reports => Ok (report :: reports)))
      end
  end.

Definition CheckAllMandates (fuel : nat) (now : Z) (r : MandateResolver)
    (window : ComplianceWindow) (entries : list ProvenanceEntry) :
    option (outcome gerror (list ComplianceReport)) :=
  match ComplianceWindow_Validate window with
  | Err e => Some (Err e)
  | Panic => Some Panic
  | Ok _ => check_all_loop fuel now r (All r) window entries
  end.
