(* ===== verification/MandateTheorems.v ===== *)
(** * Properties of mandates and compliance checking *)
From Stdlib Require Import SpecFloat.
From S2P Require Import Prelude Crypto Toy Errors Chain ToyCbor ChainTheorems Config Mandates.

Section resolver.
Context `{Primitives, Cbor}.

(** Every stored body is filed under the identifier computed from its contents. *)
Definition resolver_wf (r : MandateResolver) : Prop :=
  map_Forall (fun id m => m_ID m = id ∧ MandateID m = id) (mr_mandates r).

Lemma Put_Some r m :
  Put r (Some m) =
    Ok {| mr_mandates := <[MandateID m := set_mandate_sig m (MandateID m) (m_Signature m)]> (mr_mandates r) |}.
Proof. done. Qed.

Lemma Put_wf r r' m : resolver_wf r → Put r m = Ok r' → resolver_wf r'.
Proof.
  intros Hr. destruct m as [m|]; [|done]. rewrite Put_Some. intros [= <-].
  apply map_Forall_insert_2; [done|done].
Qed.

Lemma NewMandateResolver_wf ms : resolver_wf (NewMandateResolver ms).
Proof.
  unfold NewMandateResolver. generalize (map_Forall_empty (M := gmap bytes)
    (fun id m => m_ID m = id ∧ MandateID m = id) : resolver_wf {| mr_mandates := ∅ |}).
  generalize ({| mr_mandates := ∅ |} : MandateResolver). induction ms as [|m ms IH]; intros r Hr; simpl; [done|].
  apply IH. eapply Put_wf; [exact Hr|apply (Put_Some r m)].
Qed.

Lemma elem_of_All r m : resolver_wf r → m ∈ All r ↔ GetMandateByID r (m_ID m) = Some m.
Proof.
  intros Hr. unfold All, GetMandateByID. rewrite (sort_by_Permutation m_ID), list_elem_of_fmap. split.
  - intros ([id m'] & -> & Hm%elem_of_map_to_list). simpl. by destruct (Hr _ _ Hm) as [-> _].
  - intros Hm. exists (m_ID m, m). split; [done|]. by apply elem_of_map_to_list.
Qed.

Lemma elem_of_superseded all id :
  id ∈ superseded_ids all ↔ id ≠ zeros 32 ∧ ∃ m, m ∈ all ∧ m_Supersedes m = id.
Proof.
  unfold superseded_ids.
  assert (Hgen : ∀ s : gset bytes,
    id ∈ foldl (fun s m => if decide (m_Supersedes m = zeros 32) then s else {[ m_Supersedes m ]} ∪ s) s all
    ↔ id ∈ s ∨ id ≠ zeros 32 ∧ ∃ m, m ∈ all ∧ m_Supersedes m = id).
  { induction all as [|m l IH]; intros s; simpl; [set_solver|]. rewrite IH. case_decide; set_solver. }
  rewrite Hgen. set_solver.
Qed.

(** C37: The mandates reported for a time are exactly those on file that are in force then
    and that no mandate on file supersedes, each once, in strictly ascending order of ID. *)
Theorem active_mandates_spec r ts :
  resolver_wf r →
  (∀ m, m ∈ GetActiveMandates r ts ↔
     GetMandateByID r (m_ID m) = Some m ∧ IsActiveAt m ts = true ∧
     (m_ID m = zeros 32 ∨
      ∀ m', GetMandateByID r (m_ID m') = Some m' → m_Supersedes m' ≠ m_ID m)) ∧
  StronglySorted (key_le m_ID) (GetActiveMandates r ts) ∧ NoDup (GetActiveMandates r ts).
Proof.
  intros Hr. unfold GetActiveMandates. split_and!.
  - intros m. rewrite list_elem_of_filter, elem_of_superseded, elem_of_All by done. split.
    + intros [[Hs Ha] Hm]. split_and!; auto. destruct (decide (m_ID m = zeros 32)) as [|Hne]; [by left|].
      right. intros m' Hm' Heq. apply Hs. split; [done|]. exists m'. by rewrite elem_of_All.
    + intros (Hm & Ha & Hs). split_and!; auto. intros (Hne & m' & Hm' & Heq).
      rewrite elem_of_All in Hm' by done. destruct Hs as [Hs|Hs]; [done|]. by apply (Hs m').
  - apply StronglySorted_filter, sort_by_sorted.
  - apply NoDup_filter. unfold All. rewrite (sort_by_Permutation m_ID).
    apply NoDup_fmap_2_strong; [|apply NoDup_map_to_list].
    intros [i1 m1] [i2 m2] H1%elem_of_map_to_list H2%elem_of_map_to_list Heq. simpl in Heq. subst m2.
    destruct (Hr _ _ H1) as [<- _], (Hr _ _ H2) as [<- _]. done.
Qed.

(** A revision hides its predecessor from the moment it is on file, not from the moment
    it takes effect: at a time when the old mandate was in force and the new one was not
    yet, neither is reported. *)
Theorem supersession_hides_history r m1 m2 ts :
  resolver_wf r → GetMandateByID r (m_ID m1) = Some m1 → GetMandateByID r (m_ID m2) = Some m2 →
  m_Supersedes m2 = m_ID m1 → m_ID m1 ≠ zeros 32 →
  IsActiveAt m1 ts = true → (ts < m_ValidFrom m2)%Z →
  m1 ∉ GetActiveMandates r ts ∧ m2 ∉ GetActiveMandates r ts.
Proof.
  intros Hr Hm1 Hm2 Hsup Hne Ha Hts. unfold GetActiveMandates.
  split; rewrite list_elem_of_filter, elem_of_superseded.
  - intros [[Hs _] _]. apply Hs. split; [done|]. exists m2. by rewrite elem_of_All.
  - intros [[_ Hact] _]. unfold IsActiveAt in Hact. apply Z.ltb_lt in Hts. by rewrite Hts in Hact.
Qed.

Lemma authority_signature_length m pk :
  VerifyAuthoritySignature m pk = true → length (m_Signature m) = MandateSignatureSize.
Proof.
  unfold VerifyAuthoritySignature. destruct (_ =? _)%nat eqn:E; [|done]. by apply Nat.eqb_eq in E.
Qed.

(** A mandate is admitted exactly when its identifier commits to its contents and a key
    registered for its authority verifies its signature; an unknown authority is refused. *)
Theorem mandate_authority_spec m lookup :
  ValidateMandateAuthority (Some m) (Some lookup) = Ok tt ↔
  Mandate_VerifyHash m = true ∧
  ∃ pk, lookup (m_Authority m) = Some pk ∧ VerifyAuthoritySignature m pk = true.
Proof.
  unfold ValidateMandateAuthority. destruct (Mandate_VerifyHash m); simpl; [|split; [done|naive_solver]].
  split.
  - destruct (length (m_Signature m) =? MandateSignatureSize)%nat; simpl; [|done].
    destruct (lookup (m_Authority m)) as [pk|]; [|done].
    intros Hv%fail_if_Ok%negb_false_iff. eauto.
  - intros (_ & pk & Hl & Hv). rewrite Hl.
    rewrite (authority_signature_length _ _ Hv), Nat.eqb_refl. simpl. by rewrite Hv.
Qed.

Lemma validateRule_Ok fields e :
  validateRule fields e = Ok tt ↔ Forall (fun f => entryHasField e f = true) fields.
Proof.
  induction fields as [|f fs IH]; simpl; [done|]. rewrite Forall_cons, <- IH.
  destruct (entryHasField e f); simpl; naive_solver.
Qed.

Lemma validateRules_Ok rules e :
  validateRules rules e = Ok tt ↔
  Forall (fun r => entryMatchesRule e r = true →
                   Forall (fun f => entryHasField e f = true) (elems (r_RequiredFields r))) rules.
Proof.
  induction rules as [|r rs IH]; simpl; [done|]. rewrite Forall_cons, <- IH, <- validateRule_Ok.
  destruct (entryMatchesRule e r); simpl; [|naive_solver].
  destruct (validateRule _ e) as [[]| |]; simpl; naive_solver.
Qed.

(** An entry passes the submission-time mandate check exactly when it claims no mandate,
    or the mandate it names is on file, in force, and every field required by the rules of
    the entry's event class is present. *)
Theorem entry_mandate_spec r e ts :
  ValidateEntryAgainstMandates r (Some e) ts = Ok tt ↔
  e_MandateRef e = None ∨
  ∃ ref m, e_MandateRef e = Some ref ∧ GetMandateByID r ref = Some m ∧ IsActiveAt m ts = true ∧
    ∀ rule field, rule ∈ elems (m_Rules m) → entryMatchesRule e rule = true →
      field ∈ elems (r_RequiredFields rule) → entryHasField e field = true.
Proof.
  unfold ValidateEntryAgainstMandates. destruct (e_MandateRef e) as [ref|]; [|by split; auto].
  destruct (GetMandateByID r ref) as [m|] eqn:Em;
    [|split; [done|intros [?|(? & ? & [= <-] & ? & _)]; congruence]].
  destruct (IsActiveAt m ts) eqn:Ea; simpl;
    [|split; [done|intros [?|(? & ? & [= <-] & ? & ? & _)]; congruence]].
  rewrite validateRules_Ok, Forall_forall. split.
  - intros Hall. right. exists ref, m. split_and!; auto. intros rule field Hr Hm Hf.
    specialize (Hall rule Hr Hm). rewrite Forall_forall in Hall. auto.
  - intros [?|(ref' & m' & [= <-] & Hm' & _ & Hall)]; [done|]. intros rule Hr Hm.
    rewrite Em in Hm'. injection Hm' as <-.
    apply Forall_forall. eauto.
Qed.
End resolver.

(** ** Expectations *)

(** Consecutive intervals from [a] to [b], none longer than [step] and none empty. *)
Fixpoint tiles (step a b : Z) (l : list expectation) : Prop :=
  match l with
  | [] => (b <= a)%Z
  | x :: rest =>
      x_start x = a ∧ (x_start x < x_end x <= b)%Z ∧ (x_end x - x_start x <= step)%Z ∧
      tiles step (x_end x) b rest
  end.

Lemma i64_small z : i64_ok z → i64 z = z.
Proof. unfold i64_ok, i64. intros Hz. rewrite Z.mod_small; lia. Qed.

Lemma expected_loop_tiles fuel a b step :
  (0 < step)%Z → (0 <= a)%Z → (b + step < 2 ^ 63)%Z → (b - a <= Z.of_nat fuel * step)%Z →
  ∃ l, expected_loop fuel a b step = Some l ∧ tiles step a b l.
Proof.
  revert a. induction fuel as [|fuel IH]; intros a Hs Ha Hb Hf; simpl.
  { rewrite (proj2 (Z.ltb_ge a b)) by lia. exists []. simpl. split; [done|lia]. }
  destruct (a <? b)%Z eqn:E; [|exists []; simpl; split; [done|lia]].
  apply Z.ltb_lt in E. rewrite i64_small by (unfold i64_ok; lia).
  destruct (b <? a + step)%Z eqn:E2.
  - apply Z.ltb_lt in E2. exists [MkExpectation a b].
    assert (Hend : expected_loop fuel (a + step) b step = Some []).
    { destruct fuel; simpl; by rewrite (proj2 (Z.ltb_ge (a + step) b)) by lia. }
    rewrite Hend. simpl. split; [done|]. split_and!; lia.
  - apply Z.ltb_ge in E2. destruct (IH (a + step)%Z) as (l & Hl & Ht); [lia..|].
    rewrite Hl. eexists. split; [reflexivity|]. simpl. split_and!; auto; lia.
Qed.

(** Enough fuel for every rule: one iteration per second of the window. *)
Definition window_fuel (w : ComplianceWindow) : nat :=
  Z.to_nat ((w_EndTimestamp w - w_StartTimestamp w) / second + 1).

Lemma window_fuel_enough w :
  (w_StartTimestamp w <= w_EndTimestamp w)%Z →
  (w_EndTimestamp w - w_StartTimestamp w <= Z.of_nat (window_fuel w) * second)%Z.
Proof.
  intros Hw. unfold window_fuel. set (d := (w_EndTimestamp w - w_StartTimestamp w)%Z) in *.
  assert (0 <= d / second)%Z by (apply Z.div_pos; unfold second; lia).
  rewrite Z2Nat.id by lia.
  pose proof (Z.mul_succ_div_gt d second ltac:(unfold second; lia)). lia.
Qed.

(** C39: For a valid window, a positive deferral and an end that is at least one deferral
    below the limit of [int64], the expected intervals of a rule are returned within one
    iteration per second of the window, and they tile the window: consecutive, non-empty,
    none longer than the permitted deferral. Without the last condition the loop need not
    end, see [expected_events_overflow]. *)
Theorem expected_events_tile rule w :
  (0 < w_StartTimestamp w <= w_EndTimestamp w)%Z →
  (0 < r_MaxDeferralSec rule)%Z →
  (w_EndTimestamp w + r_MaxDeferralSec rule * second < 2 ^ 63)%Z →
  ∃ l, expectedEvents (window_fuel w) rule w = Some l ∧
       tiles (r_MaxDeferralSec rule * second) (w_StartTimestamp w) (w_EndTimestamp w) l.
Proof.
  intros Hw Hd Hb. unfold expectedEvents. assert (second = 1000000000)%Z as Hsec by done.
  rewrite (proj2 (Z.eqb_neq _ _)) by lia.
  assert (Hmax : (r_MaxDeferralSec rule <= maxDeferralSec)%Z).
  { unfold maxDeferralSec, max_i64. rewrite Hsec in *. apply Z.div_le_lower_bound; lia. }
  rewrite (proj2 (Z.ltb_ge _ _)) by lia. rewrite i64_small by (unfold i64_ok; lia).
  rewrite (proj2 (Z.leb_gt _ _)) by lia. apply expected_loop_tiles; try lia.
  pose proof (window_fuel_enough w ltac:(lia)). nia.
Qed.

Lemma expected_loop_runs fuel a b step :
  (0 < step)%Z → (- 2 ^ 63 <= a)%Z → (b <= max_i64)%Z →
  (a + Z.of_nat fuel * step < b)%Z → expected_loop fuel a b step = None.
Proof.
  unfold max_i64. revert a. induction fuel as [|fuel IH]; intros a Hs Ha Hb Hlt; simpl.
  - rewrite (proj2 (Z.ltb_lt _ _)) by lia. done.
  - rewrite (proj2 (Z.ltb_lt _ _)) by lia. rewrite i64_small by (unfold i64_ok; lia).
    rewrite IH by lia. done.
Qed.

(** The bucket loop overflows: over the last nanosecond before 2^63-1, with a deferral
    of one second, the loop has not ended after eighteen thousand million iterations. *)
Theorem expected_events_overflow rule w fuel :
  r_MaxDeferralSec rule = 1%Z → w_EndTimestamp w = max_i64 →
  w_StartTimestamp w = (max_i64 - 1)%Z → (Z.of_nat fuel <= 18000000000)%Z →
  expectedEvents fuel rule w = None.
Proof.
  intros Hd He Hst Hf. unfold expectedEvents. rewrite Hd, He, Hst.
  change (1 =? 0)%Z with false. change (maxDeferralSec <? 1)%Z with false. cbv iota.
  change (i64 (1 * second)) with 1000000000%Z. cbn [Z.leb Z.compare].
  destruct fuel as [|fuel]; [done|]. cbn [expected_loop].
  change (max_i64 - 1 <? max_i64)%Z with true. cbv iota.
  change (i64 (max_i64 - 1 + 1000000000)) with (- 2 ^ 63 + 999999998)%Z.
  rewrite expected_loop_runs; [done|lia|lia|unfold max_i64; lia|].
  unfold max_i64. lia.
Qed.

(** ** Reports *)

(** *** What a report should say *)

(** The intervals of a rule in closed form: the whole window when the rule sets no usable
    deferral, and otherwise as many intervals of that length as the window needs, the last
    one cut at its end. *)
Definition bucket (step a b : Z) (k : nat) : expectation :=
  {| x_start := a + Z.of_nat k * step; x_end := Z.min b (a + (Z.of_nat k + 1) * step) |}.

Definition buckets (step a b : Z) : list expectation :=
  bucket step a b <$> seq 0 (Z.to_nat ((b - a - 1) / step + 1)).

Definition unbounded (rule : Rule) : bool :=
  (r_MaxDeferralSec rule =? 0)%Z || (maxDeferralSec <? r_MaxDeferralSec rule)%Z.

Definition expectations (rule : Rule) (w : ComplianceWindow) : list expectation :=
  if unbounded rule then [{| x_start := w_StartTimestamp w; x_end := w_EndTimestamp w |}]
  else buckets (r_MaxDeferralSec rule * second) (w_StartTimestamp w) (w_EndTimestamp w).

(** The last interval does not reach past the range of [int64]; beyond it the loop does not
    end in useful time, see [expected_events_overflow]. *)
Definition within_range (rule : Rule) (w : ComplianceWindow) : Prop :=
  (0 <= r_MaxDeferralSec rule)%Z ∧
  (unbounded rule = false → (w_EndTimestamp w + r_MaxDeferralSec rule * second < 2 ^ 63)%Z).

(** An obligation: a mandatory rule, with its index, and one of its intervals. *)
Record obligation := MkObligation { ob_index : nat; ob_rule : Rule; ob_interval : expectation }.

Fixpoint obligations (i : nat) (rules : list Rule) (w : ComplianceWindow) : list obligation :=
  match rules with
  | [] => []
  | rule :: rest =>
      (if r_Mandatory rule then MkObligation i rule <$> expectations rule w else []) ++ obligations (S i) rest w
  end.

(** The entries of the rule's event class in the interval, and whether one is complete. *)
Definition candidates (entries : list ProvenanceEntry) (o : obligation) : list ProvenanceEntry :=
  filter (fun e => entryMatchesRule e (ob_rule o) = true ∧
    (x_start (ob_interval o) <= e_Timestamp e < x_end (ob_interval o))%Z) entries.

Definition complete (rule : Rule) (e : ProvenanceEntry) : bool :=
  match missingFields rule e with [] => true | _ => false end.

Definition discharged (entries : list ProvenanceEntry) (o : obligation) : bool :=
  existsb (complete (ob_rule o)) (candidates entries o).

(** The gap of an obligation: no entry at all, or the fields its first entry lacks. *)
Definition gap_of (id : bytes) (entries : list ProvenanceEntry) (o : obligation) : ComplianceGap :=
  {| g_MandateID := id; g_RuleIndex := ob_index o; g_EventClass := r_EventClass (ob_rule o);
     g_WindowStart := x_start (ob_interval o); g_WindowEnd := x_end (ob_interval o);
     g_Status := match candidates entries o with [] => StatusMissing | _ => StatusMissingFields end;
     g_MissingFields := match candidates entries o with [] => [] | e :: _ => missingFields (ob_rule o) e end |}.

(** *** The loops of the checker *)

Lemma buckets_step step a b : (0 < step)%Z → (a < b)%Z →
  buckets step a b = {| x_start := a; x_end := Z.min b (a + step) |} :: buckets step (a + step) b.
Proof.
  intros Hs Hab. unfold buckets.
  assert (0 <= (b - a - 1) / step)%Z by (apply Z.div_pos; lia).
  assert (E : ((b - (a + step) - 1) / step + 1 = (b - a - 1) / step)%Z).
  { replace (b - (a + step) - 1)%Z with (b - a - 1 + (-1) * step)%Z by lia. rewrite Z.div_add by lia. lia. }
  rewrite E. replace (Z.to_nat ((b - a - 1) / step + 1)) with (S (Z.to_nat ((b - a - 1) / step))) by lia.
  cbn [seq fmap list_fmap]. f_equal; [unfold bucket; f_equal; lia|].
  rewrite <- fmap_S_seq, <- list_fmap_compose. apply list_fmap_ext. intros _ k _. unfold bucket. cbn [compose]. rewrite Nat2Z.inj_succ. f_equal; [|f_equal]; ring.
Qed.

Lemma buckets_end step a b : (0 < step)%Z → (b <= a)%Z → buckets step a b = [].
Proof.
  intros Hs Hab. unfold buckets.
  assert ((b - a - 1) / step < 0)%Z by (apply Z.div_lt_upper_bound; lia).
  by replace (Z.to_nat ((b - a - 1) / step + 1)) with 0 by lia.
Qed.

Lemma expected_loop_buckets fuel step b : ∀ a, (0 < step)%Z → (0 <= a)%Z → (b + step < 2 ^ 63)%Z →
  (b - a <= Z.of_nat fuel * step)%Z → expected_loop fuel a b step = Some (buckets step a b).
Proof.
  induction fuel as [|fuel IH]; intros a Hs Ha Hb Hf; cbn [expected_loop].
  - rewrite (proj2 (Z.ltb_ge a b)), buckets_end by lia. done.
  - destruct (Z.ltb_spec a b) as [Hab|Hab]; [|by rewrite buckets_end by lia].
    rewrite i64_small by (unfold i64_ok; lia). rewrite IH by lia. cbn [mbind option_bind]. rewrite (buckets_step step a b) by lia. do 3 f_equal.
    destruct (Z.ltb_spec b (a + step)); lia.
Qed.

Lemma expectedEvents_closed fuel rule w : (0 < w_StartTimestamp w <= w_EndTimestamp w)%Z →
  within_range rule w → window_fuel w ≤ fuel → expectedEvents fuel rule w = Some (expectations rule w).
Proof.
  intros Hw [Hd Hr] Hf. unfold expectedEvents, expectations, unbounded in *.
  destruct (Z.eqb_spec (r_MaxDeferralSec rule) 0) as [|Hz]; [done|].
  destruct (Z.ltb_spec maxDeferralSec (r_MaxDeferralSec rule)) as [|Hm]; [done|].
  specialize (Hr eq_refl). assert (second = 1000000000)%Z as Hsec by done. cbn [orb].
  rewrite i64_small by (unfold i64_ok; lia). rewrite (proj2 (Z.leb_gt _ _)) by lia.
  apply expected_loop_buckets; try lia. pose proof (window_fuel_enough w ltac:(lia)). nia.
Qed.

Lemma find_loop_spec rule x entries : ∀ found,
  let cs := candidates entries (MkObligation 0 rule x) in
  find_loop rule x entries found =
    match List.find (complete rule) cs with
    | Some e => Some (e, [])
    | None => match found, cs with Some _, _ => found | None, [] => None | None, e :: _ => Some (e, missingFields rule e) end
    end.
Proof.
  unfold candidates. cbn [ob_rule ob_interval].
  induction entries as [|e entries IH]; intros found; cbv zeta; [by destruct found|]. cbn [find_loop].
  rewrite filter_cons. destruct (entryMatchesRule e rule) eqn:Em; cbn [negb].
  2:{ rewrite decide_False by naive_solver. apply IH. }
  destruct ((e_Timestamp e <? x_start x)%Z || (x_end x <=? e_Timestamp e)%Z) eqn:Et.
  { rewrite decide_False by (intros [_ ?]; lia). apply IH. }
  rewrite decide_True by (split; [done|lia]). cbn [List.find]. unfold complete at 1.
  destruct (missingFields rule e) as [|f fs] eqn:Ef; [done|]. rewrite IH.
  destruct (List.find _ _); [done|]. by destruct found.
Qed.

Lemma tally_one id entries t o :
  tally_expectation id (ob_index o) (ob_rule o) entries t (ob_interval o) =
    if discharged entries o
    then {| tl_expected := S (tl_expected t); tl_anchored := S (tl_anchored t); tl_gaps := tl_gaps t |}
    else {| tl_expected := S (tl_expected t); tl_anchored := tl_anchored t; tl_gaps := tl_gaps t ++ [gap_of id entries o] |}.
Proof.
  destruct o as [i rule x]. unfold tally_expectation, findMatchingEntry, discharged, gap_of. cbn [ob_index ob_rule ob_interval].
  rewrite find_loop_spec. cbv zeta. change (candidates entries (MkObligation i rule x)) with (candidates entries (MkObligation 0 rule x)).
  destruct (List.find _ _) as [e|] eqn:Ef.
  - apply List.find_some in Ef as [Hin Hc]. by rewrite (proj2 (existsb_exists _ _) (ex_intro _ e (conj Hin Hc))).
  - destruct (existsb _ _) eqn:Ex.
    { apply existsb_exists in Ex as (e & Hin & Hc). by rewrite (List.find_none _ _ Ef e Hin) in Hc. }
    destruct (candidates _ _) as [|e cs]; [done|]. cbn [List.find] in Ef. unfold complete in Ef at 1.
    by destruct (missingFields rule e).
Qed.

Lemma tally_all id entries os : ∀ t,
  foldl (fun t o => tally_expectation id (ob_index o) (ob_rule o) entries t (ob_interval o)) t os =
  {| tl_expected := tl_expected t + length os;
     tl_anchored := tl_anchored t + length (filter (fun o => discharged entries o = true) os);
     tl_gaps := tl_gaps t ++ (gap_of id entries <$> filter (fun o => discharged entries o = false) os) |}.
Proof.
  induction os as [|o os IH]; intros t; cbn [foldl].
  { destruct t; cbn. by rewrite !Nat.add_0_r, app_nil_r. }
  rewrite IH, tally_one, !filter_cons. destruct (discharged entries o); cbn [tl_expected tl_anchored tl_gaps];
    repeat (rewrite decide_True by done || rewrite decide_False by done); cbn [length fmap list_fmap];
    f_equal; try lia; by rewrite <- app_assoc.
Qed.

Lemma tally_rules_obligations fuel id w entries : (0 < w_StartTimestamp w <= w_EndTimestamp w)%Z → window_fuel w ≤ fuel →
  ∀ rules i t, (∀ rule, rule ∈ rules → r_Mandatory rule = true → within_range rule w) →
  tally_rules fuel id i rules w entries t =
    Some (foldl (fun t o => tally_expectation id (ob_index o) (ob_rule o) entries t (ob_interval o)) t (obligations i rules w)).
Proof.
  intros Hw Hf. induction rules as [|rule rules IH]; intros i t Hr; [done|]. cbn [tally_rules obligations].
  destruct (r_Mandatory rule) eqn:Em; cbn [negb].
  2:{ rewrite IH; [done|]. intros r Hin. apply Hr. by right. }
  rewrite expectedEvents_closed; [|done| |done]; [|apply Hr; [by left|done]]. cbn [mbind option_bind].
  rewrite IH; [|intros r Hin; apply Hr; by right]. f_equal. rewrite foldl_app. f_equal.
  generalize (expectations rule w). intros xs. revert t. induction xs as [|x xs IHx]; intros t; [done|]. apply IHx.
Qed.

Lemma discharged_true entries o : discharged entries o = true ↔
  ∃ e, e ∈ entries ∧ entryMatchesRule e (ob_rule o) = true ∧
    (x_start (ob_interval o) <= e_Timestamp e < x_end (ob_interval o))%Z ∧ missingFields (ob_rule o) e = [].
Proof.
  unfold discharged, candidates, complete. rewrite existsb_exists. setoid_rewrite <- list_elem_of_In.
  setoid_rewrite list_elem_of_filter. split.
  - intros (e & [[Hm Ht] He] & Hc). exists e. by destruct (missingFields (ob_rule o) e).
  - intros (e & He & Hm & Ht & Hf). exists e. by rewrite Hf.
Qed.

(** C38: The compliance check, on every branch, when no interval of a mandatory rule reaches
    past the range of [int64]; the loops end within one iteration per second of the window.
    An invalid window and an unknown mandate are errors. Otherwise there is a report, and it
    accounts for the obligations of the mandate, every interval of every mandatory rule: it
    counts them all as expected, those in which an entry of the event class with all the
    required fields lies as anchored, and has one gap for each of the others, in order,
    which says whether there was no entry or which fields the first one lacks. *)
Theorem compliance_report_spec now r id w entries fuel : window_fuel w ≤ fuel →
  (∀ m rule, GetMandateByID r id = Some m → rule ∈ elems (m_Rules m) → r_Mandatory rule = true → within_range rule w) →
  CheckComplianceMandate fuel now r id w entries =
  match ComplianceWindow_Validate w, GetMandateByID r id with
  | Ok _, Some m =>
      let os := obligations 0 (elems (m_Rules m)) w in
      let anchored := length (filter (fun o => discharged entries o = true) os) in
      Some (Ok {| cr_MandateID := id; cr_MandateLabel := MandateLabel; cr_Window := w;
                  cr_TotalExpected := length os; cr_TotalAnchored := anchored;
                  cr_Gaps := gap_of id entries <$> filter (fun o => discharged entries o = false) os;
                  cr_ComplianceRate := if (0 <? length os)%nat
                    then float_div (float_of_nat anchored) (float_of_nat (length os)) else S754_zero false;
                  cr_Timestamp := now |})
  | Ok _, None => Some (Err ErrMandateNotFound)
  | Err e, _ => Some (Err e)
  | Panic, _ => Some Panic
  end.
Proof.
  intros Hf Hr. unfold CheckComplianceMandate. destruct (ComplianceWindow_Validate w) as [u|e|] eqn:Ev; [|done..].
  assert (Hw : (0 < w_StartTimestamp w <= w_EndTimestamp w)%Z).
  { unfold ComplianceWindow_Validate in Ev. apply fail_if_pass in Ev as [Hpos Ev]. apply fail_if_pass in Ev as [Hord _]. lia. }
  destruct (GetMandateByID r id) as [m|]; [|done].
  rewrite tally_rules_obligations by (try done; intros; by eapply Hr). rewrite tally_all. done.
Qed.

(** ** Independence of the submitter's claims *)

Definition set_MandateRef (e : ProvenanceEntry) (ref : option bytes) : ProvenanceEntry :=
  {| e_Hash := e_Hash e; e_Submitter := e_Submitter e; e_Timestamp := e_Timestamp e;
     e_Label := e_Label e; e_Approver := e_Approver e; e_Reference := e_Reference e;
     e_Signature := e_Signature e; e_MandateRef := ref |}.

Definition same_but_ref (e e' : ProvenanceEntry) : Prop := e' = set_MandateRef e (e_MandateRef e').

Lemma entryHasField_ref e e' field :
  same_but_ref e e' → field ≠ "MandateRef" → entryHasField e' field = entryHasField e field.
Proof.
  intros -> Hf. unfold entryHasField. rewrite (bool_decide_eq_false_2 (field = "MandateRef")) by done.
  done.
Qed.

Lemma missingFields_ref rule e e' :
  same_but_ref e e' → "MandateRef" ∉ elems (r_RequiredFields rule) →
  missingFields rule e' = missingFields rule e.
Proof.
  intros Hs. unfold missingFields. induction (elems (r_RequiredFields rule)) as [|f fs IH]; [done|].
  intros [Hf Hfs]%not_elem_of_cons. rewrite !filter_cons, IH by done.
  by rewrite (entryHasField_ref e e' f Hs) by done.
Qed.

Lemma find_loop_ref rule x entries entries' :
  Forall2 same_but_ref entries entries' → "MandateRef" ∉ elems (r_RequiredFields rule) →
  ∀ found found', snd <$> found = snd <$> found' →
  snd <$> find_loop rule x entries found = snd <$> find_loop rule x entries' found'.
Proof.
  intros Hs Hn. induction Hs as [|e e' es es' He Hes IH]; intros found found' Hf; simpl; [done|].
  rewrite (missingFields_ref rule e e') by done.
  assert (Hm : entryMatchesRule e' rule = entryMatchesRule e rule) by (by rewrite He).
  assert (Ht : e_Timestamp e' = e_Timestamp e) by (by rewrite He).
  rewrite Hm, Ht. destruct (negb _); [by apply IH|]. destruct (_ || _); [by apply IH|].
  destruct (missingFields rule e) as [|f fs]; [done|]. apply IH.
  destruct found, found'; simpl in *; congruence.
Qed.

Lemma tally_expectation_ref id i rule entries entries' t x :
  Forall2 same_but_ref entries entries' → "MandateRef" ∉ elems (r_RequiredFields rule) →
  tally_expectation id i rule entries t x = tally_expectation id i rule entries' t x.
Proof.
  intros Hs Hn. pose proof (find_loop_ref rule x entries entries' Hs Hn None None eq_refl) as Hf.
  unfold tally_expectation, findMatchingEntry.
  destruct (find_loop rule x entries None) as [[e fs]|], (find_loop rule x entries' None) as [[e' fs']|];
    simpl in Hf; by simplify_eq.
Qed.

(** The report does not depend on the mandate references the entries carry: omitting or
    changing them neither creates nor hides a gap, unless a mandatory rule itself demands
    the [MandateRef] field. *)
Theorem compliance_ignores_mandate_ref fuel now r id w entries entries' :
  Forall2 same_but_ref entries entries' →
  (∀ m rule, GetMandateByID r id = Some m → rule ∈ elems (m_Rules m) → r_Mandatory rule = true →
     "MandateRef" ∉ elems (r_RequiredFields rule)) →
  CheckComplianceMandate fuel now r id w entries = CheckComplianceMandate fuel now r id w entries'.
Proof.
  intros Hs Hn. unfold CheckComplianceMandate. destruct (ComplianceWindow_Validate w); [|done..].
  destruct (GetMandateByID r id) as [m|] eqn:Em; [|done].
  assert (Ht : ∀ rules i t, (∀ rule, rule ∈ rules → r_Mandatory rule = true →
                 "MandateRef" ∉ elems (r_RequiredFields rule)) →
    tally_rules fuel id i rules w entries t = tally_rules fuel id i rules w entries' t).
  { induction rules as [|rule rules IH]; intros i t Hr; simpl; [done|].
    destruct (r_Mandatory rule) eqn:Eman; simpl; [|apply IH; set_solver].
    destruct (expectedEvents fuel rule w) as [exps|]; simpl; [|done].
    rewrite IH by set_solver. f_equal. clear IH. revert t.
    induction exps as [|x exps IHx]; intros t; simpl; [done|].
    rewrite (tally_expectation_ref id i rule entries entries'); [apply IHx|done|].
    apply Hr; [set_solver|done]. }
  rewrite Ht; [done|]. intros rule Hr Hman. by apply (Hn m).
Qed.

(** ** Instances *)

Definition demo_mandate2 : MandateEntry :=
  {| m_ID := zeros 32; m_Authority := zeros 16; m_Version := 2;
     m_PrevVersion := MandateID demo_mandate; m_ValidFrom := 500; m_ValidUntil := 0;
     m_Supersedes := MandateID demo_mandate; m_Rules := m_Rules demo_mandate;
     m_PolicyHash := zeros 32; m_PolicyURI := []; m_Signature := [] |}.

Definition demo_resolver : MandateResolver := NewMandateResolver [demo_mandate; demo_mandate2].

Definition on_file (m : MandateEntry) : MandateEntry := set_mandate_sig m (MandateID m) [].

Lemma active_mandates_spec_witness :
  on_file demo_mandate2 ∈ GetActiveMandates demo_resolver 600 ∧
  NoDup (GetActiveMandates demo_resolver 600).
Proof.
  destruct (active_mandates_spec demo_resolver 600 (NewMandateResolver_wf _)) as (Hin & _ & Hnd).
  split; [|exact Hnd]. apply Hin. split; [vm_compute; reflexivity|]. split; [vm_compute; reflexivity|].
  right. intros m' Hm' Hs.
  assert (Hall : m' ∈ All demo_resolver) by (by apply elem_of_All; [apply NewMandateResolver_wf|]).
  assert (Hd : bool_decide (Forall (fun m => m_Supersedes m ≠ m_ID (on_file demo_mandate2)) (All demo_resolver)) = true)
    by (vm_compute; reflexivity).
  apply bool_decide_eq_true in Hd. rewrite Forall_forall in Hd. by apply (Hd m').
Defined.

Lemma supersession_hides_history_witness :
  IsActiveAt (on_file demo_mandate) 400 = true ∧
  on_file demo_mandate ∉ GetActiveMandates demo_resolver 400 ∧
  on_file demo_mandate2 ∉ GetActiveMandates demo_resolver 400.
Proof.
  split; [reflexivity|].
  apply (supersession_hides_history demo_resolver (on_file demo_mandate) (on_file demo_mandate2) 400);
    [apply NewMandateResolver_wf|..]; vm_compute; (reflexivity || discriminate).
Defined.

Definition demo_window : ComplianceWindow := MkWindow 1 (150 * second) 0 10.

Definition demo_rule : Rule :=
  MkRule "deploy" "" (S754_zero false) (S754_zero false) 0 None true (Some ["Approver"]) 60 ∅.

Lemma expected_events_tile_witness :
  ∃ l, expectedEvents (window_fuel demo_window) demo_rule demo_window = Some l ∧
       tiles (60 * second) 1 (150 * second) l.
Proof.
  apply (expected_events_tile demo_rule demo_window); vm_compute; (split; discriminate || reflexivity) || reflexivity.
Defined.

Lemma expected_events_overflow_witness :
  ComplianceWindow_Validate (MkWindow (max_i64 - 1) max_i64 0 0) = Ok tt ∧
  expectedEvents 1000 (MkRule "deploy" "" (S754_zero false) (S754_zero false) 0 None true None 1 ∅)
    (MkWindow (max_i64 - 1) max_i64 0 0) = None.
Proof.
  split; [reflexivity|].
  apply (expected_events_overflow _ (MkWindow (max_i64 - 1) max_i64 0 0) 1000); try reflexivity.
  discriminate.
Defined.

Definition demo_event (ts : Z) (approver : option bytes) (ref : option bytes) : ProvenanceEntry :=
  {| e_Hash := key32 1; e_Submitter := zeros 16; e_Timestamp := ts; e_Label := "deploy";
     e_Approver := approver; e_Reference := None; e_Signature := []; e_MandateRef := ref |}.

Definition demo_events : list ProvenanceEntry :=
  [demo_event 5 (Some (zeros 16)) None; demo_event (70 * second) None (Some (key32 3))].

Definition demo_report : ComplianceReport :=
  {| cr_MandateID := MandateID demo_mandate; cr_MandateLabel := MandateLabel; cr_Window := demo_window;
     cr_TotalExpected := 3; cr_TotalAnchored := 1;
     cr_Gaps :=
       [MkGap (MandateID demo_mandate) 0 "deploy" (60 * second + 1) (120 * second + 1) StatusMissingFields ["Approver"];
        MkGap (MandateID demo_mandate) 0 "deploy" (120 * second + 1) (150 * second) StatusMissing []];
     cr_ComplianceRate := S754_finite false 6004799503160661 (-54); cr_Timestamp := 77 |}.

Lemma compliance_report_spec_witness :
  CheckComplianceMandate (window_fuel demo_window) 77 demo_resolver (MandateID demo_mandate) demo_window demo_events =
    Some (Ok demo_report) ∧
  length (obligations 0 (elems (m_Rules demo_mandate)) demo_window) = 3.
Proof.
  assert (E : GetMandateByID demo_resolver (MandateID demo_mandate) = Some (on_file demo_mandate)) by (vm_compute; reflexivity).
  split; [|vm_compute; reflexivity].
  rewrite (compliance_report_spec 77 demo_resolver (MandateID demo_mandate) demo_window demo_events).
  - rewrite E. vm_compute. reflexivity.
  - done.
  - rewrite E. intros m rule [= <-] Hr _. apply list_elem_of_singleton in Hr as ->. split; [done|]. intros _. reflexivity.
Defined.

Lemma compliance_ignores_mandate_ref_witness :
  CheckComplianceMandate 200 77 demo_resolver (MandateID demo_mandate) demo_window demo_events =
  CheckComplianceMandate 200 77 demo_resolver (MandateID demo_mandate) demo_window
    [demo_event 5 (Some (zeros 16)) (Some (key32 9)); demo_event (70 * second) None None].
Proof.
  apply (compliance_ignores_mandate_ref 200 77 demo_resolver (MandateID demo_mandate) demo_window).
  - repeat constructor.
  - intros m rule Hm. assert (m = on_file demo_mandate) as ->.
    { assert (E : GetMandateByID demo_resolver (MandateID demo_mandate) = Some (on_file demo_mandate))
        by (vm_compute; reflexivity). congruence. }
    intros Hr _. apply list_elem_of_singleton in Hr as ->. apply (bool_decide_unpack _). vm_compute. exact I.
Defined.
