(* ===== verification/Vrf.v ===== *)
(** * Verifiable random function (pkg/identity/vrf.go)

    The Ristretto255 group, its scalar field, the XMD expander and HMAC-SHA-512 are
    libraries of the build: the class [Ristretto] lists the operations the code calls and
    [RistrettoLaws] the documented facts it relies on. Proving, verification and the wire
    format are modelled as written. *)
From S2P Require Import Prelude Crypto Errors.

Class Ristretto := {
  point : Type;
  scalar : Type;
  point_eq_dec :: EqDecision point;
  scalar_eq_dec :: EqDecision scalar;
  pt_zero : point;
  pt_add : point → point → point;
  pt_sub : point → point → point;
  (** [ScalarMult], [PublicScalarMult]; at the generator [ScalarMultBase]. *)
  pt_mul : scalar → point → point;
  pt_base : point;
  (** [Bytes] and [UnmarshalBinary]. *)
  pt_bytes : point → bytes;
  pt_decode : bytes → option point;
  pt_elligator : bytes → point;
  (** [Bytes], [SetBytes] (reducing), [SetBytesStrict], [SetReduced] (64 bytes), [MulAdd]. *)
  sc_bytes : scalar → bytes;
  sc_reduce : bytes → scalar;
  sc_strict : bytes → option scalar;
  sc_wide : bytes → scalar;
  sc_muladd : scalar → scalar → scalar → scalar;
  (** [expander.NewExpanderMD(SHA512, dst).Expand(msg, n)]. *)
  xmd_expand : string → bytes → nat → bytes;
  hmac_sha512 : bytes → bytes → bytes;
}.

(** A prime-order group with canonical 32-byte encodings. *)
Class RistrettoLaws `{Ristretto} : Prop := {
  pt_bytes_length p : length (pt_bytes p) = 32;
  pt_decode_bytes p : pt_decode (pt_bytes p) = Some p;
  sc_bytes_length s : length (sc_bytes s) = 32;
  sc_strict_bytes s : sc_strict (sc_bytes s) = Some s;
  sc_reduce_bytes s : sc_reduce (sc_bytes s) = s;
  pt_mul_muladd a b c p : pt_mul (sc_muladd a b c) p = pt_add (pt_mul a (pt_mul b p)) (pt_mul c p);
  pt_sub_add a b : pt_sub (pt_add a b) a = b;
}.

Definition VRFSuiteID : string := "ristretto255_XMD:SHA-512_R255MAP_RO_".
Definition vrfChallengeDST : string := "ristretto255_XMD:SHA-512_R255MAP_RO_challenge".
Definition VRFProofSize : nat := 96.

Record VRFProof := MkVRFProof { vp_Gamma : bytes; vp_C : bytes; vp_S : bytes }.

#[export] Instance VRFProof_eq_dec : EqDecision VRFProof.
Proof. solve_decision. Defined.

Inductive vrf_error := ErrVRFVerifyFailed | ErrVRFInvalidInput | ErrVRFIdentityPoint | ErrVRFDecode.

Section vrf.
Context `{Ristretto}.

Definition isIdentity (p : point) : bool := bool_decide (p = pt_zero).

Definition VRFPrivateKeyFromBytes (data : bytes) : outcome vrf_error scalar :=
  if negb (length data =? 32)%nat then Err ErrVRFInvalidInput else Ok (sc_reduce data).

Definition VRFPublicKeyFromBytes (data : bytes) : outcome vrf_error point :=
  if negb (length data =? 32)%nat then Err ErrVRFInvalidInput
  else match pt_decode data with
       | None => Err ErrVRFDecode
       | Some pk => if isIdentity pk then Err ErrVRFIdentityPoint else Ok pk
       end.

Definition HashToCurve (alpha : bytes) : point :=
  let uniformBytes := xmd_expand VRFSuiteID alpha 64 in
  let p0 := pt_elligator (copy_array 32 (take 32 uniformBytes)) in
  let p1 := pt_elligator (copy_array 32 (drop 32 uniformBytes)) in
  pt_add p0 p1.

Definition hashToScalar (inputs : list bytes) : scalar :=
  sc_wide (copy_array 64 (xmd_expand vrfChallengeDST (concat inputs) 64)).

Definition deriveNonce (alpha skBytes : bytes) : scalar :=
  sc_wide (copy_array 64 (hmac_sha512 skBytes (string_bytes vrfChallengeDST ++ alpha))).

Definition VRF_PublicKey (sk : scalar) : point := pt_mul sk pt_base.

(** [Prove]; the secret key pointer is not nil. *)
Definition VRF_Prove (sk : scalar) (alpha : bytes) : outcome vrf_error VRFProof := (
  let H := HashToCurve alpha in
  fail_if (isIdentity H) ErrVRFIdentityPoint ;;!
  let y := pt_mul sk pt_base in
  fail_if (isIdentity y) ErrVRFIdentityPoint ;;!
  let gamma := pt_mul sk H in
  fail_if (isIdentity gamma) ErrVRFIdentityPoint ;;!
  let k := deriveNonce alpha (sc_bytes sk) in
  let u := pt_mul k pt_base in
  let v := pt_mul k H in
  fail_if (isIdentity u || isIdentity v) ErrVRFIdentityPoint ;;!
  let c := hashToScalar [pt_bytes y; pt_bytes H; pt_bytes gamma; pt_bytes u; pt_bytes v] in
  let s := sc_muladd c sk k in
  Ok {| vp_Gamma := pt_bytes gamma; vp_C := sc_bytes c; vp_S := sc_bytes s |})%go.

(** [Verify]; [None] is a nil proof. *)
Definition VRF_Verify (pk : point) (alpha : bytes) (proof : option VRFProof) :
    outcome vrf_error bytes :=
  match proof with
  | None => Err ErrVRFVerifyFailed
  | Some proof =>
      if negb ((length (vp_Gamma proof) =? 32) && (length (vp_C proof) =? 32) &&
               (length (vp_S proof) =? 32))%nat then Err ErrVRFVerifyFailed
      else if isIdentity pk then Err ErrVRFVerifyFailed
      else
        match sc_strict (vp_C proof), sc_strict (vp_S proof), pt_decode (vp_Gamma proof) with
        | Some c, Some s, Some gammaPoint =>
            if isIdentity gammaPoint then Err ErrVRFVerifyFailed
            else
              let H := HashToCurve alpha in
              if isIdentity H then Err ErrVRFVerifyFailed
              else
                let u := pt_sub (pt_mul s pt_base) (pt_mul c pk) in
                let v := pt_sub (pt_mul s H) (pt_mul c gammaPoint) in
                if isIdentity u || isIdentity v then Err ErrVRFVerifyFailed
                else
                  let expectedC := hashToScalar [pt_bytes pk; pt_bytes H; vp_Gamma proof;
                                                 pt_bytes u; pt_bytes v] in
                  if bool_decide (c = expectedC) then Ok (vp_Gamma proof) else Err ErrVRFVerifyFailed
        | _, _, _ => Err ErrVRFVerifyFailed
        end
  end.

Definition VRFOutput (proof : VRFProof) : bytes := vp_Gamma proof.

Definition MarshalVRFProof (proof : VRFProof) : bytes := vp_Gamma proof ++ vp_C proof ++ vp_S proof.

Definition UnmarshalVRFProof (data : bytes) : outcome vrf_error VRFProof :=
  if negb (length data =? VRFProofSize)%nat then Err ErrVRFInvalidInput
  else Ok {| vp_Gamma := take 32 data; vp_C := take 32 (drop 32 data); vp_S := take 32 (drop 64 data) |}.

Definition GenerateVRFKeyFromSeed (seed : bytes) : scalar * point :=
  let sk := sc_reduce seed in (sk, pt_mul sk pt_base).

(** ** Lemmas *)

Context `{!RistrettoLaws}.

Lemma VRF_Verify_Prove sk alpha proof :
  VRF_Prove sk alpha = Ok proof →
  VRF_Verify (VRF_PublicKey sk) alpha (Some proof) = Ok (vp_Gamma proof).
Proof.
  unfold VRF_Prove. intros Hp. cbv zeta in Hp.
  apply fail_if_pass in Hp as [HH Hp]. apply fail_if_pass in Hp as [Hy Hp].
  apply fail_if_pass in Hp as [Hg Hp]. apply fail_if_pass in Hp as [Huv Hp].
  injection Hp as <-. unfold VRF_Verify. cbn [vp_Gamma vp_C vp_S].
  rewrite pt_bytes_length, !sc_bytes_length, !sc_strict_bytes, pt_decode_bytes. simpl.
  unfold VRF_PublicKey. rewrite Hy, Hg, HH.
  rewrite !pt_mul_muladd, !pt_sub_add, Huv. by rewrite bool_decide_eq_true_2.
Qed.

Lemma Unmarshal_MarshalVRFProof p :
  length (vp_Gamma p) = 32 → length (vp_C p) = 32 → length (vp_S p) = 32 →
  UnmarshalVRFProof (MarshalVRFProof p) = Ok p.
Proof.
  intros Hg Hc Hs. unfold UnmarshalVRFProof, MarshalVRFProof. rewrite !length_app, Hg, Hc, Hs. simpl.
  f_equal. destruct p as [g c s]; simpl in *. f_equal.
  - rewrite take_app_le, take_ge by lia. done.
  - rewrite drop_app_le, drop_ge by lia. simpl. rewrite take_app_le, take_ge by lia. done.
  - replace 64 with (length g + 32) by lia. rewrite drop_app_add, drop_app_le, drop_ge by lia. simpl.
    rewrite take_ge by lia. done.
Qed.

Lemma VRF_Prove_lengths sk alpha proof :
  VRF_Prove sk alpha = Ok proof →
  length (vp_Gamma proof) = 32 ∧ length (vp_C proof) = 32 ∧ length (vp_S proof) = 32.
Proof.
  unfold VRF_Prove. intros Hp. cbv zeta in Hp.
  repeat (apply fail_if_pass in Hp as [_ Hp]). injection Hp as <-. simpl.
  auto using pt_bytes_length, sc_bytes_length.
Qed.
End vrf.
