(* ===== verification/Identity.v ===== *)
(** * Soulbound identities (pkg/identity: uid0.go, contract.go, cbor.go, registry.go)

    Key derivation is HKDF over the concrete HMAC-SHA-256 of [Sha256.v]. The canonical CBOR
    of an identity's public view is an operation of the codec, [cbor_public_view]. *)
From S2P Require Import Prelude Sha256 Crypto Errors Vrf.

Record UIDZeroSoulbound := MkUID {
  u_RootID : bytes;
  u_PublicKey : bytes;
  u_SecretKey : bytes;
  u_VRFPublicKey : bytes;
  u_VRFSecretKey : bytes;
  u_ContractHash : bytes;
  u_FinalDigest : bytes;
  u_Simulated : bool;
}.

#[export] Instance UIDZeroSoulbound_eq_dec : EqDecision UIDZeroSoulbound.
Proof. solve_decision. Defined.

Record publicView := MkPublicView {
  pv_RootID : bytes;
  pv_PublicKey : bytes;
  pv_VRFPublicKey : bytes;
  pv_ContractHash : bytes;
  pv_FinalDigest : bytes;
  pv_Simulated : bool;
}.

Class UidCbor := { cbor_public_view : publicView → option bytes }.

Inductive uid_error :=
| ErrInvalidEntropy | ErrSimulatedIdentity | ErrKeyDerivation | ErrUidCbor
| ErrRegistryNotFound | ErrInvalidKeySize | ErrRegistryDB.

(** [hex.EncodeToString(u.RootID[:])]. *)
Definition ID (u : UIDZeroSoulbound) : string := hex_encode (u_RootID u).

Definition hkdfExtract (salt ikm : bytes) : bytes := hmac_sha256 salt ikm.

(** The loop of [hkdfExpand]: one HMAC block per iteration, a one-byte counter. *)
Fixpoint hkdf_loop (fuel : nat) (prk info : bytes) (length_ : nat) (counter : Z) (t okm : bytes) : bytes :=
  match fuel with
  | O => okm
  | S fuel' =>
      if (length okm <? length_)%nat then
        let t' := hmac_sha256 prk (t ++ info ++ [counter]) in
        hkdf_loop fuel' prk info length_ ((counter + 1) mod 256)%Z t' (okm ++ t')
      else okm
  end.

Definition hkdfExpand (prk info : bytes) (length_ : nat) : bytes :=
  take length_ (hkdf_loop length_ prk info length_ 1 [] []).

Section uid.
Context `{Primitives, Ristretto, UidCbor}.

Definition generateVRFKey (seed : bytes) : option (bytes * bytes) :=
  if negb (length seed =? 32)%nat then None
  else
    let '(sk, pk) := GenerateVRFKeyFromSeed seed in
    Some (copy_array 32 (pt_bytes pk), sc_bytes sk).

(** [u.public()], with [FinalDigest] left zero. *)
Definition public (u : UIDZeroSoulbound) : publicView :=
  {| pv_RootID := u_RootID u; pv_PublicKey := u_PublicKey u; pv_VRFPublicKey := u_VRFPublicKey u;
     pv_ContractHash := u_ContractHash u; pv_FinalDigest := zeros 32; pv_Simulated := u_Simulated u |}.

Definition CalculateFinalDigest (u : UIDZeroSoulbound) : outcome uid_error bytes :=
  match cbor_public_view (public u) with
  | None => Err ErrUidCbor
  | Some data => Ok (Hash data)
  end.

Definition set_digest (u : UIDZeroSoulbound) (digest : bytes) : UIDZeroSoulbound :=
  {| u_RootID := u_RootID u; u_PublicKey := u_PublicKey u; u_SecretKey := u_SecretKey u;
     u_VRFPublicKey := u_VRFPublicKey u; u_VRFSecretKey := u_VRFSecretKey u;
     u_ContractHash := u_ContractHash u; u_FinalDigest := digest; u_Simulated := u_Simulated u |}.

Definition Seal (u : UIDZeroSoulbound) : outcome uid_error UIDZeroSoulbound :=
  (digest <-! CalculateFinalDigest u ;; Ok (set_digest u digest))%go.

Definition VerifyDigest (u : UIDZeroSoulbound) : bool :=
  match CalculateFinalDigest u with
  | Ok want => bool_decide (want = u_FinalDigest u)
  | _ => false
  end.

(** [NewUIDZero]; the variadic contract hash is [None] when absent. *)
Definition NewUIDZero (entropySource : string) (networkID : bytes) (simulated : bool)
    (contractHashOpt : option bytes) : outcome uid_error UIDZeroSoulbound :=
  if negb simulated && (String.length entropySource <? 32)%nat then Err ErrInvalidEntropy
  else
    let prk := hkdfExtract networkID (string_bytes entropySource) in
    let dilithiumSeed := hkdfExpand prk (string_bytes "3cp:v2:dilithium3") Dilithium3SeedSize in
    let vrfSeed := hkdfExpand prk (string_bytes "3cp:v2:vrf") 32 in
    let rootID := copy_array 16 (hkdfExpand prk (string_bytes "3cp:v2:rootid") 16) in
    let contractHashBytes := hkdfExpand prk (string_bytes "3cp:v2:contract") 32 in
    let contractHash := match contractHashOpt with
                        | Some h => h
                        | None => copy_array 32 contractHashBytes
                        end in
    match GenerateDilithiumKeyFromSeed dilithiumSeed with
    | None => Err ErrKeyDerivation
    | Some (dilithiumPK, dilithiumSK) =>
        match generateVRFKey vrfSeed with
        | None => Err ErrKeyDerivation
        | Some (vrfPK, vrfSK) =>
            Seal {| u_RootID := rootID; u_PublicKey := dilithiumPK; u_SecretKey := dilithiumSK;
                    u_VRFPublicKey := vrfPK; u_VRFSecretKey := vrfSK; u_ContractHash := contractHash;
                    u_FinalDigest := zeros 32; u_Simulated := simulated |}
        end
    end.

Definition RequireProduction (u : option UIDZeroSoulbound) : outcome uid_error unit :=
  match u with
  | None => Err ErrInvalidEntropy
  | Some u => fail_if (u_Simulated u) ErrSimulatedIdentity
  end.

Definition VRFProve (u : UIDZeroSoulbound) (alpha : bytes) : outcome vrf_error VRFProof :=
  (sk <-! VRFPrivateKeyFromBytes (u_VRFSecretKey u) ;; VRF_Prove sk alpha)%go.

Definition VRFVerifyProof (u : UIDZeroSoulbound) (alpha : bytes) (proof : option VRFProof) :
    outcome vrf_error bytes :=
  (pk <-! VRFPublicKeyFromBytes (u_VRFPublicKey u) ;; VRF_Verify pk alpha proof)%go.

Definition UID_SignDilithium (u : UIDZeroSoulbound) (msg : bytes) : bytes :=
  SignDilithium (u_SecretKey u) msg.

Definition UID_VerifyDilithium (u : UIDZeroSoulbound) (msg sig : bytes) : bool :=
  VerifyDilithium (u_PublicKey u) msg sig.

(** contract.go *)
Definition ContractHash (doc : bytes) : bytes := Hash doc.

Definition NewUIDZeroFromContract (contractHash : bytes) (nodeSalt : string) (simulated : bool) :
    outcome uid_error UIDZeroSoulbound :=
  let material := contractHash ++ string_bytes nodeSalt in
  NewUIDZero (hex_encode material) (copy_array 32 contractHash) simulated (Some contractHash).
End uid.

(** ** Registry (registry.go)

    The cache and the optional database bucket; [db_fails] is an error of the database
    transaction. *)
Module Registry.
Record Registry := MkRegistry {
  rg_db : option (gmap string bytes);
  rg_cache : gmap string bytes;
}.

Definition NewRegistry : Registry := {| rg_db := None; rg_cache := ∅ |}.

Definition Register (db_fails : bool) (r : Registry) (rootID : string) (pubKey : bytes) :
    Registry * outcome uid_error unit :=
  if negb (length pubKey =? 1952)%nat then (r, Err ErrInvalidKeySize)
  else
    let cache := <[rootID := pubKey]> (rg_cache r) in
    match rg_db r with
    | None => ({| rg_db := None; rg_cache := cache |}, Ok tt)
    | Some db =>
        if db_fails then ({| rg_db := Some db; rg_cache := cache |}, Err ErrRegistryDB)
        else ({| rg_db := Some (<[rootID := pubKey]> db); rg_cache := cache |}, Ok tt)
    end.

Definition Lookup (r : Registry) (rootID : string) : Registry * outcome uid_error bytes :=
  match rg_cache r !! rootID with
  | Some data => (r, Ok data)
  | None =>
      match rg_db r with
      | None => (r, Err ErrRegistryNotFound)
      | Some db =>
          match db !! rootID with
          | None => (r, Err ErrRegistryNotFound)
          | Some pubKey =>
              ({| rg_db := Some db; rg_cache := <[rootID := pubKey]> (rg_cache r) |}, Ok pubKey)
          end
      end
  end.

Definition Exists (r : Registry) (rootID : string) : bool :=
  match rg_cache r !! rootID with
  | Some _ => true
  | None => match rg_db r with Some db => bool_decide (is_Some (db !! rootID)) | None => false end
  end.

End Registry.
