(* ===== verification/IdentityTheorems.v ===== *)
(** * Properties of identities and of the verifiable random function *)
From S2P Require Import Prelude Sha256 Crypto Toy Errors Vrf Identity.

(** ** Key derivation *)

Lemma length_hmac_sha256 k m : length (hmac_sha256 k m) = 32.
Proof. apply length_sha256. Qed.

Lemma length_hkdf_loop fuel prk info n : ∀ counter t okm,
  n ≤ 32 * fuel + length okm → n ≤ length (hkdf_loop fuel prk info n counter t okm).
Proof.
  induction fuel as [|fuel IH]; intros counter t okm Hn; cbn [hkdf_loop]; [lia|].
  destruct (length okm <? n) eqn:E; [|apply Nat.ltb_ge in E; done].
  apply IH. rewrite length_app, length_hmac_sha256. lia.
Qed.

Lemma length_hkdfExpand prk info n : length (hkdfExpand prk info n) = n.
Proof.
  unfold hkdfExpand. rewrite length_take.
  pose proof (length_hkdf_loop n prk info n 1 [] []) as Hl. simpl in Hl. lia.
Qed.

Section theorems.
Context `{Primitives, Ristretto, UidCbor} `{!MldsaCorrect, !RistrettoLaws}.

(** The keys of an identity belong together. *)
Record uid_wf (u : UIDZeroSoulbound) : Prop := {
  uw_root : length (u_RootID u) = 16;
  uw_secret : length (u_SecretKey u) = Dilithium3SecretKeySize;
  uw_public : u_PublicKey u = mldsa_public (u_SecretKey u);
  uw_vrf : ∃ sk, u_VRFSecretKey u = sc_bytes sk ∧ u_VRFPublicKey u = pt_bytes (VRF_PublicKey sk);
}.

Lemma NewUIDZero_spec entropy net sim ch :
  (sim = true ∨ 32 ≤ String.length entropy) →
  (∀ v, is_Some (cbor_public_view v)) →
  ∃ u, NewUIDZero entropy net sim ch = Ok u ∧ uid_wf u ∧ VerifyDigest u = true ∧
       u_Simulated u = sim ∧ (∀ h, ch = Some h → u_ContractHash u = h).
Proof.
  intros Hent Hcbor. unfold NewUIDZero.
  replace (negb sim && (String.length entropy <? 32)%nat) with false
    by (symmetry; apply andb_false_iff; destruct Hent as [->|He]; [by left|right; by apply Nat.ltb_ge]).
  cbv zeta. set (prk := hkdfExtract _ _). unfold GenerateDilithiumKeyFromSeed, generateVRFKey.
  rewrite decide_True by apply length_hkdfExpand. rewrite length_hkdfExpand. cbn [Nat.eqb negb].
  set (dseed := hkdfExpand prk (string_bytes "3cp:v2:dilithium3") _).
  set (vseed := hkdfExpand prk (string_bytes "3cp:v2:vrf") _).
  unfold GenerateVRFKeyFromSeed. rewrite (copy_array_id 32 (pt_bytes _)) by apply pt_bytes_length.
  set (u0 := MkUID _ _ _ _ _ _ _ _). unfold Seal.
  assert (Hd : ∃ d, CalculateFinalDigest u0 = Ok d ∧ CalculateFinalDigest (set_digest u0 d) = Ok d).
  { unfold CalculateFinalDigest. change (public (set_digest u0 _)) with (public u0).
    destruct (Hcbor (public u0)) as [data Hdata]. rewrite Hdata. eauto. }
  destruct Hd as (d & Hd & Hd'). rewrite Hd. cbn [outcome_bind].
  exists (set_digest u0 d). split; [reflexivity|]. split_and!.
  - constructor; cbn [set_digest u0 u_RootID u_SecretKey u_PublicKey u_VRFSecretKey u_VRFPublicKey].
    + apply length_copy_array.
    + apply length_hkdfExpand.
    + reflexivity.
    + by eexists.
  - unfold VerifyDigest. rewrite Hd'. by apply bool_decide_eq_true.
  - reflexivity.
  - intros h Hh. subst u0. cbn [set_digest u_ContractHash]. by rewrite Hh.
Qed.

Lemma uid_vrf u alpha proof :
  uid_wf u → VRFProve u alpha = Ok proof →
  VRFVerifyProof u alpha (Some proof) = Ok (vp_Gamma proof) ∧
  UnmarshalVRFProof (MarshalVRFProof proof) = Ok proof.
Proof.
  intros [_ _ _ (sk & Hsk & Hpk)] Hp. unfold VRFProve, VRFPrivateKeyFromBytes in Hp.
  rewrite Hsk, sc_bytes_length, sc_reduce_bytes in Hp. simpl in Hp. split.
  - unfold VRFVerifyProof, VRFPublicKeyFromBytes. rewrite Hpk, pt_bytes_length, pt_decode_bytes. simpl.
    pose proof Hp as Hp'. unfold VRF_Prove in Hp'. cbv zeta in Hp'.
    apply fail_if_pass in Hp' as [_ Hp']. apply fail_if_pass in Hp' as [Hy _].
    unfold VRF_PublicKey at 1. rewrite Hy. by apply VRF_Verify_Prove.
  - destruct (VRF_Prove_lengths sk alpha proof Hp) as (? & ? & ?). by apply Unmarshal_MarshalVRFProof.
Qed.

Lemma uid_sign u msg :
  uid_wf u → UID_VerifyDilithium u msg (UID_SignDilithium u msg) = true.
Proof.
  intros [_ Hs Hp _]. unfold UID_VerifyDilithium, UID_SignDilithium. rewrite Hp.
  by apply VerifyDilithium_Sign.
Qed.

(** A VRF proof made with a secret key verifies under its public key for the same input,
    yields the proof's output, and survives its 96-byte wire form. *)
Theorem vrf_prove_verify sk alpha proof :
  VRF_Prove sk alpha = Ok proof →
  VRF_Verify (VRF_PublicKey sk) alpha (Some proof) = Ok (VRFOutput proof) ∧
  length (MarshalVRFProof proof) = VRFProofSize ∧
  UnmarshalVRFProof (MarshalVRFProof proof) = Ok proof.
Proof.
  intros Hp. split_and!.
  - by apply VRF_Verify_Prove.
  - destruct (VRF_Prove_lengths sk alpha proof Hp) as (Hg & Hc & Hs).
    unfold MarshalVRFProof. by rewrite !length_app, Hg, Hc, Hs.
  - destruct (VRF_Prove_lengths sk alpha proof Hp) as (? & ? & ?). by apply Unmarshal_MarshalVRFProof.
Qed.

(** Deriving an identity fails only for a production identity with less than 32 bytes of
    entropy; the identity's signatures and VRF proofs verify under its own public keys, its
    digest verifies, and production use is refused exactly for simulated ones. *)
Theorem uid_derivation entropy net sim ch :
  (∀ v, is_Some (cbor_public_view v)) →
  match NewUIDZero entropy net sim ch with
  | Ok u =>
      VerifyDigest u = true ∧ length (u_RootID u) = 16 ∧
      (∀ msg, UID_VerifyDilithium u msg (UID_SignDilithium u msg) = true) ∧
      (∀ alpha proof, VRFProve u alpha = Ok proof →
         VRFVerifyProof u alpha (Some proof) = Ok (VRFOutput proof)) ∧
      RequireProduction (Some u) = (if sim then Err ErrSimulatedIdentity else Ok tt)
  | Err e => e = ErrInvalidEntropy ∧ sim = false ∧ String.length entropy < 32
  | Panic => False
  end.
Proof.
  intros Hcbor. destruct (decide (sim = true ∨ 32 ≤ String.length entropy)) as [Hent|Hent].
  - destruct (NewUIDZero_spec entropy net sim ch Hent Hcbor) as (u & -> & Hwf & Hd & Hsim & _).
    split_and!; [done|by apply uw_root|intros; by apply uid_sign| |].
    + intros alpha proof Hp. by apply (uid_vrf u alpha proof Hwf Hp).
    + unfold RequireProduction. rewrite Hsim. by destruct sim.
  - apply Decidable.not_or in Hent as [Hs Hl]. destruct sim; [exfalso; by apply Hs|].
    assert (E : (String.length entropy <? 32)%nat = true) by (apply Nat.ltb_lt; lia).
    unfold NewUIDZero. rewrite E. cbn [negb andb]. split_and!; [done..|lia].
Qed.
End theorems.

(** ** A concrete group

    Integers modulo 101, the scalars being residues as well. *)

Record residue := MkResidue { res : Z; res_ok : bool_decide (0 <= res < 101)%Z = true }.

Lemma residue_ext a b : res a = res b → a = b.
Proof. destruct a as [a Ha], b as [b Hb]. simpl. intros ->. f_equal. apply (proof_irrel _ _). Qed.

#[export] Instance residue_eq_dec : EqDecision residue.
Proof.
  intros a b. destruct (decide (res a = res b)) as [E|E].
  - left. by apply residue_ext.
  - right. intros ->. done.
Defined.

Lemma mod_101_ok z : bool_decide (0 <= z mod 101 < 101)%Z = true.
Proof. apply bool_decide_eq_true. by apply Z.mod_pos_bound. Qed.

Definition to_residue (z : Z) : residue := MkResidue (z mod 101) (mod_101_ok z).

Definition residue_bytes (a : residue) : bytes := le_bytes 32 (res a).

Definition residue_decode (l : bytes) : option residue :=
  if decide (residue_bytes (to_residue (le_value l)) = l) then Some (to_residue (le_value l)) else None.

#[export] Instance ToyRistretto : Ristretto := {|
  point := residue; scalar := residue;
  pt_zero := to_residue 0;
  pt_add a b := to_residue (res a + res b);
  pt_sub a b := to_residue (res a - res b);
  pt_mul s p := to_residue (res s * res p);
  pt_base := to_residue 1;
  pt_bytes := residue_bytes; pt_decode := residue_decode;
  pt_elligator l := to_residue (le_value l + 1);
  sc_bytes := residue_bytes; sc_reduce l := to_residue (le_value l); sc_strict := residue_decode;
  sc_wide l := to_residue (le_value l);
  sc_muladd a b c := to_residue (res a * res b + res c);
  xmd_expand dst msg n := copy_array n (toy_digest (string_bytes dst ++ msg));
  hmac_sha512 k m := copy_array 64 (toy_digest (k ++ m));
|}.

Lemma res_bounds a : (0 <= res a < 101)%Z.
Proof. destruct a as [a Ha]. exact (proj1 (bool_decide_eq_true _) Ha). Qed.

Lemma to_residue_res a : to_residue (res a) = a.
Proof.
  apply residue_ext. simpl. apply Z.mod_small, res_bounds.
Qed.

Lemma residue_le_value a : to_residue (le_value (residue_bytes a)) = a.
Proof.
  rewrite <- (to_residue_res a) at 2. f_equal. unfold residue_bytes. rewrite le_value_le_bytes.
  apply Z.mod_small. pose proof (res_bounds a). lia.
Qed.

Lemma residue_decode_bytes a : residue_decode (residue_bytes a) = Some a.
Proof. unfold residue_decode. rewrite residue_le_value. by rewrite decide_True. Qed.

#[export] Instance toy_ristretto_laws : RistrettoLaws.
Proof.
  split; simpl; intros.
  - done.
  - apply residue_decode_bytes.
  - done.
  - apply residue_decode_bytes.
  - apply residue_le_value.
  - apply residue_ext. simpl.
    rewrite Zmult_mod_idemp_l, Zmult_mod_idemp_r, <- Zplus_mod. f_equal. ring.
  - rewrite <- (to_residue_res b) at 2. apply residue_ext. simpl.
    rewrite Zminus_mod_idemp_l. f_equal. ring.
Qed.

#[export] Instance ToyUidCbor : UidCbor := {| cbor_public_view v := Some (pv_RootID v ++ pv_PublicKey v) |}.

Definition toy_sk : @scalar ToyRistretto := to_residue 5.

Lemma vrf_prove_verify_witness :
  ∃ proof, VRF_Prove toy_sk [1%Z] = Ok proof ∧
  VRF_Verify (VRF_PublicKey toy_sk) [1%Z] (Some proof) = Ok (VRFOutput proof) ∧
  length (MarshalVRFProof proof) = VRFProofSize ∧
  UnmarshalVRFProof (MarshalVRFProof proof) = Ok proof.
Proof.
  destruct (VRF_Prove toy_sk [1%Z]) as [proof| |] eqn:E;
    [|vm_compute in E; discriminate E..].
  exists proof. split; [reflexivity|]. exact (vrf_prove_verify toy_sk [1%Z] proof E).
Defined.

Lemma uid_derivation_witness :
  match NewUIDZero "a seed of at least thirty-two bytes" (zeros 32) false None with
  | Ok u =>
      VerifyDigest u = true ∧ length (u_RootID u) = 16 ∧
      (∀ msg, UID_VerifyDilithium u msg (UID_SignDilithium u msg) = true) ∧
      (∀ alpha proof, VRFProve u alpha = Ok proof →
         VRFVerifyProof u alpha (Some proof) = Ok (VRFOutput proof)) ∧
      RequireProduction (Some u) = Ok tt
  | Err e => e = ErrInvalidEntropy ∧ false = false ∧
             String.length "a seed of at least thirty-two bytes" < 32
  | Panic => False
  end.
Proof.
  apply (uid_derivation "a seed of at least thirty-two bytes" (zeros 32) false None).
  intros v. by eexists.
Defined.
