(* ===== verification/Quorum.v ===== *)
(** * Quorums, proposer selection, degraded mode and rate limiting
    (pkg/consensus: node.go, quorum.go, triad.go, degraded.go, ratelimit.go, and
    verifyPrepareQuorum of commit.go) *)
From Stdlib Require Import SpecFloat.
From S2P Require Import Prelude Crypto Errors Vrf Identity Chain Config Rotation.

Record Peer := MkPeer {
  p_UID : UIDZeroSoulbound;
  p_Addr : string;
  p_Alive : bool;
}.

Record Node := MkNode_ {
  n_UID : UIDZeroSoulbound;
  n_Peers : list Peer;
  n_Addr : string;
}.

(** ** Bitmaps *)

(** [bitmap[i/8] & (1 << (i%8)) != 0]; an index out of range is a panic in the source, and
    every caller checks the range first. *)
Definition bit_at (bitmap : bytes) (i : nat) : bool :=
  match bitmap !! (i / 8)%nat with
  | Some b => Z.testbit b (Z.of_nat (i mod 8))
  | None => false
  end.

(** [bitmap[i/8] |= 1 << (i%8)]. *)
Definition set_bit (bitmap : bytes) (i : nat) : bytes :=
  match bitmap !! (i / 8)%nat with
  | Some b => <[(i / 8)%nat := Z.lor b (Z.shiftl 1 (Z.of_nat (i mod 8)))]> bitmap
  | None => bitmap
  end.

(** [make([]byte, (n+7)/8)]. *)
Definition empty_bitmap (n : nat) : bytes := zeros ((n + 7) / 8).

(** [countBitsBefore]. *)
Fixpoint countBitsBefore (bitmap : bytes) (pos : nat) : nat :=
  match pos with
  | O => 0
  | S i => countBitsBefore bitmap i + (if bit_at bitmap i then 1 else 0)
  end.

(** ** Quorum sizes *)

Definition QuorumRequired (n : nat) : nat := (2 * n + 2) / 3.

Definition nonNegative (n : Z) : Z := if (n <? 0)%Z then 0%Z else n.

Definition degraded_label : string := "3cp:degraded-block".

Section quorum.
Context `{Primitives}.

(** The inner loop of [VerifyQuorum]: the first unused key that verifies the signature. *)
Fixpoint first_signer (blockHash sig : bytes) (used : gset bytes) (pubKeys : list bytes) : option bytes :=
  match pubKeys with
  | [] => None
  | pk :: rest =>
      if (length pk =? 0)%nat || bool_decide (pk ∈ used) then first_signer blockHash sig used rest
      else if VerifyDilithium pk blockHash sig then Some pk
      else first_signer blockHash sig used rest
  end.

Fixpoint count_signers (blockHash : bytes) (sigs pubKeys : list bytes) (used : gset bytes)
    (validCount : nat) : nat :=
  match sigs with
  | [] => validCount
  | sig :: rest =>
      if (length sig =? 0)%nat then count_signers blockHash rest pubKeys used validCount
      else match first_signer blockHash sig used pubKeys with
           | Some pk => count_signers blockHash rest pubKeys ({[ pk ]} ∪ used) (S validCount)
           | None => count_signers blockHash rest pubKeys used validCount
           end
  end.

Definition VerifyQuorum (blockHash : bytes) (sigs pubKeys : list bytes) (quorum : QuorumConfig) :
    outcome gerror unit := (
  fail_if (negb (QuorumConfig_IsValid quorum)) ErrQuorumNotMet ;;!
  fail_if (Z.of_nat (count_signers blockHash sigs pubKeys ∅ 0) <? RequiredSigs quorum)%Z
    ErrQuorumNotMet)%go.

(** [VerifyQuorumLegacy]: three signatures against three keys. *)
Definition VerifyQuorumLegacy (blockHash : bytes) (sigs pubKeys : bytes * bytes * bytes) :
    outcome gerror unit :=
  let '(s0, s1, s2) := sigs in let '(k0, k1, k2) := pubKeys in
  if VerifyDilithium k0 blockHash s0 && VerifyDilithium k1 blockHash s1 && VerifyDilithium k2 blockHash s2
  then Ok tt else Err ErrQuorumNotMet.

(** [verifySignatureWithOverlap] of the engine, a function of its rotation validator. *)
Definition verifySignatureWithOverlap (v : KeyRotationValidator) (validatorID msg sig : bytes)
    (cycle : Z) : bool :=
  match GetActivePublicKey v validatorID cycle with
  | Ok keys => existsb (fun pk => VerifyDilithium pk msg sig) keys
  | _ => false
  end.

(** One peer's signature in [verifyPrepareQuorum]; [eng] is [None] for a nil engine. *)
Definition verify_peer_sig (eng : option KeyRotationValidator) (p : Peer) (blockHash sig : bytes)
    (cycle : Z) : bool :=
  match eng with
  | Some v => verifySignatureWithOverlap v (u_RootID (p_UID p)) blockHash sig cycle
  | None => VerifyDilithium (u_PublicKey (p_UID p)) blockHash sig
  end.

(** The loop of [verifyPrepareQuorum]; [None] is the early [return false]. *)
Fixpoint prepare_loop (eng : option KeyRotationValidator) (blockHash bitmap : bytes)
    (sigs : list bytes) (cycle : Z) (i : nat) (peers : list Peer) (verifiedCount : nat) : option nat :=
  match peers with
  | [] => Some verifiedCount
  | p :: rest =>
      if (length bitmap * 8 <=? i)%nat then prepare_loop eng blockHash bitmap sigs cycle (S i) rest verifiedCount
      else if negb (bit_at bitmap i) then prepare_loop eng blockHash bitmap sigs cycle (S i) rest verifiedCount
      else
        match sigs !! countBitsBefore bitmap i with
        | None => None
        | Some sig =>
            if negb (verify_peer_sig eng p blockHash sig cycle) then None
            else prepare_loop eng blockHash bitmap sigs cycle (S i) rest (S verifiedCount)
        end
  end.

Definition is_degraded_block (block : Block) : bool :=
  match b_Metadata block !! degraded_label with
  | Some val => bool_decide (val = string_bytes "true")
  | None => false
  end.

Definition verifyPrepareQuorum (block : Block) (peers : list Peer) (cycle : Z)
    (eng : option KeyRotationValidator) : bool :=
  match b_PrepareSigsBitmap block, b_PrepareSigs block with
  | Some bitmap, Some sigs =>
      let requiredQuorum := if is_degraded_block block then 1 else QuorumRequired (length peers) in
      match prepare_loop eng (b_BlockHash block) bitmap sigs cycle 0 peers 0 with
      | None => false
      | Some verifiedCount => (requiredQuorum <=? verifiedCount)%nat
      end
  | _, _ => false
  end.
End quorum.

(** ** Proposer selection (triad.go) *)

Definition makeAlpha (cycle : Z) (stateRoot : bytes) : bytes := le_bytes 8 cycle ++ stateRoot.

(** [lessThan]: lexicographic, then by length. *)
Fixpoint lessThan (a b : bytes) : bool :=
  match a, b with
  | x :: a', y :: b' => if negb (x =? y)%Z then (x <? y)%Z else lessThan a' b'
  | _, _ => (length a <? length b)%nat
  end.

Section selection.
Context `{Ristretto}.

(** The loop of [SelectProposerVRF]; [best] is the best peer so far with its proof and
    output. *)
Fixpoint select_loop (alpha : bytes) (peerProofs : gmap string VRFProof) (peers : list Peer)
    (best : option (Peer * VRFProof * bytes)) : outcome gerror (option (Peer * VRFProof * bytes)) :=
  match peers with
  | [] => Ok best
  | p :: rest =>
      match peerProofs !! ID (p_UID p) with
      | None => Err ErrIncompleteVRFProofs
      | Some proof =>
          match VRFVerifyProof (p_UID p) alpha (Some proof) with
          | Ok gamma =>
              let best' := match best with
                           | Some (_, _, bestGamma) =>
                               if lessThan gamma bestGamma then Some (p, proof, gamma) else best
                           | None => Some (p, proof, gamma)
                           end in
              select_loop alpha peerProofs rest best'
          | Err _ => Err ErrIncompleteVRFProofs
          | Panic => Panic
          end
      end
  end.

Definition SelectProposerVRF (peers : list Peer) (alpha : bytes) (peerProofs : gmap string VRFProof) :
    outcome gerror (Peer * VRFProof) :=
  match peers with
  | [] => Err ErrVRFSelectionFailed
  | _ =>
      match select_loop alpha peerProofs peers None with
      | Ok (Some (best, bestProof, _)) => Ok (best, bestProof)
      | Ok None => Err ErrVRFSelectionFailed
      | Err e => Err e
      | Panic => Panic
      end
  end.

Definition SelectProposer (peers : list Peer) (cycle : Z) (stateRoot : bytes)
    (peerProofs : gmap string VRFProof) : outcome gerror (Peer * VRFProof) :=
  SelectProposerVRF peers (makeAlpha cycle stateRoot) peerProofs.
End selection.

Definition SelectTriad (peers : list Peer) (proposerIdx n : nat) : outcome gerror (bytes * bytes * bytes) := (
  if (n =? 0)%nat then Panic else
  a <-! index peers proposerIdx ;;
  b <-! index peers ((proposerIdx + 1) mod n)%nat ;;
  c <-! index peers ((proposerIdx + 2) mod n)%nat ;;
  Ok (u_RootID (p_UID a), u_RootID (p_UID b), u_RootID (p_UID c)))%go.

(** ** Degraded mode (degraded.go) *)

Record DegradedMode := MkDegraded {
  dm_MinValidators : Z;
  dm_GraceCycles : Z;
  dm_consecutiveNormal : Z;
  dm_inDegraded : bool;
}.

Definition NewDegradedMode (minValidators graceCycles : Z) : DegradedMode :=
  {| dm_MinValidators := minValidators; dm_GraceCycles := graceCycles;
     dm_consecutiveNormal := 0; dm_inDegraded := false |}.

Definition set_degraded (d : DegradedMode) (consecutive : Z) (degraded : bool) : DegradedMode :=
  {| dm_MinValidators := dm_MinValidators d; dm_GraceCycles := dm_GraceCycles d;
     dm_consecutiveNormal := consecutive; dm_inDegraded := degraded |}.

(** The new mode, whether a transition occurred, and whether it is degraded. *)
Definition CheckDegradedTransition (d : DegradedMode) (currentValidators : Z) (quorumReached : bool) :
    DegradedMode * bool * bool :=
  if negb (dm_inDegraded d) then
    if (nonNegative currentValidators <? dm_MinValidators d)%Z
    then (set_degraded d 0 true, true, true)
    else (d, false, false)
  else if (dm_MinValidators d <=? nonNegative currentValidators)%Z && quorumReached then
    let consecutive := u64 (dm_consecutiveNormal d + 1) in
    if (dm_GraceCycles d <=? consecutive)%Z
    then (set_degraded d 0 false, true, false)
    else (set_degraded d consecutive true, false, true)
  else (set_degraded d 0 true, false, true).

Definition IsDegraded (d : DegradedMode) : bool := dm_inDegraded d.

Section degraded.
Context `{Primitives}.

(** The search loop of [ApplyDegradedBlock]: the first valid signature and its peer. *)
Fixpoint degraded_loop (blockHash bitmap : bytes) (sigs : list bytes) (peerIdx : nat)
    (peers : list Peer) (sigIdx : nat) : option (bytes * nat) :=
  match peers with
  | [] => None
  | p :: rest =>
      if (length bitmap <=? peerIdx / 8)%nat then None
      else if negb (bit_at bitmap peerIdx) then degraded_loop blockHash bitmap sigs (S peerIdx) rest sigIdx
      else
        match sigs !! sigIdx with
        | None => None
        | Some sig =>
            if (length sig =? 0)%nat then degraded_loop blockHash bitmap sigs (S peerIdx) rest (S sigIdx)
            else if VerifyDilithium (u_PublicKey (p_UID p)) blockHash sig then Some (sig, peerIdx)
            else degraded_loop blockHash bitmap sigs (S peerIdx) rest (S sigIdx)
        end
  end.

Definition set_sigs (b : Block) (bitmap : slice Z) (sigs : slice bytes) (md : gmap string bytes) : Block :=
  {| b_Index := b_Index b; b_PrevHash := b_PrevHash b; b_StateRoot := b_StateRoot b;
     b_Proposer := b_Proposer b; b_Anchored := b_Anchored b; b_Lambda1 := b_Lambda1 b;
     b_Timestamp := b_Timestamp b; b_Validators := b_Validators b; b_Quorum := b_Quorum b;
     b_BlockHash := b_BlockHash b; b_ProtocolVersion := b_ProtocolVersion b;
     b_PrepareSigsBitmap := bitmap; b_PrepareSigs := sigs; b_CommitSig := b_CommitSig b;
     b_ExternalAnchors := b_ExternalAnchors b; b_KeyRotationEpoch := b_KeyRotationEpoch b;
     b_LegacyAnchor := b_LegacyAnchor b; b_Metadata := md |}.

Definition ApplyDegradedBlock (d : DegradedMode) (block : Block) (peers : list Peer) :
    outcome gerror Block :=
  if negb (dm_inDegraded d) then Ok block
  else
    match degraded_loop (b_BlockHash block) (elems (b_PrepareSigsBitmap block))
            (elems (b_PrepareSigs block)) 0 peers 0 with
    | None => Err (ErrText "no valid signature in degraded mode")
    | Some (validSig, validPeerIdx) =>
        Ok (set_sigs block (Some (set_bit (empty_bitmap (length peers)) validPeerIdx))
              (Some [validSig]) (<[degraded_label := string_bytes "true"]> (b_Metadata block)))
    end.
End degraded.

(** ** Rate limiting (ratelimit.go)

    Times are nanoseconds of the monotonic clock; a window is the list of accepted times. *)

Record SubmitterLimiter := MkLimiter {
  sl_windows : gmap bytes (list Z);
  sl_maxPerWindow : Z;
  sl_windowDur : Z;
}.

Definition NewSubmitterLimiter (maxPerWindow windowDur : Z) : SubmitterLimiter :=
  {| sl_windows := ∅; sl_maxPerWindow := maxPerWindow; sl_windowDur := windowDur |}.

Definition set_windows (sl : SubmitterLimiter) (w : gmap bytes (list Z)) : SubmitterLimiter :=
  {| sl_windows := w; sl_maxPerWindow := sl_maxPerWindow sl; sl_windowDur := sl_windowDur sl |}.

Definition Allow (now : Z) (sl : SubmitterLimiter) (submitter : bytes) : SubmitterLimiter * bool :=
  let entries := default [] (sl_windows sl !! submitter) in
  let cutoff := (now - sl_windowDur sl)%Z in
  let valid := filter (fun t => cutoff < t)%Z entries in
  if (sl_maxPerWindow sl <=? Z.of_nat (length valid))%Z
  then (set_windows sl (<[submitter := valid]> (sl_windows sl)), false)
  else (set_windows sl (<[submitter := valid ++ [now]]> (sl_windows sl)), true).

Definition Cleanup (now : Z) (sl : SubmitterLimiter) : SubmitterLimiter :=
  let cutoff := (now - sl_windowDur sl * 2)%Z in
  set_windows sl (omap (fun entries =>
    match filter (fun t => cutoff < t)%Z entries with [] => None | valid => Some valid end) (sl_windows sl)).
