(* ===== verification/QuorumTheorems.v ===== *)
(** * Properties of quorums, proposer selection, degraded mode and rate limiting *)
From Stdlib Require Import SpecFloat.
From S2P Require Import Prelude Crypto Toy Errors Vrf Identity IdentityTheorems Chain ToyCbor ChainTheorems.
From S2P Require Import Config Rotation Quorum.

(** ** Quorum arithmetic *)

(** [QuorumRequired n] is the least integer not below two thirds of [n]. *)
Lemma QuorumRequired_bounds n : 2 * n ≤ 3 * QuorumRequired n < 2 * n + 3.
Proof. unfold QuorumRequired. 
  pose proof (Nat.div_mod_eq (2 * n + 2) 3). pose proof (Nat.mod_upper_bound (2 * n + 2) 3). lia.
Qed.

(** Indices below [n] selected by a predicate. *)
Definition selected (n : nat) (f : nat → bool) : list nat := filter (fun i => f i = true) (seq 0 n).

Lemma selected_S n f : selected (S n) f = selected n f ++ (if f n then [n] else []).
Proof.
  unfold selected. rewrite seq_S, filter_app. simpl. f_equal.
  rewrite filter_cons. destruct (f n); simpl; done.
Qed.

Lemma selected_intersection n f g :
  length (selected n f) + length (selected n g) ≤ n + length (selected n (fun i => f i && g i)).
Proof.
  induction n as [|n IH]; [done|].
  rewrite !selected_S, !length_app. destruct (f n), (g n); simpl; lia.
Qed.

(** Two sets of at least [QuorumRequired n] of [n] validators share more than a third. *)
Lemma quorum_intersection n f g :
  QuorumRequired n ≤ length (selected n f) → QuorumRequired n ≤ length (selected n g) →
  n ≤ 3 * length (selected n (fun i => f i && g i)).
Proof.
  intros Hf Hg. pose proof (selected_intersection n f g). pose proof (QuorumRequired_bounds n). lia.
Qed.

(** ** Signature quorums *)

Section quorum.
Context `{Primitives}.

Lemma first_signer_spec hash sig used pks pk :
  first_signer hash sig used pks = Some pk →
  pk ∈ pks ∧ pk ∉ used ∧ VerifyDilithium pk hash sig = true.
Proof.
  induction pks as [|k pks IH]; simpl; [done|].
  destruct (_ || _) eqn:E.
  - intros (? & ? & ?)%IH. set_solver.
  - apply orb_false_iff in E as [_ E]. apply bool_decide_eq_false in E.
    destruct (VerifyDilithium k hash sig) eqn:Ev; [intros [= ->]; set_solver|].
    intros (? & ? & ?)%IH. set_solver.
Qed.

Lemma count_signers_spec hash pks : ∀ sigs used c,
  ∃ signers, count_signers hash sigs pks used c = c + length signers ∧ NoDup signers ∧
    Forall (fun pk => pk ∈ pks ∧ pk ∉ used ∧ ∃ sig, sig ∈ sigs ∧ VerifyDilithium pk hash sig = true) signers.
Proof.
  induction sigs as [|sig sigs IH]; intros used c; simpl.
  { exists []. split_and!; [simpl; lia|constructor|constructor]. }
  assert (Hskip : ∀ signers, Forall (fun pk => pk ∈ pks ∧ pk ∉ used ∧
      ∃ s, s ∈ sigs ∧ VerifyDilithium pk hash s = true) signers →
    Forall (fun pk => pk ∈ pks ∧ pk ∉ used ∧
      ∃ s, s ∈ sig :: sigs ∧ VerifyDilithium pk hash s = true) signers).
  { intros signers Hs. eapply Forall_impl; [exact Hs|]. intros pk (? & ? & s & ? & ?).
    split_and!; auto. exists s. set_solver. }
  destruct (length sig =? 0)%nat.
  { destruct (IH used c) as (signers & ? & ? & ?). exists signers. auto. }
  destruct (first_signer hash sig used pks) as [pk|] eqn:Ef.
  - apply first_signer_spec in Ef as (Hin & Hnu & Hv).
    destruct (IH ({[pk]} ∪ used) (S c)) as (signers & Hc & Hnd & Hs).
    exists (pk :: signers). rewrite Forall_forall in Hs. split_and!.
    + rewrite Hc. simpl. lia.
    + constructor; [|done]. intros Hpk. destruct (Hs _ Hpk) as (_ & ? & _). set_solver.
    + constructor; [split_and!; [done..|]; exists sig; set_solver|].
      apply Forall_forall. intros k Hk. destruct (Hs _ Hk) as (? & ? & s & ? & ?).
      split_and!; [done|set_solver|]. exists s. set_solver.
  - destruct (IH used c) as (signers & ? & ? & ?). exists signers. auto.
Qed.

(** When [VerifyQuorum] accepts, at least [RequiredSigs] different public keys of the
    list each verify one of the signatures over the block hash. *)
Theorem verify_quorum_sound hash sigs pks q :
  VerifyQuorum hash sigs pks q = Ok tt →
  ∃ signers, NoDup signers ∧ (RequiredSigs q <= Z.of_nat (length signers))%Z ∧
    Forall (fun pk => pk ∈ pks ∧ ∃ sig, sig ∈ sigs ∧ VerifyDilithium pk hash sig = true) signers.
Proof.
  unfold VerifyQuorum. intros [_ Hq]%fail_if_pass. apply fail_if_Ok in Hq.
  destruct (count_signers_spec hash pks sigs ∅ 0) as (signers & Hc & Hnd & Hs).
  rewrite Hc in Hq. apply Z.ltb_ge in Hq. exists signers. split_and!; [done|lia|].
  eapply Forall_impl; [exact Hs|]. naive_solver.
Qed.

(** Peer [i] carries a valid signature for the block, at its place in the bitmap order. *)
Definition peer_signed (eng : option KeyRotationValidator) (block : Block) (peers : list Peer)
    (cycle : Z) (i : nat) : Prop :=
  ∃ p sig, peers !! i = Some p ∧ bit_at (elems (b_PrepareSigsBitmap block)) i = true ∧
    elems (b_PrepareSigs block) !! countBitsBefore (elems (b_PrepareSigsBitmap block)) i = Some sig ∧
    verify_peer_sig eng p (b_BlockHash block) sig cycle = true.

Lemma bit_at_range bitmap i : bit_at bitmap i = true → i < length bitmap * 8.
Proof.
  unfold bit_at. destruct (bitmap !! (i / 8)) eqn:E; [|done]. intros _.
  apply lookup_lt_Some in E. pose proof (Nat.div_mod_eq i 8). pose proof (Nat.mod_upper_bound i 8). lia.
Qed.

Lemma prepare_loop_spec eng hash bitmap sigs cycle : ∀ peers i c r,
  prepare_loop eng hash bitmap sigs cycle i peers c = Some r →
  r = c + length (filter (fun j => bit_at bitmap j = true) (seq i (length peers))) ∧
  ∀ j, i ≤ j → j < i + length peers → bit_at bitmap j = true →
    ∃ p sig, peers !! (j - i) = Some p ∧ sigs !! countBitsBefore bitmap j = Some sig ∧
             verify_peer_sig eng p hash sig cycle = true.
Proof.
  induction peers as [|p peers IH]; intros i c r; simpl.
  { intros [= <-]. split; [lia|]. intros j ? ?. lia. }
  assert (Hskip : bit_at bitmap i = false →
    prepare_loop eng hash bitmap sigs cycle (S i) peers c = Some r →
    r = c + length (filter (fun j => bit_at bitmap j = true) (i :: seq (S i) (length peers))) ∧
    ∀ j, i ≤ j → j < i + S (length peers) → bit_at bitmap j = true →
      ∃ p' sig, (p :: peers) !! (j - i) = Some p' ∧ sigs !! countBitsBefore bitmap j = Some sig ∧
                verify_peer_sig eng p' hash sig cycle = true).
  { intros Hb Hr. destruct (IH _ _ _ Hr) as [Hc Hs]. rewrite filter_cons, Hb. simpl. split; [done|].
    intros j Hj1 Hj2 Hbit. assert (j ≠ i) by congruence.
    destruct (Hs j) as (p' & sig & Hp & ? & ?); [lia..|done|]. exists p', sig.
    replace (j - i) with (S (j - S i)) by lia. done. }
  destruct (length bitmap * 8 <=? i) eqn:E1.
  { apply Nat.leb_le in E1. apply Hskip. destruct (bit_at bitmap i) eqn:Eb; [|done].
    apply bit_at_range in Eb. lia. }
  destruct (bit_at bitmap i) eqn:Eb; simpl; [|by apply Hskip].
  destruct (sigs !! countBitsBefore bitmap i) as [sig|] eqn:Es; [|done].
  destruct (verify_peer_sig eng p hash sig cycle) eqn:Ev; simpl; [|done].
  intros Hr. destruct (IH _ _ _ Hr) as [Hc Hs]. rewrite filter_cons, Eb. simpl. split; [lia|].
  intros j Hj1 Hj2 Hbit. destruct (decide (j = i)) as [->|Hne].
  - exists p, sig. by rewrite Nat.sub_diag.
  - destruct (Hs j) as (p' & sig' & Hp & ? & ?); [lia..|done|]. exists p', sig'.
    replace (j - i) with (S (j - S i)) by lia. done.
Qed.

Lemma verifyPrepareQuorum_signers block peers cycle eng :
  verifyPrepareQuorum block peers cycle eng = true →
  let signers := selected (length peers) (bit_at (elems (b_PrepareSigsBitmap block))) in
  (if is_degraded_block block then 1 else QuorumRequired (length peers)) ≤ length signers ∧
  Forall (peer_signed eng block peers cycle) signers.
Proof.
  unfold verifyPrepareQuorum, peer_signed. intros Hv.
  destruct (b_PrepareSigsBitmap block) as [bitmap|]; [|done].
  destruct (b_PrepareSigs block) as [sigs|]; [|done]. simpl in *.
  destruct (prepare_loop eng (b_BlockHash block) bitmap sigs cycle 0 peers 0) as [r|] eqn:El; [|done].
  apply Nat.leb_le in Hv. destruct (prepare_loop_spec _ _ _ _ _ _ _ _ _ El) as [Hc Hs]. simpl in Hc.
  unfold selected. split; [by rewrite <- Hc|].
  apply Forall_forall. intros i [Hb Hi]%list_elem_of_filter. apply elem_of_seq in Hi.
  destruct (Hs i) as (p & sig & Hp & ? & ?); [lia..|done|]. exists p, sig.
  rewrite Nat.sub_0_r in Hp. done.
Qed.

(** A block that passes [verifyPrepareQuorum] and is not labelled degraded carries, for
    at least two thirds of the validators, a signature over its hash that verifies under
    the key of that very validator. *)
Theorem prepare_quorum_sound block peers cycle eng :
  verifyPrepareQuorum block peers cycle eng = true → is_degraded_block block = false →
  ∃ signers, NoDup signers ∧ 2 * length peers ≤ 3 * length signers ∧
    Forall (peer_signed eng block peers cycle) signers.
Proof.
  intros Hv Hd. destruct (verifyPrepareQuorum_signers _ _ _ _ Hv) as [Hq Hs]. rewrite Hd in Hq.
  eexists. split_and!; [|exact (Nat.le_trans _ _ _ (proj1 (QuorumRequired_bounds _)) (Nat.mul_le_mono_l _ _ 3 Hq))|exact Hs].
  apply NoDup_filter, NoDup_seq.
Qed.

(** C5: Agreement. If two blocks both pass [verifyPrepareQuorum] in a cycle and neither is
    labelled degraded, then at least a third of the validators have valid signatures on
    both hashes; so with fewer than a third of them signing two hashes, the hashes agree. *)
Theorem prepare_quorum_agreement b1 b2 peers cycle eng :
  verifyPrepareQuorum b1 peers cycle eng = true → verifyPrepareQuorum b2 peers cycle eng = true →
  is_degraded_block b1 = false → is_degraded_block b2 = false →
  ∃ both, NoDup both ∧ length peers ≤ 3 * length both ∧
    Forall (fun i => peer_signed eng b1 peers cycle i ∧ peer_signed eng b2 peers cycle i) both.
Proof.
  intros H1 H2 D1 D2.
  destruct (verifyPrepareQuorum_signers _ _ _ _ H1) as [Q1 S1].
  destruct (verifyPrepareQuorum_signers _ _ _ _ H2) as [Q2 S2]. rewrite D1 in Q1. rewrite D2 in Q2.
  exists (selected (length peers) (fun i => bit_at (elems (b_PrepareSigsBitmap b1)) i &&
                                            bit_at (elems (b_PrepareSigsBitmap b2)) i)).
  split_and!.
  - apply NoDup_filter, NoDup_seq.
  - by apply quorum_intersection.
  - rewrite Forall_forall in S1, S2. apply Forall_forall.
    intros i [[Hb1 Hb2]%andb_true_iff Hi]%list_elem_of_filter.
    split; [apply S1|apply S2]; by apply list_elem_of_filter.
Qed.
End quorum.

(** ** Single-signature blocks *)

Lemma div8_range n i : i < n → i / 8 < (n + 7) / 8.
Proof.
  intros Hi. pose proof (Nat.div_mod_eq i 8). pose proof (Nat.mod_upper_bound i 8).
  pose proof (Nat.div_mod_eq (n + 7) 8). pose proof (Nat.mod_upper_bound (n + 7) 8). lia.
Qed.

Lemma lookup_empty_bitmap n k : empty_bitmap n !! k = if decide (k < (n + 7) / 8) then Some 0%Z else None.
Proof.
  unfold empty_bitmap, zeros. case_decide.
  - by apply lookup_replicate_2.
  - apply lookup_ge_None. rewrite length_replicate. lia.
Qed.

Lemma bit_at_single n i j : i < n → bit_at (set_bit (empty_bitmap n) i) j = (j =? i).
Proof.
  intros Hi%div8_range. unfold set_bit. rewrite lookup_empty_bitmap, decide_True by done.
  unfold bit_at. destruct (decide (j / 8 = i / 8)) as [E|E].
  - rewrite E, list_lookup_insert_eq by (unfold empty_bitmap; rewrite length_zeros; done).
    rewrite Z.lor_0_l, Z.shiftl_1_l, Z.pow2_bits_eqb by lia.
    pose proof (Nat.div_mod_eq i 8). pose proof (Nat.div_mod_eq j 8).
    destruct (Nat.eqb_spec j i) as [->|Hne]; [by apply Z.eqb_eq|]. apply Z.eqb_neq. lia.
  - rewrite list_lookup_insert_ne, lookup_empty_bitmap by done.
    assert (j ≠ i) by congruence. rewrite (proj2 (Nat.eqb_neq j i)) by done.
    case_decide; [by rewrite Z.testbit_0_l|done].
Qed.

Lemma countBitsBefore_single n i k : i < n → k ≤ i → countBitsBefore (set_bit (empty_bitmap n) i) k = 0.
Proof.
  intros Hi. induction k as [|k IH]; intros Hk; [done|]. cbn [countBitsBefore].
  rewrite IH, bit_at_single, (proj2 (Nat.eqb_neq k i)) by lia. done.
Qed.

Section single.
Context `{Primitives}.

Lemma prepare_loop_single eng hash sig cycle n i p : ∀ peers k c,
  i < n → (i < k ∨ peers !! (i - k) = Some p) → verify_peer_sig eng p hash sig cycle = true →
  prepare_loop eng hash (set_bit (empty_bitmap n) i) [sig] cycle k peers c =
    Some (c + if decide (k ≤ i < k + length peers) then 1 else 0).
Proof.
  induction peers as [|q peers IH]; intros k c Hi Hp Hv; simpl.
  { rewrite decide_False by lia. f_equal. lia. }
  assert (Hnext : k ≠ i → ∀ c', prepare_loop eng hash (set_bit (empty_bitmap n) i) [sig] cycle (S k) peers c' =
    Some (c' + if decide (k ≤ i < k + S (length peers)) then 1 else 0)).
  { intros Hne c'. rewrite IH; [repeat case_decide; lia || done|done| |done].
    destruct Hp as [Hp|Hp]; [left; lia|]. destruct (decide (i < k)); [left; lia|].
    right. replace (i - k) with (S (i - S k)) in Hp by lia. done. }
  rewrite bit_at_single by done. destruct (decide (k = i)) as [->|Hne].
  - rewrite Nat.eqb_refl. simpl. rewrite countBitsBefore_single by lia. simpl.
    destruct Hp as [Hp|Hp]; [lia|]. rewrite Nat.sub_diag in Hp. injection Hp as ->. rewrite Hv. simpl.
    destruct (_ <=? i) eqn:E.
    { apply Nat.leb_le in E. pose proof (bit_at_range (set_bit (empty_bitmap n) i) i) as Hr.
      rewrite bit_at_single, Nat.eqb_refl in Hr by done. specialize (Hr eq_refl). lia. }
    rewrite IH by (auto; left; lia). repeat case_decide; try lia. f_equal. lia.
  - rewrite (proj2 (Nat.eqb_neq k i)) by done. simpl. destruct (_ <=? k); by apply Hnext.
Qed.

(** A block carrying one valid signature, its bit, and the degraded label. *)
Definition single_signed (block : Block) (n i : nat) (sig : bytes) (md : gmap string bytes) : Block :=
  set_sigs block (Some (set_bit (empty_bitmap n) i)) (Some [sig]) md.

Lemma verify_single block peers cycle eng i p sig md :
  peers !! i = Some p → verify_peer_sig eng p (b_BlockHash block) sig cycle = true →
  verifyPrepareQuorum (single_signed block (length peers) i sig md) peers cycle eng =
    ((if is_degraded_block (single_signed block (length peers) i sig md) then 1
      else QuorumRequired (length peers)) <=? 1)%nat.
Proof.
  intros Hp Hv. pose proof (lookup_lt_Some _ _ _ Hp) as Hi. unfold verifyPrepareQuorum.
  cbn [b_PrepareSigsBitmap b_PrepareSigs b_BlockHash single_signed set_sigs].
  rewrite (prepare_loop_single eng (b_BlockHash block) sig cycle (length peers) i p peers 0 0);
    [|done|right; by rewrite Nat.sub_0_r|done].
  rewrite decide_True by lia. done.
Qed.

(** The degraded label decides the quorum but is not covered by the block hash: adding
    it to a block changes neither the hash nor any signature, and reduces the signatures
    [verifyPrepareQuorum] asks for from two thirds of the validators to one. *)
Theorem degraded_label_lowers_quorum `{Cbor} block peers cycle eng i p sig :
  peers !! i = Some p → verify_peer_sig eng p (b_BlockHash block) sig cycle = true →
  is_degraded_block block = false → 2 ≤ length peers →
  let plain := single_signed block (length peers) i sig (b_Metadata block) in
  let labelled := single_signed block (length peers) i sig
                    (<[degraded_label := string_bytes "true"]> (b_Metadata block)) in
  verifyPrepareQuorum plain peers cycle eng = false ∧
  verifyPrepareQuorum labelled peers cycle eng = true ∧
  ComputeBlockHash labelled = ComputeBlockHash plain ∧ b_BlockHash labelled = b_BlockHash plain.
Proof.
  intros Hp Hv Hd Hn plain labelled. split_and!; try done.
  - unfold plain. rewrite (verify_single block peers cycle eng i p) by done.
    replace (is_degraded_block (single_signed _ _ _ _ _)) with false by (by symmetry).
    apply Nat.leb_gt. pose proof (QuorumRequired_bounds (length peers)). lia.
  - unfold labelled. rewrite (verify_single block peers cycle eng i p) by done.
    unfold is_degraded_block. cbn [b_Metadata single_signed set_sigs].
    rewrite lookup_insert_eq, bool_decide_eq_true_2; done.
Qed.

Lemma degraded_loop_spec hash bitmap sigs : ∀ peers k sIdx sig i,
  degraded_loop hash bitmap sigs k peers sIdx = Some (sig, i) →
  k ≤ i ∧ ∃ p, peers !! (i - k) = Some p ∧ sig ∈ sigs ∧ bit_at bitmap i = true ∧
    VerifyDilithium (u_PublicKey (p_UID p)) hash sig = true.
Proof.
  induction peers as [|p peers IH]; intros k sIdx sig i; simpl; [done|].
  assert (Hnext : ∀ s, degraded_loop hash bitmap sigs (S k) peers s = Some (sig, i) →
    k ≤ i ∧ ∃ p', (p :: peers) !! (i - k) = Some p' ∧ sig ∈ sigs ∧ bit_at bitmap i = true ∧
      VerifyDilithium (u_PublicKey (p_UID p')) hash sig = true).
  { intros s (Hk & p' & Hp & Hrest)%IH. split; [lia|]. exists p'.
    replace (i - k) with (S (i - S k)) by lia. done. }
  destruct (_ <=? _); [done|]. destruct (bit_at bitmap k) eqn:Eb; simpl; [|apply Hnext].
  destruct (sigs !! sIdx) as [s|] eqn:Es; [|done].
  destruct (length s =? 0)%nat; [apply Hnext|].
  destruct (VerifyDilithium (u_PublicKey (p_UID p)) hash s) eqn:Ev; [|apply Hnext].
  intros [= <- <-]. split; [lia|]. exists p. rewrite Nat.sub_diag.
  split_and!; [done|by eapply list_elem_of_lookup_2|done|done].
Qed.

(** In degraded mode [ApplyDegradedBlock] either reports that no signature is valid or
    leaves exactly one signature, of a peer whose bit was set and that verifies under that
    peer's key, with a bitmap and a label under which the block still passes
    [verifyPrepareQuorum]; the hash is unchanged. *)
Theorem apply_degraded_sound `{Cbor} d block block' peers cycle :
  IsDegraded d = true → ApplyDegradedBlock d block peers = Ok block' →
  verifyPrepareQuorum block' peers cycle None = true ∧
  ComputeBlockHash block' = ComputeBlockHash block ∧ is_degraded_block block' = true ∧
  ∃ i p sig, peers !! i = Some p ∧ bit_at (elems (b_PrepareSigsBitmap block)) i = true ∧
    sig ∈ elems (b_PrepareSigs block) ∧ b_PrepareSigs block' = Some [sig] ∧
    VerifyDilithium (u_PublicKey (p_UID p)) (b_BlockHash block) sig = true.
Proof.
  unfold IsDegraded, ApplyDegradedBlock. intros -> Ha. simpl in Ha.
  destruct (degraded_loop _ _ _ 0 peers 0) as [[sig i]|] eqn:El; [|done]. injection Ha as <-.
  apply degraded_loop_spec in El as (_ & p & Hp & Hin & Hb & Hv). rewrite Nat.sub_0_r in Hp.
  set (md := <[degraded_label := _]> _).
  change (set_sigs block _ _ md) with (single_signed block (length peers) i sig md).
  assert (Hd : is_degraded_block (single_signed block (length peers) i sig md) = true).
  { unfold is_degraded_block. cbn [b_Metadata single_signed set_sigs]. unfold md.
    by rewrite lookup_insert_eq, bool_decide_eq_true_2. }
  split_and!; try done.
  - rewrite (verify_single block peers cycle None i p) by done. by rewrite Hd.
  - exists i, p, sig. done.
Qed.
End single.

(** ** Concrete instances *)

(** A validator whose keys come from one small number. *)
Definition demo_uid (k : Z) : UIDZeroSoulbound :=
  {| u_RootID := k :: zeros 15; u_PublicKey := toy_public (key32 k); u_SecretKey := key32 k;
     u_VRFPublicKey := pt_bytes (VRF_PublicKey (to_residue k)); u_VRFSecretKey := residue_bytes (to_residue k);
     u_ContractHash := zeros 32; u_FinalDigest := zeros 64; u_Simulated := false |}.

Definition demo_peer (k : Z) : Peer := {| p_UID := demo_uid k; p_Addr := ""; p_Alive := true |}.

Definition demo_peers : list Peer := [demo_peer 1; demo_peer 2; demo_peer 3].

(** A block with the hash [key32 h] signed by validators 1 and 2 of three. *)
Definition demo_signed (h : Z) : Block :=
  let b := demo_block 0 in
  {| b_Index := b_Index b; b_PrevHash := b_PrevHash b; b_StateRoot := b_StateRoot b;
     b_Proposer := b_Proposer b; b_Anchored := b_Anchored b; b_Lambda1 := b_Lambda1 b;
     b_Timestamp := b_Timestamp b; b_Validators := b_Validators b; b_Quorum := b_Quorum b;
     b_BlockHash := key32 h; b_ProtocolVersion := b_ProtocolVersion b;
     b_PrepareSigsBitmap := Some [3%Z];
     b_PrepareSigs := Some [SignDilithium (key32 1) (key32 h); SignDilithium (key32 2) (key32 h)];
     b_CommitSig := []; b_ExternalAnchors := b_ExternalAnchors b;
     b_KeyRotationEpoch := b_KeyRotationEpoch b; b_LegacyAnchor := b_LegacyAnchor b;
     b_Metadata := ∅ |}.

Definition demo_quorum : QuorumConfig := {| RequiredSigs := 2; TotalValidators := 3 |}.

Lemma verify_quorum_sound_witness :
  ∃ signers, NoDup signers ∧ (2 <= Z.of_nat (length signers))%Z ∧
    Forall (fun pk => pk ∈ ((fun p => u_PublicKey (p_UID p)) <$> demo_peers) ∧
      ∃ sig, sig ∈ elems (b_PrepareSigs (demo_signed 9)) ∧ VerifyDilithium pk (key32 9) sig = true) signers.
Proof.
  apply (verify_quorum_sound (key32 9) (elems (b_PrepareSigs (demo_signed 9)))
           ((fun p => u_PublicKey (p_UID p)) <$> demo_peers) demo_quorum).
  vm_compute. reflexivity.
Defined.

Lemma prepare_quorum_sound_witness :
  ∃ signers, NoDup signers ∧ 6 ≤ 3 * length signers ∧
    Forall (peer_signed None (demo_signed 9) demo_peers 4) signers.
Proof.
  apply (prepare_quorum_sound (demo_signed 9) demo_peers 4 None); vm_compute; reflexivity.
Defined.

Lemma prepare_quorum_agreement_witness :
  ∃ both, NoDup both ∧ 3 ≤ 3 * length both ∧
    Forall (fun i => peer_signed None (demo_signed 9) demo_peers 4 i ∧
                     peer_signed None (demo_signed 8) demo_peers 4 i) both.
Proof.
  apply (prepare_quorum_agreement (demo_signed 9) (demo_signed 8) demo_peers 4 None); vm_compute; reflexivity.
Defined.

Lemma degraded_label_lowers_quorum_witness :
  ∃ block labelled,
    verifyPrepareQuorum block demo_peers 4 None = false ∧
    verifyPrepareQuorum labelled demo_peers 4 None = true ∧
    ComputeBlockHash labelled = ComputeBlockHash block.
Proof.
  destruct (degraded_label_lowers_quorum (demo_signed 9) demo_peers 4 None 1 (demo_peer 2)
    (SignDilithium (key32 2) (key32 9))) as (H1 & H2 & H3 & _).
  - reflexivity.
  - vm_compute. reflexivity.
  - vm_compute. reflexivity.
  - simpl. lia.
  - eexists _, _. split_and!; [exact H1|exact H2|exact H3].
Defined.

Definition demo_degraded : DegradedMode :=
  {| dm_MinValidators := 4; dm_GraceCycles := 2; dm_consecutiveNormal := 0; dm_inDegraded := true |}.

Lemma apply_degraded_sound_witness :
  ∃ block', ApplyDegradedBlock demo_degraded (demo_signed 9) demo_peers = Ok block' ∧
    verifyPrepareQuorum block' demo_peers 4 None = true.
Proof.
  destruct (ApplyDegradedBlock demo_degraded (demo_signed 9) demo_peers) as [b| |] eqn:E;
    [|vm_compute in E; discriminate E..].
  exists b. split; [reflexivity|].
  exact (proj1 (apply_degraded_sound demo_degraded (demo_signed 9) b demo_peers 4 eq_refl E)).
Defined.
