(* ===== verification/TriadTheorems.v ===== *)
(** * Proposer selection, degraded mode and rate limiting: properties

    Selection returns the peer with the least VRF output and is the same for every order
    of the peer list; the degraded-mode counter implements "since the last shortage there
    was no run of GraceCycles good cycles"; the rate limiter, with its pruning and its
    clean-ups, decides like a reference that keeps every accepted time. *)
From Stdlib Require Import SpecFloat.
From S2P Require Import Prelude Crypto Toy Errors Vrf Identity IdentityTheorems Chain Config Rotation.
From S2P Require Import Quorum QuorumTheorems.

(** ** Proposer selection *)

Lemma lessThan_bytes_ltb a : ∀ b, lessThan a b = bytes_ltb a b.
Proof.
  induction a as [|x a IH]; intros [|y b]; try done. cbn [lessThan bytes_ltb].
  destruct (Z.eqb_spec x y) as [->|Hne]; simpl.
  - by rewrite decide_True, IH.
  - by rewrite decide_False.
Qed.

Lemma makeAlpha_inj c1 c2 r1 r2 :
  u64_ok c1 → u64_ok c2 → makeAlpha c1 r1 = makeAlpha c2 r2 → c1 = c2 ∧ r1 = r2.
Proof.
  intros H1 H2 [Hc Hr]%app_inj_length; [|by rewrite !length_le_bytes].
  split; [by apply le64_inj|done].
Qed.

Section selection.
Context `{Ristretto}.

Lemma VRFVerifyProof_no_panic u alpha proof : VRFVerifyProof u alpha proof ≠ Panic.
Proof.
  unfold VRFVerifyProof, VRFPublicKeyFromBytes, VRF_Verify.
  repeat (case_match || simpl); done.
Qed.

(** The verified VRF output of a peer under the collected proofs. *)
Definition peer_output (alpha : bytes) (proofs : gmap string VRFProof) (p : Peer) : option bytes :=
  match proofs !! ID (p_UID p) with
  | Some proof => match VRFVerifyProof (p_UID p) alpha (Some proof) with Ok g => Some g | _ => None end
  | None => None
  end.

(** What the loop's best candidate means with respect to the peers seen so far. *)
Definition best_of (alpha : bytes) (proofs : gmap string VRFProof) (seen : list Peer)
    (best : option (Peer * VRFProof * bytes)) : Prop :=
  match best with
  | None => seen = []
  | Some (p, proof, g) =>
      p ∈ seen ∧ proofs !! ID (p_UID p) = Some proof ∧ peer_output alpha proofs p = Some g ∧
      ∀ q gq, q ∈ seen → peer_output alpha proofs q = Some gq → lessThan gq g = false
  end.

Lemma best_of_step alpha proofs seen best p proof g :
  best_of alpha proofs seen best → proofs !! ID (p_UID p) = Some proof →
  peer_output alpha proofs p = Some g →
  best_of alpha proofs (seen ++ [p])
    (match best with
     | Some (_, _, bg) => if lessThan g bg then Some (p, proof, g) else best
     | None => Some (p, proof, g)
     end).
Proof.
  intros Hb Hpf Hg. destruct best as [[[b bp] bg]|]; simpl in Hb.
  - destruct Hb as (Hin & Hbp & Hbg & Hmin). destruct (lessThan g bg) eqn:El; simpl.
    + split_and!; [set_solver|done|done|]. intros q gq [Hq|Hq]%elem_of_app Hgq.
      * specialize (Hmin q gq Hq Hgq). rewrite !lessThan_bytes_ltb in *.
        destruct (bytes_ltb gq g) eqn:E; [|done]. by rewrite (bytes_ltb_trans gq g bg E El) in Hmin.
      * apply list_elem_of_singleton in Hq as ->. rewrite Hg in Hgq. injection Hgq as ->.
        rewrite lessThan_bytes_ltb. apply bytes_ltb_irrefl.
    + split_and!; [set_solver|done|done|]. intros q gq [Hq|Hq]%elem_of_app Hgq; [by eapply Hmin|].
      apply list_elem_of_singleton in Hq as ->. congruence.
  - subst seen. simpl. split_and!; [set_solver|done|done|].
    intros q gq ->%list_elem_of_singleton Hgq. rewrite Hg in Hgq. injection Hgq as ->.
    rewrite lessThan_bytes_ltb. apply bytes_ltb_irrefl.
Qed.

Lemma select_loop_spec alpha proofs : ∀ peers seen best,
  best_of alpha proofs seen best →
  match select_loop alpha proofs peers best with
  | Ok best' => best_of alpha proofs (seen ++ peers) best' ∧
                Forall (fun p => is_Some (peer_output alpha proofs p)) peers
  | Err e => e = ErrIncompleteVRFProofs ∧ Exists (fun p => peer_output alpha proofs p = None) peers
  | Panic => False
  end.
Proof.
  induction peers as [|p peers IH]; intros seen best Hb; simpl; [by rewrite app_nil_r|].
  destruct (proofs !! ID (p_UID p)) as [proof|] eqn:Ep.
  2:{ split; [done|]. left. unfold peer_output. by rewrite Ep. }
  assert (Ho : peer_output alpha proofs p =
    match VRFVerifyProof (p_UID p) alpha (Some proof) with Ok g => Some g | _ => None end)
    by (unfold peer_output; by rewrite Ep).
  destruct (VRFVerifyProof (p_UID p) alpha (Some proof)) as [g|e|] eqn:Ev.
  - pose proof (IH _ _ (best_of_step _ _ _ _ p proof g Hb Ep Ho)) as Hr.
    destruct (select_loop alpha proofs peers _) as [best'|e|]; [|destruct Hr; split; [done|by right]|done].
    destruct Hr as [Hr Hall]. rewrite <- app_assoc in Hr. split; [done|].
    constructor; [by rewrite Ho|done].
  - split; [done|]. by left.
  - by apply VRFVerifyProof_no_panic in Ev.
Qed.

(** Proposer selection either elects a peer of the list, with its own proof, whose
    verified VRF output no other peer's output is below, every peer having supplied a
    valid proof; or fails, and then the list is empty or some peer has no valid proof. *)
Theorem select_proposer_spec peers cycle root proofs :
  let alpha := makeAlpha cycle root in
  match SelectProposer peers cycle root proofs with
  | Ok (p, proof) =>
      ∃ g, p ∈ peers ∧ proofs !! ID (p_UID p) = Some proof ∧
        VRFVerifyProof (p_UID p) alpha (Some proof) = Ok g ∧
        ∀ q, q ∈ peers → ∃ gq, peer_output alpha proofs q = Some gq ∧ lessThan gq g = false
  | Err e => e = ErrVRFSelectionFailed ∧ peers = [] ∨
             e = ErrIncompleteVRFProofs ∧ Exists (fun q => peer_output alpha proofs q = None) peers
  | Panic => False
  end.
Proof.
  intros alpha. unfold SelectProposer, SelectProposerVRF. destruct peers as [|p0 peers]; [by left|].
  pose proof (select_loop_spec alpha proofs (p0 :: peers) [] None eq_refl) as Hl. fold alpha.
  destruct (select_loop alpha proofs (p0 :: peers) None) as [[[[p proof] g]|]|e|]; [| |by right|done].
  2:{ by destruct Hl as [Hl _]. }
  destruct Hl as [(Hin & Hpf & Hg & Hmin) Hall]. exists g. split_and!; [done|done| |].
  - unfold peer_output in Hg. rewrite Hpf in Hg.
    by destruct (VRFVerifyProof (p_UID p) alpha (Some proof)); [injection Hg as ->|..].
  - intros q Hq. rewrite Forall_forall in Hall. destruct (Hall q Hq) as [gq Hgq]. eauto.
Qed.

(** Every honest node elects the same proposer: when no two peers have the same VRF
    output, the result of the selection, errors included, does not depend on the order of
    the peer list. *)
Theorem select_proposer_agreement peers1 peers2 cycle root proofs :
  peers1 ≡ₚ peers2 →
  (∀ p q g, p ∈ peers1 → q ∈ peers1 → peer_output (makeAlpha cycle root) proofs p = Some g →
     peer_output (makeAlpha cycle root) proofs q = Some g → p = q) →
  SelectProposer peers1 cycle root proofs = SelectProposer peers2 cycle root proofs.
Proof.
  intros Hperm Hdist. set (alpha := makeAlpha cycle root) in *.
  unfold SelectProposer, SelectProposerVRF. fold alpha.
  destruct peers1 as [|a1 l1], peers2 as [|a2 l2]; [done| | |].
  { by apply Permutation_nil_l in Hperm. }
  { by apply Permutation_nil_r in Hperm. }
  pose proof (select_loop_spec alpha proofs (a1 :: l1) [] None eq_refl) as S1.
  pose proof (select_loop_spec alpha proofs (a2 :: l2) [] None eq_refl) as S2.
  destruct (select_loop alpha proofs (a1 :: l1) None) as [b1|e1|], (select_loop alpha proofs (a2 :: l2) None) as [b2|e2|];
    try done.
  - destruct S1 as [S1 _], S2 as [S2 _]. destruct b1 as [[[p1 pf1] g1]|], b2 as [[[p2 pf2] g2]|]; try done.
    destruct S1 as (I1 & F1 & G1 & M1), S2 as (I2 & F2 & G2 & M2). simpl in *.
    assert (g1 = g2) as <-.
    { apply bytes_ltb_total; rewrite <- lessThan_bytes_ltb; [apply (M2 p1)|apply (M1 p2)]; try done.
      - by rewrite <- Hperm.
      - by rewrite Hperm. }
    assert (p1 = p2) as <- by (apply (Hdist p1 p2 g1); [done|by rewrite Hperm|done..]). congruence.
  - destruct S1 as [_ S1], S2 as [_ S2]. rewrite <- Hperm in S2.
    rewrite Forall_forall in S1. apply Exists_exists in S2 as (q & Hq & Hn).
    destruct (S1 q Hq). congruence.
  - destruct S1 as [_ S1], S2 as [_ S2]. rewrite Hperm in S1.
    rewrite Forall_forall in S2. apply Exists_exists in S1 as (q & Hq & Hn).
    destruct (S2 q Hq). congruence.
  - by destruct S1 as [-> _], S2 as [-> _].
Qed.
End selection.

(** ** Degraded mode

    A cycle's event is the number of validators and whether quorum was reached. *)

Definition cycle_event : Type := Z * bool.

Definition degraded_run (d : DegradedMode) (evs : list cycle_event) : DegradedMode :=
  fold_left (fun d ev => fst (fst (CheckDegradedTransition d ev.1 ev.2))) evs d.

Section degraded.
Context (min grace : Z).

(** A shortage of validators, and a good cycle. *)
Definition shortage (ev : cycle_event) : Prop := (nonNegative ev.1 < min)%Z.

Definition good_cycle (ev : cycle_event) : bool := (min <=? nonNegative ev.1)%Z && ev.2.

(** Some [grace] consecutive events of the list are good. *)
Definition recovered (evs : list cycle_event) : Prop :=
  ∃ before run after, evs = before ++ run ++ after ∧ Z.of_nat (length run) = grace ∧
    Forall (fun ev => good_cycle ev = true) run.

(** The number of good events at the end. *)
Definition trail (evs : list cycle_event) : nat :=
  fold_left (fun c ev => if good_cycle ev then S c else 0) evs 0.

Lemma trail_snoc evs ev : trail (evs ++ [ev]) = if good_cycle ev then S (trail evs) else 0.
Proof. unfold trail. by rewrite fold_left_app. Qed.

Lemma trail_run evs n : n ≤ trail evs ↔
  ∃ before run, evs = before ++ run ∧ length run = n ∧ Forall (fun ev => good_cycle ev = true) run.
Proof.
  revert n. induction evs as [|ev evs IH] using rev_ind; intros n.
  { split.
    - intros Hn. exists [], []. unfold trail in Hn. simpl in *. split_and!; [done|lia|constructor].
    - intros (before & run & E & <- & _). symmetry in E. apply app_nil in E as [_ ->]. simpl. lia. }
  rewrite trail_snoc. split.
  - intros Hn. destruct n as [|n].
    { exists (evs ++ [ev]), []. rewrite app_nil_r. split_and!; [done|done|constructor]. }
    destruct (good_cycle ev) eqn:Eg; [|lia].
    destruct (proj1 (IH n)) as (before & run & -> & Hl & Hall); [lia|].
    exists before, (run ++ [ev]). rewrite app_assoc, length_app. simpl.
    split_and!; [done|lia|]. apply Forall_app. by repeat constructor.
  - intros (before & run & E & <- & Hall). destruct run as [|r run _] using rev_ind; [simpl; lia|].
    rewrite app_assoc in E. apply app_inj_tail in E as [-> ->].
    apply Forall_app in Hall as [Hall [-> _]%Forall_cons]. rewrite length_app. simpl.
    assert (length run ≤ trail (before ++ run)); [|lia]. apply IH. eauto.
Qed.

Lemma recovered_snoc evs ev : (0 < grace)%Z →
  recovered (evs ++ [ev]) ↔ recovered evs ∨ (grace <= Z.of_nat (trail (evs ++ [ev])))%Z.
Proof.
  intros Hg. split.
  - intros (before & run & after & E & Hl & Hall). destruct after as [|a after _] using rev_ind.
    + right. rewrite app_nil_r in E. assert (Z.to_nat grace ≤ trail (evs ++ [ev])); [|lia].
      apply trail_run. exists before, run. split_and!; [done|lia|done].
    + left. rewrite !app_assoc in E. apply app_inj_tail in E as [-> _].
      exists before, run, after. by rewrite app_assoc.
  - intros [(before & run & after & -> & Hl & Hall)|Ht].
    + exists before, run, (after ++ [ev]). by rewrite !app_assoc.
    + destruct (proj1 (trail_run (evs ++ [ev]) (Z.to_nat grace))) as (before & run & -> & Hl & Hall); [lia|].
      exists before, run, []. rewrite app_nil_r. split_and!; [done|lia|done].
Qed.

Lemma shortage_not_good ev : shortage ev → good_cycle ev = false.
Proof. unfold shortage, good_cycle. intros. rewrite (proj2 (Z.leb_gt _ _)); [done|lia]. Qed.

Lemma trail_after_shortage pre ev post : shortage ev → trail (pre ++ ev :: post) = trail post.
Proof.
  intros Hs%shortage_not_good. unfold trail. rewrite fold_left_app. simpl. by rewrite Hs.
Qed.

(** What a mode reached by the events says about them. *)
Definition degraded_inv (evs : list cycle_event) (d : DegradedMode) : Prop :=
  dm_MinValidators d = min ∧ dm_GraceCycles d = grace ∧
  if dm_inDegraded d then
    (dm_consecutiveNormal d < grace)%Z ∧
    ∃ pre ev post, evs = pre ++ ev :: post ∧ shortage ev ∧ ¬ recovered post ∧
      dm_consecutiveNormal d = Z.of_nat (trail post)
  else ∀ pre ev post, evs = pre ++ ev :: post → shortage ev → recovered post.

Context (Hgrace : (0 < grace < 2 ^ 64)%Z).

Lemma recovered_nil : ¬ recovered [].
Proof.
  intros (before & run & after & E & Hl & _). destruct before, run; simpl in *; try done. lia.
Qed.

Lemma split_snoc (evs pre post : list cycle_event) ev e :
  evs ++ [ev] = pre ++ e :: post →
  (post = [] ∧ e = ev ∧ evs = pre) ∨ ∃ post', post = post' ++ [ev] ∧ evs = pre ++ e :: post'.
Proof.
  destruct post as [|x post _] using rev_ind; intros E.
  - apply app_inj_tail in E as [-> ->]. by left.
  - rewrite app_comm_cons, app_assoc in E. apply app_inj_tail in E as [-> ->]. right. eauto.
Qed.

Lemma degraded_step_good evs d ev :
  degraded_inv evs d → dm_inDegraded d = true → good_cycle ev = true →
  degraded_inv (evs ++ [ev]) (fst (fst (CheckDegradedTransition d ev.1 ev.2))).
Proof.
  intros (Hm & Hg & Hd) Ed Egood. rewrite Ed in Hd. destruct Hd as (Hc & pre & e & post & -> & He & Hn & Ht).
  unfold CheckDegradedTransition. rewrite Ed, Hm, Hg. simpl. unfold good_cycle in Egood. rewrite Egood.
  assert (Htr : trail (post ++ [ev]) = S (trail post)) by (rewrite trail_snoc; unfold good_cycle; by rewrite Egood).
  rewrite u64_small by (unfold u64_ok; lia).
  destruct (Z.leb_spec grace (dm_consecutiveNormal d + 1)); simpl; unfold degraded_inv; simpl; rewrite Hm, Hg.
  - split_and!; [done..|]. intros pre' e' post' E He'.
    destruct (split_snoc _ _ _ _ _ E) as [(_ & -> & _)|(post'' & -> & E2)].
    { apply shortage_not_good in He'. unfold good_cycle in He'. congruence. }
    apply recovered_snoc; [lia|]. right.
    rewrite <- (trail_after_shortage pre' e' (post'' ++ [ev]) He'), <- E.
    rewrite <- app_assoc. simpl. rewrite trail_after_shortage, Htr by done. lia.
  - split_and!; [done..|]. exists pre, e, (post ++ [ev]). rewrite <- app_assoc.
    split_and!; [done|done| |lia]. rewrite recovered_snoc by lia. rewrite Htr. intros [?|?]; [done|lia].
Qed.

Lemma degraded_step evs d ev :
  degraded_inv evs d →
  degraded_inv (evs ++ [ev]) (fst (fst (CheckDegradedTransition d ev.1 ev.2))).
Proof.
  intros Hinv. destruct (dm_inDegraded d) eqn:Ed.
  - destruct (good_cycle ev) eqn:Egood; [by apply degraded_step_good|].
    destruct Hinv as (Hm & Hg & Hd). rewrite Ed in Hd. destruct Hd as (Hc & pre & e & post & -> & He & Hn & Ht).
    unfold CheckDegradedTransition. rewrite Ed, Hm. unfold good_cycle in Egood. rewrite Egood. simpl.
    unfold degraded_inv. simpl. split_and!; [done..|lia|].
    exists pre, e, (post ++ [ev]). rewrite <- app_assoc.
    assert (trail (post ++ [ev]) = 0) as Htr by (rewrite trail_snoc; unfold good_cycle; by rewrite Egood).
    split_and!; [done|done| |by rewrite Htr]. rewrite recovered_snoc, Htr by lia. intros [?|?]; [done|simpl in *; lia].
  - destruct Hinv as (Hm & Hg & Hd). rewrite Ed in Hd.
    unfold CheckDegradedTransition. rewrite Ed, Hm. simpl.
    destruct (Z.ltb_spec (nonNegative ev.1) min); simpl; unfold degraded_inv; simpl.
    + split_and!; [done..|lia|]. exists evs, ev, []. split_and!; [done|done|apply recovered_nil|done].
    + rewrite Ed. split_and!; [done..|]. intros pre e post E He.
      destruct (split_snoc _ _ _ _ _ E) as [(_ & -> & _)|(post' & -> & E2)].
      { unfold shortage in He. lia. }
      apply recovered_snoc; [lia|]. left. by eapply Hd.
Qed.

Lemma degraded_run_inv evs : degraded_inv evs (degraded_run (NewDegradedMode min grace) evs).
Proof.
  induction evs as [|ev evs IH] using rev_ind.
  - split_and!; [done..|]. intros pre ev post E. by destruct pre.
  - unfold degraded_run. rewrite fold_left_app. by apply degraded_step.
Qed.
End degraded.

(** C20: After any history of cycles, the mode is degraded exactly when some cycle had fewer
    than MinValidators validators and no GraceCycles consecutive cycles after it had enough
    validators and reached quorum. *)
Theorem degraded_mode_spec min grace evs :
  (0 < grace < 2 ^ 64)%Z →
  IsDegraded (degraded_run (NewDegradedMode min grace) evs) = true ↔
  ∃ pre ev post, evs = pre ++ ev :: post ∧ shortage min ev ∧ ¬ recovered min grace post.
Proof.
  intros Hg. destruct (degraded_run_inv min grace Hg evs) as (_ & _ & Hd).
  unfold IsDegraded. destruct (dm_inDegraded _).
  - split; [|done]. destruct Hd as (_ & pre & ev & post & ? & ? & ? & _). eauto 6.
  - split; [done|]. intros (pre & ev & post & E & Hs & Hn). by destruct (Hn (Hd _ _ _ E Hs)).
Qed.

(** ** Rate limiting *)

Inductive limiter_op :=
| OpAllow (now : Z) (submitter : bytes)
| OpCleanup (now : Z).

Definition op_time (op : limiter_op) : Z :=
  match op with OpAllow now _ => now | OpCleanup now => now end.

(** The limiter driven by a sequence of calls: the submissions it accepts, in order. *)
Fixpoint limiter_run (sl : SubmitterLimiter) (ops : list limiter_op) : list (bytes * Z) :=
  match ops with
  | [] => []
  | OpAllow now s :: rest =>
      let '(sl', ok) := Allow now sl s in
      (if ok then [(s, now)] else []) ++ limiter_run sl' rest
  | OpCleanup now :: rest => limiter_run (Cleanup now sl) rest
  end.

(** Accepted times of a submitter. *)
Definition times_of (s : bytes) (log : list (bytes * Z)) : list Z :=
  (filter (fun e => e.1 = s) log).*2.

Definition in_window (dur now : Z) (l : list Z) : list Z := filter (fun t => now - dur < t)%Z l.

(** The reference: keep everything, accept when the window of the submitter has room. *)
Fixpoint limiter_ref (dur max : Z) (log : list (bytes * Z)) (ops : list limiter_op) : list (bytes * Z) :=
  match ops with
  | [] => []
  | OpAllow now s :: rest =>
      if (Z.of_nat (length (in_window dur now (times_of s log))) <? max)%Z
      then (s, now) :: limiter_ref dur max (log ++ [(s, now)]) rest
      else limiter_ref dur max log rest
  | OpCleanup _ :: rest => limiter_ref dur max log rest
  end.

Lemma times_of_snoc s log s' now :
  times_of s (log ++ [(s', now)]) = times_of s log ++ (if decide (s' = s) then [now] else []).
Proof. unfold times_of. rewrite filter_app, fmap_app. f_equal. rewrite filter_cons. simpl. by case_decide. Qed.

Lemma in_window_later dur now1 now2 l : (now1 <= now2)%Z →
  in_window dur now2 (in_window dur now1 l) = in_window dur now2 l.
Proof.
  intros Hle. unfold in_window. rewrite list_filter_filter. apply list_filter_iff. intros t. lia.
Qed.

Definition window_of (sl : SubmitterLimiter) (s : bytes) : list Z := default [] (sl_windows sl !! s).

(** The limiter agrees with the log on the window ending at [now] and on all later ones. *)
Definition log_agrees (dur now : Z) (sl : SubmitterLimiter) (log : list (bytes * Z)) : Prop :=
  sl_windowDur sl = dur ∧
  ∀ s, in_window dur now (window_of sl s) = in_window dur now (times_of s log).

Lemma log_agrees_later dur now1 now2 sl log : (now1 <= now2)%Z →
  log_agrees dur now1 sl log → log_agrees dur now2 sl log.
Proof.
  intros Hle [Hd Hs]. split; [done|]. intros s.
  by rewrite <- (in_window_later dur now1 now2 (window_of sl s)), Hs, in_window_later.
Qed.

Lemma window_of_Cleanup now sl s :
  window_of (Cleanup now sl) s = in_window (sl_windowDur sl * 2) now (window_of sl s).
Proof.
  unfold window_of, Cleanup, in_window. simpl. rewrite lookup_omap.
  destruct (sl_windows sl !! s) as [l|]; simpl; [|done].
  by destruct (filter _ l) as [|x l'] eqn:E.
Qed.

Lemma log_agrees_Cleanup dur now sl log : (0 <= dur)%Z →
  log_agrees dur now sl log → log_agrees dur now (Cleanup now sl) log.
Proof.
  intros Hd [Hdur Hs]. split; [done|]. intros s. rewrite window_of_Cleanup, <- Hs, Hdur.
  unfold in_window. rewrite list_filter_filter. apply list_filter_iff. intros t. lia.
Qed.

(** An [Allow] answers by the log, and agrees with the log extended by its answer. *)
Lemma log_agrees_Allow dur now sl log s : log_agrees dur now sl log →
  let '(sl', ok) := Allow now sl s in
  ok = (Z.of_nat (length (in_window dur now (times_of s log))) <? sl_maxPerWindow sl)%Z ∧
  sl_maxPerWindow sl' = sl_maxPerWindow sl ∧
  log_agrees dur now sl' (if ok then log ++ [(s, now)] else log).
Proof.
  intros [Hd Hs]. unfold Allow. rewrite Hd. change (default [] (sl_windows sl !! s)) with (window_of sl s).
  change (filter _ (window_of sl s)) with (in_window dur now (window_of sl s)).
  rewrite Hs. set (w := in_window dur now (times_of s log)).
  assert (Hw : in_window dur now w = w) by (unfold w; apply in_window_later; lia).
  destruct (Z.leb_spec (sl_maxPerWindow sl) (Z.of_nat (length w))) as [Hle|Hlt];
    (split_and!; [lia|done|split; [done|intros s']]); unfold window_of; simpl;
    (destruct (decide (s = s')) as [<-|Hne]; [rewrite lookup_insert_eq|rewrite lookup_insert_ne by done]); simpl.
  - done.
  - apply Hs.
  - rewrite times_of_snoc, decide_True by done. unfold in_window in *. by rewrite !filter_app, Hw.
  - rewrite times_of_snoc, decide_False, app_nil_r by done. apply Hs.
Qed.

Lemma limiter_run_ref dur : (0 <= dur)%Z → ∀ ops now sl log,
  log_agrees dur now sl log → StronglySorted Z.le (now :: (op_time <$> ops)) →
  limiter_run sl ops = limiter_ref dur (sl_maxPerWindow sl) log ops.
Proof.
  intros Hd. induction ops as [|op ops IH]; intros now sl log Ha Hs; [done|].
  apply StronglySorted_inv in Hs as [Hs [Hle _]%Forall_cons].
  apply (log_agrees_later _ _ _ _ _ Hle) in Ha. destruct op as [t s|t]; simpl in *.
  - pose proof (log_agrees_Allow dur t sl log s Ha) as Hal. destruct (Allow t sl s) as [sl' ok].
    destruct Hal as (Hok & Hmax & Ha'). rewrite <- Hok, <- Hmax. destruct ok; simpl; [f_equal|]; by eapply IH.
  - rewrite (IH t (Cleanup t sl) log); [done|by apply log_agrees_Cleanup|done].
Qed.

(** The window ending at [t], of a list of times. *)
Definition window_count (dur t : Z) (l : list Z) : Z :=
  Z.of_nat (length (filter (fun x => t - dur < x <= t)%Z l)).

Lemma limiter_ref_bound dur max s : (0 <= max)%Z → ∀ ops log,
  StronglySorted Z.le (op_time <$> ops) → Forall (fun op => Forall (fun t => t <= op_time op)%Z (times_of s log)) ops →
  (∀ t, window_count dur t (times_of s log) <= max)%Z →
  ∀ t, (window_count dur t (times_of s (log ++ limiter_ref dur max log ops)) <= max)%Z.
Proof.
  intros Hmax. induction ops as [|op ops IH]; intros log Hs Hlog Hb; [by rewrite app_nil_r|].
  rewrite fmap_cons in Hs. apply StronglySorted_inv in Hs as [Hs Hle]. rewrite Forall_fmap in Hle. apply Forall_cons in Hlog as [Hop Hlog].
  destruct op as [now s'|now]; cbn [op_time limiter_ref] in *; [|by apply IH].
  destruct (Z.ltb_spec (Z.of_nat (length (in_window dur now (times_of s' log)))) max) as [Hlt|]; [|by apply IH].
  intros t. rewrite cons_middle, app_assoc. apply IH; [done| |].
  - rewrite Forall_forall in Hlog. apply Forall_forall. intros op Hin.
    rewrite times_of_snoc. apply Forall_app. split; [by apply Hlog|].
    case_decide; [|constructor]. constructor; [|constructor].
    by apply (proj1 (Forall_forall _ _) Hle op).
  - clear t. intros t. rewrite times_of_snoc. case_decide as E; [subst s'|rewrite app_nil_r; apply Hb].
    specialize (Hb t). unfold window_count in *. rewrite filter_app, length_app, filter_cons. simpl.
    case_decide as Hin; simpl; [|lia].
    assert (length (filter (fun x => t - dur < x <= t)%Z (times_of s log)) ≤
            length (in_window dur now (times_of s log))); [|lia].
    unfold in_window. apply submseteq_length, sublist_submseteq.
    replace (filter (fun x => t - dur < x <= t)%Z (times_of s log))
      with (filter (fun x => t - dur < x <= t)%Z (in_window dur now (times_of s log))).
    { apply sublist_filter. }
    unfold in_window. rewrite list_filter_filter. apply list_filter_iff. intros x. lia.
Qed.

(** Over any sequence of submissions and clean-ups with a monotone clock, the limiter
    accepts exactly what a reference keeping every accepted time would accept, and no
    window of length windowDur holds more than maxPerWindow accepted submissions of one
    submitter. *)
Theorem limiter_spec max dur ops :
  (0 <= dur)%Z → (0 <= max)%Z → StronglySorted Z.le (op_time <$> ops) →
  let accepted := limiter_run (NewSubmitterLimiter max dur) ops in
  accepted = limiter_ref dur max [] ops ∧
  ∀ s t, (window_count dur t (times_of s accepted) <= max)%Z.
Proof.
  intros Hd Hmax Hs accepted.
  assert (Href : accepted = limiter_ref dur max [] ops).
  { unfold accepted. destruct ops as [|op ops]; [done|].
    apply (limiter_run_ref dur Hd _ (op_time op)).
    - split; [done|]. intros s. unfold window_of. simpl. by rewrite lookup_empty.
    - constructor; [done|]. rewrite fmap_cons in Hs. apply StronglySorted_inv in Hs as [_ Hs]. by constructor. }
  split; [done|]. intros s t. rewrite Href.
  apply (limiter_ref_bound dur max s Hmax ops []); [done| |].
  - apply Forall_forall. intros. constructor.
  - done.
Qed.

(** ** Concrete instances *)

Definition demo_proofs (cycle : Z) (root : bytes) : gmap string VRFProof :=
  list_to_map (omap (fun k : Z =>
    match VRFProve (demo_uid k) (makeAlpha cycle root) with
    | Ok proof => Some (ID (demo_uid k), proof)
    | _ => None
    end) [1; 2; 3]%Z).

Definition demo_output (p : Peer) : option bytes :=
  peer_output (makeAlpha 4 (key32 1)) (demo_proofs 4 (key32 1)) p.

Lemma NoDup_fmap_inj_on {A B} (f : A → B) l p q :
  NoDup (f <$> l) → p ∈ l → q ∈ l → f p = f q → p = q.
Proof.
  intros Hnd [i Hi]%list_elem_of_lookup [j Hj]%list_elem_of_lookup Heq.
  assert (i = j) as <-; [|congruence].
  apply (NoDup_lookup _ _ _ (f p) Hnd); rewrite list_lookup_fmap; [by rewrite Hi|by rewrite Hj, Heq].
Qed.

Lemma demo_outputs : NoDup (demo_output <$> demo_peers).
Proof. apply (bool_decide_unpack _). vm_compute. exact I. Qed.

Lemma select_proposer_agreement_witness :
  SelectProposer demo_peers 4 (key32 1) (demo_proofs 4 (key32 1)) =
  SelectProposer (reverse demo_peers) 4 (key32 1) (demo_proofs 4 (key32 1)) ∧
  ∃ best, SelectProposer demo_peers 4 (key32 1) (demo_proofs 4 (key32 1)) = Ok best.
Proof.
  split; [|destruct (SelectProposer _ _ _ _) eqn:E; [eexists; reflexivity|vm_compute in E; discriminate E..]].
  apply (select_proposer_agreement demo_peers (reverse demo_peers) 4 (key32 1) (demo_proofs 4 (key32 1))).
  - symmetry. apply reverse_Permutation.
  - intros p q g Hp Hq Gp Gq. apply (NoDup_fmap_inj_on demo_output demo_peers p q demo_outputs Hp Hq).
    unfold demo_output. rewrite Gp, Gq. reflexivity.
Defined.

Lemma degraded_mode_spec_witness :
  IsDegraded (degraded_run (NewDegradedMode 4 2) [(3, true); (4, true); (4, false); (5, true)]%Z) = true ∧
  ∃ pre ev post, [(3, true); (4, true); (4, false); (5, true)]%Z = pre ++ ev :: post ∧
    shortage 4 ev ∧ ¬ recovered 4 2 post.
Proof.
  split; [vm_compute; reflexivity|].
  apply (degraded_mode_spec 4 2); [lia|]. vm_compute. reflexivity.
Defined.

Lemma limiter_spec_witness :
  (window_count 10 5 (times_of [1%Z] (limiter_run (NewSubmitterLimiter 2 10)
    [OpAllow 0 [1]; OpAllow 1 [1]; OpAllow 2 [1]; OpCleanup 9; OpAllow 12 [1]]%Z)) <= 2)%Z.
Proof.
  apply (limiter_spec 2 10 [OpAllow 0 [1]; OpAllow 1 [1]; OpAllow 2 [1]; OpCleanup 9; OpAllow 12 [1]]%Z); [lia..|].
  simpl. repeat constructor; lia.
Defined.
