(* ===== verification/LightClient.v ===== *)
(** * Light client verification (pkg/lightclient/service.go, config.go)

    The service is modelled with its two interfaces as records of operations. A block is
    checked against a trust anchor: the last accepted block, the trusted validators and
    the rotations in force. *)
From S2P Require Import Prelude Crypto Errors Chain Config Rotation Quorum.

Record BlockSource := MkSource {
  bs_GetBlock : Z → option Block;
  bs_BlockCount : Z;
}.

Record SMTProver := MkProver {
  sp_ProveSMT : bytes → outcome gerror (list bytes);
  sp_VerifySMT : bytes → bytes → bytes → list bytes → bool;
}.

Record TrustAnchor := MkAnchor {
  ta_BlockIndex : Z;
  ta_BlockHash : slice Z;
  ta_Validators : list ValidatorInfo;
  ta_Rotations : list (option KeyRotationEntry);
}.

Record Service := MkService {
  sv_source : option BlockSource;
  sv_prover : option SMTProver;
  sv_maxStreamBlocks : Z;
}.

Definition DegradedThreshold : nat := 4.

(** The option [WithMaxStreamBlocks]: a zero bound is ignored. *)
Definition WithMaxStreamBlocks (n : Z) (s : Service) : Service :=
  if (0 <? n)%Z
  then {| sv_source := sv_source s; sv_prover := sv_prover s; sv_maxStreamBlocks := n |}
  else s.

Definition NewService (source : option BlockSource) (prover : option SMTProver)
    (opts : list (Service → Service)) : Service :=
  foldl (fun s opt => opt s)
    {| sv_source := source; sv_prover := prover; sv_maxStreamBlocks := 4096 |} opts.

Definition Service_GetBlock (s : Service) (idx : Z) : outcome gerror Block :=
  match sv_source s with
  | None => Err ErrBlockNotFound
  | Some source =>
      match bs_GetBlock source idx with
      | None => Err ErrBlockNotFound
      | Some block => Ok block
      end
  end.

Definition GetValidatorSet (validators : list ValidatorInfo) (cycle : Z) :
    outcome gerror (list ValidatorInfo) :=
  match validators with
  | [] => Err ErrNoValidatorSet
  | _ => Ok validators
  end.

Definition GetMerkleProof (s : Service) (key : bytes) : outcome gerror (list bytes) :=
  match sv_prover s with
  | None => Err (ErrText "3cp: no SMT prover configured")
  | Some prover => sp_ProveSMT prover key
  end.

(** The goroutine of [StreamBlocks]: the blocks sent on the channel before it is closed.
    [done i] says whether the context is done when index [i] is about to be sent. *)
Fixpoint stream_loop (fuel : nat) (source : BlockSource) (done : Z → bool) (i end_ : Z) : list Block :=
  match fuel with
  | O => []
  | S fuel' =>
      if (end_ <? i)%Z then []
      else if done i then []
      else match bs_GetBlock source i with
           | None => []
           | Some block => block :: stream_loop fuel' source done (u64 (i + 1)) end_
           end
  end.

Definition stream_end (s : Service) (source : BlockSource) (startIndex : Z) : Z :=
  let e := u64 (startIndex + sv_maxStreamBlocks s - 1) in
  let total := bs_BlockCount source in
  if ((0 <? total) && (total <=? e))%Z then (total - 1)%Z else e.

Definition StreamBlocks (fuel : nat) (done : Z → bool) (s : Service) (startIndex : Z) :
    outcome gerror (list Block) :=
  match sv_source s with
  | None => Err ErrBlockNotFound
  | Some source => Ok (stream_loop fuel source done startIndex (stream_end s source startIndex))
  end.

(** ** Helpers of VerifyBlock *)

Definition set_MinKeyOverlap (c : Config) (overlap : Z) : Config :=
  {| Eta := Eta c; DecayRate := DecayRate c; MinLambda1 := MinLambda1 c;
     LambdaInterval := LambdaInterval c; SMTDepth := SMTDepth c; CycleTimeout := CycleTimeout c;
     MaxCycleDuration := MaxCycleDuration c; BaseInterval := BaseInterval c;
     SafetyFactor := SafetyFactor c; SkipEmptyCycles := SkipEmptyCycles c;
     MaxPendingTTL := MaxPendingTTL c; BatchVerifyWorkers := BatchVerifyWorkers c;
     KeyRotationLeadTime := KeyRotationLeadTime c; MinKeyOverlap := overlap;
     MinValidators := MinValidators c; GraceCycles := GraceCycles c |}.

(** [rotationConfig]: the default configuration, with a floor of 1 on the overlap. *)
Definition rotationConfig : Config :=
  if (MinKeyOverlap DefaultConfig =? 0)%Z
  then set_MinKeyOverlap DefaultConfig 1 else DefaultConfig.

Definition isDegradedBlock (block : Block) : bool := is_degraded_block block.

Definition normalQuorum (n : nat) : nat := if (n =? 0)%nat then 0 else ((2 * n + 2) / 3)%nat.

Definition requiredQuorum (n : nat) : nat :=
  if (n <? DegradedThreshold)%nat then 1 else normalQuorum n.

Definition bitSet (bitmap : bytes) (i : nat) : bool :=
  if (length bitmap <=? i / 8)%nat then false else bit_at bitmap i.

(** The loop of [bitmapSigners] over [0 .. len(bitmap)*8 - 1]. *)
Definition marked (bitmap : bytes) : list nat :=
  filter (fun i => bitSet bitmap i = true) (seq 0 (length bitmap * 8)).

Definition bitmapSigners (block : Block) : outcome gerror (list nat) :=
  let signers := marked (elems (b_PrepareSigsBitmap block)) in
  if negb (length signers =? length (elems (b_PrepareSigs block)))%nat
  then Err ErrBitmapMismatch else Ok signers.

Fixpoint indexOf (validators : list ValidatorInfo) (id : bytes) : option nat :=
  match validators with
  | [] => None
  | v :: rest => if bool_decide (v_ValidatorID v = id) then Some 0 else S <$> indexOf rest id
  end.

Definition checkValidatorSet (declared trusted : list ValidatorInfo) : outcome gerror unit :=
  if negb (length declared =? length trusted)%nat then Err ErrValidatorSetMismatch
  else
    let present : gset bytes := list_to_set (v_ValidatorID <$> declared) in
    if forallb (fun v => bool_decide (v_ValidatorID v ∈ present)) trusted
    then Ok tt else Err ErrValidatorSetMismatch.

Section verification.
Context `{Primitives, Cbor}.

(** [admitRotation]: the validator with the rotation recorded, the validator unchanged
    (a nil error without a record), or the error. *)
Definition admitRotation (v : KeyRotationValidator) (r : KeyRotationEntry) :
    outcome gerror KeyRotationValidator := (
  fail_if (negb (Rotation_VerifyHash r)) ErrHashMismatch ;;!
  outgoing <-! GetActivePublicKey v (k_Submitter r) (u64 (k_EffectiveCycle r - 1)) ;;
  if (length outgoing =? 0)%nat then Ok v
  else
    payload <-! marshal (PayloadBytes r) ;;
    fail_if (negb (existsb (fun pk => VerifyDilithium pk payload (elems (k_SignatureOld r))) outgoing))
      (ErrText "3cp: rotation not signed by the outgoing key") ;;!
    fail_if (negb (VerifyDilithium (k_NewPublicKey r) payload (elems (k_SignatureNew r))))
      (ErrText "3cp: rotation not signed by the incoming key") ;;!
    fail_if (k_ExpiryCycle r <? u64 (k_EffectiveCycle r + MinKeyOverlap rotationConfig))%Z
      (ErrText "3cp: rotation overlap window shorter than the configured minimum") ;;!
    RecordRotation v (Some r))%go.

(** The loop of [newKeyResolver]: a nil or inadmissible rotation is skipped. *)
Definition admit_all (v : KeyRotationValidator) (rs : list (option KeyRotationEntry)) :
    KeyRotationValidator :=
  foldl (fun v r =>
    match r with
    | None => v
    | Some r => match admitRotation v r with Ok v' => v' | _ => v end
    end) v rs.

Definition newKeyResolver (anchor : TrustAnchor) : KeyRotationValidator :=
  admit_all (NewKeyRotationValidator (ta_Validators anchor) (ta_BlockIndex anchor) rotationConfig)
    (ta_Rotations anchor).

Definition keysForCycle (v : KeyRotationValidator) (cycle : Z) : gmap bytes (list bytes) :=
  foldl (fun out id =>
    match GetActivePublicKey v id cycle with
    | Ok keys => <[id := keys]> out
    | _ => out
    end) ∅ (ValidatorIDs v).

(** Reading a missing validator of the map yields no keys. *)
Definition keys_verify (cycleKeys : gmap bytes (list bytes)) (id blockHash sig : bytes) : bool :=
  existsb (fun pk => VerifyDilithium pk blockHash sig) (default [] (cycleKeys !! id)).

(** The signature loop of [VerifyBlock]; the result is [distinct]. *)
Fixpoint credit_loop (cycleKeys : gmap bytes (list bytes)) (validators : list ValidatorInfo)
    (blockHash : bytes) (signers : list nat) (i : nat) (sigs : list bytes)
    (credited : list bool) (distinct : nat) : outcome gerror nat :=
  match sigs with
  | [] => Ok distinct
  | sig :: rest => (
      claimed <-! index signers i ;;
      v <-! index validators claimed ;;
      fail_if (negb (keys_verify cycleKeys (v_ValidatorID v) blockHash sig)) ErrBadSignature ;;!
      c <-! index credited claimed ;;
      fail_if c ErrLightQuorumNotMet ;;!
      credit_loop cycleKeys validators blockHash signers (S i) rest
        (<[claimed := true]> credited) (S distinct))%go
  end.

Definition check_link (block : Block) (anchor : TrustAnchor) : outcome gerror unit :=
  match ta_BlockHash anchor with
  | None => fail_if (negb (b_Index block =? 0)%Z) ErrChainBreak
  | Some h => (
      fail_if (negb (b_Index block =? u64 (ta_BlockIndex anchor + 1))%Z) ErrChainBreak ;;!
      fail_if (negb (bool_decide (h = b_PrevHash block))) ErrChainBreak)%go
  end.

Definition VerifyBlock (block : option Block) (anchor : TrustAnchor) : outcome gerror unit :=
  match block with
  | None => Err ErrBlockNotFound
  | Some block => (
      let validators := ta_Validators anchor in
      fail_if (negb (b_ProtocolVersion block =? 2)%Z) ErrUnsupportedVersion ;;!
      fail_if (length validators =? 0)%nat ErrNoValidatorSet ;;!
      check_link block anchor ;;!
      checkValidatorSet (b_Validators block) validators ;;!
      fail_if (negb (bool_decide (ComputeBlockHash block = b_BlockHash block))) ErrBlockHashMismatch ;;!
      fail_if (bool_decide (indexOf validators (b_Proposer block) = None)) ErrUnknownProposer ;;!
      signers <-! bitmapSigners block ;;
      let degraded := (length validators <? DegradedThreshold)%nat in
      let required := requiredQuorum (length validators) in
      fail_if (degraded && negb (isDegradedBlock block)) ErrDegradedNotAnnounced ;;!
      fail_if (length signers <? required)%nat ErrLightQuorumNotMet ;;!
      let cycleKeys := keysForCycle (newKeyResolver anchor) (b_Index block) in
      distinct <-! credit_loop cycleKeys validators (b_BlockHash block) signers 0
                     (elems (b_PrepareSigs block)) (replicate (length validators) false) 0 ;;
      fail_if (distinct <? required)%nat ErrLightQuorumNotMet ;;!
      fail_if (bool_decide (cycleKeys !! b_Proposer block = None)) ErrUnknownProposer ;;!
      fail_if (negb (keys_verify cycleKeys (b_Proposer block) (b_BlockHash block) (b_CommitSig block)))
        ErrBadSignature)%go
  end.

Definition stateRootOf (block : Block) : outcome gerror bytes :=
  if negb (length (b_StateRoot block) =? 32)%nat then Err ErrBlockHashMismatch
  else Ok (copy_array 32 (b_StateRoot block)).

(** A service without a prover panics on the nil interface. *)
Definition VerifyAnchored (s : Service) (block : option Block) (key : bytes) (proof : list bytes) :
    outcome gerror unit :=
  match block with
  | None => Err ErrBlockNotFound
  | Some block => (
      root <-! stateRootOf block ;;
      match sv_prover s with
      | None => Panic
      | Some prover =>
          if sp_VerifySMT prover key key root proof then Ok tt else Err ErrEntryNotAnchored
      end)%go
  end.
End verification.
