(* ===== verification/LightTheorems.v ===== *)
(** * Properties of light client verification

    What an accepted block guarantees, that accepted histories are unique, that two
    accepted blocks of one cycle expose double signers, and the input on which the
    verifier panics. *)
From Stdlib Require Import SpecFloat.
From S2P Require Import Prelude Crypto Toy Sha256 Smt SmtSpec SmtRefine SmtProofs SmtTheorems Errors Vrf.
From S2P Require Import Identity IdentityTheorems Chain ToyCbor ChainTheorems Config Rotation.
From S2P Require Import RotationTheorems Quorum QuorumTheorems LightClient.

Section keys.
Context `{Primitives, Cbor}.

Lemma ValidatorIDs_elem v id : id ∈ ValidatorIDs v ↔ is_Some (kv_validators v !! id).
Proof.
  unfold ValidatorIDs. rewrite (sort_by_Permutation Datatypes.id), list_elem_of_fmap. split.
  - intros ([k pk] & -> & Hk%elem_of_map_to_list). eauto.
  - intros [pk Hk]. exists (id, pk). by rewrite elem_of_map_to_list.
Qed.

(** The key table of a cycle is the table of authoritative keys. *)
Lemma keysForCycle_lookup v cycle id :
  keysForCycle v cycle !! id =
    match GetActivePublicKey v id cycle with Ok keys => Some keys | _ => None end.
Proof.
  assert (Hgen : ∀ l (m : gmap bytes (list bytes)),
    foldl (fun out id => match GetActivePublicKey v id cycle with
                         | Ok keys => <[id := keys]> out | _ => out end) m l !! id =
    if bool_decide (id ∈ l) then
      match GetActivePublicKey v id cycle with Ok keys => Some keys | _ => m !! id end
    else m !! id).
  { induction l as [|x l IH]; intros m; [done|]. cbn [foldl]. rewrite IH.
    destruct (decide (id = x)) as [->|Hne].
    - rewrite (bool_decide_eq_true_2 (x ∈ x :: l)) by set_solver.
      destruct (GetActivePublicKey v x cycle); simpl; case_bool_decide; try done.
      by rewrite lookup_insert_eq.
    - rewrite (bool_decide_ext (id ∈ x :: l) (id ∈ l)) by set_solver.
      destruct (GetActivePublicKey v x cycle); [|done..].
      by rewrite lookup_insert_ne by done. }
  unfold keysForCycle. rewrite Hgen, lookup_empty. case_bool_decide as E; [by destruct (GetActivePublicKey _ _ _)|].
  unfold GetActivePublicKey. destruct (kv_validators v !! id) eqn:Ek; [|done].
  destruct E. apply ValidatorIDs_elem. eauto.
Qed.

(** [sig] is a signature of validator [id] over [hash] under a key authoritative for it in
    the cycle, as a client holding [anchor] resolves keys. *)
Definition signed_by (anchor : TrustAnchor) (cycle : Z) (id hash sig : bytes) : Prop :=
  ∃ keys pk, GetActivePublicKey (newKeyResolver anchor) id cycle = Ok keys ∧ pk ∈ keys ∧
    VerifyDilithium pk hash sig = true.

Lemma keys_verify_spec anchor cycle id hash sig :
  keys_verify (keysForCycle (newKeyResolver anchor) cycle) id hash sig = true ↔
  signed_by anchor cycle id hash sig.
Proof.
  unfold keys_verify, signed_by. rewrite keysForCycle_lookup.
  destruct (GetActivePublicKey _ id cycle) as [keys| |]; simpl.
  - rewrite existsb_exists. split.
    + intros (pk & Hin%list_elem_of_In & Hv). eauto.
    + intros (keys' & pk & [= ->] & Hin%list_elem_of_In & Hv). eauto.
  - split; [done|]. by intros (? & ? & ? & _).
  - split; [done|]. by intros (? & ? & ? & _).
Qed.

(** The signature loop, when the marked positions are distinct. *)
Lemma credit_loop_spec cycleKeys validators hash signers : NoDup signers →
  ∀ sigs i credited d d', length credited = length validators →
  (∀ k c, i ≤ k → signers !! k = Some c → c < length validators → credited !! c = Some false) →
  credit_loop cycleKeys validators hash signers i sigs credited d = Ok d' ↔
  d' = d + length sigs ∧
  ∀ j sig, sigs !! j = Some sig → ∃ c v, signers !! (i + j) = Some c ∧ validators !! c = Some v ∧
    keys_verify cycleKeys (v_ValidatorID v) hash sig = true.
Proof.
  intros Hnd. induction sigs as [|s sigs IH]; intros i credited d d' Hlen Hcred.
  { cbn [credit_loop length]. split.
    - intros [= <-]. split; [lia|]. intros j sig. by rewrite lookup_nil.
    - intros [-> _]. f_equal. lia. }
  assert (Hhead : (∀ j sig, (s :: sigs) !! j = Some sig → ∃ c v, signers !! (i + j) = Some c ∧
      validators !! c = Some v ∧ keys_verify cycleKeys (v_ValidatorID v) hash sig = true) ↔
    (∃ c v, signers !! i = Some c ∧ validators !! c = Some v ∧ keys_verify cycleKeys (v_ValidatorID v) hash s = true) ∧
    (∀ j sig, sigs !! j = Some sig → ∃ c v, signers !! (S i + j) = Some c ∧
      validators !! c = Some v ∧ keys_verify cycleKeys (v_ValidatorID v) hash sig = true)).
  { split.
    - intros Hall. split.
      + rewrite <- (Nat.add_0_r i). by apply (Hall 0).
      + intros j sig Hj. replace (S i + j) with (i + S j) by lia. by apply (Hall (S j)).
    - intros [Hz Hs] [|j] sig Hj; [rewrite Nat.add_0_r; by injection Hj as <-|].
      replace (i + S j) with (S i + j) by lia. by apply Hs. }
  rewrite Hhead. cbn [credit_loop]. rewrite bind_Ok. setoid_rewrite index_Ok.
  setoid_rewrite bind_Ok. setoid_rewrite index_Ok. setoid_rewrite fail_if_pass. split.
  - intros (c & Hc & v & Hv & Hk%negb_false_iff & Hrest).
    pose proof (lookup_lt_Some _ _ _ Hv) as Hlt.
    unfold index in Hrest. rewrite (Hcred i c) in Hrest by (done || lia). cbn [outcome_bind fail_if] in Hrest.
    apply IH in Hrest as [-> Hall]; [simpl; split; [lia|]; eauto 8|by rewrite length_insert|].
    intros k c' Hk' Hc' Hlt'. rewrite list_lookup_insert_ne; [apply (Hcred k); (done || lia)|].
    intros <-. pose proof (NoDup_lookup _ _ _ _ Hnd Hc Hc'). lia.
  - intros [-> [(c & v & Hc & Hv & Hk) Hall]]. pose proof (lookup_lt_Some _ _ _ Hv) as Hlt.
    exists c. split; [done|]. exists v. split; [done|]. rewrite Hk. split; [done|].
    unfold index. rewrite (Hcred i c) by (done || lia). cbn [outcome_bind fail_if].
    apply IH; [by rewrite length_insert| |simpl; split; [lia|done]].
    intros k c' Hk' Hc' Hlt'. rewrite list_lookup_insert_ne; [apply (Hcred k); (done || lia)|].
    intros <-. pose proof (NoDup_lookup _ _ _ _ Hnd Hc Hc'). lia.
Qed.
End keys.

(** ** What an accepted block guarantees *)

Lemma bitSet_bit_at bitmap i : bitSet bitmap i = bit_at bitmap i.
Proof.
  unfold bitSet, bit_at. destruct (_ <=? _) eqn:E; [|done]. apply Nat.leb_le in E.
  by rewrite (proj2 (lookup_ge_None _ _)).
Qed.

Lemma elem_of_marked bitmap i : i ∈ marked bitmap ↔ bit_at bitmap i = true.
Proof.
  unfold marked. rewrite list_elem_of_filter, elem_of_seq, bitSet_bit_at. split; [by intros [? _]|].
  intros Hb. pose proof (bit_at_range bitmap i Hb). split; [done|lia].
Qed.

Lemma NoDup_marked bitmap : NoDup (marked bitmap).
Proof. apply NoDup_filter, NoDup_seq. Qed.

Lemma indexOf_None validators id : indexOf validators id = None ↔ id ∉ v_ValidatorID <$> validators.
Proof.
  induction validators as [|v vs IH]; simpl; [set_solver|].
  case_bool_decide; [set_solver|]. rewrite fmap_None, IH. set_solver.
Qed.

Lemma checkValidatorSet_Ok declared trusted :
  checkValidatorSet declared trusted = Ok tt ↔
  length declared = length trusted ∧ v_ValidatorID <$> trusted ⊆ v_ValidatorID <$> declared.
Proof.
  unfold checkValidatorSet. destruct (length declared =? length trusted) eqn:El; simpl.
  - apply Nat.eqb_eq in El. destruct (forallb _ trusted) eqn:Ef.
    + rewrite forallb_forall in Ef. split; [|done]. intros _. split; [done|].
      intros id (v & -> & Hv%list_elem_of_In)%list_elem_of_fmap. specialize (Ef v Hv).
      apply bool_decide_eq_true in Ef. by apply elem_of_list_to_set in Ef.
    + split; [done|]. intros [_ Hsub]. apply not_true_iff_false in Ef. destruct Ef.
      apply forallb_forall. intros v Hv%list_elem_of_In. apply bool_decide_eq_true.
      apply elem_of_list_to_set, Hsub. by apply list_elem_of_fmap_2.
  - apply Nat.eqb_neq in El. split; [done|]. by intros [? _].
Qed.

Section light.
Context `{Primitives, Cbor}.

(** The block links to the anchor. *)
Definition linked (block : Block) (anchor : TrustAnchor) : Prop :=
  match ta_BlockHash anchor with
  | None => b_Index block = 0%Z
  | Some h => b_Index block = u64 (ta_BlockIndex anchor + 1) ∧ b_PrevHash block = h
  end.

Lemma check_link_Ok block anchor : check_link block anchor = Ok tt ↔ linked block anchor.
Proof.
  unfold check_link, linked. destruct (ta_BlockHash anchor) as [h|].
  - rewrite fail_if_pass, fail_if_Ok, !negb_false_iff, Z.eqb_eq, bool_decide_eq_true. naive_solver.
  - by rewrite fail_if_Ok, negb_false_iff, Z.eqb_eq.
Qed.

(** The contract of [VerifyBlock], clause by clause. *)
Record block_accepted (block : Block) (anchor : TrustAnchor) : Prop := {
  acc_version : b_ProtocolVersion block = 2%Z;
  acc_trusted : ta_Validators anchor ≠ [];
  acc_linked : linked block anchor;
  acc_count : length (b_Validators block) = length (ta_Validators anchor);
  acc_identities : v_ValidatorID <$> ta_Validators anchor ⊆ v_ValidatorID <$> b_Validators block;
  acc_hash : ComputeBlockHash block = b_BlockHash block;
  acc_proposer : b_Proposer block ∈ v_ValidatorID <$> ta_Validators anchor;
  acc_degraded : length (ta_Validators anchor) < DegradedThreshold → is_degraded_block block = true;
  acc_quorum : requiredQuorum (length (ta_Validators anchor)) ≤
               length (marked (elems (b_PrepareSigsBitmap block)));
  acc_payload : length (elems (b_PrepareSigs block)) = length (marked (elems (b_PrepareSigsBitmap block)));
  acc_prepare : ∀ j sig, elems (b_PrepareSigs block) !! j = Some sig →
    ∃ c v, marked (elems (b_PrepareSigsBitmap block)) !! j = Some c ∧ ta_Validators anchor !! c = Some v ∧
      signed_by anchor (b_Index block) (v_ValidatorID v) (b_BlockHash block) sig;
  acc_commit : signed_by anchor (b_Index block) (b_Proposer block) (b_BlockHash block) (b_CommitSig block);
}.

Lemma credit_all_Ok anchor block d :
  let signers := marked (elems (b_PrepareSigsBitmap block)) in
  credit_loop (keysForCycle (newKeyResolver anchor) (b_Index block)) (ta_Validators anchor)
    (b_BlockHash block) signers 0 (elems (b_PrepareSigs block))
    (replicate (length (ta_Validators anchor)) false) 0 = Ok d ↔
  d = length (elems (b_PrepareSigs block)) ∧
  ∀ j sig, elems (b_PrepareSigs block) !! j = Some sig →
    ∃ c v, signers !! j = Some c ∧ ta_Validators anchor !! c = Some v ∧
      signed_by anchor (b_Index block) (v_ValidatorID v) (b_BlockHash block) sig.
Proof.
  intros signers. rewrite credit_loop_spec; [|apply NoDup_marked|by rewrite length_replicate|].
  - setoid_rewrite keys_verify_spec. done.
  - intros k c _ _ Hc. by apply lookup_replicate_2.
Qed.

Lemma VerifyBlock_accepted block anchor :
  VerifyBlock (Some block) anchor = Ok tt ↔ block_accepted block anchor.
Proof.
  cbn [VerifyBlock].
  rewrite !fail_if_pass, bind_Ok. split.
  - intros (Hver%negb_false_iff%Z.eqb_eq & Hne & u & Hlink & Hr).
    destruct u. apply check_link_Ok in Hlink. apply bind_Ok in Hr as ([] & [Hcnt Hids]%checkValidatorSet_Ok & Hr).
    apply fail_if_pass in Hr as [Hhash%negb_false_iff%bool_decide_eq_true Hr].
    apply fail_if_pass in Hr as [Hprop%bool_decide_eq_false Hr].
    rewrite indexOf_None in Hprop. apply bind_Ok in Hr as (signers & Hsg & Hr).
    unfold bitmapSigners in Hsg. destruct (negb (length (marked _) =? _)%nat) eqn:Epl; [done|].
    injection Hsg as <-. apply negb_false_iff, Nat.eqb_eq in Epl.
    apply fail_if_pass in Hr as [Hdeg Hr]. apply fail_if_pass in Hr as [Hq%Nat.ltb_ge Hr].
    apply bind_Ok in Hr as (d & [-> Hprep]%credit_all_Ok & Hr).
    apply fail_if_pass in Hr as [_ Hr]. apply fail_if_pass in Hr as [_ Hr].
    apply fail_if_Ok in Hr. apply negb_false_iff, keys_verify_spec in Hr.
    apply Nat.eqb_neq in Hne.
    split; try done; [by intros E; rewrite E in Hne| |].
    + destruct (decide (b_Proposer block ∈ v_ValidatorID <$> ta_Validators anchor)); [done|].
      by destruct Hprop.
    + intros Hlt%Nat.ltb_lt. unfold isDegradedBlock in Hdeg. rewrite Hlt in Hdeg.
      by apply negb_false_iff in Hdeg.
  - intros [Hver Hne Hlink Hcnt Hids Hhash Hprop Hdeg Hq Hpl Hprep Hcom].
    rewrite Hver. split; [done|]. split; [by destruct (ta_Validators anchor)|].
    exists tt. split; [by apply check_link_Ok|]. apply bind_Ok. exists tt. split; [by apply checkValidatorSet_Ok|].
    apply fail_if_pass. split; [by rewrite bool_decide_eq_true_2|].
    apply fail_if_pass. split; [rewrite bool_decide_eq_false, indexOf_None; tauto|].
    apply bind_Ok. exists (marked (elems (b_PrepareSigsBitmap block))).
    split; [unfold bitmapSigners; by rewrite Hpl, Nat.eqb_refl|].
    apply fail_if_pass. split.
    { unfold isDegradedBlock. destruct (Nat.ltb_spec (length (ta_Validators anchor)) DegradedThreshold); [|done].
      by rewrite Hdeg. }
    apply fail_if_pass. split; [by apply Nat.ltb_ge|].
    apply bind_Ok. exists (length (elems (b_PrepareSigs block))). split; [by apply credit_all_Ok|].
    apply fail_if_pass. split; [apply Nat.ltb_ge; lia|].
    apply fail_if_pass. split.
    + apply bool_decide_eq_false. rewrite keysForCycle_lookup. by destruct Hcom as (keys & pk & -> & _).
    + apply fail_if_Ok, negb_false_iff. by apply keys_verify_spec.
Qed.

(** C8: [VerifyBlock] accepts exactly the blocks that satisfy its contract: version 2,
    chained onto the anchor, declaring the trusted identities, with a hash that matches
    the contents, from a trusted proposer, signed by enough distinct trusted validators
    under keys authoritative for the cycle, and committed by the proposer. *)
Theorem light_verify_spec block anchor :
  VerifyBlock (Some block) anchor = Ok tt ↔ block_accepted block anchor.
Proof. apply VerifyBlock_accepted. Qed.

(** The validators whose signature an accepted block carries. *)
Definition light_signer (anchor : TrustAnchor) (block : Block) (i : nat) : Prop :=
  ∃ v sig, ta_Validators anchor !! i = Some v ∧ sig ∈ elems (b_PrepareSigs block) ∧
    signed_by anchor (b_Index block) (v_ValidatorID v) (b_BlockHash block) sig.

Lemma accepted_signer block anchor i : block_accepted block anchor →
  bit_at (elems (b_PrepareSigsBitmap block)) i = true →
  i < length (ta_Validators anchor) ∧ light_signer anchor block i.
Proof.
  intros Hacc [j Hj]%elem_of_marked%list_elem_of_lookup.
  destruct (lookup_lt_is_Some_2 (elems (b_PrepareSigs block)) j) as [sig Hsig].
  { rewrite (acc_payload _ _ Hacc). by eapply lookup_lt_Some. }
  destruct (acc_prepare _ _ Hacc j sig Hsig) as (c & v & Hc & Hv & Hs).
  rewrite Hj in Hc. injection Hc as <-. split; [by eapply lookup_lt_Some|].
  exists v, sig. split_and!; [done| |done]. by eapply list_elem_of_lookup_2.
Qed.

Lemma accepted_quorum block anchor : block_accepted block anchor →
  DegradedThreshold ≤ length (ta_Validators anchor) →
  QuorumRequired (length (ta_Validators anchor)) ≤
    length (selected (length (ta_Validators anchor)) (bit_at (elems (b_PrepareSigsBitmap block)))).
Proof.
  intros Hacc Hn. pose proof (acc_quorum _ _ Hacc) as Hq. unfold requiredQuorum, normalQuorum in Hq.
  rewrite (proj2 (Nat.ltb_ge _ _)) in Hq by done.
  rewrite (proj2 (Nat.eqb_neq _ _)) in Hq by (unfold DegradedThreshold in Hn; lia).
  etrans; [exact Hq|]. apply submseteq_length, NoDup_submseteq; [apply NoDup_marked|].
  intros i Hi%elem_of_marked. apply list_elem_of_filter. split; [done|].
  apply elem_of_seq. pose proof (accepted_signer _ _ i Hacc Hi). lia.
Qed.

(** Accountability. If a client with at least four trusted validators accepts two
    blocks for the same cycle, at least a third of the validators have signed both. *)
Theorem light_accountability b1 b2 anchor :
  4 ≤ length (ta_Validators anchor) →
  VerifyBlock (Some b1) anchor = Ok tt → VerifyBlock (Some b2) anchor = Ok tt →
  ∃ both, NoDup both ∧ length (ta_Validators anchor) ≤ 3 * length both ∧
    Forall (fun i => light_signer anchor b1 i ∧ light_signer anchor b2 i) both.
Proof.
  intros Hn A1%VerifyBlock_accepted A2%VerifyBlock_accepted.
  exists (selected (length (ta_Validators anchor)) (fun i =>
    bit_at (elems (b_PrepareSigsBitmap b1)) i && bit_at (elems (b_PrepareSigsBitmap b2)) i)).
  split_and!.
  - apply NoDup_filter, NoDup_seq.
  - apply quorum_intersection; by apply accepted_quorum.
  - apply Forall_forall. intros i [[H1 H2]%andb_true_iff _]%list_elem_of_filter.
    split; [by apply accepted_signer|by apply accepted_signer].
Qed.
End light.

(** ** Histories *)

Section history.
Context `{Primitives, Cbor} `{!Blake3Length, !CborLaws}.

(** A client accepts a sequence of blocks: each against an anchor that names the previous
    one; the trusted set and the rotations may change from block to block. *)
Inductive accepts : Z → slice Z → list Block → Prop :=
| accepts_nil idx hash : accepts idx hash []
| accepts_cons anchor block blocks :
    VerifyBlock (Some block) anchor = Ok tt →
    accepts (b_Index block) (Some (b_BlockHash block)) blocks →
    accepts (ta_BlockIndex anchor) (ta_BlockHash anchor) (block :: blocks).

(** The index of the first block after an anchor. *)
Definition first_index (idx : Z) (hash : slice Z) : Z :=
  match hash with None => 0%Z | Some _ => u64 (idx + 1) end.

Lemma accepts_head_index idx hash b bs :
  accepts idx hash (b :: bs) → b_Index b = first_index idx hash.
Proof.
  inversion 1 as [|anchor ? ? [_ _ Hl _ _ _ _ _ _ _ _ _]%VerifyBlock_accepted Hrest]; subst.
  unfold linked in Hl. unfold first_index. destruct (ta_BlockHash anchor); naive_solver.
Qed.

Lemma accepts_index idx hash blocks k b :
  accepts idx hash blocks → blocks !! k = Some b → b_Index b = u64 (first_index idx hash + Z.of_nat k).
Proof.
  intros Ha. revert k b. induction Ha as [|anchor block blocks Hv Ha IH]; intros k b Hk; [done|].
  assert (Hb : b_Index block = first_index (ta_BlockIndex anchor) (ta_BlockHash anchor)).
  { eapply accepts_head_index. by constructor. }
  assert (Hu : u64 (first_index (ta_BlockIndex anchor) (ta_BlockHash anchor)) = b_Index block).
  { rewrite Hb. unfold first_index. destruct (ta_BlockHash anchor); [|done]. apply u64_small, u64_range. }
  destruct k as [|k]; simpl in Hk.
  - injection Hk as <-. by rewrite Z.add_0_r.
  - rewrite (IH k b Hk). unfold first_index at 1. rewrite Hb. unfold u64. rewrite Zplus_mod_idemp_l.
    f_equal. lia.
Qed.

(** Neighbouring blocks of an accepted sequence are linked by their hashes. *)
Lemma accepts_linked idx hash blocks k b1 b2 :
  accepts idx hash blocks → blocks !! k = Some b1 → blocks !! S k = Some b2 →
  b_PrevHash b2 = b_BlockHash b1.
Proof.
  intros Ha. revert k. induction Ha as [|anchor block blocks Hv Ha IH]; intros k Hb1 Hb2; [done|].
  destruct k as [|k]; simpl in *; [|by eapply IH].
  injection Hb1 as <-. destruct blocks as [|b blocks]; [done|]. injection Hb2 as ->.
  inversion Ha as [|anchor' ? ? [_ _ Hl _ _ _ _ _ _ _ _ _]%VerifyBlock_accepted Hrest Ei Eh]; subst.
  unfold linked in Hl. rewrite Eh in Hl. naive_solver.
Qed.

Lemma accepts_hash idx hash blocks k b :
  accepts idx hash blocks → blocks !! k = Some b → b_BlockHash b = ComputeBlockHash b.
Proof.
  intros Ha. revert k. induction Ha as [|anchor block blocks Hv Ha IH]; intros k Hk; [done|].
  destruct k as [|k]; simpl in Hk; [|by eapply IH]. injection Hk as <-.
  apply VerifyBlock_accepted in Hv. symmetry. apply (acc_hash _ _ Hv).
Qed.

(** The digests of two blocks are not collisions. *)
Definition blocks_separated (b1 b2 : Block) : Prop :=
  no_collision sha256 (block_preimage b1) (block_preimage b2) ∧
  no_collision blake3 (default [] (cbor_entries (b_Anchored b1)))
    (default [] (cbor_entries (b_Anchored b2))).

Lemma committed_of_hash b1 b2 : block_wf b1 → block_wf b2 → blocks_separated b1 b2 →
  ComputeBlockHash b1 = ComputeBlockHash b2 → block_committed b1 = block_committed b2.
Proof. intros W1 W2 [Hsha Hcf] Heq. apply block_preimage_inj; auto. Qed.

Lemma accepts_back idx hash l1 l2 :
  accepts idx hash l1 → accepts idx hash l2 →
  Forall block_wf l1 → Forall block_wf l2 →
  (∀ b1 b2, b1 ∈ l1 → b2 ∈ l2 → blocks_separated b1 b2) →
  ∀ d k b1 b2, l1 !! (k + d) = Some b1 → l2 !! (k + d) = Some b2 → b_BlockHash b1 = b_BlockHash b2 →
  ∀ c1 c2, l1 !! k = Some c1 → l2 !! k = Some c2 → block_committed c1 = block_committed c2.
Proof.
  intros A1 A2 W1 W2 Hsep.
  rewrite Forall_forall in W1, W2.
  assert (Hstep : ∀ i b1 b2, l1 !! i = Some b1 → l2 !! i = Some b2 → b_BlockHash b1 = b_BlockHash b2 →
    block_committed b1 = block_committed b2).
  { intros i b1 b2 Hb1 Hb2 Heq.
    pose proof (list_elem_of_lookup_2 _ _ _ Hb1). pose proof (list_elem_of_lookup_2 _ _ _ Hb2).
    apply committed_of_hash; auto.
    by rewrite <- (accepts_hash _ _ _ _ _ A1 Hb1), <- (accepts_hash _ _ _ _ _ A2 Hb2). }
  induction d as [|d IH]; intros k b1 b2 Hb1 Hb2 Heq c1 c2 C1 C2.
  - rewrite Nat.add_0_r in Hb1, Hb2. rewrite C1 in Hb1. rewrite C2 in Hb2. simplify_eq. by eapply Hstep.
  - destruct (lookup_lt_is_Some_2 l1 (k + d)) as [p1 P1].
    { apply lookup_lt_Some in Hb1. lia. }
    destruct (lookup_lt_is_Some_2 l2 (k + d)) as [p2 P2].
    { apply lookup_lt_Some in Hb2. lia. }
    apply (IH k p1 p2); [done..| |done|done].
    replace (k + S d) with (S (k + d)) in Hb1, Hb2 by lia.
    rewrite <- (accepts_linked _ _ _ _ _ _ A1 P1 Hb1), <- (accepts_linked _ _ _ _ _ _ A2 P2 Hb2).
    pose proof (Hstep _ _ _ Hb1 Hb2 Heq) as Hc. unfold block_committed in Hc. congruence.
Qed.

(** C16: Immutability of history. Two sequences of blocks that clients accept from the same
    starting point and that end in the same block hash have the same length and agree,
    block by block, on everything a block hash commits to, unless a digest of two of
    their blocks collides. *)
Theorem light_history_unique idx hash l1 l2 last1 last2 :
  accepts idx hash (l1 ++ [last1]) → accepts idx hash (l2 ++ [last2]) →
  Forall block_wf (l1 ++ [last1]) → Forall block_wf (l2 ++ [last2]) →
  (∀ b1 b2, b1 ∈ l1 ++ [last1] → b2 ∈ l2 ++ [last2] → blocks_separated b1 b2) →
  (Z.of_nat (length l1) < 2 ^ 64)%Z → (Z.of_nat (length l2) < 2 ^ 64)%Z →
  b_BlockHash last1 = b_BlockHash last2 →
  block_committed <$> (l1 ++ [last1]) = block_committed <$> (l2 ++ [last2]).
Proof.
  intros A1 A2 W1 W2 Hsep N1 N2 Heq.
  pose proof (snoc_lookup last1 l1) as L1. pose proof (snoc_lookup last2 l2) as L2.
  assert (Hlast : block_committed last1 = block_committed last2).
  { apply Forall_app in W1 as [_ [W1 _]%Forall_cons]. apply Forall_app in W2 as [_ [W2 _]%Forall_cons].
    apply committed_of_hash; [done..|apply Hsep; set_solver|].
    by rewrite <- (accepts_hash _ _ _ _ _ A1 L1), <- (accepts_hash _ _ _ _ _ A2 L2). }
  assert (Hlen : length l1 = length l2).
  { assert (Hi : b_Index last1 = b_Index last2) by (unfold block_committed in Hlast; congruence).
    rewrite (accepts_index _ _ _ _ _ A1 L1), (accepts_index _ _ _ _ _ A2 L2) in Hi.
    apply Nat2Z.inj. unfold u64 in Hi.
    pose proof (Z.div_mod (first_index idx hash + Z.of_nat (length l1)) (2 ^ 64) ltac:(lia)).
    pose proof (Z.div_mod (first_index idx hash + Z.of_nat (length l2)) (2 ^ 64) ltac:(lia)).
    nia. }
  apply list_eq_same_length with (n := S (length l1));
    [rewrite length_fmap, length_app; simpl; lia..|].
  intros i x y Hi Hx Hy. rewrite list_lookup_fmap in Hx, Hy.
  destruct ((l1 ++ [last1]) !! i) as [c1|] eqn:C1; [|done]. destruct ((l2 ++ [last2]) !! i) as [c2|] eqn:C2; [|done].
  injection Hx as <-. injection Hy as <-.
  apply (accepts_back idx hash _ _ A1 A2 W1 W2 Hsep (length l1 - i) i last1 last2); try done.
  - replace (i + (length l1 - i)) with (length l1) by lia. done.
  - replace (i + (length l1 - i)) with (length l2) by lia. done.
Qed.
End history.

(** ** Streaming *)

(** A source that holds exactly the blocks below its count. *)
Definition dense (source : BlockSource) : Prop :=
  u64_ok (bs_BlockCount source) ∧
  ∀ i, (0 <= i)%Z → is_Some (bs_GetBlock source i) ↔ (i < bs_BlockCount source)%Z.

Lemma stream_loop_spec source e : dense source → (e < bs_BlockCount source)%Z →
  ∀ fuel i, (0 <= i)%Z → (e - i < Z.of_nat fuel)%Z → (i <= e + 1)%Z →
  let l := stream_loop fuel source (fun _ => false) i e in
  Z.of_nat (length l) = (e + 1 - i)%Z ∧
  ∀ k, k < length l → l !! k = bs_GetBlock source (i + Z.of_nat k).
Proof.
  unfold dense, u64_ok. intros [Hu Hdense] He. induction fuel as [|fuel IH]; intros i Hi Hfuel Hle.
  { cbn [stream_loop length]. split; [lia|]. intros k Hk. lia. }
  cbn [stream_loop]. destruct (Z.ltb_spec e i) as [Hlt|Hge]; [simpl; split; [lia|intros k Hk; lia]|].
  destruct (proj2 (Hdense i Hi)) as [b Hb]; [lia|]. rewrite Hb.
  rewrite u64_small by (unfold u64_ok; lia).
  destruct (IH (i + 1)%Z) as [Hlen Hk]; [lia..|]. cbn [length]. split; [lia|].
  intros [|k] Hlt; [by rewrite Z.add_0_r|]. simpl. rewrite Hk by (simpl in Hlt; lia). f_equal. lia.
Qed.

Lemma stream_loop_past fuel source i e : (e < i)%Z → stream_loop fuel source (fun _ => false) i e = [].
Proof. intros Hlt. destruct fuel; [done|]. simpl. by rewrite (proj2 (Z.ltb_lt _ _)). Qed.

Lemma stream_loop_none fuel source i e :
  bs_GetBlock source i = None → stream_loop fuel source (fun _ => false) i e = [].
Proof. intros Hn. destruct fuel; [done|]. cbn [stream_loop]. rewrite Hn. by destruct (_ <? _)%Z. Qed.

(** [StreamBlocks] delivers, in order and without gaps, the blocks from the requested
    index, as many as the source has and at most maxStreamBlocks. *)
Theorem stream_blocks_spec s source start fuel :
  sv_source s = Some source → dense source → (0 < sv_maxStreamBlocks s)%Z → (0 <= start)%Z →
  (start + sv_maxStreamBlocks s <= 2 ^ 64)%Z → (sv_maxStreamBlocks s <= Z.of_nat fuel)%Z →
  ∃ l, StreamBlocks fuel (fun _ => false) s start = Ok l ∧
    Z.of_nat (length l) = Z.max 0 (Z.min (sv_maxStreamBlocks s) (bs_BlockCount source - start)) ∧
    ∀ k, k < length l → l !! k = bs_GetBlock source (start + Z.of_nat k).
Proof.
  intros Hs Hd Hm H0 Hov Hf. unfold StreamBlocks. rewrite Hs. eexists. split; [done|].
  unfold stream_end. rewrite u64_small by (unfold u64_ok; lia). pose proof Hd as [[Hc0 Hc] Hdense].
  destruct (decide (bs_BlockCount source = 0)%Z) as [Hz|Hz].
  { rewrite Hz. simpl. rewrite stream_loop_none.
    - split; [simpl; lia|]. intros k Hk. simpl in Hk. lia.
    - apply eq_None_not_Some. rewrite Hdense by done. lia. }
  rewrite (proj2 (Z.ltb_lt 0 _)) by lia. simpl.
  destruct (Z.leb_spec (bs_BlockCount source) (start + sv_maxStreamBlocks s - 1)) as [Hle|Hgt].
  - destruct (decide (start <= bs_BlockCount source)%Z) as [Hin|Hout].
    + destruct (stream_loop_spec source (bs_BlockCount source - 1) Hd ltac:(lia) fuel start) as [Hl Hk]; [lia..|].
      split; [rewrite Hl; lia|done].
    + rewrite stream_loop_past by lia. split; [simpl; lia|]. intros k Hk. simpl in Hk. lia.
  - destruct (stream_loop_spec source (start + sv_maxStreamBlocks s - 1) Hd ltac:(lia) fuel start) as [Hl Hk]; [lia..|].
    split; [rewrite Hl; lia|done].
Qed.

(** ** A panic *)

Lemma bit_at_app_l a b i : i < length a * 8 → bit_at (a ++ b) i = bit_at a i.
Proof.
  intros Hi. unfold bit_at. rewrite lookup_app_l; [done|]. apply Nat.Div0.div_lt_upper_bound. lia.
Qed.

Lemma bit_at_zeros n i : bit_at (zeros n) i = false.
Proof.
  unfold bit_at, zeros. destruct (_ !! _) as [b|] eqn:E; [|done].
  apply lookup_replicate_1 in E as [-> _]. apply Z.testbit_0_l.
Qed.

Lemma bit_at_ones n m i : n * 8 ≤ i → i < (n + m) * 8 → bit_at (zeros n ++ replicate m 255%Z) i = true.
Proof.
  intros Hlo Hhi. unfold bit_at. rewrite lookup_app_r by (rewrite length_zeros; apply Nat.div_le_lower_bound; lia).
  rewrite length_zeros, lookup_replicate_2.
  - pose proof (Nat.mod_upper_bound i 8).
    generalize dependent (i mod 8). intros j Hj. do 8 (destruct j as [|j]; [done|]). lia.
  - assert (i / 8 < n + m) by (apply Nat.Div0.div_lt_upper_bound; lia).
    assert (n ≤ i / 8) by (apply Nat.div_le_lower_bound; lia). lia.
Qed.

Lemma marked_ones n m : marked (zeros n ++ replicate m 255%Z) = seq (n * 8) (m * 8).
Proof.
  unfold marked. rewrite length_app, length_zeros, length_replicate, Nat.mul_add_distr_r, seq_app, filter_app.
  rewrite filter_none, filter_all; [done| |].
  - apply Forall_forall. intros i Hi%elem_of_seq. rewrite bitSet_bit_at. apply bit_at_ones; lia.
  - apply Forall_forall. intros i Hi%elem_of_seq. rewrite bitSet_bit_at, bit_at_app_l, bit_at_zeros; [done|].
    rewrite length_zeros. lia.
Qed.

Section panic.
Context `{Primitives, Cbor}.

(** A block with made-up signatures, all attributed to positions past the validator set. *)
Definition forged (block : Block) (n : nat) : Block :=
  set_sigs block (Some (zeros n ++ replicate n 255%Z)) (Some (replicate (n * 8) []))
    (<[degraded_label := string_bytes "true"]> (b_Metadata block)).

(** Anyone can make a light client panic, without any key: a block whose hashed contents
    are consistent and which links to the anchor, given a bitmap that marks only positions
    past the validator set and as many empty signatures, passes the quorum count and then
    indexes the trusted set out of range. *)
Theorem light_verify_panics block anchor :
  b_ProtocolVersion block = 2%Z → ta_Validators anchor ≠ [] → linked block anchor →
  checkValidatorSet (b_Validators block) (ta_Validators anchor) = Ok tt →
  ComputeBlockHash block = b_BlockHash block →
  b_Proposer block ∈ v_ValidatorID <$> ta_Validators anchor →
  VerifyBlock (Some (forged block (length (ta_Validators anchor)))) anchor = Panic.
Proof.
  intros Hver Hne Hlink Hset Hhash Hprop. set (n := length (ta_Validators anchor)).
  assert (Hn : n ≠ 0) by (unfold n; by destruct (ta_Validators anchor)).
  assert (Hsg : bitmapSigners (forged block n) = Ok (seq (n * 8) (n * 8))).
  { unfold bitmapSigners. cbn [forged set_sigs b_PrepareSigsBitmap b_PrepareSigs elems from_option id].
    rewrite marked_ones, length_seq, length_replicate, Nat.eqb_refl. done. }
  assert (Hdeg : isDegradedBlock (forged block n) = true).
  { unfold isDegradedBlock, is_degraded_block. cbn [forged set_sigs b_Metadata].
    by rewrite lookup_insert_eq, bool_decide_eq_true_2. }
  assert (Hq : (length (seq (n * 8) (n * 8)) <? requiredQuorum n)%nat = false).
  { apply Nat.ltb_ge. rewrite length_seq. unfold requiredQuorum, normalQuorum.
    pose proof (QuorumRequired_bounds n) as Hb. unfold QuorumRequired in Hb.
    destruct (n <? DegradedThreshold)%nat; [lia|]. rewrite (proj2 (Nat.eqb_neq n 0)) by done. lia. }
  unfold VerifyBlock. fold n. rewrite Hsg, Hdeg. cbn [outcome_bind].
  change (b_ProtocolVersion (forged block n)) with (b_ProtocolVersion block). rewrite Hver.
  rewrite (proj2 (Nat.eqb_neq n 0)) by done. cbn [Z.eqb Pos.eqb negb fail_if outcome_bind].
  change (check_link (forged block n) anchor) with (check_link block anchor).
  rewrite (proj2 (check_link_Ok block anchor) Hlink). cbn [outcome_bind].
  change (b_Validators (forged block n)) with (b_Validators block). rewrite Hset. cbn [outcome_bind].
  change (ComputeBlockHash (forged block n)) with (ComputeBlockHash block).
  change (b_BlockHash (forged block n)) with (b_BlockHash block).
  change (b_Proposer (forged block n)) with (b_Proposer block).
  rewrite (bool_decide_eq_true_2 (ComputeBlockHash block = b_BlockHash block)) by done.
  rewrite (bool_decide_eq_false_2 (indexOf _ _ = None)) by (rewrite indexOf_None; tauto).
  rewrite andb_false_r, Hq. cbn [negb fail_if outcome_bind].
  cbn [forged set_sigs b_PrepareSigs elems from_option id]. destruct n as [|n'] eqn:En; [done|].
  cbn [Nat.mul Nat.add replicate credit_loop seq].
  unfold index at 1. cbn [lookup list_lookup]. cbn [outcome_bind].
  unfold index at 1. rewrite (proj2 (lookup_ge_None _ _)); [done|]. fold n. lia.
Qed.
End panic.

(** ** Anchored entries *)

Section anchored.
Context `{Primitives, Cbor} `{!Blake3Length}.

(** The prover of a full node: its tree (Engine.ProveSMT, Engine.VerifySMT). *)
Definition tree_prover (t : SparseMerkleTree) : SMTProver :=
  {| sp_ProveSMT k := match Smt.Prove t k with Some p => Ok p | None => Err (ErrText "key not found") end;
     sp_VerifySMT := Smt.Verify t |}.

(** What [VerifyAnchored] accepts is anchored: if the block's state root is the root of a
    tree built from a run of insertions, an accepted proof shows that the entry's hash was
    inserted, unless a digest on the way collides. The verifying tree may be any tree of
    the same depth. *)
Theorem verify_anchored_sound s v block kvs t key proof :
  sv_prover s = Some (tree_prover v) → t_depth v = t_depth t →
  run_ok (t_depth t) kvs → BulkInsert (Smt.New (t_depth t)) kvs = Some t → b_StateRoot block = Root t →
  entry_ok key key → Forall (fun p => length p = hashLen) proof →
  run_hash_ok (t_depth t) kvs (leaf_msg key key :: verify_msgs key (leafHash key key) proof
    (Z.of_nat (t_depth t) - Z.of_nat (length proof))) →
  VerifyAnchored s (Some block) key proof = Ok tt →
  last_write kvs key = Some key.
Proof.
  intros Hs Hd Hrun Hb Hroot Hkey Hp HD Hv. cbn [VerifyAnchored] in Hv.
  apply bind_Ok in Hv as (root & Hr & Hv). unfold stateRootOf in Hr.
  destruct (length (b_StateRoot block) =? 32) eqn:El; simpl in Hr; [|done]. apply Nat.eqb_eq in El.
  injection Hr as <-. rewrite copy_array_id, Hs in Hv by done. cbn [tree_prover sp_VerifySMT] in Hv.
  destruct (Smt.Verify v key key (b_StateRoot block) proof) eqn:Ev; [|done].
  apply (Verify_sound (t_depth t) kvs t key key proof Hrun Hb Hkey Hp HD).
  rewrite <- Hroot. unfold Smt.Verify in *. by rewrite <- Hd.
Qed.
End anchored.

(** ** Concrete instances *)

Definition demo_info (k : Z) : ValidatorInfo :=
  {| v_ValidatorID := k :: zeros 15; v_Dilithium3PK := toy_public (key32 k);
     v_VRFPK := zeros 32; v_ContractHash := zeros 32 |}.

Definition demo_infos : list ValidatorInfo := demo_info <$> [1; 2; 3; 4]%Z.

(** An unsigned first block by validator 1, and the same block signed by all four. *)
Definition light_body (ts : Z) (md : gmap string bytes) : Block :=
  {| b_Index := 0; b_PrevHash := zeros 32; b_StateRoot := key32 2; b_Proposer := 1%Z :: zeros 15;
     b_Anchored := Some []; b_Lambda1 := S754_zero false; b_Timestamp := ts;
     b_Validators := demo_infos; b_Quorum := DefaultQuorumConfig; b_BlockHash := [];
     b_ProtocolVersion := 2; b_PrepareSigsBitmap := None; b_PrepareSigs := None;
     b_CommitSig := []; b_ExternalAnchors := []; b_KeyRotationEpoch := 0;
     b_LegacyAnchor := []; b_Metadata := md |}.

Definition light_block (ts : Z) (md : gmap string bytes) : Block :=
  let b := light_body ts md in
  let h := ComputeBlockHash b in
  {| b_Index := b_Index b; b_PrevHash := b_PrevHash b; b_StateRoot := b_StateRoot b;
     b_Proposer := b_Proposer b; b_Anchored := b_Anchored b; b_Lambda1 := b_Lambda1 b;
     b_Timestamp := ts; b_Validators := b_Validators b; b_Quorum := b_Quorum b; b_BlockHash := h;
     b_ProtocolVersion := 2; b_PrepareSigsBitmap := Some [15%Z];
     b_PrepareSigs := Some ((fun k => SignDilithium (key32 k) h) <$> [1; 2; 3; 4]%Z);
     b_CommitSig := SignDilithium (key32 1) h; b_ExternalAnchors := []; b_KeyRotationEpoch := 0;
     b_LegacyAnchor := []; b_Metadata := md |}.

Definition demo_anchor : TrustAnchor :=
  {| ta_BlockIndex := 0; ta_BlockHash := None; ta_Validators := demo_infos; ta_Rotations := [] |}.

Lemma light_block_accepted_1 : VerifyBlock (Some (light_block 5 ∅)) demo_anchor = Ok tt.
Proof. vm_compute. reflexivity. Qed.

Lemma light_block_accepted_2 :
  VerifyBlock (Some (light_block 5 {[ "note" := [1%Z] ]})) demo_anchor = Ok tt.
Proof. vm_compute. reflexivity. Qed.

Lemma light_accountability_witness :
  ∃ both, NoDup both ∧ 4 ≤ 3 * length both ∧
    Forall (fun i => light_signer demo_anchor (light_block 5 ∅) i ∧
                     light_signer demo_anchor (light_block 6 ∅) i) both.
Proof.
  apply (light_accountability (light_block 5 ∅) (light_block 6 ∅) demo_anchor).
  - simpl. lia.
  - exact light_block_accepted_1.
  - vm_compute. reflexivity.
Defined.

Lemma light_block_wf md : block_wf (light_block 5 md).
Proof. split; simpl; unfold u64_ok, i64_ok; (lia || done). Qed.

Lemma light_history_unique_witness :
  block_committed <$> [light_block 5 ∅] = block_committed <$> [light_block 5 {[ "note" := [1%Z] ]}].
Proof.
  apply (light_history_unique 0 None [] [] (light_block 5 ∅) (light_block 5 {[ "note" := [1%Z] ]})).
  - apply (accepts_cons demo_anchor); [exact light_block_accepted_1|constructor].
  - apply (accepts_cons demo_anchor); [exact light_block_accepted_2|constructor].
  - constructor; [apply light_block_wf|constructor].
  - constructor; [apply light_block_wf|constructor].
  - intros b1 b2 E1%list_elem_of_singleton E2%list_elem_of_singleton. subst. split; intros _; reflexivity.
  - reflexivity.
  - reflexivity.
  - vm_compute. reflexivity.
Defined.

Definition demo_source : BlockSource :=
  {| bs_GetBlock i := if (0 <=? i)%Z then [light_block 5 ∅; light_block 6 ∅; light_block 7 ∅] !! Z.to_nat i
                      else None;
     bs_BlockCount := 3 |}.

Lemma demo_source_dense : dense demo_source.
Proof.
  split; [unfold u64_ok; simpl; lia|]. intros i Hi. cbn [demo_source bs_GetBlock bs_BlockCount].
  rewrite (proj2 (Z.leb_le 0 i)) by done. rewrite lookup_lt_is_Some. cbn [length]. lia.
Qed.

Definition demo_service : Service := NewService (Some demo_source) None [WithMaxStreamBlocks 2].

Lemma stream_blocks_spec_witness :
  ∃ l, StreamBlocks 5 (fun _ => false) demo_service 1 = Ok l ∧ Z.of_nat (length l) = 2%Z ∧
    ∀ k, k < length l → l !! k = bs_GetBlock demo_source (1 + Z.of_nat k).
Proof.
  apply (stream_blocks_spec demo_service demo_source 1 5).
  - reflexivity.
  - exact demo_source_dense.
  - reflexivity.
  - lia.
  - vm_compute. discriminate.
  - vm_compute. discriminate.
Defined.

Lemma light_verify_panics_witness :
  VerifyBlock (Some (forged (light_block 5 ∅) 4)) demo_anchor = Panic.
Proof.
  apply (light_verify_panics (light_block 5 ∅) demo_anchor).
  - reflexivity.
  - discriminate.
  - reflexivity.
  - vm_compute. reflexivity.
  - vm_compute. reflexivity.
  - cbn. left.
Defined.

Definition anchored_kvs : list (bytes * bytes) := [(key32 1, key32 1); (key32 2, key32 2)].

Definition anchored_tree : SparseMerkleTree :=
  default (Smt.New 8) (BulkInsert (Smt.New 8) anchored_kvs).

Definition anchored_block : Block :=
  let b := light_body 5 ∅ in
  {| b_Index := b_Index b; b_PrevHash := b_PrevHash b; b_StateRoot := Root anchored_tree;
     b_Proposer := b_Proposer b; b_Anchored := b_Anchored b; b_Lambda1 := b_Lambda1 b;
     b_Timestamp := 5; b_Validators := b_Validators b; b_Quorum := b_Quorum b; b_BlockHash := [];
     b_ProtocolVersion := 2; b_PrepareSigsBitmap := None; b_PrepareSigs := None; b_CommitSig := [];
     b_ExternalAnchors := []; b_KeyRotationEpoch := 0; b_LegacyAnchor := []; b_Metadata := ∅ |}.

Definition anchored_proof : list bytes := default [] (Smt.Prove anchored_tree (key32 2)).

Definition anchored_service : Service := NewService None (Some (tree_prover (Smt.New 8))) [].

Lemma verify_anchored_sound_witness :
  VerifyAnchored anchored_service (Some anchored_block) (key32 2) anchored_proof = Ok tt ∧
  last_write anchored_kvs (key32 2) = Some (key32 2).
Proof.
  assert (HV : VerifyAnchored anchored_service (Some anchored_block) (key32 2) anchored_proof = Ok tt)
    by (vm_compute; reflexivity).
  split; [exact HV|].
  assert (Hd : t_depth anchored_tree = 8) by (vm_compute; reflexivity).
  apply (verify_anchored_sound anchored_service (Smt.New 8) anchored_block anchored_kvs anchored_tree
           (key32 2) anchored_proof); rewrite ?Hd.
  - reflexivity.
  - reflexivity.
  - apply run_okb_ok. vm_compute. reflexivity.
  - vm_compute. reflexivity.
  - reflexivity.
  - split; vm_compute; reflexivity.
  - vm_compute. repeat constructor.
  - apply run_hash_okb_ok. vm_compute. reflexivity.
  - exact HV.
Defined.
