(* ===== verification/State.v ===== *)
(** * Network state transition and supervision (pkg/state: apply.go, root.go, laplacian.go,
    power_iter.go)

    Floats are IEEE binary64 values of [SpecFloat]. The linear algebra of gonum/mat is a
    parameter ([Gonum]); what this package computes around it is written out. *)
From Stdlib Require Import SpecFloat.
From S2P Require Import Prelude Crypto Errors Chain Config.

(** ** Float arithmetic *)

Definition fadd (x y : float64) : float64 := SFadd 53 1024 x y.
Definition fsub (x y : float64) : float64 := SFsub 53 1024 x y.
Definition fmul (x y : float64) : float64 := SFmul 53 1024 x y.
Definition fdiv (x y : float64) : float64 := SFdiv 53 1024 x y.
Definition fzero : float64 := S754_zero false.
Definition fone : float64 := S754_finite false 4503599627370496 (-52).
Definition flt (x y : float64) : bool := SFltb x y.
Definition fle (x y : float64) : bool := SFleb x y.
Definition feq (x y : float64) : bool := SFeqb x y.
Definition f_of_nat (n : nat) : float64 := binary_normalize 53 1024 (Z.of_nat n) 0 false.

(** [math.Max]. *)
Definition math_Max (x y : float64) : float64 :=
  match x, y with
  | S754_infinity false, _ | _, S754_infinity false => S754_infinity false
  | S754_nan, _ | _, S754_nan => S754_nan
  | S754_zero sx, S754_zero sy => if sx then y else x
  | _, _ => if flt y x then x else y
  end.

(** Decimal digits of a natural number ([%d]). *)
Fixpoint decimal_loop (fuel : nat) (n : Z) (acc : string) : string :=
  match fuel with
  | O => acc
  | S fuel' =>
      let acc' := String (Ascii.ascii_of_nat (Z.to_nat (48 + n mod 10))) acc in
      if (n <? 10)%Z then acc' else decimal_loop fuel' (n / 10)%Z acc'
  end.

Definition decimal (n : Z) : string := decimal_loop (S (Z.to_nat (Z.log2 n))) n "".

(** [%.6f]: the exact binary value rounded to six decimals, ties to even. *)
Definition scaled6 (m : positive) (e : Z) : Z :=
  if (0 <=? e)%Z then (Z.pos m * 2 ^ e * 10 ^ 6)%Z
  else
    let num := (Z.pos m * 10 ^ 6)%Z in
    let den := (2 ^ (- e))%Z in
    let q := (num / den)%Z in
    match ((2 * (num mod den)) ?= den)%Z with
    | Lt => q
    | Gt => (q + 1)%Z
    | Eq => if Z.even q then q else (q + 1)%Z
    end.

Definition pad6 (n : Z) : string :=
  let d := decimal n in
  String.append (String.concat "" (replicate (6 - String.length d) "0")) d.

Definition format6 (x : float64) : string :=
  match x with
  | S754_nan => "NaN"
  | S754_infinity s => if s then "-Inf" else "+Inf"
  | S754_zero s => if s then "-0.000000" else "0.000000"
  | S754_finite s m e =>
      let q := scaled6 m e in
      String.append (if s then "-" else "")
        (String.append (decimal (q / 10 ^ 6)) (String.append "." (pad6 (q mod 10 ^ 6))))
  end.

(** ** Linear algebra *)

Definition vec : Type := list float64.
Definition matrix : Type := list (list float64).

(** What the package uses of gonum/mat. *)
Class Gonum := {
  cholesky : Type;
  mat_Factorize : matrix → option cholesky;
  mat_SolveVecTo : cholesky → vec → option vec;
  mat_EigenValues : matrix → option vec;
  mat_Sum : vec → float64;
  mat_Norm2 : vec → float64;
  mat_Dot : vec → vec → float64;
  mat_MulVec : matrix → vec → vec;
}.

Record Lambda1Options := MkLambda1Options {
  lo_MaxIter : Z;
  lo_Tolerance : float64;
  lo_Shift : float64;
}.

Definition f_1e8inv : float64 := S754_finite false 6044629098073146 (-79).
Definition f_1e2inv : float64 := S754_finite false 5764607523034235 (-59).

Definition DefaultLambda1Options : Lambda1Options :=
  {| lo_MaxIter := 300; lo_Tolerance := f_1e8inv; lo_Shift := f_1e2inv |}.

(** The inner loop of the exchange sort: one position against the rest. *)
Fixpoint sort_pass (x : string) (rest : list string) : string * list string :=
  match rest with
  | [] => (x, [])
  | y :: r =>
      if bytes_ltb (string_bytes y) (string_bytes x)
      then let '(m, r') := sort_pass y r in (m, x :: r')
      else let '(m, r') := sort_pass x r in (m, y :: r')
  end.

Fixpoint exchange_sort (fuel : nat) (uids : list string) : list string :=
  match fuel, uids with
  | S fuel', x :: rest => let '(m, rest') := sort_pass x rest in m :: exchange_sort fuel' rest'
  | _, _ => uids
  end.

Fixpoint index_of (uids : list string) (u : string) : option nat :=
  match uids with
  | [] => None
  | x :: r => if bool_decide (x = u) then Some 0 else S <$> index_of r u
  end.

(** The weight matrix: later edges overwrite earlier ones, in both directions. *)
Definition weights (uids : list string) (edges : list Edge) : gmap (nat * nat) float64 :=
  foldl (fun w e =>
    match index_of uids (ed_From e), index_of uids (ed_To e) with
    | Some i, Some j => <[(j, i) := ed_Weight e]> (<[(i, j) := ed_Weight e]> w)
    | _, _ => w
    end) ∅ edges.

Definition weight_at (w : gmap (nat * nat) float64) (i j : nat) : float64 := default fzero (w !! (i, j)).

Definition degree (w : gmap (nat * nat) float64) (n i : nat) : float64 :=
  foldl (fun d j => if (i =? j)%nat then d else fadd d (weight_at w i j)) fzero (seq 0 n).

Definition laplacian_matrix (w : gmap (nat * nat) float64) (n : nat) : matrix :=
  (fun i => (fun j => if (i =? j)%nat then degree w n i else SFopp (weight_at w i j)) <$> seq 0 n) <$> seq 0 n.

Definition BuildLaplacianWithOrder (edges : list Edge) (nodes : gmap string NodeState) :
    option (matrix * list string) :=
  let n := size nodes in
  if (n <? 2)%nat then None
  else
    let uids := exchange_sort n (map_to_list nodes).*1 in
    Some (laplacian_matrix (weights uids edges) n, uids).

(** [L + shift * I]. *)
Definition shifted (l : matrix) (shift : float64) : matrix :=
  imap (fun i row => imap (fun j v => if (i =? j)%nat then fadd v shift else v) row) l.

Definition hashGraphStructure (edges : list Edge) (nodes : gmap string NodeState) : string :=
  foldl (fun h e =>
    String.append h (String.append "|" (String.append (ed_From e) (String.append "->"
      (String.append (ed_To e) (String.append ":" (format6 (ed_Weight e))))))))
    (decimal (Z.of_nat (size nodes))) edges.

Section supervision.
Context `{Gonum}.

Definition computeLambda1EigenSym (l : matrix) : float64 :=
  match mat_EigenValues l with
  | None => fzero
  | Some values =>
      match values !! 1 with
      | None => fzero
      | Some lambda1 => if flt lambda1 fzero then fzero else lambda1
      end
  end.

(** Subtract the mean and normalise. *)
Definition orthogonalise (n : nat) (b : vec) : vec :=
  let mean := fdiv (mat_Sum b) (f_of_nat n) in
  let b1 := (fun x => fsub x mean) <$> b in
  let s := fdiv fone (mat_Norm2 b1) in
  (fun x => fmul s x) <$> b1.

(** The iteration of [computeLambda1PowerIterWithFact]; the denominator is x.b. *)
Fixpoint power_loop (iters : nat) (l : matrix) (chol : cholesky) (tol : float64) (n : nat) (b : vec)
    (lambda : float64) : float64 :=
  match iters with
  | O => fzero
  | S iters' =>
      match mat_SolveVecTo chol b with
      | None => fzero
      | Some x =>
          let xTLx := mat_Dot x (mat_MulVec l x) in
          let xTx := mat_Dot x b in
          if feq xTx fzero then fzero
          else
            let lambdaNew := fdiv xTLx xTx in
            if flt fzero lambda &&
               flt (fdiv (SFabs (fsub lambdaNew lambda)) (math_Max (SFabs lambdaNew) fone)) tol
            then lambdaNew
            else power_loop iters' l chol tol n (orthogonalise n x) lambdaNew
      end
  end.

Definition computeLambda1PowerIterWithFact (l : matrix) (chol : cholesky) (opts : Lambda1Options) : float64 :=
  let n := length l in
  power_loop (Z.to_nat (lo_MaxIter opts)) l chol (lo_Tolerance opts) n
    (orthogonalise n (replicate n fone)) fzero.

Record IncrementalLaplacian := MkLaplacian {
  il_laplacian : matrix;
  il_cholFact : option cholesky;
  il_shift : float64;
  il_nodeOrder : list string;
  il_isDirty : bool;
  il_opts : Lambda1Options;
  il_lastLambda1 : float64;
  il_lastGraphHash : string;
}.

Definition NewIncrementalLaplacian (opts : Lambda1Options) : IncrementalLaplacian :=
  let opts' := {| lo_MaxIter := if (lo_MaxIter opts <=? 0)%Z then 300%Z else lo_MaxIter opts;
                  lo_Tolerance := if fle (lo_Tolerance opts) fzero then f_1e8inv else lo_Tolerance opts;
                  lo_Shift := if fle (lo_Shift opts) fzero then f_1e2inv else lo_Shift opts |} in
  {| il_laplacian := []; il_cholFact := None; il_shift := fzero; il_nodeOrder := [];
     il_isDirty := false; il_opts := opts'; il_lastLambda1 := fzero; il_lastGraphHash := "" |}.

Definition DefaultIncrementalLaplacian : IncrementalLaplacian :=
  NewIncrementalLaplacian DefaultLambda1Options.

Definition MarkDirty (il : IncrementalLaplacian) : IncrementalLaplacian :=
  {| il_laplacian := il_laplacian il; il_cholFact := None; il_shift := il_shift il;
     il_nodeOrder := il_nodeOrder il; il_isDirty := true; il_opts := il_opts il;
     il_lastLambda1 := il_lastLambda1 il; il_lastGraphHash := il_lastGraphHash il |}.

Definition set_lambda (il : IncrementalLaplacian) (chol : option cholesky) (x : float64) : IncrementalLaplacian :=
  {| il_laplacian := il_laplacian il; il_cholFact := chol; il_shift := il_shift il;
     il_nodeOrder := il_nodeOrder il; il_isDirty := il_isDirty il; il_opts := il_opts il;
     il_lastLambda1 := x; il_lastGraphHash := il_lastGraphHash il |}.

(** The cached factorisation is only read for [n >= 20]. *)
Definition computeLambda1FromCache (il : IncrementalLaplacian) (chol : cholesky) : float64 :=
  let n := length (il_laplacian il) in
  if (n <? 2)%nat then fzero
  else if (n <? 20)%nat then computeLambda1EigenSym (il_laplacian il)
  else computeLambda1PowerIterWithFact (il_laplacian il) chol (il_opts il).

(** [Compute] after a cache miss: rebuild, factorise, compute. On a factorisation error the
    previous factorisation stays in the cache. *)
Definition recompute_cache (il : IncrementalLaplacian) (l : matrix) (order : list string) (graphHash : string) :
    IncrementalLaplacian * outcome gerror float64 :=
  let shift := lo_Shift (il_opts il) in
  let il1 := {| il_laplacian := l; il_cholFact := il_cholFact il; il_shift := shift;
                il_nodeOrder := order; il_isDirty := false; il_opts := il_opts il;
                il_lastLambda1 := il_lastLambda1 il; il_lastGraphHash := graphHash |} in
  match mat_Factorize (shifted l shift) with
  | None => (il1, Err (ErrText "matrix is not positive definite: Cholesky factorization failed"))
  | Some chol =>
      let lambda1 := computeLambda1FromCache il1 chol in
      (set_lambda il1 (Some chol) lambda1, Ok lambda1)
  end.

(** The new cache, and the value or the factorisation error. *)
Definition Compute (il : IncrementalLaplacian) (nodes : gmap string NodeState) (edges : list Edge) :
    IncrementalLaplacian * outcome gerror float64 :=
  match BuildLaplacianWithOrder edges nodes with
  | None => (set_lambda il (il_cholFact il) fzero, Ok fzero)
  | Some (l, order) =>
      let graphHash := hashGraphStructure edges nodes in
      match il_cholFact il with
      | Some chol =>
          if bool_decide (graphHash = il_lastGraphHash il) && negb (il_isDirty il)
          then let lambda1 := computeLambda1FromCache il chol in
               (set_lambda il (Some chol) lambda1, Ok lambda1)
          else recompute_cache il l order graphHash
      | None => recompute_cache il l order graphHash
      end
  end.
End supervision.

(** ** State transition *)

(** The canonical CBOR encoding of [networkStateForRoot]. *)
Class StateCbor := {
  cbor_root_state : Z → gmap string NodeState → list Edge → float64 → option bytes;
}.

Section transition.
Context `{Primitives, StateCbor, Gonum}.

Definition ComputeSupervisionRoot (s : NetworkState) : outcome gerror bytes :=
  match cbor_root_state (st_Cycle s) (st_Nodes s) (st_Graph s) (st_Lambda1 s) with
  | None => Panic
  | Some data => Ok (blake3 data)
  end.

Definition apply_heartbeat (cfg : Config) (heartbeats : list string) (uid : string) (node : NodeState) : NodeState :=
  if existsb (fun h => bool_decide (uid = h)) heartbeats
  then {| ns_UID := ns_UID node; ns_Status := fone; ns_Consecutive := u64 (ns_Consecutive node + 1);
          ns_JoinCycle := ns_JoinCycle node; ns_Dilithium3PK := ns_Dilithium3PK node;
          ns_VRFPK := ns_VRFPK node |}
  else
    let status := fsub (ns_Status node) (DecayRate cfg) in
    {| ns_UID := ns_UID node; ns_Status := if flt status fzero then fzero else status;
       ns_Consecutive := 0; ns_JoinCycle := ns_JoinCycle node;
       ns_Dilithium3PK := ns_Dilithium3PK node; ns_VRFPK := ns_VRFPK node |}.

(** Comparing the graph with itself: an edge differs only when its weight is not equal to
    itself. *)
Definition graph_changed (newNodes nodes : gmap string NodeState) (newEdges edges : list Edge) : bool :=
  negb (size newNodes =? size nodes)%nat || negb (length newEdges =? length edges)%nat ||
  existsb (fun '(e1, e2) => negb (feq (ed_Weight e1) (ed_Weight e2))) (zip newEdges edges).

(** [recompute] of [Apply]: modulus by a zero interval is guarded by the first disjunct. *)
Definition recompute_due (s : NetworkState) (cfg : Config) (nextCycle : Z) : bool :=
  (LambdaInterval cfg =? 0)%Z || feq (st_Lambda1 s) fzero || (nextCycle mod LambdaInterval cfg =? 0)%Z.

Definition Apply (s : NetworkState) (prevRoot : bytes) (heartbeats : list string) (cfg : Config)
    (laplacian : IncrementalLaplacian) : IncrementalLaplacian * outcome gerror NetworkState :=
  if (0 <? st_Cycle s)%Z && negb (bool_decide (prevRoot = st_SupervisionRoot s))
  then (laplacian, Err ErrChainBroken)
  else
    let newNodes := map_imap (fun uid node => Some (apply_heartbeat cfg heartbeats uid node)) (st_Nodes s) in
    let newGraph := st_Graph s in
    let nextCycle := u64 (st_Cycle s + 1) in
    let changed := graph_changed newNodes (st_Nodes s) newGraph (st_Graph s) in
    let lap1 := if changed then MarkDirty laplacian else laplacian in
    let '(lap2, lambda1) :=
      if changed || recompute_due s cfg nextCycle then
        match Compute lap1 newNodes newGraph with
        | (lap', Ok l) => (lap', l)
        | (lap', _) => (lap', fzero)
        end
      else (lap1, st_Lambda1 s) in
    if (2 <=? size newNodes)%nat && flt lambda1 (MinLambda1 cfg)
    then (lap2, Err ErrNetworkFragmented)
    else
      let next := {| st_Cycle := nextCycle; st_Nodes := newNodes; st_Graph := newGraph;
                     st_Lambda1 := lambda1; st_SupervisionRoot := zeros 32;
                     st_ActiveMandates := st_ActiveMandates s; st_ValidatorSet := st_ValidatorSet s |} in
      (lap2, (root <-! ComputeSupervisionRoot next ;;
              Ok {| st_Cycle := nextCycle; st_Nodes := newNodes; st_Graph := newGraph;
                    st_Lambda1 := lambda1; st_SupervisionRoot := root;
                    st_ActiveMandates := st_ActiveMandates s;
                    st_ValidatorSet := st_ValidatorSet s |})%go).
End transition.
