(* ===== verification/StateTheorems.v ===== *)
(** * Properties of the network state transition *)
From Stdlib Require Import SpecFloat.
From S2P Require Import Prelude Crypto Toy Errors Chain Config State.

(** ** Node order *)

Lemma sort_pass_spec x rest m rest' :
  sort_pass x rest = (m, rest') →
  m :: rest' ≡ₚ x :: rest ∧ Forall (key_le string_bytes m) rest'.
Proof.
  revert x m rest'. induction rest as [|y r IH]; intros x m rest'; simpl.
  { intros [= <- <-]. split; [done|constructor]. }
  destruct (bytes_ltb (string_bytes y) (string_bytes x)) eqn:E.
  - destruct (sort_pass y r) as [m' r'] eqn:Ep. intros [= <- <-]. destruct (IH _ _ _ Ep) as [Hp Hf].
    split; [rewrite Permutation_swap, Hp; done|]. constructor; [|done].
    assert (Hmy : key_le string_bytes m' y).
    { assert (Hin : y ∈ m' :: r') by (rewrite Hp; left). apply elem_of_cons in Hin as [->|Hin].
      - unfold key_le, bytes_le. apply bytes_ltb_irrefl.
      - rewrite Forall_forall in Hf. by apply Hf. }
    eapply (key_le_trans string_bytes); [exact Hmy|]. unfold key_le, bytes_le. by apply bytes_ltb_asym.
  - destruct (sort_pass x r) as [m' r'] eqn:Ep. intros [= <- <-]. destruct (IH _ _ _ Ep) as [Hp Hf].
    split; [rewrite Permutation_swap, Hp, Permutation_swap; done|]. constructor; [|done].
    assert (Hmx : key_le string_bytes m' x).
    { assert (Hin : x ∈ m' :: r') by (rewrite Hp; left). apply elem_of_cons in Hin as [->|Hin].
      - unfold key_le, bytes_le. apply bytes_ltb_irrefl.
      - rewrite Forall_forall in Hf. by apply Hf. }
    eapply (key_le_trans string_bytes); [exact Hmx|]. done.
Qed.

Lemma exchange_sort_spec n : ∀ uids, length uids ≤ n →
  exchange_sort n uids ≡ₚ uids ∧ StronglySorted (key_le string_bytes) (exchange_sort n uids).
Proof.
  induction n as [|n IH]; intros uids Hlen.
  { destruct uids; [|simpl in Hlen; lia]. split; [done|constructor]. }
  destruct uids as [|x rest]; [split; [done|constructor]|]. cbn [exchange_sort].
  destruct (sort_pass x rest) as [m rest'] eqn:Ep. destruct (sort_pass_spec _ _ _ _ Ep) as [Hp Hf].
  destruct (IH rest') as [Hp' Hs].
  { apply Permutation_length in Hp. simpl in *. lia. }
  split; [by rewrite Hp'|]. constructor; [done|]. by rewrite Hp'.
Qed.

(** ** The transition *)

Section transition.
Context `{Primitives, StateCbor, Gonum}.

Lemma Apply_nodes_size cfg hbs (nodes : gmap string NodeState) :
  dom (map_imap (fun uid node => Some (apply_heartbeat cfg hbs uid node)) nodes) = dom nodes.
Proof.
  apply set_eq. intros u. rewrite !elem_of_dom, map_lookup_imap.
  destruct (nodes !! u); simpl; split; intros [? ?]; eauto; done.
Qed.

(** The supervision root does not cover itself. *)
Lemma root_ignores_root c n g l r1 r2 m1 m2 v1 v2 :
  ComputeSupervisionRoot (MkNetworkState c n g l r1 m1 v1) = ComputeSupervisionRoot (MkNetworkState c n g l r2 m2 v2).
Proof. done. Qed.

Lemma Apply_cases s prevRoot hbs cfg lap :
  match snd (Apply s prevRoot hbs cfg lap) with
  | Ok next =>
      ((0 < st_Cycle s)%Z → prevRoot = st_SupervisionRoot s) ∧
      st_Cycle next = u64 (st_Cycle s + 1) ∧ st_Graph next = st_Graph s ∧
      st_ValidatorSet next = st_ValidatorSet s ∧ st_ActiveMandates next = st_ActiveMandates s ∧
      (∀ uid, st_Nodes next !! uid = apply_heartbeat cfg hbs uid <$> st_Nodes s !! uid) ∧
      ComputeSupervisionRoot next = Ok (st_SupervisionRoot next) ∧
      (2 ≤ size (st_Nodes next) → flt (st_Lambda1 next) (MinLambda1 cfg) = false)
  | Err ErrChainBroken => (0 < st_Cycle s)%Z ∧ prevRoot ≠ st_SupervisionRoot s
  | Err ErrNetworkFragmented => 2 ≤ size (st_Nodes s)
  | Err _ => False
  | Panic => ∃ nodes lambda1, cbor_root_state (u64 (st_Cycle s + 1)) nodes (st_Graph s) lambda1 = None
  end.
Proof.
  unfold Apply. destruct ((0 <? st_Cycle s)%Z && _) eqn:Eb.
  { apply andb_true_iff in Eb as [Hc%Z.ltb_lt Hr%negb_true_iff%bool_decide_eq_false]. done. }
  set (newNodes := map_imap _ (st_Nodes s)). set (changed := graph_changed _ _ _ _).
  destruct (if changed || recompute_due s cfg _ then _ else _) as [lap2 lambda1].
  assert (Hdom : size newNodes = size (st_Nodes s)).
  { rewrite <- !size_dom. unfold newNodes. by rewrite Apply_nodes_size. }
  destruct (2 <=? size newNodes)%nat eqn:Esz; simpl.
  2:{ destruct (ComputeSupervisionRoot _) as [root| |] eqn:Er; simpl.
      - split_and!; try done; [|by intros uid; unfold newNodes; rewrite map_lookup_imap; destruct (st_Nodes s !! uid)|].
        + intros Hc%Z.ltb_lt. rewrite Hc in Eb. by apply negb_false_iff, bool_decide_eq_true in Eb.
        + apply Nat.leb_gt in Esz. lia.
      - unfold ComputeSupervisionRoot in Er. by case_match.
      - unfold ComputeSupervisionRoot in Er. simpl in Er. case_match eqn:Ec; [done|]. eauto. }
  apply Nat.leb_le in Esz. destruct (flt lambda1 (MinLambda1 cfg)) eqn:El; simpl; [lia|].
  destruct (ComputeSupervisionRoot _) as [root| |] eqn:Er; simpl.
  - split_and!; try done; [|by intros uid; unfold newNodes; rewrite map_lookup_imap; destruct (st_Nodes s !! uid)].
    intros Hc%Z.ltb_lt. rewrite Hc in Eb. by apply negb_false_iff, bool_decide_eq_true in Eb.
  - unfold ComputeSupervisionRoot in Er. by case_match.
  - unfold ComputeSupervisionRoot in Er. simpl in Er. case_match eqn:Ec; [done|]. eauto.
Qed.

(** *** A declarative description of the transition *)

(** A node after the transition: active and counted once more when its identity is among the
    heartbeats; otherwise its count restarts and its status falls by the decay rate, but
    not below zero. The rest of the node does not change. *)
Record node_after (cfg : Config) (hbs : list string) (uid : string) (n n' : NodeState) : Prop := {
  na_identity : ns_UID n' = ns_UID n ∧ ns_JoinCycle n' = ns_JoinCycle n ∧
    ns_Dilithium3PK n' = ns_Dilithium3PK n ∧ ns_VRFPK n' = ns_VRFPK n;
  na_heard : uid ∈ hbs → ns_Status n' = fone ∧ ns_Consecutive n' = u64 (ns_Consecutive n + 1);
  na_silent : uid ∉ hbs → ns_Consecutive n' = 0%Z ∧
    let y := fsub (ns_Status n) (DecayRate cfg) in
    (flt y fzero = true → ns_Status n' = fzero) ∧ (flt y fzero = false → ns_Status n' = y);
}.

(** The same identities, each with its node after the transition. *)
Definition nodes_after (cfg : Config) (hbs : list string) (nodes nodes' : gmap string NodeState) : Prop :=
  dom nodes' = dom nodes ∧
  ∀ uid n n', nodes !! uid = Some n → nodes' !! uid = Some n' → node_after cfg hbs uid n n'.

(** Some weight of the graph is not equal to itself: the only way in which the graph, which
    the transition copies, differs from its copy. *)
Definition nan_weight (s : NetworkState) : Prop :=
  ∃ e, e ∈ st_Graph s ∧ feq (ed_Weight e) (ed_Weight e) = false.

(** When the connectivity is computed anew. *)
Definition lambda_due (s : NetworkState) (cfg : Config) : Prop :=
  LambdaInterval cfg = 0%Z ∨ feq (st_Lambda1 s) fzero = true ∨
  (u64 (st_Cycle s + 1) mod LambdaInterval cfg = 0)%Z ∨ nan_weight s.

(** The connectivity and the cache after the transition: as before when it is not due;
    otherwise the answer of [Compute] on the new nodes, whose error counts as zero, with a
    cache marked dirty when the graph differs from its copy. *)
Record lambda_after (s : NetworkState) (cfg : Config) (lap : IncrementalLaplacian) (nodes' : gmap string NodeState)
    (lap' : IncrementalLaplacian) (lambda1 : float64) : Prop := {
  la_kept : ¬ lambda_due s cfg → lambda1 = st_Lambda1 s ∧ lap' = lap;
  la_computed : lambda_due s cfg → ∃ lap1 r, Compute lap1 nodes' (st_Graph s) = (lap', r) ∧
    (nan_weight s → lap1 = MarkDirty lap) ∧ (¬ nan_weight s → lap1 = lap) ∧
    (r = Ok lambda1 ∨ (∃ e, r = Err e) ∧ lambda1 = fzero);
}.

Lemma apply_heartbeat_after cfg hbs uid n : node_after cfg hbs uid n (apply_heartbeat cfg hbs uid n).
Proof.
  assert (Hin : uid ∈ hbs ↔ existsb (fun h => bool_decide (uid = h)) hbs = true).
  { rewrite existsb_exists. setoid_rewrite <- list_elem_of_In. split.
    - intros Hu. exists uid. by rewrite bool_decide_eq_true.
    - by intros (h & Hh & ->%bool_decide_eq_true). }
  unfold apply_heartbeat. destruct (existsb _ hbs).
  - split; [done|done|]. intros Hno. by destruct Hno; apply Hin.
  - split; [done|by intros ?%Hin|]. intros _. split; [done|]. cbn [ns_Status]. by split; intros ->.
Qed.

Lemma nodes_after_heartbeats cfg hbs (nodes : gmap string NodeState) :
  nodes_after cfg hbs nodes (map_imap (fun uid node => Some (apply_heartbeat cfg hbs uid node)) nodes).
Proof.
  split; [apply Apply_nodes_size|]. intros uid n n' Hn. rewrite map_lookup_imap, Hn. intros [= <-].
  apply apply_heartbeat_after.
Qed.

Lemma graph_changed_copy nodes' s : dom nodes' = dom (st_Nodes s) →
  graph_changed nodes' (st_Nodes s) (st_Graph s) (st_Graph s) = true ↔ nan_weight s.
Proof.
  intros Hd. unfold graph_changed, nan_weight. rewrite <- !size_dom, Hd, !Nat.eqb_refl. cbn [negb orb].
  induction (st_Graph s) as [|e g IH]; cbn [zip zip_with existsb].
  - split; [done|]. by intros (e & ?%elem_of_nil & _).
  - rewrite orb_true_iff, negb_true_iff. split.
    + intros [Hf|(e' & He' & Hf)%IH]; [exists e; by split; [left|]|exists e'; by split; [right|]].
    + intros (e' & [->|He']%elem_of_cons & Hf); [by left|right]. apply IH. by exists e'.
Qed.

Lemma recompute_due_spec s cfg :
  recompute_due s cfg (u64 (st_Cycle s + 1)) = true ↔
  LambdaInterval cfg = 0%Z ∨ feq (st_Lambda1 s) fzero = true ∨ (u64 (st_Cycle s + 1) mod LambdaInterval cfg = 0)%Z.
Proof. unfold recompute_due. rewrite !orb_true_iff, !Z.eqb_eq. tauto. Qed.

Lemma Compute_total il nodes edges : snd (Compute il nodes edges) ≠ Panic.
Proof. unfold Compute, recompute_cache. by repeat case_match. Qed.

(** C26: The state transition on every branch. A previous root other than the current one is
    refused, except at cycle 0. Otherwise the nodes and the connectivity after it are those
    of [nodes_after] and [lambda_after]; it is refused as fragmented exactly when there are
    at least two nodes and that connectivity is below the minimum; else the new state has
    the next cycle, these nodes and this connectivity, the graph, mandates and validators
    of before and the digest of its own encoding as root, and a failed encoding is a panic. *)
Theorem apply_spec s prevRoot hbs cfg lap : ∃ nodes' lap' lambda1,
  nodes_after cfg hbs (st_Nodes s) nodes' ∧ lambda_after s cfg lap nodes' lap' lambda1 ∧
  let broken := (0 < st_Cycle s)%Z ∧ prevRoot ≠ st_SupervisionRoot s in
  let fragmented := 2 ≤ size (st_Nodes s) ∧ flt lambda1 (MinLambda1 cfg) = true in
  (broken → Apply s prevRoot hbs cfg lap = (lap, Err ErrChainBroken)) ∧
  (¬ broken → fragmented → Apply s prevRoot hbs cfg lap = (lap', Err ErrNetworkFragmented)) ∧
  (¬ broken → ¬ fragmented → Apply s prevRoot hbs cfg lap = (lap',
     match cbor_root_state (u64 (st_Cycle s + 1)) nodes' (st_Graph s) lambda1 with
     | Some data => Ok {| st_Cycle := u64 (st_Cycle s + 1); st_Nodes := nodes'; st_Graph := st_Graph s;
                          st_Lambda1 := lambda1; st_SupervisionRoot := blake3 data;
                          st_ActiveMandates := st_ActiveMandates s; st_ValidatorSet := st_ValidatorSet s |}
     | None => Panic
     end)).
Proof.
  pose proof (nodes_after_heartbeats cfg hbs (st_Nodes s)) as Hn. unfold Apply.
  set (nodes' := map_imap _ (st_Nodes s)) in *.
  pose proof (graph_changed_copy nodes' s (proj1 Hn)) as Hch. set (changed := graph_changed _ _ _ _) in *.
  pose proof (recompute_due_spec s cfg) as Hdue. set (due := recompute_due _ _ _) in *.
  assert (Hsz : size nodes' = size (st_Nodes s)) by (rewrite <- !size_dom; by rewrite (proj1 Hn)).
  set (lap1 := if changed then MarkDirty lap else lap).
  pose proof (Compute_total lap1 nodes' (st_Graph s)) as Htot. cbv zeta. rewrite Hsz.
  destruct (if changed || due then _ else _) as [lap' lambda1] eqn:El. exists nodes', lap', lambda1.
  split; [exact Hn|]. split; [split|split_and!].
  - intros Hno. assert (changed = false) as Hc by (apply not_true_iff_false; intros ?%Hch; apply Hno; unfold lambda_due; tauto).
    assert (due = false) as Hd by (apply not_true_iff_false; intros ?%Hdue; apply Hno; unfold lambda_due; tauto).
    subst lap1. rewrite Hc, Hd in El. by injection El as <- <-.
  - intros Hdo. assert (changed || due = true) as Hcd by (apply orb_true_iff; rewrite Hch, Hdue; unfold lambda_due in Hdo; tauto).
    rewrite Hcd in El. exists lap1. destruct (Compute lap1 nodes' (st_Graph s)) as [lap2 r] eqn:Ec. exists r.
    subst lap1. rewrite <- Hch. destruct r as [l|e|]; [..|done]; injection El as <- <-;
      (split_and!; [done|by intros ->|by destruct changed|]); [by left|right; by split; [eexists|]].
  - intros [Hc Hr]. apply Z.ltb_lt in Hc. by rewrite Hc, bool_decide_eq_false_2 by done.
  - intros Hno [H2 Hf]. destruct (_ && negb _) eqn:Eb.
    { apply andb_true_iff in Eb as [Hc%Z.ltb_lt Hr%negb_true_iff%bool_decide_eq_false]. by destruct Hno. }
    apply Nat.leb_le in H2. by rewrite H2, Hf.
  - intros Hno Hnf. destruct ((0 <? st_Cycle s)%Z && _) eqn:Eb.
    { apply andb_true_iff in Eb as [Hc%Z.ltb_lt Hr%negb_true_iff%bool_decide_eq_false]. by destruct Hno. }
    destruct ((2 <=? size (st_Nodes s))%nat && flt lambda1 (MinLambda1 cfg)) eqn:Ef.
    { apply andb_true_iff in Ef as [H2%Nat.leb_le Hf]. by destruct Hnf. }
    unfold ComputeSupervisionRoot. cbn [st_Cycle st_Nodes st_Graph st_Lambda1]. by destruct (cbor_root_state _ _ _ _).
Qed.
End transition.

(** ** Decay *)

Fixpoint decays (n : nat) (cfg : Config) (hbs : list string) (uid : string) (node : NodeState) : NodeState :=
  match n with
  | O => node
  | S n' => decays n' cfg hbs uid (apply_heartbeat cfg hbs uid node)
  end.

Definition decay_status (cfg : Config) (x : float64) : float64 :=
  let y := fsub x (DecayRate cfg) in if flt y fzero then fzero else y.

Lemma decays_status n cfg hbs uid node : uid ∉ hbs →
  ns_Status (decays n cfg hbs uid node) = Nat.iter n (decay_status cfg) (ns_Status node).
Proof.
  intros Hnot. revert node. induction n as [|n IH]; intros node; [done|].
  cbn [decays]. rewrite IH, Nat.iter_succ_r. f_equal. unfold apply_heartbeat.
  destruct (existsb _ hbs) eqn:E; [|done].
  apply existsb_exists in E as (h & Hh%list_elem_of_In & ->%bool_decide_eq_true). done.
Qed.

(** Under the default configuration a node that starts active and is never named in the
    heartbeats becomes inactive after 20 transitions and not before. The engine names only
    its own identity, so this happens to every peer. *)
Theorem silent_node_inactive hbs uid node :
  uid ∉ hbs → ns_Status node = fone →
  fle (ns_Status (decays 20 DefaultConfig hbs uid node)) fzero = true ∧
  ∀ k, k < 20 → fle (ns_Status (decays k DefaultConfig hbs uid node)) fzero = false.
Proof.
  intros Hnot Hst. split.
  - rewrite decays_status, Hst by done. by vm_compute.
  - intros k Hk. rewrite decays_status, Hst by done. do 20 (destruct k as [|k]; [by vm_compute|]). lia.
Qed.

(** ** Power iteration *)

Section power.
Context `{Gonum}.

(** What the argument uses of gonum: summing n ones gives n, the Euclidean norm of a zero
    vector is zero, and solving, multiplying and taking inner products propagate NaN. *)
Record gonum_nan_laws (n : nat) : Prop := {
  sum_ones : mat_Sum (replicate n fone) = f_of_nat n;
  norm_zeros : mat_Norm2 (replicate n fzero) = fzero;
  solve_nan : ∀ chol x, mat_SolveVecTo chol (replicate n S754_nan) = Some x → x = replicate n S754_nan;
  dot_nan : ∀ y, mat_Dot (replicate n S754_nan) y = S754_nan;
  sum_nan : mat_Sum (replicate n S754_nan) = S754_nan;
}.

Lemma orthogonalise_nan n : gonum_nan_laws n →
  orthogonalise n (replicate n S754_nan) = replicate n S754_nan.
Proof.
  intros L. unfold orthogonalise. rewrite (sum_nan n L), !fmap_replicate.
  change (fsub S754_nan _) with (S754_nan : float64). f_equal. unfold fmul. by destruct (fdiv _ _).
Qed.

Lemma power_loop_nan n l chol tol : gonum_nan_laws n → ∀ iters lambda,
  flt fzero lambda = false →
  power_loop iters l chol tol n (replicate n S754_nan) lambda = fzero.
Proof.
  intros L. induction iters as [|iters IH]; intros lambda Hl; [done|]. cbn [power_loop].
  destruct (mat_SolveVecTo chol (replicate n S754_nan)) as [x|] eqn:Es; [|done].
  apply (solve_nan n L) in Es as ->. rewrite !(dot_nan n L), Hl.
  change (feq S754_nan fzero) with false. change (fdiv S754_nan S754_nan) with (S754_nan : float64).
  cbn [andb]. rewrite orthogonalise_nan by done. by apply IH.
Qed.

(** The start vector: ones minus their mean, over its norm. *)
Lemma start_vector_nan n : gonum_nan_laws n →
  fdiv (f_of_nat n) (f_of_nat n) = fone →
  orthogonalise n (replicate n fone) = replicate n S754_nan.
Proof.
  intros L Hn. unfold orthogonalise. rewrite (sum_ones n L), Hn, fmap_replicate.
  change (fsub fone fone) with fzero. by rewrite (norm_zeros n L), fmap_replicate.
Qed.

(** The cached power iteration never finds an eigenvalue: its start vector, all ones
    minus their mean, is zero, normalising it gives NaN, and the result is 0 for every
    matrix. It is the routine used for 20 nodes or more, so such a network is always
    reported as fragmented. *)
Theorem power_iteration_zero l chol opts :
  gonum_nan_laws (length l) → fdiv (f_of_nat (length l)) (f_of_nat (length l)) = fone →
  computeLambda1PowerIterWithFact l chol opts = fzero.
Proof.
  intros L Hn. unfold computeLambda1PowerIterWithFact.
  rewrite start_vector_nan by done. by apply power_loop_nan.
Qed.
End power.

(** ** Concrete instances *)

(** A stand-in for gonum with left-to-right sums, on which the laws hold: the solver is the
    identity and the Euclidean norm is replaced by the sum of squares, which is zero on
    the same vectors. *)
#[export] Instance ToyGonum : Gonum := {|
  cholesky := unit;
  mat_Factorize _ := Some tt;
  mat_SolveVecTo _ b := Some b;
  mat_EigenValues l := Some (replicate (length l) fone);
  mat_Sum v := foldl fadd fzero v;
  mat_Norm2 v := foldl fadd fzero ((fun x => fmul x x) <$> v);
  mat_Dot x y := foldl fadd fzero ((fun '(a, b) => fmul a b) <$> zip (x ++ replicate (length y - length x) fzero)
                                                                (y ++ replicate (length x - length y) fzero));
  mat_MulVec l x := x;
|}.

Lemma silent_node_inactive_witness :
  fle (ns_Status (decays 20 DefaultConfig ["aa"] "bb" (MkNodeState [] fone 0 0 [] []))) fzero = true.
Proof.
  apply (silent_node_inactive ["aa"] "bb" (MkNodeState [] fone 0 0 [] [])).
  - intros Hin. apply list_elem_of_singleton in Hin. discriminate.
  - reflexivity.
Defined.

Lemma fadd_nan_fold (l : list float64) : foldl fadd S754_nan l = S754_nan.
Proof. induction l as [|x l IH]; [done|]. exact IH. Qed.

Lemma toy_gonum_laws : gonum_nan_laws 20.
Proof.
  split.
  - by vm_compute.
  - by vm_compute.
  - intros chol x [= <-]. done.
  - intros y. cbn [mat_Dot ToyGonum]. rewrite length_replicate.
    assert (Hy : ∃ y0 y', y ++ replicate (20 - length y) fzero = y0 :: y').
    { destruct y as [|y0 y]; [eexists _, _; reflexivity|eexists _, _; reflexivity]. }
    destruct Hy as (y0 & y' & ->).
    change (replicate 20 S754_nan ++ replicate (length y - 20) fzero)
      with (S754_nan :: (replicate 19 S754_nan ++ replicate (length y - 20) fzero)).
    cbn [zip zip_with fmap list_fmap foldl].
    change (fadd fzero (fmul S754_nan y0)) with (S754_nan : float64). apply fadd_nan_fold.
  - by vm_compute.
Qed.

Definition demo_matrix : matrix := replicate 20 (replicate 20 fone).

Lemma power_iteration_zero_witness :
  computeLambda1PowerIterWithFact demo_matrix (tt : @cholesky ToyGonum) DefaultLambda1Options = fzero.
Proof.
  apply (power_iteration_zero demo_matrix (tt : @cholesky ToyGonum) DefaultLambda1Options).
  - exact toy_gonum_laws.
  - vm_compute. reflexivity.
Defined.

#[export] Instance ToyStateCbor : StateCbor :=
  {| cbor_root_state c n g l := Some (le_bytes 8 c ++ le_bytes 8 (Z.of_nat (size n))) |}.
