(* ===== verification/Spectral.v ===== *)
(** * The uncached spectral check (pkg/state: power_iter.go, graph.go)

    The engine uses the cached computation of [State]; this is the one the package offers
    beside it. The order in which Go visits the node map is a parameter. *)
From Stdlib Require Import SpecFloat.
From S2P Require Import Prelude Crypto Errors Chain Config State StateTheorems.

Section spectral.
Context `{Gonum}.

(** The loop of [computeLambda1PowerIter]: the value and whether it converged. *)
Fixpoint power_iterate (iters : nat) (l : matrix) (chol : cholesky) (tol : float64) (n : nat) (b : vec)
    (lambda : float64) : float64 * bool :=
  match iters with
  | O => (fzero, false)
  | S iters' =>
      match mat_SolveVecTo chol b with
      | None => (fzero, false)
      | Some x =>
          let xTLx := mat_Dot x (mat_MulVec l x) in
          let xTx := mat_Dot x x in
          if feq xTx fzero then (fzero, false)
          else
            let lambdaNew := fdiv xTLx xTx in
            if flt fzero lambda &&
               flt (fdiv (SFabs (fsub lambdaNew lambda)) (math_Max (SFabs lambdaNew) fone)) tol
            then (lambdaNew, true)
            else power_iterate iters' l chol tol n (orthogonalise n x) lambdaNew
      end
  end.

Definition computeLambda1PowerIter (l : matrix) (opts : Lambda1Options) : float64 * bool :=
  let n := length l in
  let mu := if fle (lo_Shift opts) fzero then f_1e2inv else lo_Shift opts in
  let maxIter := if (lo_MaxIter opts <=? 0)%Z then 300%Z else lo_MaxIter opts in
  let tolerance := if fle (lo_Tolerance opts) fzero then f_1e8inv else lo_Tolerance opts in
  match mat_Factorize (shifted l mu) with
  | None => (fzero, false)
  | Some chol => power_iterate (Z.to_nat maxIter) l chol tolerance n (orthogonalise n (replicate n fone)) fzero
  end.

Definition ComputeLambda1WithOptions (l : option matrix) (opts : Lambda1Options) : float64 :=
  match l with
  | None => fzero
  | Some l =>
      let n := length l in
      if (n <? 2)%nat then fzero
      else if (n <? 20)%nat then computeLambda1EigenSym l
      else
        let '(lambda1, converged) := computeLambda1PowerIter l opts in
        if negb converged then computeLambda1EigenSym l else lambda1
  end.

Definition ComputeLambda1 (l : option matrix) : float64 := ComputeLambda1WithOptions l DefaultLambda1Options.

(** [BuildLaplacian]; [order] lists the keys of the map as they are visited. *)
Definition BuildLaplacian (edges : list Edge) (nodes : gmap string NodeState) (order : list string) : option matrix :=
  let n := size nodes in
  if (n <? 2)%nat then None else Some (laplacian_matrix (weights order edges) n).

(** ** The fallback always decides *)

Lemma power_iterate_nan n l chol tol : gonum_nan_laws n → ∀ iters lambda,
  flt fzero lambda = false → power_iterate iters l chol tol n (replicate n S754_nan) lambda = (fzero, false).
Proof.
  intros L. induction iters as [|iters IH]; intros lambda Hl; [done|]. cbn [power_iterate].
  destruct (mat_SolveVecTo chol (replicate n S754_nan)) as [x|] eqn:Es; [|done].
  apply (solve_nan n L) in Es as ->. rewrite !(dot_nan n L), Hl.
  change (feq S754_nan fzero) with false. change (fdiv S754_nan S754_nan) with (S754_nan : float64).
  cbn [andb]. rewrite orthogonalise_nan by done. by apply IH.
Qed.

(** The power iteration of the uncached check never converges, for the same start vector as
    the cached one; but here the failure is noticed, so from two nodes on the result is
    that of the symmetric eigenvalue routine. The cached check reports 0 from 20 nodes on. *)
Theorem uncached_lambda1_spec l opts :
  gonum_nan_laws (length l) → fdiv (f_of_nat (length l)) (f_of_nat (length l)) = fone → (2 ≤ length l)%nat →
  ComputeLambda1WithOptions (Some l) opts = computeLambda1EigenSym l.
Proof.
  intros L Hn H2. unfold ComputeLambda1WithOptions. rewrite (proj2 (Nat.ltb_ge _ _)) by done.
  destruct (length l <? 20)%nat; [done|]. unfold computeLambda1PowerIter.
  destruct (mat_Factorize _) as [chol|]; [|done]. rewrite start_vector_nan by done.
  by rewrite power_iterate_nan.
Qed.

Corollary spectral_checks_differ il l opts chol :
  il_laplacian il = l → (20 ≤ length l)%nat → gonum_nan_laws (length l) →
  fdiv (f_of_nat (length l)) (f_of_nat (length l)) = fone →
  computeLambda1FromCache il chol = fzero ∧ ComputeLambda1WithOptions (Some l) opts = computeLambda1EigenSym l.
Proof.
  intros Hil H20 L Hn. split; [|apply uncached_lambda1_spec; [done..|lia]].
  unfold computeLambda1FromCache. rewrite Hil, !(proj2 (Nat.ltb_ge _ _)) by lia. by apply power_iteration_zero.
Qed.
End spectral.

(** ** The order of the nodes *)

(** The weight between two nodes: the last edge that names them, in either direction. *)
Definition edge_weight (edges : list Edge) (a b : string) : float64 :=
  foldl (fun w e => if bool_decide (ed_From e = a ∧ ed_To e = b ∨ ed_From e = b ∧ ed_To e = a) then ed_Weight e else w)
    fzero edges.

Lemma index_of_spec order a i : NoDup order → order !! i = Some a ↔ index_of order a = Some i.
Proof.
  revert i. induction order as [|x order IH]; intros i Hnd; [by destruct i|]. apply NoDup_cons in Hnd as [Hx Hnd].
  cbn [index_of]. case_bool_decide as E.
  - subst x. split; [|by intros [= <-]]. destruct i as [|i]; [done|]. cbn. intros Hi.
    by apply list_elem_of_lookup_2 in Hi.
  - destruct i as [|i]; cbn; [|rewrite IH by done; destruct (index_of order a); cbn; naive_solver].
    split; [by intros [= ->]|]. by destruct (index_of order a).
Qed.

Lemma weights_named order edges a b i j : NoDup order → order !! i = Some a → order !! j = Some b →
  weight_at (weights order edges) i j = edge_weight edges a b.
Proof.
  intros Hnd Hi Hj. unfold weights, edge_weight. induction edges as [|e edges IH] using rev_ind; [done|].
  rewrite !foldl_app. cbn [foldl]. set (w := foldl _ ∅ edges) in *.
  pose proof (index_of_spec order a i Hnd) as Ha. pose proof (index_of_spec order b j Hnd) as Hb.
  case_bool_decide as E.
  - destruct E as [[-> ->]|[-> ->]]; rewrite (proj1 Ha Hi), (proj1 Hb Hj); unfold weight_at.
    + destruct (decide (i = j)) as [->|]; [by rewrite lookup_insert_eq|].
      rewrite lookup_insert_ne by congruence. by rewrite lookup_insert_eq.
    + by rewrite lookup_insert_eq.
  - rewrite <- IH. destruct (index_of order (ed_From e)) as [p|] eqn:Ep; [|done].
    destruct (index_of order (ed_To e)) as [q|] eqn:Eq; [|done]. unfold weight_at.
    apply index_of_spec in Ep, Eq; [|done..].
    rewrite !lookup_insert_ne; [done|..]; intros [= -> ->]; apply E; [left|right]; split; congruence.
Qed.

(** Off the diagonal the matrix depends on the nodes and edges only: two visits of the map
    give the same weight to the same pair of nodes. *)
Lemma laplacian_off_diagonal edges nodes order l i j a b :
  BuildLaplacian edges nodes order = Some l → NoDup order → length order = size nodes →
  order !! i = Some a → order !! j = Some b → i ≠ j → l !! i ≫= (.!! j) = Some (SFopp (edge_weight edges a b)).
Proof.
  unfold BuildLaplacian. destruct (size nodes <? 2)%nat; [done|]. intros [= <-] Hnd Hlen Hi Hj Hij.
  pose proof (lookup_lt_Some _ _ _ Hi). pose proof (lookup_lt_Some _ _ _ Hj). rewrite Hlen in *.
  set (row := fun i j => if (i =? j)%nat then degree (weights order edges) (size nodes) i
                         else SFopp (weight_at (weights order edges) i j)).
  assert (Hrow : laplacian_matrix (weights order edges) (size nodes) !! i = Some (row i <$> seq 0 (size nodes)))
    by (etrans; [apply list_lookup_fmap|]; by rewrite lookup_seq_lt).
  assert (Hcol : (row i <$> seq 0 (size nodes)) !! j = Some (row i j))
    by (etrans; [apply list_lookup_fmap|]; by rewrite lookup_seq_lt).
  rewrite Hrow. change (Some (row i <$> seq 0 (size nodes)) ≫= (.!! j)) with ((row i <$> seq 0 (size nodes)) !! j).
  rewrite Hcol. unfold row. rewrite (proj2 (Nat.eqb_neq _ _)) by done. by rewrite (weights_named order edges a b).
Qed.

(** ** Concrete instances *)

Definition star_edges : list Edge :=
  [{| ed_From := "a"; ed_To := "b"; ed_Weight := S754_finite false 4503599627370496 1 |};
   {| ed_From := "a"; ed_To := "c"; ed_Weight := fone |}; {| ed_From := "a"; ed_To := "d"; ed_Weight := fone |}].

Definition degree_of (order : list string) (a : string) : option float64 :=
  i ← index_of order a; Some (degree (weights order star_edges) (length order) i).

(** On the diagonal the order shows: weights are summed in the order of the visit, and a sum
    of floats depends on it. *)
Lemma laplacian_diagonal_order :
  degree_of ["a"; "b"; "c"; "d"] "a" ≠ degree_of ["a"; "c"; "d"; "b"] "a".
Proof. vm_compute. congruence. Qed.

Lemma uncached_lambda1_spec_witness :
  ComputeLambda1WithOptions (Some demo_matrix) DefaultLambda1Options = computeLambda1EigenSym demo_matrix.
Proof.
  apply (uncached_lambda1_spec demo_matrix DefaultLambda1Options).
  - exact toy_gonum_laws.
  - vm_compute. reflexivity.
  - apply Nat.leb_le. reflexivity.
Defined.
