(* ===== verification/Gossip.v ===== *)
(** * Gossip (pkg/consensus/gossip.go)

    [GossipChannel] is the interface the engine is written against; [MemoryBus] is its
    in-process implementation. Each method takes the bus lock, so it is one step on the
    bus. Blocks are stored and returned as copies. *)
From Stdlib Require Import SpecFloat.
From S2P Require Import Prelude Crypto Errors Chain.

Record BlockSig := MkBlockSig {
  bs_Cycle : Z;
  bs_Sig : bytes;
  bs_SignerID : string;
}.

Record VRFProofMsg := MkVRFMsg {
  vm_Cycle : Z;
  vm_Proof : bytes;
  vm_SignerID : string;
}.

#[export] Instance BlockSig_eq_dec : EqDecision BlockSig.
Proof. solve_decision. Defined.
#[export] Instance VRFProofMsg_eq_dec : EqDecision VRFProofMsg.
Proof. solve_decision. Defined.

Class GossipChannel (bus : Type) := {
  Publish : ProvenanceEntry → bus → bus;
  Snapshot : bus → list ProvenanceEntry;
  RemoveEntries : gset bytes → bus → bus;
  Propose : Block → string → bus → bus;
  GetProposed : Z → bus → option Block;
  PublishFinal : Block → string → bus → bus;
  GetFinal : Z → bus → option Block;
  PublishSig : BlockSig → bus → bus;
  GetSigs : Z → bus → list BlockSig;
  PublishVRFProof : VRFProofMsg → bus → bus;
  GetVRFProofs : Z → bus → list VRFProofMsg;
}.

Record MemoryBus := MkBus {
  mb_entries : list ProvenanceEntry;
  mb_proposals : gmap Z Block;
  mb_finals : gmap Z Block;
  mb_sigs : gmap Z (list BlockSig);
  mb_vrfProofs : gmap Z (list VRFProofMsg);
}.

Definition NewMemoryBus : MemoryBus :=
  {| mb_entries := []; mb_proposals := ∅; mb_finals := ∅; mb_sigs := ∅; mb_vrfProofs := ∅ |}.

Definition set_entries (b : MemoryBus) (l : list ProvenanceEntry) : MemoryBus :=
  {| mb_entries := l; mb_proposals := mb_proposals b; mb_finals := mb_finals b;
     mb_sigs := mb_sigs b; mb_vrfProofs := mb_vrfProofs b |}.
Definition set_proposals (b : MemoryBus) (m : gmap Z Block) : MemoryBus :=
  {| mb_entries := mb_entries b; mb_proposals := m; mb_finals := mb_finals b;
     mb_sigs := mb_sigs b; mb_vrfProofs := mb_vrfProofs b |}.
Definition set_finals (b : MemoryBus) (m : gmap Z Block) : MemoryBus :=
  {| mb_entries := mb_entries b; mb_proposals := mb_proposals b; mb_finals := m;
     mb_sigs := mb_sigs b; mb_vrfProofs := mb_vrfProofs b |}.
Definition set_bus_sigs (b : MemoryBus) (m : gmap Z (list BlockSig)) : MemoryBus :=
  {| mb_entries := mb_entries b; mb_proposals := mb_proposals b; mb_finals := mb_finals b;
     mb_sigs := m; mb_vrfProofs := mb_vrfProofs b |}.
Definition set_bus_vrf (b : MemoryBus) (m : gmap Z (list VRFProofMsg)) : MemoryBus :=
  {| mb_entries := mb_entries b; mb_proposals := mb_proposals b; mb_finals := mb_finals b;
     mb_sigs := mb_sigs b; mb_vrfProofs := m |}.

(** [chain.CloneBlock] of an address-of expression is never nil. *)
Definition store_clone (block : Block) (m : gmap Z Block) : gmap Z Block :=
  match CloneBlock (Some block) with
  | Some copy => <[b_Index block := copy]> m
  | None => m
  end.

Definition MemoryBus_Propose (block : Block) (proposerID : string) (b : MemoryBus) : MemoryBus :=
  match mb_proposals b !! b_Index block with
  | Some _ => b
  | None => set_proposals b (store_clone block (mb_proposals b))
  end.

Definition MemoryBus_PublishFinal (block : Block) (proposerID : string) (b : MemoryBus) : MemoryBus :=
  set_finals b (store_clone block (mb_finals b)).

Definition MemoryBus_GetFinal (cycle : Z) (b : MemoryBus) : option Block := CloneBlock (mb_finals b !! cycle).

Definition MemoryBus_GetProposed (cycle : Z) (b : MemoryBus) : option Block := mb_proposals b !! cycle.

Definition MemoryBus_PublishSig (sig : BlockSig) (b : MemoryBus) : MemoryBus :=
  let existing := default [] (mb_sigs b !! bs_Cycle sig) in
  if existsb (fun x => bool_decide (bs_SignerID x = bs_SignerID sig)) existing then b
  else set_bus_sigs b (<[bs_Cycle sig := existing ++ [sig]]> (mb_sigs b)).

Definition MemoryBus_GetSigs (cycle : Z) (b : MemoryBus) : list BlockSig := default [] (mb_sigs b !! cycle).

Definition MemoryBus_PublishVRFProof (proof : VRFProofMsg) (b : MemoryBus) : MemoryBus :=
  let existing := default [] (mb_vrfProofs b !! vm_Cycle proof) in
  if existsb (fun x => bool_decide (vm_SignerID x = vm_SignerID proof)) existing then b
  else set_bus_vrf b (<[vm_Cycle proof := existing ++ [proof]]> (mb_vrfProofs b)).

Definition MemoryBus_GetVRFProofs (cycle : Z) (b : MemoryBus) : list VRFProofMsg :=
  default [] (mb_vrfProofs b !! cycle).

Definition MemoryBus_Publish (entry : ProvenanceEntry) (b : MemoryBus) : MemoryBus :=
  set_entries b (mb_entries b ++ [entry]).

Definition MemoryBus_RemoveEntries (remove : gset bytes) (b : MemoryBus) : MemoryBus :=
  set_entries b (filter (fun e => e_Hash e ∉ remove) (mb_entries b)).

#[export] Instance memory_bus : GossipChannel MemoryBus := {|
  Publish := MemoryBus_Publish;
  Snapshot := mb_entries;
  RemoveEntries := MemoryBus_RemoveEntries;
  Propose := MemoryBus_Propose;
  GetProposed := MemoryBus_GetProposed;
  PublishFinal := MemoryBus_PublishFinal;
  GetFinal := MemoryBus_GetFinal;
  PublishSig := MemoryBus_PublishSig;
  GetSigs := MemoryBus_GetSigs;
  PublishVRFProof := MemoryBus_PublishVRFProof;
  GetVRFProofs := MemoryBus_GetVRFProofs;
|}.

(** ** Histories of a bus *)

(** A call that changes the bus, by any of the engines sharing it. *)
Inductive bus_op :=
| OpPublish (entry : ProvenanceEntry)
| OpRemoveEntries (remove : gset bytes)
| OpPropose (block : Block) (proposerID : string)
| OpPublishFinal (block : Block) (proposerID : string)
| OpPublishSig (sig : BlockSig)
| OpPublishVRFProof (proof : VRFProofMsg).

Definition bus_step {bus} `{GossipChannel bus} (op : bus_op) (b : bus) : bus :=
  match op with
  | OpPublish e => Publish e b
  | OpRemoveEntries r => RemoveEntries r b
  | OpPropose block p => Propose block p b
  | OpPublishFinal block p => PublishFinal block p b
  | OpPublishSig s => PublishSig s b
  | OpPublishVRFProof p => PublishVRFProof p b
  end.

Definition bus_run {bus} `{GossipChannel bus} (ops : list bus_op) (b : bus) : bus :=
  foldl (fun b op => bus_step op b) b ops.

(** What the engine relies on: a proposal, once visible, never changes; votes and proofs of
    a cycle only grow at the end and hold one message per signer. *)
Class GossipLaws (bus : Type) `{GossipChannel bus} (fresh : bus) : Prop := {
  proposed_stable : ∀ ops b c blk, GetProposed c b = Some blk → GetProposed c (bus_run ops b) = Some blk;
  sigs_grow : ∀ ops b c, GetSigs c b `prefix_of` GetSigs c (bus_run ops b);
  vrf_grow : ∀ ops b c, GetVRFProofs c b `prefix_of` GetVRFProofs c (bus_run ops b);
  one_sig_per_signer : ∀ ops c, NoDup (bs_SignerID <$> GetSigs c (bus_run ops fresh));
  one_proof_per_signer : ∀ ops c, NoDup (vm_SignerID <$> GetVRFProofs c (bus_run ops fresh));
}.

(** What grows with every operation grows with every history. *)
Lemma bus_run_grows {bus A} `{GossipChannel bus} (view : bus → list A) :
  (∀ op b, view b `prefix_of` view (bus_step op b)) → ∀ ops b, view b `prefix_of` view (bus_run ops b).
Proof.
  intros Hstep ops. induction ops as [|op ops IH]; intros b; [done|]. simpl.
  etrans; [apply Hstep|apply IH].
Qed.

Lemma MemoryBus_proposed_step op (b : MemoryBus) c blk :
  GetProposed c b = Some blk → GetProposed c (bus_step op b) = Some blk.
Proof.
  destruct op as [e|r|block p|block p|s|p]; simpl; try done.
  - unfold MemoryBus_GetProposed, MemoryBus_Propose. intros Hb.
    destruct (mb_proposals b !! b_Index block) eqn:E; [done|]. unfold store_clone. simpl.
    rewrite lookup_insert_ne; [done|]. intros <-. congruence.
  - unfold MemoryBus_PublishSig. by case_match.
  - unfold MemoryBus_PublishVRFProof. by case_match.
Qed.

Lemma MemoryBus_sigs_step op (b : MemoryBus) c : GetSigs c b `prefix_of` GetSigs c (bus_step op b).
Proof.
  destruct op as [e|r|block p|block p|s|p]; simpl; try done.
  - unfold MemoryBus_Propose. by case_match.
  - unfold MemoryBus_PublishSig. destruct (existsb _ _) eqn:E; [done|]. unfold MemoryBus_GetSigs. simpl.
    destruct (decide (bs_Cycle s = c)) as [<-|Hne].
    + rewrite lookup_insert_eq. simpl. by eexists.
    + by rewrite lookup_insert_ne.
  - unfold MemoryBus_PublishVRFProof. by case_match.
Qed.

Lemma MemoryBus_vrf_step op (b : MemoryBus) c : GetVRFProofs c b `prefix_of` GetVRFProofs c (bus_step op b).
Proof.
  destruct op as [e|r|block p|block p|s|p]; simpl; try done.
  - unfold MemoryBus_Propose. by case_match.
  - unfold MemoryBus_PublishSig. by case_match.
  - unfold MemoryBus_PublishVRFProof. destruct (existsb _ _) eqn:E; [done|]. unfold MemoryBus_GetVRFProofs. simpl.
    destruct (decide (vm_Cycle p = c)) as [<-|Hne].
    + rewrite lookup_insert_eq. simpl. by eexists.
    + by rewrite lookup_insert_ne.
Qed.

Lemma fmap_snoc_NoDup {A} (f : A → string) l x :
  NoDup (f <$> l) → existsb (fun y => bool_decide (f y = f x)) l = false → NoDup (f <$> l ++ [x]).
Proof.
  intros Hnd He. rewrite fmap_app. apply NoDup_app. split_and!; [done| |apply NoDup_singleton].
  intros y (z & -> & Hz)%list_elem_of_fmap Heq%list_elem_of_singleton.
  apply not_true_iff_false in He. destruct He. apply existsb_exists. exists z.
  split; [by apply list_elem_of_In|]. by apply bool_decide_eq_true.
Qed.

Lemma MemoryBus_signers_step op (b : MemoryBus) :
  (∀ c, NoDup (bs_SignerID <$> GetSigs c b) ∧ NoDup (vm_SignerID <$> GetVRFProofs c b)) →
  ∀ c, NoDup (bs_SignerID <$> GetSigs c (bus_step op b)) ∧ NoDup (vm_SignerID <$> GetVRFProofs c (bus_step op b)).
Proof.
  intros Hb c. destruct op as [e|r|block p|block p|s|p]; simpl; try apply Hb.
  - unfold MemoryBus_Propose. case_match; apply Hb.
  - unfold MemoryBus_PublishSig. destruct (existsb _ _) eqn:E; [apply Hb|].
    split; [|apply Hb]. unfold MemoryBus_GetSigs. simpl. destruct (decide (bs_Cycle s = c)) as [<-|Hne].
    + rewrite lookup_insert_eq. simpl. apply fmap_snoc_NoDup; [apply Hb|done].
    + rewrite lookup_insert_ne by done. apply Hb.
  - unfold MemoryBus_PublishVRFProof. destruct (existsb _ _) eqn:E; [apply Hb|].
    split; [apply Hb|]. unfold MemoryBus_GetVRFProofs. simpl. destruct (decide (vm_Cycle p = c)) as [<-|Hne].
    + rewrite lookup_insert_eq. simpl. apply fmap_snoc_NoDup; [apply Hb|done].
    + rewrite lookup_insert_ne by done. apply Hb.
Qed.

Lemma MemoryBus_signers_run ops : ∀ b : MemoryBus,
  (∀ c, NoDup (bs_SignerID <$> GetSigs c b) ∧ NoDup (vm_SignerID <$> GetVRFProofs c b)) →
  ∀ c, NoDup (bs_SignerID <$> GetSigs c (bus_run ops b)) ∧ NoDup (vm_SignerID <$> GetVRFProofs c (bus_run ops b)).
Proof.
  induction ops as [|op ops IH]; intros b Hb; [done|]. apply IH. by apply MemoryBus_signers_step.
Qed.

(** C27: The in-memory bus keeps its promises under any interleaving of calls: a candidate
    cannot be replaced once published, so a proposer cannot equivocate on it; votes and
    VRF proofs are never withdrawn; and a signer has at most one of each per cycle. *)
Theorem memory_bus_laws : GossipLaws MemoryBus NewMemoryBus.
Proof.
  assert (Hfresh : ∀ c, NoDup (bs_SignerID <$> GetSigs c NewMemoryBus) ∧
                        NoDup (vm_SignerID <$> GetVRFProofs c NewMemoryBus)).
  { intros c. split; apply NoDup_nil_2. }
  split.
  - intros ops b c blk. revert b. induction ops as [|op ops IH]; intros b Hb; [done|].
    apply IH. by apply MemoryBus_proposed_step.
  - intros ops b c. apply (bus_run_grows (GetSigs c)). intros op b'. apply MemoryBus_sigs_step.
  - intros ops b c. apply (bus_run_grows (GetVRFProofs c)). intros op b'. apply MemoryBus_vrf_step.
  - intros ops c. by apply MemoryBus_signers_run.
  - intros ops c. by apply MemoryBus_signers_run.
Qed.
