(* ===== verification/Engine.v ===== *)
(** * Consensus engine (pkg/consensus: engine.go, prepare.go, commit.go, api.go,
    key_rotation.go, mandates.go)

    The engine's fields are grouped: ledger, submission pool, key rotation, mandates and
    timing. The engine lock makes each handler a critical section, so a handler is one run
    of a state monad; the gossip bus is shared with other engines, so every access to it is
    preceded by a step of the environment ([env]), indexed by the number of accesses so
    far. [clock] gives the time at each point and [patience] how many further polls fit
    into a wait that starts there (a deadline or a cancelled context ends it). Storage
    and the anchor publisher are written to but not read back by these handlers, and are
    left out, as is logging. *)
From Stdlib Require Import SpecFloat.
From S2P Require Import Prelude Crypto Smt Errors Vrf Identity Chain Config Rotation Mandates Quorum Gossip.
From S2P Require Import State.

Record Ticket := MkTicket {
  tk_Hash : bytes;
  tk_Status : string;
  tk_BlockIndex : Z;
  tk_BlockTime : Z;
}.

Record AnchorProof := MkAnchorProof {
  ap_Found : bool;
  ap_BlockIndex : Z;
  ap_BlockTime : Z;
  ap_StateRoot : bytes;
  ap_SMTProof : bytes;
  ap_Submitter : bytes;
  ap_Label : string;
}.

Record NetworkHealth := MkHealth {
  nh_Lambda1 : float64;
  nh_ActivePeers : nat;
  nh_TotalPeers : nat;
  nh_BlockHeight : Z;
  nh_PendingHashes : nat;
}.

Record PrepareResult := MkPrepareResult {
  pr_Block : Block;
  pr_PrepareSigs : gmap string bytes;
  pr_PrepareBitmap : bytes;
  pr_LeaderID : string;
  pr_QuorumReached : bool;
}.

Section engine.
Context `{Primitives, Cbor, Ristretto, Gonum, StateCbor}.

Record Ledger := MkLedger {
  lg_state : NetworkState;
  lg_laplacian : IncrementalLaplacian;
  lg_st : SparseMerkleTree;
  lg_blocks : list Block;
  lg_anchored : gmap bytes AnchorProof;
  lg_degraded : option DegradedMode;
}.

Record Pool := MkPool {
  pl_pending : list ProvenanceEntry;
  pl_pendingEntries : list ProvenanceEntry;
  pl_lastPendingChange : Z;
  pl_rateLimiter : option SubmitterLimiter;
}.

Record Keys := MkKeys {
  ky_validator : KeyRotationValidator;
  ky_bodies : gmap bytes KeyRotationEntry;
}.

Record Policy := MkPolicy {
  po_resolver : MandateResolver;
  po_bodies : gmap bytes MandateEntry;
}.

Record Timing := MkTiming {
  tm_rttEWMA : Z;
  tm_rttSamples : Z;
  tm_lastCycleStart : Z;
  tm_cycleDuration : Z;
  tm_cycleTimeout : Z;
}.

Record Engine := MkEngine {
  en_node : Node;
  en_cfg : Config;
  en_gossip : bool;
  en_peers : list Peer;
  en_apiLimits : APILimits;
  en_stopped : bool;
  en_quorumConfig : QuorumConfig;
  en_ledger : Ledger;
  en_pool : Pool;
  en_keys : Keys;
  en_policy : Policy;
  en_timing : Timing;
}.

Definition en_state (e : Engine) : NetworkState := lg_state (en_ledger e).
Definition en_st (e : Engine) : SparseMerkleTree := lg_st (en_ledger e).
Definition en_blocks (e : Engine) : list Block := lg_blocks (en_ledger e).
Definition en_anchored (e : Engine) : gmap bytes AnchorProof := lg_anchored (en_ledger e).
Definition en_pending (e : Engine) : list ProvenanceEntry := pl_pending (en_pool e).
Definition en_pendingEntries (e : Engine) : list ProvenanceEntry := pl_pendingEntries (en_pool e).

Definition with_ledger (l : Ledger) (e : Engine) : Engine :=
  {| en_node := en_node e; en_cfg := en_cfg e; en_gossip := en_gossip e; en_peers := en_peers e;
     en_apiLimits := en_apiLimits e; en_stopped := en_stopped e; en_quorumConfig := en_quorumConfig e;
     en_ledger := l; en_pool := en_pool e; en_keys := en_keys e; en_policy := en_policy e;
     en_timing := en_timing e |}.

Definition with_pool (p : Pool) (e : Engine) : Engine :=
  {| en_node := en_node e; en_cfg := en_cfg e; en_gossip := en_gossip e; en_peers := en_peers e;
     en_apiLimits := en_apiLimits e; en_stopped := en_stopped e; en_quorumConfig := en_quorumConfig e;
     en_ledger := en_ledger e; en_pool := p; en_keys := en_keys e; en_policy := en_policy e;
     en_timing := en_timing e |}.

Definition with_keys (k : Keys) (e : Engine) : Engine :=
  {| en_node := en_node e; en_cfg := en_cfg e; en_gossip := en_gossip e; en_peers := en_peers e;
     en_apiLimits := en_apiLimits e; en_stopped := en_stopped e; en_quorumConfig := en_quorumConfig e;
     en_ledger := en_ledger e; en_pool := en_pool e; en_keys := k; en_policy := en_policy e;
     en_timing := en_timing e |}.

Definition with_policy (p : Policy) (e : Engine) : Engine :=
  {| en_node := en_node e; en_cfg := en_cfg e; en_gossip := en_gossip e; en_peers := en_peers e;
     en_apiLimits := en_apiLimits e; en_stopped := en_stopped e; en_quorumConfig := en_quorumConfig e;
     en_ledger := en_ledger e; en_pool := en_pool e; en_keys := en_keys e; en_policy := p;
     en_timing := en_timing e |}.

Definition with_timing (t : Timing) (e : Engine) : Engine :=
  {| en_node := en_node e; en_cfg := en_cfg e; en_gossip := en_gossip e; en_peers := en_peers e;
     en_apiLimits := en_apiLimits e; en_stopped := en_stopped e; en_quorumConfig := en_quorumConfig e;
     en_ledger := en_ledger e; en_pool := en_pool e; en_keys := en_keys e; en_policy := en_policy e;
     en_timing := t |}.

Definition with_limits (l : APILimits) (stopped : bool) (q : QuorumConfig) (e : Engine) : Engine :=
  {| en_node := en_node e; en_cfg := en_cfg e; en_gossip := en_gossip e; en_peers := en_peers e;
     en_apiLimits := l; en_stopped := stopped; en_quorumConfig := q;
     en_ledger := en_ledger e; en_pool := en_pool e; en_keys := en_keys e; en_policy := en_policy e;
     en_timing := en_timing e |}.

Definition with_state (s : NetworkState) (e : Engine) : Engine :=
  let l := en_ledger e in
  with_ledger {| lg_state := s; lg_laplacian := lg_laplacian l; lg_st := lg_st l; lg_blocks := lg_blocks l;
                 lg_anchored := lg_anchored l; lg_degraded := lg_degraded l |} e.

Definition with_laplacian (il : IncrementalLaplacian) (e : Engine) : Engine :=
  let l := en_ledger e in
  with_ledger {| lg_state := lg_state l; lg_laplacian := il; lg_st := lg_st l; lg_blocks := lg_blocks l;
                 lg_anchored := lg_anchored l; lg_degraded := lg_degraded l |} e.

Definition with_st (t : SparseMerkleTree) (e : Engine) : Engine :=
  let l := en_ledger e in
  with_ledger {| lg_state := lg_state l; lg_laplacian := lg_laplacian l; lg_st := t; lg_blocks := lg_blocks l;
                 lg_anchored := lg_anchored l; lg_degraded := lg_degraded l |} e.

Definition with_blocks (bs : list Block) (e : Engine) : Engine :=
  let l := en_ledger e in
  with_ledger {| lg_state := lg_state l; lg_laplacian := lg_laplacian l; lg_st := lg_st l; lg_blocks := bs;
                 lg_anchored := lg_anchored l; lg_degraded := lg_degraded l |} e.

Definition with_anchored (a : gmap bytes AnchorProof) (e : Engine) : Engine :=
  let l := en_ledger e in
  with_ledger {| lg_state := lg_state l; lg_laplacian := lg_laplacian l; lg_st := lg_st l; lg_blocks := lg_blocks l;
                 lg_anchored := a; lg_degraded := lg_degraded l |} e.

Definition with_degraded (d : option DegradedMode) (e : Engine) : Engine :=
  let l := en_ledger e in
  with_ledger {| lg_state := lg_state l; lg_laplacian := lg_laplacian l; lg_st := lg_st l; lg_blocks := lg_blocks l;
                 lg_anchored := lg_anchored l; lg_degraded := d |} e.

Definition with_pending (p pe : list ProvenanceEntry) (e : Engine) : Engine :=
  with_pool {| pl_pending := p; pl_pendingEntries := pe;
               pl_lastPendingChange := pl_lastPendingChange (en_pool e);
               pl_rateLimiter := pl_rateLimiter (en_pool e) |} e.

Definition markPendingChangedLocked (now : Z) (e : Engine) : Engine :=
  with_pool {| pl_pending := en_pending e; pl_pendingEntries := en_pendingEntries e;
               pl_lastPendingChange := now; pl_rateLimiter := pl_rateLimiter (en_pool e) |} e.

Definition with_rateLimiter (r : option SubmitterLimiter) (e : Engine) : Engine :=
  with_pool {| pl_pending := en_pending e; pl_pendingEntries := en_pendingEntries e;
               pl_lastPendingChange := pl_lastPendingChange (en_pool e); pl_rateLimiter := r |} e.

Definition bump_cycle (s : NetworkState) : NetworkState :=
  {| st_Cycle := u64 (st_Cycle s + 1); st_Nodes := st_Nodes s; st_Graph := st_Graph s;
     st_Lambda1 := st_Lambda1 s; st_SupervisionRoot := st_SupervisionRoot s;
     st_ActiveMandates := st_ActiveMandates s; st_ValidatorSet := st_ValidatorSet s |}.

(** ** Construction *)

Definition peer_info (u : UIDZeroSoulbound) : ValidatorInfo :=
  {| v_ValidatorID := u_RootID u; v_Dilithium3PK := u_PublicKey u; v_VRFPK := u_VRFPublicKey u;
     v_ContractHash := u_ContractHash u |}.

Definition with_interval (cfg : Config) (base maxd : Z) : Config :=
  {| Eta := Eta cfg; DecayRate := DecayRate cfg; MinLambda1 := MinLambda1 cfg;
     LambdaInterval := LambdaInterval cfg; SMTDepth := SMTDepth cfg; CycleTimeout := CycleTimeout cfg;
     MaxCycleDuration := maxd; BaseInterval := base; SafetyFactor := SafetyFactor cfg;
     SkipEmptyCycles := SkipEmptyCycles cfg; MaxPendingTTL := MaxPendingTTL cfg;
     BatchVerifyWorkers := BatchVerifyWorkers cfg; KeyRotationLeadTime := KeyRotationLeadTime cfg;
     MinKeyOverlap := MinKeyOverlap cfg; MinValidators := MinValidators cfg; GraceCycles := GraceCycles cfg |}.

Definition minute : Z := 60 * second.

(** [newEngine]; [peers] is [None] for nil. *)
Definition newEngine (node : Node) (cycleInterval : Z) (gossip : bool) (peers : slice Peer) : Engine :=
  let uidHex := ID (n_UID node) in
  let peers := match peers with
               | None => [{| p_UID := n_UID node; p_Addr := n_Addr node; p_Alive := true |}]
               | Some ps => ps
               end in
  let quorumCfg :=
    if (length peers =? 1)%nat then {| TotalValidators := 1; RequiredSigs := 1 |}
    else {| TotalValidators := Z.of_nat (length peers); RequiredSigs := (2 * Z.of_nat (length peers) + 2) / 3 |} in
  let maxd := if ((0 <? cycleInterval) && (cycleInterval <? MaxCycleDuration DefaultConfig))%Z
              then (cycleInterval * 4)%Z else MaxCycleDuration DefaultConfig in
  let cfg := with_interval DefaultConfig cycleInterval maxd in
  let validators := [peer_info (n_UID node)] in
  let st := {| st_Cycle := 0;
               st_Nodes := {[ uidHex := {| ns_UID := u_RootID (n_UID node); ns_Status := fone; ns_Consecutive := 0;
                                           ns_JoinCycle := 0; ns_Dilithium3PK := zeros 1952;
                                           ns_VRFPK := zeros 32 |} ]};
               st_Graph := [{| ed_From := uidHex; ed_To := uidHex; ed_Weight := fone |}];
               st_Lambda1 := fzero; st_SupervisionRoot := zeros 32; st_ActiveMandates := [];
               st_ValidatorSet := validators |} in
  {| en_node := node; en_cfg := cfg; en_gossip := gossip; en_peers := peers;
     en_apiLimits := {| MaxLabelLen := 0; MaxTotalPending := 0; MaxPendingPerSubmitter := 0 |};
     en_stopped := false; en_quorumConfig := quorumCfg;
     en_ledger := {| lg_state := st; lg_laplacian := DefaultIncrementalLaplacian;
                     lg_st := Smt.New (SMTDepth DefaultConfig); lg_blocks := []; lg_anchored := ∅;
                     lg_degraded := Some (NewDegradedMode (MinValidators DefaultConfig)
                                            (GraceCycles DefaultConfig)) |};
     en_pool := {| pl_pending := []; pl_pendingEntries := []; pl_lastPendingChange := 0;
                   pl_rateLimiter := Some (NewSubmitterLimiter 5000 minute) |};
     en_keys := {| ky_validator := NewKeyRotationValidator validators 0 cfg; ky_bodies := ∅ |};
     en_policy := {| po_resolver := NewMandateResolver []; po_bodies := ∅ |};
     en_timing := {| tm_rttEWMA := 0; tm_rttSamples := 0; tm_lastCycleStart := 0;
                     tm_cycleDuration := cycleInterval; tm_cycleTimeout := 10 * second |} |}.

Definition NewEngine (node : Node) (cycleInterval : Z) : Engine := newEngine node cycleInterval false None.

Definition registerPeerValidatorSetLocked (e : Engine) : Engine :=
  match en_peers e with
  | [] => e
  | peers => with_keys {| ky_validator := SetValidatorSet (ky_validator (en_keys e))
                                            (peer_info ∘ p_UID <$> peers);
                          ky_bodies := ky_bodies (en_keys e) |} e
  end.

(** [NewEngineWithPeers]: all peers as nodes, a full mesh of edges, the canonical set. *)
Definition NewEngineWithPeers (node : Node) (cycleInterval : Z) (gossip : bool) (peers : slice Peer) : Engine :=
  let eng := newEngine node cycleInterval gossip peers in
  let peers := elems peers in
  let s := en_state eng in
  let nodes := foldl (fun m p =>
    match m !! ID (p_UID p) with
    | Some _ => m
    | None => <[ID (p_UID p) := {| ns_UID := u_RootID (p_UID p); ns_Status := fone; ns_Consecutive := 0;
                                   ns_JoinCycle := 0; ns_Dilithium3PK := u_PublicKey (p_UID p);
                                   ns_VRFPK := u_VRFPublicKey (p_UID p) |}]> m
    end) (st_Nodes s) peers in
  let edges := peers ≫= (fun p => (fun q => {| ed_From := ID (p_UID p); ed_To := ID (p_UID q);
                                              ed_Weight := fone |}) <$> peers) in
  registerPeerValidatorSetLocked (with_state
    {| st_Cycle := st_Cycle s; st_Nodes := nodes; st_Graph := edges; st_Lambda1 := st_Lambda1 s;
       st_SupervisionRoot := st_SupervisionRoot s; st_ActiveMandates := st_ActiveMandates s;
       st_ValidatorSet := peer_info ∘ p_UID <$> peers |} eng).
End engine.
