(* ===== verification/EngineCycle.v ===== *)
(** * The consensus cycle (pkg/consensus: prepare.go, commit.go, engine.go RunCycle) *)
From Stdlib Require Import SpecFloat.
From S2P Require Import Prelude Crypto Smt Errors Vrf Identity Chain Config Rotation Mandates Quorum Gossip.
From S2P Require Import State Engine.

Section cycle.
Context `{Primitives, Cbor, Ristretto, Gonum, StateCbor} {bus : Type} `{GossipChannel bus}.

(** ** The engine's monad: the state survives errors and panics. *)

Record World := MkWorld {
  w_eng : Engine;
  w_bus : bus;
  w_step : nat;
}.

Definition M (A : Type) : Type := World → World * outcome gerror A.

Definition ret {A} (a : A) : M A := fun w => (w, Ok a).

Definition throw {A} (e : gerror) : M A := fun w => (w, Err e).

Definition mbind {A B} (m : M A) (k : A → M B) : M B := fun w =>
  match m w with
  | (w', Ok a) => k a w'
  | (w', Err e) => (w', Err e)
  | (w', Panic) => (w', Panic)
  end.

Definition lift {A} (o : outcome gerror A) : M A := fun w => (w, o).

Definition get_eng : M Engine := fun w => (w, Ok (w_eng w)).

Definition modify (f : Engine → Engine) : M unit := fun w =>
  ({| w_eng := f (w_eng w); w_bus := w_bus w; w_step := w_step w |}, Ok tt).

Local Notation "'let*' x ':=' m 'in' k" := (mbind m (fun x => k)) (at level 200, x name, right associativity).
Local Notation "m ';*' k" := (mbind m (fun _ => k)) (at level 199, right associativity).

(** The other engines, the clock, and the length of the waits. *)
Context (env : nat → bus → bus) (clock : nat → Z) (patience : nat → nat).

(** One call on the bus, after whatever the other engines did. *)
Definition bus_call {A} (f : bus → bus * A) : M A := fun w =>
  let '(b', a) := f (env (w_step w) (w_bus w)) in
  ({| w_eng := w_eng w; w_bus := b'; w_step := S (w_step w) |}, Ok a).

Definition bus_read {A} (f : bus → A) : M A := bus_call (fun b => (b, f b)).

Definition bus_write (f : bus → bus) : M unit := bus_call (fun b => (f b, tt)).

Definition now : M Z := fun w =>
  ({| w_eng := w_eng w; w_bus := w_bus w; w_step := S (w_step w) |}, Ok (clock (w_step w))).

Definition get_patience : M nat := fun w => (w, Ok (patience (w_step w))).

(** The polling loop of the waits: read, and read again while the wait lasts. *)
Fixpoint poll {A} (n : nat) (read : M (option A)) : M (option A) :=
  let* x := read in
  match x, n with
  | Some a, _ => ret (Some a)
  | None, S n' => poll n' read
  | None, O => ret None
  end.

Definition waitForProposal (cycle : Z) : M (option Block) :=
  let* n := get_patience in poll n (bus_read (GetProposed cycle)).

Definition waitForFinal (cycle : Z) : M (option Block) :=
  let* n := get_patience in poll n (bus_read (GetFinal cycle)).

Definition enough {A} (want : nat) (m : gmap string A) : option unit :=
  if (want <=? size m)%nat then Some tt else None.

Definition waitForVRFProofs (want : nat) (collect : M (gmap string VRFProof)) : M unit :=
  let* n := get_patience in
  let* _ := poll n (let* ps := collect in ret (enough want ps)) in ret tt.

Definition waitForSignatures (quorum : nat) (collect : M (gmap string bytes)) : M bool :=
  let* n := get_patience in
  let* r := poll n (let* sigs := collect in ret (enough quorum sigs)) in
  ret (bool_decide (r = Some tt)).

(** ** Key rotation and mandates at the start of a cycle *)

Definition syncKeyRotationStateLocked (e : Engine) : Engine :=
  with_keys {| ky_validator := SetCycle (SetValidatorSet (ky_validator (en_keys e))
                                           (st_ValidatorSet (en_state e))) (st_Cycle (en_state e));
               ky_bodies := ky_bodies (en_keys e) |} e.

(** A rotation without a known body, or that fails validation, is skipped. *)
Definition admit_rotation_entry (e : Engine) (pe : ProvenanceEntry) : Engine :=
  if bool_decide (e_Label pe ≠ KeyRotationLabel) then e
  else
    match ky_bodies (en_keys e) !! e_Hash pe with
    | None => e
    | Some body =>
        match ValidateAndRecord (ky_validator (en_keys e)) (Some body) with
        | Ok v => with_keys {| ky_validator := v; ky_bodies := ky_bodies (en_keys e) |} e
        | _ => e
        end
    end.

Definition processKeyRotationEntriesLocked (entries : list ProvenanceEntry) (e : Engine) : Engine :=
  foldl admit_rotation_entry e entries.

Definition mandateAuthorityLookupLocked (e : Engine) (rootID : bytes) : option bytes :=
  match list_find (fun v => v_ValidatorID v = rootID) (st_ValidatorSet (en_state e)) with
  | Some (_, v) => Some (v_Dilithium3PK v)
  | None =>
      match st_Nodes (en_state e) !! hex_encode rootID with
      | Some node => if bool_decide (ns_Dilithium3PK node = zeros 1952) then None
                     else Some (ns_Dilithium3PK node)
      | None => None
      end
  end.

Definition with_resolver (r : MandateResolver) (e : Engine) : Engine :=
  with_policy {| po_resolver := r; po_bodies := po_bodies (en_policy e) |} e.

Definition admit_mandate_entry (e : Engine) (pe : ProvenanceEntry) : Engine :=
  if bool_decide (e_Label pe ≠ MandateLabel) then e
  else
    match po_bodies (en_policy e) !! e_Hash pe with
    | None => e
    | Some body =>
        match ValidateMandateAuthority (Some body) (Some (mandateAuthorityLookupLocked e)) with
        | Ok _ => match Put (po_resolver (en_policy e)) (Some body) with
                  | Ok r => with_resolver r e
                  | _ => e
                  end
        | _ => e
        end
    end.

Definition processMandateEntriesLocked (entries : list ProvenanceEntry) (e : Engine) : Engine :=
  foldl admit_mandate_entry e entries.

Definition keyRotationEpochLocked (e : Engine) : Z :=
  foldl (fun epoch r =>
    if IsEffective r (st_Cycle (en_state e)) && (epoch <? k_EffectiveCycle r)%Z
    then k_EffectiveCycle r else epoch) 0%Z
    (st_ValidatorSet (en_state e) ≫= (fun vi => Rotations (ky_validator (en_keys e)) (v_ValidatorID vi))).

Definition verify_overlap (e : Engine) (id msg sig : bytes) (cycle : Z) : bool :=
  verifySignatureWithOverlap (ky_validator (en_keys e)) id msg sig cycle.

(** ** PREPARE *)

(** [seen]/[unique]: the first entry of each hash. *)
Fixpoint dedup_hash (seen : gset bytes) (entries : list ProvenanceEntry) : list ProvenanceEntry :=
  match entries with
  | [] => []
  | e :: rest =>
      if bool_decide (e_Hash e ∈ seen) then dedup_hash seen rest
      else e :: dedup_hash ({[ e_Hash e ]} ∪ seen) rest
  end.

(** Inserting the entries; a failing insertion is logged and skipped. *)
Definition insert_entries (entries : list ProvenanceEntry) (t : SparseMerkleTree) : SparseMerkleTree :=
  foldl (fun t x => default t (Smt.Insert t (copy_array 32 (e_Hash x)) (e_Hash x))) t entries.

Definition prev_hash (e : Engine) : bytes :=
  match last (en_blocks e) with Some b => b_BlockHash b | None => zeros 32 end.

(** The candidate before its hash and signature are known. *)
Definition candidate (e : Engine) (cycle : Z) (proposer : Peer) (entries : list ProvenanceEntry)
    (timestamp : Z) (requiredQuorum : nat) (stateRoot hash : bytes) (sigs : list bytes) : Block :=
  {| b_Index := cycle; b_PrevHash := prev_hash e; b_StateRoot := stateRoot;
     b_Proposer := u_RootID (p_UID proposer); b_Anchored := Some entries;
     b_Lambda1 := st_Lambda1 (en_state e); b_Timestamp := timestamp;
     b_Validators := peer_info ∘ p_UID <$> en_peers e; b_Quorum := en_quorumConfig e;
     b_BlockHash := hash; b_ProtocolVersion := 2; b_PrepareSigsBitmap := None;
     b_PrepareSigs := Some sigs; b_CommitSig := []; b_ExternalAnchors := [];
     b_KeyRotationEpoch := keyRotationEpochLocked e; b_LegacyAnchor := [];
     b_Metadata := if (requiredQuorum =? 1)%nat then {[ degraded_label := string_bytes "true" ]} else ∅ |}.

(** The [block == nil] branch of the proposer. *)
Definition build_candidate (cycle : Z) (proposer : Peer) (entries : list ProvenanceEntry)
    (requiredQuorum : nat) : M Block :=
  let entries := dedup_hash ∅ entries in
  let* timestamp := now in
  let* e0 := get_eng in
  modify (fun e => with_st (insert_entries entries (en_st e)) e) ;*
  let* e := get_eng in
  let stateRoot := Smt.Root (en_st e) in
  let hash := ComputeBlockHash (candidate e0 cycle proposer entries timestamp requiredQuorum stateRoot [] []) in
  let sig := SignDilithium (u_SecretKey (n_UID (en_node e))) hash in
  let block := candidate e0 cycle proposer entries timestamp requiredQuorum stateRoot hash [sig] in
  let me := ID (n_UID (en_node e)) in
  if en_gossip e then
    bus_write (Propose block me) ;*
    bus_write (PublishSig {| bs_Cycle := cycle; bs_Sig := sig; bs_SignerID := me |}) ;*
    ret block
  else ret block.

Definition proposer_block (cycle : Z) (proposer : Peer) (pendingEntries : list ProvenanceEntry)
    (checkQuorum : bool) (requiredQuorum : nat) : M Block :=
  let* e := get_eng in
  if en_gossip e && checkQuorum then
    let* proposal := bus_read (GetProposed cycle) in
    match proposal with
    | None => throw (ErrText "no proposal from proposer for quorum check")
    | Some block => ret block
    end
  else
    let* entries := (if en_gossip e then bus_read Snapshot else ret pendingEntries) in
    match entries with
    | [] => throw (ErrText "no entries to propose")
    | _ => build_candidate cycle proposer entries requiredQuorum
    end.

Definition validator_block (cycle : Z) (proposer : Peer) : M Block :=
  let* e := get_eng in
  if negb (en_gossip e) then throw (ErrText "no gossip in multi-node mode")
  else
    let* proposal := waitForProposal cycle in
    match proposal with
    | None => throw (ErrText "no proposal from proposer %s")
    | Some block =>
        modify (fun e => with_st (insert_entries (elems (b_Anchored block)) (en_st e)) e) ;*
        let* e := get_eng in
        if negb (bool_decide (Smt.Root (en_st e) = b_StateRoot block))
        then throw (ErrText "SMT root mismatch: local=%x proposal=%x")
        else if negb (bool_decide (ComputeBlockHash block = b_BlockHash block))
        then throw (ErrText "block hash mismatch")
        else
          let* sig0 := lift (index (elems (b_PrepareSigs block)) 0) in
          if negb (verify_overlap e (u_RootID (p_UID proposer)) (b_BlockHash block) sig0 cycle)
          then throw (ErrText "proposer signature verification failed")
          else
            let mySig := SignDilithium (u_SecretKey (n_UID (en_node e))) (b_BlockHash block) in
            bus_write (PublishSig {| bs_Cycle := cycle; bs_Sig := mySig;
                                     bs_SignerID := ID (n_UID (en_node e)) |}) ;*
            ret block
    end.

Definition insert_absent {A} (m : gmap string A) (k : string) (a : A) : gmap string A :=
  match m !! k with Some _ => m | None => <[k := a]> m end.

(** The signatures of known validators that verify. *)
Definition valid_sigs (e : Engine) (hash : bytes) (cycle : Z) (sigs : gmap string bytes) : gmap string bytes :=
  map_imap (fun signerID sig =>
    match list_find (fun p => ID (p_UID p) = signerID) (en_peers e) with
    | None => None
    | Some (_, p) => if verify_overlap e (u_RootID (p_UID p)) hash sig cycle then Some sig else None
    end) sigs.

Definition collectValidSigs (cycle : Z) (block : Block) (amProposer : bool) : M (gmap string bytes) :=
  let* e := get_eng in
  let me := ID (n_UID (en_node e)) in
  let* local :=
    (if amProposer || negb (en_gossip e)
     then let* s := lift (index (elems (b_PrepareSigs block)) 0) in ret {[ me := s ]}
     else let* sigs := bus_read (GetSigs cycle) in
          match list_find (fun s => bs_SignerID s = me) sigs with
          | Some (_, s) => ret {[ me := bs_Sig s ]}
          | None => ret ∅
          end) in
  if en_gossip e then
    let* sigs := bus_read (GetSigs cycle) in
    ret (valid_sigs e (b_BlockHash block) cycle
           (foldl (fun m s => insert_absent m (bs_SignerID s) (bs_Sig s)) local sigs))
  else ret (valid_sigs e (b_BlockHash block) cycle local).

Definition collectVRFProofs (cycle : Z) (localProof : VRFProof) : M (gmap string VRFProof) :=
  let* e := get_eng in
  let proofs := {[ ID (n_UID (en_node e)) := localProof ]} in
  if en_gossip e then
    let* msgs := bus_read (GetVRFProofs cycle) in
    ret (foldl (fun m msg =>
           match UnmarshalVRFProof (vm_Proof msg) with
           | Ok p => insert_absent m (vm_SignerID msg) p
           | _ => m
           end) proofs msgs)
  else ret proofs.

Definition prepare_bitmap (peers : list Peer) (valid : gmap string bytes) : bytes :=
  foldl (fun bm '(i, p) => if bool_decide (is_Some (valid !! ID (p_UID p))) then set_bit bm i else bm)
    (empty_bitmap (length peers)) (imap (fun i p => (i, p)) peers).

(** [fmt.Errorf] around the error of a callee. *)
Definition with_text {E A} (msg : string) (o : outcome E A) : outcome gerror A :=
  match o with
  | Ok a => Ok a
  | Err _ => Err (ErrText msg)
  | Panic => Panic
  end.

(** Proof collection and proposer selection. *)
Definition elect (cycle : Z) (rootArr : bytes) : M Peer :=
  let* e := get_eng in
  let proposerPeers := if en_gossip e then en_peers e
                       else [{| p_UID := n_UID (en_node e); p_Addr := n_Addr (en_node e); p_Alive := true |}] in
  let* localProof := lift (with_text "VRF proof error: %w" (VRFProve (n_UID (en_node e)) (makeAlpha cycle rootArr))) in
  (if en_gossip e
   then bus_write (PublishVRFProof {| vm_Cycle := cycle; vm_Proof := MarshalVRFProof localProof;
                                      vm_SignerID := ID (n_UID (en_node e)) |})
   else ret tt) ;*
  let* proofs0 := collectVRFProofs cycle localProof in
  let* proofs :=
    (if en_gossip e && (size proofs0 <? length proposerPeers)%nat
     then waitForVRFProofs (length proposerPeers) (collectVRFProofs cycle localProof) ;*
          collectVRFProofs cycle localProof
     else ret proofs0) in
  let* best := lift (with_text "VRF proposer selection failed: %w"
                       (SelectProposer proposerPeers cycle rootArr proofs)) in
  match st_Nodes (en_state e) !! ID (p_UID best.1) with
  | Some node => if fle (ns_Status node) fzero then throw (ErrText "proposer %s is inactive") else ret best.1
  | None => ret best.1
  end.

Definition RunPreparePhase (cycle : Z) (rootArr : bytes) (pendingEntries : list ProvenanceEntry)
    (checkQuorum : bool) (requiredQuorum : nat) : M PrepareResult :=
  let* proposer := elect cycle rootArr in
  let* e := get_eng in
  let amProposer := bool_decide (ID (p_UID proposer) = ID (n_UID (en_node e))) in
  let* block := (if amProposer
                 then proposer_block cycle proposer pendingEntries checkQuorum requiredQuorum
                 else validator_block cycle proposer) in
  let* sigs0 := collectValidSigs cycle block amProposer in
  let* sigs :=
    (if checkQuorum && en_gossip e && (size sigs0 <? requiredQuorum)%nat
     then let* reached := waitForSignatures requiredQuorum (collectValidSigs cycle block amProposer) in
          if reached : bool then collectValidSigs cycle block amProposer else ret sigs0
     else ret sigs0) in
  ret {| pr_Block := block; pr_PrepareSigs := sigs; pr_PrepareBitmap := prepare_bitmap (en_peers e) sigs;
         pr_LeaderID := ID (p_UID proposer);
         pr_QuorumReached := checkQuorum && (requiredQuorum <=? size sigs)%nat |}.

(** ** COMMIT *)

(** The signatures in bitmap order; [break] when the bitmap ends. *)
Fixpoint compact_sigs (bitmap : bytes) (sigs : gmap string bytes) (i : nat) (peers : list Peer) : list bytes :=
  match peers with
  | [] => []
  | p :: rest =>
      if (length bitmap <=? i / 8)%nat then []
      else if bit_at bitmap i then
        match sigs !! ID (p_UID p) with
        | Some sig => sig :: compact_sigs bitmap sigs (S i) rest
        | None => compact_sigs bitmap sigs (S i) rest
        end
      else compact_sigs bitmap sigs (S i) rest
  end.

Definition finalise (b : Block) (bitmap : bytes) (sigs : list bytes) (hash commitSig : bytes) : Block :=
  {| b_Index := b_Index b; b_PrevHash := b_PrevHash b; b_StateRoot := b_StateRoot b;
     b_Proposer := b_Proposer b; b_Anchored := b_Anchored b; b_Lambda1 := b_Lambda1 b;
     b_Timestamp := b_Timestamp b; b_Validators := b_Validators b; b_Quorum := b_Quorum b;
     b_BlockHash := hash; b_ProtocolVersion := 2; b_PrepareSigsBitmap := Some bitmap;
     b_PrepareSigs := Some sigs; b_CommitSig := commitSig; b_ExternalAnchors := b_ExternalAnchors b;
     b_KeyRotationEpoch := b_KeyRotationEpoch b; b_LegacyAnchor := b_LegacyAnchor b;
     b_Metadata := b_Metadata b |}.

Definition leader_final (e : Engine) (pr : PrepareResult) : Block :=
  let block := pr_Block pr in
  let sigs := compact_sigs (pr_PrepareBitmap pr) (pr_PrepareSigs pr) 0 (en_peers e) in
  let finalHash := ComputeBlockHash (finalise block (pr_PrepareBitmap pr) sigs (b_BlockHash block) (b_CommitSig block)) in
  finalise block (pr_PrepareBitmap pr) sigs finalHash
    (SignDilithium (u_SecretKey (n_UID (en_node e))) finalHash).

Definition RunCommitPhase (cycle : Z) (pr : PrepareResult) : M Block :=
  if negb (pr_QuorumReached pr) then throw (ErrText "PREPARE quorum not reached")
  else
    let* e := get_eng in
    let me := ID (n_UID (en_node e)) in
    if bool_decide (pr_LeaderID pr = me) then
      let finalBlock := leader_final e pr in
      (if en_gossip e then bus_write (PublishFinal finalBlock me) else ret tt) ;*
      ret finalBlock
    else if negb (en_gossip e) then throw (ErrText "no gossip in multi-node mode")
    else
      let* finalProposal := waitForFinal cycle in
      match finalProposal with
      | None => throw (ErrText "no B_final from leader")
      | Some final =>
          if negb (verifyPrepareQuorum final (en_peers e) cycle (Some (ky_validator (en_keys e))))
          then throw (ErrText "PREPARE quorum verification failed in B_final")
          else
            match list_find (fun p => ID (p_UID p) = pr_LeaderID pr) (en_peers e) with
            | None => throw (ErrText "leader %s not in validator set")
            | Some (_, p) =>
                if negb (verify_overlap e (u_RootID (p_UID p)) (b_BlockHash final) (b_CommitSig final) cycle)
                then throw (ErrText "leader COMMIT signature verification failed")
                else if negb (bool_decide (ComputeBlockHash final = b_BlockHash final))
                then throw (ErrText "block hash mismatch in B_final")
                else ret final
            end
      end.

(** ** One cycle *)

(** [RunVRFPhase]: publish this node's proof and collect what is there. *)
Definition RunVRFPhase (cycle : Z) : M (gmap string VRFProof) :=
  let* e := get_eng in
  if negb (en_gossip e) then throw (ErrText "no gossip channel for VRF phase")
  else
    let* localProof := lift (with_text "VRF proof error: %w" (VRFProve (n_UID (en_node e)) (makeAlpha cycle (Smt.Root (en_st e))))) in
    bus_write (PublishVRFProof {| vm_Cycle := cycle; vm_Proof := MarshalVRFProof localProof;
                                  vm_SignerID := ID (n_UID (en_node e)) |}) ;*
    collectVRFProofs cycle localProof.

Definition RunPreparePhaseWithVRF (cycle : Z) (rootArr : bytes) (pendingEntries : list ProvenanceEntry)
    (vrfProofs : gmap string VRFProof) (checkQuorum : bool) (requiredQuorum : nat) : M PrepareResult :=
  RunPreparePhase cycle rootArr pendingEntries checkQuorum requiredQuorum.

Definition nextCycleLocked (e : Engine) : Z := Z.of_nat (length (en_blocks e)).

(** The loop of the ingestion: the pool's entries with unknown hashes, each hash once. *)
Definition ingest (pool : list ProvenanceEntry) (e : Engine) : list ProvenanceEntry :=
  dedup_hash (list_to_set (e_Hash <$> en_pendingEntries e ++ en_pending e)) pool.

Definition ingestGossipedEntriesLocked : M unit :=
  let* e := get_eng in
  if negb (en_gossip e) then ret tt
  else
    let* pool := bus_read Snapshot in
    match ingest pool e with
    | [] => ret tt
    | added =>
        let* t := now in
        modify (fun e => markPendingChangedLocked t
                  (with_pending (en_pending e) (en_pendingEntries e ++ added) e))
    end.

Definition activeValidators (e : Engine) : nat :=
  match st_ValidatorSet (en_state e) with
  | [] => length (en_peers e)
  | vs => length vs
  end.

Definition required_quorum (e : Engine) : nat :=
  match lg_degraded (en_ledger e) with
  | Some d => if IsDegraded d then 1 else QuorumRequired (activeValidators e)
  | None => QuorumRequired (activeValidators e)
  end.

(** Every failure path: keep the entries, restore the tree, count the attempt. *)
Definition abort_cycle (allPending : list ProvenanceEntry) (snapshot : SparseMerkleTree) (e : Engine) : Engine :=
  with_state (bump_cycle (en_state e)) (with_st snapshot (with_pending (en_pending e) allPending e)).

Definition anchor_proof (e : Engine) (block : Block) (entry : ProvenanceEntry) : AnchorProof :=
  let h := copy_array 32 (e_Hash entry) in
  {| ap_Found := true;
     ap_BlockIndex := match length (en_blocks e) with O => 0 | S n => Z.of_nat n end;
     ap_BlockTime := b_Timestamp block; ap_StateRoot := Smt.Root (en_st e);
     ap_SMTProof := concat (default [] (Smt.Prove (en_st e) h));
     ap_Submitter := e_Submitter entry; ap_Label := e_Label entry |}.

(** What follows a successful transition: pending entries, the block, the anchor proofs. *)
Definition append_block (block : Block) (e : Engine) : Engine :=
  let anchoredEntries := elems (b_Anchored block) in
  let committed : gset bytes := list_to_set (e_Hash <$> anchoredEntries) in
  let e1 := with_pending [] (filter (fun x => e_Hash x ∉ committed) (en_pendingEntries e)) e in
  let e2 := with_blocks (en_blocks e1 ++ [block]) e1 in
  with_anchored (foldl (fun m x => <[copy_array 32 (e_Hash x) := anchor_proof e2 block x]> m)
                   (en_anchored e2) anchoredEntries) e2.

(** The degraded-mode step after COMMIT: the new mode and the block under its rules. *)
Definition degraded_step (e : Engine) (active : nat) (quorumReached : bool) (block : Block) :
    Engine * outcome gerror Block :=
  match lg_degraded (en_ledger e) with
  | None => (e, Ok block)
  | Some d =>
      let d' := fst (fst (CheckDegradedTransition d (Z.of_nat active) quorumReached)) in
      (with_degraded (Some d') e, ApplyDegradedBlock d' block (en_peers e))
  end.

(** [m], and on an error the cycle's failure path. A panic goes on to [RunCycle]. *)
Definition or_abort {A} (allPending : list ProvenanceEntry) (snapshot : SparseMerkleTree)
    (m : M A) (k : A → M unit) : M unit := fun w =>
  match m w with
  | (w', Ok a) => k a w'
  | (w', Err _) => modify (abort_cycle allPending snapshot) w'
  | (w', Panic) => (w', Panic)
  end.

Definition degraded_phase (active : nat) (quorumReached : bool) (block : Block) : M Block := fun w =>
  let '(e', r) := degraded_step (w_eng w) active quorumReached block in
  ({| w_eng := e'; w_bus := w_bus w; w_step := w_step w |}, r).

Definition apply_phase : M unit := fun w =>
  let e := w_eng w in
  let '(lap, r) := Apply (en_state e) (st_SupervisionRoot (en_state e)) [ID (n_UID (en_node e))] (en_cfg e)
                     (lg_laplacian (en_ledger e)) in
  let e1 := with_laplacian lap e in
  match r with
  | Ok next => ({| w_eng := with_state next e1; w_bus := w_bus w; w_step := w_step w |}, Ok tt)
  | Err er => ({| w_eng := e1; w_bus := w_bus w; w_step := w_step w |}, Err er)
  | Panic => ({| w_eng := e1; w_bus := w_bus w; w_step := w_step w |}, Panic)
  end.

Definition cycle_body : M unit :=
  let* e0 := get_eng in
  let cycle := nextCycleLocked e0 in
  ingestGossipedEntriesLocked ;*
  let* e1 := get_eng in
  let snapshot := Smt.Clone (en_st e1) in
  modify syncKeyRotationStateLocked ;*
  let allPending := en_pendingEntries e1 ++ en_pending e1 in
  if (length allPending =? 0)%nat && SkipEmptyCycles (en_cfg e1)
  then modify (fun e => with_state (bump_cycle (en_state e)) (with_st snapshot e))
  else
      modify (processKeyRotationEntriesLocked allPending) ;*
      modify (processMandateEntriesLocked allPending) ;*
      let* e2 := get_eng in
      let active := activeValidators e2 in
      let required := required_quorum e2 in
      let rootArr := Smt.Root (en_st e2) in
      or_abort allPending snapshot (RunPreparePhase cycle rootArr allPending false required) (fun _ =>
      or_abort allPending snapshot (RunPreparePhase cycle rootArr allPending true required) (fun pr =>
      or_abort allPending snapshot (RunCommitPhase cycle pr) (fun block =>
      or_abort allPending snapshot (degraded_phase active (pr_QuorumReached pr) block) (fun final =>
      or_abort allPending snapshot apply_phase (fun _ =>
      modify (append_block final) ;*
      let* e := get_eng in
      if en_gossip e
      then bus_write (RemoveEntries (list_to_set (e_Hash <$> elems (b_Anchored final))))
      else ret tt))))).

(** [RunCycle]: a panic is recovered, with the state it left. *)
Definition RunCycle (w : World) : World := fst (cycle_body w).
End cycle.
