(* ===== verification/EngineApi.v ===== *)
(** * The engine's submission and query interface (pkg/consensus: engine.go, api.go,
    key_rotation.go, mandates.go) *)
From Stdlib Require Import SpecFloat.
From S2P Require Import Prelude Crypto Smt Errors Vrf Identity Chain Config Rotation Mandates Quorum Gossip.
From S2P Require Import State Engine EngineCycle.

Section api.
Context `{Primitives, Cbor, Ristretto, Gonum, StateCbor} {bus : Type} `{GossipChannel bus}.
Context (env : nat → bus → bus) (clock : nat → Z).

Local Notation "'let*' x ':=' m 'in' k" := (mbind m (fun x => k)) (at level 200, x name, right associativity).
Local Notation "m ';*' k" := (mbind m (fun _ => k)) (at level 199, right associativity).

(** ** Submission *)

Definition apiLimitsLocked (e : Engine) : APILimits :=
  if (MaxLabelLen (en_apiLimits e) =? 0)%Z then DefaultAPILimits else en_apiLimits e.

Definition validateEntry (hash submitter : bytes) (label : string) (cfg : APILimits) : outcome gerror unit := (
  fail_if (IsZeroHash hash) (WrapValidationError ErrCodeInvalidHash "invalid hash" ErrInvalidHash) ;;!
  fail_if (bool_decide (submitter = zeros 16))
    (WrapValidationError ErrCodeInvalidSubmitter "invalid submitter" ErrInvalidSubmitter) ;;!
  fail_if (MaxLabelLen cfg <? Z.of_nat (String.length label))%Z
    (WrapValidationError ErrCodeLabelTooLong "label too long" ErrLabelTooLong))%go.

(** [e.rateLimiter != nil && !e.rateLimiter.Allow(submitter)]. *)
Definition rate_limited (submitter : bytes) : M (bus := bus) bool :=
  let* e := get_eng in
  match pl_rateLimiter (en_pool e) with
  | None => ret false
  | Some sl =>
      let* t := now clock in
      let '(sl', ok) := Allow t sl submitter in
      modify (with_rateLimiter (Some sl')) ;* ret (negb ok)
  end.

(** The pending queue with one more entry, and the time of the change. *)
Definition push_pending (entry : ProvenanceEntry) : M (bus := bus) unit :=
  let* t := now clock in
  modify (fun e => markPendingChangedLocked t
            (with_pending (en_pending e ++ [entry]) (en_pendingEntries e) e)).

Definition validateEntryAgainstMandatesLocked (e : Engine) (entry : ProvenanceEntry) : outcome gerror unit :=
  ValidateEntryAgainstMandates (po_resolver (en_policy e)) (Some entry) (e_Timestamp entry).

Definition Enqueue (entry : ProvenanceEntry) : M (bus := bus) unit :=
  let* e := get_eng in
  if en_stopped e then throw ErrEngineStopped
  else
    let cfg := apiLimitsLocked e in
    lift (validateEntry (e_Hash entry) (e_Submitter entry) (e_Label entry) cfg) ;*
    lift (validateEntryAgainstMandatesLocked e entry) ;*
    if (MaxTotalPending cfg <=? Z.of_nat (length (en_pending e)))%Z then throw ErrRateLimited
    else
      let* limited := rate_limited (e_Submitter entry) in
      if limited : bool then throw ErrRateLimited
      else
        push_pending entry ;*
        if en_gossip e then bus_write env (Publish entry) else ret tt.

Definition Submit (hash submitter : bytes) (label : string) : M (bus := bus) Ticket :=
  let* e := get_eng in
  if en_stopped e then throw ErrEngineStopped
  else
    let cfg := apiLimitsLocked e in
    lift (validateEntry hash submitter label cfg) ;*
    if (MaxTotalPending cfg <=? Z.of_nat (length (en_pending e)))%Z then throw ErrRateLimited
    else
      let* limited := rate_limited submitter in
      if limited : bool then throw ErrRateLimited
      else
        let* t := now clock in
        push_pending {| e_Hash := hash; e_Submitter := submitter; e_Timestamp := t; e_Label := label;
                        e_Approver := None; e_Reference := None; e_Signature := []; e_MandateRef := None |} ;*
        let* e' := get_eng in
        ret {| tk_Hash := hash; tk_Status := "pending"; tk_BlockIndex := nextCycleLocked e';
               tk_BlockTime := 0 |}.

Definition SetAPILimits (cfg : APILimits) (e : Engine) : Engine :=
  let e1 := with_limits cfg (en_stopped e) (en_quorumConfig e) e in
  match pl_rateLimiter (en_pool e1) with
  | None => e1
  | Some _ => with_rateLimiter (Some (NewSubmitterLimiter (MaxPendingPerSubmitter cfg) minute)) e1
  end.

Definition SetQuorumConfig (q : QuorumConfig) (e : Engine) : Engine :=
  if QuorumConfig_IsValid q then with_limits (en_apiLimits e) (en_stopped e) q e else e.

(** What [Stop] does to the engine under its lock; the store it then writes is in Storage
    ([Stop_storage]), the context it cancels in EngineLoop. *)
Definition Stop (e : Engine) : Engine := with_limits (en_apiLimits e) true (en_quorumConfig e) e.

(** ** Mandates *)

Definition put_mandate (m : MandateEntry) (e : Engine) : outcome gerror Engine := (
  r <-! Put (po_resolver (en_policy e)) (Some m) ;;
  Ok (with_policy {| po_resolver := r; po_bodies := <[m_ID m := m]> (po_bodies (en_policy e)) |} e))%go.

Definition set_eng (e : Engine) : M (bus := bus) unit := modify (fun _ => e).

Definition SubmitMandate (mandate : option MandateEntry) : M (bus := bus) unit :=
  match mandate with
  | None => throw ErrMandateHashMismatch
  | Some m =>
      let* e := get_eng in
      lift (ValidateMandateAuthority (Some m) (Some (mandateAuthorityLookupLocked e))) ;*
      let* e1 := lift (put_mandate m e) in
      set_eng e1 ;*
      Enqueue {| e_Hash := m_ID m; e_Submitter := m_Authority m; e_Timestamp := m_ValidFrom m;
                 e_Label := MandateLabel; e_Approver := None; e_Reference := None; e_Signature := [];
                 e_MandateRef := Some (m_ID m) |}
  end.

(** The body is retained before the resolver takes it. *)
Definition RecordMandateBody (mandate : option MandateEntry) : M (bus := bus) unit :=
  match mandate with
  | None => throw ErrMandateHashMismatch
  | Some m =>
      let* e := get_eng in
      lift (ValidateMandateAuthority (Some m) (Some (mandateAuthorityLookupLocked e))) ;*
      modify (fun e => with_policy {| po_resolver := po_resolver (en_policy e);
                                      po_bodies := <[m_ID m := m]> (po_bodies (en_policy e)) |} e) ;*
      let* r := lift (Put (po_resolver (en_policy e)) (Some m)) in
      modify (with_resolver r)
  end.

Definition MandateBody (e : Engine) (id : bytes) : option MandateEntry := po_bodies (en_policy e) !! id.

Definition ActiveMandates (now_ : Z) (e : Engine) (timestamp : Z) : list MandateEntry :=
  GetActiveMandates (po_resolver (en_policy e)) (if (timestamp =? 0)%Z then now_ else timestamp).

(** The loop of [EntriesInWindow]: [continue] below the window, [break] above it. *)
Fixpoint window_loop (blocks : list Block) (startCycle endCycle : Z) : list ProvenanceEntry :=
  match blocks with
  | [] => []
  | block :: rest =>
      if (b_Index block <? startCycle)%Z then window_loop rest startCycle endCycle
      else if (0 <? endCycle)%Z && (endCycle <? b_Index block)%Z then []
      else elems (b_Anchored block) ++ window_loop rest startCycle endCycle
  end.

Definition EntriesInWindow (e : Engine) (startCycle endCycle : Z) : list ProvenanceEntry :=
  window_loop (en_blocks e) startCycle endCycle.

Definition CheckCompliance (fuel : nat) (now_ : Z) (e : Engine) (mandateID : bytes) (w : ComplianceWindow) :=
  CheckComplianceMandate fuel now_ (po_resolver (en_policy e)) mandateID w
    (EntriesInWindow e (w_StartCycle w) (w_EndCycle w)).

Definition CheckAllCompliance (fuel : nat) (now_ : Z) (e : Engine) (w : ComplianceWindow) :=
  CheckAllMandates fuel now_ (po_resolver (en_policy e)) w
    (EntriesInWindow e (w_StartCycle w) (w_EndCycle w)).

(** ** Key rotation *)

Definition SubmitKeyRotation (entry : option KeyRotationEntry) : M (bus := bus) unit :=
  match entry with
  | None => throw ErrKeyRotationInvalidEntry
  | Some k =>
      modify syncKeyRotationStateLocked ;*
      let* e := get_eng in
      lift (Validate (ky_validator (en_keys e)) (Some k)) ;*
      modify (fun e => with_keys {| ky_validator := ky_validator (en_keys e);
                                    ky_bodies := <[k_Hash k := k]> (ky_bodies (en_keys e)) |} e) ;*
      Enqueue {| e_Hash := k_Hash k; e_Submitter := k_Submitter k; e_Timestamp := k_Timestamp k;
                 e_Label := k_Label k; e_Approver := None; e_Reference := None; e_Signature := [];
                 e_MandateRef := None |}
  end.

(** [RotateKey]: the entry is returned beside the error once it exists. *)
Definition RotateKey (newPublicKey newVRFPublicKey sigNew : bytes) (effectiveCycle expiryCycle : Z) :
    M (bus := bus) (option KeyRotationEntry * outcome gerror unit) :=
  let* e := get_eng in
  let* t := now clock in
  match NewKeyRotationEntryWithNewSignature (u_RootID (n_UID (en_node e))) (u_SecretKey (n_UID (en_node e)))
          newPublicKey newVRFPublicKey sigNew effectiveCycle expiryCycle t with
  | Err er => ret (None, Err er)
  | Panic => lift Panic
  | Ok entry => fun w =>
      match SubmitKeyRotation (Some entry) w with
      | (w', Panic) => (w', Panic)
      | (w', r) => (w', Ok (Some entry, r))
      end
  end.

Definition RecordRotationBody (entry : option KeyRotationEntry) : M (bus := bus) unit :=
  match entry with
  | None => throw ErrKeyRotationInvalidEntry
  | Some k =>
      if negb (Rotation_VerifyHash k) then throw ErrHashMismatch
      else modify (fun e => with_keys {| ky_validator := ky_validator (en_keys e);
                                         ky_bodies := <[k_Hash k := k]> (ky_bodies (en_keys e)) |} e)
  end.

Definition RotationBody (e : Engine) (hash : bytes) : option KeyRotationEntry := ky_bodies (en_keys e) !! hash.

(** ** Queries *)

Definition LookupHash (e : Engine) (hash : bytes) : option AnchorProof := en_anchored e !! hash.

Definition verifyHash (e : Engine) (hash : bytes) : outcome gerror AnchorProof :=
  match en_anchored e !! hash with
  | Some proof => Ok proof
  | None => Err (ErrText "hash not found")
  end.

Definition GetHealth (e : Engine) : NetworkHealth :=
  {| nh_Lambda1 := st_Lambda1 (en_state e);
     nh_ActivePeers := length (filter (fun kv => flt fzero (ns_Status kv.2) = true) (map_to_list (st_Nodes (en_state e))));
     nh_TotalPeers := size (st_Nodes (en_state e));
     nh_BlockHeight := Z.of_nat (length (en_blocks e));
     nh_PendingHashes := length (en_pending e) |}.

Definition PendingCount (e : Engine) : nat := length (en_pending e).

Definition ValidatorSetSnapshot (e : Engine) : list ValidatorInfo := st_ValidatorSet (en_state e).

Definition GetStateRoot (e : Engine) : bytes := Smt.Root (en_st e).

Definition GetBlock (e : Engine) (index : Z) : option Block :=
  if (Z.of_nat (length (en_blocks e)) <=? index)%Z then None else en_blocks e !! Z.to_nat index.

Definition ProveSMT (e : Engine) (key : bytes) : outcome gerror (list bytes) :=
  match Smt.Prove (en_st e) key with
  | Some proof => Ok proof
  | None => Err (ErrText "key not found")
  end.

Definition VerifySMT (e : Engine) (key value root : bytes) (proof : list bytes) : bool :=
  Smt.Verify (en_st e) key value root proof.

(** ** Adaptive cycle duration *)

Definition f_0_3 : float64 := S754_finite false 5404319552844595 (-54).
Definition f_0_7 : float64 := S754_finite false 6305039478318694 (-53).

Definition f_of_Z (z : Z) : float64 := binary_normalize 53 1024 z 0 false.

(** Conversion of a float to [int64]: truncation; out of range the value is not specified
    by the language, and the model takes the smallest int64. *)
Definition f_to_i64 (x : float64) : Z :=
  match x with
  | S754_zero _ => 0
  | S754_finite s m e =>
      let q := (if (0 <=? e)%Z then Z.pos m * 2 ^ e else Z.pos m / 2 ^ (- e))%Z in
      let z := if s then (- q)%Z else q in
      if ((- 2 ^ 63 <=? z) && (z <? 2 ^ 63))%Z then z else (- 2 ^ 63)%Z
  | _ => (- 2 ^ 63)%Z
  end.

Definition updateCycleDuration (rtt : Z) (e : Engine) : Engine :=
  let t := en_timing e in
  let ewma := if (tm_rttSamples t =? 0)%Z then rtt
              else f_to_i64 (fadd (fmul (f_of_Z rtt) f_0_3) (fmul (f_of_Z (tm_rttEWMA t)) f_0_7)) in
  let latencyEstimate := f_to_i64 (fmul (f_of_Z ewma) (SafetyFactor (en_cfg e))) in
  let d0 := i64 (BaseInterval (en_cfg e) + latencyEstimate) in
  let d1 := if (MaxCycleDuration (en_cfg e) <? d0)%Z then MaxCycleDuration (en_cfg e) else d0 in
  let d2 := if (d1 <? BaseInterval (en_cfg e))%Z then BaseInterval (en_cfg e) else d1 in
  with_timing {| tm_rttEWMA := ewma; tm_rttSamples := i64 (tm_rttSamples t + 1);
                 tm_lastCycleStart := tm_lastCycleStart t; tm_cycleDuration := d2; tm_cycleTimeout := d2 |} e.

Definition millisecond : Z := 1000000.

(** [proposalWait]: always positive. Integer division truncates toward zero. *)
Definition proposalWait (e : Engine) : Z :=
  let budget := if (tm_cycleTimeout (en_timing e) <=? 0)%Z then CycleTimeout DefaultConfig
                else tm_cycleTimeout (en_timing e) in
  if (0 <? budget / 4)%Z then (budget / 4)%Z else millisecond.
End api.
