(* ===== verification/SubChain.v ===== *)
(** * Sub-chains (pkg/consensus/subchain.go, pkg/chain/subchain.go)

    A manager keeps sub-chains with a state tree of their own. [Anchor] inserts the pending
    entries into the tree and submits a digest of the new root to the engine; [Prove]
    combines a proof in the sub-chain with a proof of that digest in the engine's tree. The
    manager's lock covers the sub-chain part of a method and is released before the engine
    is called, so the two parts are separate definitions. *)
From Stdlib Require Import SpecFloat.
From S2P Require Import Prelude Crypto Smt Errors Vrf Identity Chain Config Rotation Mandates Quorum.
From S2P Require Import Gossip State Engine EngineCycle EngineApi.

Record SubChainDescriptor := MkDescriptor {
  sd_ID : bytes;
  sd_Name : string;
  sd_Owner : bytes;
  sd_Genesis : bytes;
  sd_CreatedAt : Z;
  sd_Active : bool;
}.

Record CrossChainAnchor := MkAnchor {
  ca_SubChainID : bytes;
  ca_StateRoot : bytes;
  ca_PrevAnchorHash : bytes;
  ca_SubChainHeight : Z;
  ca_Timestamp : Z;
}.

Record CrossChainProof := MkCrossProof {
  cp_EntryHash : bytes;
  cp_SubChainRoot : bytes;
  cp_SubChainProof : list bytes;
  cp_AnchorHash : bytes;
  cp_AnchorBlock : Z;
  cp_ParentRoot : bytes;
  cp_ParentProof : list bytes;
}.

Record subChain := MkSubChain {
  sc_desc : SubChainDescriptor;
  sc_st : SparseMerkleTree;
  sc_anchors : list CrossChainAnchor;
  sc_pending : list ProvenanceEntry;
}.

(** [SubChainManager.chains]. *)
Abbreviation SubChains := (gmap bytes subChain).

Definition ErrSubChainNotFound : gerror := ErrText "sub-chain not found".
Definition ErrSubChainExists : gerror := ErrText "sub-chain already registered".

Section manager.
Context `{Primitives, Cbor, Ristretto, Gonum, StateCbor} {bus : Type} `{GossipChannel bus}.
Context (env : nat → bus → bus) (clock : nat → Z).

Definition subchain_id (name : string) (owner : bytes) (now_ : Z) : bytes :=
  copy_array 32 (Hash (string_bytes name ++ owner ++ le_bytes 8 (u64 now_))).

(** [Register] at time [now_]; the engine's configuration gives the depth of the tree. *)
Definition Register (e : Engine) (now_ : Z) (name : string) (owner : bytes) (m : SubChains) :
    SubChains * outcome gerror bytes :=
  let id := subchain_id name owner now_ in
  match m !! id with
  | Some _ => (m, Err ErrSubChainExists)
  | None =>
      let st := Smt.New (SMTDepth (en_cfg e)) in
      (<[id := {| sc_desc := {| sd_ID := id; sd_Name := name; sd_Owner := owner; sd_Genesis := Smt.Root st;
                                sd_CreatedAt := now_; sd_Active := true |};
                  sc_st := st; sc_anchors := []; sc_pending := [] |}]> m, Ok id)
  end.

Definition Descriptor (id : bytes) (m : SubChains) : outcome gerror SubChainDescriptor :=
  match m !! id with
  | None => Err ErrSubChainNotFound
  | Some sc => Ok (sc_desc sc)
  end.

Definition SubChain_Submit (id : bytes) (entry : ProvenanceEntry) (m : SubChains) :
    SubChains * outcome gerror unit :=
  match m !! id with
  | None => (m, Err ErrSubChainNotFound)
  | Some sc =>
      (<[id := {| sc_desc := sc_desc sc; sc_st := sc_st sc; sc_anchors := sc_anchors sc;
                  sc_pending := sc_pending sc ++ [entry] |}]> m, Ok tt)
  end.

(** [identity.Hash(append(id[:], root[:]...))]. *)
Definition anchor_msg (id root : bytes) : bytes := id ++ root.

Definition anchor_hash (id root : bytes) : bytes := copy_array 32 (Hash (anchor_msg id root)).

(** The locked part of [Anchor]: the sub-chain after it, and the entry for the engine.
    [Insert] never returns an error, so its error return is not reached. *)
Definition anchor_step (id : bytes) (now_ : Z) (sc : subChain) : subChain * ProvenanceEntry :=
  let st := insert_entries (sc_pending sc) (sc_st sc) in
  let anch := {| ca_SubChainID := id; ca_StateRoot := Smt.Root st;
                 ca_PrevAnchorHash := match last (sc_anchors sc) with
                                      | Some a => ca_StateRoot a
                                      | None => zeros 32
                                      end;
                 ca_SubChainHeight := Z.of_nat (length (sc_anchors sc)); ca_Timestamp := now_ |} in
  ({| sc_desc := sc_desc sc; sc_st := st; sc_anchors := sc_anchors sc ++ [anch]; sc_pending := [] |},
   {| e_Hash := anchor_hash id (Smt.Root st); e_Submitter := sd_Owner (sc_desc sc); e_Timestamp := now_;
      e_Label := "subchain:anchor"; e_Approver := None; e_Reference := None; e_Signature := [];
      e_MandateRef := None |}).

(** [Anchor]: a failing submission to the engine is only logged. *)
Definition Anchor (id : bytes) (now_ : Z) (m : SubChains) (w : World (bus := bus)) :
    SubChains * World (bus := bus) * outcome gerror unit :=
  match m !! id with
  | None => (m, w, Err ErrSubChainNotFound)
  | Some sc =>
      let '(sc', entry) := anchor_step id now_ sc in
      match Enqueue env clock entry w with
      | (w', Panic) => (<[id := sc']> m, w', Panic)
      | (w', _) => (<[id := sc']> m, w', Ok tt)
      end
  end.

(** [Prove]: the sub-chain's proof and root, then the engine's proof of the anchor. *)
Definition SubChain_Prove (id entryHash : bytes) (m : SubChains) (e : Engine) : outcome gerror CrossChainProof :=
  match m !! id with
  | None => Err ErrSubChainNotFound
  | Some sc =>
      match Smt.Prove (sc_st sc) entryHash with
      | None => Err (ErrText "key not found")
      | Some subProof =>
          let subRoot := Smt.Root (sc_st sc) in
          match sc_anchors sc with
          | [] => Err (ErrText "sub-chain has no anchors")
          | _ =>
              let anchorHash := anchor_hash id subRoot in
              (parentProof <-! ProveSMT e anchorHash ;;
               match LookupHash e anchorHash with
               | None => Err (ErrText "anchor not yet committed in parent chain")
               | Some ap =>
                   Ok {| cp_EntryHash := entryHash; cp_SubChainRoot := subRoot; cp_SubChainProof := subProof;
                         cp_AnchorHash := anchorHash; cp_AnchorBlock := ap_BlockIndex ap;
                         cp_ParentRoot := copy_array 32 (GetStateRoot e); cp_ParentProof := parentProof |}
               end)%go
          end
      end
  end.

Definition VerifyCrossChain (proof : CrossChainProof) (parentRoot : bytes) : bool :=
  let smtVerifier := Smt.New 256 in
  if negb (Smt.Verify smtVerifier (cp_EntryHash proof) (cp_EntryHash proof) (cp_SubChainRoot proof)
             (cp_SubChainProof proof)) then false
  else Smt.Verify smtVerifier (cp_AnchorHash proof) (cp_AnchorHash proof) parentRoot (cp_ParentProof proof).
End manager.
