(* ===== verification/Storage.v ===== *)
(** * Persistence (pkg/storage/bolt.go; persist, loadPersisted and SetStorage of
    pkg/consensus/engine.go)

    The store is a bbolt database: buckets of byte keys, listed in key order. bbolt and
    encoding/json are the parameters [Bolt] and [Json]; a failing decoder leaves a partly
    filled value behind, which the interface keeps. *)
From Stdlib Require Import SpecFloat.
From S2P Require Import Prelude Crypto Smt SmtJson Errors Vrf Identity Chain Config Rotation Mandates Quorum.
From S2P Require Import Gossip State Engine EngineCycle EngineApi.

(** A bbolt database whose buckets exist; [None] is a failed and rolled back transaction. *)
Class Bolt := {
  db : Type;
  db_get : db → string → bytes → option bytes;
  db_put : string → bytes → bytes → db → option db;
  db_list : db → string → list (bytes * bytes);
  db_create : string → db → option db;
}.

(** What bbolt documents: a key holds what was last put, creating an existing bucket
    changes nothing, and a cursor visits the pairs in byte order of the keys. *)
Class BoltLaws `{Bolt} : Prop := {
  get_put b k v d d' : db_put b k v d = Some d' → ∀ b' k',
    db_get d' b' k' = if decide (b' = b ∧ k' = k) then Some v else db_get d b' k';
  get_create b d d' : db_create b d = Some d' → ∀ b' k', db_get d' b' k' = db_get d b' k';
  list_get d b k v : (k, v) ∈ db_list d b ↔ db_get d b k = Some v;
  list_sorted d b : StronglySorted (fun x y => bytes_ltb x y = true) (db_list d b).*1;
}.

(** [json.Marshal] and [json.Unmarshal] at one type: the value left in the target and
    whether the error is nil. *)
Class Json (A : Type) := {
  json_marshal : A → option bytes;
  json_unmarshal : bytes → A * bool;
}.

Section bolt.
Context `{Bolt}.

Definition bucketState : string := "state".
Definition bucketBlocks : string := "blocks".
Definition bucketPending : string := "pending".
Definition bucketAnchored : string := "anchored".
Definition bucketSMT : string := "smt".
Definition bucketSubChains : string := "subchains".
Definition bucketMeta : string := "meta".
Definition bucketSchema : string := "schema".

Definition schemaVersion : Z := 1.

Definition ErrStorage : gerror := ErrText "storage".
Definition ErrJson : gerror := ErrText "json".
Definition ErrNotFound : gerror := ErrText "not found".

Definition itob (v : Z) : bytes := be_bytes 8 v.

(** One transaction: every bucket, or none. *)
Fixpoint create_all (names : list string) (d : db) : option db :=
  match names with
  | [] => Some d
  | b :: rest => d' ← db_create b d; create_all rest d'
  end.

Definition initBuckets (d : db) : db * outcome gerror unit :=
  match create_all [bucketState; bucketBlocks; bucketPending; bucketAnchored; bucketSMT; bucketSubChains;
                    bucketMeta; bucketSchema] d with
  | Some d' => (d', Ok tt)
  | None => (d, Err ErrStorage)
  end.

Definition put (b : string) (k v : bytes) (d : db) : db * outcome gerror unit :=
  match db_put b k v d with
  | Some d' => (d', Ok tt)
  | None => (d, Err ErrStorage)
  end.

(** [binary.BigEndian.Uint64] panics on a short slice. *)
Definition migrate (d : db) : db * outcome gerror unit :=
  match db_get d bucketSchema (string_bytes "version") with
  | None => put bucketSchema (string_bytes "version") (itob schemaVersion) d
  | Some v =>
      if (length v <? 8)%nat then (d, Panic)
      else if (be_value (take 8 v) <? schemaVersion)%Z
      then put bucketSchema (string_bytes "version") (itob schemaVersion) d
      else (d, Ok tt)
  end.

(** [NewBoltStorage] on an opened database. *)
Definition NewBoltStorage (d : db) : db * outcome gerror unit :=
  match initBuckets d with
  | (d1, Ok _) => migrate d1
  | r => r
  end.

Definition put_json {A} `{Json A} (b : string) (k : bytes) (x : A) (d : db) : db * outcome gerror unit :=
  match json_marshal x with
  | None => (d, Err ErrJson)
  | Some data => put b k data d
  end.

(** A whole listing decoded; the first failure is the result. *)
Fixpoint decode_all {A B} `{Json A} (f : bytes → A → B) (l : list (bytes * bytes)) : outcome gerror (list B) :=
  match l with
  | [] => Ok []
  | (k, v) :: rest =>
      match json_unmarshal v with
      | (x, true) => (xs <-! decode_all f rest ;; Ok (f k x :: xs))%go
      | (_, false) => Err ErrJson
      end
  end.

Definition current : bytes := string_bytes "current".

Section values.
Context `{Json NetworkState, Json Block, Json (list ProvenanceEntry), Json AnchorProof, Json serializableTree}.

Definition SaveState (st : NetworkState) (d : db) := put_json bucketState current st d.

(** The state, whether one was found, and the error; a state that does not decode counts
    as found. *)
Definition LoadState (zero : NetworkState) (d : db) : NetworkState * bool * outcome gerror unit :=
  match db_get d bucketState current with
  | None => (zero, false, Ok tt)
  | Some data =>
      let '(st, ok) := json_unmarshal data in
      (st, true, if ok : bool then Ok tt else Err ErrJson)
  end.

Definition SaveBlock (block : Block) (d : db) := put_json bucketBlocks (itob (b_Index block)) block d.

Definition LoadBlocks (d : db) : outcome gerror (list Block) :=
  decode_all (fun _ b => b) (db_list d bucketBlocks).

Definition Bolt_GetBlock (index : Z) (d : db) : option Block * outcome gerror unit :=
  match db_get d bucketBlocks (itob index) with
  | None => (None, Ok tt)
  | Some data =>
      let '(b, ok) := json_unmarshal data in
      (Some b, if ok : bool then Ok tt else Err ErrJson)
  end.

(** The engine does not tell a nil queue from an empty one. *)
Definition SavePending (entries : list ProvenanceEntry) (d : db) := put_json bucketPending current entries d.

Definition LoadPending (d : db) : outcome gerror (list ProvenanceEntry) :=
  match db_get d bucketPending current with
  | None => Ok []
  | Some data => match json_unmarshal data with (l, true) => Ok l | _ => Err ErrJson end
  end.

Definition SaveAnchored (hash : bytes) (proof : AnchorProof) (d : db) := put_json bucketAnchored hash proof d.

Definition LoadAnchored (d : db) : outcome gerror (gmap bytes AnchorProof) := (
  l <-! decode_all (fun k p => (copy_array 32 k, p)) (db_list d bucketAnchored) ;;
  Ok (foldl (fun m kp => <[kp.1 := kp.2]> m) ∅ l))%go.

Definition SaveSMT (tree : SparseMerkleTree) (d : db) :=
  put_json bucketSMT (string_bytes "tree") (MarshalJSON tree) d.

Definition LoadSMT (d : db) : outcome gerror (option SparseMerkleTree) :=
  match db_get d bucketSMT (string_bytes "tree") with
  | None => Ok None
  | Some data =>
      match json_unmarshal data with
      | (st, true) => match UnmarshalJSON st with Some t => Ok (Some t) | None => Err ErrJson end
      | _ => Err ErrJson
      end
  end.

Definition SaveMeta (key : string) (value : bytes) (d : db) := put bucketMeta (string_bytes key) value d.

Definition LoadMeta (key : string) (d : db) : outcome gerror bytes :=
  match db_get d bucketMeta (string_bytes key) with
  | Some v => Ok v
  | None => Err ErrNotFound
  end.

(** ** The engine *)

Context `{Primitives, Cbor, Ristretto, Gonum, StateCbor}.

(** [persist], given the order in which the anchored map is ranged over. Errors are
    ignored. *)
Definition persist (anchored : list (bytes * AnchorProof)) (e : Engine) (d : db) : db :=
  let d1 := fst (SaveState (en_state e) d) in
  let d2 := fst (SavePending (en_pending e) d1) in
  let d3 := fst (SaveSMT (en_st e) d2) in
  let d4 := foldl (fun d hp => fst (SaveAnchored hp.1 hp.2 d)) d3 anchored in
  foldl (fun d b => fst (SaveBlock b d)) d4 (en_blocks e).

Definition or_else {A} (o : outcome gerror A) (old : A) : A := match o with Ok a => a | _ => old end.

(** [loadPersisted]. *)
Definition loadPersisted (zero : NetworkState) (d : db) (e : Engine) : Engine :=
  let e1 := match LoadState zero d with
            | (st, true, _) => with_state st e
            | _ => e
            end in
  let e2 := with_pending (or_else (LoadPending d) (en_pending e1)) (en_pendingEntries e1) e1 in
  let e3 := with_anchored (or_else (LoadAnchored d) (en_anchored e2)) e2 in
  let e4 := with_blocks (or_else (LoadBlocks d) (en_blocks e3)) e3 in
  match LoadSMT d with
  | Ok (Some t) => with_st t e4
  | _ => e4
  end.

(** [SetStorage] with a store. *)
Definition SetStorage (zero : NetworkState) (d : db) (e : Engine) : Engine := loadPersisted zero d e.

(** [Stop] of an engine that may have a store: the flag, and what is then persisted. The
    cancellation of the context, which the cycle loop sees, is modelled in EngineLoop. *)
Definition Stop_storage (anchored : list (bytes * AnchorProof)) (e : Engine) (storage : option db) :
    Engine * option db :=
  let e' := Stop e in
  (e', persist anchored e' <$> storage).
End values.

(** ** Sub-chains *)

Section subchains.
(** A manager has no exported fields, so what a decoder fills in of it is nothing. *)
Context {A : Type} `{Json A, Json unit}.

Definition SaveSubChain (id : bytes) (sc : A) (d : db) := put_json bucketSubChains id sc d.

Definition LoadSubChains (d : db) : outcome gerror (gmap bytes unit) := (
  l <-! decode_all (fun k (sc : unit) => (copy_array 32 k, sc)) (db_list d bucketSubChains) ;;
  Ok (foldl (fun m kp => <[kp.1 := kp.2]> m) ∅ l))%go.
End subchains.
End bolt.
