(* ===== verification/ToyStore.v ===== *)
(** * Concrete instances of the store and of encoding/json

    The database is a finite map listed in key order, and a value is encoded as the bits of
    its [Countable] code: the laws of [Bolt] and the round trips of [Json] hold, which makes
    the hypotheses of the persistence theorems checkable. *)
From Stdlib Require Import SpecFloat.
From stdpp Require Import countable.
From S2P Require Import Prelude Crypto Smt SmtJson Errors Chain ToyCbor Config State Engine Storage.

#[export] Instance validator_countable : Countable ValidatorInfo.
Proof.
  refine (inj_countable
    (fun x => [encode (v_ValidatorID x); encode (v_Dilithium3PK x); encode (v_VRFPK x); encode (v_ContractHash x)])
    (fun l => match l with
              | [p0; p1; p2; p3] => x0 ← decode p0; x1 ← decode p1; x2 ← decode p2; x3 ← decode p3; Some (MkValidatorInfo x0 x1 x2 x3)
              | _ => None
              end) _).
  intros []. cbn -[encode decode]. by rewrite !decode_encode.
Defined.

#[export] Instance block_countable : Countable Block.
Proof.
  refine (inj_countable
    (fun x => [encode (b_Index x); encode (b_PrevHash x); encode (b_StateRoot x); encode (b_Proposer x); encode (b_Anchored x); encode (b_Lambda1 x); encode (b_Timestamp x); encode (b_Validators x); encode (b_Quorum x); encode (b_BlockHash x); encode (b_ProtocolVersion x); encode (b_PrepareSigsBitmap x); encode (b_PrepareSigs x); encode (b_CommitSig x); encode (b_ExternalAnchors x); encode (b_KeyRotationEpoch x); encode (b_LegacyAnchor x); encode (b_Metadata x)])
    (fun l => match l with
              | [p0; p1; p2; p3; p4; p5; p6; p7; p8; p9; p10; p11; p12; p13; p14; p15; p16; p17] => x0 ← decode p0; x1 ← decode p1; x2 ← decode p2; x3 ← decode p3; x4 ← decode p4; x5 ← decode p5; x6 ← decode p6; x7 ← decode p7; x8 ← decode p8; x9 ← decode p9; x10 ← decode p10; x11 ← decode p11; x12 ← decode p12; x13 ← decode p13; x14 ← decode p14; x15 ← decode p15; x16 ← decode p16; x17 ← decode p17; Some (MkBlock x0 x1 x2 x3 x4 x5 x6 x7 x8 x9 x10 x11 x12 x13 x14 x15 x16 x17)
              | _ => None
              end) _).
  intros []. cbn -[encode decode]. by rewrite !decode_encode.
Defined.

#[export] Instance node_state_eq_dec : EqDecision NodeState.
Proof. solve_decision. Defined.

#[export] Instance node_state_countable : Countable NodeState.
Proof.
  refine (inj_countable
    (fun x => [encode (ns_UID x); encode (ns_Status x); encode (ns_Consecutive x); encode (ns_JoinCycle x); encode (ns_Dilithium3PK x); encode (ns_VRFPK x)])
    (fun l => match l with
              | [p0; p1; p2; p3; p4; p5] => x0 ← decode p0; x1 ← decode p1; x2 ← decode p2; x3 ← decode p3; x4 ← decode p4; x5 ← decode p5; Some (MkNodeState x0 x1 x2 x3 x4 x5)
              | _ => None
              end) _).
  intros []. cbn -[encode decode]. by rewrite !decode_encode.
Defined.

#[export] Instance edge_eq_dec : EqDecision Edge.
Proof. solve_decision. Defined.

#[export] Instance edge_countable : Countable Edge.
Proof.
  refine (inj_countable
    (fun x => [encode (ed_From x); encode (ed_To x); encode (ed_Weight x)])
    (fun l => match l with
              | [p0; p1; p2] => x0 ← decode p0; x1 ← decode p1; x2 ← decode p2; Some (MkEdge x0 x1 x2)
              | _ => None
              end) _).
  intros []. cbn -[encode decode]. by rewrite !decode_encode.
Defined.

#[export] Instance network_state_eq_dec : EqDecision NetworkState.
Proof. solve_decision. Defined.

#[export] Instance network_state_countable : Countable NetworkState.
Proof.
  refine (inj_countable
    (fun x => [encode (st_Cycle x); encode (st_Nodes x); encode (st_Graph x); encode (st_Lambda1 x); encode (st_SupervisionRoot x); encode (st_ActiveMandates x); encode (st_ValidatorSet x)])
    (fun l => match l with
              | [p0; p1; p2; p3; p4; p5; p6] => x0 ← decode p0; x1 ← decode p1; x2 ← decode p2; x3 ← decode p3; x4 ← decode p4; x5 ← decode p5; x6 ← decode p6; Some (MkNetworkState x0 x1 x2 x3 x4 x5 x6)
              | _ => None
              end) _).
  intros []. cbn -[encode decode]. by rewrite !decode_encode.
Defined.

#[export] Instance anchor_proof_eq_dec : EqDecision AnchorProof.
Proof. solve_decision. Defined.

#[export] Instance anchor_proof_countable : Countable AnchorProof.
Proof.
  refine (inj_countable
    (fun x => [encode (ap_Found x); encode (ap_BlockIndex x); encode (ap_BlockTime x); encode (ap_StateRoot x); encode (ap_SMTProof x); encode (ap_Submitter x); encode (ap_Label x)])
    (fun l => match l with
              | [p0; p1; p2; p3; p4; p5; p6] => x0 ← decode p0; x1 ← decode p1; x2 ← decode p2; x3 ← decode p3; x4 ← decode p4; x5 ← decode p5; x6 ← decode p6; Some (MkAnchorProof x0 x1 x2 x3 x4 x5 x6)
              | _ => None
              end) _).
  intros []. cbn -[encode decode]. by rewrite !decode_encode.
Defined.

#[export] Instance tree_node_countable : Countable node.
Proof.
  refine (inj_countable
    (fun x => [encode (n_left x); encode (n_right x); encode (n_hash x); encode (n_leaf x); encode (n_key x); encode (n_value x)])
    (fun l => match l with
              | [p0; p1; p2; p3; p4; p5] => x0 ← decode p0; x1 ← decode p1; x2 ← decode p2; x3 ← decode p3; x4 ← decode p4; x5 ← decode p5; Some (MkNode x0 x1 x2 x3 x4 x5)
              | _ => None
              end) _).
  intros []. cbn -[encode decode]. by rewrite !decode_encode.
Defined.

#[export] Instance serial_tree_eq_dec : EqDecision serializableTree.
Proof. solve_decision. Defined.

#[export] Instance serial_tree_countable : Countable serializableTree.
Proof.
  refine (inj_countable
    (fun x => [encode (s_root x); encode (s_depth x); encode (s_zeroes x); encode (s_store x)])
    (fun l => match l with
              | [p0; p1; p2; p3] => x0 ← decode p0; x1 ← decode p1; x2 ← decode p2; x3 ← decode p3; Some (MkSerTree x0 x1 x2 x3)
              | _ => None
              end) _).
  intros []. cbn -[encode decode]. by rewrite !decode_encode.
Defined.

(** A value that does not decode leaves the default behind. *)
Definition toy_json {A} `{Countable A} (zero : A) : Json A := {|
  json_marshal x := Some (toy_cbor x);
  json_unmarshal data := match toy_uncbor data with Some x => (x, true) | None => (zero, false) end;
|}.

Lemma toy_json_roundtrip {A} `{Countable A} (zero x : A) :
  @json_unmarshal A (toy_json zero) (toy_cbor x) = (x, true).
Proof. cbn. by rewrite toy_uncbor_cbor. Qed.

Definition zero_state : NetworkState := MkNetworkState 0 ∅ [] fzero [] [] [].

#[export] Instance json_state : Json NetworkState := toy_json zero_state.
#[export] Instance json_entries : Json (list ProvenanceEntry) := toy_json [].
#[export] Instance json_proof : Json AnchorProof := toy_json (MkAnchorProof false 0 0 [] [] [] "").
#[export] Instance json_tree : Json serializableTree := toy_json (MkSerTree [] 0 [] ∅).
#[export] Instance json_block : Json Block :=
  toy_json (MkBlock 0 [] [] [] None fzero 0 [] (MkQuorumConfig 0 0) [] 0 None None [] [] 0 [] ∅).

(** ** The database *)

Definition toy_list (d : gmap (string * bytes) bytes) (b : string) : list (bytes * bytes) :=
  sort_by fst (omap (fun '((b', k), v) => if decide (b' = b) then Some (k, v) else None) (map_to_list d)).

#[export] Instance ToyBolt : Bolt := {|
  db := gmap (string * bytes) bytes;
  db_get d b k := d !! (b, k);
  db_put b k v d := Some (<[(b, k) := v]> d);
  db_list := toy_list;
  db_create b d := Some d;
|}.

Lemma toy_list_elem d b k v : (k, v) ∈ toy_list d b ↔ d !! (b, k) = Some v.
Proof.
  unfold toy_list, sort_by. rewrite merge_sort_Permutation, list_elem_of_omap. split.
  - intros ([[b' k'] v'] & Hin & Hx). apply elem_of_map_to_list in Hin.
    case_decide as E; [|done]. injection Hx as -> ->. by subst.
  - intros Hd. exists ((b, k), v). split; [by apply elem_of_map_to_list|]. by rewrite decide_True.
Qed.

Lemma toy_list_NoDup d b : NoDup (toy_list d b).*1.
Proof.
  unfold toy_list, sort_by. rewrite merge_sort_Permutation.
  pose proof (NoDup_fst_map_to_list d) as Hnd. revert Hnd. generalize (map_to_list d). intros l.
  induction l as [|[[b' k] v] l IH]; intros Hnd; [constructor|]. cbn [fmap list_fmap fst] in Hnd.
  apply NoDup_cons in Hnd as [Hni Hnd]. cbn [omap list_omap]. case_decide as E; [|by apply IH].
  cbn [fmap list_fmap fst]. constructor; [|by apply IH]. subst b'. intros Hin. destruct Hni.
  apply list_elem_of_fmap in Hin as ([k' v'] & Ek & Hin). simpl in Ek. subst k'.
  apply list_elem_of_omap in Hin as ([[b2 k2] v2] & Hin & Hx). simpl in Hx. destruct (decide (b2 = b)) as [E2|E2]; [|discriminate Hx]. injection Hx as Ek Ev.
  subst. apply list_elem_of_fmap. eexists. split; [|exact Hin]. done.
Qed.

(** Sorted without repetitions is strictly sorted. *)
Lemma sorted_strict {A} (key : A → bytes) l :
  StronglySorted (key_le key) l → NoDup (key <$> l) →
  StronglySorted (fun x y => bytes_ltb x y = true) (key <$> l).
Proof.
  induction 1 as [|x l Hs IH Hx]; intros Hnd; [constructor|]. rewrite fmap_cons in *.
  apply NoDup_cons in Hnd as [Hni Hnd]. constructor; [by apply IH|].
  apply Forall_fmap, Forall_forall. intros y Hy. rewrite Forall_forall in Hx. specialize (Hx y Hy).
  unfold key_le, bytes_le in Hx. simpl. destruct (bytes_ltb (key x) (key y)) eqn:E; [done|].
  exfalso. apply Hni. rewrite (bytes_ltb_total _ _ E Hx). by apply list_elem_of_fmap_2.
Qed.

#[export] Instance toy_bolt_laws : BoltLaws.
Proof.
  split; cbn.
  - intros b k v d d' [= <-] b' k'. destruct (decide (b' = b ∧ k' = k)) as [[-> ->]|Hne].
    + by rewrite lookup_insert_eq.
    + rewrite lookup_insert_ne; [done|]. intros [= -> ->]. by apply Hne.
  - by intros b d d' [= <-] b' k'.
  - apply toy_list_elem.
  - intros d b. apply sorted_strict; [|apply toy_list_NoDup].
    apply StronglySorted_merge_sort; apply _.
Qed.
