(* ===== verification/ToyBlock.v ===== *)
(** * A concrete instance of the codec of blocks

    A block is encoded as the bits of its [Countable] code, as the other toy codecs do. *)
From stdpp Require Import countable.
From S2P Require Import Prelude Chain ToyCbor ToyStore BlockCodec.

#[export] Instance ToyBlockCbor : BlockCbor := {|
  cbor_block b := Some (toy_cbor b);
  uncbor_block := toy_uncbor;
|}.

#[export] Instance toy_block_cbor_laws : BlockCborLaws.
Proof. split; [by eexists|]. intros b c _ [= <-]. apply toy_uncbor_cbor. Qed.
