(* ===== verification/Genesis.v ===== *)
(** * Genesis blocks (pkg/protocol, cmd/genesis/main.go)

    The library builder of pkg/protocol, and the genesis command: specification, checks,
    import of a v1.0 snapshot, and the block it writes. The YAML and JSON decoders are
    parameters; a value decoded into [interface{}] is an [any_value], whose constructor is
    its dynamic type. *)
From Stdlib Require Import SpecFloat.
From S2P Require Import Prelude Crypto Sha256 Errors Chain BlockCodec.

(** ** pkg/protocol *)

Definition ProtocolVersion : Z := 2.
Definition ProtocolVersionLegacy : Z := 1.
Definition MinProtocolVersion : Z := 2.
Definition MaxProtocolVersion : Z := 2.

Record GenesisBlockConfig := MkGenesisCfg {
  gc_NetworkName : string;
  gc_CreatedAt : Z;
  gc_InitialValidators : list ValidatorInfo;
  gc_GenesisMandateHash : bytes;
}.

Section protocol.
Context `{Primitives, Cbor}.

Definition NetworkIDFromGenesis (genesisCBOR : bytes) : bytes := blake3 genesisCBOR.

(** [identity.EncodeUID]. *)
Definition EncodeUID (pubKey : bytes) : string := hex_encode pubKey.

Definition mandate_entry (cfg : GenesisBlockConfig) : ProvenanceEntry :=
  {| e_Hash := gc_GenesisMandateHash cfg; e_Submitter := zeros 16; e_Timestamp := gc_CreatedAt cfg;
     e_Label := "3cp:mandate:v1"; e_Approver := None; e_Reference := None; e_Signature := [];
     e_MandateRef := None |}.

(** Appending to a nil slice leaves it nil until something is appended. *)
Definition collect_sigs (validators : list ValidatorInfo) (validatorSigs : gmap string bytes) : slice bytes :=
  match omap (fun v => validatorSigs !! EncodeUID (v_Dilithium3PK v)) validators with
  | [] => None
  | sigs => Some sigs
  end.

(** The block without its hash. *)
Definition genesis_body (cfg : GenesisBlockConfig) (proposer : bytes) (sigs : slice bytes) (hash : bytes) : Block :=
  let n := Z.of_nat (length (gc_InitialValidators cfg)) in
  {| b_Index := 0; b_PrevHash := zeros 32; b_StateRoot := zeros 32; b_Proposer := proposer;
     b_Anchored := Some [mandate_entry cfg]; b_Lambda1 := S754_zero false; b_Timestamp := gc_CreatedAt cfg;
     b_Validators := gc_InitialValidators cfg; b_Quorum := {| TotalValidators := n; RequiredSigs := n |};
     b_BlockHash := hash; b_ProtocolVersion := 2; b_PrepareSigsBitmap := None; b_PrepareSigs := sigs;
     b_CommitSig := []; b_ExternalAnchors := []; b_KeyRotationEpoch := 0; b_LegacyAnchor := []; b_Metadata := ∅ |}.

(** [BuildGenesisBlock]; indexing an empty validator list panics. *)
Definition BuildGenesisBlock (cfg : GenesisBlockConfig) (validatorSigs : gmap string bytes) : outcome gerror Block :=
  match gc_InitialValidators cfg with
  | [] => Panic
  | v :: _ =>
      let sigs := collect_sigs (gc_InitialValidators cfg) validatorSigs in
      Ok (genesis_body cfg (v_ValidatorID v) sigs (ComputeBlockHash (genesis_body cfg (v_ValidatorID v) sigs [])))
  end.
End protocol.

(** ** The specification of the command *)

Inductive any_value :=
| AInt (z : Z)
| AUint (z : Z)
| AFloat (f : float64)
| AString (s : string)
| ABool (b : bool)
| AStrings (l : list string).

Record ValidatorSpec := MkValidatorSpec {
  vs_UID0PubKey : string;
  vs_VRFPubKey : string;
  vs_ContractHash : string;
}.

Record MandateRuleSpec := MkRuleSpec {
  gr_EventClass : string;
  gr_Fields : gmap string any_value;
}.

Record MandateSpec := MkMandateSpec {
  gm_Label : string;
  gm_Rules : list MandateRuleSpec;
}.

Record GenesisSpec := MkGenesisSpec {
  gn_NetworkName : string;
  gn_CreatedAt : Z;
  gn_Validators : list ValidatorSpec;
  gn_Mandate : MandateSpec;
  gn_LegacyAnchor : string;
}.

Record ConsensusConfig := MkConsensusConfig {
  cc_GraceCycles : Z;
  cc_MinValidators : Z;
  cc_BaseIntervalMs : Z;
  cc_MaxCycleDurationMs : Z;
  cc_LambdaInterval : Z;
  cc_MinLambda1 : float64;
  cc_KeyRotationLeadTime : Z;
  cc_MinKeyOverlap : Z;
  cc_MaxPendingTTL : Z;
  cc_BatchVerifyWorkers : Z;
}.

(** [v.(float64)]. *)
Definition float_field (rule : MandateRuleSpec) (name : string) : option float64 :=
  match gr_Fields rule !! name with
  | Some (AFloat f) => Some f
  | _ => None
  end.

(** [uint64(v)] and [int(v)]: truncation; out of range the language leaves the value open,
    and the model takes the bit pattern 1 followed by zeros. *)
Definition trunc_float (f : float64) : option Z :=
  match f with
  | S754_zero _ => Some 0%Z
  | S754_finite s m e =>
      let q := (if (0 <=? e)%Z then Z.pos m * 2 ^ e else Z.pos m / 2 ^ (- e))%Z in
      Some (if s then (- q)%Z else q)
  | _ => None
  end.

Definition float_to_u64 (f : float64) : Z :=
  match trunc_float f with
  | Some z => if ((0 <=? z) && (z <? 2 ^ 64))%Z then z else (2 ^ 63)%Z
  | None => (2 ^ 63)%Z
  end.

Definition float_to_int (f : float64) : Z :=
  match trunc_float f with
  | Some z => if ((- 2 ^ 63 <=? z) && (z <? 2 ^ 63))%Z then z else (- 2 ^ 63)%Z
  | None => (- 2 ^ 63)%Z
  end.

Definition consensus_class : string := "3cp:consensus-config".

(** The loop of [GetMinValidators]. *)
Fixpoint min_validators_loop (rules : list MandateRuleSpec) : Z :=
  match rules with
  | [] => 4
  | rule :: rules =>
      if String.eqb (gr_EventClass rule) consensus_class then
        match float_field rule "MinValidators" with
        | Some v => float_to_u64 v
        | None => min_validators_loop rules
        end
      else min_validators_loop rules
  end.

Definition GetMinValidators (m : MandateSpec) : Z := min_validators_loop (gm_Rules m).

(** [0.01]. *)
Definition f_0_01 : float64 := S754_finite false 5764607523034235 (-59).

Definition default_consensus : ConsensusConfig :=
  MkConsensusConfig 10 4 3000 10000 10 f_0_01 10 10 100 0.

(** One rule read into the configuration. *)
Definition read_rule (cfg : ConsensusConfig) (rule : MandateRuleSpec) : ConsensusConfig :=
  if String.eqb (gr_EventClass rule) consensus_class then
    let u name old := match float_field rule name with Some v => float_to_u64 v | None => old end in
    {| cc_GraceCycles := u "GraceCycles" (cc_GraceCycles cfg);
       cc_MinValidators := u "MinValidators" (cc_MinValidators cfg);
       cc_BaseIntervalMs := u "BaseIntervalMs" (cc_BaseIntervalMs cfg);
       cc_MaxCycleDurationMs := u "MaxCycleDurationMs" (cc_MaxCycleDurationMs cfg);
       cc_LambdaInterval := u "LambdaInterval" (cc_LambdaInterval cfg);
       cc_MinLambda1 := default (cc_MinLambda1 cfg) (float_field rule "MinLambda1");
       cc_KeyRotationLeadTime := u "KeyRotationLeadTime" (cc_KeyRotationLeadTime cfg);
       cc_MinKeyOverlap := u "MinKeyOverlap" (cc_MinKeyOverlap cfg);
       cc_MaxPendingTTL := u "MaxPendingTTL" (cc_MaxPendingTTL cfg);
       cc_BatchVerifyWorkers := match float_field rule "BatchVerifyWorkers" with
                                | Some v => float_to_int v | None => cc_BatchVerifyWorkers cfg end |}
  else cfg.

Definition ExtractConsensusConfig (s : GenesisSpec) : ConsensusConfig :=
  foldl read_rule default_consensus (gm_Rules (gn_Mandate s)).

Definition is_hex (s : string) : bool := bool_decide (is_Some (hex_decode s)).

(** The checks of one validator. *)
Definition check_validator (v : ValidatorSpec) : outcome gerror unit := (
  fail_if (String.eqb (vs_UID0PubKey v) "") (ErrText "validator %d: uid0_pubkey is required") ;;!
  fail_if (negb (is_hex (vs_UID0PubKey v))) (ErrText "validator %d: invalid uid0_pubkey: %w") ;;!
  fail_if (String.eqb (vs_VRFPubKey v) "") (ErrText "validator %d: vrf_pubkey is required") ;;!
  fail_if (negb (is_hex (vs_VRFPubKey v))) (ErrText "validator %d: invalid vrf_pubkey: %w"))%go.

Fixpoint check_validators (vs : list ValidatorSpec) : outcome gerror unit :=
  match vs with
  | [] => Ok tt
  | v :: vs => (check_validator v ;;! check_validators vs)%go
  end.

(** [GenesisSpec.Validate]. *)
Definition GenesisSpec_Validate (s : GenesisSpec) : outcome gerror unit := (
  fail_if (String.eqb (gn_NetworkName s) "") (ErrText "network_name is required") ;;!
  fail_if (gn_CreatedAt s <=? 0)%Z (ErrText "created_at must be > 0") ;;!
  fail_if (length (gn_Validators s) =? 0)%nat (ErrText "at least one validator is required") ;;!
  fail_if (Z.of_nat (length (gn_Validators s)) <? GetMinValidators (gn_Mandate s))%Z
    (ErrText "validator count (%d) < MinValidators (%d)") ;;!
  check_validators (gn_Validators s) ;;!
  fail_if (negb (String.eqb (gm_Label (gn_Mandate s)) "3cp:mandate:v1"))
    (ErrText "mandate label must be '3cp:mandate:v1'") ;;!
  fail_if (length (gm_Rules (gn_Mandate s)) =? 0)%nat (ErrText "mandate must have at least one rule"))%go.

(** ** The block of the command *)

Definition quorumRequired (n : nat) : nat := (2 * n + 2) / 3.

(** [computeBlockHash] of the command, over the fields it writes. *)
Definition cmd_preimage (b : Block) : bytes :=
  le_bytes 8 (b_Index b) ++ b_PrevHash b ++ b_StateRoot b ++ b_Proposer b ++
  concat (e_Hash <$> elems (b_Anchored b)) ++ le_bytes 8 (u64 (b_Timestamp b)).

Definition computeBlockHash (b : Block) : bytes := sha256 (cmd_preimage b).

Definition ErrHex : gerror := ErrText "invalid hex: %w".

Definition hexDecode (s : string) : outcome gerror bytes :=
  match hex_decode s with Some b => Ok b | None => Err ErrHex end.

Definition build_validator (v : ValidatorSpec) : outcome gerror ValidatorInfo := (
  pubKey <-! hexDecode (vs_UID0PubKey v) ;;
  vrfPubKey <-! hexDecode (vs_VRFPubKey v) ;;
  contractHash <-! (if String.eqb (vs_ContractHash v) "" then Ok [] else hexDecode (vs_ContractHash v)) ;;
  Ok {| v_ValidatorID := copy_array 16 (take 16 (copy_array 1952 pubKey));
        v_Dilithium3PK := copy_array 1952 pubKey; v_VRFPK := copy_array 32 vrfPubKey;
        v_ContractHash := copy_array 32 contractHash |})%go.

Fixpoint build_validators (vs : list ValidatorSpec) : outcome gerror (list ValidatorInfo) :=
  match vs with
  | [] => Ok []
  | v :: vs => (x <-! build_validator v ;; xs <-! build_validators vs ;; Ok (x :: xs))%go
  end.

Definition legacy_anchor (s : GenesisSpec) : outcome gerror bytes :=
  if String.eqb (gn_LegacyAnchor s) "" then Ok []
  else (b <-! hexDecode (gn_LegacyAnchor s) ;;
        fail_if (negb (length b =? 32)%nat) (ErrText "invalid legacy anchor: got %d bytes, want 32") ;;!
        Ok b)%go.

Definition cmd_body (s : GenesisSpec) (validators : list ValidatorInfo) (proposer legacy hash : bytes) : Block :=
  {| b_Index := 0; b_PrevHash := zeros 32; b_StateRoot := zeros 32; b_Proposer := proposer;
     b_Anchored := Some []; b_Lambda1 := S754_zero false; b_Timestamp := i64 (gn_CreatedAt s * 1000000000);
     b_Validators := validators;
     b_Quorum := {| TotalValidators := Z.of_nat (length (gn_Validators s));
                    RequiredSigs := Z.of_nat (quorumRequired (length (gn_Validators s))) |};
     b_BlockHash := hash; b_ProtocolVersion := 2; b_PrepareSigsBitmap := None; b_PrepareSigs := Some [];
     b_CommitSig := []; b_ExternalAnchors := []; b_KeyRotationEpoch := 0; b_LegacyAnchor := legacy;
     b_Metadata := ∅ |}.

(** [BuildGenesisBlock] of the command. [capacity] is that of the slice which decoding a
    string allocates: [pk[:16]] panics beyond it. The configuration is not used. *)
Definition cmd_BuildGenesisBlock (capacity : string → nat) (s : GenesisSpec) (cfg : ConsensusConfig) :
    outcome gerror Block := (
  (match gn_Validators s with
   | [] => Ok tt
   | v :: _ => _ <-! hexDecode (vs_UID0PubKey v) ;;
               if (capacity (vs_UID0PubKey v) <? 16)%nat then Panic else Ok tt
   end) ;;!
  validators <-! build_validators (gn_Validators s) ;;
  match validators with
  | [] => Panic
  | v0 :: _ =>
      let proposer := copy_array 16 (take 16 (v_Dilithium3PK v0)) in
      legacy <-! legacy_anchor s ;;
      Ok (cmd_body s validators proposer legacy (computeBlockHash (cmd_body s validators proposer legacy [])))
  end)%go.

(** ** Import of a v1.0 snapshot *)

Record V1Rule := MkV1Rule {
  r1_EventClass : string;
  r1_SeverityMin : float64;
  r1_SeverityMax : float64;
  r1_AssetCriticalityMin : Z;
  r1_RegulatoryScope : list string;
  r1_Mandatory : bool;
  r1_RequiredFields : list string;
  r1_MaxDeferralSec : Z;
}.

(** The fields of a snapshot that the import reads. *)
Record V1Snapshot := MkV1Snapshot {
  s1_LastBlockHash : string;
  s1_ValidatorSet : list ValidatorSpec;
  s1_ActiveMandates : list (list V1Rule);
}.

Definition default_rules : list MandateRuleSpec :=
  [ {| gr_EventClass := consensus_class;
       gr_Fields := list_to_map [("GraceCycles", AInt 10); ("MinValidators", AInt 4); ("BaseIntervalMs", AInt 3000);
         ("MaxCycleDurationMs", AInt 10000); ("LambdaInterval", AInt 10); ("MinLambda1", AFloat f_0_01);
         ("KeyRotationLeadTime", AInt 10); ("MinKeyOverlap", AInt 10); ("MaxPendingTTL", AInt 100);
         ("BatchVerifyWorkers", AInt 0)] |};
    {| gr_EventClass := "3cp:anchor-config";
       gr_Fields := list_to_map [("Mode", AString "designated"); ("MinRedundancy", AInt 2);
         ("AllowedSchemes", AStrings ["ipfs"; "file"])] |};
    {| gr_EventClass := "3cp:protocol-version";
       gr_Fields := list_to_map [("MinProtocolVersion", AInt 2); ("MaxProtocolVersion", AInt 2)] |} ].

Definition convert_rule (r : V1Rule) : option MandateRuleSpec :=
  if String.eqb (r1_EventClass r) "release_gate" || String.eqb (r1_EventClass r) "exception_grant" then
    Some {| gr_EventClass := r1_EventClass r;
            gr_Fields := list_to_map [("SeverityMin", AFloat (r1_SeverityMin r));
              ("SeverityMax", AFloat (r1_SeverityMax r)); ("AssetCriticalityMin", AUint (r1_AssetCriticalityMin r));
              ("RegulatoryScope", AStrings (r1_RegulatoryScope r)); ("Mandatory", ABool (r1_Mandatory r));
              ("RequiredFields", AStrings (r1_RequiredFields r)); ("MaxDeferralSec", AUint (r1_MaxDeferralSec r))] |}
  else None.

Definition convertMandates (v1Mandates : list (list V1Rule)) : MandateSpec :=
  {| gm_Label := "3cp:mandate:v1"; gm_Rules := default_rules ++ omap convert_rule (concat v1Mandates) |}.

(** [importV1Snapshot] after reading and decoding the file. *)
Definition import_spec (now : Z) (snapshot : V1Snapshot) : GenesisSpec :=
  {| gn_NetworkName := "3cp-migrated-v2"; gn_CreatedAt := now; gn_Validators := s1_ValidatorSet snapshot;
     gn_Mandate := convertMandates (s1_ActiveMandates snapshot); gn_LegacyAnchor := s1_LastBlockHash snapshot |}.

(** ** The command *)

Class GenesisFiles := {
  yaml_spec : bytes → option GenesisSpec;
  json_snapshot : bytes → option V1Snapshot;
}.

Record genesis_flags := MkFlags {
  fl_spec : string;
  fl_importSnapshot : string;
  fl_networkName : string;
  fl_createdAt : Z;
}.

Section command.
Context `{Primitives, BlockCbor, GenesisFiles} (capacity : string → nat).

Definition loadSpec (read : string → option bytes) (path : string) : outcome gerror GenesisSpec :=
  match read path with
  | None => Err (ErrText "failed to read spec file: %w")
  | Some data => match yaml_spec data with
                 | None => Err (ErrText "failed to parse genesis spec: %w")
                 | Some spec => Ok spec
                 end
  end.

Definition importV1Snapshot (read : string → option bytes) (now : Z) (path : string) : outcome gerror GenesisSpec :=
  match read path with
  | None => Err (ErrText "failed to read snapshot: %w")
  | Some data => match json_snapshot data with
                 | None => Err (ErrText "failed to parse snapshot JSON: %w")
                 | Some snapshot => Ok (import_spec now snapshot)
                 end
  end.

Definition override (fl : genesis_flags) (s : GenesisSpec) : GenesisSpec :=
  {| gn_NetworkName := if String.eqb (fl_networkName fl) "" then gn_NetworkName s else fl_networkName fl;
     gn_CreatedAt := if (fl_createdAt fl =? 0)%Z then gn_CreatedAt s else fl_createdAt fl;
     gn_Validators := gn_Validators s; gn_Mandate := gn_Mandate s; gn_LegacyAnchor := gn_LegacyAnchor s |}.

(** [main]: what is written to the output file, and the network identifier it prints;
    [write] says whether the file can be written. *)
Definition genesis_main (read : string → option bytes) (write : bool) (now : Z) (fl : genesis_flags) :
    outcome gerror (bytes * bytes) := (
  fail_if (String.eqb (fl_spec fl) "" && String.eqb (fl_importSnapshot fl) "")
    (ErrText "Error: either --spec or --import-snapshot is required") ;;!
  s <-! (if String.eqb (fl_importSnapshot fl) "" then loadSpec read (fl_spec fl)
         else importV1Snapshot read now (fl_importSnapshot fl)) ;;
  let s := override fl s in
  GenesisSpec_Validate s ;;!
  block <-! cmd_BuildGenesisBlock capacity s (ExtractConsensusConfig s) ;;
  data <-! MarshalCBOR block ;;
  fail_if (negb write) (ErrText "Failed to write output: %v") ;;!
  Ok (data, NetworkIDFromGenesis data))%go.
End command.
