(* ===== verification/GenesisTheorems.v ===== *)
(** * Theorems about genesis blocks

    What the genesis command accepts and what it writes; the hash it stores; and the
    configuration it reads from a mandate. *)
From Stdlib Require Import SpecFloat.
From S2P Require Import Prelude Crypto Sha256 Errors Chain BlockCodec Genesis.
From S2P Require Import Quorum LightClient LightTheorems Toy ToyCbor ToyBlock.

(** ** Validation *)

Definition hex_text (t : string) : Prop := t ≠ "" ∧ is_Some (hex_decode t).

(** The contract of [GenesisSpec.Validate]. *)
Record valid_spec (s : GenesisSpec) : Prop := {
  vs_name : gn_NetworkName s ≠ "";
  vs_created : (0 < gn_CreatedAt s)%Z;
  vs_nonempty : gn_Validators s ≠ [];
  vs_enough : (GetMinValidators (gn_Mandate s) ≤ Z.of_nat (length (gn_Validators s)))%Z;
  vs_keys : Forall (fun v => hex_text (vs_UID0PubKey v) ∧ hex_text (vs_VRFPubKey v)) (gn_Validators s);
  vs_label : gm_Label (gn_Mandate s) = "3cp:mandate:v1";
  vs_rules : gm_Rules (gn_Mandate s) ≠ [];
}.

Lemma is_hex_true t : is_hex t = true ↔ is_Some (hex_decode t).
Proof. apply bool_decide_eq_true. Qed.

Lemma check_validator_Ok v :
  check_validator v = Ok tt ↔ hex_text (vs_UID0PubKey v) ∧ hex_text (vs_VRFPubKey v).
Proof.
  unfold check_validator, hex_text.
  rewrite !fail_if_pass, fail_if_Ok, !negb_false_iff, !is_hex_true, !String.eqb_neq. tauto.
Qed.

Lemma check_validators_Ok l :
  check_validators l = Ok tt ↔ Forall (fun v => hex_text (vs_UID0PubKey v) ∧ hex_text (vs_VRFPubKey v)) l.
Proof.
  induction l as [|v l IH]; cbn [check_validators]; [done|].
  rewrite bind_Ok, Forall_cons, <- check_validator_Ok, <- IH. split; [by intros ([] & ? & ?)|].
  intros [? ?]. by exists tt.
Qed.

Lemma length_eqb_0 {A} (l : list A) : (length l =? 0)%nat = false ↔ l ≠ [].
Proof. by destruct l. Qed.

Lemma Validate_spec s : GenesisSpec_Validate s = Ok tt ↔ valid_spec s.
Proof.
  unfold GenesisSpec_Validate.
  rewrite !fail_if_pass, bind_Ok, String.eqb_neq, Z.leb_gt, Z.ltb_ge, length_eqb_0. split.
  - intros (? & ? & ? & ? & [] & Hv%check_validators_Ok & Hr). rewrite fail_if_pass, fail_if_Ok in Hr.
    destruct Hr as [Hl%negb_false_iff%String.eqb_eq Hr%length_eqb_0]. by split.
  - intros [? ? ? ? ? Hl Hr]. split_and!; [done..|]. exists tt. split; [by apply check_validators_Ok|].
    rewrite fail_if_pass, fail_if_Ok, Hl. split; [done|by apply length_eqb_0].
Qed.

(** ** The block *)

(** The bytes that a hexadecimal field stands for; an empty field has none. *)
Definition hex_bytes (t : string) : bytes := default [] (hex_decode t).

(** The validator that a specification stands for: its identity is the first 16 bytes of
    its public key. *)
Definition validator_of (v : ValidatorSpec) : ValidatorInfo :=
  let pk := copy_array 1952 (hex_bytes (vs_UID0PubKey v)) in
  {| v_ValidatorID := take 16 pk; v_Dilithium3PK := pk;
     v_VRFPK := copy_array 32 (hex_bytes (vs_VRFPubKey v));
     v_ContractHash := copy_array 32 (hex_bytes (vs_ContractHash v)) |}.

(** What building needs beyond [valid_spec]. *)
Record buildable (capacity : string → nat) (s : GenesisSpec) : Prop := {
  bu_first : ∀ v, head (gn_Validators s) = Some v → 16 ≤ capacity (vs_UID0PubKey v);
  bu_contracts : Forall (fun v => is_Some (hex_decode (vs_ContractHash v))) (gn_Validators s);
  bu_legacy : gn_LegacyAnchor s = "" ∨ ∃ l, hex_decode (gn_LegacyAnchor s) = Some l ∧ length l = 32;
}.

(** The block that a specification stands for. *)
Record genesis_block (s : GenesisSpec) (b : Block) : Prop := {
  gb_index : b_Index b = 0%Z;
  gb_prev : b_PrevHash b = zeros 32;
  gb_root : b_StateRoot b = zeros 32;
  gb_validators : b_Validators b = validator_of <$> gn_Validators s;
  gb_proposer : Some (b_Proposer b) = v_ValidatorID <$> head (b_Validators b);
  gb_entries : elems (b_Anchored b) = [];
  gb_total : TotalValidators (b_Quorum b) = Z.of_nat (length (gn_Validators s));
  gb_quorum : (2 * TotalValidators (b_Quorum b) ≤ 3 * RequiredSigs (b_Quorum b) <
               2 * TotalValidators (b_Quorum b) + 3)%Z;
  gb_time : (gn_CreatedAt s * 1000000000 < 2 ^ 63)%Z → b_Timestamp b = (gn_CreatedAt s * 1000000000)%Z;
  gb_version : b_ProtocolVersion b = ProtocolVersion;
  gb_legacy : b_LegacyAnchor b = hex_bytes (gn_LegacyAnchor s);
  gb_unsigned : elems (b_PrepareSigsBitmap b) = [] ∧ elems (b_PrepareSigs b) = [] ∧ b_CommitSig b = [];
  gb_hash : b_BlockHash b = computeBlockHash b;
}.

Lemma hexDecode_Ok t b : hexDecode t = Ok b ↔ hex_decode t = Some b.
Proof. unfold hexDecode. destruct (hex_decode t); naive_solver. Qed.

(** An empty optional field decodes like the empty string. *)
Lemma optional_hex t : (if String.eqb t "" then Ok [] else hexDecode t) = hexDecode t.
Proof. by destruct (String.eqb_spec t "") as [->|]. Qed.

Lemma take_copy_array n m src : n ≤ m → copy_array n (take n (copy_array m src)) = take n (copy_array m src).
Proof. intros Hle. apply copy_array_id. rewrite length_take, length_copy_array. lia. Qed.

Lemma proposer_id v : copy_array 16 (take 16 (v_Dilithium3PK (validator_of v))) = v_ValidatorID (validator_of v).
Proof. apply take_copy_array. lia. Qed.

Lemma build_validator_Ok v x : build_validator v = Ok x ↔
  is_Some (hex_decode (vs_UID0PubKey v)) ∧ is_Some (hex_decode (vs_VRFPubKey v)) ∧
  is_Some (hex_decode (vs_ContractHash v)) ∧ x = validator_of v.
Proof.
  unfold build_validator, validator_of, hex_bytes, hexDecode. rewrite optional_hex. unfold hexDecode.
  assert (Hid : ∀ k, copy_array 16 (take 16 (copy_array 1952 k)) = take 16 (copy_array 1952 k))
    by (intros k; apply take_copy_array; lia).
  destruct (hex_decode (vs_UID0PubKey v)) as [k|]; cbn [outcome_bind default];
    [|split; [done|by intros ([? ?] & _)]].
  destruct (hex_decode (vs_VRFPubKey v)) as [r|]; cbn [outcome_bind default];
    [|split; [done|by intros (_ & [? ?] & _)]].
  destruct (hex_decode (vs_ContractHash v)) as [c|]; cbn [outcome_bind default];
    [|split; [done|by intros (_ & _ & [? ?] & _)]].
  rewrite Hid. split; [by intros [= <-]|]. by intros (_ & _ & _ & ->).
Qed.

Lemma build_validators_Ok l xs : build_validators l = Ok xs ↔
  Forall (fun v => is_Some (hex_decode (vs_UID0PubKey v)) ∧ is_Some (hex_decode (vs_VRFPubKey v)) ∧
                   is_Some (hex_decode (vs_ContractHash v))) l ∧ xs = validator_of <$> l.
Proof.
  revert xs. induction l as [|v l IH]; intros xs; cbn [build_validators].
  - split; [by intros [= <-]|by intros [_ ->]].
  - rewrite bind_Ok, Forall_cons. split.
    + intros (x & (? & ? & ? & ->)%build_validator_Ok & (ys & [? ->]%IH & [= <-])%bind_Ok). naive_solver.
    + intros [[(? & ? & ?) ?] ->]. exists (validator_of v). split; [by apply build_validator_Ok|].
      apply bind_Ok. exists (validator_of <$> l). by split; [apply IH|].
Qed.

Lemma legacy_anchor_Ok s l : legacy_anchor s = Ok l ↔
  (gn_LegacyAnchor s = "" ∨ ∃ l, hex_decode (gn_LegacyAnchor s) = Some l ∧ length l = 32) ∧
  l = hex_bytes (gn_LegacyAnchor s).
Proof.
  unfold legacy_anchor, hex_bytes. destruct (String.eqb_spec (gn_LegacyAnchor s) "") as [->|Hne].
  - split; [intros [= <-]; auto|by intros [_ ->]].
  - unfold hexDecode. destruct (hex_decode (gn_LegacyAnchor s)) as [b|]; cbn [outcome_bind default].
    + rewrite fail_if_pass, negb_false_iff, Nat.eqb_eq. split.
      * intros [Hl [= <-]]. eauto.
      * intros [[?|(? & [= <-] & ?)] ->]; done.
    + split; [done|]. by intros [[?|(? & ? & ?)] _].
Qed.

(** The block that the command builds. *)
Definition genesis_of (s : GenesisSpec) : Block :=
  let vs := validator_of <$> gn_Validators s in
  let proposer := default [] (v_ValidatorID <$> head vs) in
  cmd_body s vs proposer (hex_bytes (gn_LegacyAnchor s))
    (computeBlockHash (cmd_body s vs proposer (hex_bytes (gn_LegacyAnchor s)) [])).

Lemma cmd_BuildGenesisBlock_Ok capacity s cfg b : valid_spec s →
  cmd_BuildGenesisBlock capacity s cfg = Ok b ↔ buildable capacity s ∧ b = genesis_of s.
Proof.
  intros Hv. pose proof (vs_keys _ Hv) as Hkeys. pose proof (vs_nonempty _ Hv) as Hne.
  unfold cmd_BuildGenesisBlock, genesis_of.
  destruct (gn_Validators s) as [|v vs] eqn:El; [done|]. rewrite Forall_cons in Hkeys.
  destruct Hkeys as [[[_ [pk Hpk]] _] _]. unfold hexDecode. rewrite Hpk. cbn [outcome_bind].
  destruct (Nat.ltb_spec (capacity (vs_UID0PubKey v)) 16) as [Hlt|Hge]; cbn [outcome_bind].
  { split; [done|]. intros [[Hf _ _] _]. specialize (Hf v). rewrite El in Hf. specialize (Hf eq_refl). lia. }
  rewrite bind_Ok. split.
  - intros (xs & [Hall ->]%build_validators_Ok & Hr). cbn [fmap list_fmap] in Hr.
    apply bind_Ok in Hr as (l & [Hleg ->]%legacy_anchor_Ok & [= <-]). split.
    + split; [|by eapply Forall_impl; [rewrite El; exact Hall|naive_solver]|done].
      rewrite El. by intros ? [= <-].
    + by rewrite take_copy_array by lia.
  - intros [[_ Hc Hleg] ->]. exists (validator_of <$> v :: vs). split.
    + apply build_validators_Ok. split; [|done]. pose proof (vs_keys _ Hv) as Hk. rewrite El in Hk, Hc.
      apply Forall_forall. intros w Hw. rewrite Forall_forall in Hk, Hc.
      destruct (Hk w Hw) as [[_ ?] [_ ?]]. auto.
    + cbn [fmap list_fmap]. apply bind_Ok. exists (hex_bytes (gn_LegacyAnchor s)).
      split; [by apply legacy_anchor_Ok|]. by rewrite proposer_id.
Qed.

Lemma quorumRequired_spec n : 2 * n ≤ 3 * quorumRequired n < 2 * n + 3.
Proof.
  unfold quorumRequired. pose proof (Nat.div_mod (2 * n + 2) 3). pose proof (Nat.mod_upper_bound (2 * n + 2) 3). lia.
Qed.

Lemma genesis_of_block s : valid_spec s → genesis_block s (genesis_of s).
Proof.
  intros Hv. pose proof (quorumRequired_spec (length (gn_Validators s))) as Hq.
  pose proof (vs_nonempty _ Hv) as Hne. pose proof (vs_created _ Hv) as Hc.
  split; try reflexivity; cbn -[hex_bytes Z.mul Z.pow quorumRequired].
  - by destruct (gn_Validators s).
  - lia.
  - intros Hlt. unfold i64. rewrite Z.mod_small; lia.
  - done.
Qed.

(** ** The command *)

Section command.
Context `{Primitives, BlockCbor, !BlockCborLaws, GenesisFiles} (capacity : string → nat).

(** The specification that the flags name: the snapshot wins over the specification file. *)
Definition loaded (read : string → option bytes) (now : Z) (fl : genesis_flags) : option GenesisSpec :=
  if String.eqb (fl_importSnapshot fl) "" then
    if String.eqb (fl_spec fl) "" then None else data ← read (fl_spec fl); yaml_spec data
  else data ← read (fl_importSnapshot fl); import_spec now <$> json_snapshot data.

Lemma loadSpec_Ok read path s : loadSpec read path = Ok s ↔ (data ← read path; yaml_spec data) = Some s.
Proof.
  unfold loadSpec. destruct (read path) as [data|]; cbn; [destruct (yaml_spec data)|]; split; congruence.
Qed.

Lemma importV1Snapshot_Ok read now path s :
  importV1Snapshot read now path = Ok s ↔ (data ← read path; import_spec now <$> json_snapshot data) = Some s.
Proof.
  unfold importV1Snapshot. destruct (read path) as [data|]; cbn -[import_spec];
    [destruct (json_snapshot data)|]; cbn -[import_spec]; split; congruence.
Qed.

Lemma genesis_main_Ok read write now fl data id :
  genesis_main capacity read write now fl = Ok (data, id) ↔
  ∃ s, loaded read now fl = Some s ∧ GenesisSpec_Validate (override fl s) = Ok tt ∧
    ∃ b, cmd_BuildGenesisBlock capacity (override fl s) (ExtractConsensusConfig (override fl s)) = Ok b ∧
      MarshalCBOR b = Ok data ∧ write = true ∧ id = blake3 data.
Proof.
  unfold genesis_main, loaded. rewrite fail_if_pass, bind_Ok.
  assert (Hk : ∀ s, (GenesisSpec_Validate (override fl s) ;;!
      block <-! cmd_BuildGenesisBlock capacity (override fl s) (ExtractConsensusConfig (override fl s)) ;;
      data <-! MarshalCBOR block ;;
      fail_if (negb write) (ErrText "Failed to write output: %v") ;;!
      Ok (data, NetworkIDFromGenesis data))%go = Ok (data, id) ↔
    GenesisSpec_Validate (override fl s) = Ok tt ∧
    ∃ b, cmd_BuildGenesisBlock capacity (override fl s) (ExtractConsensusConfig (override fl s)) = Ok b ∧
      MarshalCBOR b = Ok data ∧ write = true ∧ id = blake3 data).
  { intros s. rewrite bind_Ok. split.
    - intros ([] & Hv & (b & Hb & (d & Hd & Hr)%bind_Ok)%bind_Ok). rewrite fail_if_pass, negb_false_iff in Hr.
      destruct Hr as [-> [= -> <-]]. eauto 10.
    - intros (Hv & b & Hb & Hd & -> & ->). exists tt. split; [done|]. apply bind_Ok. exists b. split; [done|].
      apply bind_Ok. by exists data. }
  setoid_rewrite Hk.
  destruct (String.eqb (fl_importSnapshot fl) ""), (String.eqb (fl_spec fl) ""); cbn [andb];
    setoid_rewrite loadSpec_Ok || setoid_rewrite importV1Snapshot_Ok; naive_solver.
Qed.

Lemma genesis_of_utf8 s : block_utf8 (genesis_of s) = true.
Proof. unfold block_utf8, block_texts. cbn [genesis_of cmd_body b_Metadata]. by rewrite map_to_list_empty. Qed.

(** C31: the genesis command succeeds exactly when the file named by its flags decodes to a
    specification which, with the overrides, satisfies the validation contract and is
    buildable, and the output can be written. It then writes an encoding that decodes back to
    the block of that specification: the validators in order, the first as proposer, the
    least quorum of two thirds, the creation time in nanoseconds, the legacy anchor, no
    signature; and the network identifier is the digest of what it wrote. *)
Theorem genesis_command_spec read write now fl data id :
  genesis_main capacity read write now fl = Ok (data, id) ↔
  write = true ∧ id = NetworkIDFromGenesis data ∧
  ∃ s b, loaded read now fl = Some s ∧ valid_spec (override fl s) ∧ buildable capacity (override fl s) ∧
    b = genesis_of (override fl s) ∧ genesis_block (override fl s) b ∧
    MarshalCBOR b = Ok data ∧ UnmarshalCBOR data = Ok b.
Proof.
  rewrite genesis_main_Ok. split.
  - intros (s & Hl & Hv%Validate_spec & b & [Hbu ->]%cmd_BuildGenesisBlock_Ok & Hd & Hw & Hid); [|done].
    split_and!; [done..|]. exists s, (genesis_of (override fl s)).
    split_and!; [done..|by apply genesis_of_block|done|].
    by apply UnmarshalCBOR_Marshal; [apply genesis_of_utf8|].
  - intros (Hw & Hid & s & b & Hl & Hv & Hbu & -> & _ & Hd & _). exists s. split; [done|].
    split; [by apply Validate_spec|]. exists (genesis_of (override fl s)).
    split_and!; [by apply cmd_BuildGenesisBlock_Ok|done..].
Qed.

(** What the output depends on: the validators, the creation time and the legacy anchor,
    and neither the mandate nor the network name. *)
Lemma genesis_of_ext s1 s2 :
  gn_Validators s1 = gn_Validators s2 → gn_CreatedAt s1 = gn_CreatedAt s2 →
  gn_LegacyAnchor s1 = gn_LegacyAnchor s2 → genesis_of s1 = genesis_of s2.
Proof. intros Hv Hc Hl. unfold genesis_of, cmd_body. by rewrite Hv, Hc, Hl. Qed.

Lemma genesis_ignores_mandate read write now fl1 fl2 s1 s2 out1 out2 :
  loaded read now fl1 = Some s1 → loaded read now fl2 = Some s2 →
  gn_Validators s1 = gn_Validators s2 → gn_LegacyAnchor s1 = gn_LegacyAnchor s2 →
  gn_CreatedAt (override fl1 s1) = gn_CreatedAt (override fl2 s2) →
  genesis_main capacity read write now fl1 = Ok out1 → genesis_main capacity read write now fl2 = Ok out2 →
  out1 = out2.
Proof.
  intros Hl1 Hl2 Hv Ha Hc. destruct out1 as [d1 i1], out2 as [d2 i2]. rewrite !genesis_main_Ok.
  intros (s1' & Hs1 & Hv1%Validate_spec & b1 & [_ ->]%cmd_BuildGenesisBlock_Ok & Hd1 & _ & ->); [|done].
  intros (s2' & Hs2 & Hv2%Validate_spec & b2 & [_ ->]%cmd_BuildGenesisBlock_Ok & Hd2 & _ & ->); [|done].
  simplify_eq. rewrite (genesis_of_ext (override fl1 s1) (override fl2 s2)) in Hd1 by done. rewrite Hd1 in Hd2. by injection Hd2 as ->.
Qed.
End command.

(** ** Hashes and acceptance *)

Section hashes.
Context `{Primitives, Cbor, !Blake3Length}.

Lemma length_cmd_preimage s : valid_spec s → length (cmd_preimage (genesis_of s)) = 96.
Proof.
  intros Hv. pose proof (vs_nonempty _ Hv) as Hne. unfold cmd_preimage.
  cbn [genesis_of cmd_body b_Index b_PrevHash b_StateRoot b_Proposer b_Anchored b_Timestamp elems default fmap list_fmap concat].
  destruct (gn_Validators s) as [|v vs]; [done|]. cbn [head hd_error fmap list_fmap option_fmap option_map from_option default id].
  cbn [validator_of v_ValidatorID]. len_simpl. unfold default. cbn [from_option id]. len_simpl. lia.
Qed.

Lemma length_block_preimage s : valid_spec s → 128 ≤ length (block_preimage (genesis_of s)).
Proof.
  intros Hv. pose proof (length_cmd_preimage s Hv) as Hc. unfold cmd_preimage, block_preimage in *.
  rewrite !length_app in *. rewrite length_blake3.
  assert (He : concat (e_Hash <$> elems (b_Anchored (genesis_of s))) = []) by reflexivity.
  rewrite He in Hc. cbn [length] in Hc. lia.
Qed.

(** The hash in the block of the command is not the hash of the chain: barring a SHA-256
    collision between the two preimages, whose lengths differ. *)
Lemma genesis_hash_diverges s : valid_spec s →
  no_collision sha256 (cmd_preimage (genesis_of s)) (block_preimage (genesis_of s)) →
  Block_VerifyHash (genesis_of s) = false.
Proof.
  intros Hv Hnc. apply bool_decide_eq_false. intros Heq.
  assert (Hp : cmd_preimage (genesis_of s) = block_preimage (genesis_of s)) by (apply Hnc; exact Heq).
  pose proof (length_cmd_preimage s Hv). pose proof (length_block_preimage s Hv). rewrite Hp in *. lia.
Qed.

Lemma BuildGenesisBlock_total cfg sigs :
  BuildGenesisBlock cfg sigs = Panic ↔ gc_InitialValidators cfg = [].
Proof. unfold BuildGenesisBlock. by destruct (gc_InitialValidators cfg). Qed.

Lemma BuildGenesisBlock_hash cfg sigs b : BuildGenesisBlock cfg sigs = Ok b → Block_VerifyHash b = true.
Proof.
  unfold BuildGenesisBlock. destruct (gc_InitialValidators cfg) eqn:E; [done|]. intros [= <-].
  apply bool_decide_eq_true. reflexivity.
Qed.

(** A block without a signer bitmap meets no quorum. *)
Lemma no_bitmap_rejected b anchor : elems (b_PrepareSigsBitmap b) = [] → VerifyBlock (Some b) anchor ≠ Ok tt.
Proof.
  intros Hb Hacc%VerifyBlock_accepted. pose proof (acc_quorum _ _ Hacc) as Hq.
  pose proof (acc_trusted _ _ Hacc) as Ht. rewrite Hb in Hq. cbn in Hq.
  destruct (ta_Validators anchor) as [|v vs]; [done|]. revert Hq. unfold requiredQuorum, normalQuorum.
  destruct (_ <? _)%nat; [lia|]. cbn [length Nat.eqb].
  assert (0 < (2 * S (length vs) + 2) / 3) by (apply Nat.div_str_pos; lia). lia.
Qed.

(** Neither genesis builder produces a block that light-client verification accepts,
    under any anchor. The library's block carries signatures without a signer bitmap, though
    its hash is the chain's; the command's block is unsigned and its hash is not the chain's
    (unless SHA-256 collides on the two preimages). *)
Theorem genesis_not_followed :
  (∀ cfg sigs b, BuildGenesisBlock cfg sigs = Ok b →
     Block_VerifyHash b = true ∧ ∀ anchor, VerifyBlock (Some b) anchor ≠ Ok tt) ∧
  (∀ s, valid_spec s →
     no_collision sha256 (cmd_preimage (genesis_of s)) (block_preimage (genesis_of s)) →
     Block_VerifyHash (genesis_of s) = false ∧ ∀ anchor, VerifyBlock (Some (genesis_of s)) anchor ≠ Ok tt).
Proof.
  split.
  - intros cfg sigs b Hb. split; [by eapply BuildGenesisBlock_hash|]. intros anchor. apply no_bitmap_rejected.
    revert Hb. unfold BuildGenesisBlock. destruct (gc_InitialValidators cfg); [done|]. by intros [= <-].
  - intros s Hv Hnc. split; [by apply genesis_hash_diverges|]. intros anchor. by apply no_bitmap_rejected.
Qed.
End hashes.

(** ** The consensus configuration of a mandate *)

Definition consensus_fields : list string :=
  ["GraceCycles"; "MinValidators"; "BaseIntervalMs"; "MaxCycleDurationMs"; "LambdaInterval"; "MinLambda1";
   "KeyRotationLeadTime"; "MinKeyOverlap"; "MaxPendingTTL"; "BatchVerifyWorkers"].

(** No field of the rule that the command reads was decoded as a float. *)
Definition no_floats (rule : MandateRuleSpec) : Prop :=
  gr_EventClass rule = consensus_class → Forall (fun name => float_field rule name = None) consensus_fields.

Lemma read_rule_no_floats cfg rule : no_floats rule → read_rule cfg rule = cfg.
Proof.
  unfold no_floats, read_rule. destruct (String.eqb_spec (gr_EventClass rule) consensus_class) as [E|]; [|done].
  intros Hf. specialize (Hf E). unfold consensus_fields in Hf. repeat (apply Forall_cons in Hf as [?Hn Hf]).
  repeat match goal with Hn : float_field _ _ = None |- _ => rewrite Hn; clear Hn end. by destruct cfg.
Qed.

(** Integers in the consensus rules are ignored: what a decoder reads as an integer leaves
    the configuration and the minimum number of validators at their defaults. *)
Lemma integer_config_ignored s : Forall no_floats (gm_Rules (gn_Mandate s)) →
  ExtractConsensusConfig s = default_consensus ∧ GetMinValidators (gn_Mandate s) = 4%Z.
Proof.
  unfold ExtractConsensusConfig, GetMinValidators. generalize (gm_Rules (gn_Mandate s)). intros rules Hf. split.
  - induction Hf as [|r rules Hr Hf IH]; cbn [foldl]; [done|]. by rewrite read_rule_no_floats.
  - induction Hf as [|r rules Hr Hf IH]; cbn [min_validators_loop]; [done|].
    destruct (String.eqb_spec (gr_EventClass r) consensus_class) as [E|]; [|done].
    specialize (Hr E). unfold consensus_fields in Hr. apply Forall_cons in Hr as [_ [Hm _]%Forall_cons].
    by rewrite Hm.
Qed.

(** The import of a snapshot keeps its validators and its last hash, and yields the default
    configuration. *)
Lemma import_spec_config now snapshot :
  ExtractConsensusConfig (import_spec now snapshot) = default_consensus ∧
  GetMinValidators (gn_Mandate (import_spec now snapshot)) = 4%Z.
Proof.
  unfold ExtractConsensusConfig, GetMinValidators, import_spec, convertMandates.
  cbn [gn_Mandate gm_Rules]. generalize (concat (s1_ActiveMandates snapshot)). intros rules.
  assert (Hother : Forall (fun r => gr_EventClass r ≠ consensus_class) (omap convert_rule rules)).
  { apply Forall_forall. intros r (v & _ & Hc)%list_elem_of_omap. unfold convert_rule in Hc.
    destruct (_ || _) eqn:E; [|done]. injection Hc as <-. cbn [gr_EventClass]. intros Heq.
    rewrite Heq in E. done. }
  rewrite foldl_app. split.
  - change (foldl read_rule default_consensus default_rules) with default_consensus.
    induction Hother as [|r l Hr Hl IH]; cbn [foldl]; [done|].
    rewrite read_rule_no_floats; [done|]. by intros ?.
  - cbn. induction Hother as [|r l Hr Hl IH]; cbn [min_validators_loop]; [done|].
    apply String.eqb_neq in Hr. by rewrite Hr.
Qed.

(** ** A concrete run *)

Definition demo_key : string := "000102030405060708090a0b0c0d0e0f".

Definition demo_genesis : GenesisSpec :=
  {| gn_NetworkName := "demo"; gn_CreatedAt := 1700000000;
     gn_Validators := replicate 4 (MkValidatorSpec demo_key "ff" "");
     gn_Mandate := {| gm_Label := "3cp:mandate:v1"; gm_Rules := default_rules |};
     gn_LegacyAnchor := "" |}.

#[local] Instance demo_files : GenesisFiles := {|
  yaml_spec data := match data with [] => None | _ => Some demo_genesis end;
  json_snapshot _ := None;
|}.

Definition demo_flags : genesis_flags := MkFlags "genesis.yaml" "" "" 0.

Lemma demo_genesis_valid : valid_spec demo_genesis.
Proof. apply Validate_spec. vm_compute. reflexivity. Qed.

Lemma demo_genesis_buildable : buildable (fun _ => 16) demo_genesis.
Proof.
  split; [done| |by left]. cbn [demo_genesis gn_Validators replicate]. repeat constructor; by eexists.
Qed.

Lemma genesis_command_spec_witness :
  ∃ data, genesis_main (fun _ => 16) (fun _ => Some [1%Z]) true 0 demo_flags = Ok (data, blake3 data) ∧
    UnmarshalCBOR data = Ok (genesis_of demo_genesis).
Proof.
  destruct (MarshalCBOR_total (genesis_of demo_genesis)) as [data Hd]. exists data.
  assert (Hu : UnmarshalCBOR data = Ok (genesis_of demo_genesis))
    by (apply UnmarshalCBOR_Marshal; [apply genesis_of_utf8|exact Hd]).
  split; [|exact Hu]. apply genesis_command_spec. split; [reflexivity|]. split; [reflexivity|].
  exists demo_genesis, (genesis_of demo_genesis).
  split; [reflexivity|]. split; [exact demo_genesis_valid|]. split; [exact demo_genesis_buildable|].
  split; [reflexivity|]. split; [apply genesis_of_block, demo_genesis_valid|]. split; [exact Hd|exact Hu].
Defined.

Lemma demo_hashes_differ :
  sha256 (cmd_preimage (genesis_of demo_genesis)) ≠ sha256 (block_preimage (genesis_of demo_genesis)).
Proof.
  intros Heq. apply (f_equal (take 1)) in Heq. vm_compute in Heq. discriminate Heq.
Qed.

Definition demo_config : GenesisBlockConfig :=
  {| gc_NetworkName := "demo"; gc_CreatedAt := 5; gc_InitialValidators := [validator_of (MkValidatorSpec demo_key "" "")];
     gc_GenesisMandateHash := zeros 32 |}.

Lemma genesis_not_followed_witness :
  (∃ b, BuildGenesisBlock demo_config ∅ = Ok b ∧ Block_VerifyHash b = true ∧
        ∀ anchor, VerifyBlock (Some b) anchor ≠ Ok tt) ∧
  Block_VerifyHash (genesis_of demo_genesis) = false.
Proof.
  destruct genesis_not_followed as [Hlib Hcmd]. split.
  - eexists. split; [reflexivity|]. apply (Hlib demo_config ∅). reflexivity.
  - apply Hcmd; [exact demo_genesis_valid|]. intros Heq. destruct (demo_hashes_differ Heq).
Defined.
