(* ===== verification/Demo.v ===== *)
(** * A concrete single-node world

    A node of [demo_uid 7] on the stand-in primitives, with an in-memory bus that nobody
    else writes to, on which the engine's theorems are instantiated by computation. *)
From Stdlib Require Import SpecFloat.
From S2P Require Import Prelude Crypto Toy Sha256 Smt Errors Vrf Identity IdentityTheorems Chain ToyCbor.
From S2P Require Import ChainTheorems Config Rotation Mandates Quorum QuorumTheorems LightClient.
From S2P Require Import LightTheorems Gossip State StateTheorems Engine EngineCycle EngineApi.

Definition demo_env (n : nat) (b : MemoryBus) : MemoryBus := b.
Definition demo_clock (n : nat) : Z := Z.of_nat (100 + n).
Definition demo_patience (n : nat) : nat := 2.

Definition demo_node : Node := {| n_UID := demo_uid 7; n_Peers := []; n_Addr := "127.0.0.1:9000" |}.

(** An engine just built by [NewEngine]. *)
Definition fresh_world : World (bus := MemoryBus) :=
  {| w_eng := NewEngine demo_node second; w_bus := NewMemoryBus; w_step := 0 |}.

Definition demo_submission (k : Z) : ProvenanceEntry :=
  {| e_Hash := key32 k; e_Submitter := 1%Z :: zeros 15; e_Timestamp := 50; e_Label := "release";
     e_Approver := None; e_Reference := None; e_Signature := []; e_MandateRef := None |}.

(** The same engine after two submissions. *)
Definition busy_world : World (bus := MemoryBus) :=
  let w1 := fst (Enqueue demo_env demo_clock (demo_submission 1) fresh_world) in
  fst (Enqueue demo_env demo_clock (demo_submission 2) w1).

Definition committed_world : World (bus := MemoryBus) := RunCycle demo_env demo_clock demo_patience busy_world.

(** ** Three validators

    The environment plays validators [others]: they publish their VRF proofs for cycle 0
    and sign the candidate as soon as it is on the bus. *)

Definition vrf_msg (root : bytes) (k : Z) : list VRFProofMsg :=
  match VRFProve (demo_uid k) (makeAlpha 0 root) with
  | Ok proof => [{| vm_Cycle := 0; vm_Proof := MarshalVRFProof proof; vm_SignerID := ID (demo_uid k) |}]
  | _ => []
  end.

Definition vote (block : Block) (k : Z) : BlockSig :=
  {| bs_Cycle := 0; bs_Sig := SignDilithium (u_SecretKey (demo_uid k)) (b_BlockHash block);
     bs_SignerID := ID (demo_uid k) |}.

Definition voters_env (root : bytes) (others : list Z) (n : nat) (b : MemoryBus) : MemoryBus :=
  let b1 := foldl (fun b m => PublishVRFProof m b) b (others ≫= vrf_msg root) in
  match GetProposed 0 b1 with
  | Some block => foldl (fun b k => PublishSig (vote block k) b) b1 others
  | None => b1
  end.

Definition trio_engine (k : Z) : Engine :=
  NewEngineWithPeers {| n_UID := demo_uid k; n_Peers := []; n_Addr := "" |} second true (Some demo_peers).

Definition trio_root : bytes := Smt.Root (en_st (trio_engine 1)).

(** Validator [k] of the three with one entry submitted, and the other two around it. *)
Definition trio_others (k : Z) : list Z := filter (fun j => j ≠ k) [1; 2; 3]%Z.

Definition trio_env (k : Z) : nat → MemoryBus → MemoryBus := voters_env trio_root (trio_others k).

Definition trio_world (k : Z) : World (bus := MemoryBus) :=
  fst (Enqueue (trio_env k) demo_clock (demo_submission 1)
         {| w_eng := trio_engine k; w_bus := NewMemoryBus; w_step := 0 |}).

(** Validator 3 wins cycle 0: its world after the first PREPARE pass, which publishes the
    candidate, then the second pass. *)
Definition trio_proposed : World (bus := MemoryBus) :=
  fst (RunPreparePhase (trio_env 3) demo_clock demo_patience 0 trio_root [demo_submission 1] false 2 (trio_world 3)).

Definition trio_prepared (w : World (bus := MemoryBus)) : World (bus := MemoryBus) * outcome gerror PrepareResult :=
  RunPreparePhase (trio_env 3) demo_clock demo_patience 0 trio_root [demo_submission 1] true 2 w.
