(* ===== verification/EngineFrame.v ===== *)
(** * What the phases of a cycle may change

    PREPARE and COMMIT change only the state tree of the engine; the lemmas here give the
    engine after each step up to that, and the shape of the results. *)
From Stdlib Require Import SpecFloat.
From S2P Require Import Prelude Crypto Smt Errors Vrf Identity Chain Config Rotation Mandates Quorum Gossip.
From S2P Require Import State Engine EngineCycle.

Create HintDb framed.

Section frame.
Context `{Primitives, Cbor, Ristretto, Gonum, StateCbor} {bus : Type} `{GossipChannel bus}.
Context (env : nat → bus → bus) (clock : nat → Z) (patience : nat → nat).

Local Notation World := (World (bus := bus)).
Local Notation M := (M (bus := bus)).

Lemma with_st_id (e : Engine) : with_st (en_st e) e = e.
Proof. by destruct e as [? ? ? ? ? ? ? [] ? ? ? ?]. Qed.

Lemma mbind_Ok {A B} (m : M A) (k : A → M B) w w' b :
  mbind m k w = (w', Ok b) ↔ ∃ a w1, m w = (w1, Ok a) ∧ k a w1 = (w', Ok b).
Proof.
  unfold mbind. destruct (m w) as [w1 [a|e|]]; split; try done; try naive_solver.
Qed.

(** The engine after [m] is the engine before, with another tree. *)
Definition frame (w w' : World) : Prop := ∃ t, w_eng w' = with_st t (w_eng w).

Definition framed {A} (m : M A) : Prop := ∀ w, frame w (fst (m w)).

Lemma frame_refl w : frame w w.
Proof. exists (en_st (w_eng w)). by rewrite with_st_id. Qed.

Lemma frame_trans w1 w2 w3 : frame w1 w2 → frame w2 w3 → frame w1 w3.
Proof. intros [t1 E1] [t2 E2]. exists t2. by rewrite E2, E1. Qed.

Lemma frame_eng_eq w w' : w_eng w' = w_eng w → frame w w'.
Proof. intros E. exists (en_st (w_eng w)). by rewrite with_st_id. Qed.

Lemma framed_ret {A} (a : A) : framed (ret a).
Proof. intros w. apply frame_refl. Qed.
Lemma framed_throw {A} e : framed (throw (A := A) e).
Proof. intros w. apply frame_refl. Qed.
Lemma framed_lift {A} (o : outcome gerror A) : framed (lift o).
Proof. intros w. apply frame_refl. Qed.
Lemma framed_get_eng : framed get_eng.
Proof. intros w. apply frame_refl. Qed.
Lemma framed_get_patience : framed (get_patience patience).
Proof. intros w. apply frame_refl. Qed.
Lemma framed_now : framed (now clock).
Proof. intros w. by apply frame_eng_eq. Qed.

Lemma framed_bus_call {A} (f : bus → bus * A) : framed (bus_call env f).
Proof. intros w. apply frame_eng_eq. unfold bus_call. by destruct (f _). Qed.
Lemma framed_bus_read {A} (f : bus → A) : framed (bus_read env f).
Proof. apply framed_bus_call. Qed.
Lemma framed_bus_write (f : bus → bus) : framed (bus_write env f).
Proof. apply framed_bus_call. Qed.
Lemma framed_modify_st f : framed (modify (fun e => with_st (f e) e)).
Proof. intros w. eexists. reflexivity. Qed.

Lemma framed_bind {A B} (m : M A) (k : A → M B) : framed m → (∀ a, framed (k a)) → framed (mbind m k).
Proof.
  intros Hm Hk w. specialize (Hm w). unfold mbind. destruct (m w) as [w1 [a|e|]]; try done.
  eapply frame_trans; [exact Hm|apply Hk].
Qed.

Lemma framed_poll {A} n (read : M (option A)) : framed read → framed (poll n read).
Proof.
  intros Hr. induction n as [|n IH]; simpl; apply framed_bind; try done;
    intros [a|]; auto using framed_ret.
Qed.
End frame.

#[export] Hint Resolve framed_ret framed_throw framed_lift framed_get_eng framed_get_patience framed_now
  framed_bus_read framed_bus_write framed_modify_st : framed.

(** Walk through a handler. *)
Ltac framed :=
  repeat first
    [ solve [eauto with framed]
    | apply framed_bind; [|intros ?]
    | apply framed_poll
    | case_match
    | progress cbn beta zeta ].

Section phases.
Context `{Primitives, Cbor, Ristretto, Gonum, StateCbor} {bus : Type} `{GossipChannel bus}.
Context (env : nat → bus → bus) (clock : nat → Z) (patience : nat → nat).

Local Notation World := (World (bus := bus)).
Local Notation M := (M (bus := bus)).
Local Notation elect := (elect env patience).
Local Notation proposer_block := (proposer_block env clock).
Local Notation validator_block := (validator_block env patience).
Local Notation collectValidSigs := (collectValidSigs env).
Local Notation RunPreparePhase := (RunPreparePhase env clock patience).
Local Notation RunCommitPhase := (RunCommitPhase env patience).

Lemma framed_collectVRFProofs cycle p : framed (collectVRFProofs env cycle p).
Proof. unfold collectVRFProofs. framed. Qed.

Lemma framed_elect cycle root : framed (elect cycle root).
Proof. unfold EngineCycle.elect, waitForVRFProofs. framed; apply framed_collectVRFProofs. Qed.

Lemma framed_proposer_block cycle p pend cq rq : framed (proposer_block cycle p pend cq rq).
Proof. unfold EngineCycle.proposer_block, build_candidate. framed. Qed.

Lemma framed_validator_block cycle p : framed (validator_block cycle p).
Proof. unfold EngineCycle.validator_block, waitForProposal. framed. Qed.

Lemma framed_collectValidSigs cycle b am : framed (collectValidSigs cycle b am).
Proof. unfold EngineCycle.collectValidSigs. framed. Qed.

Lemma framed_RunPreparePhase cycle root pend cq rq : framed (RunPreparePhase cycle root pend cq rq).
Proof.
  unfold EngineCycle.RunPreparePhase, waitForSignatures.
  framed; auto using framed_elect, framed_proposer_block, framed_validator_block, framed_collectValidSigs.
Qed.

Lemma framed_RunCommitPhase cycle pr : framed (RunCommitPhase cycle pr).
Proof. unfold EngineCycle.RunCommitPhase, waitForFinal. framed. Qed.
End phases.
