(* ===== verification/EngineTheorems.v ===== *)
(** * Properties of the consensus engine: PREPARE and COMMIT *)
From Stdlib Require Import SpecFloat.
From S2P Require Import Prelude Crypto Toy Smt Errors Vrf Identity IdentityTheorems Chain ToyCbor.
From S2P Require Import ChainTheorems Config Rotation Mandates Quorum QuorumTheorems Gossip State.
From S2P Require Import StateTheorems Engine EngineCycle EngineFrame Demo.

(** ** Bitmaps of signers *)

Lemma length_set_bit bm i : length (set_bit bm i) = length bm.
Proof. unfold set_bit. case_match; [by rewrite length_insert|done]. Qed.

Lemma bit_at_set_bit bm i j : i / 8 < length bm → bit_at (set_bit bm i) j = bit_at bm j || (j =? i).
Proof.
  intros Hi. unfold set_bit. destruct (lookup_lt_is_Some_2 bm (i / 8) Hi) as [b Hb]. rewrite Hb.
  unfold bit_at. destruct (decide (j / 8 = i / 8)) as [E|E].
  - rewrite E, list_lookup_insert_eq, Hb by done.
    rewrite Z.lor_spec, Z.shiftl_1_l, Z.pow2_bits_eqb by lia. f_equal.
    pose proof (Nat.div_mod_eq i 8). pose proof (Nat.div_mod_eq j 8).
    destruct (Nat.eqb_spec j i) as [->|Hne]; [by apply Z.eqb_eq|]. apply Z.eqb_neq. lia.
  - rewrite list_lookup_insert_ne by done. rewrite (proj2 (Nat.eqb_neq j i)) by congruence.
    by rewrite orb_false_r.
Qed.

Section bitmap.
Context (valid : gmap string bytes).

Definition has_sig (p : Peer) : bool := bool_decide (is_Some (valid !! ID (p_UID p))).

Lemma prepare_bitmap_loop peers : ∀ k bm,
  k + length peers ≤ length bm * 8 →
  let bm' := foldl (fun bm '(i, p) => if has_sig p then set_bit bm i else bm) bm
               (imap (fun i p => (k + i, p)) peers) in
  length bm' = length bm ∧
  ∀ j, bit_at bm' j = bit_at bm j || (if decide (k ≤ j) then default false (has_sig <$> peers !! (j - k)) else false).
Proof.
  induction peers as [|p peers IH]; intros k bm Hlen.
  { simpl. split; [done|]. intros j. case_decide; by rewrite ?lookup_nil, orb_false_r. }
  cbn [imap foldl]. rewrite Nat.add_0_r.
  assert (Himap : imap ((fun i q => (k + i, q)) ∘ S) peers = imap (fun i q => (S k + i, q)) peers).
  { apply imap_ext. intros i q _. simpl. f_equal. lia. }
  rewrite Himap. simpl in Hlen.
  assert (Hk : k / 8 < length bm) by (apply Nat.Div0.div_lt_upper_bound; lia).
  set (bm1 := if has_sig p then set_bit bm k else bm).
  assert (Hl1 : length bm1 = length bm) by (unfold bm1; destruct (has_sig p); [apply length_set_bit|done]).
  destruct (IH (S k) bm1) as [Hl Hb]; [rewrite Hl1; lia|]. split; [by rewrite Hl|].
  intros j. rewrite Hb. unfold bm1.
  replace (bit_at (if has_sig p then set_bit bm k else bm) j) with (bit_at bm j || (has_sig p && (j =? k))).
  2:{ destruct (has_sig p); simpl; [by rewrite bit_at_set_bit|by rewrite orb_false_r]. }
  rewrite <- orb_assoc. f_equal. destruct (Nat.eqb_spec j k) as [->|Hne].
  - rewrite decide_False, decide_True, Nat.sub_diag by lia. simpl. by rewrite andb_true_r, orb_false_r.
  - rewrite andb_false_r. simpl. destruct (decide (k ≤ j)).
    + rewrite decide_True by lia. by replace (j - k) with (S (j - S k)) by lia.
    + by rewrite decide_False by lia.
Qed.

Lemma prepare_bitmap_spec peers :
  length (prepare_bitmap peers valid) = (length peers + 7) / 8 ∧
  ∀ j, bit_at (prepare_bitmap peers valid) j = default false (has_sig <$> peers !! j).
Proof.
  unfold prepare_bitmap. destruct (prepare_bitmap_loop peers 0 (empty_bitmap (length peers))) as [Hl Hb].
  { unfold empty_bitmap. rewrite length_zeros. pose proof (Nat.div_mod_eq (length peers + 7) 8).
    pose proof (Nat.mod_upper_bound (length peers + 7) 8). lia. }
  change (fun i p => (0 + i, p)) with (fun (i : nat) (p : Peer) => (i, p)) in Hl, Hb.
  split; [etrans; [exact Hl|unfold empty_bitmap; apply length_zeros]|].
  intros j. etrans; [apply Hb|]. rewrite decide_True, Nat.sub_0_r by lia.
  replace (bit_at (empty_bitmap (length peers)) j) with false; [done|].
  unfold bit_at. rewrite lookup_empty_bitmap. case_decide; by rewrite ?Z.testbit_0_l.
Qed.

(** The compacted payload pairs with the bitmap: the signature of a marked peer sits at the
    number of marks before it. *)
Lemma compact_sigs_lookup bm : ∀ peers k i p sig,
  (∀ j q, peers !! j = Some q → bit_at bm (k + j) = true → is_Some (valid !! ID (p_UID q))) →
  k + length peers ≤ length bm * 8 →
  peers !! i = Some p → bit_at bm (k + i) = true → valid !! ID (p_UID p) = Some sig →
  compact_sigs bm valid k peers !! (countBitsBefore bm (k + i) - countBitsBefore bm k) = Some sig.
Proof.
  induction peers as [|q peers IH]; intros k i p sig Hall Hlen Hp Hb Hsig; [done|]. simpl in Hlen.
  cbn [compact_sigs]. rewrite (proj2 (Nat.leb_gt _ _)) by (apply Nat.Div0.div_lt_upper_bound; lia).
  assert (Hmono : ∀ n m, countBitsBefore bm n ≤ countBitsBefore bm (n + m)).
  { intros n m. induction m as [|m IHm]; [by rewrite Nat.add_0_r|]. rewrite Nat.add_succ_r. simpl.
    destruct (bit_at bm (n + m)); lia. }
  destruct i as [|i]; simpl in Hp.
  - injection Hp as ->. rewrite Nat.add_0_r in *. by rewrite Hb, Hsig, Nat.sub_diag.
  - replace (k + S i) with (S k + i) in * by lia.
    assert (Hnext : compact_sigs bm valid (S k) peers !!
      (countBitsBefore bm (S k + i) - countBitsBefore bm (S k)) = Some sig).
    { apply (IH (S k) i p); try done; [|lia]. intros j q' Hq Hbq. apply (Hall (S j) q' Hq).
      by replace (k + S j) with (S k + j) by lia. }
    specialize (Hmono (S k) i). cbn [countBitsBefore] in Hnext, Hmono.
    destruct (bit_at bm k) eqn:Ek.
    + destruct (Hall 0 q eq_refl) as [s Hs]; [by rewrite Nat.add_0_r|]. rewrite Hs.
      replace (countBitsBefore bm (S k + i) - countBitsBefore bm k)
        with (S (countBitsBefore bm (S k + i) - (countBitsBefore bm k + 1))); [done|].
      change (countBitsBefore bm (S (k + i))) with (countBitsBefore bm (S k + i)) in *. lia.
    + rewrite Nat.add_0_r in Hnext. done.
Qed.

(** The number of marks is the number of signatures. *)
Lemma selected_size peers :
  NoDup ((fun p => ID (p_UID p)) <$> peers) →
  (∀ id, is_Some (valid !! id) → id ∈ (fun p => ID (p_UID p)) <$> peers) →
  length (selected (length peers) (fun j => default false (has_sig <$> peers !! j))) = size valid.
Proof.
  intros Hnd Hknown. rewrite <- size_dom.
  set (l := (fun p => ID (p_UID p)) <$> filter (fun p => has_sig p = true) peers).
  assert (Hl : list_to_set l = dom valid).
  { apply set_eq. intros id. rewrite elem_of_list_to_set, elem_of_dom. unfold l. rewrite list_elem_of_fmap. split.
    - intros (p & -> & [Hs _]%list_elem_of_filter). by apply bool_decide_eq_true in Hs.
    - intros Hs. destruct (proj1 (list_elem_of_fmap _ _ _) (Hknown id Hs)) as (p & -> & Hp).
      exists p. split; [done|]. apply list_elem_of_filter. split; [|done]. by apply bool_decide_eq_true. }
  assert (Hndl : NoDup l).
  { unfold l. eapply sublist_NoDup; [exact Hnd|]. apply fmap_sublist, sublist_filter. }
  rewrite <- Hl, size_list_to_set by done. unfold l. rewrite length_fmap.
  clear. induction peers as [|p peers IH] using rev_ind; [done|].
  rewrite length_app, Nat.add_1_r, selected_S, filter_app, !length_app. f_equal.
  - rewrite <- IH. f_equal. unfold selected. apply filter_agree.
    intros j Hj%elem_of_seq. rewrite lookup_app_l by lia. done.
  - rewrite snoc_lookup. simpl. rewrite filter_cons. by destruct (has_sig p).
Qed.
End bitmap.

(** ** From PREPARE to an acceptable final block *)

Section commit.
Context `{Primitives, Cbor, Ristretto, Gonum, StateCbor} {bus : Type} `{GossipChannel bus}.
Context (env : nat → bus → bus) (clock : nat → Z) (patience : nat → nat).

Local Notation World := (World (bus := bus)).
Local Notation collectValidSigs := (collectValidSigs (bus := bus) env).
Local Notation RunPreparePhase := (RunPreparePhase (bus := bus) env clock patience).
Local Notation RunCommitPhase := (RunCommitPhase (bus := bus) env patience).

Lemma prepare_loop_complete eng hash bm psigs cycle : ∀ peers k c,
  (∀ i p, peers !! i = Some p → bit_at bm (k + i) = true →
     ∃ sig, psigs !! countBitsBefore bm (k + i) = Some sig ∧ verify_peer_sig eng p hash sig cycle = true) →
  ∃ n, prepare_loop eng hash bm psigs cycle k peers c = Some n.
Proof.
  induction peers as [|p peers IH]; intros k c Hall; [by eexists|].
  assert (Hnext : ∀ c', ∃ n, prepare_loop eng hash bm psigs cycle (S k) peers c' = Some n).
  { intros c'. apply IH. intros i q Hq Hb. replace (S k + i) with (k + S i) in * by lia.
    by apply (Hall (S i) q). }
  cbn [prepare_loop]. destruct (_ <=? k); [apply Hnext|]. destruct (bit_at bm k) eqn:Eb; simpl; [|apply Hnext].
  destruct (Hall 0 p eq_refl) as (sig & Hs & Hv); [by rewrite Nat.add_0_r|].
  rewrite Nat.add_0_r in Hs. rewrite Hs, Hv. simpl. apply Hnext.
Qed.

(** The signatures of a PREPARE result: known validators, each verifying over the hash. *)
Definition sigs_ok (e : Engine) (hash : bytes) (cycle : Z) (sigs : gmap string bytes) : Prop :=
  ∀ id sig, sigs !! id = Some sig →
    ∃ p, p ∈ en_peers e ∧ ID (p_UID p) = id ∧ verify_overlap e (u_RootID (p_UID p)) hash sig cycle = true.

Lemma valid_sigs_ok e hash cycle sigs : sigs_ok e hash cycle (valid_sigs e hash cycle sigs).
Proof.
  intros id sig. unfold valid_sigs. rewrite map_lookup_imap.
  destruct (sigs !! id) as [s|]; simpl; [|done].
  destruct (list_find _ _) as [[i p]|] eqn:Ef; [|done]. apply list_find_Some in Ef as (Hp & Hid & _).
  destruct (verify_overlap _ _ _ _ _) eqn:Ev; [|done]. intros [= ->]. exists p.
  split_and!; [by eapply list_elem_of_lookup_2|done|done].
Qed.

Lemma collectValidSigs_ok cycle block am (w w' : World) sigs :
  collectValidSigs cycle block am w = (w', Ok sigs) → sigs_ok (w_eng w) (b_BlockHash block) cycle sigs.
Proof.
  unfold EngineCycle.collectValidSigs. intros (e & w1 & [= <- <-] & Hr)%mbind_Ok.
  apply mbind_Ok in Hr as (local & w2 & _ & Hr). destruct (en_gossip (w_eng w)).
  - apply mbind_Ok in Hr as (ss & w3 & _ & [= _ <-]). apply valid_sigs_ok.
  - injection Hr as _ <-. apply valid_sigs_ok.
Qed.

Lemma sigs_ok_frame (w w' : World) hash cycle sigs :
  frame w w' → sigs_ok (w_eng w') hash cycle sigs → sigs_ok (w_eng w) hash cycle sigs.
Proof. intros [t E]. unfold sigs_ok. rewrite E. done. Qed.

Lemma framed_run {A} (m : M (bus := bus) A) (w w' : World) r : framed m → m w = (w', r) → frame w w'.
Proof. intros Hf E. specialize (Hf w). by rewrite E in Hf. Qed.

(** What a PREPARE result says. *)
Lemma RunPreparePhase_ok cycle root pend cq rq (w w' : World) pr :
  RunPreparePhase cycle root pend cq rq w = (w', Ok pr) →
  frame w w' ∧ sigs_ok (w_eng w) (b_BlockHash (pr_Block pr)) cycle (pr_PrepareSigs pr) ∧
  pr_PrepareBitmap pr = prepare_bitmap (en_peers (w_eng w)) (pr_PrepareSigs pr) ∧
  (pr_QuorumReached pr = true → cq = true ∧ rq ≤ size (pr_PrepareSigs pr)).
Proof.
  intros Hrun. pose proof (framed_run _ _ _ _ (framed_RunPreparePhase env clock patience _ _ _ _ _) Hrun) as Hf.
  split; [done|]. unfold EngineCycle.RunPreparePhase in Hrun.
  apply mbind_Ok in Hrun as (proposer & w1 & R1 & Hrun).
  apply framed_run in R1; [|apply framed_elect].
  apply mbind_Ok in Hrun as (e & w1' & [= <- <-] & Hrun).
  apply mbind_Ok in Hrun as (block & w2 & R2 & Hrun).
  apply framed_run in R2; [|case_match; [apply framed_proposer_block|apply framed_validator_block]].
  assert (F2 : frame w w2) by exact (frame_trans _ _ _ R1 R2).
  apply mbind_Ok in Hrun as (sigs0 & w3 & R3 & Hrun). pose proof (collectValidSigs_ok _ _ _ _ _ _ R3) as S0.
  apply framed_run in R3; [|apply framed_collectValidSigs].
  assert (F3 : frame w w3) by exact (frame_trans _ _ _ F2 R3).
  apply mbind_Ok in Hrun as (sigs & w4 & R4 & [= _ <-]). simpl.
  assert (Hok : sigs_ok (w_eng w) (b_BlockHash block) cycle sigs).
  { destruct (cq && _ && _).
    - apply mbind_Ok in R4 as (reached & w5 & R5 & R4).
      apply framed_run in R5; [|unfold waitForSignatures; framed; apply framed_collectValidSigs].
      assert (F5 : frame w w5) by exact (frame_trans _ _ _ F3 R5). destruct reached.
      + apply (sigs_ok_frame w w5); [done|]. by eapply collectValidSigs_ok.
      + injection R4 as _ <-. by apply (sigs_ok_frame w w2).
    - injection R4 as _ <-. by apply (sigs_ok_frame w w2). }
  split; [done|]. split; [destruct R1 as [t ->]; done|].
  intros [-> Hq%Nat.leb_le]%andb_true_iff. done.
Qed.

Lemma verifyPrepareQuorum_final e block cycle valid sigs commitSig hash :
  NoDup ((fun p => ID (p_UID p)) <$> en_peers e) → sigs_ok e hash cycle valid →
  (if is_degraded_block block then 1 else QuorumRequired (length (en_peers e))) ≤ size valid →
  sigs = compact_sigs (prepare_bitmap (en_peers e) valid) valid 0 (en_peers e) →
  verifyPrepareQuorum (finalise block (prepare_bitmap (en_peers e) valid) sigs hash commitSig)
    (en_peers e) cycle (Some (ky_validator (en_keys e))) = true.
Proof.
  intros Hnd Hok Hq ->. destruct (prepare_bitmap_spec valid (en_peers e)) as [Hlen Hbit].
  set (bm := prepare_bitmap (en_peers e) valid) in *.
  assert (Hbytes : length (en_peers e) ≤ length bm * 8).
  { rewrite Hlen. pose proof (Nat.div_mod_eq (length (en_peers e) + 7) 8).
    pose proof (Nat.mod_upper_bound (length (en_peers e) + 7) 8). lia. }
  assert (Hmarked : ∀ j q, en_peers e !! j = Some q → bit_at bm j = true → is_Some (valid !! ID (p_UID q))).
  { intros j q Hq' Hb. rewrite Hbit, Hq' in Hb. simpl in Hb. by apply bool_decide_eq_true in Hb. }
  assert (Hsize : length (selected (length (en_peers e)) (bit_at bm)) = size valid).
  { rewrite <- (selected_size valid (en_peers e) Hnd).
    - unfold selected. f_equal. apply filter_agree. intros j _. by rewrite Hbit.
    - intros id [sig Hs]. destruct (Hok _ _ Hs) as (p & Hp & <- & _).
      by apply (list_elem_of_fmap_2 (fun p => ID (p_UID p))). }
  unfold verifyPrepareQuorum. cbn [b_PrepareSigsBitmap b_PrepareSigs b_BlockHash finalise].
  destruct (prepare_loop_complete (Some (ky_validator (en_keys e))) hash bm
              (compact_sigs bm valid 0 (en_peers e)) cycle (en_peers e) 0 0) as [n Hn].
  { intros i p Hp Hb. destruct (Hmarked i p Hp Hb) as [sig Hs]. exists sig. split.
    - pose proof (compact_sigs_lookup valid bm (en_peers e) 0 i p sig) as Hc.
      rewrite Nat.sub_0_r in Hc. by apply Hc.
    - destruct (Hok _ _ Hs) as (q & Hq' & Hid & Hv).
      assert (q = p) as ->; [|done].
      apply list_elem_of_lookup in Hq' as [j Hj]. assert (i = j) as <-; [|congruence].
      apply (NoDup_lookup _ _ _ (ID (p_UID p)) Hnd); rewrite list_lookup_fmap; [by rewrite Hp|by rewrite Hj, <- Hid]. }
  rewrite Hn. destruct (prepare_loop_spec _ _ _ _ _ _ _ _ _ Hn) as [-> _].
  change (filter (fun j => bit_at bm j = true) (seq 0 (length (en_peers e))))
    with (selected (length (en_peers e)) (bit_at bm)).
  rewrite Hsize. apply Nat.leb_le. simpl.
  exact Hq.
Qed.

(** The honest path closes. When a leader's PREPARE phase reaches the quorum and its
    candidate's hash is consistent, the final block that its COMMIT phase builds passes
    [verifyPrepareQuorum] for every validator with the same peers and key history: the
    bitmap, the compacted payload and the counting of bits fit together. *)
Lemma leader_final_accepted cycle root pend rq (w w1 w2 : World) pr final :
  let e := w_eng w in
  RunPreparePhase cycle root pend true rq w = (w1, Ok pr) →
  RunCommitPhase cycle pr w1 = (w2, Ok final) → pr_LeaderID pr = ID (n_UID (en_node e)) →
  NoDup ((fun p => ID (p_UID p)) <$> en_peers e) →
  (if is_degraded_block (pr_Block pr) then 1 else QuorumRequired (length (en_peers e))) ≤ rq →
  ComputeBlockHash (pr_Block pr) = b_BlockHash (pr_Block pr) →
  verifyPrepareQuorum final (en_peers e) cycle (Some (ky_validator (en_keys e))) = true ∧
  ComputeBlockHash final = b_BlockHash final ∧ b_BlockHash final = b_BlockHash (pr_Block pr) ∧
  b_CommitSig final = SignDilithium (u_SecretKey (n_UID (en_node e))) (b_BlockHash final).
Proof.
  intros e Hprep Hcom Hlead Hnd Hrq Hhash.
  destruct (RunPreparePhase_ok _ _ _ _ _ _ _ _ Hprep) as ([t Ht] & Hok & Hbm & Hreached). fold e in Hok, Hbm.
  assert (He1 : w_eng w1 = with_st t e) by exact Ht.
  unfold EngineCycle.RunCommitPhase in Hcom.
  destruct (pr_QuorumReached pr) eqn:Er; [|done]. simpl in Hcom. destruct (Hreached eq_refl) as [_ Hsz].
  apply mbind_Ok in Hcom as (e' & w1' & [= <- <-] & Hcom).
  rewrite He1 in Hcom. change (n_UID (en_node (with_st t e))) with (n_UID (en_node e)) in Hcom.
  rewrite bool_decide_eq_true_2 in Hcom by done.
  apply mbind_Ok in Hcom as (u & w3 & _ & [= _ <-]).
  assert (Hfh : ComputeBlockHash (finalise (pr_Block pr) (pr_PrepareBitmap pr)
    (compact_sigs (pr_PrepareBitmap pr) (pr_PrepareSigs pr) 0 (en_peers e))
    (b_BlockHash (pr_Block pr)) (b_CommitSig (pr_Block pr))) = b_BlockHash (pr_Block pr)).
  { etrans; [|exact Hhash]. by apply ComputeBlockHash_committed. }
  unfold leader_final. change (en_peers (with_st t e)) with (en_peers e). rewrite Hfh.
  split_and!; try done.
  rewrite Hbm. apply verifyPrepareQuorum_final; try done. lia.
Qed.
End commit.
