(* ===== verification/CycleTheorems.v ===== *)
(** * Properties of a whole cycle: commit or roll back *)
From Stdlib Require Import SpecFloat.
From S2P Require Import Prelude Crypto Toy Smt Errors Vrf Identity IdentityTheorems Chain ToyCbor.
From S2P Require Import ChainTheorems Config Rotation Mandates Quorum QuorumTheorems Gossip State.
From S2P Require Import StateTheorems Engine EngineCycle EngineFrame Demo EngineTheorems.

Section cycle.
Context `{Primitives, Cbor, Ristretto, Gonum, StateCbor} {bus : Type} `{GossipChannel bus}.
Context (env : nat → bus → bus) (clock : nat → Z) (patience : nat → nat).

Local Notation World := (World (bus := bus)).
Local Notation M := (M (bus := bus)).
Local Notation cycle_body := (cycle_body (bus := bus) env clock patience).
Local Notation RunCommitPhase := (RunCommitPhase (bus := bus) env patience).

(** What every step before the final one leaves alone. *)
Record kept (e e' : Engine) : Prop := {
  kept_blocks : en_blocks e' = en_blocks e;
  kept_anchored : en_anchored e' = en_anchored e;
  kept_state : en_state e' = en_state e;
  kept_pending : en_pending e' = en_pending e;
  kept_entries : en_pendingEntries e' = en_pendingEntries e;
}.

Lemma kept_trans e1 e2 e3 : kept e1 e2 → kept e2 e3 → kept e1 e3.
Proof. intros [] []. split; congruence. Qed.

Lemma frame_kept (w w' : World) : frame w w' → kept (w_eng w) (w_eng w').
Proof. intros [t ->]. by split. Qed.

Lemma or_abort_inv {A} all snap (m : M A) (k : A → M unit) (w w' : World) r :
  or_abort all snap m k w = (w', r) → r ≠ Panic →
  (∃ w1 er, m w = (w1, Err er) ∧ w_eng w' = abort_cycle all snap (w_eng w1)) ∨
  (∃ w1 a, m w = (w1, Ok a) ∧ k a w1 = (w', r)).
Proof.
  unfold or_abort. destruct (m w) as [w1 [a|er|]]; intros Hr Hnp.
  - right. eauto.
  - left. injection Hr as <- <-. eauto.
  - injection Hr as <- <-. done.
Qed.

(** A failed attempt, seen from the engine at its start. *)
Record rolled_back (all : list ProvenanceEntry) (snap : SparseMerkleTree) (e e' : Engine) : Prop := {
  rb_blocks : en_blocks e' = en_blocks e;
  rb_anchored : en_anchored e' = en_anchored e;
  rb_tree : en_st e' = snap;
  rb_cycle : st_Cycle (en_state e') = u64 (st_Cycle (en_state e) + 1);
  rb_entries : en_pendingEntries e' = all;
  rb_pending : en_pending e' = en_pending e;
}.

Lemma abort_rolled_back all snap e e1 : kept e e1 → rolled_back all snap e (abort_cycle all snap e1).
Proof.
  intros [Hb Ha Hs Hp _]. split; try done.
  - change (u64 (st_Cycle (en_state e1) + 1) = u64 (st_Cycle (en_state e) + 1)). by rewrite Hs.
Qed.

(** The block a successful COMMIT yields has a consistent hash. *)
Lemma RunCommitPhase_hash cycle pr (w w' : World) final :
  RunCommitPhase cycle pr w = (w', Ok final) → ComputeBlockHash final = b_BlockHash final.
Proof.
  unfold EngineCycle.RunCommitPhase. intros Hc.
  destruct (negb (pr_QuorumReached pr)); [done|].
  apply mbind_Ok in Hc as (e & w1 & [= <- <-] & Hc). case_bool_decide.
  - apply mbind_Ok in Hc as (u & w2 & _ & [= _ <-]). unfold leader_final. cbn [b_BlockHash finalise].
    by apply ComputeBlockHash_committed.
  - destruct (negb _); [done|]. apply mbind_Ok in Hc as (fp & w2 & _ & Hc). destruct fp as [f|]; [|done].
    destruct (negb (verifyPrepareQuorum _ _ _ _)); [done|]. destruct (list_find _ _) as [[i p]|]; [|done].
    destruct (negb (verify_overlap _ _ _ _ _)); [done|].
    destruct (negb (bool_decide (ComputeBlockHash f = b_BlockHash f))) eqn:Eh; [done|].
    injection Hc as _ <-. by apply negb_false_iff, bool_decide_eq_true in Eh.
Qed.

Lemma degraded_phase_kept active q block (w w' : World) r :
  degraded_phase active q block w = (w', r) → kept (w_eng w) (w_eng w') ∧
  (∀ final, r = Ok final → block_committed final = block_committed block ∧ b_BlockHash final = b_BlockHash block).
Proof.
  unfold degraded_phase, degraded_step. destruct (lg_degraded _) as [d|].
  - intros [= <- <-]. split; [by split|]. intros final. unfold ApplyDegradedBlock.
    destruct (negb _); [by intros [= <-]|]. case_match; [|done]. destruct p. by intros [= <-].
  - intros [= <- <-]. split; [by split|]. by intros final [= <-].
Qed.

Lemma apply_phase_kept (w w' : World) r :
  apply_phase w = (w', r) → r ≠ Panic →
  (∃ er, r = Err er ∧ kept (w_eng w) (w_eng w')) ∨
  (r = Ok tt ∧ en_blocks (w_eng w') = en_blocks (w_eng w) ∧ en_anchored (w_eng w') = en_anchored (w_eng w) ∧
   en_pendingEntries (w_eng w') = en_pendingEntries (w_eng w) ∧ en_st (w_eng w') = en_st (w_eng w)).
Proof.
  unfold apply_phase. destruct (Apply _ _ _ _ _) as [lap [next|er|]]; intros [= <- <-] Hr.
  - by right.
  - left. eexists. split; [done|]. by split.
  - done.
Qed.

(** Ingestion only extends the retained entries. *)
Lemma ingest_spec (w w' : World) r : ingestGossipedEntriesLocked env clock w = (w', r) →
  r = Ok tt ∧ en_ledger (w_eng w') = en_ledger (w_eng w) ∧ en_cfg (w_eng w') = en_cfg (w_eng w) ∧
  en_pending (w_eng w') = en_pending (w_eng w) ∧
  ∃ added, en_pendingEntries (w_eng w') = en_pendingEntries (w_eng w) ++ added.
Proof.
  unfold ingestGossipedEntriesLocked, mbind, get_eng. destruct (en_gossip (w_eng w)); simpl.
  2:{ intros [= <- <-]. split_and!; try done. exists []. by rewrite app_nil_r. }
  destruct (ingest _ _) as [|x l] eqn:Ei; simpl.
  - intros [= <- <-]. split_and!; try done. exists []. by rewrite app_nil_r.
  - intros [= <- <-]. split_and!; try done. by exists (x :: l).
Qed.

Lemma sync_kept e : kept e (syncKeyRotationStateLocked e) ∧ en_st (syncKeyRotationStateLocked e) = en_st e.
Proof. split; [by split|done]. Qed.

Lemma admit_rotation_kept e x : kept e (admit_rotation_entry e x) ∧ en_st (admit_rotation_entry e x) = en_st e.
Proof. unfold admit_rotation_entry. repeat case_match; (split; [by split|done]). Qed.

Lemma admit_mandate_kept e x : kept e (admit_mandate_entry e x) ∧ en_st (admit_mandate_entry e x) = en_st e.
Proof. unfold admit_mandate_entry. repeat case_match; (split; [by split|done]). Qed.

Lemma foldl_kept (f : Engine → ProvenanceEntry → Engine) :
  (∀ e x, kept e (f e x) ∧ en_st (f e x) = en_st e) →
  ∀ l e, kept e (foldl f e l) ∧ en_st (foldl f e l) = en_st e.
Proof.
  intros Hf l. induction l as [|x l IH]; intros e; [split; [by split|done]|]. simpl.
  destruct (IH (f e x)) as [K1 S1], (Hf e x) as [K2 S2].
  split; [by eapply kept_trans|congruence].
Qed.

(** A successful attempt: one block more. *)
Record committed (e e' : Engine) (block : Block) : Prop := {
  cm_blocks : en_blocks e' = en_blocks e ++ [block];
  cm_hash : ComputeBlockHash block = b_BlockHash block;
  cm_pending : en_pending e' = [];
  cm_entries : en_pendingEntries e' =
    filter (fun x => e_Hash x ∉ (list_to_set (e_Hash <$> elems (b_Anchored block)) : gset bytes))
      (en_pendingEntries e);
  cm_anchored : ∀ x, x ∈ elems (b_Anchored block) →
    ∃ proof, en_anchored e' !! copy_array 32 (e_Hash x) = Some proof ∧ ap_Found proof = true ∧
      ap_BlockIndex proof = Z.of_nat (length (en_blocks e)) ∧ ap_StateRoot proof = Smt.Root (en_st e') ∧
      ap_SMTProof proof = concat (default [] (Smt.Prove (en_st e') (copy_array 32 (e_Hash x)))) ∧
      ap_BlockTime proof = b_Timestamp block ∧
      ∃ y, y ∈ elems (b_Anchored block) ∧ copy_array 32 (e_Hash y) = copy_array 32 (e_Hash x) ∧
        ap_Submitter proof = e_Submitter y ∧ ap_Label proof = e_Label y;
  cm_older : ∀ h, h ∉ (copy_array 32 ∘ e_Hash <$> elems (b_Anchored block)) →
    en_anchored e' !! h = en_anchored e !! h;
}.

Lemma anchored_fold e block l : ∀ (m : gmap bytes AnchorProof) h,
  (h ∉ (copy_array 32 ∘ e_Hash <$> l) →
     foldl (fun m x => <[copy_array 32 (e_Hash x) := anchor_proof e block x]> m) m l !! h = m !! h) ∧
  (h ∈ (copy_array 32 ∘ e_Hash <$> l) → ∃ x, x ∈ l ∧ copy_array 32 (e_Hash x) = h ∧
     foldl (fun m x => <[copy_array 32 (e_Hash x) := anchor_proof e block x]> m) m l !! h =
       Some (anchor_proof e block x)).
Proof.
  induction l as [|x l IH]; intros m h; simpl; [split; [done|intros ?%not_elem_of_nil; done]|].
  destruct (IH (<[copy_array 32 (e_Hash x) := anchor_proof e block x]> m) h) as [IH1 IH2]. split.
  - intros [Hne Hnot]%not_elem_of_cons. rewrite IH1 by done. by rewrite lookup_insert_ne.
  - intros Hin. destruct (decide (h ∈ (copy_array 32 ∘ e_Hash <$> l))) as [Hl|Hl].
    { destruct (IH2 Hl) as (y & Hy & E). exists y. split; [by right|exact E]. }
    apply elem_of_cons in Hin as [->|Hin]; [|done]. exists x. split; [by left|]. split; [done|]. rewrite IH1 by done.
    apply lookup_insert_eq.
Qed.

Lemma append_block_committed e block :
  ComputeBlockHash block = b_BlockHash block → committed e (append_block block e) block.
Proof.
  intros Hh. split; try done.
  - intros x Hx. unfold append_block. cbn [en_anchored with_anchored en_ledger with_ledger lg_anchored].
    match goal with |- context [foldl (fun m x => <[_ := anchor_proof ?e2 block x]> m) ?m ?l] =>
      destruct (proj2 (anchored_fold e2 block l m (copy_array 32 (e_Hash x)))) as (y & Hin & Hy & Hl) end.
    { apply list_elem_of_fmap. by exists x. }
    eexists. split; [exact Hl|]. unfold anchor_proof. simpl. rewrite Hy.
    change (en_blocks (with_blocks _ _)) with (en_blocks e ++ [block]). rewrite length_app.
    split_and!; try done; [simpl; by rewrite Nat.add_1_r|]. by exists y.
  - intros h Hnot. unfold append_block. cbn [en_anchored with_anchored en_ledger with_ledger lg_anchored].
    match goal with |- context [foldl (fun m x => <[_ := anchor_proof ?e2 block x]> m) ?m ?l] =>
      exact (proj1 (anchored_fold e2 block l m h) Hnot) end.
Qed.

Lemma Clone_id t : Smt.Clone t = t.
Proof.
  destruct t as [r d st z]. unfold Smt.Clone. simpl. f_equal. etrans; [|apply map_fmap_id].
  apply map_fmap_ext. intros i [] _. done.
Qed.

(** The three phases and what follows, from the engine [e1] at their start. *)
Lemma phases_spec all snap cycle root rq active e1 (w w' : World) r :
  kept e1 (w_eng w) →
  or_abort all snap (RunPreparePhase env clock patience cycle root all false rq) (fun _ =>
  or_abort all snap (RunPreparePhase env clock patience cycle root all true rq) (fun pr =>
  or_abort all snap (RunCommitPhase cycle pr) (fun block =>
  or_abort all snap (degraded_phase active (pr_QuorumReached pr) block) (fun final =>
  or_abort all snap apply_phase (fun _ =>
  mbind (modify (append_block final)) (fun _ =>
  mbind get_eng (fun e =>
  if en_gossip e
  then bus_write env (RemoveEntries (list_to_set (e_Hash <$> elems (b_Anchored final))))
  else ret tt))))))) w = (w', r) → r ≠ Panic →
  rolled_back all snap e1 (w_eng w') ∨ ∃ block, committed e1 (w_eng w') block.
Proof.
  intros K0 Hrun Hnp.
  apply or_abort_inv in Hrun as [(w1 & er & Hm & ->)|(w1 & u1 & Hm & Hrun)]; [|..|done];
    apply framed_run, frame_kept in Hm; try apply framed_RunPreparePhase;
    pose proof (kept_trans _ _ _ K0 Hm) as K1; clear Hm; [left; by apply abort_rolled_back|].
  apply or_abort_inv in Hrun as [(w2 & er & Hm & ->)|(w2 & pr & Hm & Hrun)]; [|..|done];
    apply framed_run, frame_kept in Hm; try apply framed_RunPreparePhase;
    pose proof (kept_trans _ _ _ K1 Hm) as K2; clear Hm; [left; by apply abort_rolled_back|].
  apply or_abort_inv in Hrun as [(w3 & er & Hm & ->)|(w3 & block & Hm & Hrun)]; [|..|done].
  { apply framed_run, frame_kept in Hm; [|apply framed_RunCommitPhase].
    left. apply abort_rolled_back. by eapply kept_trans. }
  pose proof (RunCommitPhase_hash _ _ _ _ _ Hm) as Hhash.
  apply framed_run, frame_kept in Hm; [|apply framed_RunCommitPhase].
  pose proof (kept_trans _ _ _ K2 Hm) as K3. clear Hm.
  apply or_abort_inv in Hrun as [(w4 & er & Hm & ->)|(w4 & final & Hm & Hrun)]; [|..|done];
    apply degraded_phase_kept in Hm as [Hk Hf]; pose proof (kept_trans _ _ _ K3 Hk) as K4; clear Hk;
    [left; by apply abort_rolled_back|].
  destruct (Hf _ eq_refl) as [Hcm Hbh].
  assert (Hhash' : ComputeBlockHash final = b_BlockHash final)
    by (rewrite Hbh, <- Hhash; by apply ComputeBlockHash_committed).
  apply or_abort_inv in Hrun as [(w5 & er & Hm & ->)|(w5 & u & Hm & Hrun)]; [|..|done].
  { apply apply_phase_kept in Hm as [(er' & _ & Hk)|(? & _)]; [|done..].
    left. apply abort_rolled_back. by eapply kept_trans. }
  apply apply_phase_kept in Hm as [(er' & ? & _)|(_ & Hb & Ha & Hp & _)]; [done| |done].
  right. exists final.
  assert (Hw : w_eng w' = append_block final (w_eng w5)).
  { revert Hrun. unfold mbind, modify, get_eng. simpl. destruct (en_gossip _); simpl; by intros [= <- _]. }
  rewrite Hw. destruct (append_block_committed (w_eng w5) final Hhash') as [C1 C2 C3 C4 C5 C6].
  destruct K4 as [B4 A4 _ _ P4].
  split; try done.
  - by rewrite C1, Hb, B4.
  - by rewrite C4, Hp, P4.
  - intros x Hx. rewrite <- B4, <- Hb. by apply C5.
  - intros h Hh. rewrite C6 by done. by rewrite Ha, A4.
Qed.

Lemma cycle_body_atomic (w w' : World) r :
  cycle_body w = (w', r) → r ≠ Panic →
  ∃ ingested,
    let e := with_pending (en_pending (w_eng w)) (en_pendingEntries (w_eng w) ++ ingested) (w_eng w) in
    (∃ block, committed e (w_eng w') block) ∨
    rolled_back (en_pendingEntries e ++ en_pending e) (en_st e) e (w_eng w') ∨
    (en_pendingEntries e ++ en_pending e = [] ∧ rolled_back [] (en_st e) e (w_eng w')).
Proof.
  unfold EngineCycle.cycle_body. intros Hrun Hnp. unfold mbind at 1, get_eng at 1 in Hrun.
  unfold mbind at 1 in Hrun. destruct (ingestGossipedEntriesLocked env clock w) as [wi ri] eqn:Ei.
  apply ingest_spec in Ei as (-> & Hled & Hcfg & Hpend & added & Hadd).
  exists added. cbv zeta. set (e := with_pending _ _ (w_eng w)). set (e1 := w_eng wi) in *.
  assert (Ke : kept e e1).
  { split; unfold en_blocks, en_anchored, en_state; try (by rewrite Hled); done. }
  assert (Hst : en_st e1 = en_st e) by (unfold en_st; by rewrite Hled).
  cbn beta iota in Hrun. unfold mbind at 1, get_eng at 1 in Hrun. fold e1 in Hrun.
  rewrite Clone_id, Hst in Hrun.
  destruct Ke as [Kb Ka Ks Kp Ke']. rewrite Kp, Ke' in Hrun.
  set (all := en_pendingEntries e ++ en_pending e) in *.
  unfold mbind at 1, modify at 1 in Hrun. fold e1 in Hrun.
  set (e2 := syncKeyRotationStateLocked e1) in *.
  assert (K2 : kept e e2) by (by split). cbv zeta in Hrun.
  destruct ((length all =? 0)%nat && SkipEmptyCycles (en_cfg e1)) eqn:Eskip.
  - apply andb_true_iff in Eskip as [Hall%Nat.eqb_eq%nil_length_inv _]. right. right.
    split; [done|]. injection Hrun as <- <-. destruct K2 as [K1' K2' K3' K4' K5'].
    split; try done.
    + change (u64 (st_Cycle (en_state e2) + 1) = u64 (st_Cycle (en_state e) + 1)). by rewrite K3'.
    + change (en_pendingEntries e2 = []). rewrite K5'. unfold all in Hall. apply app_nil in Hall as [Hall _]. exact Hall.
  - unfold mbind at 1, modify at 1 in Hrun. unfold mbind at 1, modify at 1 in Hrun.
    unfold mbind at 1, get_eng at 1 in Hrun. cbn [w_eng w_bus w_step] in Hrun.
    destruct (foldl_kept admit_rotation_entry admit_rotation_kept all e2) as [K3 S3].
    destruct (foldl_kept admit_mandate_entry admit_mandate_kept all (foldl admit_rotation_entry e2 all)) as [K4 S4].
    apply (phases_spec all (en_st e) _ _ _ _ e) in Hrun as [Hrb|Hc]; [right; left; exact Hrb|left; exact Hc|..|done].
    eapply kept_trans; [exact K2|]. eapply kept_trans; [exact K3|exact K4].
Qed.

(** C3: Atomicity of a cycle. A cycle that does not panic either appends exactly one block
    with a consistent hash, records an anchor proof for each of its entries against the
    new state root, and drops those entries from the retained set; or it changes no block
    and no proof, restores the state tree, and keeps every entry it was given, including
    those ingested from gossip. *)
Theorem run_cycle_atomic (w w' : World) r :
  cycle_body w = (w', r) → r ≠ Panic →
  ∃ ingested,
    let e := with_pending (en_pending (w_eng w)) (en_pendingEntries (w_eng w) ++ ingested) (w_eng w) in
    (∃ block, committed e (w_eng w') block) ∨
    rolled_back (en_pendingEntries e ++ en_pending e) (en_st e) e (w_eng w') ∨
    (en_pendingEntries e ++ en_pending e = [] ∧ rolled_back [] (en_st e) e (w_eng w')).
Proof. apply cycle_body_atomic. Qed.
End cycle.

(** ** Concrete instance *)

Lemma busy_cycle_ok :
  match cycle_body demo_env demo_clock demo_patience busy_world with
  | (w, Ok _) => (length (en_blocks (w_eng w)) =? 1)%nat
  | _ => false
  end = true.
Proof. vm_compute. reflexivity. Qed.

Lemma busy_blocks : en_blocks (w_eng busy_world) = [].
Proof. vm_compute. reflexivity. Qed.

Lemma run_cycle_atomic_witness : ∃ w', cycle_body demo_env demo_clock demo_patience busy_world = (w', Ok tt) ∧
  ∃ e block, committed e (w_eng w') block.
Proof.
  pose proof busy_cycle_ok as Hb.
  destruct (cycle_body demo_env demo_clock demo_patience busy_world) as [w' [[]|er|]] eqn:Er; [|discriminate Hb..].
  exists w'. split; [reflexivity|].
  destruct (run_cycle_atomic demo_env demo_clock demo_patience busy_world w' (Ok tt) Er) as (ing & Hcase); [discriminate|].
  cbv zeta in Hcase. destruct Hcase as [[block Hc]|[Hrb|[_ Hrb]]]; [eauto|..].
  all: apply rb_blocks in Hrb; change (en_blocks (w_eng w') = en_blocks (w_eng busy_world)) in Hrb;
    rewrite Hrb, busy_blocks in Hb; discriminate Hb.
Defined.
