(* ===== verification/SoloTheorems.v ===== *)
(** * A single-node chain, end to end

    A node without gossip is its own proposer and only validator. From any state it can be
    in, a cycle with submissions commits a block, the block holds every submitted entry,
    and a light client that trusts the node's key accepts it; so the whole chain such a
    node builds is accepted from genesis. *)
From Stdlib Require Import SpecFloat.
From S2P Require Import Prelude Crypto Toy Sha256 Smt Errors Vrf Identity IdentityTheorems Chain ToyCbor.
From S2P Require Import ChainTheorems Config Rotation Mandates Quorum QuorumTheorems TriadTheorems.
From S2P Require Import LightClient LightTheorems Gossip State StateTheorems Engine EngineCycle EngineFrame.
From S2P Require Import EngineTheorems CycleTheorems.

Section solo.
Context `{Primitives, Cbor, Ristretto, Gonum, StateCbor} `{!MldsaCorrect, !RistrettoLaws}
  {bus : Type} `{GossipChannel bus}.
Context (env : nat → bus → bus) (clock : nat → Z) (patience : nat → nat).
Context (u : UIDZeroSoulbound) (Huid : uid_wf u).
Context (Hroot_total : ∀ c n g l, is_Some (cbor_root_state c n g l)).

Local Notation World := (World (bus := bus)).

Record solo (e : Engine) : Prop := {
  so_gossip : en_gossip e = false;
  so_node : n_UID (en_node e) = u;
  so_peers : ∃ p, en_peers e = [p] ∧ p_UID p = u;
  so_vset : st_ValidatorSet (en_state e) = [peer_info u];
  so_rotations : kv_rotations (ky_validator (en_keys e)) = ∅;
  so_bodies : ky_bodies (en_keys e) = ∅;
  so_nodes : ∃ node, st_Nodes (en_state e) = {[ ID u := node ]} ∧ ns_Status node = fone;
  so_degraded : ∃ d, lg_degraded (en_ledger e) = Some d ∧ (1 < dm_MinValidators d)%Z;
  so_skip : SkipEmptyCycles (en_cfg e) = true;
}.

(** After [syncKeyRotationStateLocked] the validator knows the node's key. *)
Record ready (e : Engine) : Prop := {
  rd_solo : solo e;
  rd_keys : kv_validators (ky_validator (en_keys e)) = {[ u_RootID u := u_PublicKey u ]};
}.

Lemma solo_sync e : solo e → ready (syncKeyRotationStateLocked e).
Proof.
  intros [? ? ? Hv ? ? ? ? ?]. split; [by split|]. simpl. rewrite Hv. done.
Qed.

Lemma ready_with_st t e : ready e → ready (with_st t e).
Proof. intros [[] ?]. by split. Qed.

Lemma own_signature msg : VerifyDilithium (u_PublicKey u) msg (SignDilithium (u_SecretKey u) msg) = true.
Proof. exact (uid_sign u msg Huid). Qed.

Lemma own_signature_nonempty msg : (length (SignDilithium (u_SecretKey u) msg) =? 0)%nat = false.
Proof.
  pose proof (own_signature msg) as Hv. unfold VerifyDilithium in Hv. case_decide as Hd; [|done].
  destruct Hd as [_ ->]. done.
Qed.

Lemma ready_keys e cycle : ready e →
  GetActivePublicKey (ky_validator (en_keys e)) (u_RootID u) cycle = Ok [u_PublicKey u].
Proof.
  intros [Hs Hk]. unfold GetActivePublicKey. rewrite Hk, lookup_singleton_eq.
  unfold rotations_of. rewrite (so_rotations _ Hs), lookup_empty. done.
Qed.

Lemma verify_own e msg cycle : ready e →
  verify_overlap e (u_RootID u) msg (SignDilithium (u_SecretKey u) msg) cycle = true.
Proof.
  intros Hr. unfold verify_overlap, verifySignatureWithOverlap. rewrite ready_keys by done. simpl.
  by rewrite own_signature.
Qed.

Lemma ID_lookup_single {A} (a : A) : ({[ ID u := a ]} : gmap string A) !! ID u = Some a.
Proof. apply lookup_singleton_eq. Qed.

(** The node elects itself. *)
Lemma elect_solo (w : World) cycle root pf :
  ready (w_eng w) → VRFProve u (makeAlpha cycle root) = Ok pf →
  elect env patience cycle root w =
    (w, Ok {| p_UID := u; p_Addr := n_Addr (en_node (w_eng w)); p_Alive := true |}).
Proof.
  intros [[Hg Hn _ _ _ _ (node & Hnodes & Hst) _ _] _] Hp.
  destruct (uid_vrf u _ _ Huid Hp) as [Hv _].
  unfold elect, collectVRFProofs, mbind, get_eng, lift, ret.
  rewrite Hg, Hn, Hp. cbn [with_text]. rewrite ?Hg, ?Hn. cbn [andb].
  unfold SelectProposer, SelectProposerVRF. cbn [select_loop p_UID].
  rewrite ID_lookup_single, Hv. cbn beta iota. cbn [with_text]. cbn beta iota. cbn [fst p_UID]. rewrite Hnodes, ID_lookup_single, Hst. done.
Qed.

Definition self (e : Engine) : Peer := {| p_UID := u; p_Addr := n_Addr (en_node e); p_Alive := true |}.

(** The candidate a solo node builds at time [ts] on the tree [t]. *)
Definition solo_hash (e : Engine) (cycle : Z) (es : list ProvenanceEntry) (ts : Z) (t : SparseMerkleTree) : bytes :=
  ComputeBlockHash (candidate e cycle (self e) es ts 1 (Smt.Root t) [] []).

Definition solo_sig (e : Engine) (cycle : Z) (es : list ProvenanceEntry) (ts : Z) (t : SparseMerkleTree) : bytes :=
  SignDilithium (u_SecretKey u) (solo_hash e cycle es ts t).

Definition solo_candidate (e : Engine) (cycle : Z) (es : list ProvenanceEntry) (ts : Z) (t : SparseMerkleTree) : Block :=
  candidate e cycle (self e) es ts 1 (Smt.Root t) (solo_hash e cycle es ts t) [solo_sig e cycle es ts t].

Lemma valid_sigs_solo e hash cycle : ready e →
  valid_sigs e hash cycle {[ ID u := SignDilithium (u_SecretKey u) hash ]} =
    {[ ID u := SignDilithium (u_SecretKey u) hash ]}.
Proof.
  intros Hr. destruct (so_peers _ (rd_solo _ Hr)) as (p & Hp & Hpu).
  apply map_eq. intros id. unfold valid_sigs. rewrite map_lookup_imap.
  destruct (decide (id = ID u)) as [->|Hne].
  - rewrite ID_lookup_single, Hp. cbn [list_find option_bind]. rewrite Hpu, decide_True by done. simpl.
    by rewrite Hpu, verify_own.
  - by rewrite lookup_singleton_ne.
Qed.

Lemma prepare_solo (w : World) cycle root pf pend cq :
  ready (w_eng w) → VRFProve u (makeAlpha cycle root) = Ok pf → pend ≠ [] →
  let e := w_eng w in
  let es := dedup_hash ∅ pend in
  let t := insert_entries es (en_st e) in
  let ts := clock (w_step w) in
  RunPreparePhase env clock patience cycle root pend cq 1 w =
    ({| w_eng := with_st t e; w_bus := w_bus w; w_step := S (w_step w) |},
     Ok {| pr_Block := solo_candidate e cycle es ts t;
           pr_PrepareSigs := {[ ID u := solo_sig e cycle es ts t ]};
           pr_PrepareBitmap := prepare_bitmap (en_peers e) {[ ID u := solo_sig e cycle es ts t ]};
           pr_LeaderID := ID u; pr_QuorumReached := cq |}).
Proof.
  intros Hr Hp Hpend e es t ts. pose proof (rd_solo _ Hr : solo e) as Hs.
  unfold RunPreparePhase. unfold mbind at 1. rewrite (elect_solo w cycle root pf Hr Hp).
  unfold mbind at 1, get_eng at 1. fold e. fold (self e).
  change (ID (p_UID (self e))) with (ID u). rewrite (so_node _ Hs).
  rewrite (bool_decide_eq_true_2 (ID u = ID u)) by done.
  assert (Hblock : proposer_block env clock cycle (self e) pend cq 1 w =
    ({| w_eng := with_st t e; w_bus := w_bus w; w_step := S (w_step w) |}, Ok (solo_candidate e cycle es ts t))).
  { unfold proposer_block, mbind at 1, get_eng at 1. fold e. rewrite (so_gossip _ Hs). cbn [andb].
    unfold mbind at 1, ret at 1. destruct pend as [|x l]; [done|].
    unfold build_candidate, mbind, now, get_eng, modify. cbn [w_eng w_bus w_step]. fold e es t.
    change (en_gossip (with_st t e)) with (en_gossip e). change (en_node (with_st t e)) with (en_node e).
    rewrite (so_gossip _ Hs), (so_node _ Hs). done. }
  unfold mbind at 1. rewrite Hblock.
  set (w1 := MkWorld _ _ _).
  assert (Hcol : collectValidSigs env cycle (solo_candidate e cycle es ts t) true w1 =
    (w1, Ok {[ ID u := solo_sig e cycle es ts t ]})).
  { unfold collectValidSigs, mbind, get_eng, lift, ret. cbn [w1 w_eng orb].
    change (en_node (with_st t e)) with (en_node e). change (en_gossip (with_st t e)) with (en_gossip e).
    rewrite (so_node _ Hs), (so_gossip _ Hs). cbn [solo_candidate candidate b_PrepareSigs b_BlockHash elems from_option id].
    change (index [solo_sig e cycle es ts t] 0) with (@Ok gerror _ (solo_sig e cycle es ts t)).
    cbn beta iota. unfold solo_sig at 1. rewrite valid_sigs_solo by (by apply ready_with_st). done. }
  unfold mbind at 1. rewrite Hcol. unfold mbind at 1.
  rewrite (so_gossip _ Hs), andb_false_r. cbn [andb]. unfold ret. cbn beta iota.
  rewrite map_size_singleton. by destruct cq.
Qed.

(** ** Commit *)

Definition solo_final (e : Engine) (cycle : Z) (es : list ProvenanceEntry) (ts : Z) (t : SparseMerkleTree) : Block :=
  let sig := solo_sig e cycle es ts t in
  set_sigs (finalise (solo_candidate e cycle es ts t) [1%Z] [sig] (solo_hash e cycle es ts t) sig)
    (Some [1%Z]) (Some [sig])
    (<[degraded_label := string_bytes "true"]> {[ degraded_label := string_bytes "true" ]}).

Lemma bitmap_solo e (s : bytes) : solo e → prepare_bitmap (en_peers e) {[ ID u := s ]} = [1%Z].
Proof.
  intros Hs. destruct (so_peers _ Hs) as (p & -> & Hp). unfold prepare_bitmap. cbn [imap foldl].
  rewrite Hp, ID_lookup_single. done.
Qed.

Lemma compact_solo e (s : bytes) : solo e → compact_sigs [1%Z] {[ ID u := s ]} 0 (en_peers e) = [s].
Proof.
  intros Hs. destruct (so_peers _ Hs) as (p & -> & Hp). cbn [compact_sigs].
  rewrite Hp, ID_lookup_single. done.
Qed.

Lemma final_hash_solo e cycle es ts t bm sigs h c :
  ComputeBlockHash (finalise (solo_candidate e cycle es ts t) bm sigs h c) = solo_hash e cycle es ts t.
Proof. by apply ComputeBlockHash_committed. Qed.

Lemma commit_solo (w : World) cycle e es ts t : solo (w_eng w) → en_peers e = en_peers (w_eng w) → solo e →
  let sig := solo_sig e cycle es ts t in
  RunCommitPhase env patience cycle
    {| pr_Block := solo_candidate e cycle es ts t; pr_PrepareSigs := {[ ID u := sig ]};
       pr_PrepareBitmap := prepare_bitmap (en_peers e) {[ ID u := sig ]};
       pr_LeaderID := ID u; pr_QuorumReached := true |} w =
  (w, Ok (finalise (solo_candidate e cycle es ts t) [1%Z] [sig] (solo_hash e cycle es ts t) sig)).
Proof.
  intros Hw Hpe Hs sig. unfold RunCommitPhase. cbn [pr_QuorumReached negb].
  unfold mbind at 1, get_eng at 1. cbn [pr_LeaderID]. rewrite (so_node _ Hw), bool_decide_eq_true_2 by done.
  rewrite (so_gossip _ Hw). unfold mbind, ret. unfold leader_final.
  cbn [pr_Block pr_PrepareBitmap pr_PrepareSigs].
  rewrite bitmap_solo, compact_solo, final_hash_solo, (so_node _ Hw) by done. done.
Qed.

Lemma degraded_solo (w : World) cycle e es ts t : solo (w_eng w) → solo e →
  let sig := solo_sig e cycle es ts t in
  ∃ d', (1 < dm_MinValidators d')%Z ∧
  degraded_phase 1 true (finalise (solo_candidate e cycle es ts t) [1%Z] [sig] (solo_hash e cycle es ts t) sig) w =
  ({| w_eng := with_degraded (Some d') (w_eng w); w_bus := w_bus w; w_step := w_step w |},
   Ok (solo_final e cycle es ts t)).
Proof.
  intros Hw Hs sig. destruct (so_degraded _ Hw) as (d & Hd & Hmin). destruct (so_peers _ Hw) as (p & Hp & Hpu).
  exists (fst (fst (CheckDegradedTransition d 1 true))).
  assert (Hd' : dm_inDegraded (fst (fst (CheckDegradedTransition d 1 true))) = true ∧
                dm_MinValidators (fst (fst (CheckDegradedTransition d 1 true))) = dm_MinValidators d).
  { unfold CheckDegradedTransition. change (nonNegative 1) with 1%Z.
    rewrite (proj2 (Z.ltb_lt 1 _)), (proj2 (Z.leb_gt _ 1)) by done.
    by destruct (dm_inDegraded d). }
  destruct Hd' as [Hin Hm]. split; [by rewrite Hm|].
  unfold degraded_phase, degraded_step. rewrite Hd. change (Z.of_nat 1) with 1%Z. cbn beta iota zeta. f_equal.
  unfold ApplyDegradedBlock. rewrite Hin, Hp. cbn [negb finalise b_BlockHash b_PrepareSigsBitmap b_PrepareSigs elems from_option id].
  cbn [degraded_loop length]. change (1 <=? 0 / 8) with false. change (bit_at [1%Z] 0) with true. cbn [negb lookup list_lookup].
  assert (Hne : (length sig =? 0)%nat = false) by apply own_signature_nonempty.
  assert (Hok : VerifyDilithium (u_PublicKey u) (solo_hash e cycle es ts t) sig = true) by apply own_signature.
  rewrite Hne, Hpu, Hok. done.
Qed.

Lemma apply_solo (w : World) : solo (w_eng w) →
  ∃ lap next, apply_phase w =
    ({| w_eng := with_state next (with_laplacian lap (w_eng w)); w_bus := w_bus w; w_step := w_step w |}, Ok tt) ∧
  st_ValidatorSet next = [peer_info u] ∧ ∃ node, st_Nodes next = {[ ID u := node ]} ∧ ns_Status node = fone.
Proof.
  intros Hs. unfold apply_phase. rewrite (so_node _ Hs).
  set (e := w_eng w) in *. destruct (so_nodes _ Hs) as (node & Hn & Hst).
  pose proof (Apply_cases (en_state e) (st_SupervisionRoot (en_state e)) [ID u] (en_cfg e) (lg_laplacian (en_ledger e))) as Ha.
  destruct (Apply (en_state e) _ _ _ _) as [lap [next|er|]]; cbn [snd] in Ha.
  - destruct Ha as (_ & _ & _ & Hv & _ & Hnodes & _). exists lap, next. split; [done|].
    split; [by rewrite Hv, (so_vset _ Hs)|]. exists (apply_heartbeat (en_cfg e) [ID u] (ID u) node). split.
    + apply map_eq. intros id. rewrite Hnodes, Hn. destruct (decide (id = ID u)) as [->|Hne].
      * by rewrite !ID_lookup_single.
      * by rewrite !lookup_singleton_ne.
    + unfold apply_heartbeat. cbn [existsb]. by rewrite (bool_decide_eq_true_2 (ID u = ID u)).
  - destruct er; try done; [rewrite Hn, map_size_singleton in Ha; lia|by destruct Ha].
  - destruct Ha as (n & l & Hc). destruct (Hroot_total (u64 (st_Cycle (en_state e) + 1)) n (st_Graph (en_state e)) l).
    congruence.
Qed.

(** ** A whole cycle *)

Lemma rotations_skipped e l : ky_bodies (en_keys e) = ∅ → processKeyRotationEntriesLocked l e = e.
Proof.
  intros Hb. unfold processKeyRotationEntriesLocked. induction l as [|x l IH]; [done|]. cbn [foldl].
  replace (admit_rotation_entry e x) with e; [done|]. unfold admit_rotation_entry.
  case_bool_decide; [done|]. by rewrite Hb, lookup_empty.
Qed.

Lemma mandates_policy l : ∀ e, ∃ pol, processMandateEntriesLocked l e = with_policy pol e.
Proof.
  unfold processMandateEntriesLocked. induction l as [|x l IH]; intros e.
  { exists (en_policy e). by destruct e. }
  cbn [foldl]. destruct (IH (admit_mandate_entry e x)) as [pol ->].
  unfold admit_mandate_entry. repeat case_match; by exists pol.
Qed.

Lemma ready_with_policy pol e : ready e → ready (with_policy pol e).
Proof. intros [[] ?]. by split. Qed.

Lemma required_solo e : solo e → required_quorum e = 1 ∧ activeValidators e = 1.
Proof.
  intros Hs. unfold required_quorum, activeValidators. rewrite (so_vset _ Hs).
  destruct (so_degraded _ Hs) as (d & -> & _). by destruct (IsDegraded d).
Qed.

(** The engine while it holds the candidate: keys synchronised, mandates admitted. *)
Definition solo_mid (e : Engine) (pol : Policy) : Engine := with_policy pol (syncKeyRotationStateLocked e).

(** A cycle with something pending commits the node's block. *)
Lemma cycle_solo (w : World) pf :
  solo (w_eng w) → en_pendingEntries (w_eng w) ++ en_pending (w_eng w) ≠ [] →
  let e := w_eng w in
  let cycle := nextCycleLocked e in
  VRFProve u (makeAlpha cycle (Smt.Root (en_st e))) = Ok pf →
  let es := dedup_hash ∅ (en_pendingEntries e ++ en_pending e) in
  let t := insert_entries es (insert_entries es (en_st e)) in
  ∃ w' pol, cycle_body env clock patience w = (w', Ok tt) ∧ solo (w_eng w') ∧
    en_st (w_eng w') = t ∧
    en_blocks (w_eng w') = en_blocks e ++ [solo_final (with_st (insert_entries es (en_st e)) (solo_mid e pol))
                                             cycle es (clock (S (w_step w))) t].
Proof.
  intros Hs Hne e cycle Hp es t. set (all := en_pendingEntries e ++ en_pending e) in *.
  destruct (mandates_policy all (syncKeyRotationStateLocked e)) as [pol Hpol].
  pose proof (ready_with_policy pol _ (solo_sync e Hs)) as Hr. fold (solo_mid e pol) in Hr.
  set (e2 := solo_mid e pol) in *. pose proof (rd_solo _ Hr) as Hs2.
  destruct (required_solo e2 Hs2) as [Hreq Hact].
  set (w2 := {| w_eng := e2; w_bus := w_bus w; w_step := w_step w |}).
  pose proof (prepare_solo w2 cycle (Smt.Root (en_st e)) pf all false Hr Hp Hne) as P1. cbv zeta in P1.
  fold es in P1. change (en_st (w_eng w2)) with (en_st e) in P1. set (t1 := insert_entries es (en_st e)) in *.
  set (e3 := with_st t1 e2) in *. cbn [w2 w_eng w_bus w_step] in P1.
  set (w3 := {| w_eng := e3; w_bus := w_bus w; w_step := S (w_step w) |}).
  assert (Hr3 : ready e3) by (by apply ready_with_st).
  pose proof (prepare_solo w3 cycle (Smt.Root (en_st e)) pf all true Hr3 Hp Hne) as P2. cbv zeta in P2.
  fold es in P2. change (en_st (w_eng w3)) with t1 in P2. fold t in P2. cbn [w3 w_eng w_bus w_step] in P2.
  change (with_st t e3) with (with_st t e2) in P2. set (e4 := with_st t e2) in *.
  set (w4 := {| w_eng := e4; w_bus := w_bus w; w_step := S (S (w_step w)) |}).
  assert (Hs4 : solo e4) by (apply rd_solo; by apply (ready_with_st t)).
  pose proof (commit_solo w4 cycle e3 es (clock (S (w_step w))) t Hs4 eq_refl (rd_solo _ Hr3)) as C. cbv zeta in C.
  destruct (degraded_solo w4 cycle e3 es (clock (S (w_step w))) t Hs4 (rd_solo _ Hr3)) as (d' & Hmin & D). cbv zeta in D.
  set (e5 := with_degraded (Some d') (w_eng w4)) in *.
  assert (Hs5 : solo e5) by (destruct Hs4; split; try done; by exists d').
  set (w5 := {| w_eng := e5; w_bus := w_bus w; w_step := S (S (w_step w)) |}).
  destruct (apply_solo w5 Hs5) as (lap & next & A & Hv & Hnodes).
  set (final := solo_final e3 cycle es (clock (S (w_step w))) t) in *.
  set (e6 := with_state next (with_laplacian lap e5)) in *.
  exists {| w_eng := append_block final e6; w_bus := w_bus w; w_step := S (S (w_step w)) |}, pol.
  split_and!.
  - unfold cycle_body. unfold mbind at 1, get_eng at 1. unfold mbind at 1.
    assert (Hing : ingestGossipedEntriesLocked env clock w = (w, Ok tt)).
    { unfold ingestGossipedEntriesLocked, mbind, get_eng. by rewrite (so_gossip _ Hs). }
    rewrite Hing. unfold mbind at 1, get_eng at 1. fold e. rewrite Clone_id. fold all.
    unfold mbind at 1, modify at 1. fold e.
    assert (Hlen : (length all =? 0)%nat = false)
      by (apply Nat.eqb_neq; intros E; apply Hne; exact (nil_length_inv _ E)).
    rewrite Hlen. cbn [andb].
    unfold mbind at 1, modify at 1. cbn [w_eng w_bus w_step].
    rewrite rotations_skipped by apply (so_bodies _ Hs).
    unfold mbind at 1, modify at 1. cbn [w_eng w_bus w_step]. rewrite Hpol.
    fold (solo_mid e pol). fold e2. fold w2. unfold mbind at 1, get_eng at 1. cbn [w2 w_eng]. fold w2.
    change (en_st e2) with (en_st e). change (nextCycleLocked e) with cycle. rewrite Hreq, Hact.
    unfold or_abort at 1. rewrite P1. fold e3. fold w3. unfold or_abort at 1. rewrite P2. fold e4. fold w4.
    unfold or_abort at 1. rewrite C. cbn [pr_QuorumReached]. unfold or_abort at 1. rewrite D. fold e5 final.
    change (w_bus w4) with (w_bus w). change (w_step w4) with (S (S (w_step w))). fold w5.
    unfold or_abort. rewrite A. fold e5. fold e6. unfold mbind, modify, get_eng. cbn [w_eng w_bus w_step].
    change (en_gossip (append_block final (with_state next (with_laplacian lap (w_eng w5))))) with (en_gossip e).
    rewrite (so_gossip e Hs). done.
  - destruct Hs5. by split.
  - done.
  - done.
Qed.

(** ** The light client *)

(** What a client that followed the chain holds: the last block and the node's key. *)
Definition client_anchor (blocks : list Block) : TrustAnchor :=
  {| ta_BlockIndex := match last blocks with Some b => b_Index b | None => 0%Z end;
     ta_BlockHash := b_BlockHash <$> last blocks;
     ta_Validators := [peer_info u]; ta_Rotations := [] |}.

Lemma client_keys blocks cycle :
  GetActivePublicKey (newKeyResolver (client_anchor blocks)) (u_RootID u) cycle = Ok [u_PublicKey u].
Proof.
  unfold newKeyResolver, client_anchor, admit_all, GetActivePublicKey, rotations_of. simpl.
  by rewrite lookup_insert_eq.
Qed.

Lemma client_signed blocks cycle msg :
  signed_by (client_anchor blocks) cycle (u_RootID u) msg (SignDilithium (u_SecretKey u) msg).
Proof.
  exists [u_PublicKey u], (u_PublicKey u). split_and!; [apply client_keys|by left|apply own_signature].
Qed.

Lemma solo_final_accepted e cycle es ts t : solo e →
  linked (solo_final e cycle es ts t) (client_anchor (en_blocks e)) →
  VerifyBlock (Some (solo_final e cycle es ts t)) (client_anchor (en_blocks e)) = Ok tt.
Proof.
  intros Hs Hl. apply VerifyBlock_accepted. destruct (so_peers _ Hs) as (p & Hp & Hpu).
  assert (Hvals : b_Validators (solo_final e cycle es ts t) = [peer_info u])
    by (cbn; rewrite Hp; simpl; by rewrite Hpu).
  split; try done.
  - by rewrite Hvals.
  - by rewrite Hvals.
  - cbn. left.
  - intros [|j] sig Hj; [|done]. injection Hj as <-. exists 0, (peer_info u).
    split_and!; [done|done|]. apply client_signed.
  - apply client_signed.
Qed.

Lemma accepts_snoc idx hash bs b anchor :
  accepts idx hash bs → VerifyBlock (Some b) anchor = Ok tt →
  ta_BlockIndex anchor = match last bs with Some l => b_Index l | None => idx end →
  ta_BlockHash anchor = match last bs with Some l => Some (b_BlockHash l) | None => hash end →
  accepts idx hash (bs ++ [b]).
Proof.
  intros Ha Hv. induction Ha as [idx hash|a block bs Hv' Ha IH]; intros Hi Hh; simpl.
  - simpl in Hi, Hh. subst. apply accepts_cons; [done|constructor].
  - apply accepts_cons; [done|]. apply IH.
    + rewrite last_cons in Hi. by destruct (last bs).
    + rewrite last_cons in Hh. by destruct (last bs).
Qed.

Lemma last_index blocks b : accepts 0 None blocks → last blocks = Some b →
  (Z.of_nat (length blocks) < 2 ^ 64)%Z → b_Index b = (Z.of_nat (length blocks) - 1)%Z.
Proof.
  intros Ha Hl Hlt. rewrite last_lookup in Hl. rewrite (accepts_index _ _ _ _ _ Ha Hl). simpl.
  assert (length blocks ≠ 0) by (by destruct blocks). rewrite u64_small by (unfold u64_ok; lia). lia.
Qed.

Lemma dedup_hash_hashes l : ∀ (seen : gset bytes) x, x ∈ l →
  e_Hash x ∈ seen ∨ ∃ y, y ∈ dedup_hash seen l ∧ e_Hash y = e_Hash x.
Proof.
  induction l as [|z l IH]; intros seen x Hx; [by apply not_elem_of_nil in Hx|]. cbn [dedup_hash].
  case_bool_decide as Hz.
  - apply elem_of_cons in Hx as [->|Hx]; [by left|]. by apply IH.
  - apply elem_of_cons in Hx as [->|Hx]; [right; exists z; split; [by left|done]|].
    destruct (IH ({[ e_Hash z ]} ∪ seen) x Hx) as [[->%elem_of_singleton|Hs]%elem_of_union|(y & Hy & E)].
    + right. exists z. split; [by left|done].
    + by left.
    + right. exists y. split; [by right|done].
Qed.

Lemma solo_step (w : World) pf :
  let e := w_eng w in
  solo e → accepts 0 None (en_blocks e) → (Z.of_nat (length (en_blocks e)) < 2 ^ 64)%Z →
  en_pendingEntries e ++ en_pending e ≠ [] →
  VRFProve u (makeAlpha (nextCycleLocked e) (Smt.Root (en_st e))) = Ok pf →
  ∃ w' block, cycle_body env clock patience w = (w', Ok tt) ∧ solo (w_eng w') ∧
    en_blocks (w_eng w') = en_blocks e ++ [block] ∧
    VerifyBlock (Some block) (client_anchor (en_blocks e)) = Ok tt ∧
    accepts 0 None (en_blocks (w_eng w')) ∧
    b_StateRoot block = Smt.Root (en_st (w_eng w')) ∧
    ∀ x, x ∈ en_pendingEntries e ++ en_pending e → ∃ y, y ∈ elems (b_Anchored block) ∧ e_Hash y = e_Hash x.
Proof.
  intros e Hs Hacc Hlen Hne Hp.
  destruct (cycle_solo w pf Hs Hne Hp) as (w' & pol & Hrun & Hs' & Hst & Hblocks). fold e in Hblocks.
  set (es := dedup_hash ∅ (en_pendingEntries e ++ en_pending e)) in *.
  set (e3 := with_st (insert_entries es (en_st e)) (solo_mid e pol)) in *.
  set (block := solo_final e3 _ _ _ _) in Hblocks.
  assert (Hs3 : solo e3) by (apply rd_solo, ready_with_st, ready_with_policy; by apply solo_sync).
  assert (Hv : VerifyBlock (Some block) (client_anchor (en_blocks e)) = Ok tt).
  { apply (solo_final_accepted e3); [done|]. unfold linked, client_anchor. cbn [ta_BlockHash ta_BlockIndex].
    change (en_blocks e3) with (en_blocks e). destruct (last (en_blocks e)) as [b|] eqn:El; simpl.
    - rewrite (last_index _ b Hacc El Hlen). split.
      + unfold nextCycleLocked. rewrite Z.sub_add, u64_small; [done|unfold u64_ok; lia].
      + unfold prev_hash. change (en_blocks e3) with (en_blocks e). by rewrite El.
    - apply last_None in El. unfold nextCycleLocked. change (w_eng w) with e. by rewrite El. }
  exists w', block. split_and!; try done.
  - rewrite Hblocks. apply (accepts_snoc _ _ _ _ _ Hacc Hv); unfold client_anchor; simpl; by destruct (last (en_blocks e)).
  - by rewrite Hst.
  - intros x Hx. destruct (dedup_hash_hashes _ ∅ x Hx) as [Hin|Hy]; [set_solver|]. exact Hy.
Qed.

(** A single node makes progress and its chain convinces outsiders. In any reachable
    state with something pending, provided the VRF proof exists, a cycle succeeds, appends
    one block that anchors the hash of every pending entry and whose state root is the
    node's, and a light client trusting only the node's key accepts that block and with it
    the whole chain from genesis; the node is then again in such a state. *)
Theorem solo_cycle_commits (w : World) pf :
  let e := w_eng w in
  solo e → accepts 0 None (en_blocks e) → (Z.of_nat (length (en_blocks e)) < 2 ^ 64)%Z →
  en_pendingEntries e ++ en_pending e ≠ [] →
  VRFProve u (makeAlpha (nextCycleLocked e) (Smt.Root (en_st e))) = Ok pf →
  ∃ w' block, cycle_body env clock patience w = (w', Ok tt) ∧ solo (w_eng w') ∧
    en_blocks (w_eng w') = en_blocks e ++ [block] ∧
    VerifyBlock (Some block) (client_anchor (en_blocks e)) = Ok tt ∧
    accepts 0 None (en_blocks (w_eng w')) ∧
    b_StateRoot block = Smt.Root (en_st (w_eng w')) ∧
    ∀ x, x ∈ en_pendingEntries e ++ en_pending e → ∃ y, y ∈ elems (b_Anchored block) ∧ e_Hash y = e_Hash x.
Proof. apply solo_step. Qed.

(** ** Every reachable chain *)

Lemma VRFProve_no_panic alpha : VRFProve u alpha ≠ Panic.
Proof.
  unfold VRFProve, VRFPrivateKeyFromBytes, VRF_Prove, fail_if. cbv zeta.
  repeat (case_match; cbn [outcome_bind]); try done; congruence.
Qed.

Lemma abort_solo all snap e : solo e → solo (abort_cycle all snap e).
Proof. intros []. by split. Qed.

(** A cycle with nothing pending, and one without a VRF proof. *)
Lemma idle_cycle_solo (w : World) : solo (w_eng w) →
  en_pendingEntries (w_eng w) ++ en_pending (w_eng w) = [] ∨
  (∃ er, VRFProve u (makeAlpha (nextCycleLocked (w_eng w)) (Smt.Root (en_st (w_eng w)))) = Err er) →
  solo (w_eng (RunCycle env clock patience w)) ∧
  en_blocks (w_eng (RunCycle env clock patience w)) = en_blocks (w_eng w) ∧
  en_st (w_eng (RunCycle env clock patience w)) = en_st (w_eng w) ∧
  en_anchored (w_eng (RunCycle env clock patience w)) = en_anchored (w_eng w).
Proof.
  intros Hs Hcase. set (e := w_eng w) in *. set (all := en_pendingEntries e ++ en_pending e) in *.
  pose (P := fun x : World => solo (w_eng x) ∧ en_blocks (w_eng x) = en_blocks e ∧ en_st (w_eng x) = en_st e ∧
    en_anchored (w_eng x) = en_anchored e).
  change (P (RunCycle env clock patience w)).
  unfold RunCycle, cycle_body. unfold mbind at 1, get_eng at 1. unfold mbind at 1.
  assert (Hing : ingestGossipedEntriesLocked env clock w = (w, Ok tt)).
  { unfold ingestGossipedEntriesLocked, mbind, get_eng. change (w_eng w) with e. by rewrite (so_gossip e Hs). }
  rewrite Hing. unfold mbind at 1, get_eng at 1. fold e. rewrite Clone_id. fold all.
  unfold mbind at 1, modify at 1. fold e. rewrite (so_skip e Hs), andb_true_r.
  destruct (length all =? 0)%nat eqn:Elen.
  { split; [|done]. pose proof (rd_solo _ (solo_sync e Hs)) as Hs'. destruct Hs'. by split. }
  destruct Hcase as [Hnil|[er Her]]; [by rewrite Hnil in Elen|].
  unfold mbind at 1, modify at 1. cbn [w_eng w_bus w_step]. rewrite rotations_skipped by apply (so_bodies _ Hs).
  unfold mbind at 1, modify at 1. cbn [w_eng w_bus w_step].
  destruct (mandates_policy all (syncKeyRotationStateLocked e)) as [pol ->].
  pose proof (rd_solo _ (ready_with_policy pol _ (solo_sync e Hs))) as Hs2. fold (solo_mid e pol) in *.
  unfold mbind at 1, get_eng at 1. cbn [w_eng].
  unfold or_abort at 1.
  assert (Hprep : ∀ wx rq, w_eng wx = solo_mid e pol →
    RunPreparePhase env clock patience (nextCycleLocked e) (Smt.Root (en_st e)) all false rq wx =
      (wx, Err (ErrText "VRF proof error: %w"))).
  { intros wx rq Hwx. unfold RunPreparePhase, mbind at 1, elect, mbind at 1, get_eng at 1.
    unfold mbind at 1, lift at 1. rewrite Hwx, (so_node _ Hs2), Her. done. }
  change (en_st (solo_mid e pol)) with (en_st e). rewrite Hprep by done.
  split; [by apply abort_solo|done].
Qed.

Lemma run_cycle_solo (w : World) :
  solo (w_eng w) → accepts 0 None (en_blocks (w_eng w)) → (Z.of_nat (length (en_blocks (w_eng w))) < 2 ^ 64)%Z →
  solo (w_eng (RunCycle env clock patience w)) ∧ accepts 0 None (en_blocks (w_eng (RunCycle env clock patience w))).
Proof.
  intros Hs Hacc Hlen. set (all := en_pendingEntries (w_eng w) ++ en_pending (w_eng w)).
  destruct (decide (all = [])) as [Hall|Hne].
  { destruct (idle_cycle_solo w Hs (or_introl Hall)) as (? & -> & _). done. }
  destruct (VRFProve u (makeAlpha (nextCycleLocked (w_eng w)) (Smt.Root (en_st (w_eng w))))) as [pf|er|] eqn:Ep;
    [| |by apply VRFProve_no_panic in Ep].
  - destruct (solo_step w pf Hs Hacc Hlen Hne Ep) as (w' & block & Hrun & Hs' & _ & _ & Ha & _).
    unfold RunCycle. by rewrite Hrun.
  - destruct (idle_cycle_solo w Hs) as (? & -> & _); [eauto|done].
Qed.
End solo.
