(* ===== verification/ApiTheorems.v ===== *)
(** * Properties of the engine's submission interface *)
From Stdlib Require Import SpecFloat.
From S2P Require Import Prelude Crypto Smt Errors Vrf Identity Chain Config Rotation Mandates Quorum Gossip.
From S2P Require Import State Engine EngineCycle EngineApi EngineFrame.

Section api.
Context `{Primitives, Cbor, Ristretto, Gonum, StateCbor} {bus : Type} `{GossipChannel bus}.
Context (env : nat → bus → bus) (clock : nat → Z).

Local Notation World := (World (bus := bus)).

(** The engine after a submission differs from the one before in its pool only. *)
Definition pool_only (e e' : Engine) : Prop := ∃ p, e' = with_pool p e.

Lemma with_pool_id e : with_pool (en_pool e) e = e.
Proof. by destruct e. Qed.

Lemma pool_only_refl e : pool_only e e.
Proof. exists (en_pool e). by rewrite with_pool_id. Qed.

Lemma pool_only_trans e1 e2 e3 : pool_only e1 e2 → pool_only e2 e3 → pool_only e1 e3.
Proof. intros [p ->] [q ->]. by exists q. Qed.

Lemma validateEntry_cases hash submitter label cfg :
  match validateEntry hash submitter label cfg with
  | Ok _ => IsZeroHash hash = false ∧ submitter ≠ zeros 16 ∧ (Z.of_nat (String.length label) <= MaxLabelLen cfg)%Z
  | Err er =>
      FromError er = Some ErrCodeInvalidHash ∧ IsZeroHash hash = true ∨
      FromError er = Some ErrCodeInvalidSubmitter ∧ submitter = zeros 16 ∨
      FromError er = Some ErrCodeLabelTooLong ∧ (MaxLabelLen cfg < Z.of_nat (String.length label))%Z
  | Panic => False
  end.
Proof.
  unfold validateEntry. destruct (IsZeroHash hash); simpl; [by left|].
  case_bool_decide; simpl; [by right; left|].
  destruct (Z.ltb_spec (MaxLabelLen cfg) (Z.of_nat (String.length label))); simpl; [by right; right|].
  done.
Qed.

Lemma validateEntry_Ok hash submitter label cfg : validateEntry hash submitter label cfg = Ok tt ↔
  IsZeroHash hash = false ∧ submitter ≠ zeros 16 ∧ (Z.of_nat (String.length label) <= MaxLabelLen cfg)%Z.
Proof.
  pose proof (validateEntry_cases hash submitter label cfg) as Hc.
  destruct (validateEntry hash submitter label cfg) as [[]|er|]; [done| |done]. split; [done|]. intros (Hz & Hs & Hl).
  destruct Hc as [[_ Hz']|[[_ ?]|[_ ?]]]; [congruence|done|lia].
Qed.

(** Whether the limiter, if there is one, lets the submitter pass at a time, and the limiter
    once it was asked. *)
Definition within_rate (t : Z) (lim : option SubmitterLimiter) (submitter : bytes) : bool :=
  match lim with Some sl => snd (Allow t sl submitter) | None => true end.

Definition charged (t : Z) (lim : option SubmitterLimiter) (submitter : bytes) : option SubmitterLimiter :=
  (fun sl => fst (Allow t sl submitter)) <$> lim.

(** The rate limiter's verdict is the limiter's, and only the limiter changes. *)
Lemma rate_limited_spec submitter (w : World) :
  ∃ w', rate_limited clock submitter w =
      (w', Ok (negb (within_rate (clock (w_step w)) (pl_rateLimiter (en_pool (w_eng w))) submitter))) ∧
    w_bus w' = w_bus w ∧
    pool_only (w_eng w) (w_eng w') ∧ en_pending (w_eng w') = en_pending (w_eng w) ∧
    en_pendingEntries (w_eng w') = en_pendingEntries (w_eng w) ∧
    pl_rateLimiter (en_pool (w_eng w')) = charged (clock (w_step w)) (pl_rateLimiter (en_pool (w_eng w))) submitter.
Proof.
  unfold rate_limited, mbind, get_eng, ret, within_rate, charged.
  destruct (pl_rateLimiter (en_pool (w_eng w))) as [sl|] eqn:El.
  - unfold now. cbn [w_eng w_bus w_step fmap option_fmap option_map].
    destruct (Allow (clock (w_step w)) sl submitter) as [sl' ok].
    unfold modify. eexists. split_and!; try done. by eexists.
  - eexists. split_and!; try done. apply pool_only_refl.
Qed.

Lemma push_pending_spec entry (w : World) :
  ∃ w', push_pending clock entry w = (w', Ok tt) ∧ w_bus w' = w_bus w ∧ pool_only (w_eng w) (w_eng w') ∧
    en_pending (w_eng w') = en_pending (w_eng w) ++ [entry] ∧
    en_pendingEntries (w_eng w') = en_pendingEntries (w_eng w) ∧
    pl_rateLimiter (en_pool (w_eng w')) = pl_rateLimiter (en_pool (w_eng w)).
Proof.
  unfold push_pending, mbind, now, modify. eexists. split_and!; try done. by eexists.
Qed.

Lemma validateRule_total fields entry : validateRule fields entry ≠ Panic.
Proof. induction fields as [|f fields IH]; simpl; [done|]. by destruct (entryHasField entry f). Qed.

Lemma validateRules_total rules entry : validateRules rules entry ≠ Panic.
Proof.
  induction rules as [|r rules IH]; simpl; [done|]. destruct (entryMatchesRule entry r); simpl; [|done].
  pose proof (validateRule_total (elems (r_RequiredFields r)) entry).
  by destruct (validateRule (elems (r_RequiredFields r)) entry).
Qed.

Lemma mandate_check_total e entry : validateEntryAgainstMandatesLocked e entry ≠ Panic.
Proof.
  unfold validateEntryAgainstMandatesLocked, ValidateEntryAgainstMandates.
  repeat case_match; try done. apply validateRules_total.
Qed.

(** What a submission of [entry] in the world [w] may result in: the entry passed every
    check, or the error is that of the first check it failed. *)
Definition enqueue_outcome (entry : ProvenanceEntry) (w w' : World) (r : outcome gerror unit) : Prop :=
  let e := w_eng w in
  let cfg := apiLimitsLocked e in
  let limiter := pl_rateLimiter (en_pool e) in
  let valid := validateEntry (e_Hash entry) (e_Submitter entry) (e_Label entry) cfg in
  let mandated := validateEntryAgainstMandatesLocked e entry in
  pool_only e (w_eng w') ∧ en_pendingEntries (w_eng w') = en_pendingEntries e ∧
  match r with
  | Ok _ =>
      en_stopped e = false ∧ IsZeroHash (e_Hash entry) = false ∧ e_Submitter entry ≠ zeros 16 ∧
      (Z.of_nat (String.length (e_Label entry)) <= MaxLabelLen cfg)%Z ∧ mandated = Ok tt ∧
      (Z.of_nat (length (en_pending e)) < MaxTotalPending cfg)%Z ∧
      en_pending (w_eng w') = en_pending e ++ [entry] ∧
      (if en_gossip e then ∃ b, w_bus w' = Publish entry b else w_bus w' = w_bus w) ∧
      within_rate (clock (w_step w)) limiter (e_Submitter entry) = true ∧
      pl_rateLimiter (en_pool (w_eng w')) = charged (clock (w_step w)) limiter (e_Submitter entry)
  | Err er =>
      en_pending (w_eng w') = en_pending e ∧ w_bus w' = w_bus w ∧
      (er = ErrEngineStopped ∧ en_stopped e = true ∨
       valid = Err er ∧ en_stopped e = false ∨
       mandated = Err er ∧ en_stopped e = false ∧ valid = Ok tt ∨
       er = ErrRateLimited ∧ en_stopped e = false ∧ valid = Ok tt ∧ mandated = Ok tt ∧
         ((MaxTotalPending cfg <= Z.of_nat (length (en_pending e)))%Z ∨
          within_rate (clock (w_step w)) limiter (e_Submitter entry) = false))
  | Panic => False
  end.

Lemma Enqueue_cases entry (w : World) :
  let '(w', r) := Enqueue env clock entry w in enqueue_outcome entry w w' r.
Proof.
  unfold enqueue_outcome. set (e := w_eng w). cbv zeta. unfold Enqueue. unfold mbind at 1, get_eng at 1. fold e.
  pose proof (pool_only_refl e) as Hrefl.
  destruct (en_stopped e) eqn:Est; [unfold throw; split_and!; auto 10|].
  unfold mbind at 1, lift at 1.
  pose proof (validateEntry_cases (e_Hash entry) (e_Submitter entry) (e_Label entry) (apiLimitsLocked e)) as Hval.
  destruct (validateEntry _ _ _ _) as [[]|er|] eqn:Ev; [|split_and!; auto 10|done].
  destruct Hval as (Hz & Hsub & Hlab). unfold mbind at 1, lift at 1.
  destruct (validateEntryAgainstMandatesLocked e entry) as [[]|er|] eqn:Em; [|split_and!; auto 10|by apply mandate_check_total in Em].
  destruct (Z.leb_spec (MaxTotalPending (apiLimitsLocked e)) (Z.of_nat (length (en_pending e)))) as [Hfull|Hroom].
  { unfold throw. split_and!; auto 10. }
  destruct (rate_limited_spec (e_Submitter entry) w) as (w1 & Hrl & Hb1 & P1 & Hp1 & Hpe1 & Hl1).
  unfold mbind at 1. rewrite Hrl. fold e in P1, Hp1, Hpe1, Hl1 |- *.
  destruct (within_rate _ _ _) eqn:Elim; cbn [negb].
  2:{ unfold throw. split_and!; try done. auto 10. }
  destruct (push_pending_spec entry w1) as (w2 & Hpush & Hb2 & P2 & Hp2 & Hpe2 & Hl2).
  unfold mbind at 1. rewrite Hpush. pose proof (pool_only_trans _ _ _ P1 P2) as P.
  assert (Hpend : en_pending (w_eng w2) = en_pending e ++ [entry]) by (by rewrite Hp2, Hp1).
  assert (Hent : en_pendingEntries (w_eng w2) = en_pendingEntries e) by (by rewrite Hpe2, Hpe1).
  assert (Hlim : pl_rateLimiter (en_pool (w_eng w2)) = charged (clock (w_step w)) (pl_rateLimiter (en_pool e)) (e_Submitter entry))
    by (by rewrite Hl2, Hl1).
  destruct (en_gossip e) eqn:Eg.
  - unfold bus_write, bus_call. cbn [w_eng w_bus]. split_and!; try done. by eexists.
  - unfold ret. split_and!; try done. by rewrite Hb2, Hb1.
Qed.

(** C21: Submitting an entry, on every branch. It is accepted only if the engine runs, the
    entry is well formed, it satisfies the mandate it names, the queue has room and the
    limiter lets its submitter pass; then it is queued once, last, published when there is
    gossip, and charged to the submitter. Every refusal is the error of the first check that
    fails, in this order, and leaves queue and bus alone. Nothing but the pool changes, and
    there is no panic. *)
Theorem enqueue_spec entry (w : World) :
  let '(w', r) := Enqueue env clock entry w in enqueue_outcome entry w w' r.
Proof. apply Enqueue_cases. Qed.
End api.
