(* ===== verification/SoloChain.v ===== *)
(** * Every chain of a single node

    All that can happen to a node built by [NewEngine] through its submission and
    configuration interface, in any order, and what its chain then looks like to a light
    client that was given nothing but the node's public key. Key rotations are left out: the
    engine goes on signing with its old key after one. *)
From Stdlib Require Import SpecFloat.
From S2P Require Import Prelude Crypto Toy Sha256 Smt Errors Vrf Identity IdentityTheorems Chain ToyCbor.
From S2P Require Import ChainTheorems Config Rotation Mandates Quorum QuorumTheorems LightClient.
From S2P Require Import LightTheorems Gossip State StateTheorems Engine EngineCycle EngineApi EngineFrame.
From S2P Require Import Demo EngineTheorems CycleTheorems SoloTheorems ApiTheorems.

(** A call on the engine. *)
Inductive solo_op :=
| DoEnqueue (entry : ProvenanceEntry)
| DoSubmit (hash submitter : bytes) (label : string)
| DoSubmitMandate (mandate : option MandateEntry)
| DoRecordMandate (mandate : option MandateEntry)
| DoLimits (cfg : APILimits)
| DoQuorum (q : QuorumConfig)
| DoStop
| DoCycle.

Section chain.
Context `{Primitives, Cbor, Ristretto, Gonum, StateCbor} `{!MldsaCorrect, !RistrettoLaws}
  {bus : Type} `{GossipChannel bus}.
Context (env : nat → bus → bus) (clock : nat → Z) (patience : nat → nat).

Local Notation World := (World (bus := bus)).

Definition on_engine (f : Engine → Engine) (w : World) : World :=
  {| w_eng := f (w_eng w); w_bus := w_bus w; w_step := w_step w |}.

Definition solo_do (w : World) (op : solo_op) : World :=
  match op with
  | DoEnqueue entry => fst (Enqueue env clock entry w)
  | DoSubmit hash submitter label => fst (Submit clock hash submitter label w)
  | DoSubmitMandate m => fst (SubmitMandate env clock m w)
  | DoRecordMandate m => fst (RecordMandateBody m w)
  | DoLimits cfg => on_engine (SetAPILimits cfg) w
  | DoQuorum q => on_engine (SetQuorumConfig q) w
  | DoStop => on_engine Stop w
  | DoCycle => RunCycle env clock patience w
  end.

Definition solo_run (ops : list solo_op) (w : World) : World := foldl solo_do w ops.

(** ** Calls that leave the chain alone *)

(** What a call other than a cycle may change: the pool, the mandates and the limits. *)
Record same_core (e e' : Engine) : Prop := {
  sc_node : en_node e' = en_node e;
  sc_cfg : en_cfg e' = en_cfg e;
  sc_gossip : en_gossip e' = en_gossip e;
  sc_peers : en_peers e' = en_peers e;
  sc_ledger : en_ledger e' = en_ledger e;
  sc_keys : en_keys e' = en_keys e;
  sc_timing : en_timing e' = en_timing e;
}.

#[local] Instance same_core_preorder : PreOrder same_core.
Proof. split; [by intros e|]. intros e1 e2 e3 [] []. split; congruence. Qed.

(** A computation whose every outcome keeps the core. *)
Definition core_kept {A} (m : M (bus := bus) A) : Prop := ∀ w, same_core (w_eng w) (w_eng (fst (m w))).

Lemma core_bind {A B} (m : M (bus := bus) A) (k : A → M (bus := bus) B) :
  core_kept m → (∀ a, core_kept (k a)) → core_kept (mbind m k).
Proof.
  intros Hm Hk w. specialize (Hm w). unfold mbind. destruct (m w) as [w1 [a|er|]]; [|done..].
  etrans; [exact Hm|apply Hk].
Qed.

Lemma core_const {A} (o : outcome gerror A) : core_kept (lift o).
Proof. by intros w. Qed.

Lemma core_get : core_kept (get_eng (bus := bus)).
Proof. by intros w. Qed.

Lemma core_now : core_kept (now clock).
Proof. by intros w. Qed.

Lemma core_modify f : (∀ e, same_core e (f e)) → core_kept (modify (bus := bus) f).
Proof. intros Hf w. apply Hf. Qed.

Lemma core_write f : core_kept (bus_write (bus := bus) env f).
Proof. by intros w. Qed.

#[local] Hint Resolve core_bind core_const core_get core_now core_modify core_write : core.

Ltac core_step :=
  match goal with
  | |- core_kept (mbind _ _) => apply core_bind; [|intros ?]
  | |- core_kept (match ?x with _ => _ end) => destruct x
  | |- core_kept (ret _) => apply (core_const (Ok _))
  | |- core_kept (throw _) => apply (core_const (Err _))
  | |- core_kept (modify _) => apply core_modify; done
  | |- core_kept _ => auto with core
  end.

Lemma rate_limited_core submitter : core_kept (rate_limited clock submitter).
Proof. unfold rate_limited. repeat core_step. Qed.

Lemma push_pending_core entry : core_kept (push_pending clock entry).
Proof. unfold push_pending. repeat core_step. Qed.

#[local] Hint Resolve rate_limited_core push_pending_core : core.

Lemma Enqueue_core entry : core_kept (Enqueue env clock entry).
Proof. unfold Enqueue. repeat core_step. Qed.

#[local] Hint Resolve Enqueue_core : core.

Lemma Submit_core hash submitter label : core_kept (Submit clock hash submitter label).
Proof. unfold Submit. repeat core_step. Qed.

Lemma put_mandate_core m e e' : put_mandate m e = Ok e' → same_core e e'.
Proof.
  unfold put_mandate. destruct (Put (po_resolver (en_policy e)) (Some m)); [|done..]. by intros [= <-].
Qed.

Lemma SubmitMandate_core m : core_kept (SubmitMandate env clock m).
Proof.
  destruct m as [m|]; [|by intros w]. intros w. unfold SubmitMandate. unfold mbind at 1, get_eng at 1.
  unfold mbind at 1, lift at 1. destruct (ValidateMandateAuthority _ _); [|done..].
  unfold mbind at 1, lift at 1. destruct (put_mandate m (w_eng w)) as [e'|er|] eqn:Ep; [|done..].
  unfold mbind at 1, set_eng, modify. etrans; [by eapply put_mandate_core|].
  refine (Enqueue_core _ {| w_eng := e'; w_bus := w_bus w; w_step := w_step w |}).
Qed.

Lemma RecordMandateBody_core m : core_kept (RecordMandateBody (bus := bus) m).
Proof. destruct m as [m|]; [|by intros w]. unfold RecordMandateBody. repeat core_step. Qed.

Lemma call_core op w : op ≠ DoCycle → same_core (w_eng w) (w_eng (solo_do w op)).
Proof.
  intros Hop. destruct op; simpl.
  - apply Enqueue_core.
  - apply Submit_core.
  - apply SubmitMandate_core.
  - apply RecordMandateBody_core.
  - unfold SetAPILimits. by case_match.
  - unfold SetQuorumConfig. by case_match.
  - done.
  - done.
Qed.

(** ** The chain *)

Context (u : UIDZeroSoulbound) (Huid : uid_wf u).
Context (Hroot_total : ∀ c n g l, is_Some (cbor_root_state c n g l)).

(** Each block convinces a client that holds the node's key and the block before. *)
Definition followed (blocks : list Block) : Prop :=
  ∀ i b, blocks !! i = Some b → VerifyBlock (Some b) (client_anchor u (take i blocks)) = Ok tt.

Lemma followed_snoc bs b :
  followed bs → VerifyBlock (Some b) (client_anchor u bs) = Ok tt → followed (bs ++ [b]).
Proof.
  intros Hf Hb i x Hx. apply lookup_app_Some in Hx as [Hx|[Hi Hx]].
  - rewrite take_app_le by (apply lookup_lt_Some in Hx; lia). by apply Hf.
  - apply list_lookup_singleton_Some in Hx as [Hi' <-]. replace i with (length bs) by lia.
    by rewrite take_app_length.
Qed.

Lemma NewEngine_solo node interval : n_UID node = u → solo u (NewEngine node interval).
Proof.
  intros Hn. split; try done.
  - eexists. split; [reflexivity|]. exact Hn.
  - simpl. by rewrite Hn.
  - exists {| ns_UID := u_RootID (n_UID node); ns_Status := fone; ns_Consecutive := 0; ns_JoinCycle := 0;
              ns_Dilithium3PK := zeros 1952; ns_VRFPK := zeros 32 |}. by rewrite <- Hn.
  - eexists. split; [reflexivity|]. vm_compute. reflexivity.
Qed.

Lemma solo_same_core e e' : same_core e e' → solo u e → solo u e'.
Proof.
  intros [Hn Hc Hg Hp Hl Hk _] [? ? ? Hv ? ? Hno ? ?]. unfold en_state in *.
  split; unfold en_state; rewrite ?Hn, ?Hc, ?Hg, ?Hp, ?Hl, ?Hk; done.
Qed.

(** A cycle of a solo node, whatever its outcome. *)
Lemma cycle_blocks (w : World) : solo u (w_eng w) →
  let w' := RunCycle env clock patience w in
  solo u (w_eng w') ∧
  (en_blocks (w_eng w') = en_blocks (w_eng w) ∨
   ∃ block, en_blocks (w_eng w') = en_blocks (w_eng w) ++ [block] ∧
     (accepts 0 None (en_blocks (w_eng w)) → (Z.of_nat (length (en_blocks (w_eng w))) < 2 ^ 64)%Z →
      VerifyBlock (Some block) (client_anchor u (en_blocks (w_eng w))) = Ok tt)).
Proof.
  intros Hs w'. set (all := en_pendingEntries (w_eng w) ++ en_pending (w_eng w)).
  pose proof (idle_cycle_solo env clock patience u w Hs) as Hidle.
  destruct (decide (all = [])) as [Hall|Hne].
  { destruct (Hidle (or_introl Hall)) as (? & ? & _). by split; [|left]. }
  destruct (VRFProve u (makeAlpha (nextCycleLocked (w_eng w)) (Smt.Root (en_st (w_eng w))))) as [pf|er|] eqn:Ep;
    [| |by apply VRFProve_no_panic in Ep].
  - destruct (cycle_solo env clock patience u Huid Hroot_total w pf Hs Hne Ep) as (w1 & pol & Hrun & Hs' & _ & Hb).
    unfold w', RunCycle. rewrite Hrun. split; [exact Hs'|]. right. eexists. split; [exact Hb|]. intros Hacc Hlen.
    destruct (solo_step env clock patience u Huid Hroot_total w pf Hs Hacc Hlen Hne Ep)
      as (w2 & block & Hrun2 & _ & Hb2 & Hv & _).
    rewrite Hrun in Hrun2. injection Hrun2 as <-. cbn [fst] in Hb.
    rewrite Hb2 in Hb. apply app_inv_head in Hb. injection Hb as <-. exact Hv.
  - destruct Hidle as (? & ? & _); [right; by eexists|]. by split; [|left].
Qed.

Record good (w : World) : Prop := {
  gd_solo : solo u (w_eng w);
  gd_chain : (Z.of_nat (length (en_blocks (w_eng w))) < 2 ^ 64)%Z →
    accepts 0 None (en_blocks (w_eng w)) ∧ followed (en_blocks (w_eng w));
}.

Lemma good_step op w : good w → good (solo_do w op).
Proof.
  intros [Hs Hc]. assert (op = DoCycle ∨ op ≠ DoCycle) as [->|Hop] by (destruct op; auto).
  - destruct (cycle_blocks w Hs) as [Hs' Hb]. split; [exact Hs'|]. cbn [solo_do]. intros Hlen.
    destruct Hb as [Hb|(block & Hb & Hv)]; rewrite Hb in Hlen |- *; [by apply Hc|].
    rewrite length_app in Hlen. simpl in Hlen.
    destruct Hc as [Ha Hf]; [lia|]. assert (Hv' := Hv Ha ltac:(lia)). split; [|by apply followed_snoc].
    apply (accepts_snoc _ _ _ _ _ Ha Hv'); unfold client_anchor; simpl; by destruct (last (en_blocks (w_eng w))).
  - pose proof (call_core op w Hop) as Hk. split; [by apply (solo_same_core _ _ Hk)|].
    unfold en_blocks. rewrite (sc_ledger _ _ Hk). exact Hc.
Qed.

Lemma good_run ops : ∀ w, good w → good (solo_run ops w).
Proof. induction ops as [|op ops IH]; intros w Hw; [done|]. apply IH. by apply good_step. Qed.

(** C2: The chain of a single node is always valid. After any sequence of submissions,
    mandates, configuration changes and cycles, whether they succeed or fail, every block
    of a node built by [NewEngine] is accepted by a light client that holds the node's
    public key and the block before it, from the first block on. *)
Theorem solo_chain_followed node interval ops (b : bus) n :
  n_UID node = u →
  let w := solo_run ops {| w_eng := NewEngine node interval; w_bus := b; w_step := n |} in
  (Z.of_nat (length (en_blocks (w_eng w))) < 2 ^ 64)%Z → followed (en_blocks (w_eng w)).
Proof.
  intros Hn w Hlen. apply (gd_chain w); [|done]. apply good_run. split; [by apply NewEngine_solo|].
  intros _. split; [constructor|]. by intros i x Hx.
Qed.
End chain.

(** ** Concrete instance *)

Lemma demo_uid_wf : uid_wf (demo_uid 7).
Proof.
  split; [reflexivity..|]. exists (to_residue 7). split; reflexivity.
Qed.

Lemma toy_root_total : ∀ c n g l, is_Some (cbor_root_state c n g l).
Proof. intros. by eexists. Qed.

Definition demo_ops : list solo_op :=
  [DoEnqueue (demo_submission 1); DoSubmit (key32 2) (1%Z :: zeros 15) "build"; DoCycle; DoCycle;
   DoEnqueue (demo_submission 0); DoSubmitMandate None; DoEnqueue (demo_submission 3); DoCycle; DoStop].

Definition demo_run : World (bus := MemoryBus) := solo_run demo_env demo_clock demo_patience demo_ops fresh_world.

Lemma demo_run_blocks : ∃ w, demo_run = w ∧ (length (en_blocks (w_eng w)) =? 2)%nat = true.
Proof. exists demo_run. split; [reflexivity|]. vm_compute. reflexivity. Qed.

(** Two blocks, although one submission and one mandate were refused. *)
Lemma solo_chain_followed_witness : ∃ w, demo_run = w ∧ length (en_blocks (w_eng w)) = 2 ∧
  followed (demo_uid 7) (en_blocks (w_eng w)).
Proof.
  destruct demo_run_blocks as (w & Hw & Hlen). apply Nat.eqb_eq in Hlen.
  exists w. split; [exact Hw|]. split; [exact Hlen|].
  pose proof (solo_chain_followed demo_env demo_clock demo_patience (demo_uid 7) demo_uid_wf toy_root_total
           demo_node second demo_ops NewMemoryBus 0 eq_refl) as Hf. cbv zeta in Hf.
  fold fresh_world in Hf. fold demo_run in Hf. rewrite Hw in Hf. apply Hf. rewrite Hlen. reflexivity.
Defined.

Lemma busy_world_ready : ∃ w, busy_world = w ∧
  (en_blocks (w_eng w) = []) ∧ (length (en_pendingEntries (w_eng w) ++ en_pending (w_eng w)) =? 2)%nat = true ∧
  match VRFProve (demo_uid 7) (makeAlpha (nextCycleLocked (w_eng w)) (Smt.Root (en_st (w_eng w)))) with
  | Ok _ => true | _ => false end = true.
Proof. exists busy_world. split_and!; [reflexivity|vm_compute; reflexivity..]. Qed.

Lemma busy_world_solo : solo (demo_uid 7) (w_eng busy_world).
Proof.
  unfold busy_world. cbv zeta.
  eapply solo_same_core; [apply (Enqueue_core demo_env demo_clock)|].
  eapply solo_same_core; [apply (Enqueue_core demo_env demo_clock)|]. by apply NewEngine_solo.
Qed.

Lemma solo_cycle_commits_witness : ∃ w w' block, busy_world = w ∧
  cycle_body demo_env demo_clock demo_patience w = (w', Ok tt) ∧ en_blocks (w_eng w') = [block] ∧
  VerifyBlock (Some block) (client_anchor (demo_uid 7) []) = Ok tt.
Proof.
  pose proof busy_world_solo as Hs. destruct busy_world_ready as (w & Hw & Hb & Hlen & Hvrf). rewrite Hw in Hs.
  destruct (VRFProve (demo_uid 7) (makeAlpha (nextCycleLocked (w_eng w)) (Smt.Root (en_st (w_eng w)))))
    as [pf|er|] eqn:Ep; [|discriminate Hvrf..].
  destruct (solo_cycle_commits demo_env demo_clock demo_patience (demo_uid 7) demo_uid_wf toy_root_total w pf Hs)
    as (w' & block & Hrun & _ & Hblocks & Hv & _).
  - rewrite Hb. constructor.
  - rewrite Hb. reflexivity.
  - intros Hnil. rewrite Hnil in Hlen. discriminate Hlen.
  - exact Ep.
  - rewrite Hb in Hblocks, Hv. exists w, w', block. split_and!; [exact Hw|exact Hrun|exact Hblocks|exact Hv].
Defined.
