(* ===== verification/CommitTheorems.v ===== *)
(** * Agreement of leader and validators in COMMIT

    Two engines on one bus: the leader's COMMIT phase publishes a final block, and the COMMIT
    phase of a validator that shares its peers and keys returns the same block. *)
From Stdlib Require Import SpecFloat.
From S2P Require Import Prelude Crypto Toy Smt Errors Vrf Identity IdentityTheorems Chain ToyCbor.
From S2P Require Import ChainTheorems Config Rotation Mandates Quorum QuorumTheorems Gossip State.
From S2P Require Import StateTheorems Engine EngineCycle EngineFrame Demo EngineTheorems SoloChain.

Section agreement.
Context `{Primitives, Cbor, Ristretto, Gonum, StateCbor, !MldsaCorrect}.

Local Notation World := (World (bus := MemoryBus)).

(** The other engines leave the final block of the cycle in place. *)
Definition keeps_final (env : nat → MemoryBus → MemoryBus) (cycle : Z) (final : Block) : Prop :=
  ∀ n b, GetFinal cycle b = Some final → GetFinal cycle (env n b) = Some final.

Lemma waitForFinal_ready env patience cycle final (w : World) :
  GetFinal cycle (w_bus w) = Some final → keeps_final env cycle final →
  ∃ w', waitForFinal env patience cycle w = (w', Ok (Some final)) ∧ w_eng w' = w_eng w ∧
        GetFinal cycle (w_bus w') = Some final.
Proof.
  intros Hf Hk. unfold waitForFinal, get_patience, mbind. cbn beta iota.
  assert (Hr : bus_read env (GetFinal cycle) w =
    ({| w_eng := w_eng w; w_bus := env (w_step w) (w_bus w); w_step := S (w_step w) |}, Ok (Some final))).
  { unfold bus_read, bus_call. by rewrite (Hk _ _ Hf). }
  destruct (patience (w_step w)); cbn [poll]; unfold mbind; rewrite Hr; eexists; (split; [reflexivity|]);
    (split; [done|]); by apply Hk.
Qed.

(** What a validator checks, and what it then returns. *)
Lemma RunCommitPhase_validator env patience cycle pr (w : World) final j p :
  let e := w_eng w in
  pr_QuorumReached pr = true → pr_LeaderID pr ≠ ID (n_UID (en_node e)) → en_gossip e = true →
  GetFinal cycle (w_bus w) = Some final → keeps_final env cycle final →
  verifyPrepareQuorum final (en_peers e) cycle (Some (ky_validator (en_keys e))) = true →
  list_find (fun p => ID (p_UID p) = pr_LeaderID pr) (en_peers e) = Some (j, p) →
  verify_overlap e (u_RootID (p_UID p)) (b_BlockHash final) (b_CommitSig final) cycle = true →
  ComputeBlockHash final = b_BlockHash final →
  ∃ w', RunCommitPhase env patience cycle pr w = (w', Ok final) ∧ w_eng w' = e.
Proof.
  intros e Hq Hl Hg Hf Hk Hv Hp Ho Hh. unfold RunCommitPhase. rewrite Hq. cbn [negb].
  unfold mbind at 1, get_eng. cbn beta iota. fold e. rewrite bool_decide_eq_false_2, Hg by done. cbn [negb].
  destruct (waitForFinal_ready env patience cycle final w Hf Hk) as (w' & Hw & He & _).
  unfold mbind. rewrite Hw. cbn beta iota. rewrite Hv, Hp, Ho, bool_decide_eq_true_2 by done. cbn [negb].
  by exists w'.
Qed.

Lemma prepare_bitmap_nonempty peers valid : peers ≠ [] → prepare_bitmap peers valid ≠ [].
Proof.
  intros Hne E. destruct (prepare_bitmap_spec valid peers) as [Hl _]. rewrite E in Hl. cbn [length] in Hl.
  destruct peers as [|p peers]; [done|]. cbn [length] in Hl.
  assert (0 < (S (length peers) + 7) / 8) by (apply Nat.div_str_pos; lia). lia.
Qed.

(** After the leader's COMMIT phase the bus holds its final block. *)
Lemma leader_final_published env patience cycle pr (w w' : World) final :
  let e := w_eng w in
  pr_LeaderID pr = ID (n_UID (en_node e)) → en_gossip e = true →
  b_Index (pr_Block pr) = cycle → pr_PrepareBitmap pr ≠ [] →
  RunCommitPhase env patience cycle pr w = (w', Ok final) →
  GetFinal cycle (w_bus w') = Some final ∧ w_eng w' = e.
Proof.
  intros e Hl Hg <- Hbm. unfold RunCommitPhase. destruct (pr_QuorumReached pr); [|done]. cbn [negb].
  unfold mbind at 1, get_eng. cbn beta iota. fold e. rewrite bool_decide_eq_true_2, Hg by done.
  unfold mbind, bus_write, bus_call, ret. intros [= <- <-]. split; [|done].
  cbn [w_bus GetFinal PublishFinal memory_bus]. unfold MemoryBus_GetFinal, MemoryBus_PublishFinal, store_clone.
  rewrite CloneBlock_Some by (cbn; congruence). cbn [mb_finals set_finals].
  change (b_Index (leader_final e pr)) with (b_Index (pr_Block pr)). rewrite lookup_insert_eq.
  apply CloneBlock_Some. cbn. congruence.
Qed.

(** C10: Leader and validators agree on the committed block. An elected leader whose PREPARE
    phase reached the quorum publishes its final block in COMMIT. On the same bus, whatever
    else the other engines do to it short of replacing that block, the COMMIT phase of any
    validator with the leader's peers and key history returns the very same block: it passes
    the quorum, signature and hash checks, and every lock-step between bitmap, payload and
    keys holds. *)
Theorem commit_agreement env clock patience cycle root pend rq (w w1 w2 : World) pr final
    env' patience' prv (wv : World) j p keys :
  let e := w_eng w in
  let u := n_UID (en_node e) in
  let ev := w_eng wv in
  (* the leader *)
  RunPreparePhase env clock patience cycle root pend true rq w = (w1, Ok pr) →
  RunCommitPhase env patience cycle pr w1 = (w2, Ok final) →
  pr_LeaderID pr = ID u → en_gossip e = true → uid_wf u →
  NoDup ((fun p => ID (p_UID p)) <$> en_peers e) →
  (if is_degraded_block (pr_Block pr) then 1 else QuorumRequired (length (en_peers e))) ≤ rq →
  ComputeBlockHash (pr_Block pr) = b_BlockHash (pr_Block pr) → b_Index (pr_Block pr) = cycle →
  (* the key that the rotation history gives it *)
  GetActivePublicKey (ky_validator (en_keys e)) (u_RootID u) cycle = Ok keys → u_PublicKey u ∈ keys →
  (* the validator *)
  en_gossip ev = true → en_peers ev = en_peers e → ky_validator (en_keys ev) = ky_validator (en_keys e) →
  list_find (fun p => ID (p_UID p) = ID u) (en_peers e) = Some (j, p) → u_RootID (p_UID p) = u_RootID u →
  pr_QuorumReached prv = true → pr_LeaderID prv = ID u → ID (n_UID (en_node ev)) ≠ ID u →
  (* the bus that both share *)
  keeps_final env' cycle final → GetFinal cycle (w_bus wv) = GetFinal cycle (w_bus w2) →
  ∃ wv', RunCommitPhase env' patience' cycle prv wv = (wv', Ok final) ∧ w_eng wv' = ev.
Proof.
  intros e u ev Hprep Hcom Hlead Hg [_ Hsec Hpub _] Hnd Hrq Hhash Hidx Hkeys Hin Hgv Hpeers Hky Hfind Hroot Hqv Hlv Hneq Hkeep Hbus.
  destruct (leader_final_accepted env clock patience cycle root pend rq w w1 w2 pr final Hprep Hcom Hlead Hnd Hrq Hhash)
    as (Hver & Hfh & _ & Hsig).
  destruct (RunPreparePhase_ok env clock patience _ _ _ _ _ _ _ _ Hprep) as ([t Ht] & _ & Hbm & _).
  assert (Hpe : en_peers e ≠ []) by (intros E; by rewrite E in Hfind).
  destruct (leader_final_published env patience cycle pr w1 w2 final) as [Hfin _]; try (rewrite Ht; done); try done.
  { rewrite Hbm. by apply prepare_bitmap_nonempty. }
  apply (RunCommitPhase_validator env' patience' cycle prv wv final j p).
  - done.
  - fold ev. rewrite Hlv. congruence.
  - done.
  - by rewrite Hbus.
  - done.
  - fold ev. by rewrite Hpeers, Hky.
  - fold ev. by rewrite Hpeers, Hlv.
  - fold ev. unfold verify_overlap, verifySignatureWithOverlap. rewrite Hky, Hroot, Hkeys, Hsig.
    apply existsb_exists. exists (u_PublicKey u). split; [by apply list_elem_of_In|].
    rewrite Hpub. by apply VerifyDilithium_Sign.
  - done.
Qed.
End agreement.

(** ** Concrete instance *)

(** The three validators' round reaches the quorum under an honest leader. *)
Definition trio_round_ok (p : World (bus := MemoryBus) * outcome gerror PrepareResult) : bool :=
  match p with
  | (w1, Ok pr) =>
      pr_QuorumReached pr && bool_decide (pr_LeaderID pr = ID (demo_uid 3)) &&
      negb (is_degraded_block (pr_Block pr)) && (b_Index (pr_Block pr) =? 0)%Z &&
      bool_decide (ComputeBlockHash (pr_Block pr) = b_BlockHash (pr_Block pr)) &&
      match RunCommitPhase (trio_env 3) demo_patience 0 pr w1 with (_, Ok _) => true | _ => false end
  | _ => false
  end.

Definition trio_validator (w : World (bus := MemoryBus)) : bool :=
  bool_decide (ID (n_UID (en_node (w_eng w))) = ID (demo_uid 3)) &&
  bool_decide (((fun p => ID (p_UID p)) <$> en_peers (w_eng w)) = ((fun p => ID (p_UID p)) <$> demo_peers)) &&
  bool_decide (NoDup ((fun p => ID (p_UID p)) <$> demo_peers)) &&
  (QuorumRequired (length (en_peers (w_eng w))) =? 2)%nat.

Lemma trio_round : ∃ w p, trio_proposed = w ∧ trio_prepared w = p ∧ trio_validator w && trio_round_ok p = true.
Proof.
  exists trio_proposed, (trio_prepared trio_proposed). split_and!; [reflexivity..|]. vm_compute. reflexivity.
Qed.

Lemma frame_fixed (w w' : World (bus := MemoryBus)) : frame w w' →
  en_node (w_eng w') = en_node (w_eng w) ∧ en_gossip (w_eng w') = en_gossip (w_eng w) ∧
  en_peers (w_eng w') = en_peers (w_eng w) ∧ en_keys (w_eng w') = en_keys (w_eng w).
Proof. by intros [t ->]. Qed.

Lemma trio_core : let e := w_eng trio_proposed in
  n_UID (en_node e) = demo_uid 3 ∧ en_gossip e = true ∧ en_peers e = demo_peers ∧
  ky_validator (en_keys e) = ky_validator (en_keys (trio_engine 1)).
Proof.
  assert (Hc : same_core (trio_engine 3) (w_eng (trio_world 3)))
    by exact (Enqueue_core (trio_env 3) demo_clock (demo_submission 1) (MkWorld (trio_engine 3) NewMemoryBus 0)).
  assert (Hf : frame (trio_world 3) trio_proposed)
    by exact (framed_RunPreparePhase (trio_env 3) demo_clock demo_patience 0 trio_root [demo_submission 1] false 2
                (trio_world 3)).
  destruct (frame_fixed _ _ Hf) as (En & Eg & Ep & Ek). destruct Hc as [Hn _ Hg Hp _ Hk].
  cbv zeta. rewrite En, Eg, Ep, Ek, Hn, Hg, Hp, Hk. split_and!; vm_compute; reflexivity.
Qed.

Lemma trio_uid_wf : uid_wf (demo_uid 3).
Proof. split; [reflexivity..|]. exists (to_residue 3). split; reflexivity. Qed.

(** Validator 1 next to validator 3, which wins cycle 0. *)
Lemma commit_agreement_witness : ∃ w w1 pr w2 final wv',
  trio_proposed = w ∧ trio_prepared w = (w1, Ok pr) ∧
  RunCommitPhase (trio_env 3) demo_patience 0 pr w1 = (w2, Ok final) ∧
  RunCommitPhase demo_env demo_patience 0 pr {| w_eng := trio_engine 1; w_bus := w_bus w2; w_step := 0 |} = (wv', Ok final).
Proof.
  pose proof trio_core as Hcore.
  destruct trio_round as (w & p & Hw & Hp & Hok). apply andb_true_iff in Hok as [Hv Hr]. rewrite Hw in Hcore.
  destruct Hcore as (Hnode & Hg & Hpe & Hky).
  destruct p as [w1 [pr|er|]]; [|discriminate Hr..].
  unfold trio_round_ok in Hr.
  destruct (RunCommitPhase (trio_env 3) demo_patience 0 pr w1) as [w2 [final|er|]] eqn:Ec;
    [|rewrite andb_false_r in Hr; discriminate Hr..].
  apply andb_true_iff in Hr as [Hr _].
  apply andb_true_iff in Hr as [[[[Hrq Hl]%andb_true_iff Hd]%andb_true_iff Hix]%andb_true_iff Hh].
  apply andb_true_iff in Hv as [[[Hn Hps]%andb_true_iff Hnd]%andb_true_iff Hq].
  apply bool_decide_eq_true in Hl, Hh, Hnd. apply negb_true_iff in Hd. apply Nat.eqb_eq in Hq. apply Z.eqb_eq in Hix.
  unfold trio_prepared in Hp. set (wv := {| w_eng := trio_engine 1; w_bus := w_bus w2; w_step := 0 |}).
  assert (Hcommit : ∃ wv', RunCommitPhase demo_env demo_patience 0 pr wv = (wv', Ok final) ∧ w_eng wv' = trio_engine 1).
  { apply (commit_agreement (trio_env 3) demo_clock demo_patience 0 trio_root [demo_submission 1] 2 w w1 w2 pr final
      demo_env demo_patience pr wv 2 (demo_peer 3) [u_PublicKey (demo_uid 3)]).
    all: rewrite ?Hnode, ?Hky, ?Hpe.
    - exact Hp.
    - exact Ec.
    - exact Hl.
    - exact Hg.
    - exact trio_uid_wf.
    - exact Hnd.
    - rewrite Hd, <- Hpe, Hq. apply le_n.
    - exact Hh.
    - exact Hix.
    - vm_compute. reflexivity.
    - by left.
    - reflexivity.
    - vm_compute. reflexivity.
    - reflexivity.
    - vm_compute. reflexivity.
    - reflexivity.
    - exact Hrq.
    - exact Hl.
    - vm_compute. discriminate.
    - by intros n b.
    - reflexivity. }
  destruct Hcommit as (wv' & Hc & _). exists w, w1, pr, w2, final, wv'.
  split; [exact Hw|]. split; [exact Hp|]. split; [exact Ec|exact Hc].
Defined.
