(* ===== verification/Typed.v ===== *)
(** * Field widths of the blocks of a chain

    The sizes that the block schema declares for byte-string fields, which Go's slices do not
    enforce, hold of every block that a single node commits, the legacy anchor apart. *)
From Stdlib Require Import SpecFloat.
From S2P Require Import Prelude Crypto Toy Sha256 Smt SmtSpec SmtRefine Errors Vrf Identity IdentityTheorems Chain ToyCbor.
From S2P Require Import ChainTheorems Config Rotation Mandates Quorum QuorumTheorems LightClient.
From S2P Require Import LightTheorems Gossip State StateTheorems Engine EngineCycle EngineApi EngineFrame.
From S2P Require Import Demo EngineTheorems CycleTheorems SoloTheorems ApiTheorems SoloChain.

(** ** The digests of a tree *)

Section tree.
Context `{Primitives, !Blake3Length}.

(** Every digest that a tree holds has the width of the hash. *)
Record tree_typed (t : SparseMerkleTree) : Prop := {
  tt_root : length (t_root t) = 32;
  tt_store : map_Forall (fun _ n => length (n_hash n) = 32) (t_store t);
}.

Definition store_typed (st : gmap bytes node) : Prop := map_Forall (fun _ n => length (n_hash n) = 32) st.

Lemma store_typed_leaf st k v : store_typed st → store_typed (<[leafHash k v := leaf_node k v]> st).
Proof. intros Hs. apply map_Forall_insert_2; [apply length_leafHash|done]. Qed.

Lemma store_inner_typed st l r : store_typed st →
  store_typed (fst (store_inner st l r)) ∧ length (snd (store_inner st l r)) = 32.
Proof. intros Hs. split; [apply map_Forall_insert_2; [apply length_parentHash|done]|apply length_parentHash]. Qed.

Lemma splitAndInsert_typed zeroes k1 h1 k2 h2 lvl : ∀ st, store_typed st → length h2 = 32 →
  store_typed (fst (splitAndInsert zeroes st k1 h1 k2 h2 lvl)) ∧
  length (snd (splitAndInsert zeroes st k1 h1 k2 h2 lvl)) = 32.
Proof.
  induction lvl as [|d IH]; intros st Hs Hh; cbn [splitAndInsert]; [done|].
  destruct (_ =? _)%Z; [|destruct (_ =? _)%Z; by apply store_inner_typed].
  destruct (splitAndInsert zeroes st k1 h1 k2 h2 d) as [st1 child] eqn:E.
  pose proof (IH st Hs Hh) as [Hs1 _]. rewrite E in Hs1. cbn [fst] in Hs1.
  destruct (_ =? _)%Z; by apply store_inner_typed.
Qed.

Lemma insertAt_typed zeroes key value fuel : ∀ st cur lvl st' root, store_typed st →
  insertAt fuel zeroes st cur key value lvl = Some (st', root) → store_typed st' ∧ length root = 32.
Proof.
  induction fuel as [|fuel IH]; intros st cur lvl st' root Hs; cbn [insertAt]; [done|].
  destruct (st !! cur) as [n|] eqn:En.
  2:{ intros [= <- <-]. split; [by apply store_typed_leaf|apply length_leafHash]. }
  destruct (n_leaf n).
  - case_decide; [intros [= <- <-]; split; [by apply store_typed_leaf|apply length_leafHash]|].
    destruct lvl as [|d]; [intros [= <- <-]; split; [done|by eapply Hs]|].
    intros [= Heq].
    destruct (splitAndInsert_typed zeroes (n_key n) (leafHash (n_key n) (n_value n)) key (leafHash key value) (S d)
                (<[leafHash key value := leaf_node key value]> st)) as [? ?];
      [by apply store_typed_leaf|apply length_leafHash|].
    cbn [splitAndInsert] in *. by rewrite Heq in *.
  - destruct (_ =? _)%Z.
    + destruct (insertAt fuel zeroes st (n_left n) key value (pred lvl)) as [[st1 new]|] eqn:E; [|done].
      cbn. intros [= <- <-]. apply IH in E as [Hs1 _]; [|done]. by apply store_inner_typed.
    + destruct (insertAt fuel zeroes st (n_right n) key value (pred lvl)) as [[st1 new]|] eqn:E; [|done].
      cbn. intros [= <- <-]. apply IH in E as [Hs1 _]; [|done]. by apply store_inner_typed.
Qed.

Lemma Insert_typed t key value t' : tree_typed t → Insert t key value = Some t' → tree_typed t'.
Proof.
  intros [Hr Hs]. unfold Insert. destruct (insertAt _ _ _ _ _ _ _) as [[st root]|] eqn:E; [|done].
  cbn. intros [= <-]. apply insertAt_typed in E as [? ?]; [|done]. by split.
Qed.

Lemma insert_entries_typed es : ∀ t, tree_typed t → tree_typed (insert_entries es t).
Proof.
  unfold insert_entries. induction es as [|x es IH]; intros t Ht; [done|]. cbn [foldl]. apply IH.
  destruct (Insert t _ _) as [t'|] eqn:E; [|done]. by eapply Insert_typed.
Qed.

Lemma New_typed depth : tree_typed (New depth).
Proof. split; [apply length_zeros|apply map_Forall_empty]. Qed.
End tree.

(** ** Blocks *)

(** The sizes that the block schema declares, with one bit per validator in the bitmap. The
    exception is the legacy anchor: the schema puts it at 32 bytes, and a block that the
    engine makes has none. *)
Record field_sizes (b : Block) : Prop := {
  ss_wf : block_wf b;
  ss_hash : length (b_BlockHash b) = 32;
  ss_version : b_ProtocolVersion b = 2%Z;
  ss_commit : length (b_CommitSig b) = Dilithium3SignatureSize;
  ss_sigs : Forall (fun s => length s = Dilithium3SignatureSize) (elems (b_PrepareSigs b));
  ss_bitmap : length (elems (b_PrepareSigsBitmap b)) = (length (b_Validators b) + 7) / 8;
  ss_legacy : b_LegacyAnchor b = [];
  ss_validators :
    Forall (fun v => length (v_ValidatorID v) = 16 ∧ length (v_Dilithium3PK v) = Dilithium3PublicKeySize) (b_Validators b);
}.

Section chain.
Context `{Primitives, Cbor, Ristretto, Gonum, StateCbor} `{!MldsaCorrect, !RistrettoLaws, !Blake3Length}
  {bus : Type} `{GossipChannel bus}.
Context (env : nat → bus → bus) (clock : nat → Z) (patience : nat → nat) (Hclock : ∀ n, i64_ok (clock n)).
Context (u : UIDZeroSoulbound) (Huid : uid_wf u).
Context (Hroot_total : ∀ c n g l, is_Some (cbor_root_state c n g l)).

Local Notation World := (World (bus := bus)).

Lemma prev_hash_typed e : Forall field_sizes (en_blocks e) → length (prev_hash e) = 32.
Proof.
  intros Hb. unfold prev_hash. destruct (last (en_blocks e)) as [b|] eqn:E; [|apply length_zeros].
  apply last_Some in E as [l E]. rewrite E in Hb. apply Forall_app in Hb as [_ [Hb _]%Forall_cons]. apply Hb.
Qed.

Lemma solo_final_sizes e cycle es n t : solo u e → u64_ok cycle → tree_typed t → Forall field_sizes (en_blocks e) →
  field_sizes (solo_final u e cycle es (clock n) t).
Proof.
  intros Hs Hc [Hr _] Hb. destruct (so_peers _ _ Hs) as (p & Hp & Hpu). destruct Huid as [Hroot Hsec Hpub _].
  assert (Hsig : ∀ m, length (SignDilithium (u_SecretKey u) m) = Dilithium3SignatureSize)
    by (intros m; by apply length_SignDilithium).
  assert (Hv : b_Validators (solo_final u e cycle es (clock n) t) = [peer_info u])
    by (cbn; by rewrite Hp; cbn; rewrite Hpu).
  split.
  - split; [done|by apply prev_hash_typed|done|done|apply Hclock].
  - apply length_sha256.
  - done.
  - apply Hsig.
  - constructor; [apply Hsig|done].
  - by rewrite Hv.
  - done.
  - rewrite Hv. constructor; [|done]. split; [done|]. cbn. rewrite Hpub. by apply mldsa_public_length.
Qed.

(** ** Runs *)

Record typed (e : Engine) : Prop := {
  ty_solo : solo u e;
  ty_tree : tree_typed (en_st e);
  ty_blocks : (Z.of_nat (length (en_blocks e)) < 2 ^ 64)%Z → Forall field_sizes (en_blocks e);
}.

Lemma typed_cycle (w : World) : typed (w_eng w) → typed (w_eng (RunCycle env clock patience w)).
Proof.
  intros [Hs Ht Hb]. pose proof (idle_cycle_solo env clock patience u w Hs) as Hidle.
  destruct (decide (en_pendingEntries (w_eng w) ++ en_pending (w_eng w) = [])) as [Hall|Hne].
  { destruct (Hidle (or_introl Hall)) as (Hs' & Hb' & Ht' & _). split; [done|by rewrite Ht'|by rewrite Hb']. }
  destruct (VRFProve u (makeAlpha (nextCycleLocked (w_eng w)) (Smt.Root (en_st (w_eng w))))) as [pf|er|] eqn:Ep;
    [| |by apply VRFProve_no_panic in Ep].
  2:{ destruct (Hidle (or_intror (ex_intro _ er eq_refl))) as (Hs' & Hb' & Ht' & _). split; [done|by rewrite Ht'|by rewrite Hb']. }
  destruct (cycle_solo env clock patience u Huid Hroot_total w pf Hs Hne Ep) as (w' & pol & Hrun & Hs' & Hst & Hbl).
  unfold RunCycle. rewrite Hrun. cbn [fst].
  assert (Ht2 : tree_typed (en_st (w_eng w'))) by (rewrite Hst; by do 2 apply insert_entries_typed).
  split; [done|done|]. rewrite Hbl, length_app. cbn [length]. intros Hlen.
  assert (Hb' : Forall field_sizes (en_blocks (w_eng w))) by (apply Hb; lia).
  apply Forall_app. split; [done|]. constructor; [|done].
  apply solo_final_sizes; [|unfold u64_ok, nextCycleLocked; lia|by rewrite <- Hst|exact Hb'].
  apply (rd_solo u). apply ready_with_st, ready_with_policy, solo_sync. exact Hs.
Qed.

Lemma typed_do op (w : World) : typed (w_eng w) → typed (w_eng (solo_do env clock patience w op)).
Proof.
  intros Ht. assert (op = DoCycle ∨ op ≠ DoCycle) as [->|Hop] by (destruct op; auto); [by apply typed_cycle|].
  pose proof (call_core env clock patience op w Hop) as Hk. destruct Ht as [Hs Htree Hb].
  split; [by apply (solo_same_core u _ _ Hk)| |]; unfold en_st, en_blocks; by rewrite (sc_ledger _ _ Hk).
Qed.

Lemma typed_run ops : ∀ w : World, typed (w_eng w) → typed (w_eng (solo_run env clock patience ops w)).
Proof. induction ops as [|op ops IH]; intros w Hw; [done|]. apply IH. by apply typed_do. Qed.

(** C25: Field widths hold along every chain of a single node. Slices in Go carry no length,
    yet after any sequence of submissions, mandates, configuration changes and cycles (no key
    rotations) on a node built by [NewEngine] each block-level field for which the block schema
    gives a size has it, all but one: 32-byte hashes, a 16-byte proposer, a commit signature
    of the ML-DSA-65 size. The one is the legacy anchor, which is empty in every block where
    the schema asks for 32 bytes. Besides, index and timestamp are in range, the PREPARE
    signatures and the keys have the ML-DSA-65 sizes, the bitmap has one bit per validator,
    and the state root has 32 bytes. *)
Theorem solo_chain_typed node interval ops (b : bus) n :
  n_UID node = u →
  let w := solo_run env clock patience ops {| w_eng := NewEngine node interval; w_bus := b; w_step := n |} in
  (Z.of_nat (length (en_blocks (w_eng w))) < 2 ^ 64)%Z →
  Forall field_sizes (en_blocks (w_eng w)) ∧ length (Smt.Root (en_st (w_eng w))) = 32.
Proof.
  intros Hn w Hlen. assert (Ht : typed (w_eng w)).
  { apply typed_run. split; [by apply NewEngine_solo|apply New_typed|constructor]. }
  split; [by apply (ty_blocks _ Ht)|apply (tt_root _ (ty_tree _ Ht))].
Qed.
End chain.

(** ** Concrete instance *)

Definition short_clock (n : nat) : Z := Z.of_nat (Nat.min n 1000).

Lemma short_clock_ok n : i64_ok (short_clock n).
Proof. unfold i64_ok, short_clock. lia. Qed.

Definition short_ops : list solo_op := [DoEnqueue (demo_submission 1); DoCycle; DoCycle].

Lemma short_run : ∃ w, solo_run demo_env short_clock demo_patience short_ops fresh_world = w ∧
  (length (en_blocks (w_eng w)) =? 1)%nat = true.
Proof. eexists. split; [reflexivity|]. vm_compute. reflexivity. Qed.

Lemma solo_chain_typed_witness : ∃ w, solo_run demo_env short_clock demo_patience short_ops fresh_world = w ∧
  length (en_blocks (w_eng w)) = 1 ∧ Forall field_sizes (en_blocks (w_eng w)).
Proof.
  destruct short_run as (w & Hw & Hlen). apply Nat.eqb_eq in Hlen. exists w. split; [exact Hw|]. split; [exact Hlen|].
  pose proof (solo_chain_typed demo_env short_clock demo_patience short_clock_ok (demo_uid 7) demo_uid_wf toy_root_total
           demo_node second short_ops NewMemoryBus 0 eq_refl) as Hf. cbv zeta in Hf.
  fold fresh_world in Hf. rewrite Hw in Hf. apply Hf. rewrite Hlen. reflexivity.
Defined.
