(* ===== verification/Receipts.v ===== *)
(** * Receipts of a chain

    What the engine records about an anchored hash (the anchor proof that every server hands
    out) agrees with the chain, and its Merkle path verifies against the state root of the
    block it names. *)
From Stdlib Require Import SpecFloat.
From S2P Require Import Prelude Crypto Toy Sha256 Smt SmtSpec SmtRefine SmtProofs SmtTheorems Errors Vrf Identity.
From S2P Require Import IdentityTheorems Chain ToyCbor ChainTheorems Config Rotation Mandates Quorum QuorumTheorems.
From S2P Require Import LightClient LightTheorems Gossip State StateTheorems Engine EngineCycle EngineApi EngineFrame.
From S2P Require Import Demo EngineTheorems CycleTheorems SoloTheorems ApiTheorems SoloChain Typed.

(** ** Siblings on the wire *)

(** The siblings in a concatenated path, 32 bytes each; an incomplete rest is dropped. *)
Fixpoint split_siblings (n : nat) (data : bytes) : list bytes :=
  match n with
  | O => []
  | S n => if (length data <? 32)%nat then [] else take 32 data :: split_siblings n (drop 32 data)
  end.

Definition siblings_of (data : bytes) : list bytes := split_siblings (length data) data.

Lemma split_siblings_concat proof : ∀ n, Forall (fun p => length p = 32) proof →
  length proof ≤ n → split_siblings n (concat proof) = proof.
Proof.
  induction proof as [|p proof IH]; intros n Hw Hn; [by destruct n|].
  apply Forall_cons in Hw as [Hp Hw]. destruct n as [|n]; [simpl in Hn; lia|].
  cbn [concat split_siblings]. rewrite length_app, Hp, (proj2 (Nat.ltb_ge _ _)) by lia.
  rewrite take_app_le, take_ge by lia. rewrite drop_app_ge, Hp, Nat.sub_diag, drop_0 by lia.
  f_equal. apply IH; [done|simpl in Hn; lia].
Qed.

Lemma siblings_of_concat proof : Forall (fun p => length p = 32) proof → siblings_of (concat proof) = proof.
Proof.
  intros Hw. apply split_siblings_concat; [done|]. induction Hw as [|p proof Hp Hw IH]; [done|].
  cbn [concat length]. rewrite length_app, Hp. lia.
Qed.

(** ** The tree of a chain *)

Section tree.
Context `{Primitives, !Blake3Length}.

Definition writes (es : list ProvenanceEntry) : list (bytes * bytes) :=
  (fun x => (copy_array 32 (e_Hash x), e_Hash x)) <$> es.

(** PREPARE runs twice in a cycle, so a block's entries are inserted twice. *)
Definition block_writes (b : Block) : list (bytes * bytes) :=
  writes (elems (b_Anchored b)) ++ writes (elems (b_Anchored b)).

Definition chain_writes (blocks : list Block) : list (bytes * bytes) := blocks ≫= block_writes.

Definition tree_of (blocks : list Block) : SparseMerkleTree :=
  foldl (fun t b => insert_entries (elems (b_Anchored b)) (insert_entries (elems (b_Anchored b)) t)) (New 256) blocks.

Lemma tree_of_snoc blocks b :
  tree_of (blocks ++ [b]) = insert_entries (elems (b_Anchored b)) (insert_entries (elems (b_Anchored b)) (tree_of blocks)).
Proof. unfold tree_of. by rewrite foldl_app. Qed.

Lemma BulkInsert_app l1 : ∀ t l2, BulkInsert t (l1 ++ l2) = t' ← BulkInsert t l1; BulkInsert t' l2.
Proof.
  induction l1 as [|[k v] l1 IH]; intros t l2; [done|]. cbn [app BulkInsert].
  destruct (Insert t k v) as [t'|]; [|done]. cbn. apply IH.
Qed.

Lemma BulkInsert_entries es : ∀ t t', BulkInsert t (writes es) = Some t' → insert_entries es t = t'.
Proof.
  unfold insert_entries. induction es as [|x es IH]; intros t t'; [by intros [= <-]|].
  change (writes (x :: es)) with ((copy_array 32 (e_Hash x), e_Hash x) :: writes es). cbn [BulkInsert foldl].
  destruct (Insert t (copy_array 32 (e_Hash x)) (e_Hash x)) as [t1|]; [|done]. apply IH.
Qed.

Lemma BulkInsert_chain blocks t : BulkInsert (New 256) (chain_writes blocks) = Some t → tree_of blocks = t.
Proof.
  revert t. induction blocks as [|b blocks IH] using rev_ind; intros t; [by intros [= <-]|].
  unfold chain_writes. rewrite bind_app, BulkInsert_app. fold (chain_writes blocks).
  destruct (BulkInsert (New 256) (chain_writes blocks)) as [t0|] eqn:E0; [|done]. cbn.
  rewrite app_nil_r. unfold block_writes. rewrite BulkInsert_app.
  destruct (BulkInsert t0 _) as [t1|] eqn:E1; [|done]. cbn. intros E2.
  rewrite tree_of_snoc, (IH t0 eq_refl). apply BulkInsert_entries in E1 as ->. by apply BulkInsert_entries.
Qed.

(** A run of writes is good when a longer one is. *)
Lemma run_msgs_app depth l1 : ∀ l2 T, run_msgs depth l1 T ⊆ run_msgs depth (l1 ++ l2) T.
Proof.
  induction l1 as [|[k v] l1 IH]; intros l2 T; [set_solver|]. cbn [run_msgs app]. pose proof (IH l2 (tinsert depth k v T)).
  set_solver.
Qed.

Lemma run_hash_ok_prefix depth l1 l2 : run_hash_ok depth (l1 ++ l2) [] → run_hash_ok depth l1 [].
Proof.
  intros [Hinj Hz Hm]. pose proof (run_msgs_app depth l1 l2 TEmpty) as Hsub.
  assert (Hin : ∀ m, m ∈ zero_msgs depth ++ run_msgs depth l1 TEmpty ++ [] →
                     m ∈ zero_msgs depth ++ run_msgs depth (l1 ++ l2) TEmpty ++ [])
    by (intros m; rewrite !elem_of_app; intros [?|[?|?]]; auto).
  split.
  - intros m1 m2 H1 H2. apply Hinj; by apply Hin.
  - intros m Hm1. by apply Hz, Hin.
  - intros i Hi. rewrite !elem_of_app. pose proof (Hm i Hi) as Hi'. rewrite !elem_of_app in Hi'.
    left. unfold zero_msgs. apply list_elem_of_fmap. exists i. split; [done|]. apply elem_of_seq. lia.
Qed.

(** The siblings that [Prove] returns have the width of a digest. *)
Lemma siblings_width lvl k T : Forall (fun p => length p = hashLen) (siblings lvl k T).
Proof.
  revert lvl. induction T as [|k0 v0|l IHl r IHr]; intros [|d]; cbn [siblings]; try done.
  destruct (goes_left k d); apply Forall_app; auto using Forall_cons, Forall_nil, length_thash.
Qed.

Lemma Prove_width depth kvs t k proof :
  run_ok depth kvs → run_hash_ok depth kvs [] → BulkInsert (New depth) kvs = Some t → Prove t k = Some proof →
  Forall (fun p => length p = hashLen) proof.
Proof.
  intros Hrun HD Ht Hp. destruct (BulkInsert_run _ depth kvs HD Hrun (run_msgs_covered depth kvs []))
    as (t' & Heq & Hd & Hrep & _). rewrite Ht in Heq. injection Heq as <-. subst depth. set (T := tinsert_all _ _ _) in *.
  pose proof (rep_current _ t T HD Hrep) as Hcur. destruct Hrep as [_ Hr Hst Hs Hc _ _].
  assert (HP : Prove t k = (fun _ => siblings (t_depth t) k T ++ []) <$> tlookup (t_depth t) k T)
    by (eapply prove_loop_rep; eauto).
  rewrite Hp in HP. destruct (tlookup _ _ _); [|done]. cbn in HP. injection HP as ->.
  rewrite app_nil_r. apply siblings_width.
Qed.

(** A path is empty only in a tree with a single key. *)
Lemma Prove_nonempty depth kvs t k k' v v' proof :
  run_ok depth kvs → run_hash_ok depth kvs [] → BulkInsert (New depth) kvs = Some t → Prove t k = Some proof →
  last_write kvs k = Some v → last_write kvs k' = Some v' → k ≠ k' → proof ≠ [].
Proof.
  intros Hrun HD Ht Hp Hk Hk' Hne. destruct (BulkInsert_run _ depth kvs HD Hrun (run_msgs_covered depth kvs []))
    as (t' & Heq & Hd & Hrep & Hl). rewrite Ht in Heq. injection Heq as <-. subst depth. set (T := tinsert_all _ _ _) in *.
  pose proof (rep_current _ t T HD Hrep) as Hcur. destruct Hrep as [_ Hr Hst Hs Hc _ _].
  assert (HP : Prove t k = (fun _ => siblings (t_depth t) k T ++ []) <$> tlookup (t_depth t) k T)
    by (eapply prove_loop_rep; eauto).
  rewrite Hp, (Hl k), Hk in HP. cbn in HP. injection HP as ->. rewrite app_nil_r.
  rewrite <- Hl in Hk, Hk'. destruct T as [|k0 v0|L R]; cbn [tlookup] in Hk, Hk'; [done| |].
  - repeat case_decide; simplify_eq.
  - destruct (t_depth t) as [|d]; [done|]. cbn [siblings]. destruct (goes_left k d); apply not_eq_sym, app_cons_not_nil.
Qed.

(** And it is empty in such a tree. *)
Lemma Prove_alone depth kvs t k proof :
  run_ok depth kvs → run_hash_ok depth kvs [] → BulkInsert (New depth) kvs = Some t → Prove t k = Some proof →
  (∀ k', is_Some (last_write kvs k') → k' = k) → proof = [].
Proof.
  intros Hrun HD Ht Hp Halone. destruct (BulkInsert_run _ depth kvs HD Hrun (run_msgs_covered depth kvs []))
    as (t' & Heq & Hd & Hrep & Hl). rewrite Ht in Heq. injection Heq as <-. subst depth. set (T := tinsert_all _ _ _) in *.
  pose proof (rep_current _ t T HD Hrep) as Hcur. destruct Hrep as [_ Hr Hst Hs Hc _ _].
  assert (HP : Prove t k = (fun _ => siblings (t_depth t) k T ++ []) <$> tlookup (t_depth t) k T)
    by (eapply prove_loop_rep; eauto).
  rewrite Hp in HP. destruct (tlookup _ _ _); [|done]. cbn in HP. injection HP as ->. rewrite app_nil_r.
  destruct T as [|k0 v0|L R]; [by destruct (t_depth t)..|]. destruct (t_depth t) as [|d]; [done|].
  destruct (canon_two_keys d L R Hc) as (k1 & k2 & Hne & H1' & H2'). exfalso. apply Hne.
  apply (tlookup_tkeys _ _ _ Hc) in H1', H2'. rewrite Hl in H1', H2'. by rewrite (Halone k1 H1'), (Halone k2 H2').
Qed.

Lemma tree_of_typed blocks : tree_typed (tree_of blocks).
Proof.
  induction blocks as [|b blocks IH] using rev_ind; [apply New_typed|].
  rewrite tree_of_snoc. by do 2 apply insert_entries_typed.
Qed.

Lemma prove_chain blocks h :
  run_ok 256 (chain_writes blocks) → run_hash_ok 256 (chain_writes blocks) [] →
  last_write (chain_writes blocks) h = Some h →
  Verify (New 256) h h (Root (tree_of blocks)) (siblings_of (concat (default [] (Prove (tree_of blocks) h)))) = true.
Proof.
  intros Hrun HD Hlast. pose proof (Prove_complete 256 (chain_writes blocks) h Hrun HD) as (t & Ht & Hp).
  destruct (BulkInsert_run _ 256 (chain_writes blocks) HD Hrun (run_msgs_covered 256 _ [])) as (t' & Heq & Hd & _).
  rewrite Ht in Heq. injection Heq as <-. rewrite (BulkInsert_chain _ _ Ht). rewrite Hlast in Hp. destruct Hp as (proof & Hprove & _ & Hv).
  pose proof (Prove_width _ _ _ _ _ Hrun HD Ht Hprove) as Hw.
  rewrite Hprove. cbn [default]. rewrite siblings_of_concat by done.
  unfold Verify in *. rewrite Hd in Hv. exact Hv.
Qed.
End tree.

(** ** Runs *)

Section runs.
Context `{Primitives, Cbor, Ristretto, Gonum, StateCbor} `{!MldsaCorrect, !RistrettoLaws, !Blake3Length}
  {bus : Type} `{GossipChannel bus}.
Context (env : nat → bus → bus) (clock : nat → Z) (patience : nat → nat).
Context (u : UIDZeroSoulbound) (Huid : uid_wf u).
Context (Hroot_total : ∀ c n g l, is_Some (cbor_root_state c n g l)).

Local Notation World := (World (bus := bus)).

(** The proof [p] is what the chain says about the entry [x] of its block [i]. *)
Record receipt_for (blocks : list Block) (h : bytes) (p : AnchorProof) (i : nat) (b : Block) (x : ProvenanceEntry) : Prop := {
  rf_block : blocks !! i = Some b;
  rf_entry : x ∈ elems (b_Anchored b);
  rf_hash : copy_array 32 (e_Hash x) = h;
  rf_found : ap_Found p = true;
  rf_index : ap_BlockIndex p = Z.of_nat i;
  rf_time : ap_BlockTime p = b_Timestamp b;
  rf_submitter : ap_Submitter p = e_Submitter x;
  rf_label : ap_Label p = e_Label x;
  rf_root : ap_StateRoot p = b_StateRoot b;
}.

Record receipted (e : Engine) : Prop := {
  rc_solo : solo u e;
  rc_tree : en_st e = tree_of (en_blocks e);
  rc_roots : ∀ i b, en_blocks e !! i = Some b → b_StateRoot b = Smt.Root (tree_of (take (S i) (en_blocks e)));
  rc_some : ∀ h p, en_anchored e !! h = Some p → ∃ i b x, receipt_for (en_blocks e) h p i b x ∧
    ap_SMTProof p = concat (default [] (Smt.Prove (tree_of (take (S i) (en_blocks e))) h));
  rc_all : ∀ b x, b ∈ en_blocks e → x ∈ elems (b_Anchored b) → is_Some (en_anchored e !! copy_array 32 (e_Hash x));
}.

Lemma receipted_same e e' : solo u e' → en_st e' = en_st e → en_blocks e' = en_blocks e → en_anchored e' = en_anchored e →
  receipted e → receipted e'.
Proof. intros Hs Ht Hb Ha [? ? ? ? ?]. split; rewrite ?Ht, ?Hb, ?Ha; done. Qed.

Lemma take_snoc_le {A} (l : list A) x i : i < length l → take (S i) (l ++ [x]) = take (S i) l.
Proof. intros Hi. by rewrite take_app_le by lia. Qed.

(** One block more. *)
Lemma receipted_commit e e0 e' block : receipted e → solo u e' → en_blocks e0 = en_blocks e → en_anchored e0 = en_anchored e →
  committed e0 e' block → en_st e' = tree_of (en_blocks e ++ [block]) → b_StateRoot block = Smt.Root (en_st e') →
  receipted e'.
Proof.
  intros [_ Ht Hr Hsome Hall] Hs' Hb0 Ha0 Hc Ht' Hroot. pose proof (cm_blocks _ _ _ Hc) as Hb. rewrite Hb0 in Hb.
  set (n := length (en_blocks e)) in *.
  assert (Htake : take (S n) (en_blocks e ++ [block]) = en_blocks e ++ [block])
    by (apply take_ge; rewrite length_app; cbn [length]; lia).
  split; [done|by rewrite Ht', Hb| | |].
  - intros i b Hi. rewrite Hb in Hi |- *. apply lookup_app_Some in Hi as [Hi|[Hi Hx]].
    + rewrite take_snoc_le by (by apply lookup_lt_Some in Hi). by apply Hr.
    + apply list_lookup_singleton_Some in Hx as [Hi' <-]. replace i with n by lia. by rewrite Htake, <- Ht'.
  - intros h p Hp. rewrite Hb.
    destruct (decide (h ∈ (copy_array 32 ∘ e_Hash <$> elems (b_Anchored block)))) as [Hin|Hnot].
    + apply list_elem_of_fmap in Hin as (x & -> & Hx). cbn [compose] in Hp.
      destruct (cm_anchored _ _ _ Hc x Hx) as (p' & Hp' & Hf & Hi & Hrt & Hsmt & Htm & y & Hy & Ey & Hsub & Hlab).
      cbn in Hp. rewrite Hp' in Hp. injection Hp as <-. exists n, block, y. split.
      * split; try done; [by apply lookup_snoc_Some; right|by rewrite Hi, Hb0|by rewrite Hrt].
      * by rewrite Htake, <- Ht', Hsmt.
    + rewrite (cm_older _ _ _ Hc h Hnot), Ha0 in Hp. destruct (Hsome h p Hp) as (i & b & x & [] & Hsmt).
      assert (Hi : i < n) by (by eapply lookup_lt_Some).
      exists i, b, x. split; [split; try done; by apply lookup_app_l_Some|]. by rewrite take_snoc_le.
  - intros b x Hbin Hx. rewrite Hb in Hbin.
    destruct (decide (copy_array 32 (e_Hash x) ∈ (copy_array 32 ∘ e_Hash <$> elems (b_Anchored block)))) as [Hin|Hnot].
    + apply list_elem_of_fmap in Hin as (y & Ey & Hy). cbn [compose] in Ey.
      destruct (cm_anchored _ _ _ Hc y Hy) as (p & Hp & _). exists p. by rewrite Ey.
    + rewrite (cm_older _ _ _ Hc _ Hnot), Ha0. apply elem_of_app in Hbin as [Hbin|Hbin]; [by apply (Hall b)|].
      apply list_elem_of_singleton in Hbin as ->. destruct Hnot. apply list_elem_of_fmap. by exists x.
Qed.

Lemma receipted_cycle (w : World) : receipted (w_eng w) → receipted (w_eng (RunCycle env clock patience w)).
Proof.
  intros Hr. pose proof (rc_solo _ Hr) as Hs. pose proof (idle_cycle_solo env clock patience u w Hs) as Hidle.
  destruct (decide (en_pendingEntries (w_eng w) ++ en_pending (w_eng w) = [])) as [Hall|Hne].
  { destruct (Hidle (or_introl Hall)) as (? & ? & ? & ?). by apply (receipted_same (w_eng w)). }
  destruct (VRFProve u (makeAlpha (nextCycleLocked (w_eng w)) (Smt.Root (en_st (w_eng w))))) as [pf|er|] eqn:Ep;
    [| |by apply VRFProve_no_panic in Ep].
  2:{ destruct (Hidle (or_intror (ex_intro _ er eq_refl))) as (? & ? & ? & ?). by apply (receipted_same (w_eng w)). }
  destruct (cycle_solo env clock patience u Huid Hroot_total w pf Hs Hne Ep) as (w' & pol & Hrun & Hs' & Hst & Hbl).
  unfold RunCycle. rewrite Hrun. cbn [fst]. set (block := solo_final _ _ _ _ _ _) in Hbl.
  destruct (cycle_body_atomic env clock patience w w' (Ok tt) Hrun) as (ing & Hcase); [done|]. cbv zeta in Hcase.
  assert (Hno : en_blocks (w_eng w') ≠ en_blocks (w_eng w)).
  { rewrite Hbl. intros E. apply (f_equal length) in E. rewrite length_app in E. cbn [length] in E. lia. }
  destruct Hcase as [[b Hc]|[Hrb|[_ Hrb]]]; [|by destruct Hno; apply (rb_blocks _ _ _ _ Hrb)..].
  pose proof (cm_blocks _ _ _ Hc) as Hb. change (en_blocks (with_pending _ _ (w_eng w))) with (en_blocks (w_eng w)) in Hb.
  rewrite Hbl in Hb. apply app_inj_2 in Hb as [_ [= <-]]; [|done].
  apply (receipted_commit (w_eng w) _ (w_eng w') block Hr Hs' (eq_refl : en_blocks (with_pending _ _ _) = _) eq_refl Hc).
  - rewrite tree_of_snoc, <- (rc_tree _ Hr). exact Hst.
  - rewrite Hst. reflexivity.
Qed.

Lemma receipted_run ops : ∀ w : World, receipted (w_eng w) → receipted (w_eng (solo_run env clock patience ops w)).
Proof.
  induction ops as [|op ops IH]; intros w Hw; [done|]. apply IH.
  assert (op = DoCycle ∨ op ≠ DoCycle) as [->|Hop] by (destruct op; auto); [by apply receipted_cycle|].
  pose proof (call_core env clock patience op w Hop) as Hk. apply (receipted_same (w_eng w)); [|..|done].
  - apply (solo_same_core u _ _ Hk), Hw.
  - unfold en_st. by rewrite (sc_ledger _ _ Hk).
  - unfold en_blocks. by rewrite (sc_ledger _ _ Hk).
  - unfold en_anchored. by rewrite (sc_ledger _ _ Hk).
Qed.

Lemma NewEngine_receipted node interval : n_UID node = u → receipted (NewEngine node interval).
Proof. intros Hn. split; [by apply NewEngine_solo|done|by intros i b|by intros h p|by intros b x ?%not_elem_of_nil]. Qed.

(** ** Validity *)

Definition hashes_ok (blocks : list Block) : Prop :=
  Forall (fun b => Forall (fun x => bytes_ok 32 (e_Hash x)) (elems (b_Anchored b))) blocks.

Lemma hashes_ok_elem blocks b x : hashes_ok blocks → b ∈ blocks → x ∈ elems (b_Anchored b) → bytes_ok 32 (e_Hash x).
Proof.
  unfold hashes_ok. intros Hok Hb Hx. rewrite Forall_forall in Hok. specialize (Hok b Hb).
  rewrite Forall_forall in Hok. by apply Hok.
Qed.

Lemma hashes_ok_copy blocks b x : hashes_ok blocks → b ∈ blocks → x ∈ elems (b_Anchored b) →
  copy_array 32 (e_Hash x) = e_Hash x.
Proof. intros Hok Hb Hx. apply copy_array_id, (hashes_ok_elem blocks b x Hok Hb Hx). Qed.

Lemma chain_writes_elem blocks kv : kv ∈ chain_writes blocks ↔
  ∃ b x, b ∈ blocks ∧ x ∈ elems (b_Anchored b) ∧ kv = (copy_array 32 (e_Hash x), e_Hash x).
Proof.
  unfold chain_writes. rewrite list_elem_of_bind. unfold block_writes, writes.
  setoid_rewrite elem_of_app. setoid_rewrite list_elem_of_fmap. split.
  - intros (b & [(x & -> & Hx)|(x & -> & Hx)] & Hb); eauto 6.
  - intros (b & x & Hb & Hx & ->). exists b. eauto 6.
Qed.

Lemma chain_writes_ok blocks : hashes_ok blocks → run_ok 256 (chain_writes blocks).
Proof.
  intros Hok. apply run_ok_256, Forall_forall. intros kv (b & x & Hb & Hx & ->)%chain_writes_elem.
  cbn [fst snd]. rewrite (hashes_ok_copy _ _ _ Hok Hb Hx). pose proof (hashes_ok_elem _ _ _ Hok Hb Hx) as Hk.
  split; [done|apply Hk].
Qed.

Lemma last_write_same kvs k : Forall (fun kv => kv.1 = kv.2) kvs → k ∈ kvs.*1 → last_write kvs k = Some k.
Proof.
  induction kvs as [|[k0 v0] kvs IH]; intros Hsame Hin; [by apply not_elem_of_nil in Hin|].
  apply Forall_cons in Hsame as [E Hsame]. cbn in E. subst v0. cbn [last_write].
  destruct (decide (k ∈ kvs.*1)) as [Hk|Hk]; [by rewrite IH|].
  apply elem_of_cons in Hin as [->|Hin]; [|done]. cbn [fst].
  destruct (last_write kvs k0) as [v|] eqn:El; [|by rewrite decide_True].
  destruct Hk. clear -El. induction kvs as [|[k1 v1] kvs IH]; [done|]. cbn [last_write] in El. cbn.
  destruct (last_write kvs k0); [right; by apply IH|]. case_decide; [subst; left|done].
Qed.

Lemma chain_last_write blocks b x : hashes_ok blocks → b ∈ blocks → x ∈ elems (b_Anchored b) →
  last_write (chain_writes blocks) (copy_array 32 (e_Hash x)) = Some (copy_array 32 (e_Hash x)).
Proof.
  intros Hok Hb Hx. apply last_write_same.
  - apply Forall_forall. intros kv (b' & x' & Hb' & Hx' & ->)%chain_writes_elem. cbn [fst snd].
    exact (hashes_ok_copy _ _ _ Hok Hb' Hx').
  - apply list_elem_of_fmap. eexists (_, _). split; [reflexivity|]. apply chain_writes_elem. eauto.
Qed.

(** C4: Every receipt is backed by the chain, and every anchored hash has one. After any
    sequence of submissions, mandates, configuration changes and cycles (no key rotations) on
    a single node, where the digests that its tree computes do not collide, what it answers about a hash names a block
    of its chain and an entry of that block with this hash, submitter and label; the state
    root in the answer is that of the block, and the Merkle path in it verifies, by the
    public [Verify], that root. A hash without an answer is in no block. *)
Theorem receipts_valid node interval ops (b : bus) n h :
  n_UID node = u →
  let w := solo_run env clock patience ops {| w_eng := NewEngine node interval; w_bus := b; w_step := n |} in
  let blocks := en_blocks (w_eng w) in
  hashes_ok blocks → run_hash_ok 256 (chain_writes blocks) [] →
  match LookupHash (w_eng w) h with
  | Some p => ∃ i b x, receipt_for blocks h p i b x ∧
      Verify (New 256) h h (ap_StateRoot p) (siblings_of (ap_SMTProof p)) = true
  | None => ∀ b x, b ∈ blocks → x ∈ elems (b_Anchored b) → e_Hash x ≠ h
  end.
Proof.
  intros Hn w blocks Hok HD.
  assert (Hr : receipted (w_eng w)) by (by apply receipted_run, NewEngine_receipted).
  unfold LookupHash. destruct (en_anchored (w_eng w) !! h) as [p|] eqn:Ep.
  - destruct (rc_some _ Hr h p Ep) as (i & b' & x & Hf & Hsmt). exists i, b', x. split; [done|].
    rewrite (rf_root _ _ _ _ _ _ Hf), (rc_roots _ Hr i b' (rf_block _ _ _ _ _ _ Hf)), Hsmt.
    pose proof (take_drop (S i) blocks) as Htd. unfold blocks in Htd at 3. fold blocks in Htd.
    assert (Hok' : hashes_ok (take (S i) blocks)) by (by apply Forall_take).
    apply prove_chain.
    + by apply chain_writes_ok.
    + unfold chain_writes in HD. rewrite <- Htd, bind_app in HD. by apply run_hash_ok_prefix in HD.
    + rewrite <- (rf_hash _ _ _ _ _ _ Hf). apply (chain_last_write _ b'); [done| |apply Hf].
      apply (list_elem_of_lookup_2 _ i). rewrite lookup_take_lt by lia. apply Hf.
  - intros b' x Hb Hx <-. destruct (rc_all _ Hr b' x Hb Hx) as [p Hp].
    rewrite (hashes_ok_copy _ _ _ Hok Hb Hx) in Hp. by rewrite Hp in Ep.
Qed.
End runs.

(** ** Concrete instance *)

Definition hashes_okb (blocks : list Block) : bool :=
  forallb (fun b => forallb (fun x => (length (e_Hash x) =? 32)%nat && forallb (fun z => (0 <=? z)%Z && (z <? 256)%Z) (e_Hash x))
                      (elems (b_Anchored b))) blocks.

Lemma hashes_okb_ok blocks : hashes_okb blocks = true → hashes_ok blocks.
Proof.
  unfold hashes_okb, hashes_ok. rewrite forallb_forall. intros Hall. apply Forall_forall. intros b Hb%list_elem_of_In%Hall.
  rewrite forallb_forall in Hb. apply Forall_forall. intros x Hx%list_elem_of_In%Hb.
  apply andb_true_iff in Hx as [Hlen%Nat.eqb_eq Hz]. split; [done|]. rewrite forallb_forall in Hz.
  apply Forall_forall. intros z Hin%list_elem_of_In%Hz. unfold byte_ok. lia.
Qed.

Definition receipt_ops : list solo_op := [DoEnqueue (demo_submission 1); DoCycle; DoCycle].

Definition receipt_run : World (bus := MemoryBus) := solo_run demo_env demo_clock demo_patience receipt_ops fresh_world.

Definition receipt_hash : bytes := e_Hash (demo_submission 1).

Lemma receipt_run_ok : ∃ w, receipt_run = w ∧ hashes_okb (en_blocks (w_eng w)) = true ∧
  run_hash_okb 256 (chain_writes (en_blocks (w_eng w))) [] = true ∧
  match LookupHash (w_eng w) receipt_hash with Some p => (ap_BlockIndex p =? 0)%Z | None => false end = true.
Proof. exists receipt_run. split_and!; [reflexivity|vm_compute; reflexivity..]. Qed.

Lemma receipts_valid_witness : ∃ w p, receipt_run = w ∧ LookupHash (w_eng w) receipt_hash = Some p ∧
  Verify (New 256) receipt_hash receipt_hash (ap_StateRoot p) (siblings_of (ap_SMTProof p)) = true.
Proof.
  destruct receipt_run_ok as (w & Hw & Hok & HD & Hf). exists w.
  pose proof (receipts_valid demo_env demo_clock demo_patience (demo_uid 7) demo_uid_wf toy_root_total
    demo_node second receipt_ops NewMemoryBus 0 receipt_hash eq_refl) as Hr. cbv zeta in Hr.
  fold fresh_world in Hr. fold receipt_run in Hr. rewrite Hw in Hr.
  specialize (Hr (hashes_okb_ok _ Hok) (run_hash_okb_ok _ _ _ HD)).
  destruct (LookupHash (w_eng w) receipt_hash) as [p|]; [|discriminate Hf].
  destruct Hr as (i & b & x & _ & Hv). exists p. split; [exact Hw|]. split; [reflexivity|exact Hv].
Defined.
