(* ===== verification/SubChainTheorems.v ===== *)
(** * Properties of sub-chains *)
From Stdlib Require Import SpecFloat.
From S2P Require Import Prelude Crypto Toy Smt SmtSpec SmtRefine SmtProofs SmtTheorems Errors Vrf Identity.
From S2P Require Import IdentityTheorems Chain ToyCbor ChainTheorems Config Rotation Mandates Quorum.
From S2P Require Import QuorumTheorems Gossip State StateTheorems Engine EngineCycle EngineApi SubChain Demo.

(** ** Histories of a manager *)

Section refinement.
Context `{Primitives, Cbor, Ristretto, Gonum, StateCbor} {bus : Type} `{GossipChannel bus}.
Context (env : nat → bus → bus) (clock : nat → Z).

(** A call on the manager of an engine; the times are those the call reads. *)
Inductive sub_op :=
| OpRegister (now_ : Z) (name : string) (owner : bytes)
| OpSubmit (id : bytes) (entry : ProvenanceEntry)
| OpAnchor (id : bytes) (now_ : Z).

(** The engine's part of the state changes between the calls in any way ([w]); its
    configuration does not. *)
Definition sub_do (m : SubChains) (call : World (bus := bus) * sub_op) : SubChains :=
  match call with
  | (w, OpRegister now_ name owner) => fst (Register (w_eng w) now_ name owner m)
  | (w, OpSubmit id entry) => fst (SubChain_Submit id entry m)
  | (w, OpAnchor id now_) => fst (fst (Anchor env clock id now_ m w))
  end.

Definition sub_run (calls : list (World (bus := bus) * sub_op)) : SubChains := foldl sub_do ∅ calls.

(** The specification: a sub-chain is the list of its anchored batches and what was
    submitted since. *)
Record sub_spec := {
  ss_name : string;
  ss_owner : bytes;
  ss_batches : list (list ProvenanceEntry);
  ss_pending : list ProvenanceEntry;
}.

Definition spec_do (s : gmap bytes sub_spec) (op : sub_op) : gmap bytes sub_spec :=
  match op with
  | OpRegister now_ name owner =>
      let id := subchain_id name owner now_ in
      match s !! id with
      | Some _ => s
      | None => <[id := {| ss_name := name; ss_owner := owner; ss_batches := []; ss_pending := [] |}]> s
      end
  | OpSubmit id entry =>
      alter (fun x => {| ss_name := ss_name x; ss_owner := ss_owner x; ss_batches := ss_batches x;
                         ss_pending := ss_pending x ++ [entry] |}) id s
  | OpAnchor id now_ =>
      alter (fun x => {| ss_name := ss_name x; ss_owner := ss_owner x;
                         ss_batches := ss_batches x ++ [ss_pending x]; ss_pending := [] |}) id s
  end.

Definition spec_run (ops : list sub_op) : gmap bytes sub_spec := foldl spec_do ∅ ops.

(** The tree after the given batches. *)
Definition tree_after (depth : nat) (batches : list (list ProvenanceEntry)) : SparseMerkleTree :=
  insert_entries (concat batches) (Smt.New depth).

Record anchor_rep (depth : nat) (id : bytes) (batches : list (list ProvenanceEntry)) (i : nat)
    (a : CrossChainAnchor) : Prop := {
  ar_id : ca_SubChainID a = id;
  ar_height : ca_SubChainHeight a = Z.of_nat i;
  ar_root : ca_StateRoot a = Smt.Root (tree_after depth (take (S i) batches));
  ar_prev : ca_PrevAnchorHash a = match i with
                                  | O => zeros 32
                                  | S _ => Smt.Root (tree_after depth (take i batches))
                                  end;
}.

Record sub_rep (depth : nat) (id : bytes) (s : sub_spec) (sc : subChain) : Prop := {
  sr_id : sd_ID (sc_desc sc) = id;
  sr_name : sd_Name (sc_desc sc) = ss_name s;
  sr_owner : sd_Owner (sc_desc sc) = ss_owner s;
  sr_genesis : sd_Genesis (sc_desc sc) = Smt.Root (Smt.New depth);
  sr_tree : sc_st sc = tree_after depth (ss_batches s);
  sr_pending : sc_pending sc = ss_pending s;
  sr_length : length (sc_anchors sc) = length (ss_batches s);
  sr_anchors : ∀ i a, sc_anchors sc !! i = Some a → anchor_rep depth id (ss_batches s) i a;
}.

Definition manager_rep (depth : nat) (s : gmap bytes sub_spec) (m : SubChains) : Prop :=
  map_relation (fun id x sc => sub_rep depth id x sc) (fun _ _ => False) (fun _ _ => False) s m.

Lemma tree_after_snoc depth batches b :
  tree_after depth (batches ++ [b]) = insert_entries b (tree_after depth batches).
Proof. unfold tree_after, insert_entries. by rewrite concat_app, foldl_app, concat_cons, app_nil_r. Qed.

Ltac anchor_cbn :=
  cbn [anchor_step fst sc_desc sc_st sc_anchors sc_pending ss_name ss_owner ss_batches ss_pending
       ca_SubChainID ca_StateRoot ca_PrevAnchorHash ca_SubChainHeight].

(** The locked part of [Anchor] moves the pending entries into a batch. *)
Lemma anchor_step_rep depth id now_ s sc :
  sub_rep depth id s sc →
  sub_rep depth id {| ss_name := ss_name s; ss_owner := ss_owner s;
                      ss_batches := ss_batches s ++ [ss_pending s]; ss_pending := [] |}
    (fst (anchor_step id now_ sc)).
Proof.
  intros [Hi Hn Ho Hg Ht Hp Hl Ha].
  split; anchor_cbn; try done.
  - by rewrite tree_after_snoc, Ht, Hp.
  - by rewrite !length_app, Hl.
  - intros i a Hlk. apply lookup_app_Some in Hlk as [Hlk|[Hlen Hlk]].
    + destruct (Ha i a Hlk) as [R1 R2 R3 R4]. pose proof (lookup_lt_Some _ _ _ Hlk) as Hlt. rewrite Hl in Hlt.
      split; [done|done|by rewrite take_app_le by lia|].
      destruct i; [done|]. by rewrite take_app_le by lia.
    + apply list_lookup_singleton_Some in Hlk as [Hi0 <-].
      assert (i = length (ss_batches s)) as -> by lia. split; anchor_cbn; [done|by rewrite Hl| |].
      * rewrite take_ge by (rewrite length_app; simpl; lia). by rewrite tree_after_snoc, Ht, Hp.
      * rewrite take_app_length. rewrite last_lookup. destruct (ss_batches s) as [|b bs] eqn:Eb.
        { simpl in Hl. apply nil_length_inv in Hl. by rewrite Hl. }
        destruct (lookup_lt_is_Some_2 (sc_anchors sc) (pred (length (sc_anchors sc)))) as [a Hlast];
          [simpl in Hl; lia|].
        rewrite Hlast. simpl length. destruct (Ha _ _ Hlast) as [_ _ Hr _]. rewrite Hr, Hl.
        by rewrite take_ge by (simpl; lia).
Qed.

Lemma manager_rep_lookup depth s m id : manager_rep depth s m →
  match s !! id, m !! id with
  | Some x, Some sc => sub_rep depth id x sc
  | None, None => True
  | _, _ => False
  end.
Proof. intros Hr. specialize (Hr id). destruct (s !! id), (m !! id); exact Hr. Qed.

Lemma manager_rep_insert depth s m id x sc :
  manager_rep depth s m → sub_rep depth id x sc → manager_rep depth (<[id := x]> s) (<[id := sc]> m).
Proof.
  intros Hm Hx id'. destruct (decide (id = id')) as [<-|Hne].
  - by rewrite !lookup_insert_eq.
  - rewrite !lookup_insert_ne by done. apply Hm.
Qed.

Lemma sub_do_rep depth s m (w : World (bus := bus)) op :
  SMTDepth (en_cfg (w_eng w)) = depth → manager_rep depth s m →
  manager_rep depth (spec_do s op) (sub_do m (w, op)).
Proof.
  intros Hd Hm. destruct op as [now_ name owner|id entry|id now_]; cbn [spec_do sub_do].
  - unfold Register. cbv zeta. pose proof (manager_rep_lookup _ _ _ (subchain_id name owner now_) Hm) as Hl.
    destruct (s !! _), (m !! _); try done. cbn [fst]. apply manager_rep_insert; [done|].
    split; cbn; rewrite ?Hd; done.
  - unfold SubChain_Submit. pose proof (manager_rep_lookup _ _ _ id Hm) as Hl.
    destruct (s !! id) as [x|] eqn:Es, (m !! id) as [sc|] eqn:Em; try done; cbn [fst].
    + rewrite (alter_alt_Some _ s id x) by done. apply manager_rep_insert; [done|].
      destruct Hl as [Hi Hn Ho Hg Ht Hp Hl Ha]. split; cbn; try done. by rewrite Hp.
    + by rewrite alter_id'.
  - unfold Anchor. pose proof (manager_rep_lookup _ _ _ id Hm) as Hl.
    destruct (s !! id) as [x|] eqn:Es, (m !! id) as [sc|] eqn:Em; try done; cbn [fst].
    + rewrite (alter_alt_Some _ s id x) by done. pose proof (anchor_step_rep depth id now_ x sc Hl) as Hst.
      destruct (anchor_step id now_ sc) as [sc' entry]. cbn [fst] in Hst.
      destruct (Enqueue env clock entry w) as [w' [[]|er|]]; cbn [fst]; by apply manager_rep_insert.
    + by rewrite alter_id'.
Qed.

Lemma sub_run_rep depth calls : ∀ s m,
  Forall (fun c => SMTDepth (en_cfg (w_eng c.1)) = depth) calls → manager_rep depth s m →
  manager_rep depth (foldl spec_do s calls.*2) (foldl sub_do m calls).
Proof.
  induction calls as [|[w op] calls IH]; intros s m Hd Hm; [done|].
  apply Forall_cons in Hd as [Hd Hds]. apply IH; [done|]. by apply sub_do_rep.
Qed.

(** C40: The manager refines its specification. After any sequence of registrations,
    submissions and anchorings, with the engine doing anything in between, exactly the
    specified sub-chains exist; each one's tree holds the anchored batches in order, its
    anchors are numbered from 0, each names the root after its batch and the root of the
    anchor before it, and its pending entries are those submitted since the last anchor. *)
Theorem subchain_refines depth calls :
  Forall (fun c => SMTDepth (en_cfg (w_eng c.1)) = depth) calls →
  manager_rep depth (spec_run calls.*2) (sub_run calls).
Proof. intros Hd. apply sub_run_rep; [done|]. intros id. by rewrite !lookup_empty. Qed.
End refinement.

(** ** Proofs across the two trees *)

Section proofs.
Context `{Primitives, Cbor, Ristretto, Gonum, StateCbor} `{!Blake3Length}.

(** Entries are inserted under their own hash. *)
Definition self_kvs (hashes : list bytes) : list (bytes * bytes) := (fun h => (h, h)) <$> hashes.

Lemma BulkInsert_insert_entries es : ∀ t t',
  Forall (fun x => length (e_Hash x) = 32) es →
  BulkInsert t (self_kvs (e_Hash <$> es)) = Some t' → insert_entries es t = t'.
Proof.
  induction es as [|x es IH]; intros t t' Hes Hb; [by injection Hb as <-|].
  apply Forall_cons in Hes as [Hx Hes].
  change (BulkInsert t ((e_Hash x, e_Hash x) :: self_kvs (e_Hash <$> es)) = Some t') in Hb. cbn [BulkInsert] in Hb.
  unfold insert_entries. cbn [foldl]. rewrite copy_array_id by done.
  destruct (Insert t (e_Hash x) (e_Hash x)) as [t1|]; [|done]. by apply IH.
Qed.

Lemma last_write_self hs h : last_write (self_kvs hs) h = if decide (h ∈ hs) then Some h else None.
Proof.
  induction hs as [|x hs IH]; [done|]. cbn. fold (self_kvs hs). rewrite IH.
  destruct (decide (h ∈ hs)), (decide (x = h)), (decide (h ∈ x :: hs)); set_solver.
Qed.

Definition hashes_ok (hs : list bytes) : Prop := Forall (bytes_ok 32) hs ∧ run_hash_ok 256 (self_kvs hs) [].

(** A tree of 32-byte hashes proves each of them to any verifier of the same depth. *)
Lemma self_proof hs t h : hashes_ok hs → BulkInsert (New 256) (self_kvs hs) = Some t → h ∈ hs →
  ∃ proof, Prove t h = Some proof ∧ Verify (New 256) h h (Root t) proof = true.
Proof.
  intros [Hok Hhash] Ht Hh. assert (Hrun : run_ok 256 (self_kvs hs)).
  { apply run_ok_256, Forall_fmap. eapply Forall_impl; [exact Hok|]. by intros k [? ?]. }
  destruct (BulkInsert_run _ 256 _ Hhash Hrun (run_msgs_covered 256 _ [])) as (t1 & E1 & Hd & _).
  destruct (Prove_complete 256 _ h Hrun Hhash) as (t' & Ht' & Hp).
  rewrite Ht in Ht', E1. injection Ht' as <-. injection E1 as <-. rewrite last_write_self, decide_True in Hp by done.
  destruct Hp as (proof & Hprove & _ & Hv). exists proof. split; [done|].
  unfold Verify in Hv |- *. by rewrite Hd in Hv.
Qed.

(** A committed anchor makes its entries provable. Once the digest of a sub-chain's
    root is in the engine's tree and block index, [Prove] returns a proof for every
    anchored entry of the sub-chain, and [VerifyCrossChain] accepts it against the engine's
    root, provided no digest on the way collides. *)
Theorem cross_chain_complete (id : bytes) (m : SubChains) (e : Engine) s sc x committed ap :
  m !! id = Some sc → sub_rep 256 id s sc → x ∈ concat (ss_batches s) →
  hashes_ok (e_Hash <$> concat (ss_batches s)) →
  hashes_ok committed → BulkInsert (New 256) (self_kvs committed) = Some (en_st e) →
  anchor_hash id (Root (sc_st sc)) ∈ committed →
  en_anchored e !! anchor_hash id (Root (sc_st sc)) = Some ap →
  ∃ proof, SubChain_Prove id (e_Hash x) m e = Ok proof ∧ cp_EntryHash proof = e_Hash x ∧
    cp_SubChainRoot proof = Root (sc_st sc) ∧ cp_AnchorBlock proof = ap_BlockIndex ap ∧
    VerifyCrossChain proof (GetStateRoot e) = true.
Proof.
  intros Hm Hs Hx Hsub Hpar Hst Ha Hap.
  assert (Hlen : Forall (fun y => length (e_Hash y) = 32) (concat (ss_batches s))).
  { destruct Hsub as [Hf _]. rewrite Forall_fmap in Hf. eapply Forall_impl; [exact Hf|]. by intros y [? _]. }
  assert (Hsubrun : run_ok 256 (self_kvs (e_Hash <$> concat (ss_batches s)))).
  { apply run_ok_256, Forall_fmap. eapply Forall_impl; [apply Hsub|]. by intros k [? ?]. }
  destruct (BulkInsert_run _ 256 _ (proj2 Hsub) Hsubrun (run_msgs_covered 256 _ [])) as (t & Ht & _).
  pose proof (BulkInsert_insert_entries _ _ _ Hlen Ht) as Htree.
  rewrite <- (sr_tree _ _ _ _ Hs : _ = insert_entries _ _) in Htree. subst t.
  destruct (self_proof _ _ (e_Hash x) Hsub Ht) as (sp & Hsp & Hsv); [by apply list_elem_of_fmap_2|].
  destruct (self_proof _ _ _ Hpar Hst Ha) as (pp & Hpp & Hpv).
  unfold SubChain_Prove. rewrite Hm, Hsp.
  destruct (sc_anchors sc) as [|a l] eqn:Ea.
  { pose proof (sr_length _ _ _ _ Hs) as Hl. rewrite Ea in Hl. symmetry in Hl. apply nil_length_inv in Hl.
    rewrite Hl in Hx. by apply elem_of_nil in Hx. }
  unfold ProveSMT. rewrite Hpp. cbn [outcome_bind]. unfold LookupHash. rewrite Hap.
  eexists. split; [reflexivity|]. split_and!; [done..|].
  unfold VerifyCrossChain. cbn [cp_EntryHash cp_SubChainRoot cp_SubChainProof cp_AnchorHash cp_ParentProof].
  rewrite Hsv. exact Hpv.
Qed.

(** A cross-chain proof does not tie the entry to the anchor. From any proof that
    [VerifyCrossChain] accepts, replacing the entry by an arbitrary hash, with a one-leaf
    tree as its sub-chain, gives a proof that is accepted too: nothing checks that the
    anchor is the digest of the sub-chain's root. *)
Theorem cross_chain_unbound proof parentRoot forged :
  VerifyCrossChain proof parentRoot = true →
  VerifyCrossChain {| cp_EntryHash := forged; cp_SubChainRoot := leafHash forged forged; cp_SubChainProof := [];
                      cp_AnchorHash := cp_AnchorHash proof; cp_AnchorBlock := cp_AnchorBlock proof;
                      cp_ParentRoot := cp_ParentRoot proof; cp_ParentProof := cp_ParentProof proof |}
    parentRoot = true.
Proof.
  unfold VerifyCrossChain. cbn [cp_EntryHash cp_SubChainRoot cp_SubChainProof cp_AnchorHash cp_ParentProof].
  destruct (Verify (New 256) (cp_EntryHash proof) _ _ _); [|done]. intros Hp.
  unfold Verify at 1. change (t_depth (New 256)) with 256. cbn [length]. change (256 <? 0) with false.
  cbn [verify_loop]. by rewrite bool_decide_eq_true_2.
Qed.
End proofs.

(** ** Concrete instance: a sub-chain with two entries, anchored and committed *)

Definition sub_owner : bytes := 9%Z :: zeros 15.

Definition sub_id : bytes := subchain_id "ci" sub_owner 10.

(** Two hashes that part at the top of the tree. *)
Definition sub_entry (k : Z) : ProvenanceEntry :=
  {| e_Hash := zeros 31 ++ [k]; e_Submitter := sub_owner; e_Timestamp := 50; e_Label := "build";
     e_Approver := None; e_Reference := None; e_Signature := []; e_MandateRef := None |}.

Definition sub_calls : list (World (bus := MemoryBus) * sub_op) :=
  (fun op => (fresh_world, op)) <$>
  [OpRegister 10 "ci" sub_owner; OpSubmit sub_id (sub_entry 1); OpSubmit (key32 77) (sub_entry 3);
   OpSubmit sub_id (sub_entry 128); OpAnchor sub_id 20].

Definition sub_manager : SubChains := sub_run demo_env demo_clock sub_calls.

Definition sub_world : World (bus := MemoryBus) :=
  let m := foldl (sub_do demo_env demo_clock) ∅ (take 4 sub_calls) in
  RunCycle demo_env demo_clock demo_patience (snd (fst (Anchor demo_env demo_clock sub_id 20 m fresh_world))).

Lemma sub_calls_depth : Forall (fun c => SMTDepth (en_cfg (w_eng c.1)) = 256) sub_calls.
Proof. repeat constructor. Qed.

Lemma subchain_refines_witness :
  manager_rep 256 (spec_run sub_calls.*2) sub_manager ∧ ss_batches <$> spec_run sub_calls.*2 !! sub_id =
    Some [[sub_entry 1; sub_entry 128]].
Proof.
  split; [exact (subchain_refines demo_env demo_clock 256 sub_calls sub_calls_depth)|].
  vm_compute. reflexivity.
Defined.

#[export] Instance SparseMerkleTree_eq_dec : EqDecision SparseMerkleTree.
Proof. solve_decision. Defined.

(** What the engine committed: the anchor, inserted by both PREPARE passes. *)
Definition sub_anchor (sc : subChain) : bytes := anchor_hash sub_id (Root (sc_st sc)).

Definition sub_ready (m : SubChains) (e : Engine) : bool :=
  match m !! sub_id with
  | None => false
  | Some sc =>
      let committed := [sub_anchor sc; sub_anchor sc] in
      bool_decide (BulkInsert (New 256) (self_kvs committed) = Some (en_st e)) &&
      bool_decide (Forall (fun h => length h = 32 ∧ Forall (fun b => 0 <= b < 256)%Z h) committed) &&
      run_hash_okb 256 (self_kvs committed) [] &&
      match en_anchored e !! sub_anchor sc with Some _ => true | None => false end
  end.

Lemma sub_ready_ok : ∃ m e, sub_manager = m ∧ w_eng sub_world = e ∧ sub_ready m e = true.
Proof. exists sub_manager, (w_eng sub_world). split_and!; [reflexivity..|]. vm_compute. reflexivity. Qed.

Lemma sub_entries_ok : hashes_ok (e_Hash <$> [sub_entry 1; sub_entry 128]).
Proof.
  split; [|apply run_hash_okb_ok; vm_compute; reflexivity].
  apply (bool_decide_unpack (Forall (fun h => length h = 32 ∧ Forall (fun b => 0 <= b < 256)%Z h) _)).
  vm_compute. exact I.
Qed.

Lemma sub_manager_spec m : sub_manager = m → ∃ s, spec_run sub_calls.*2 !! sub_id = Some s ∧
  ss_batches s = [[sub_entry 1; sub_entry 128]] ∧
  ∀ sc, m !! sub_id = Some sc → sub_rep 256 sub_id s sc.
Proof.
  intros <-. destruct (spec_run sub_calls.*2 !! sub_id) as [s|] eqn:Es; [|by vm_compute in Es].
  exists s. split; [done|]. split.
  - assert (Hb : ss_batches <$> spec_run sub_calls.*2 !! sub_id = Some [[sub_entry 1; sub_entry 128]])
      by (vm_compute; reflexivity).
    rewrite Es in Hb. by injection Hb.
  - intros sc Hsc. assert (Hm : manager_rep 256 (spec_run sub_calls.*2) sub_manager).
    { apply (sub_run_rep demo_env demo_clock 256 sub_calls ∅ ∅ sub_calls_depth). intros id. by rewrite !lookup_empty. }
    pose proof (manager_rep_lookup _ _ _ sub_id Hm) as Hl. by rewrite Es, Hsc in Hl.
Qed.

Lemma cross_chain_complete_witness : ∃ m e proof, sub_manager = m ∧ w_eng sub_world = e ∧
  SubChain_Prove sub_id (zeros 31 ++ [1%Z]) m e = Ok proof ∧ VerifyCrossChain proof (GetStateRoot e) = true.
Proof.
  destruct sub_ready_ok as (m & e & Hm & He & Hr). destruct (sub_manager_spec m Hm) as (s & _ & Hb & Hrep).
  unfold sub_ready in Hr. destruct (m !! sub_id) as [sc|] eqn:Esc; [|discriminate Hr]. cbv zeta in Hr.
  apply andb_true_iff in Hr as [[[Hst Hok]%andb_true_iff Hh]%andb_true_iff Hap].
  apply bool_decide_eq_true in Hst, Hok. apply run_hash_okb_ok in Hh.
  destruct (en_anchored e !! sub_anchor sc) as [ap|] eqn:Eap; [|discriminate Hap].
  destruct (cross_chain_complete sub_id m e s sc (sub_entry 1) [sub_anchor sc; sub_anchor sc] ap Esc
              (Hrep sc eq_refl)) as (proof & Hp & _ & _ & _ & Hv).
  - rewrite Hb. left.
  - rewrite Hb. exact sub_entries_ok.
  - split; [exact Hok|exact Hh].
  - exact Hst.
  - left.
  - exact Eap.
  - exists m, e, proof. split_and!; [exact Hm|exact He|exact Hp|exact Hv].
Defined.

Definition sub_proof_ok (p : outcome gerror CrossChainProof) (root : bytes) : bool :=
  match p with Ok proof => VerifyCrossChain proof root | _ => false end.

Lemma sub_proof_accepted : ∃ root p, Root (en_st (w_eng sub_world)) = root ∧
  SubChain_Prove sub_id (zeros 31 ++ [1%Z]) sub_manager (w_eng sub_world) = p ∧ sub_proof_ok p root = true.
Proof.
  exists (Root (en_st (w_eng sub_world))), (SubChain_Prove sub_id (zeros 31 ++ [1%Z]) sub_manager (w_eng sub_world)).
  split_and!; [reflexivity..|]. vm_compute. reflexivity.
Qed.

(** A proof for a hash that was never submitted anywhere. *)
Lemma cross_chain_unbound_witness : ∃ root proof, Root (en_st (w_eng sub_world)) = root ∧
  cp_EntryHash proof = key32 66 ∧ VerifyCrossChain proof root = true.
Proof.
  destruct sub_proof_accepted as (root & p & Hroot & _ & Hok). destruct p as [proof|er|]; [|discriminate Hok..].
  eexists root, _. split_and!; [exact Hroot| |exact (cross_chain_unbound proof root (key32 66) Hok)]. reflexivity.
Defined.
