(* ===== verification/StorageTheorems.v ===== *)
(** * Properties of persistence: what a restart brings back *)
From Stdlib Require Import SpecFloat.
From S2P Require Import Prelude Crypto Toy Smt SmtJson Errors Vrf Identity Chain Config Rotation Mandates Quorum.
From S2P Require Import IdentityTheorems ToyCbor QuorumTheorems Gossip State StateTheorems Engine EngineCycle.
From S2P Require Import EngineApi Demo EngineFrame EngineTheorems CycleTheorems Storage ToyStore.

(** ** Block keys sort like block indices *)

Lemma bytes_ltb_app a b x y : length a = length b →
  bytes_ltb (a ++ x) (b ++ y) = if decide (a = b) then bytes_ltb x y else bytes_ltb a b.
Proof.
  revert b. induction a as [|z a IH]; intros [|w b] Hl; try done. simpl in Hl |- *.
  destruct (decide (z = w)) as [->|Hne].
  - rewrite IH by lia. destruct (decide (a = b)) as [->|Hab]; [by rewrite decide_True|].
    rewrite decide_False by congruence. by rewrite ?decide_True.
  - by rewrite decide_False by congruence.
Qed.

Lemma be_bytes_S n z : be_bytes (S n) z = be_bytes n (z / 256) ++ [(z mod 256)%Z].
Proof. done. Qed.

Lemma be_bytes_ltb n : ∀ z1 z2, (0 <= z1 < z2)%Z → (z2 < 256 ^ Z.of_nat n)%Z →
  bytes_ltb (be_bytes n z1) (be_bytes n z2) = true.
Proof.
  induction n as [|n IH]; intros z1 z2 Hz Hlt; [simpl in Hlt; lia|].
  rewrite !be_bytes_S, bytes_ltb_app by by rewrite !length_be_bytes.
  assert (Hpow : (256 ^ Z.of_nat (S n) = 256 * 256 ^ Z.of_nat n)%Z) by (rewrite Nat2Z.inj_succ, Z.pow_succ_r; lia).
  assert (Hb : (z2 / 256 < 256 ^ Z.of_nat n)%Z) by (apply Z.div_lt_upper_bound; lia).
  pose proof (Z.div_mod z1 256). pose proof (Z.div_mod z2 256).
  pose proof (Z.mod_pos_bound z1 256). pose proof (Z.mod_pos_bound z2 256).
  assert (Hle : (z1 / 256 <= z2 / 256)%Z) by (apply Z.div_le_mono; lia).
  assert (Hp0 : (0 <= z1 / 256)%Z) by (apply Z.div_pos; lia).
  destruct (decide (z1 / 256 = z2 / 256)%Z) as [E|Hne].
  - rewrite E, decide_True by done. cbn [bytes_ltb]. rewrite decide_False by lia. apply Z.ltb_lt. lia.
  - assert (Hlt' : (z1 / 256 < z2 / 256)%Z) by lia. specialize (IH _ _ (conj Hp0 Hlt') Hb).
    rewrite decide_False; [exact IH|]. intros E. rewrite E, bytes_ltb_irrefl in IH. done.
Qed.

Lemma itob_ltb i j : i < j → (Z.of_nat j < 2 ^ 64)%Z → bytes_ltb (itob (Z.of_nat i)) (itob (Z.of_nat j)) = true.
Proof. intros Hij Hj. apply be_bytes_ltb; [lia|]. change (256 ^ Z.of_nat 8)%Z with (2 ^ 64)%Z. done. Qed.

(** A strictly sorted list is determined by its elements. *)
Lemma ltb_sorted_NoDup l : StronglySorted (fun x y => bytes_ltb x y = true) l → NoDup l.
Proof.
  induction 1 as [|x l Hs IH Hx]; [constructor|]. constructor; [|done].
  intros Hin. rewrite Forall_forall in Hx. specialize (Hx x Hin). by rewrite bytes_ltb_irrefl in Hx.
Qed.

Lemma ltb_sorted_unique l1 l2 :
  StronglySorted (fun x y => bytes_ltb x y = true) l1 → StronglySorted (fun x y => bytes_ltb x y = true) l2 →
  (∀ x, x ∈ l1 ↔ x ∈ l2) → l1 = l2.
Proof.
  intros S1 S2 Hel.
  apply (StronglySorted_unique_strong (fun x y => bytes_ltb x y = true)); [|done|done|].
  - intros x y _ _ Hxy Hyx. by rewrite (bytes_ltb_asym _ _ Hxy) in Hyx.
  - apply NoDup_Permutation; [by apply ltb_sorted_NoDup..|done].
Qed.

Lemma itob_keys_sorted n : (Z.of_nat n < 2 ^ 64)%Z → ∀ k,
  StronglySorted (fun x y => bytes_ltb x y = true) ((fun i => itob (Z.of_nat i)) <$> seq k (n - k)).
Proof.
  intros Hn k. remember (n - k) as m eqn:Em. revert k Em. induction m as [|m IH]; intros k Em; [constructor|].
  cbn [seq]. rewrite fmap_cons. constructor; [apply IH; lia|].
  apply Forall_fmap, Forall_forall. intros i Hi%elem_of_seq. apply itob_ltb; lia.
Qed.

Section restart.
Context `{Bolt} `{!BoltLaws}.
Context `{Json NetworkState, Json Block, Json (list ProvenanceEntry), Json AnchorProof, Json serializableTree}.
Context `{Primitives, Cbor, Ristretto, Gonum, StateCbor}.

(** The engine's keys have 4 to 32 bytes; a write of such a key goes through. *)
Context (writes_succeed : ∀ b k v d, 0 < length k ≤ 32 → is_Some (db_put b k v d)).

(** A value that encoding/json returns unchanged. *)
Definition survives {A} `{Json A} (x : A) : Prop :=
  ∃ data, json_marshal x = Some data ∧ json_unmarshal data = (x, true).

(** The store holds a value under a key. *)
Definition holds {A} `{Json A} (d : db) (b : string) (k : bytes) (x : A) : Prop :=
  ∃ data, db_get d b k = Some data ∧ json_unmarshal data = (x, true).

Lemma put_json_spec {A} `{Json A} b k (x : A) d : survives x → 0 < length k ≤ 32 →
  let d' := fst (put_json b k x d) in
  holds d' b k x ∧ ∀ b' k', b' ≠ b ∨ k' ≠ k → db_get d' b' k' = db_get d b' k'.
Proof.
  intros (data & Hm & Hu) Hk. unfold put_json, put. rewrite Hm.
  destruct (writes_succeed b k data d Hk) as [d' Hd]. rewrite Hd. cbn [fst]. split.
  - exists data. split; [|done]. rewrite (get_put _ _ _ _ _ Hd). by rewrite decide_True.
  - intros b' k' Hne. rewrite (get_put _ _ _ _ _ Hd). rewrite decide_False; [done|]. naive_solver.
Qed.

Lemma holds_eq {A} `{Json A} d d' b k (x : A) : db_get d' b k = db_get d b k → holds d b k x → holds d' b k x.
Proof. unfold holds. by intros ->. Qed.

Lemma save_all_spec {A B} `{Json A} b (key : B → bytes) (val : B → A) l : ∀ d,
  NoDup (key <$> l) → Forall (fun x => survives (val x) ∧ 0 < length (key x) ≤ 32) l →
  let d' := foldl (fun d x => fst (put_json b (key x) (val x) d)) d l in
  Forall (fun x => holds d' b (key x) (val x)) l ∧
  ∀ b' k', b' ≠ b ∨ k' ∉ key <$> l → db_get d' b' k' = db_get d b' k'.
Proof.
  induction l as [|x l IH]; intros d Hnd Hl; [done|]. cbn [foldl].
  rewrite fmap_cons in Hnd. apply NoDup_cons in Hnd as [Hx Hnd]. apply Forall_cons in Hl as [[Hs Hk] Hl].
  destruct (put_json_spec b (key x) (val x) d Hs Hk) as [Hh Hsame].
  destruct (IH (fst (put_json b (key x) (val x) d)) Hnd Hl) as [Hall Hsame']. split.
  - apply Forall_cons. split; [|done]. eapply holds_eq; [|exact Hh]. apply Hsame'. by right.
  - intros b' k' Hne. rewrite Hsame', Hsame; [done|set_solver..].
Qed.

(** ** The store mirrors an engine *)

Record stored (e : Engine) (d : db) : Prop := {
  sd_state : holds d bucketState current (en_state e);
  sd_pending : holds d bucketPending current (en_pending e);
  sd_tree : holds d bucketSMT (string_bytes "tree") (MarshalJSON (en_st e));
  sd_anchored h p : en_anchored e !! h = Some p → holds d bucketAnchored h p;
  sd_anchored_only k v : db_get d bucketAnchored k = Some v → is_Some (en_anchored e !! k);
  sd_blocks i b : en_blocks e !! i = Some b → holds d bucketBlocks (itob (Z.of_nat i)) b;
  sd_blocks_only k v : db_get d bucketBlocks k = Some v → ∃ i, i < length (en_blocks e) ∧ k = itob (Z.of_nat i);
}.

(** An engine whose data encoding/json and the store's keys can represent. *)
Record storable (e : Engine) : Prop := {
  sb_state : survives (en_state e);
  sb_pending : survives (en_pending e);
  sb_tree : survives (MarshalJSON (en_st e));
  sb_store k n : t_store (en_st e) !! k = Some n → bytes_ok hashLen k;
  sb_anchored h p : en_anchored e !! h = Some p → survives p ∧ length h = 32;
  sb_blocks i b : en_blocks e !! i = Some b → survives b ∧ b_Index b = Z.of_nat i;
  sb_length : (Z.of_nat (length (en_blocks e)) < 2 ^ 64)%Z;
}.

(** What was stored before belongs to a prefix of the engine's history. *)
Record older (d : db) (e : Engine) : Prop := {
  od_anchored k v : db_get d bucketAnchored k = Some v → is_Some (en_anchored e !! k);
  od_blocks k v : db_get d bucketBlocks k = Some v → ∃ i, i < length (en_blocks e) ∧ k = itob (Z.of_nat i);
}.

Lemma itob_inj i j : (Z.of_nat i < 2 ^ 64)%Z → (Z.of_nat j < 2 ^ 64)%Z →
  itob (Z.of_nat i) = itob (Z.of_nat j) → i = j.
Proof.
  intros Hi Hj Heq. destruct (Nat.lt_trichotomy i j) as [Hlt|[->|Hlt]]; [|done|];
    pose proof (itob_ltb _ _ Hlt ltac:(done)) as Hl; rewrite Heq, bytes_ltb_irrefl in Hl; done.
Qed.

Lemma block_keys e : storable e → (fun b => itob (b_Index b)) <$> en_blocks e =
  (fun i => itob (Z.of_nat i)) <$> seq 0 (length (en_blocks e)).
Proof.
  intros Hs. apply list_eq_same_length with (n := length (en_blocks e)); [by rewrite !length_fmap, ?length_seq..|].
  intros i x y Hi Hx Hy. rewrite list_lookup_fmap in Hx. rewrite list_lookup_fmap in Hy. rewrite lookup_seq_lt in Hy by done. simpl in Hy.
  injection Hy as <-. destruct (en_blocks e !! i) as [b|] eqn:Eb; [|done]. injection Hx as <-.
  by rewrite (proj2 (sb_blocks e Hs i b Eb)).
Qed.

Lemma persist_stored order e d :
  storable e → order ≡ₚ map_to_list (en_anchored e) → older d e → stored e (persist order e d).
Proof.
  intros Hs Hord Hold. unfold persist, SaveState, SavePending, SaveSMT, SaveAnchored, SaveBlock.
  set (d1 := fst (put_json bucketState _ _ d)). set (d2 := fst (put_json bucketPending _ _ d1)).
  set (d3 := fst (put_json bucketSMT _ _ d2)). set (d4 := foldl _ d3 order).
  destruct (put_json_spec bucketState current (en_state e) d (sb_state e Hs)) as [S1 F1]; [vm_compute; lia|].
  destruct (put_json_spec bucketPending current (en_pending e) d1 (sb_pending e Hs)) as [S2 F2]; [vm_compute; lia|].
  destruct (put_json_spec bucketSMT (string_bytes "tree") _ d2 (sb_tree e Hs)) as [S3 F3]; [vm_compute; lia|].
  destruct (save_all_spec bucketAnchored fst snd order d3) as [S4 F4].
  { rewrite Hord. apply NoDup_fst_map_to_list. }
  { rewrite Hord. apply Forall_forall. intros [h p] Hp%elem_of_map_to_list.
    destruct (sb_anchored e Hs h p Hp) as [? Hl]. simpl. rewrite Hl. split; [done|lia]. }
  destruct (save_all_spec bucketBlocks (fun b => itob (b_Index b)) id (en_blocks e) d4) as [S5 F5].
  { rewrite (block_keys e Hs). apply ltb_sorted_NoDup.
    pose proof (itob_keys_sorted _ (sb_length e Hs) 0) as Hk. by rewrite Nat.sub_0_r in Hk. }
  { apply Forall_forall. intros b [i Hb]%list_elem_of_lookup. split; [apply (sb_blocks e Hs i b Hb)|].
    unfold itob. rewrite length_be_bytes. lia. }
  fold d1 in S1, F1. fold d2 in S2, F2. fold d3 in S3, F3. fold d4 in S4, F4.
  set (d5 := foldl _ d4 (en_blocks e)) in S5, F5 |- *.
  assert (Hord' : ∀ h p, en_anchored e !! h = Some p ↔ (h, p) ∈ order).
  { intros h p. rewrite Hord. by rewrite elem_of_map_to_list. }
  split.
  - apply (holds_eq d1); [|done]. rewrite F5, F4, F3, F2 by by left. done.
  - apply (holds_eq d2); [|done]. rewrite F5, F4, F3 by by left. done.
  - apply (holds_eq d3); [|done]. rewrite F5, F4 by by left. done.
  - intros h p Hp%Hord'. apply (holds_eq d4); [by rewrite F5 by by left|].
    rewrite Forall_forall in S4. exact (S4 (h, p) Hp).
  - intros k v Hk. rewrite F5 in Hk by by left. destruct (decide (k ∈ order.*1)) as [Hin|Hni].
    + apply list_elem_of_fmap in Hin as ([h p] & -> & Hp%Hord'). simpl. eauto.
    + rewrite F4 in Hk by by right. rewrite F3, F2, F1 in Hk by by left. by eapply od_anchored.
  - intros i b Hb. rewrite Forall_forall in S5. rewrite <- (proj2 (sb_blocks e Hs i b Hb)).
    apply (S5 b). by eapply list_elem_of_lookup_2.
  - intros k v Hk. destruct (decide (k ∈ (fun b => itob (b_Index b)) <$> en_blocks e)) as [Hin|Hni].
    + rewrite (block_keys e Hs) in Hin. apply list_elem_of_fmap in Hin as (i & -> & Hi%elem_of_seq).
      exists i. split; [lia|done].
    + rewrite F5 in Hk by by right. rewrite F4, F3, F2, F1 in Hk by by left. by eapply od_blocks.
Qed.

(** ** Loading *)

Lemma decode_all_spec {A B} `{Json A} (f : bytes → A → B) l xs :
  Forall2 (fun kv x => json_unmarshal kv.2 = (x, true)) l xs →
  decode_all f l = Ok (zip_with (fun kv x => f kv.1 x) l xs).
Proof.
  induction 1 as [|[k v] x l xs Hx Hall IH]; [done|]. cbn [decode_all zip_with] in *. simpl in Hx.
  rewrite Hx, IH. done.
Qed.

Lemma zip_with_snd {A B} (l : list A) (xs : list B) : length l = length xs → zip_with (fun _ x => x) l xs = xs.
Proof. revert xs. induction l; intros [|x xs] Hl; try done. simpl in Hl |- *. f_equal. auto. Qed.

Lemma load_blocks e d : storable e → stored e d → LoadBlocks d = Ok (en_blocks e).
Proof.
  intros Hs Hd. set (n := length (en_blocks e)).
  assert (Hkeys : (db_list d bucketBlocks).*1 = (fun i => itob (Z.of_nat i)) <$> seq 0 n).
  { apply ltb_sorted_unique; [apply list_sorted| |].
    - pose proof (itob_keys_sorted n (sb_length e Hs) 0) as Hk. by rewrite Nat.sub_0_r in Hk.
    - intros k. split.
      + intros ([k' v] & -> & Hkv%list_get)%list_elem_of_fmap.
        destruct (sd_blocks_only e d Hd _ _ Hkv) as (i & Hi & Ek). simpl. rewrite Ek.
        apply list_elem_of_fmap. exists i. split; [done|]. apply elem_of_seq. lia.
      + intros (i & -> & [_ Hi]%elem_of_seq)%list_elem_of_fmap.
        destruct (lookup_lt_is_Some_2 (en_blocks e) i Hi) as [b Hb].
        destruct (sd_blocks e d Hd i b Hb) as (v & Hv & _).
        apply list_elem_of_fmap. eexists (_, v). split; [done|]. by apply list_get. }
  unfold LoadBlocks. rewrite (decode_all_spec _ _ (en_blocks e)).
  - rewrite zip_with_snd; [done|]. apply (f_equal length) in Hkeys. by rewrite !length_fmap, length_seq in Hkeys.
  - apply Forall2_same_length_lookup_2.
    { apply (f_equal length) in Hkeys. by rewrite !length_fmap, length_seq in Hkeys. }
    intros i [k v] b Hkv Hb. apply (f_equal (lookup i)) in Hkeys. rewrite !list_lookup_fmap, Hkv in Hkeys.
    rewrite lookup_seq_lt in Hkeys by (by eapply lookup_lt_Some). injection Hkeys as Ek.
    destruct (sd_blocks e d Hd i b Hb) as (v' & Hv' & Hu). simpl.
    apply list_elem_of_lookup_2 in Hkv. apply list_get in Hkv. rewrite Ek, Hv' in Hkv. injection Hkv as ->. done.
Qed.

Lemma foldl_insert_map (l : list (bytes * AnchorProof)) (m : gmap bytes AnchorProof) :
  l ≡ₚ map_to_list m → foldl (fun m kp => <[kp.1 := kp.2]> m) ∅ l = m.
Proof.
  intros Hl. assert (Hf : ∀ l0 : list (bytes * AnchorProof),
    foldl (fun m kp => <[kp.1 := kp.2]> m) ∅ (reverse l0) = (list_to_map l0 : gmap bytes AnchorProof)).
  { intros l0. induction l0 as [|[k p] l0 IH]; [done|]. rewrite reverse_cons, foldl_snoc, IH. done. }
  rewrite <- (reverse_involutive l), Hf. rewrite <- (list_to_map_to_list m). apply list_to_map_proper.
  - rewrite reverse_Permutation, Hl. apply NoDup_fst_map_to_list.
  - by rewrite reverse_Permutation.
Qed.

Lemma load_anchored e d : storable e → stored e d → LoadAnchored d = Ok (en_anchored e).
Proof.
  intros Hs Hd. set (l := db_list d bucketAnchored).
  assert (Hl : ∀ k v, (k, v) ∈ l → ∃ p, en_anchored e !! k = Some p ∧ json_unmarshal v = (p, true)).
  { intros k v Hkv%list_get. destruct (sd_anchored_only e d Hd k v Hkv) as [p Hp].
    destruct (sd_anchored e d Hd k p Hp) as (v' & Hv' & Hu). exists p. split; [done|]. congruence. }
  assert (Hxs : ∃ xs, Forall2 (fun kv p => json_unmarshal kv.2 = (p, true)) l xs ∧
                      Forall2 (fun kv p => en_anchored e !! kv.1 = Some p) l xs).
  { revert Hl. generalize l. clear l. intros l. induction l as [|[k v] l IH]; intros Hl; [by exists []|].
    destruct (Hl k v) as (p & Hp & Hu); [by left|].
    destruct IH as (xs & X1 & X2); [intros k' v' Hin; apply Hl; by right|].
    exists (p :: xs). by split; constructor. }
  destruct Hxs as (xs & X1 & X2). unfold LoadAnchored. rewrite (decode_all_spec _ _ xs X1). cbn [outcome_bind].
  f_equal. apply foldl_insert_map.
  assert (Hzip : zip_with (fun kv p => (copy_array 32 kv.1, p)) l xs = zip l.*1 xs).
  { clear X1. induction X2 as [|[k v] p l' xs' Hp X2 IH]; [done|]. cbn [zip_with fmap list_fmap fst].
    rewrite copy_array_id by (apply (sb_anchored e Hs _ _ Hp)). f_equal. apply IH.
    intros k' v' Hin. apply Hl. by right. }
  rewrite Hzip. pose proof (ltb_sorted_NoDup _ (list_sorted d bucketAnchored)) as Hnd. fold l in Hnd.
  assert (Hlen : length l.*1 = length xs) by (rewrite length_fmap; by eapply Forall2_length).
  apply NoDup_Permutation; [|apply NoDup_map_to_list|].
  - apply (NoDup_fmap_1 fst). by rewrite fst_zip by lia.
  - intros [k p]. rewrite elem_of_map_to_list. split.
    + intros [i Hi]%list_elem_of_lookup. rewrite lookup_zip_with, list_lookup_fmap in Hi.
      destruct (l !! i) as [[k' v]|] eqn:El; [|done]. simpl in Hi. destruct (xs !! i) as [p'|] eqn:Ex; [|done].
      injection Hi as <- <-. exact (Forall2_lookup_lr _ _ _ _ _ _ X2 El Ex).
    + intros Hp. destruct (sd_anchored e d Hd k p Hp) as (v & Hv & _). apply list_get in Hv. fold l in Hv.
      apply list_elem_of_lookup in Hv as [i Hi]. destruct (Forall2_lookup_l _ _ _ _ _ X2 Hi) as (p' & Hp' & Hk).
      simpl in Hk. rewrite Hp in Hk. injection Hk as <-. apply list_elem_of_lookup. exists i.
      by rewrite lookup_zip_with, list_lookup_fmap, Hi, Hp'.
Qed.

(** The engine after a restart: what was stored, on top of the fresh engine. *)
Definition restored (e e0 : Engine) : Engine :=
  with_st (en_st e) (with_blocks (en_blocks e) (with_anchored (en_anchored e)
    (with_pending (en_pending e) (en_pendingEntries e0) (with_state (en_state e) e0)))).

Lemma load_stored zero e d e0 : storable e → stored e d → loadPersisted zero d e0 = restored e e0.
Proof.
  intros Hs Hd. unfold loadPersisted. rewrite (load_blocks e d), (load_anchored e d) by done.
  unfold LoadState, LoadPending, LoadSMT.
  destruct (sd_state e d Hd) as (v1 & -> & ->). destruct (sd_pending e d Hd) as (v2 & -> & ->).
  destruct (sd_tree e d Hd) as (v3 & -> & ->). by rewrite Unmarshal_Marshal by apply (sb_store e Hs).
Qed.

(** A restart brings back what was saved. Loading a database that [persist] wrote, on
    top of an older one of the same chain, gives a fresh engine exactly the saved state,
    pending queue, anchor proofs, blocks in order, and tree, whatever order the proofs were
    written in, provided encoding/json returns these values unchanged. *)
Theorem restart_restores zero order e d e0 :
  storable e → order ≡ₚ map_to_list (en_anchored e) → older d e →
  loadPersisted zero (persist order e d) e0 = restored e e0.
Proof. intros Hs Hord Hold. apply load_stored; [done|]. by apply persist_stored. Qed.

(** ** A running node and its store *)

Context {bus : Type} `{GossipChannel bus}.
Context (env : nat → bus → bus) (clock : nat → Z) (patience : nat → nat).

Local Notation World := (World (bus := bus)).

(** The end of a successful cycle: the store is written when a block was appended. *)
Definition store_cycle (order : list (bytes * AnchorProof)) (e e' : Engine) (d : db) : db :=
  if (length (en_blocks e) <? length (en_blocks e'))%nat then persist order e' d else d.

(** A node at work: cycles that do not panic, in any environment, calls that leave the ledger
    alone, such as submissions, and [Stop]. The values written are [storable]. *)
Inductive node_step : World * db → World * db → Prop :=
| step_cycle w w' d r order :
    cycle_body env clock patience w = (w', r) → r ≠ Panic →
    order ≡ₚ map_to_list (en_anchored (w_eng w')) → storable (w_eng w') →
    node_step (w, d) (w', store_cycle order (w_eng w) (w_eng w') d)
| step_call w w' d :
    en_ledger (w_eng w') = en_ledger (w_eng w) → node_step (w, d) (w', d)
| step_stop w d d' e' order :
    Stop_storage order (w_eng w) (Some d) = (e', Some d') →
    order ≡ₚ map_to_list (en_anchored (w_eng w)) → storable (w_eng w) →
    node_step (w, d) ({| w_eng := e'; w_bus := w_bus w; w_step := w_step w |}, d').

(** The store agrees with the node on the chain, the proofs and the tree [t0] it started
    from. *)
Definition in_sync (t0 : SparseMerkleTree) (wd : World * db) : Prop :=
  let e := w_eng wd.1 in
  (en_blocks e = [] ∧ en_anchored e = ∅ ∧ en_st e = t0 ∧ ∀ b k, db_get wd.2 b k = None) ∨
  ∃ e1, storable e1 ∧ stored e1 wd.2 ∧ en_blocks e1 = en_blocks e ∧ en_anchored e1 = en_anchored e ∧
        en_st e1 = en_st e.

Lemma in_sync_older t0 w d e' : in_sync t0 (w, d) →
  (∃ new, en_blocks e' = en_blocks (w_eng w) ++ new) →
  (∀ h, is_Some (en_anchored (w_eng w) !! h) → is_Some (en_anchored e' !! h)) → older d e'.
Proof.
  intros Hsync [new Hnew] Han. destruct Hsync as [(_ & _ & _ & Hempty)|(e1 & _ & Hd & Hb & Ha & _)].
  - simpl in Hempty. split; intros k v Hk; by rewrite Hempty in Hk.
  - simpl in *. split; intros k v Hk.
    + apply Han. rewrite <- Ha. by eapply sd_anchored_only.
    + destruct (sd_blocks_only e1 d Hd k v Hk) as (i & Hi & ->). exists i. split; [|done].
      rewrite Hnew, length_app, <- Hb. lia.
Qed.

Lemma committed_anchored e e' block h :
  committed e e' block → is_Some (en_anchored e !! h) → is_Some (en_anchored e' !! h).
Proof.
  intros Hc [p Hp]. destruct (decide (h ∈ (copy_array 32 ∘ e_Hash <$> elems (b_Anchored block)))) as [Hin|Hni].
  - apply list_elem_of_fmap in Hin as (x & -> & Hx).
    destruct (cm_anchored _ _ _ Hc x Hx) as (proof & Hpf & _). by exists proof.
  - exists p. by rewrite (cm_older _ _ _ Hc h Hni).
Qed.

Lemma Stop_storable e : storable e → storable (Stop e).
Proof. by intros []. Qed.

(** [Stop] leaves everything it saves in the store. *)
Lemma Stop_stored t0 w d order : in_sync t0 (w, d) →
  order ≡ₚ map_to_list (en_anchored (w_eng w)) → storable (w_eng w) → stored (Stop (w_eng w)) (persist order (Stop (w_eng w)) d).
Proof.
  intros Hsync Hord Hst. apply persist_stored; [by apply Stop_storable|done|].
  apply (in_sync_older t0 w d); [done|exists []; by rewrite app_nil_r|done].
Qed.

Lemma node_step_sync t0 wd wd' : node_step wd wd' → in_sync t0 wd → in_sync t0 wd'.
Proof.
  intros Hstep Hsync. destruct Hstep as [w w' d r order Hrun Hnp Hord Hst|w w' d Hled|w d d' e' order Hstop Hord Hst].
  - destruct (cycle_body_atomic env clock patience w w' r Hrun Hnp) as (ing & Hcase). cbv zeta in Hcase.
    set (e := with_pending _ _ (w_eng w)) in Hcase.
    assert (Hroll : ∀ all, rolled_back all (en_st e) e (w_eng w') →
              in_sync t0 (w', store_cycle order (w_eng w) (w_eng w') d)).
    { intros all [Rb Ra Rt _ _ _].
      change (en_blocks (w_eng w') = en_blocks (w_eng w)) in Rb.
      change (en_anchored (w_eng w') = en_anchored (w_eng w)) in Ra.
      change (en_st (w_eng w') = en_st (w_eng w)) in Rt.
      unfold store_cycle. rewrite Rb, Nat.ltb_irrefl. unfold in_sync in *. cbn [fst snd] in *.
      by rewrite Rb, Ra, Rt. }
    destruct Hcase as [[block Hc]|[Hr|[_ Hr]]]; [|by eapply Hroll..].
    right. exists (w_eng w'). split_and!; try done. cbn [snd]. unfold store_cycle.
    pose proof (cm_blocks _ _ _ Hc) as Hb. change (en_blocks e) with (en_blocks (w_eng w)) in Hb.
    rewrite (proj2 (Nat.ltb_lt _ _)) by (rewrite Hb, length_app; simpl; lia).
    apply persist_stored; [done|done|]. apply (in_sync_older t0 w d); [done|by eexists|].
    intros h. exact (committed_anchored _ _ _ h Hc).
  - unfold in_sync, en_blocks, en_anchored, en_st in *. cbn [fst snd] in *. by rewrite Hled.
  - injection Hstop as <- <-. right. exists (Stop (w_eng w)).
    split_and!; [by apply Stop_storable|by eapply Stop_stored|done..].
Qed.

Lemma node_steps_sync (w0 w : World) d0 d :
  (∀ b k, db_get d0 b k = None) → en_blocks (w_eng w0) = [] → en_anchored (w_eng w0) = ∅ →
  rtc node_step (w0, d0) (w, d) → in_sync (en_st (w_eng w0)) (w, d).
Proof.
  intros Hempty Hb Ha Hsteps. assert (Hinit : in_sync (en_st (w_eng w0)) (w0, d0)) by (left; done). revert Hinit.
  generalize (en_st (w_eng w0)). intros t0.
  induction Hsteps as [|wd1 wd2 wd3 Hstep _ IH]; [done|]. intros Hs. apply IH. by eapply node_step_sync.
Qed.

(** C11: A node can be restarted. Start with an empty store and an empty chain, and let every
    write of the store succeed and encoding/json return the values written unchanged. After
    any number of cycles that do not panic, in any environment, of calls that leave the ledger
    alone (submissions and the like) and of [Stop]s, an engine that loads the store has the
    chain, the anchor proofs and the state tree of the running node. If the node is now
    stopped, the engine that loads the store has, besides, its network state and the
    submissions that were waiting. *)
Theorem restart_agrees zero (w0 w : World) d0 d e0 :
  (∀ b k, db_get d0 b k = None) → en_blocks (w_eng w0) = [] → en_anchored (w_eng w0) = ∅ →
  en_st e0 = en_st (w_eng w0) → rtc node_step (w0, d0) (w, d) →
  (let e' := SetStorage zero d e0 in
   en_blocks e' = en_blocks (w_eng w) ∧ en_anchored e' = en_anchored (w_eng w) ∧ en_st e' = en_st (w_eng w)) ∧
  ∀ order, order ≡ₚ map_to_list (en_anchored (w_eng w)) → storable (w_eng w) →
    ∃ d', snd (Stop_storage order (w_eng w) (Some d)) = Some d' ∧
      SetStorage zero d' e0 = restored (w_eng w) e0.
Proof.
  intros Hempty Hb Ha Ht Hsteps. pose proof (node_steps_sync w0 w d0 d Hempty Hb Ha Hsteps) as Hsync.
  rewrite <- Ht in Hsync. split.
  - unfold SetStorage. destruct Hsync as [(Sb & Sa & St & Hd)|(e1 & Hs & Hd & Eb & Ea & Et)]; cbn [fst snd] in *.
    + assert (Hlist : ∀ b, db_list d b = []).
      { intros b. destruct (db_list d b) as [|[k v] l] eqn:El; [done|].
        assert (Hin : (k, v) ∈ db_list d b) by (rewrite El; left). apply list_get in Hin. by rewrite Hd in Hin. }
      unfold loadPersisted, LoadState, LoadSMT, LoadBlocks, LoadAnchored. rewrite !Hd, !Hlist.
      cbn [decode_all outcome_bind or_else foldl]. split_and!; [by rewrite Sb|by rewrite Sa|by rewrite St].
    + rewrite (load_stored zero e1 d e0 Hs Hd). by rewrite <- Eb, <- Ea, <- Et.
  - intros order Hord Hst. eexists. split; [reflexivity|]. unfold SetStorage.
    rewrite (load_stored zero (Stop (w_eng w))); [done|by apply Stop_storable|by eapply Stop_stored].
Qed.
End restart.

(** ** Sub-chains *)

Section subchains.
Context `{Bolt, !BoltLaws} {A : Type} `{Json A, Json unit}.

Lemma decode_units l : ∀ xs, decode_all (fun k (sc : unit) => (copy_array 32 k, sc)) l = Ok xs →
  xs = (fun kv => (copy_array 32 kv.1, tt)) <$> l.
Proof.
  induction l as [|[k v] l IH]; intros xs; cbn [decode_all]; [by intros [= <-]|].
  destruct (json_unmarshal v) as [[] [|]]; [|done]. intros (ys & Hys & [= <-])%bind_Ok. by rewrite (IH ys Hys).
Qed.

Lemma foldl_units (l : list (bytes * bytes)) : ∀ (m : gmap bytes unit) k,
  is_Some (foldl (fun m kp => <[kp.1 := kp.2]> m) m ((fun kv => (copy_array 32 kv.1, tt)) <$> l) !! k) ↔
  is_Some (m !! k) ∨ ∃ kv, kv ∈ l ∧ copy_array 32 kv.1 = k.
Proof.
  induction l as [|kv l IH]; intros m k; cbn [fmap list_fmap foldl].
  - split; [by left|]. intros [?|(kv & Hin & _)]; [done|]. by apply not_elem_of_nil in Hin.
  - rewrite IH. cbn [fst snd]. setoid_rewrite elem_of_cons. rewrite lookup_insert_is_Some. split.
    + intros [[<-|[_ Hm]]|(x & Hx & Hk)]; [right; by exists kv; auto|by left|right; exists x; auto].
    + intros [Hm|(x & [->|Hx] & Hk)]; [|by left; left|right; by exists x].
      destruct (decide (copy_array 32 kv.1 = k)); auto.
Qed.

Lemma LoadSubChains_keys d m k : LoadSubChains d = Ok m →
  is_Some (m !! k) ↔ ∃ key, is_Some (db_get d bucketSubChains key) ∧ copy_array 32 key = k.
Proof.
  unfold LoadSubChains. intros (xs & Hxs%decode_units & [= <-])%bind_Ok. rewrite Hxs, foldl_units.
  rewrite lookup_empty. split.
  - intros [Hn|([key v] & Hin & Hk)]; [by destruct Hn|]. exists key. split; [|done]. exists v. by apply list_get.
  - intros (key & [v Hv] & Hk). right. exists (key, v). split; [|done]. by apply list_get.
Qed.

(** What is saved under an identifier does not matter: loading gives the identifiers only. *)
Lemma subchains_forgotten id (a b : A) d d1 d2 m1 m2 :
  SaveSubChain id a d = (d1, Ok tt) → SaveSubChain id b d = (d2, Ok tt) →
  LoadSubChains d1 = Ok m1 → LoadSubChains d2 = Ok m2 → m1 = m2.
Proof.
  intros S1 S2 L1 L2. assert (Hput : ∀ (x : A) d', SaveSubChain id x d = (d', Ok tt) → ∀ key,
    is_Some (db_get d' bucketSubChains key) ↔ key = id ∨ is_Some (db_get d bucketSubChains key)).
  { intros x d'. unfold SaveSubChain, put_json, put. destruct (json_marshal x) as [data|]; [|done].
    destruct (db_put _ _ _ d) as [d0|] eqn:E; [|done]. intros [= <-] key. rewrite (get_put _ _ _ _ _ E).
    case_decide as Hk; [split; [|by eexists]; by left; apply Hk|]. split; [by right|].
    intros [->|?]; [by destruct Hk|done]. }
  assert (Hsame : ∀ k, is_Some (m1 !! k) ↔ is_Some (m2 !! k)).
  { intros k. rewrite (LoadSubChains_keys _ _ _ L1), (LoadSubChains_keys _ _ _ L2).
    by setoid_rewrite (Hput a d1 S1); setoid_rewrite (Hput b d2 S2). }
  apply map_eq. intros k. specialize (Hsame k).
  destruct (m1 !! k) as [[]|], (m2 !! k) as [[]|]; [done| | |done]; exfalso.
  - by destruct (proj1 Hsame (ex_intro _ tt eq_refl)).
  - by destruct (proj2 Hsame (ex_intro _ tt eq_refl)).
Qed.
End subchains.

(** ** Concrete instance: the node that committed one block *)

Definition storable_b (e : Engine) : bool :=
  forallb (fun kn => (length kn.1 =? 32)%nat && forallb (fun b => (0 <=? b)%Z && (b <? 256)%Z) kn.1)
    (map_to_list (t_store (en_st e))) &&
  forallb (fun hp => (length hp.1 =? 32)%nat) (map_to_list (en_anchored e)) &&
  forallb (fun ib => (b_Index ib.2 =? Z.of_nat ib.1)%Z) (imap (fun i b => (i, b)) (en_blocks e)) &&
  (length (en_blocks e) =? 1)%nat.

Lemma toy_survives {A} `{Countable A} (zero x : A) : @survives A (toy_json zero) x.
Proof. exists (toy_cbor x). split; [done|apply toy_json_roundtrip]. Qed.

Lemma storable_b_ok e : storable_b e = true → storable e.
Proof.
  unfold storable_b. intros Hb. apply andb_true_iff in Hb as [[[H1 H2]%andb_true_iff H3]%andb_true_iff H4].
  rewrite forallb_forall in H1, H2, H3. apply Nat.eqb_eq in H4. split; [apply toy_survives..| | | |].
  - intros k n Hk%elem_of_map_to_list%list_elem_of_In%H1. apply andb_true_iff in Hk as [Hl%Nat.eqb_eq Hk].
    split; [done|]. rewrite forallb_forall in Hk. apply Forall_forall. intros b Hin%list_elem_of_In%Hk.
    unfold byte_ok. simpl in Hin. apply andb_true_iff in Hin as [?%Z.leb_le ?%Z.ltb_lt]. lia.
  - intros h p Hp%elem_of_map_to_list%list_elem_of_In%H2. apply Nat.eqb_eq in Hp. split; [apply toy_survives|done].
  - intros i b Hi. split; [apply toy_survives|].
    assert (Hin : (i, b) ∈ imap (fun i b => (i, b)) (en_blocks e)).
    { apply list_elem_of_lookup. exists i. by rewrite list_lookup_imap, Hi. }
    apply list_elem_of_In, H3, Z.eqb_eq in Hin. done.
  - rewrite H4. done.
Qed.

Lemma committed_storable : ∃ w w', busy_world = w ∧ cycle_body demo_env demo_clock demo_patience w = (w', Ok tt) ∧
  en_blocks (w_eng w) = [] ∧ en_anchored (w_eng w) = ∅ ∧ storable_b (w_eng w') = true.
Proof.
  assert (Hc : match cycle_body demo_env demo_clock demo_patience busy_world with
               | (w', Ok _) => storable_b (w_eng w')
               | _ => false
               end = true) by (vm_compute; reflexivity).
  assert (Hb : en_blocks (w_eng busy_world) = [] ∧ en_anchored (w_eng busy_world) = ∅) by (split; vm_compute; reflexivity).
  exists busy_world. destruct (cycle_body demo_env demo_clock demo_patience busy_world) as [w' [[]|er|]];
    [|discriminate Hc..]. exists w'. by destruct Hb.
Qed.

Lemma toy_writes : ∀ b k v (d : @db ToyBolt), 0 < length k ≤ 32 → is_Some (db_put b k v d).
Proof. intros. by eexists. Qed.

Lemma restart_restores_witness : ∃ e, en_blocks e ≠ [] ∧
  loadPersisted zero_state (persist (map_to_list (en_anchored e)) e (∅ : @db ToyBolt)) (NewEngine demo_node second) =
  restored e (NewEngine demo_node second).
Proof.
  destruct committed_storable as (w & w' & _ & _ & _ & _ & Hs). revert Hs. generalize (w_eng w'). intros e Hs.
  exists e. split.
  - intros Hn. unfold storable_b in Hs. rewrite Hn, andb_false_r in Hs. discriminate Hs.
  - apply (restart_restores toy_writes zero_state (map_to_list (en_anchored e)) e ∅ (NewEngine demo_node second)).
    + exact (storable_b_ok _ Hs).
    + reflexivity.
    + split; intros k v Hk; discriminate Hk.
Defined.

Lemma restart_agrees_witness : ∃ (w : World (bus := MemoryBus)) d d', length (en_blocks (w_eng w)) = 1 ∧
  en_blocks (SetStorage zero_state (d : @db ToyBolt) (w_eng fresh_world)) = en_blocks (w_eng w) ∧
  snd (Stop_storage (map_to_list (en_anchored (w_eng w))) (w_eng w) (Some d)) = Some d' ∧
  SetStorage zero_state (d' : @db ToyBolt) (w_eng fresh_world) = restored (w_eng w) (w_eng fresh_world).
Proof.
  destruct committed_storable as (w & w' & Hw & Hrun & Hb & Ha & Hs).
  pose proof (storable_b_ok _ Hs) as Hst.
  assert (Ht : en_st (w_eng fresh_world) = en_st (w_eng w)) by (rewrite <- Hw; vm_compute; reflexivity).
  set (order := map_to_list (en_anchored (w_eng w'))).
  assert (Hstep : rtc (node_step demo_env demo_clock demo_patience) (w, (∅ : @db ToyBolt))
                    (w', store_cycle order (w_eng w) (w_eng w') ∅)).
  { apply rtc_once. apply (step_cycle demo_env demo_clock demo_patience w w' _ (Ok tt) order Hrun);
      [discriminate|reflexivity|exact Hst]. }
  assert (Hempty : ∀ b k, db_get (∅ : @db ToyBolt) b k = None) by (intros b k; reflexivity).
  destruct (restart_agrees toy_writes demo_env demo_clock demo_patience zero_state w w' ∅ _
    (w_eng fresh_world) Hempty Hb Ha Ht Hstep) as [(Hblocks & _) Hstop].
  destruct (Hstop order ltac:(reflexivity) Hst) as (d' & Hd' & Hrest).
  exists w', (store_cycle order (w_eng w) (w_eng w') ∅), d'. split.
  - unfold storable_b in Hs. apply andb_true_iff in Hs as [_ Hl]. by apply Nat.eqb_eq.
  - split; [exact Hblocks|]. split; [exact Hd'|exact Hrest].
Defined.
