(* ===== verification/Transport.v ===== *)
(** * Secure connections (pkg/transport/secure_conn.go, peer.go; pkg/identity/kyber.go)

    A Kyber key encapsulation followed by length-prefixed ChaCha20-Poly1305 frames. Code on
    a connection is a [proc]: a tree of reads and writes whose continuations see whether
    they succeeded. Kyber, the AEAD and HKDF are the parameter [SecurePrims]. Go strings
    (peer identifiers) are byte lists. *)
From S2P Require Import Prelude Crypto Errors.

(** ** Programs on a connection *)

Inductive proc (A : Type) : Type :=
| PRet (o : outcome gerror A)
| PWrite (data : bytes) (k : bool → proc A)
| PReadFull (n : nat) (k : option bytes → proc A).
Arguments PRet {A} _.
Arguments PWrite {A} _ _.
Arguments PReadFull {A} _ _.

(** One end against a fixed input: the rest of the input, the output and the result. A
    read past the end fails; writes succeed. *)
Fixpoint run1 {A} (p : proc A) (input : bytes) : bytes * bytes * outcome gerror A :=
  match p with
  | PRet o => (input, [], o)
  | PWrite data k => let '(rest, out, o) := run1 (k true) input in (rest, data ++ out, o)
  | PReadFull n k =>
      if (length input <? n)%nat then run1 (k None) []
      else run1 (k (Some (take n input))) (drop n input)
  end.

(** The two ends of a connection, with the bytes in flight; [None] when both wait. *)
Fixpoint run2 {A B} (fuel : nat) (p : proc A) (q : proc B) (pq qp : bytes) :
    option (outcome gerror A * outcome gerror B) :=
  match fuel with
  | O => None
  | S fuel' =>
      let step_q :=
        match q with
        | PRet oq => match p with PRet op => Some (op, oq) | _ => None end
        | PWrite data k => run2 fuel' p (k true) pq (qp ++ data)
        | PReadFull n k =>
            if (n <=? length pq)%nat then run2 fuel' p (k (Some (take n pq))) (drop n pq) qp else None
        end in
      match p with
      | PRet _ => step_q
      | PWrite data k => run2 fuel' (k true) q (pq ++ data) qp
      | PReadFull n k =>
          if (n <=? length qp)%nat then run2 fuel' (k (Some (take n qp))) q pq (drop n qp) else step_q
      end
  end.

(** ** Kyber (kyber.go) *)

Class SecurePrims := {
  kem_public : bytes → bytes;
  kem_encapsulate : bytes → bytes → bytes * bytes;
  kem_decapsulate : bytes → bytes → bytes;
  aead_seal : bytes → bytes → bytes → bytes;
  aead_open : bytes → bytes → bytes → option bytes;
  hkdf_sha256 : bytes → bytes → bytes → nat → bytes;
}.

Definition Kyber1024PublicKeySize : nat := 1568.
Definition Kyber1024CiphertextSize : nat := 1568.
Definition Kyber1024PrivateKeySize : nat := 3168.
Definition aead_overhead : nat := 16.

(** The documented facts: sizes, correctness of the KEM and of the AEAD. *)
Class SecureLaws `{SecurePrims} : Prop := {
  encapsulate_length pk r : length (kem_encapsulate pk r).1 = Kyber1024CiphertextSize;
  decapsulate_correct sk r : length sk = Kyber1024PrivateKeySize →
    kem_decapsulate sk (kem_encapsulate (kem_public sk) r).1 = (kem_encapsulate (kem_public sk) r).2;
  seal_length key nonce data : length (aead_seal key nonce data) = length data + aead_overhead;
  open_seal key nonce data : aead_open key nonce (aead_seal key nonce data) = Some data;
}.

Definition ErrKyberInvalidKey : gerror := ErrText "invalid Kyber key size".
Definition ErrKyberInvalidCT : gerror := ErrText "invalid Kyber ciphertext size".

(** ** Handshake and frames (secure_conn.go) *)

Record PeerInfo := MkPeerInfo {
  pi_PeerID : bytes;
  pi_Addr : bytes;
  pi_PublicKey : bytes;
}.

Section conn.
Context `{SecurePrims}.

(** [Encapsulate] with the randomness it draws: the ciphertext, then the secret. *)
Definition Encapsulate (rnd publicKey : bytes) : outcome gerror (bytes * bytes) :=
  if negb (length publicKey =? Kyber1024PublicKeySize)%nat then Err ErrKyberInvalidKey
  else Ok (kem_encapsulate publicKey rnd).

Definition Decapsulate (secretKey ciphertext : bytes) : outcome gerror bytes :=
  if negb (length secretKey =? Kyber1024PrivateKeySize)%nat then Err ErrKyberInvalidKey
  else if negb (length ciphertext =? Kyber1024CiphertextSize)%nat then Err ErrKyberInvalidCT
  else Ok (kem_decapsulate secretKey ciphertext).

Definition padPeerID (id : bytes) : bytes := copy_array 32 id.

Fixpoint trimPeerID (b : bytes) : bytes :=
  match b with
  | [] => []
  | c :: rest => if (c =? 0)%Z then [] else c :: trimPeerID rest
  end.

(** [deriveKey]: the identifiers in order, so that both ends use the same info. *)
Definition deriveKey (secret id1 id2 : bytes) : bytes :=
  let '(a, b) := if bytes_ltb id2 id1 then (id2, id1) else (id1, id2) in
  hkdf_sha256 secret (string_bytes "gleipnir-kem-v1") (a ++ b) 32.

Definition ErrIO : gerror := ErrText "i/o error".

Definition p_write {A} (data : bytes) (k : proc A) : proc A :=
  PWrite data (fun ok => if ok then k else PRet (Err ErrIO)).

Definition p_read {A} (n : nat) (k : bytes → proc A) : proc A :=
  PReadFull n (fun r => match r with Some data => k data | None => PRet (Err ErrIO) end).

Definition p_lift {A B} (o : outcome gerror A) (k : A → proc B) : proc B :=
  match o with
  | Ok a => k a
  | Err e => PRet (Err e)
  | Panic => PRet Panic
  end.

(** The second half: the KEM, seen from either end. *)
Definition kem_exchange (rnd sk peerID : bytes) (dialer : bool) (peerPKMsg : bytes) : proc (bytes * PeerInfo) :=
  let info := {| pi_PeerID := trimPeerID (take 32 peerPKMsg); pi_Addr := []; pi_PublicKey := drop 32 peerPKMsg |} in
  if dialer then
    p_lift (Encapsulate rnd (pi_PublicKey info)) (fun '(ct, ss) =>
    p_write ct (PRet (Ok (deriveKey ss peerID (pi_PeerID info), info))))
  else
    p_read Kyber1024CiphertextSize (fun ct =>
    p_lift (Decapsulate sk ct) (fun ss =>
    PRet (Ok (deriveKey ss peerID (pi_PeerID info), info)))).

(** [kemHandshake]: the result is the AEAD key and what the peer said about itself. *)
Definition kemHandshake (rnd sk pk peerID : bytes) (dialer : bool) : proc (bytes * PeerInfo) :=
  let myPKMsg := padPeerID peerID ++ pk in
  let size := 32 + Kyber1024PublicKeySize in
  if dialer then
    p_write myPKMsg (p_read size (kem_exchange rnd sk peerID dialer))
  else
    p_read size (fun peerPKMsg => p_write myPKMsg (kem_exchange rnd sk peerID dialer peerPKMsg)).

Definition ServerHandshake (rnd sk pk peerID : bytes) : proc (bytes * PeerInfo) := kemHandshake rnd sk pk peerID false.
Definition ClientHandshake (rnd sk pk peerID : bytes) : proc (bytes * PeerInfo) := kemHandshake rnd sk pk peerID true.

Definition nonceSize : nat := 12.
Definition MaxFrameSize : Z := 1024 * 1024 + 12.
Definition ErrFrameTooLarge : gerror := ErrText "3cp: message exceeds the maximum frame size".

(** [WriteMessage] with the nonce it draws; the prefix is a [uint32]. *)
Definition WriteMessage (key nonce data : bytes) : proc unit :=
  if (MaxFrameSize - Z.of_nat nonceSize <? Z.of_nat (length data))%Z then PRet (Err ErrFrameTooLarge)
  else
    let ct := aead_seal key nonce data in
    let frameLen := (Z.of_nat nonceSize + Z.of_nat (length ct))%Z in
    p_write (be_bytes 4 (frameLen mod 2 ^ 32) ++ nonce ++ ct) (PRet (Ok tt)).

(** [ReadMessage]; slicing a frame shorter than the nonce panics. *)
Definition ReadMessage (key : bytes) : proc bytes :=
  p_read 4 (fun lenBuf =>
  let frameLen := be_value lenBuf in
  if (MaxFrameSize <? frameLen)%Z then PRet (Err ErrFrameTooLarge)
  else p_read (Z.to_nat frameLen) (fun frame =>
    if (length frame <? nonceSize)%nat then PRet Panic
    else match aead_open key (take nonceSize frame) (drop nonceSize frame) with
         | Some plaintext => PRet (Ok plaintext)
         | None => PRet (Err (ErrText "chacha20poly1305: message authentication failed"))
         end)).
End conn.
