(* ===== verification/TransportTheorems.v ===== *)
(** * Properties of secure connections *)
From S2P Require Import Prelude Crypto Toy Errors Transport.

Lemma trim_app (l r : bytes) : Forall (fun c => c ≠ 0%Z) l → trimPeerID (l ++ 0%Z :: r) = l.
Proof.
  induction 1 as [|c l Hc Hl IH]; [done|]. cbn [app trimPeerID]. rewrite (proj2 (Z.eqb_neq c 0)) by done.
  by rewrite IH.
Qed.

Lemma trim_all (l : bytes) : Forall (fun c => c ≠ 0%Z) l → trimPeerID l = l.
Proof.
  induction 1 as [|c l Hc Hl IH]; [done|]. cbn [trimPeerID]. by rewrite (proj2 (Z.eqb_neq c 0)), IH.
Qed.

(** An identifier that survives the fixed-width field. *)
Definition peer_id_ok (id : bytes) : Prop := length id ≤ 32 ∧ Forall (fun c => c ≠ 0%Z) id.

Lemma trim_pad id : peer_id_ok id → trimPeerID (padPeerID id) = id.
Proof.
  intros [Hl Hz]. unfold padPeerID, copy_array. rewrite take_ge by done.
  destruct (32 - length id) as [|n] eqn:E; [rewrite app_nil_r; by apply trim_all|]. by apply trim_app.
Qed.

(** ** Steps of two connected ends *)

Section steps.
Context {A B : Type}.
Implicit Types (q : proc B).

Lemma run2_write f data (k : bool → proc A) q pq qp :
  run2 (S f) (PWrite data k) q pq qp = run2 f (k true) q (pq ++ data) qp.
Proof. done. Qed.

Lemma run2_read f n (k : option bytes → proc A) q pq qp : n ≤ length qp →
  run2 (S f) (PReadFull n k) q pq qp = run2 f (k (Some (take n qp))) q pq (drop n qp).
Proof. intros Hn. cbn [run2]. by rewrite (proj2 (Nat.leb_le _ _)). Qed.

Lemma run2_wait_read f n (k : option bytes → proc A) m (k' : option bytes → proc B) pq qp :
  length qp < n → m ≤ length pq →
  run2 (S f) (PReadFull n k) (PReadFull m k') pq qp =
  run2 f (PReadFull n k) (k' (Some (take m pq))) (drop m pq) qp.
Proof. intros Hn Hm. cbn [run2]. by rewrite (proj2 (Nat.leb_gt _ _)), (proj2 (Nat.leb_le _ _)). Qed.

Lemma run2_wait_write f n (k : option bytes → proc A) data (k' : bool → proc B) pq qp :
  length qp < n →
  run2 (S f) (PReadFull n k) (PWrite data k') pq qp = run2 f (PReadFull n k) (k' true) pq (qp ++ data).
Proof. intros Hn. cbn [run2]. by rewrite (proj2 (Nat.leb_gt _ _)). Qed.

Lemma run2_ret_read f (o : outcome gerror A) m (k' : option bytes → proc B) pq qp : m ≤ length pq →
  run2 (S f) (PRet o) (PReadFull m k') pq qp = run2 f (PRet o) (k' (Some (take m pq))) (drop m pq) qp.
Proof. intros Hm. cbn [run2]. by rewrite (proj2 (Nat.leb_le _ _)). Qed.

Lemma run2_ret f (op : outcome gerror A) (oq : outcome gerror B) pq qp :
  run2 (S f) (PRet op) (PRet oq) pq qp = Some (op, oq).
Proof. done. Qed.
End steps.

Section theorems.
Context `{SecurePrims} `{!SecureLaws}.

Lemma deriveKey_sym secret a b : deriveKey secret a b = deriveKey secret b a.
Proof.
  unfold deriveKey. destruct (bytes_ltb a b) eqn:E1, (bytes_ltb b a) eqn:E2; try done.
  - by rewrite (bytes_ltb_asym _ _ E1) in E2.
  - by rewrite (bytes_ltb_total _ _ E1 E2).
Qed.

(** What a peer learns from the first message. *)
Lemma first_message id (pk : bytes) : peer_id_ok id →
  trimPeerID (take 32 (padPeerID id ++ pk)) = id ∧ drop 32 (padPeerID id ++ pk) = pk.
Proof.
  intros Hid. assert (Hl : length (padPeerID id) = 32) by apply length_copy_array.
  rewrite take_app_le, take_ge by lia. rewrite drop_app_le, drop_ge by lia. by rewrite trim_pad.
Qed.

(** C29: The handshake agrees. A client and a server that run it against each other, with
    Kyber keys of the right size and identifiers of at most 32 bytes without zeros, both
    finish, hold the same key, and know each other's identifier and public key. *)
Theorem handshake_agrees rc rs skC pkC idC skS idS :
  length pkC = Kyber1024PublicKeySize → length (kem_public skS) = Kyber1024PublicKeySize →
  length skS = Kyber1024PrivateKeySize → peer_id_ok idC → peer_id_ok idS →
  ∃ key,
    run2 8 (ClientHandshake rc skC pkC idC) (ServerHandshake rs skS (kem_public skS) idS) [] [] =
    Some (Ok (key, {| pi_PeerID := idS; pi_Addr := []; pi_PublicKey := kem_public skS |}),
          Ok (key, {| pi_PeerID := idC; pi_Addr := []; pi_PublicKey := pkC |})).
Proof.
  intros HpC HpS HsS HiC HiS.
  destruct (first_message idC pkC HiC) as [TC DC]. destruct (first_message idS (kem_public skS) HiS) as [TS DS].
  set (mC := padPeerID idC ++ pkC) in *. set (mS := padPeerID idS ++ kem_public skS) in *.
  assert (HlC : length mC = 32 + Kyber1024PublicKeySize).
  { unfold mC, padPeerID. by rewrite length_app, length_copy_array, HpC. }
  assert (HlS : length mS = 32 + Kyber1024PublicKeySize).
  { unfold mS, padPeerID. by rewrite length_app, length_copy_array, HpS. }
  set (enc := kem_encapsulate (kem_public skS) rc).
  assert (Hct : length enc.1 = Kyber1024CiphertextSize) by apply encapsulate_length.
  exists (deriveKey enc.2 idC idS).
  unfold ClientHandshake, ServerHandshake, kemHandshake. fold mC mS. unfold p_write, p_read.
  rewrite run2_write, app_nil_l, run2_wait_read by (rewrite ?HlC; simpl; lia).
  rewrite take_ge, drop_ge by lia. rewrite run2_wait_write by (simpl; lia). rewrite app_nil_l.
  rewrite run2_read by lia. rewrite take_ge, drop_ge by lia.
  unfold kem_exchange. rewrite TS, TC, DS, DC. cbn [pi_PeerID pi_PublicKey].
  unfold Encapsulate. rewrite HpS, Nat.eqb_refl. cbn [negb p_lift]. fold enc. rewrite (surjective_pairing enc).
  unfold p_write, p_read. rewrite run2_write, app_nil_l, run2_ret_read by lia. rewrite take_ge by lia.
  unfold Decapsulate. rewrite HsS, Hct, !Nat.eqb_refl. cbn [negb p_lift]. rewrite run2_ret.
  unfold enc. rewrite decapsulate_correct by done. by rewrite (deriveKey_sym _ idS idC).
Qed.

(** ** Frames *)

Definition frame (key nonce data : bytes) : bytes :=
  be_bytes 4 (Z.of_nat (length data + 28)) ++ nonce ++ aead_seal key nonce data.

Lemma write_frame key nonce data input : (Z.of_nat (length data) <= MaxFrameSize - Z.of_nat nonceSize)%Z →
  run1 (WriteMessage key nonce data) input = (input, frame key nonce data, Ok tt).
Proof.
  intros Hl. unfold WriteMessage. rewrite (proj2 (Z.ltb_ge _ _)) by done. cbv zeta. rewrite seal_length.
  replace ((Z.of_nat nonceSize + Z.of_nat (length data + aead_overhead)) mod 2 ^ 32)%Z
    with (Z.of_nat (length data + 28)).
  2:{ unfold MaxFrameSize, nonceSize, aead_overhead in *. rewrite Z.mod_small; lia. }
  cbn [p_write run1]. by rewrite app_nil_r.
Qed.

Lemma be_value_be_bytes n z : (0 <= z < 256 ^ Z.of_nat n)%Z → be_value (be_bytes n z) = z.
Proof. intros Hz. unfold be_value, be_bytes. rewrite rev_involutive, le_value_le_bytes. by rewrite Z.mod_small. Qed.

(** Reading the length prefix. *)
Lemma read_prefix key z rest : (0 <= z < 2 ^ 32)%Z →
  run1 (ReadMessage key) (be_bytes 4 z ++ rest) =
  if (MaxFrameSize <? z)%Z then (rest, [], Err ErrFrameTooLarge)
  else run1 (p_read (Z.to_nat z) (fun frame =>
    if (length frame <? nonceSize)%nat then PRet Panic
    else match aead_open key (take nonceSize frame) (drop nonceSize frame) with
         | Some plaintext => PRet (Ok plaintext)
         | None => PRet (Err (ErrText "chacha20poly1305: message authentication failed"))
         end)) rest.
Proof.
  intros Hz. unfold ReadMessage at 1, p_read at 1. cbn [run1].
  assert (Hl : length (be_bytes 4 z) = 4) by apply length_be_bytes.
  rewrite (proj2 (Nat.ltb_ge _ _)) by (rewrite length_app; lia).
  rewrite take_app_le, take_ge, drop_app_le, drop_ge, app_nil_l by lia.
  rewrite be_value_be_bytes by (change (256 ^ Z.of_nat 4)%Z with (2 ^ 32)%Z; lia).
  by destruct (MaxFrameSize <? z)%Z.
Qed.

Lemma read_frame key nonce data rest : length nonce = nonceSize →
  (Z.of_nat (length data) <= MaxFrameSize - 28)%Z →
  run1 (ReadMessage key) (frame key nonce data ++ rest) = (rest, [], Ok data).
Proof.
  intros Hn Hl. unfold frame. rewrite <- app_assoc, read_prefix by (unfold MaxFrameSize in Hl; lia).
  rewrite (proj2 (Z.ltb_ge _ _)) by lia. rewrite Nat2Z.id. unfold p_read. cbn [run1].
  set (body := nonce ++ aead_seal key nonce data).
  assert (Hb : length body = length data + 28).
  { unfold body. rewrite length_app, seal_length, Hn. unfold nonceSize, aead_overhead. lia. }
  rewrite (proj2 (Nat.ltb_ge _ _)) by (rewrite length_app; lia).
  rewrite <- Hb, take_app_length, drop_app_length.
  rewrite (proj2 (Nat.ltb_ge _ _)) by (rewrite Hb; unfold nonceSize; lia).
  unfold body. rewrite <- Hn, take_app_length, drop_app_length. by rewrite open_seal.
Qed.

(** C30: Every size of message, written and read back. A message above 1 MiB is refused
    before anything is sent; one of at most 1 MiB less the 16 bytes of the authentication
    tag arrives unchanged and leaves the following bytes alone; in between, the writer
    sends a frame that every reader refuses. *)
Theorem frame_limits key nonce data rest : length nonce = nonceSize →
  let n := Z.of_nat (length data) in
  match run1 (WriteMessage key nonce data) [] with
  | (_, out, Ok _) =>
      (n <= 1024 * 1024)%Z ∧
      if decide (n <= 1024 * 1024 - 16)%Z
      then run1 (ReadMessage key) (out ++ rest) = (rest, [], Ok data)
      else ∃ unread, run1 (ReadMessage key) (out ++ rest) = (unread, [], Err ErrFrameTooLarge)
  | (_, out, Err er) => er = ErrFrameTooLarge ∧ out = [] ∧ (1024 * 1024 < n)%Z
  | (_, _, Panic) => False
  end.
Proof.
  intros Hn n. destruct (Z.leb_spec n (1024 * 1024)) as [Hle|Hgt].
  - rewrite write_frame by (unfold MaxFrameSize, nonceSize; lia). split; [done|].
    case_decide as Hd; [apply read_frame; [done|unfold MaxFrameSize; lia]|].
    unfold frame. rewrite <- app_assoc, read_prefix by lia.
    rewrite (proj2 (Z.ltb_lt _ _)) by (unfold MaxFrameSize; lia). by eexists.
  - unfold WriteMessage. rewrite (proj2 (Z.ltb_lt _ _)) by (unfold MaxFrameSize, nonceSize; lia). done.
Qed.

(** Whole conversations: what one end sends, the other reads, in order. *)
Fixpoint send_all (key : bytes) (msgs : list (bytes * bytes)) : bytes :=
  match msgs with
  | [] => []
  | (nonce, data) :: rest => snd (fst (run1 (WriteMessage key nonce data) [])) ++ send_all key rest
  end.

Fixpoint read_all (key : bytes) (n : nat) (input : bytes) : option (list bytes * bytes) :=
  match n with
  | O => Some ([], input)
  | S n' =>
      match run1 (ReadMessage key) input with
      | (rest, _, Ok m) => '(ms, rest') ← read_all key n' rest; Some (m :: ms, rest')
      | _ => None
      end
  end.

(** Messages arrive in order and unchanged. Any sequence of messages within the
    limit, each under its own nonce, is read back from the stream of its frames, and the
    reader stops exactly at the end of the last one. *)
Theorem frames_roundtrip key msgs rest :
  Forall (fun nd => length nd.1 = nonceSize ∧ (Z.of_nat (length nd.2) <= 1024 * 1024 - 16)%Z) msgs →
  read_all key (length msgs) (send_all key msgs ++ rest) = Some (msgs.*2, rest).
Proof.
  induction 1 as [|[nonce data] msgs [Hn Hl] Hms IH]; [done|]. cbn [send_all read_all length].
  rewrite write_frame by (unfold MaxFrameSize, nonceSize; simpl in Hl; lia). cbn [fst snd].
  rewrite <- app_assoc, read_frame by (simpl in *; unfold MaxFrameSize; (done || lia)).
  rewrite IH. done.
Qed.

(** A frame shorter than a nonce kills the reader: whoever can write to the connection
    makes [ReadMessage] panic with a length prefix below 12, without knowing the key. *)
Theorem short_frame_panics key body rest : length body < nonceSize →
  run1 (ReadMessage key) (be_bytes 4 (Z.of_nat (length body)) ++ body ++ rest) = (rest, [], Panic).
Proof.
  intros Hb. unfold nonceSize in *. rewrite read_prefix by lia.
  rewrite (proj2 (Z.ltb_ge _ _)) by (unfold MaxFrameSize; lia). rewrite Nat2Z.id. unfold p_read. cbn [run1].
  rewrite (proj2 (Nat.ltb_ge _ _)) by (rewrite length_app; lia).
  rewrite take_app_length, drop_app_length. by rewrite (proj2 (Nat.ltb_lt _ _)).
Qed.
End theorems.

(** ** Concrete instance

    A stand-in with the sizes and the correctness laws of the real primitives, and none of
    their security. *)
#[export] Instance ToySecure : SecurePrims := {|
  kem_public sk := copy_array Kyber1024PublicKeySize sk;
  kem_encapsulate pk r := (copy_array Kyber1024CiphertextSize r, take 32 pk ++ copy_array Kyber1024CiphertextSize r);
  kem_decapsulate sk ct := take 32 sk ++ ct;
  aead_seal key nonce data := data ++ zeros 16;
  aead_open key nonce ct := if decide (16 ≤ length ct) then Some (take (length ct - 16) ct) else None;
  hkdf_sha256 secret salt info n := copy_array n (toy_digest (secret ++ salt ++ info));
|}.

#[export] Instance toy_secure_laws : SecureLaws.
Proof.
  split; cbn -[zeros copy_array].
  - intros. apply length_copy_array.
  - intros sk r Hsk. f_equal. unfold copy_array. unfold Kyber1024PublicKeySize, Kyber1024PrivateKeySize in *.
    rewrite take_app_le by (rewrite length_take; lia). by rewrite take_take.
  - intros. by rewrite length_app, length_zeros.
  - intros. rewrite length_app, length_zeros, decide_True by lia. f_equal.
    replace (length data + 16 - 16) with (length data) by lia. apply take_app_length.
Qed.

Definition demo_kyber : bytes := copy_array Kyber1024PrivateKeySize [5; 6; 7]%Z.

Lemma handshake_agrees_witness : ∃ key,
  run2 8 (ClientHandshake [1%Z] demo_kyber (kem_public demo_kyber) (string_bytes "alice"))
    (ServerHandshake [2%Z] demo_kyber (kem_public demo_kyber) (string_bytes "bob")) [] [] =
  Some (Ok (key, {| pi_PeerID := string_bytes "bob"; pi_Addr := []; pi_PublicKey := kem_public demo_kyber |}),
        Ok (key, {| pi_PeerID := string_bytes "alice"; pi_Addr := []; pi_PublicKey := kem_public demo_kyber |})).
Proof.
  apply (handshake_agrees [1%Z] [2%Z] demo_kyber (kem_public demo_kyber) (string_bytes "alice") demo_kyber
           (string_bytes "bob")).
  - apply length_copy_array.
  - apply length_copy_array.
  - apply length_copy_array.
  - split; [vm_compute; lia|repeat constructor; discriminate].
  - split; [vm_compute; lia|repeat constructor; discriminate].
Defined.

Lemma frame_limits_witness :
  run1 (ReadMessage [9%Z]) (snd (fst (run1 (WriteMessage [9%Z] (zeros 12) [1; 2; 3]%Z) [])) ++ [77%Z]) =
  ([77%Z], [], Ok [1; 2; 3]%Z).
Proof.
  pose proof (frame_limits [9%Z] (zeros 12) [1; 2; 3]%Z [77%Z] eq_refl) as Hf. cbv zeta in Hf.
  destruct (run1 (WriteMessage [9%Z] (zeros 12) [1; 2; 3]%Z) []) as [[inp out] [[]|er|]].
  - destruct Hf as [_ Hf]. rewrite decide_True in Hf by (vm_compute; discriminate). exact Hf.
  - destruct Hf as (_ & _ & Hf). vm_compute in Hf. discriminate Hf.
  - destruct Hf.
Defined.

Lemma frames_roundtrip_witness :
  read_all [9%Z] 2 (send_all [9%Z] [(zeros 12, [1; 2]%Z); (zeros 12, [])] ++ [77%Z]) = Some ([[1; 2]%Z; []], [77%Z]).
Proof.
  apply (frames_roundtrip [9%Z] [(zeros 12, [1; 2]%Z); (zeros 12, [])] [77%Z]).
  repeat constructor; vm_compute; discriminate.
Defined.

Lemma short_frame_panics_witness :
  run1 (ReadMessage [9%Z]) (be_bytes 4 2 ++ [0; 0]%Z ++ [77%Z]) = ([77%Z], [], Panic).
Proof. apply (short_frame_panics [9%Z] [0; 0]%Z [77%Z]). unfold nonceSize. simpl. lia. Defined.
