(* ===== verification/P2p.v ===== *)
(** * The libp2p gossip bus (pkg/transport/p2p/gossip.go)

    The engine-facing part: the local state behind [GossipChannel], the framing of stream
    messages, and the handlers of received messages. Dialling and discovery are in
    [P2pMesh]; a broadcast is a message put into [gb_out], which the network may
    deliver to any peer, any number of times and in any order. *)
From Stdlib Require Import SpecFloat.
From S2P Require Import Prelude Crypto Errors Chain Gossip Storage Transport.

Inductive protocol :=
| protocolEntries
| protocolProposals
| protocolSigs
| protocolVRFProofs.

Record GossipBus := MkGossipBus {
  gb_pending : list ProvenanceEntry;
  gb_proposals : gmap Z Block;
  gb_finals : gmap Z Block;
  gb_sigs : gmap Z (list BlockSig);
  gb_vrfProofs : gmap Z (list VRFProofMsg);
  gb_out : list (protocol * bytes);
}.

(** The state of [NewGossipBus] before anything is received. *)
Definition NewGossipBus : GossipBus :=
  {| gb_pending := []; gb_proposals := ∅; gb_finals := ∅; gb_sigs := ∅; gb_vrfProofs := ∅; gb_out := [] |}.

Definition set_gb_pending (l : list ProvenanceEntry) (b : GossipBus) : GossipBus :=
  {| gb_pending := l; gb_proposals := gb_proposals b; gb_finals := gb_finals b; gb_sigs := gb_sigs b;
     gb_vrfProofs := gb_vrfProofs b; gb_out := gb_out b |}.
Definition set_gb_proposals (m : gmap Z Block) (b : GossipBus) : GossipBus :=
  {| gb_pending := gb_pending b; gb_proposals := m; gb_finals := gb_finals b; gb_sigs := gb_sigs b;
     gb_vrfProofs := gb_vrfProofs b; gb_out := gb_out b |}.
Definition set_gb_finals (m : gmap Z Block) (b : GossipBus) : GossipBus :=
  {| gb_pending := gb_pending b; gb_proposals := gb_proposals b; gb_finals := m; gb_sigs := gb_sigs b;
     gb_vrfProofs := gb_vrfProofs b; gb_out := gb_out b |}.
Definition set_gb_sigs (m : gmap Z (list BlockSig)) (b : GossipBus) : GossipBus :=
  {| gb_pending := gb_pending b; gb_proposals := gb_proposals b; gb_finals := gb_finals b; gb_sigs := m;
     gb_vrfProofs := gb_vrfProofs b; gb_out := gb_out b |}.
Definition set_gb_vrf (m : gmap Z (list VRFProofMsg)) (b : GossipBus) : GossipBus :=
  {| gb_pending := gb_pending b; gb_proposals := gb_proposals b; gb_finals := gb_finals b; gb_sigs := gb_sigs b;
     gb_vrfProofs := m; gb_out := gb_out b |}.

(** [broadcast]. *)
Definition broadcast (p : protocol) (data : bytes) (b : GossipBus) : GossipBus :=
  {| gb_pending := gb_pending b; gb_proposals := gb_proposals b; gb_finals := gb_finals b; gb_sigs := gb_sigs b;
     gb_vrfProofs := gb_vrfProofs b; gb_out := gb_out b ++ [(p, data)] |}.

(** ** Framing *)

Definition maxStreamMessage : Z := 4 * 1024 * 1024.

(** [sendStream] on an open stream: two writes; an oversized message is not sent. *)
Definition sendStream (data : bytes) : proc unit :=
  if (maxStreamMessage <? Z.of_nat (length data))%Z then PRet (Ok tt)
  else p_write (be_bytes 4 (Z.of_nat (length data) mod 2 ^ 32)) (p_write data (PRet (Ok tt))).

(** [readFramed]: [None] for an unreadable frame. *)
Definition readFramed : proc (option bytes) :=
  PReadFull 4 (fun r =>
    match r with
    | None => PRet (Ok None)
    | Some lenBuf =>
        let n := be_value lenBuf in
        if (n =? 0)%Z || (maxStreamMessage <? n)%Z then PRet (Ok None)
        else PReadFull (Z.to_nat n) (fun r => PRet (Ok r))
    end).

Section bus.
Context `{Json ProvenanceEntry, Json Block, Json BlockSig, Json VRFProofMsg}.

(** [data, _ := json.Marshal(x)]. *)
Definition marshalled {A} `{Json A} (x : A) : bytes := default [] (json_marshal x).

(** ** The [GossipChannel] methods *)

Definition GossipBus_Publish (entry : ProvenanceEntry) (b : GossipBus) : GossipBus :=
  broadcast protocolEntries (marshalled entry) (set_gb_pending (gb_pending b ++ [entry]) b).

Definition GossipBus_RemoveEntries (remove : gset bytes) (b : GossipBus) : GossipBus :=
  set_gb_pending (filter (fun e => e_Hash e ∉ remove) (gb_pending b)) b.

Definition GossipBus_Propose (block : Block) (proposerID : string) (b : GossipBus) : GossipBus :=
  match gb_proposals b !! b_Index block with
  | Some _ => b
  | None => broadcast protocolProposals (marshalled block)
              (set_gb_proposals (store_clone block (gb_proposals b)) b)
  end.

Definition GossipBus_GetProposed (cycle : Z) (b : GossipBus) : option Block := CloneBlock (gb_proposals b !! cycle).

Definition GossipBus_PublishFinal (block : Block) (proposerID : string) (b : GossipBus) : GossipBus :=
  broadcast protocolProposals (marshalled block) (set_gb_finals (store_clone block (gb_finals b)) b).

Definition GossipBus_GetFinal (cycle : Z) (b : GossipBus) : option Block := CloneBlock (gb_finals b !! cycle).

Definition add_sig (sig : BlockSig) (b : GossipBus) : GossipBus :=
  set_gb_sigs (<[bs_Cycle sig := default [] (gb_sigs b !! bs_Cycle sig) ++ [sig]]> (gb_sigs b)) b.

Definition GossipBus_PublishSig (sig : BlockSig) (b : GossipBus) : GossipBus :=
  broadcast protocolSigs (marshalled sig) (add_sig sig b).

Definition GossipBus_GetSigs (cycle : Z) (b : GossipBus) : list BlockSig := default [] (gb_sigs b !! cycle).

(** A proof is kept unless its signer already has one for the cycle. *)
Definition holds_proof (proof : VRFProofMsg) (b : GossipBus) : bool :=
  existsb (fun x => bool_decide (vm_SignerID x = vm_SignerID proof)) (default [] (gb_vrfProofs b !! vm_Cycle proof)).

Definition add_proof (proof : VRFProofMsg) (b : GossipBus) : GossipBus :=
  set_gb_vrf (<[vm_Cycle proof := default [] (gb_vrfProofs b !! vm_Cycle proof) ++ [proof]]> (gb_vrfProofs b)) b.

Definition GossipBus_PublishVRFProof (proof : VRFProofMsg) (b : GossipBus) : GossipBus :=
  if holds_proof proof b then b else broadcast protocolVRFProofs (marshalled proof) (add_proof proof b).

Definition GossipBus_GetVRFProofs (cycle : Z) (b : GossipBus) : list VRFProofMsg :=
  default [] (gb_vrfProofs b !! cycle).

#[export] Instance gossip_bus : GossipChannel GossipBus := {|
  Publish := GossipBus_Publish;
  Snapshot := gb_pending;
  RemoveEntries := GossipBus_RemoveEntries;
  Propose := GossipBus_Propose;
  GetProposed := GossipBus_GetProposed;
  PublishFinal := GossipBus_PublishFinal;
  GetFinal := GossipBus_GetFinal;
  PublishSig := GossipBus_PublishSig;
  GetSigs := GossipBus_GetSigs;
  PublishVRFProof := GossipBus_PublishVRFProof;
  GetVRFProofs := GossipBus_GetVRFProofs;
|}.

(** ** Stream handlers *)

(** [readFramed], then [json.Unmarshal]; anything unreadable is dropped. *)
Definition handle {A} `{Json A} (stream : bytes) (f : A → GossipBus → GossipBus) (b : GossipBus) : GossipBus :=
  match snd (run1 readFramed stream) with
  | Ok (Some data) => match json_unmarshal data with (x, true) => f x b | (_, false) => b end
  | _ => b
  end.

Definition handleEntriesStream (stream : bytes) (b : GossipBus) : GossipBus :=
  handle stream (fun entry b => set_gb_pending (gb_pending b ++ [entry]) b) b.

(** Not first-write-wins: the received block replaces the candidate of its cycle. *)
Definition handleProposalsStream (stream : bytes) (b : GossipBus) : GossipBus :=
  handle stream (fun block b => set_gb_proposals (<[b_Index block := block]> (gb_proposals b)) b) b.

Definition handleSigsStream (stream : bytes) (b : GossipBus) : GossipBus := handle stream add_sig b.

Definition handleVRFProofsStream (stream : bytes) (b : GossipBus) : GossipBus :=
  handle stream (fun proof b => if holds_proof proof b then b else add_proof proof b) b.

(** A stream opened by a peer. *)
Definition receive (p : protocol) (stream : bytes) (b : GossipBus) : GossipBus :=
  match p with
  | protocolEntries => handleEntriesStream stream b
  | protocolProposals => handleProposalsStream stream b
  | protocolSigs => handleSigsStream stream b
  | protocolVRFProofs => handleVRFProofsStream stream b
  end.
End bus.
