(* ===== verification/P2pTheorems.v ===== *)
(** * Properties of the libp2p gossip bus *)
From Stdlib Require Import SpecFloat.
From S2P Require Import Prelude Crypto Toy Smt Errors Vrf Identity IdentityTheorems Chain ToyCbor Config Rotation Mandates Quorum QuorumTheorems Gossip.
From S2P Require Import State Engine EngineCycle Storage ToyStore Demo Transport TransportTheorems P2p.

(** ** Frames *)

(** The bytes [sendStream] puts on a stream. *)
Definition wire (data : bytes) : bytes := (run1 (sendStream data) []).1.2.

Definition fits (data : bytes) : Prop := data ≠ [] ∧ (Z.of_nat (length data) <= maxStreamMessage)%Z.

Lemma wire_fits data : fits data → wire data = be_bytes 4 (Z.of_nat (length data)) ++ data.
Proof.
  intros [_ Hl]. unfold wire, sendStream. rewrite (proj2 (Z.ltb_ge _ _)) by done.
  rewrite Z.mod_small by (unfold maxStreamMessage in *; lia). cbn [p_write run1 fst snd]. by rewrite app_nil_r.
Qed.

Lemma readFramed_wire data : fits data → snd (run1 readFramed (wire data)) = Ok (Some data).
Proof.
  intros Hf. rewrite (wire_fits _ Hf). destruct Hf as [Hne Hl].
  assert (H4 : length (be_bytes 4 (Z.of_nat (length data))) = 4) by apply length_be_bytes.
  unfold readFramed. cbn [run1]. rewrite length_app, H4.
  rewrite (proj2 (Nat.ltb_ge _ _)), take_app_length', drop_app_length' by (done || lia).
  rewrite be_value_be_bytes by (unfold maxStreamMessage in *; lia).
  rewrite (proj2 (Z.eqb_neq _ _)), (proj2 (Z.ltb_ge _ _)) by (done || (destruct data; [done|cbn [length]; lia])).
  cbn [orb run1]. rewrite Nat2Z.id, Nat.ltb_irrefl, take_ge by done. done.
Qed.

Lemma wire_too_long data : (maxStreamMessage < Z.of_nat (length data))%Z → wire data = [].
Proof. intros Hl. unfold wire, sendStream. by rewrite (proj2 (Z.ltb_lt _ _)). Qed.

Section p2p.
Context `{Json ProvenanceEntry, Json Block, Json BlockSig, Json VRFProofMsg}.

(** A value that fits a stream message and survives its JSON form. *)
Definition survives {A} `{Json A} (x : A) : Prop :=
  fits (marshalled x) ∧ json_unmarshal (marshalled x) = (x, true).

Lemma handle_wire {A} `{Json A} (x : A) f b : survives x → handle (wire (marshalled x)) f b = f x b.
Proof. intros [Hf Hj]. unfold handle. by rewrite readFramed_wire, Hj. Qed.

(** One sent message arriving at a peer. *)
Definition deliver (b : GossipBus) (m : protocol * bytes) : GossipBus := receive m.1 (wire m.2) b.

(** ** Delivery *)

Definition op_survives (op : bus_op) : Prop :=
  match op with
  | OpPublish e => survives e
  | OpRemoveEntries _ => True
  | OpPropose block _ | OpPublishFinal block _ => survives block
  | OpPublishSig s => survives s
  | OpPublishVRFProof p => survives p
  end.

(** What a peer's call means for this node. *)
Definition mirrored (op : bus_op) (b : GossipBus) : GossipBus :=
  match op with
  | OpPublish e => set_gb_pending (gb_pending b ++ [e]) b
  | OpRemoveEntries _ => b
  | OpPropose block _ | OpPublishFinal block _ => set_gb_proposals (<[b_Index block := block]> (gb_proposals b)) b
  | OpPublishSig s => add_sig s b
  | OpPublishVRFProof p => if holds_proof p b then b else add_proof p b
  end.

(** The calls that send nothing. *)
Definition silent (op : bus_op) (a : GossipBus) : bool :=
  match op with
  | OpRemoveEntries _ => true
  | OpPropose block _ => bool_decide (is_Some (gb_proposals a !! b_Index block))
  | OpPublishVRFProof p => holds_proof p a
  | _ => false
  end.

(** What a node publishes reaches its peers. A call sends one message, or none when the
    bus already holds a candidate of the cycle or a proof of the signer; and for content
    that fits a stream and survives JSON, the peer that receives the message ends up with
    the entry in its pool, the block as the candidate of its cycle, the vote or the proof. *)
Theorem p2p_delivery op a b : op_survives op →
  ∃ out, gb_out (bus_step op a) = gb_out a ++ out ∧
    foldl deliver b out = if silent op a then b else mirrored op b.
Proof.
  intros Hs. destruct op as [e|r|block p|block p|s|p]; cbn [op_survives] in Hs; simpl.
  - eexists. split; [reflexivity|]. simpl. unfold deliver, receive, handleEntriesStream. simpl. by rewrite handle_wire.
  - exists []. by rewrite app_nil_r.
  - unfold GossipBus_Propose. destruct (gb_proposals a !! b_Index block) eqn:E; simpl.
    + exists []. by rewrite app_nil_r.
    + eexists. split; [reflexivity|]. simpl.
      unfold deliver, receive, handleProposalsStream. simpl. by rewrite handle_wire.
  - eexists. split; [reflexivity|]. simpl. unfold deliver, receive, handleProposalsStream. simpl. by rewrite handle_wire.
  - eexists. split; [reflexivity|]. simpl. unfold deliver, receive, handleSigsStream. simpl. by rewrite handle_wire.
  - unfold GossipBus_PublishVRFProof. destruct (holds_proof p a) eqn:E.
    + exists []. by rewrite app_nil_r.
    + eexists. split; [reflexivity|]. simpl. unfold deliver, receive, handleVRFProofsStream. simpl. by rewrite handle_wire.
Qed.

(** ** Histories *)

(** The local engine calls the bus, or a peer opens a stream with any content. *)
Inductive bus_event :=
| Local (op : bus_op)
| Remote (p : protocol) (stream : bytes).

Definition event_step (b : GossipBus) (ev : bus_event) : GossipBus :=
  match ev with Local op => bus_step op b | Remote p s => receive p s b end.

(** The last final this node published for a cycle. *)
Fixpoint last_final (c : Z) (evs : list bus_event) (acc : option Block) : option Block :=
  match evs with
  | [] => acc
  | Local (OpPublishFinal block _) :: evs => last_final c evs (if decide (b_Index block = c) then CloneBlock (Some block) else acc)
  | _ :: evs => last_final c evs acc
  end.

(** What holds after every history. *)
Definition bus_inv (b : GossipBus) : Prop := ∀ c, NoDup (vm_SignerID <$> GetVRFProofs c b).

(** A stream changes at most one component. *)
Lemma receive_cases p s (b : GossipBus) : receive p s b = b ∨
  (∃ e, receive p s b = set_gb_pending (gb_pending b ++ [e]) b) ∨
  (∃ block, receive p s b = set_gb_proposals (<[b_Index block := block]> (gb_proposals b)) b) ∨
  (∃ sig, receive p s b = add_sig sig b) ∨
  (∃ proof, holds_proof proof b = false ∧ receive p s b = add_proof proof b).
Proof.
  destruct p; cbn [receive];
    unfold handleEntriesStream, handleProposalsStream, handleSigsStream, handleVRFProofsStream, handle;
    repeat case_match; subst; eauto 10.
Qed.

Lemma add_sig_grows sig b c : GetSigs c b `prefix_of` GetSigs c (add_sig sig b).
Proof.
  simpl. unfold GossipBus_GetSigs. simpl. destruct (decide (bs_Cycle sig = c)) as [<-|Hne].
  - rewrite lookup_insert_eq. simpl. by eexists.
  - by rewrite lookup_insert_ne.
Qed.

Lemma add_proof_spec proof b c : holds_proof proof b = false →
  GetVRFProofs c b `prefix_of` GetVRFProofs c (add_proof proof b) ∧
  (NoDup (vm_SignerID <$> GetVRFProofs c b) → NoDup (vm_SignerID <$> GetVRFProofs c (add_proof proof b))).
Proof.
  intros Hh. simpl. unfold GossipBus_GetVRFProofs. simpl. destruct (decide (vm_Cycle proof = c)) as [<-|Hne].
  - rewrite lookup_insert_eq. simpl. split; [by eexists|]. intros Hn. by apply fmap_snoc_NoDup.
  - by rewrite lookup_insert_ne.
Qed.

Definition step_ok (b b' : GossipBus) : Prop :=
  (∀ c, GetSigs c b `prefix_of` GetSigs c b') ∧ (∀ c, GetVRFProofs c b `prefix_of` GetVRFProofs c b') ∧
  (bus_inv b → bus_inv b').

Lemma step_ok_refl b : step_ok b b.
Proof. by split_and!. Qed.

Lemma step_ok_sig sig b : step_ok b (add_sig sig b).
Proof. split_and!; [apply add_sig_grows|done|done]. Qed.

Lemma step_ok_proof proof b : holds_proof proof b = false → step_ok b (add_proof proof b).
Proof.
  intros Hh. split_and!; [done|intros c; by apply add_proof_spec|]. intros Hb c. by apply add_proof_spec, Hb.
Qed.

Lemma event_step_ok ev b : step_ok b (event_step b ev).
Proof.
  destruct ev as [op|p s]; cbn [event_step].
  - destruct op as [e|r|block p|block p|s|p]; simpl; try exact (step_ok_refl b).
    + unfold GossipBus_Propose. destruct (gb_proposals b !! b_Index block); apply (step_ok_refl b).
    + apply (step_ok_sig s).
    + unfold GossipBus_PublishVRFProof. destruct (holds_proof p b) eqn:E; [apply step_ok_refl|].
      by apply (step_ok_proof p).
  - destruct (receive_cases p s b) as [->|[[e ->]|[[blk ->]|[[sig ->]|[proof [Hh ->]]]]]].
    + apply step_ok_refl.
    + apply (step_ok_refl b).
    + apply (step_ok_refl b).
    + apply step_ok_sig.
    + by apply step_ok_proof.
Qed.

Lemma CloneBlock_idem b : CloneBlock (CloneBlock b) = CloneBlock b.
Proof.
  destruct b as [b|]; [|done]. unfold CloneBlock. cbn. f_equal. f_equal.
  - destruct (b_Anchored b) as [es|]; [|done]. f_equal. rewrite map_map. apply map_ext. intros e. by destruct e.
  - by destruct (b_PrepareSigsBitmap b) as [[|]|].
Qed.

Lemma event_step_finals ev b c :
  GetFinal c (event_step b ev) = last_final c [ev] (GetFinal c b).
Proof.
  destruct ev as [op|p s]; cbn [event_step last_final].
  - destruct op as [e|r|block p|block p|s|p]; try done; simpl.
    + unfold GossipBus_Propose. by case_match.
    + unfold GossipBus_GetFinal. simpl. unfold store_clone. simpl. destruct (decide (b_Index block = c)) as [E|E].
      * subst. rewrite lookup_insert_eq. exact (CloneBlock_idem (Some block)).
      * by rewrite lookup_insert_ne.
    + unfold GossipBus_PublishVRFProof. by case_match.
  - destruct (receive_cases p s b) as [->|[[e ->]|[[blk ->]|[[sig ->]|[proof [Hh ->]]]]]]; done.
Qed.

Lemma last_final_cons c ev evs acc : last_final c (ev :: evs) acc = last_final c evs (last_final c [ev] acc).
Proof. destruct ev as [[]|]; done. Qed.

Lemma run_finals evs : ∀ b c, GetFinal c (foldl event_step b evs) = last_final c evs (GetFinal c b).
Proof.
  induction evs as [|ev evs IH]; intros b c; [done|]. cbn [foldl].
  rewrite IH, event_step_finals. by rewrite (last_final_cons c ev evs).
Qed.

Lemma run_step_ok evs : ∀ b, step_ok b (foldl event_step b evs).
Proof.
  induction evs as [|ev evs IH]; intros b; [apply step_ok_refl|]. cbn [foldl].
  destruct (event_step_ok ev b) as (S1 & V1 & I1), (IH (event_step b ev)) as (S2 & V2 & I2).
  split_and!; [intros c; etrans; [apply S1|apply S2]|intros c; etrans; [apply V1|apply V2]|auto].
Qed.

(** C28: Whatever streams peers open, with whatever bytes, and however they interleave with
    the node's own calls: votes and VRF proofs are never withdrawn, a signer has at most one
    VRF proof per cycle, and the finalised block of a cycle is the last one this node
    published itself; no message of a peer can set or change it. *)
Theorem p2p_bus_invariant evs1 evs2 : let b1 := foldl event_step NewGossipBus evs1 in
  let b2 := foldl event_step b1 evs2 in ∀ c,
  GetSigs c b1 `prefix_of` GetSigs c b2 ∧ GetVRFProofs c b1 `prefix_of` GetVRFProofs c b2 ∧
  NoDup (vm_SignerID <$> GetVRFProofs c b2) ∧ GetFinal c b2 = last_final c (evs1 ++ evs2) None.
Proof.
  intros b1 b2 c. destruct (run_step_ok evs2 b1) as (S2 & V2 & I2). split_and!; [done|done| |].
  - apply I2. apply run_step_ok. intros c'. apply NoDup_nil_2.
  - unfold b2, b1. rewrite <-foldl_app, run_finals. done.
Qed.

(** The engine is written against [GossipLaws]; this bus does not satisfy them: a vote
    published twice is held twice. *)
Lemma p2p_duplicate_votes (sig : BlockSig) : ¬ GossipLaws GossipBus NewGossipBus.
Proof.
  intros [_ _ _ Hone _]. specialize (Hone [OpPublishSig sig; OpPublishSig sig] (bs_Cycle sig)).
  assert (Hrun : GetSigs (bs_Cycle sig) (bus_run [OpPublishSig sig; OpPublishSig sig] NewGossipBus) = [sig; sig]).
  { simpl. unfold GossipBus_GetSigs. simpl. by rewrite !lookup_insert_eq. }
  rewrite Hrun in Hone. apply NoDup_cons in Hone as [Hn _]. apply Hn. by left.
Qed.

(** A peer replaces the candidate of a cycle, unlike a local [Propose]. *)
Lemma p2p_candidate_replaced (block : Block) b : survives block →
  GetProposed (b_Index block) (receive protocolProposals (wire (marshalled block)) b) = CloneBlock (Some block).
Proof.
  intros Hs. cbn [receive GetProposed gossip_bus]. unfold handleProposalsStream. rewrite handle_wire by done.
  unfold GossipBus_GetProposed. cbn [set_gb_proposals gb_proposals]. by rewrite lookup_insert_eq.
Qed.

(** ** The engine on this bus *)

Section commit.
Context `{Primitives, Cbor, Ristretto, Gonum, StateCbor}.
Context (arrivals : nat → list (protocol * bytes)) (patience : nat → nat).

(** Between two calls of the engine, any streams arrive. *)
Definition net (n : nat) (b : GossipBus) : GossipBus :=
  foldl event_step b (map (fun m => Remote m.1 m.2) (arrivals n)).

Lemma last_final_remote c ms acc : last_final c (map (fun m => Remote m.1 m.2) ms) acc = acc.
Proof. by induction ms. Qed.

Lemma net_finals n b c : GetFinal c (net n b) = GetFinal c b.
Proof. unfold net. by rewrite run_finals, last_final_remote. Qed.

Lemma poll_final n c : ∀ w : World (bus := GossipBus), GetFinal c (w_bus w) = None →
  ∃ w', poll n (bus_read net (GetFinal c)) w = (w', Ok None).
Proof.
  assert (Hread : ∀ w : World (bus := GossipBus), GetFinal c (w_bus w) = None → ∃ w',
    bus_read net (GetFinal c) w = (w', Ok None) ∧ GetFinal c (w_bus w') = None).
  { intros w Hw. eexists. unfold bus_read, bus_call. cbn beta iota zeta. rewrite net_finals, Hw. split; [done|].
    cbn [w_bus]. by rewrite net_finals. }
  induction n as [|n IH]; intros w Hw; destruct (Hread w Hw) as (w1 & E1 & H1'); cbn [poll]; unfold mbind; rewrite E1.
  - by eexists.
  - by apply IH.
Qed.

(** C14: Over this bus only the leader commits. A node that did not publish a finalised block
    of the cycle itself ends COMMIT with an error after any history and whatever arrives
    while it waits, also when the leader's block does arrive: a finalised block is sent as
    a proposal and never shows up in [GetFinal] of another node. *)
Theorem p2p_only_leader_commits cycle pr evs (w : World (bus := GossipBus)) :
  w_bus w = foldl event_step NewGossipBus evs → last_final cycle evs None = None →
  pr_LeaderID pr ≠ ID (n_UID (en_node (w_eng w))) →
  ∃ w' err, RunCommitPhase net patience cycle pr w = (w', Err err).
Proof.
  intros Hb Hl Hlead.
  assert (Hf : GetFinal cycle (w_bus w) = None) by (rewrite Hb, run_finals; exact Hl).
  unfold RunCommitPhase. destruct (pr_QuorumReached pr); [|by eexists _, _].
  cbn [negb]. unfold mbind at 1, get_eng. cbn iota beta. rewrite bool_decide_false by done.
  destruct (en_gossip (w_eng w)); [|by eexists _, _]. cbn [negb].
  unfold waitForFinal, get_patience. unfold mbind. destruct (poll_final (patience (w_step w)) cycle w Hf) as [w' E].
  rewrite E. by eexists _, _.
Qed.
End commit.
End p2p.

(** ** Instances *)

#[export] Instance sig_countable : Countable BlockSig.
Proof.
  refine (inj_countable' (fun s => (bs_Cycle s, bs_Sig s, bs_SignerID s))
            (fun '(c, s, i) => {| bs_Cycle := c; bs_Sig := s; bs_SignerID := i |}) _).
  by intros [].
Defined.

#[export] Instance vrf_msg_countable : Countable VRFProofMsg.
Proof.
  refine (inj_countable' (fun m => (vm_Cycle m, vm_Proof m, vm_SignerID m))
            (fun '(c, p, i) => {| vm_Cycle := c; vm_Proof := p; vm_SignerID := i |}) _).
  by intros [].
Defined.

#[export] Instance json_entry : Json ProvenanceEntry := toy_json (demo_submission 0).
#[export] Instance json_sig : Json BlockSig := toy_json (MkBlockSig 0 [] "").
#[export] Instance json_vrf : Json VRFProofMsg := toy_json (MkVRFMsg 0 [] "").

Lemma toy_msg_survives {A} `{Countable A} (zero x : A) : fits (toy_cbor x) → @survives A (toy_json zero) x.
Proof. intros Hf. split; [exact Hf|apply toy_json_roundtrip]. Qed.

Definition demo_sig : BlockSig := {| bs_Cycle := 4; bs_Sig := [1; 2; 3]%Z; bs_SignerID := "a" |}.

Lemma p2p_delivery_witness :
  foldl deliver NewGossipBus (gb_out (PublishSig demo_sig NewGossipBus)) = add_sig demo_sig NewGossipBus.
Proof.
  destruct (p2p_delivery (OpPublishSig demo_sig) NewGossipBus NewGossipBus) as (out & E & D).
  - apply toy_msg_survives. split; vm_compute; intros Hx; discriminate Hx.
  - cbn [gb_out NewGossipBus app] in E. rewrite <-E in D. exact D.
Defined.

Definition demo_final : Block :=
  MkBlock 0 [] [] [] None fzero 0 [] (MkQuorumConfig 0 0) [] 0 None None [] [] 0 [] ∅.

Definition trio_result : PrepareResult :=
  {| pr_Block := demo_final; pr_PrepareSigs := ∅; pr_PrepareBitmap := []; pr_LeaderID := ID (demo_uid 3);
     pr_QuorumReached := true |}.

(** Validator 1 while the block of the leader arrives again and again. *)
Lemma p2p_only_leader_commits_witness : ∃ w' err,
  RunCommitPhase (net (fun _ => [(protocolProposals, wire (marshalled demo_final))])) demo_patience 0 trio_result
    {| w_eng := trio_engine 1; w_bus := NewGossipBus; w_step := 0 |} = (w', Err err).
Proof.
  apply (p2p_only_leader_commits _ _ 0 trio_result []); [reflexivity|reflexivity|].
  vm_compute. intros Hx. discriminate Hx.
Defined.
