(* ===== verification/P2pMesh.v ===== *)
(** * Connectivity of the libp2p bus (pkg/transport/p2p/gossip.go)

    Discovery, dialling and redialling, and the transport key. The libp2p host is an
    environment: it keeps the live links, and reports a link that comes or goes to the
    methods [Connected] and [Disconnected] of the registered notifiee. Whether a dial
    succeeds is a parameter. Peer identifiers and addresses are strings. *)
From S2P Require Import Prelude Errors.

Definition second_ns : Z := 1000000000.
Definition redialPeriod : Z := 10 * second_ns.
Definition redialRetryInterval : Z := 2 * second_ns.

Record AddrInfo := MkAddrInfo {
  ai_ID : string;
  ai_Addrs : list string;
}.

(** The connectivity state of a bus, with the links of its host. *)
Record Mesh := MkMesh {
  ms_self : string;
  ms_connected : gset string;
  ms_knownAddrs : gmap string (list string);
  ms_lastAttempt : gmap string Z;
  ms_links : gset string;
}.

(** [NewGossipBus], before its first dial. *)
Definition NewMesh (self : string) : Mesh :=
  {| ms_self := self; ms_connected := ∅; ms_knownAddrs := ∅; ms_lastAttempt := ∅; ms_links := ∅ |}.

Definition set_connected (c : gset string) (m : Mesh) : Mesh :=
  {| ms_self := ms_self m; ms_connected := c; ms_knownAddrs := ms_knownAddrs m;
     ms_lastAttempt := ms_lastAttempt m; ms_links := ms_links m |}.
Definition set_known (k : gmap string (list string)) (m : Mesh) : Mesh :=
  {| ms_self := ms_self m; ms_connected := ms_connected m; ms_knownAddrs := k;
     ms_lastAttempt := ms_lastAttempt m; ms_links := ms_links m |}.
Definition set_attempt (l : gmap string Z) (m : Mesh) : Mesh :=
  {| ms_self := ms_self m; ms_connected := ms_connected m; ms_knownAddrs := ms_knownAddrs m;
     ms_lastAttempt := l; ms_links := ms_links m |}.
Definition set_links (l : gset string) (m : Mesh) : Mesh :=
  {| ms_self := ms_self m; ms_connected := ms_connected m; ms_knownAddrs := ms_knownAddrs m;
     ms_lastAttempt := ms_lastAttempt m; ms_links := l |}.

(** ** The notifiee *)

(** [ConnectedF] and [DisconnectedF] of [netNotify]. *)
Definition netNotify_ConnectedF (p : string) (m : Mesh) : Mesh := set_connected ({[ p ]} ∪ ms_connected m) m.
Definition netNotify_DisconnectedF (p : string) (m : Mesh) : Mesh := set_connected (ms_connected m ∖ {[ p ]}) m.

(** [Connected] and [Disconnected] of [netNotify], the methods of the interface that the
    host calls: both bodies are empty. *)
Definition netNotify_Connected (p : string) (m : Mesh) : Mesh := m.
Definition netNotify_Disconnected (p : string) (m : Mesh) : Mesh := m.

(** ** Dialling *)

Definition rememberPeer (pi : AddrInfo) (m : Mesh) : Mesh :=
  if String.eqb (ai_ID pi) (ms_self m) then m
  else set_known (<[ai_ID pi := default [] (ms_knownAddrs m !! ai_ID pi) ++ ai_Addrs pi]> (ms_knownAddrs m)) m.

(** The host on a dial: an open link stays; a new one is reported to the notifiee. *)
Definition host_connect (ok : bool) (p : string) (m : Mesh) : Mesh :=
  if negb ok || bool_decide (p ∈ ms_links m) then m
  else netNotify_Connected p (set_links ({[ p ]} ∪ ms_links m) m).

(** The host when a link is lost. *)
Definition host_disconnect (p : string) (m : Mesh) : Mesh :=
  if bool_decide (p ∈ ms_links m) then netNotify_Disconnected p (set_links (ms_links m ∖ {[ p ]}) m) else m.

Definition connectToPeerInfo (ok : bool) (pi : AddrInfo) (m : Mesh) : Mesh :=
  host_connect ok (ai_ID pi) (rememberPeer pi m).

(** [connectToPeer]; [parseAddrInfo] is the multiaddr library's. *)
Definition connectToPeer (parseAddrInfo : string → option AddrInfo) (ok : bool) (addrStr : string) (m : Mesh) : Mesh :=
  match parseAddrInfo addrStr with
  | None => m
  | Some pi => connectToPeerInfo ok pi m
  end.

(** [mdnsNotifee.HandlePeerFound]. *)
Definition HandlePeerFound (ok : bool) (pi : AddrInfo) (m : Mesh) : Mesh :=
  if String.eqb (ai_ID pi) (ms_self m) then m
  else
    let m1 := rememberPeer pi m in
    if bool_decide (ai_ID pi ∈ ms_connected m1) then m1 else connectToPeerInfo ok pi m1.

(** One peer in a round of [redialLoop] at the time [now]; [addrs] is the copy taken at the
    start of the round. A peer never tried has the zero time as its last attempt. *)
Definition redial_one (now : Z) (dial : string → bool) (m : Mesh) (candidate : string * list string) : Mesh :=
  let '(id, addrs) := candidate in
  if bool_decide (id ∈ ms_links m) then m
  else
    let tooSoon :=
      match ms_lastAttempt m !! id with
      | Some last => (now <? last + redialRetryInterval)%Z
      | None => false
      end in
    if tooSoon then m
    else
      let m1 := set_attempt (<[id := now]> (ms_lastAttempt m)) m in
      if (length addrs =? 0)%nat then m1 else connectToPeerInfo (dial id) (MkAddrInfo id addrs) m1.

(** One tick of [redialLoop]: the dials of a round touch different peers, so the order in
    which they complete does not matter. *)
Definition redial_round (now : Z) (dial : string → bool) (m : Mesh) : Mesh :=
  foldl (redial_one now dial) m (map_to_list (ms_knownAddrs m)).

Definition ConnectedPeers (m : Mesh) : nat := size (ms_connected m).

(** ** Runs *)

Inductive mesh_event :=
| Found (ok : bool) (pi : AddrInfo)
| Bootstrap (ok : bool) (pi : AddrInfo)
| Lost (p : string)
| Redial (now : Z) (dial : string → bool).

Definition mesh_step (m : Mesh) (ev : mesh_event) : Mesh :=
  match ev with
  | Found ok pi => HandlePeerFound ok pi m
  | Bootstrap ok pi => connectToPeerInfo ok pi m
  | Lost p => host_disconnect p m
  | Redial now dial => redial_round now dial m
  end.

Definition mesh_run (evs : list mesh_event) (m : Mesh) : Mesh := foldl mesh_step m evs.

(** ** The transport key *)

(** The operations of the libp2p crypto library, and the file. *)
Class KeyCodec := {
  privkey : Type;
  MarshalPrivateKey : privkey → option bytes;
  UnmarshalPrivateKey : bytes → option privkey;
}.

Class KeyCodecLaws `{KeyCodec} : Prop := {
  privkey_roundtrip k raw : MarshalPrivateKey k = Some raw → UnmarshalPrivateKey raw = Some k;
}.

(** What reading the key file gave. *)
Inductive file_read :=
| FileData (data : bytes)
| FileMissing
| FileError.

(** [loadOrGenerateKey]: the key, and what it wrote to the file. [fresh] is the generated
    key, if the generation succeeds; [writable] says whether the file can be written. *)
Definition loadOrGenerateKey `{KeyCodec} (path : string) (file : file_read) (fresh : option privkey) (writable : bool) :
    outcome gerror (privkey * option bytes) :=
  if String.eqb path "" then
    match fresh with Some k => Ok (k, None) | None => Err (ErrText "generate key: %w") end
  else
    match file with
    | FileData data =>
        match UnmarshalPrivateKey data with
        | Some k => Ok (k, None)
        | None => Err (ErrText "parse libp2p key %s: %w")
        end
    | FileError => Err (ErrText "read libp2p key %s: %w")
    | FileMissing =>
        match fresh with
        | None => Err (ErrText "generate key: %w")
        | Some k =>
            match MarshalPrivateKey k with
            | None => Err (ErrText "marshal libp2p key: %w")
            | Some raw =>
                if negb writable then Err (ErrText "write libp2p key %s: %w") else Ok (k, Some raw)
            end
        end
    end.
