(* ===== verification/P2pMeshTheorems.v ===== *)
(** * Theorems about the connectivity of the libp2p bus

    A redial round treats each peer on its own; it repairs the mesh; it also doubles the
    addresses of every peer it fails to reach; and the connected set stays empty. *)
From S2P Require Import Prelude Errors P2pMesh.

(** ** One round, peer by peer *)

(** What a round reads and writes of one peer. *)
Definition peer_view (m : Mesh) (p : string) : bool * option (list string) * option Z :=
  (bool_decide (p ∈ ms_links m), ms_knownAddrs m !! p, ms_lastAttempt m !! p).

Lemma rememberPeer_self pi m : ms_self (rememberPeer pi m) = ms_self m.
Proof. unfold rememberPeer. by case_match. Qed.

Lemma host_connect_self ok p m : ms_self (host_connect ok p m) = ms_self m.
Proof. unfold host_connect. by case_match. Qed.

Lemma redial_one_self now dial m c : ms_self (redial_one now dial m c) = ms_self m.
Proof.
  destruct c as [id addrs]. unfold redial_one. case_bool_decide; [done|].
  destruct (match ms_lastAttempt m !! id with Some _ => _ | None => _ end); [done|].
  case_match; [done|]. unfold connectToPeerInfo. by rewrite host_connect_self, rememberPeer_self.
Qed.

Lemma rememberPeer_other pi m p : p ≠ ai_ID pi → peer_view (rememberPeer pi m) p = peer_view m p.
Proof.
  intros Hp. unfold rememberPeer, peer_view. case_match; [done|]. cbn. by rewrite lookup_insert_ne.
Qed.

Lemma host_connect_other ok q m p : p ≠ q → peer_view (host_connect ok q m) p = peer_view m p.
Proof.
  intros Hp. unfold host_connect, peer_view. case_match; [done|]. cbn. f_equal. f_equal.
  apply bool_decide_ext. set_solver.
Qed.

Lemma redial_one_other now dial m id addrs p : p ≠ id →
  peer_view (redial_one now dial m (id, addrs)) p = peer_view m p.
Proof.
  intros Hp. unfold redial_one. case_bool_decide; [done|].
  destruct (match ms_lastAttempt m !! id with Some _ => _ | None => _ end); [done|].
  set (m1 := set_attempt _ m).
  assert (H1 : peer_view m1 p = peer_view m p).
  { unfold peer_view. cbn. by rewrite lookup_insert_ne. }
  case_match; [done|]. unfold connectToPeerInfo. by rewrite host_connect_other, rememberPeer_other.
Qed.

(** What a round does to one peer, as a function of its view. *)
Definition redial_view (now : Z) (ok self : bool) (addrs : list string)
    (v : bool * option (list string) * option Z) : bool * option (list string) * option Z :=
  let '(linked, known, last) := v in
  if linked then v
  else if match last with Some l => (now <? l + redialRetryInterval)%Z | None => false end then v
  else if (length addrs =? 0)%nat then (linked, known, Some now)
  else (ok, if self then known else Some (default [] known ++ addrs), Some now).

Lemma redial_one_view now dial m p addrs :
  peer_view (redial_one now dial m (p, addrs)) p =
  redial_view now (dial p) (String.eqb p (ms_self m)) addrs (peer_view m p).
Proof.
  unfold redial_one, redial_view, peer_view.
  destruct (bool_decide (p ∈ ms_links m)) eqn:El; [by rewrite El|].
  destruct (match ms_lastAttempt m !! p with Some _ => _ | None => _ end); [by rewrite El|].
  destruct (length addrs =? 0)%nat; [cbn; by rewrite El, lookup_insert_eq|].
  unfold connectToPeerInfo, host_connect, rememberPeer. cbn [ai_ID ai_Addrs ms_self set_attempt].
  assert (Hin : bool_decide (p ∈ {[ p ]} ∪ ms_links m) = true) by (apply bool_decide_eq_true; set_solver).
  destruct (String.eqb p (ms_self m)), (dial p); cbn; rewrite ?El; cbn; by rewrite ?lookup_insert_eq, ?El, ?Hin.
Qed.

Lemma redial_fold_other now dial l p : ∀ m, p ∉ l.*1 →
  peer_view (foldl (redial_one now dial) m l) p = peer_view m p.
Proof.
  induction l as [|[id addrs] l IH]; intros m Hp; [done|]. cbn [foldl].
  apply not_elem_of_cons in Hp as [Hne Hp]. by rewrite IH, redial_one_other.
Qed.

Lemma redial_fold_self now dial l : ∀ m, ms_self (foldl (redial_one now dial) m l) = ms_self m.
Proof. induction l as [|c l IH]; intros m; [done|]. cbn [foldl]. by rewrite IH, redial_one_self. Qed.

(** A round acts on each known peer as if it were alone. *)
Lemma redial_round_view now dial m p :
  peer_view (redial_round now dial m) p =
  match ms_knownAddrs m !! p with
  | None => peer_view m p
  | Some addrs => redial_view now (dial p) (String.eqb p (ms_self m)) addrs (peer_view m p)
  end.
Proof.
  unfold redial_round. pose proof (NoDup_fst_map_to_list (ms_knownAddrs m)) as Hnd.
  destruct (ms_knownAddrs m !! p) as [addrs|] eqn:Ek.
  - apply elem_of_map_to_list in Ek. apply list_elem_of_split in Ek as (l1 & l2 & El). rewrite El in *.
    rewrite fmap_app, fmap_cons in Hnd. apply NoDup_app in Hnd as (_ & Hd & [Hp2 _]%NoDup_cons).
    rewrite foldl_app. cbn [foldl]. rewrite redial_fold_other by done.
    rewrite redial_one_view, redial_fold_self, redial_fold_other; [done|].
    intros Hp1. apply (Hd p Hp1). by left.
  - rewrite redial_fold_other; [done|]. intros ([q a] & -> & Hin)%list_elem_of_fmap.
    apply elem_of_map_to_list in Hin. cbn in Ek. congruence.
Qed.

Definition retriable (now : Z) (m : Mesh) (p : string) : Prop :=
  match ms_lastAttempt m !! p with Some l => (l + redialRetryInterval ≤ now)%Z | None => True end.

Lemma retriable_bool now m p : retriable now m p →
  match ms_lastAttempt m !! p with Some l => (now <? l + redialRetryInterval)%Z | None => false end = false.
Proof. unfold retriable. destruct (ms_lastAttempt m !! p); [|done]. intros Hle. by apply Z.ltb_ge. Qed.

(** Ticks of the loop, one [redialPeriod] apart. *)
Definition redial_ticks (start : Z) (dial : string → bool) (k : nat) (m : Mesh) : Mesh :=
  foldl (fun m i => redial_round (start + Z.of_nat i * redialPeriod) dial m) m (seq 0 k).

Lemma redial_ticks_S start dial k m :
  redial_ticks start dial (S k) m =
  redial_round (start + Z.of_nat k * redialPeriod) dial (redial_ticks start dial k m).
Proof. unfold redial_ticks. by rewrite seq_S, foldl_app. Qed.

Lemma redial_ticks_self start dial k m : ms_self (redial_ticks start dial k m) = ms_self m.
Proof.
  induction k as [|k IH]; [done|]. rewrite redial_ticks_S. unfold redial_round.
  by rewrite redial_fold_self.
Qed.

(** Redialling repairs the mesh, at a price. A round connects every known peer with an
    address that answers and was not tried in the last two seconds, and keeps every link it
    found. But each round that does not reach a peer appends the addresses it just dialled
    to those already known, so after [k] ticks a peer that stays unreachable is recorded
    with [2 ^ k] times the addresses it had. *)
Theorem redial_repairs_and_doubles m :
  (∀ now dial p addrs, ms_knownAddrs m !! p = Some addrs → addrs ≠ [] → retriable now m p → dial p = true →
     p ∈ ms_links (redial_round now dial m)) ∧
  (∀ now dial p, p ∈ ms_links m → p ∈ ms_links (redial_round now dial m)) ∧
  (∀ start dial k p addrs, ms_knownAddrs m !! p = Some addrs → addrs ≠ [] → p ≠ ms_self m →
     p ∉ ms_links m → retriable start m p → dial p = false →
     ∃ addrs', ms_knownAddrs (redial_ticks start dial k m) !! p = Some addrs' ∧
       length addrs' = 2 ^ k * length addrs).
Proof.
  split_and!.
  - intros now dial p addrs Hk Ha Hr Hd. pose proof (redial_round_view now dial m p) as Hv. rewrite Hk in Hv.
    unfold peer_view at 2, redial_view in Hv. rewrite (retriable_bool now m p Hr), Hd in Hv.
    assert (Hz : (length addrs =? 0)%nat = false) by (by destruct addrs). rewrite Hz in Hv.
    apply (bool_decide_eq_true_1 (p ∈ _)). by destruct (bool_decide (p ∈ ms_links m)) eqn:El; injection Hv as ->.
  - intros now dial p Hl. pose proof (redial_round_view now dial m p) as Hv. apply (bool_decide_eq_true_1 (p ∈ _)).
    unfold peer_view at 2 3, redial_view in Hv. rewrite (bool_decide_eq_true_2 _ Hl) in Hv.
    destruct (ms_knownAddrs m !! p); by injection Hv as ->.
  - intros start dial k p addrs Hk Ha Hs Hl Hr Hd.
    assert (Hz : (length addrs =? 0)%nat = false) by (by destruct addrs).
    assert (Hinv : ∃ addrs' last, peer_view (redial_ticks start dial k m) p = (false, Some addrs', last) ∧
      length addrs' = 2 ^ k * length addrs ∧
      match last with Some l => (l + redialRetryInterval ≤ start + Z.of_nat k * redialPeriod)%Z | None => True end).
    { induction k as [|k (addrs' & last & Hv & Hlen & Hlast)].
      - exists addrs, (ms_lastAttempt m !! p). unfold peer_view. cbn [redial_ticks seq foldl].
        rewrite Hk, (bool_decide_eq_false_2 _ Hl). split_and!; [done|simpl; lia|].
        unfold retriable in Hr. destruct (ms_lastAttempt m !! p); [|done]. lia.
      - exists (addrs' ++ addrs'), (Some (start + Z.of_nat k * redialPeriod)%Z). split_and!.
        + rewrite redial_ticks_S, redial_round_view. injection Hv as El Ek Et. rewrite Ek.
          unfold peer_view. rewrite El, Ek, Et. unfold redial_view.
          replace (match last with Some l => _ | None => _ end) with false
            by (destruct last; [symmetry; by apply Z.ltb_ge|done]).
          replace (length addrs' =? 0)%nat with false
            by (symmetry; apply Nat.eqb_neq; apply Nat.eqb_neq in Hz; pose proof (Nat.pow_nonzero 2 k); nia).
          rewrite redial_ticks_self, Hd. by rewrite (proj2 (String.eqb_neq _ _) Hs).
        + rewrite length_app, Hlen. simpl. lia.
        + unfold redialRetryInterval, redialPeriod, second_ns. lia. }
    destruct Hinv as (addrs' & last & Hv & Hlen & _). injection Hv as _ Ek _. eauto.
Qed.

(** ** The connected set *)

Lemma host_connect_connected ok p m : ms_connected (host_connect ok p m) = ms_connected m.
Proof. unfold host_connect. by case_match. Qed.

Lemma rememberPeer_connected pi m : ms_connected (rememberPeer pi m) = ms_connected m.
Proof. unfold rememberPeer. by case_match. Qed.

Lemma connect_connected ok pi m : ms_connected (connectToPeerInfo ok pi m) = ms_connected m.
Proof. unfold connectToPeerInfo. by rewrite host_connect_connected, rememberPeer_connected. Qed.

Lemma redial_one_connected now dial m c : ms_connected (redial_one now dial m c) = ms_connected m.
Proof.
  destruct c as [id addrs]. unfold redial_one. case_bool_decide; [done|].
  destruct (match ms_lastAttempt m !! id with Some _ => _ | None => _ end); [done|].
  case_match; [done|]. by rewrite connect_connected.
Qed.

Lemma mesh_step_connected m ev : ms_connected (mesh_step m ev) = ms_connected m.
Proof.
  destruct ev as [ok pi|ok pi|p|now dial]; cbn [mesh_step].
  - unfold HandlePeerFound. case_match; [done|]. cbv zeta. case_bool_decide; by rewrite ?connect_connected, rememberPeer_connected.
  - apply connect_connected.
  - unfold host_disconnect. by case_bool_decide.
  - unfold redial_round. generalize (map_to_list (ms_knownAddrs m)). intros l. revert m.
    induction l as [|c l IH]; intros m; [done|]. cbn [foldl]. by rewrite IH, redial_one_connected.
Qed.

(** The notifiee overrides [ConnectedF] and [DisconnectedF], which the host does not call:
    the set of connected peers stays empty and the reported number of peers is 0, whatever
    links the host has. *)
Lemma connected_peers_zero evs self :
  ms_connected (mesh_run evs (NewMesh self)) = ∅ ∧ ConnectedPeers (mesh_run evs (NewMesh self)) = 0.
Proof.
  assert (Hc : ms_connected (mesh_run evs (NewMesh self)) = ∅).
  { assert (Hr : ∀ evs m, ms_connected (mesh_run evs m) = ms_connected m); [|by rewrite Hr].
    clear evs. induction evs as [|ev evs IH]; intros m; [done|]. unfold mesh_run in *. cbn [foldl].
    by rewrite IH, mesh_step_connected. }
  split; [done|]. unfold ConnectedPeers. by rewrite Hc.
Qed.

(** ** The transport key *)

(** The key survives a restart: the first start writes what the next one reads back. *)
Lemma transport_key_stable `{KeyCodec, !KeyCodecLaws} path fresh writable k raw fresh' writable' :
  loadOrGenerateKey path FileMissing fresh writable = Ok (k, Some raw) →
  loadOrGenerateKey path (FileData raw) fresh' writable' = Ok (k, None).
Proof.
  unfold loadOrGenerateKey. destruct (String.eqb path ""); [by destruct fresh|].
  destruct fresh as [k'|]; [|done]. destruct (MarshalPrivateKey k') as [raw'|] eqn:Em; [|done].
  destruct writable; [|done]. intros [= <- <-]. by rewrite (privkey_roundtrip _ _ Em).
Qed.

(** ** Concrete instance *)

Definition lone_mesh : Mesh := mesh_run [Found false (MkAddrInfo "peer" ["/ip4/10.0.0.2/tcp/4001"])] (NewMesh "self").

(** Discovered while unreachable: recorded twice, and 64 times after five ticks. *)
Lemma redial_repairs_and_doubles_witness : ∃ addrs,
  ms_knownAddrs (redial_ticks 0 (fun _ => false) 5 lone_mesh) !! "peer" = Some addrs ∧ length addrs = 64.
Proof.
  destruct (redial_repairs_and_doubles lone_mesh) as (_ & _ & Hgrow).
  apply (Hgrow 0%Z (fun _ => false) 5 "peer" ["/ip4/10.0.0.2/tcp/4001"; "/ip4/10.0.0.2/tcp/4001"]).
  - reflexivity.
  - discriminate.
  - discriminate.
  - vm_compute. intros Hx. discriminate Hx.
  - exact I.
  - reflexivity.
Defined.
