(* ===== verification/Rest.v ===== *)
(** * The REST server (pkg/rest/server.go)

    Requests and responses are records; a handler is an engine action that returns a
    response. Decoding a submission body (encoding/json) and an identity file (CBOR) are
    the parameters [SubmitJson] and [UidDecode]. Listening and TLS are left out. *)
From Stdlib Require Import SpecFloat Ascii.
From S2P Require Import Prelude Crypto Smt Errors Vrf Identity Chain Config Rotation Mandates Quorum Gossip.
From S2P Require Import State Engine EngineCycle EngineApi.
Local Open Scope string_scope.

(** ** strconv and strings *)

Definition digit_value (a : Ascii.ascii) : option Z :=
  let n := Z.of_nat (Ascii.nat_of_ascii a) in
  if ((48 <=? n) && (n <=? 57))%Z then Some (n - 48)%Z else None.

Fixpoint digits_value (s : string) (acc : Z) : option Z :=
  match s with
  | EmptyString => Some acc
  | String a s' => match digit_value a with Some d => digits_value s' (10 * acc + d)%Z | None => None end
  end.

(** [strconv.ParseUint(s, 10, 64)]. *)
Definition ParseUint (s : string) : option Z :=
  match s with
  | EmptyString => None
  | _ => match digits_value s 0 with Some v => if (v <? 2 ^ 64)%Z then Some v else None | None => None end
  end.

(** [strconv.ParseInt(s, 10, 64)]: a sign, then [ParseUint], then the range of [int64]. *)
Definition ParseInt (s : string) : option Z :=
  let '(neg, rest) :=
    match s with
    | String a s' =>
        if Ascii.eqb a "+"%char then (false, s') else if Ascii.eqb a "-"%char then (true, s') else (false, s)
    | EmptyString => (false, s)
    end in
  match ParseUint rest with
  | None => None
  | Some un =>
      if neg then (if (2 ^ 63 <? un)%Z then None else Some (- un)%Z)
      else (if (2 ^ 63 <=? un)%Z then None else Some un)
  end.

Fixpoint drop_string (n : nat) (s : string) : string :=
  match n, s with
  | S n', String _ s' => drop_string n' s'
  | _, _ => s
  end.

(** [strings.TrimPrefix]. *)
Definition TrimPrefix (s pre : string) : string :=
  if String.prefix pre s then drop_string (String.length pre) s else s.

(** [strings.Split] at a single character. *)
Fixpoint split_at (c : Ascii.ascii) (s : string) : list string :=
  match s with
  | EmptyString => [EmptyString]
  | String a s' =>
      if Ascii.eqb a c then EmptyString :: split_at c s'
      else match split_at c s' with
           | x :: l => String a x :: l
           | [] => [String a EmptyString]
           end
  end.

(** [strings.TrimSpace] on the bytes of UTF-8 text: the white space of [unicode.IsSpace] takes
    one byte ([\t] to [\r] and the space), two (U+0085 and U+00A0) or three (U+1680, U+2000 to
    U+200A, U+2028, U+2029, U+202F, U+205F and U+3000). *)
Definition space1 (a : Ascii.ascii) : bool :=
  let n := Ascii.nat_of_ascii a in (n =? 32)%nat || ((9 <=? n)%nat && (n <=? 13)%nat).

Definition space2 (a b : Ascii.ascii) : bool :=
  let m := Ascii.nat_of_ascii b in
  (Ascii.nat_of_ascii a =? 0xC2)%nat && ((m =? 0x85)%nat || (m =? 0xA0)%nat).

Definition space3 (a b c : Ascii.ascii) : bool :=
  let n := Ascii.nat_of_ascii a in
  let m := Ascii.nat_of_ascii b in
  let l := Ascii.nat_of_ascii c in
  ((n =? 0xE1) && (m =? 0x9A) && (l =? 0x80))%nat
  || ((n =? 0xE2) && (m =? 0x80)
      && (((0x80 <=? l) && (l <=? 0x8A)) || (l =? 0xA8) || (l =? 0xA9) || (l =? 0xAF)))%nat
  || ((n =? 0xE2) && (m =? 0x81) && (l =? 0x9F))%nat
  || ((n =? 0xE3) && (m =? 0x80) && (l =? 0x80))%nat.

(** Drops the white space in front, whose multi-byte forms are read by [sp2] and [sp3]. *)
Fixpoint trim_front (sp2 : Ascii.ascii → Ascii.ascii → bool) (sp3 : Ascii.ascii → Ascii.ascii → Ascii.ascii → bool)
    (s : list Ascii.ascii) : list Ascii.ascii :=
  match s with
  | [] => []
  | a :: s1 =>
      if space1 a then trim_front sp2 sp3 s1 else
      match s1 with
      | [] => s
      | b :: s2 =>
          if sp2 a b then trim_front sp2 sp3 s2 else
          match s2 with
          | [] => s
          | c :: s3 => if sp3 a b c then trim_front sp2 sp3 s3 else s
          end
      end
  end.

Definition trim_left : list Ascii.ascii → list Ascii.ascii := trim_front space2 space3.

(** The end is trimmed backwards, so the bytes of a character arrive in reverse. *)
Definition trim_right (s : list Ascii.ascii) : list Ascii.ascii :=
  rev (trim_front (λ a b, space2 b a) (λ a b c, space3 c b a) (rev s)).

Definition TrimSpace (s : string) : string :=
  String.string_of_list_ascii (trim_left (trim_right (String.list_ascii_of_string s))).

(** No-break, ideographic and narrow spaces around text are white space; a letter that shares
    a byte with one is not. *)
Example trim_space_utf8 :
  TrimSpace (String.string_of_list_ascii (Ascii.ascii_of_nat <$>
    [0xC2; 0xA0; 0xE3; 0x80; 0x80; 0x61; 0x20; 0xC3; 0xA0; 0xE2; 0x80; 0xAF; 0x0A]%nat)) =
  String.string_of_list_ascii (Ascii.ascii_of_nat <$> [0x61; 0x20; 0xC3; 0xA0]%nat).
Proof. vm_compute. reflexivity. Qed.

(** ** Requests and responses *)

Record Request := MkRequest {
  rq_Method : string;
  rq_Path : string;
  rq_RootID : string;
  rq_Signature : string;
  rq_Timestamp : string;
  rq_Body : bytes;
}.

Record submitRequest := MkSubmit {
  sr_Hash : string;
  sr_Submitter : string;
  sr_Label : string;
}.

(** What the decoder made of a body: a request, or the kind of its error. *)
Inductive decoded :=
| DecOk (req : submitRequest)
| DecSyntax
| DecType
| DecOther.

Class SubmitJson := { decode_submit : bytes → decoded }.
Class UidDecode := { uid_decode : bytes → option UIDZeroSoulbound }.

Record rest_entry := MkRestEntry {
  re_hash : string;
  re_submitter : string;
  re_timestamp : Z;
  re_label : string;
  re_approver : option string;
  re_reference : option string;
  re_signature : option string;
}.

(** The [data] field of a response, by endpoint. *)
Inductive api_data :=
| DataProof (hash : string) (block_index block_time : Z) (state_root smt_proof submitter label : string)
| DataBlock (index : Z) (prev_hash state_root proposer : string) (anchored : list rest_entry)
    (lambda1 : float64) (timestamp : Z) (signatures validators : list string) (total required : Z)
| DataHealth (node_id : string) (block_height : Z) (pending : nat) (lambda1 : float64)
    (active_peers total_peers : nat) (state_root : string) (uptime : Z)
| DataRoot (state_root : string) (block_height : Z).

Record apiResponse := MkApi {
  ar_Status : string;
  ar_Code : string;
  ar_Message : string;
  ar_Data : option api_data;
}.

Definition apiError (code msg : string) : apiResponse :=
  {| ar_Status := "error"; ar_Code := code; ar_Message := msg; ar_Data := None |}.

Definition apiOK (data : api_data) : apiResponse :=
  {| ar_Status := "ok"; ar_Code := ""; ar_Message := ""; ar_Data := Some data |}.

(** A response: the status, whether [Retry-After] is set, and the body. *)
Record Response := MkResponse {
  rp_Status : Z;
  rp_RetryAfter : bool;
  rp_Body : option apiResponse;
}.

Definition writeJSON (status : Z) (v : apiResponse) : Response :=
  {| rp_Status := status; rp_RetryAfter := false; rp_Body := Some v |}.

Definition writeRetry (v : apiResponse) : Response :=
  {| rp_Status := 429; rp_RetryAfter := true; rp_Body := Some v |}.

Definition sanitizeError (err : string) : string :=
  if (200 <? String.length err)%nat then String.substring 0 200 err else err.

Definition maxLabelLen : Z := 1024.
Definition maxBodyBytes : nat := 4096.
Definition maxTimestampSkew : Z := 30.

Definition errInvalidJSON := "INVALID_JSON".
Definition errInvalidHash := "INVALID_HASH".
Definition errEmptySubmitter := "EMPTY_SUBMITTER".
Definition errLabelTooLong := "LABEL_TOO_LONG".
Definition errExtraFields := "EXTRA_FIELDS".
Definition errStaleTimestamp := "STALE_TIMESTAMP".
Definition errUnknownRoot := "UNKNOWN_ROOT".
Definition errInvalidSig := "INVALID_SIGNATURE".
Definition errNotFound := "NOT_FOUND".
Definition errRateLimited := "RATE_LIMITED".
Definition errQueueFull := "QUEUE_FULL".
Definition errInternal := "INTERNAL_ERROR".

(** ** The limiter of requests *)

Record perRootLimiter := MkRootLimiter {
  rl_windows : gmap string (list Z);
  rl_maxReq : Z;
  rl_windowDur : Z;
}.

Definition set_windows (m : gmap string (list Z)) (rl : perRootLimiter) : perRootLimiter :=
  {| rl_windows := m; rl_maxReq := rl_maxReq rl; rl_windowDur := rl_windowDur rl |}.

(** The first half of [Allow]: what a call reads; only the map access holds the lock. *)
Definition limiter_read (rootID : string) (now : Z) (rl : perRootLimiter) : list Z :=
  let cutoff := (now - rl_windowDur rl / second)%Z in
  filter (fun t => (cutoff <= t)%Z) (default [] (rl_windows rl !! rootID)).

(** The second half: what it writes back. *)
Definition limiter_write (rootID : string) (now : Z) (valid : list Z) (rl : perRootLimiter) : perRootLimiter * bool :=
  if (rl_maxReq rl <=? Z.of_nat (length valid))%Z then (set_windows (<[rootID := valid]> (rl_windows rl)) rl, false)
  else (set_windows (<[rootID := (valid ++ [now])%list]> (rl_windows rl)) rl, true).

Definition perRoot_Allow (rootID : string) (now : Z) (rl : perRootLimiter) : perRootLimiter * bool :=
  limiter_write rootID now (limiter_read rootID now rl) rl.

(** ** The server *)

Record RestServer := MkRest {
  rs_nodeUID : UIDZeroSoulbound;
  rs_keys : gmap string UIDZeroSoulbound;
  rs_allowedRoots : gset string;
  rs_allowSimulated : bool;
  rs_keysDir : string;
  rs_limiter : perRootLimiter;
  rs_startTime : Z;
}.

Definition with_limiter (rl : perRootLimiter) (s : RestServer) : RestServer :=
  {| rs_nodeUID := rs_nodeUID s; rs_keys := rs_keys s; rs_allowedRoots := rs_allowedRoots s;
     rs_allowSimulated := rs_allowSimulated s; rs_keysDir := rs_keysDir s; rs_limiter := rl;
     rs_startTime := rs_startTime s |}.
Definition with_rest_keys (m : gmap string UIDZeroSoulbound) (s : RestServer) : RestServer :=
  {| rs_nodeUID := rs_nodeUID s; rs_keys := m; rs_allowedRoots := rs_allowedRoots s;
     rs_allowSimulated := rs_allowSimulated s; rs_keysDir := rs_keysDir s; rs_limiter := rs_limiter s;
     rs_startTime := rs_startTime s |}.
Definition with_settings (roots : gset string) (simulated : bool) (dir : string) (s : RestServer) : RestServer :=
  {| rs_nodeUID := rs_nodeUID s; rs_keys := rs_keys s; rs_allowedRoots := roots;
     rs_allowSimulated := simulated; rs_keysDir := dir; rs_limiter := rs_limiter s;
     rs_startTime := rs_startTime s |}.

Inductive ServerOption :=
| WithAllowSimulatedIdentities (allow : bool)
| WithKeysDir (path : string)
| WithAllowedRoots (roots : string)
| WithRateLimit (maxPerMinute : Z).

Definition apply_option (s : RestServer) (opt : ServerOption) : RestServer :=
  match opt with
  | WithAllowSimulatedIdentities allow => with_settings (rs_allowedRoots s) allow (rs_keysDir s) s
  | WithKeysDir path =>
      if String.eqb path "" then s else with_settings (rs_allowedRoots s) (rs_allowSimulated s) path s
  | WithAllowedRoots roots =>
      let names := filter (fun r => r ≠ "") (TrimSpace <$> split_at ","%char roots) in
      with_settings (list_to_set names ∪ rs_allowedRoots s) (rs_allowSimulated s) (rs_keysDir s) s
  | WithRateLimit n =>
      if (0 <? n)%Z then with_limiter {| rl_windows := rl_windows (rs_limiter s); rl_maxReq := n;
                                         rl_windowDur := rl_windowDur (rs_limiter s) |} s
      else s
  end.

(** A file of the keys directory: whether it is a regular file, and its content if it can
    be read. *)
Record key_file := MkKeyFile {
  kf_regular : bool;
  kf_data : option bytes;
}.

Section server.
Context `{Primitives, Cbor, Ristretto, Gonum, StateCbor, SubmitJson, UidDecode} {bus : Type} `{GossipChannel bus}.

Definition admit_key (s : RestServer) (f : key_file) : RestServer :=
  if negb (kf_regular f) then s
  else
    match f.(kf_data) ≫= uid_decode with
    | None => s
    | Some uid =>
        if negb (rs_allowSimulated s) && u_Simulated uid then s
        else with_rest_keys (<[ID uid := uid]> (rs_keys s)) s
    end.

(** [loadKeysDir], given what the directory holds; [None] when it cannot be opened. *)
Definition loadKeysDir (dir : string → option (list key_file)) (s : RestServer) : outcome gerror RestServer :=
  if String.eqb (rs_keysDir s) "" then Ok s
  else match dir (rs_keysDir s) with
       | None => Err (ErrText "open keys dir: %w")
       | Some files => Ok (foldl admit_key s files)
       end.

Definition NewServer (nodeUID : UIDZeroSoulbound) (opts : list ServerOption)
    (dir : string → option (list key_file)) (startTime : Z) : outcome gerror RestServer :=
  let s0 := {| rs_nodeUID := nodeUID; rs_keys := ∅; rs_allowedRoots := ∅; rs_allowSimulated := false;
               rs_keysDir := ""; rs_limiter := {| rl_windows := ∅; rl_maxReq := 5000; rl_windowDur := minute |};
               rs_startTime := startTime |} in
  let s1 := foldl apply_option s0 opts in
  match (if rs_allowSimulated s1 then Ok tt else RequireProduction (Some nodeUID)) with
  | Ok _ => loadKeysDir dir (with_rest_keys (<[ID nodeUID := nodeUID]> (rs_keys s1)) s1)
  | Err _ => Err (ErrText "simulated identity")
  | Panic => Panic
  end.

(** ** Authentication *)

(** [string(body) + "||" + r.Method + "||" + r.URL.Path + "||" + tsStr]. *)
Definition signed_message (r : Request) : bytes :=
  (rq_Body r ++ string_bytes "||" ++ string_bytes (rq_Method r) ++ string_bytes "||" ++
   string_bytes (rq_Path r) ++ string_bytes "||" ++ string_bytes (rq_Timestamp r))%list.

(** The difference of the times is an [int64]; as a float it exceeds 30 exactly when the
    integer does. *)
Definition stale (now ts : Z) : bool := (maxTimestampSkew <? Z.abs (i64 (now - ts)))%Z.

(** [authenticate] at the Unix time [now]; errors are their texts. *)
Definition authenticate (s : RestServer) (now : Z) (r : Request) : outcome string string :=
  if String.eqb (rq_RootID r) "" || String.eqb (rq_Signature r) "" || String.eqb (rq_Timestamp r) ""
  then Err "missing authentication headers"
  else
    match ParseInt (rq_Timestamp r) with
    | None => Err "invalid X-Timestamp"
    | Some ts =>
        if stale now ts then Err errStaleTimestamp
        else
          match rs_keys s !! rq_RootID r with
          | None => Err errUnknownRoot
          | Some uid =>
              if bool_decide (rs_allowedRoots s ≠ ∅) && negb (bool_decide (rq_RootID r ∈ rs_allowedRoots s))
              then Err errUnknownRoot
              else
                match hex_decode (rq_Signature r) with
                | None => Err "invalid signature encoding"
                | Some sig =>
                    if negb (VerifyDilithium (u_PublicKey uid) (signed_message r) sig) then Err errInvalidSig
                    else Ok (rq_RootID r)
                end
          end
    end.

(** The response to a request that fails authentication. *)
Definition unauthorized (err : string) : Response :=
  let '(code, msg) :=
    if String.eqb err errStaleTimestamp then (errStaleTimestamp, "request timestamp is too old or in the future")
    else if String.eqb err errUnknownRoot then (errUnknownRoot, "unknown RootID")
    else (errInvalidSig, sanitizeError err) in
  writeJSON 401 (apiError code msg).

Context (env : nat → bus → bus) (clock : nat → Z).
Local Notation World := (World (bus := bus)).
Local Notation M := (M (bus := bus)).
Local Notation "'let*' x ':=' m 'in' k" := (mbind m (fun x => k)) (at level 200, x name, right associativity).
Local Notation "m ';*' k" := (mbind m (fun _ => k)) (at level 199, right associativity).

(** [time.Now().Unix()]. *)
Definition unix : M Z := let* t := now clock in ret (t / second)%Z.

(** What runs behind a route: the server's limiter and the engine may change. *)
Definition Endpoint : Type := RestServer → M (RestServer * Response).

Definition withAuth (next : Request → RestServer → M Response) (r : Request) : Endpoint := fun s =>
  let* t := unix in
  match authenticate s t r with
  | Ok rootID =>
      let* t' := unix in
      let '(rl, ok) := perRoot_Allow rootID t' (rs_limiter s) in
      let s' := with_limiter rl s in
      if ok then let* resp := next r s' in ret (s', resp)
      else ret (s', writeRetry (apiError errRateLimited ("rate limit exceeded for root " ++ rootID)))
  | Err msg => ret (s, unauthorized msg)
  | Panic => lift Panic
  end.

Definition optionalAuth (next : Request → RestServer → M Response) (r : Request) : Endpoint := fun s =>
  if String.eqb (rq_RootID r) "" then let* resp := next r s in ret (s, resp)
  else
    let* t := unix in
    match authenticate s t r with
    | Ok _ => let* resp := next r s in ret (s, resp)
    | Err _ => ret (s, writeJSON 401 (apiError errInvalidSig "authentication failed"))
    | Panic => lift Panic
    end.

(** ** Handlers *)

(** [WaitForAnchor]: the engine as it is at each tick before the context ends. *)
Fixpoint WaitForAnchor (ticks : list Engine) (hash : bytes) : option AnchorProof :=
  match ticks with
  | [] => None
  | e :: ticks => match LookupHash e hash with Some proof => Some proof | None => WaitForAnchor ticks hash end
  end.

Definition proof_data (hash : string) (proof : AnchorProof) : api_data :=
  DataProof hash (ap_BlockIndex proof) (ap_BlockTime proof) (hex_encode (ap_StateRoot proof))
    (hex_encode (ap_SMTProof proof)) (hex_encode (ap_Submitter proof)) (ap_Label proof).

(** The checks on a decoded submission: the hash, or the refusal. *)
Definition check_submit (req : submitRequest) : bytes + Response :=
  let bad code msg := inr (writeJSON 400 (apiError code msg)) in
  if negb (String.length (sr_Hash req) =? 64)%nat then bad errInvalidHash "hash must be 64 hex characters"
  else match hex_decode (sr_Hash req) with
       | None => bad errInvalidHash "hash is not valid hex"
       | Some hashBytes =>
           let h := copy_array 32 hashBytes in
           if IsZeroHash h then bad errInvalidHash "zero hash not allowed"
           else if String.eqb (sr_Submitter req) "" then bad errEmptySubmitter "submitter must not be empty"
           else if (maxLabelLen <? Z.of_nat (String.length (sr_Label req)))%Z
           then bad errLabelTooLong "label exceeds maximum length"
           else inl h
       end.

(** The answer to an error of [Enqueue]. *)
Definition enqueue_error (err : gerror) : Response :=
  match err with
  | EValidation code msg _ =>
      if String.eqb code "RATE_LIMITED" then writeRetry (apiError errRateLimited msg)
      else writeJSON 400 (apiError code msg)
  | _ => writeJSON 500 (apiError errInternal "internal error")
  end.

Definition submit_entry (h : bytes) (req : submitRequest) (t : Z) : ProvenanceEntry :=
  {| e_Hash := h; e_Submitter := copy_array 16 (string_bytes (sr_Submitter req)); e_Timestamp := t;
     e_Label := sr_Label req; e_Approver := None; e_Reference := None; e_Signature := []; e_MandateRef := None |}.

(** [handleSubmit]; [ticks] are the engines that the wait sees after the submission. *)
Definition handleSubmit (ticks : World → list Engine) (r : Request) (s : RestServer) : M Response :=
  match decode_submit (take maxBodyBytes (rq_Body r)) with
  | DecSyntax => ret (writeJSON 400 (apiError errInvalidJSON "invalid JSON syntax"))
  | DecType => ret (writeJSON 400 (apiError errInvalidJSON "invalid field type"))
  | DecOther => ret (writeJSON 400 (apiError errExtraFields "unknown field in JSON body"))
  | DecOk req =>
      match check_submit req with
      | inr resp => ret resp
      | inl h =>
          let* t := now clock in
          fun w =>
            match Enqueue env clock (submit_entry h req t) w with
            | (w', Err err) => (w', Ok (enqueue_error err))
            | (w', Panic) => (w', Panic)
            | (w', Ok _) =>
                (w', Ok (match WaitForAnchor (ticks w') h with
                         | None => writeJSON 503 (apiError errQueueFull "timeout waiting for anchor")
                         | Some proof => writeJSON 201 (apiOK (proof_data (sr_Hash req) proof))
                         end))
            end
      end
  end.

Definition handleVerify (r : Request) (s : RestServer) : M Response :=
  let hashHex := TrimPrefix (rq_Path r) "/v1/verify/" in
  if negb (String.length hashHex =? 64)%nat
  then ret (writeJSON 400 (apiError errInvalidHash "hash must be 64 hex characters"))
  else
    match hex_decode hashHex with
    | None => ret (writeJSON 400 (apiError errInvalidHash "hash is not valid hex"))
    | Some hashBytes =>
        let* e := get_eng in
        match LookupHash e (copy_array 32 hashBytes) with
        | None => ret (writeJSON 404 (apiError errNotFound "hash not anchored"))
        | Some proof => ret (writeJSON 200 (apiOK (proof_data hashHex proof)))
        end
    end.

Definition entry_data (e : ProvenanceEntry) : rest_entry :=
  {| re_hash := hex_encode (e_Hash e); re_submitter := hex_encode (e_Submitter e);
     re_timestamp := e_Timestamp e; re_label := e_Label e;
     re_approver := hex_encode <$> e_Approver e; re_reference := hex_encode <$> e_Reference e;
     re_signature := if (0 <? length (e_Signature e))%nat then Some (hex_encode (e_Signature e)) else None |}.

Definition block_data (block : Block) : api_data :=
  DataBlock (b_Index block) (hex_encode (b_PrevHash block)) (hex_encode (b_StateRoot block))
    (hex_encode (b_Proposer block)) (entry_data <$> elems (b_Anchored block)) (b_Lambda1 block)
    (b_Timestamp block) (hex_encode <$> elems (b_PrepareSigs block))
    (hex_encode ∘ v_Dilithium3PK <$> b_Validators block)
    (TotalValidators (b_Quorum block)) (RequiredSigs (b_Quorum block)).

Definition handleGetBlock (r : Request) (s : RestServer) : M Response :=
  match ParseUint (TrimPrefix (rq_Path r) "/v1/block/") with
  | None => ret (writeJSON 400 (apiError errInvalidJSON "block index must be an unsigned integer"))
  | Some index =>
      let* e := get_eng in
      match GetBlock e index with
      | None => ret (writeJSON 404 (apiError errNotFound "block not found"))
      | Some block => ret (writeJSON 200 (apiOK (block_data block)))
      end
  end.

Definition handleHealth (r : Request) (s : RestServer) : M Response :=
  let* e := get_eng in
  let health := GetHealth e in
  let root := GetStateRoot e in
  let* t := now clock in
  ret (writeJSON 200 (apiOK (DataHealth (ID (rs_nodeUID s)) (nh_BlockHeight health) (nh_PendingHashes health)
    (nh_Lambda1 health) (nh_ActivePeers health) (nh_TotalPeers health) (hex_encode root)
    (Z.quot (t - rs_startTime s) second)))).

Definition handleStateRoot (r : Request) (s : RestServer) : M Response :=
  let* e := get_eng in
  ret (writeJSON 200 (apiOK (DataRoot (hex_encode (GetStateRoot e)) (Z.of_nat (length (en_blocks e)))))).

(** ** Routing *)

(** A path that [http.ServeMux] does not redirect: it starts with a slash and no segment
    but the last is empty or a dot. *)
Definition clean_path (path : string) : bool :=
  match split_at "/"%char path with
  | EmptyString :: seg :: segs =>
      forallb (fun x => negb (String.eqb x "." || String.eqb x "..")) (seg :: segs) &&
      forallb (fun x => negb (String.eqb x "")) (removelast (seg :: segs))
  | _ => false
  end.

Definition is_get (m : string) : bool := String.eqb m "GET" || String.eqb m "HEAD".

Definition plain (status : Z) : Response := {| rp_Status := status; rp_RetryAfter := false; rp_Body := None |}.

(** [Handler]: the routes behind [withCORS], for methods other than CONNECT; a path that
    lacks the slash of its pattern is redirected. *)
Definition Handler (ticks : World → list Engine) (r : Request) : Endpoint := fun s =>
  let m := rq_Method r in
  let p := rq_Path r in
  let on (ok : bool) (e : Endpoint) : M (RestServer * Response) := if ok then e s else ret (s, plain 405) in
  if String.eqb m "OPTIONS" then ret (s, plain 204)
  else if negb (clean_path p) then ret (s, plain 301)
  else if String.eqb p "/v1/verify" || String.eqb p "/v1/block" then ret (s, plain (if is_get m then 301 else 405))
  else if String.eqb p "/v1/submit" then on (String.eqb m "POST") (withAuth (handleSubmit ticks) r)
  else if String.prefix "/v1/verify/" p then on (is_get m) (withAuth handleVerify r)
  else if String.prefix "/v1/block/" p then on (is_get m) (withAuth handleGetBlock r)
  else if String.eqb p "/v1/health" then on (is_get m) (optionalAuth handleHealth r)
  else if String.eqb p "/v1/state-root" then on (is_get m) (optionalAuth handleStateRoot r)
  else ret (s, plain 404).
End server.
