(* ===== verification/Grpc.v ===== *)
(** * The gRPC server and the client (pkg/server: server.go, lightclient.go, mandates.go;
      client/client.go)

    Protobuf messages are records whose byte fields do not tell nil from empty. A handler
    is an engine action; an error is a status code, or the error that was passed on. The
    text of an error in a response is represented by the error itself. *)
From Stdlib Require Import SpecFloat.
From S2P Require Import Prelude Crypto Smt Errors Vrf Identity Chain Config Rotation Mandates Quorum Gossip.
From S2P Require Import State Engine EngineCycle EngineApi Rest.

(** ** Messages *)

Record pb_SubmitRequest := MkPbSubmit {
  sq_Hash : bytes;
  sq_Submitter : bytes;
  sq_Timestamp : Z;
  sq_Label : string;
  sq_Approver : bytes;
  sq_Reference : bytes;
  sq_Signature : bytes;
}.

(** [Status]: a constant or the text of an error. *)
Inductive status_text :=
| StText (s : string)
| StError (e : gerror).

Record pb_SubmitResponse := MkPbSubmitResp {
  sp_TxId : bytes;
  sp_Accepted : bool;
  sp_Status : status_text;
  sp_ErrorCode : string;
}.

Record pb_AnchorProof := MkPbProof {
  pp_Found : bool;
  pp_BlockIndex : Z;
  pp_BlockTime : Z;
  pp_StateRoot : bytes;
  pp_SmtProof : bytes;
  pp_Submitter : bytes;
  pp_Label : string;
}.

Record pb_Entry := MkPbEntry {
  pe_Hash : bytes;
  pe_Submitter : bytes;
  pe_Timestamp : Z;
  pe_Label : string;
  pe_Approver : bytes;
  pe_Reference : bytes;
  pe_Signature : bytes;
  pe_MandateRef : bytes;
}.

Record pb_Block := MkPbBlock {
  pk_Index : Z;
  pk_PrevHash : bytes;
  pk_StateRoot : bytes;
  pk_Proposer : bytes;
  pk_Anchored : list pb_Entry;
  pk_Lambda1 : float64;
  pk_Timestamp : Z;
  pk_Validators : list ValidatorInfo;
  pk_TotalValidators : Z;
  pk_RequiredSigs : Z;
  pk_BlockHash : bytes;
  pk_ProtocolVersion : Z;
  pk_PrepareSigsBitmap : bytes;
  pk_PrepareSigs : list bytes;
  pk_CommitSig : bytes;
  pk_ExternalAnchors : list string;
  pk_KeyRotationEpoch : Z;
  pk_LegacyAnchor : bytes;
  pk_Metadata : gmap string bytes;
}.

Definition empty_block : pb_Block :=
  MkPbBlock 0 [] [] [] [] fzero 0 [] 0 0 [] 0 [] [] [] [] 0 [] ∅.

Inductive grpc_error :=
| InvalidArgument
| NotFound
| FailedPrecondition
| PermissionDenied (e : gerror)
| Internal
| Canceled.

(** ** Narrowing conversions (lightclient.go, mandates.go, client.go) *)

Definition nonNegativeUint64 (n : Z) : Z := if (n <? 0)%Z then 0 else u64 n.

Definition MaxUint32 : Z := 2 ^ 32 - 1.

Definition nonNegativeUint32 (n : Z) : Z :=
  if (n <? 0)%Z then 0 else if (MaxUint32 <? n)%Z then MaxUint32 else (n mod 2 ^ 32)%Z.

Definition clampUint32 (n : Z) : Z :=
  if (n <? 0)%Z then 0 else if (MaxUint32 <? n)%Z then MaxUint32 else (n mod 2 ^ 32)%Z.

Definition clampToInt (n : Z) : Z := if (2 ^ 31 - 1 <? n)%Z then (2 ^ 31 - 1)%Z else i64 n.

(** [float32(x)]. *)
Definition to_float32 (x : float64) : spec_float :=
  match x with
  | S754_finite s m e => binary_normalize 24 128 (cond_Zopp s (Z.pos m)) e s
  | _ => x
  end.

(** ** Conversion of blocks *)

Definition opt_bytes (o : option bytes) : bytes := default [] o.

(** [mandateRefBytes] and the same for approver and reference. *)
Definition entryToProto (e : ProvenanceEntry) : pb_Entry :=
  {| pe_Hash := e_Hash e; pe_Submitter := e_Submitter e; pe_Timestamp := e_Timestamp e; pe_Label := e_Label e;
     pe_Approver := opt_bytes (e_Approver e); pe_Reference := opt_bytes (e_Reference e);
     pe_Signature := e_Signature e; pe_MandateRef := opt_bytes (e_MandateRef e) |}.

Definition blockToProto (b : Block) : pb_Block :=
  {| pk_Index := b_Index b; pk_PrevHash := b_PrevHash b; pk_StateRoot := b_StateRoot b;
     pk_Proposer := b_Proposer b; pk_Anchored := entryToProto <$> elems (b_Anchored b);
     pk_Lambda1 := b_Lambda1 b; pk_Timestamp := b_Timestamp b; pk_Validators := b_Validators b;
     pk_TotalValidators := nonNegativeUint64 (TotalValidators (b_Quorum b));
     pk_RequiredSigs := nonNegativeUint64 (RequiredSigs (b_Quorum b));
     pk_BlockHash := b_BlockHash b; pk_ProtocolVersion := (b_ProtocolVersion b mod 2 ^ 32)%Z;
     pk_PrepareSigsBitmap := elems (b_PrepareSigsBitmap b); pk_PrepareSigs := elems (b_PrepareSigs b);
     pk_CommitSig := b_CommitSig b; pk_ExternalAnchors := b_ExternalAnchors b;
     pk_KeyRotationEpoch := b_KeyRotationEpoch b; pk_LegacyAnchor := b_LegacyAnchor b;
     pk_Metadata := b_Metadata b |}.

Definition proofToProto (p : AnchorProof) : pb_AnchorProof :=
  {| pp_Found := ap_Found p; pp_BlockIndex := ap_BlockIndex p; pp_BlockTime := ap_BlockTime p;
     pp_StateRoot := ap_StateRoot p; pp_SmtProof := ap_SMTProof p; pp_Submitter := ap_Submitter p;
     pp_Label := ap_Label p |}.

(** ** Construction *)

Record GrpcServer := MkGrpc {
  gs_nodeID : string;
  gs_identity : UIDZeroSoulbound;
  gs_registry : option Registry.Registry;
  gs_allowSimulated : bool;
  gs_cycleInterval : Z;
  gs_peers : list Peer;
  gs_gossip : bool;
}.

Definition defaultCycleInterval : Z := 3 * second.

Inductive GrpcOption :=
| WithPeers (peers : list Peer)
| WithGossip (present : bool)
| GrpcAllowSimulated (allow : bool)
| WithKey (uid : UIDZeroSoulbound)
| WithCycleInterval (d : Z).

(** An option; [WithKey] dereferences the registry. *)
Definition apply_grpc_option (s : GrpcServer) (opt : GrpcOption) : outcome gerror GrpcServer :=
  let upd reg sim iv peers g :=
    {| gs_nodeID := gs_nodeID s; gs_identity := gs_identity s; gs_registry := reg; gs_allowSimulated := sim;
       gs_cycleInterval := iv; gs_peers := peers; gs_gossip := g |} in
  match opt with
  | WithPeers peers => Ok (upd (gs_registry s) (gs_allowSimulated s) (gs_cycleInterval s) peers (gs_gossip s))
  | WithGossip g => Ok (upd (gs_registry s) (gs_allowSimulated s) (gs_cycleInterval s) (gs_peers s) g)
  | GrpcAllowSimulated a => Ok (upd (gs_registry s) a (gs_cycleInterval s) (gs_peers s) (gs_gossip s))
  | WithKey uid =>
      match gs_registry s with
      | None => Panic
      | Some reg => Ok (upd (Some (fst (Registry.Register false reg (ID uid) (u_PublicKey uid))))
                          (gs_allowSimulated s) (gs_cycleInterval s) (gs_peers s) (gs_gossip s))
      end
  | WithCycleInterval d =>
      if (0 <? d)%Z then Ok (upd (gs_registry s) (gs_allowSimulated s) d (gs_peers s) (gs_gossip s)) else Ok s
  end.

Fixpoint apply_grpc_options (s : GrpcServer) (opts : list GrpcOption) : outcome gerror GrpcServer :=
  match opts with
  | [] => Ok s
  | opt :: opts =>
      match apply_grpc_option s opt with
      | Ok s' => apply_grpc_options s' opts
      | Err e => Err e
      | Panic => Panic
      end
  end.

Section server.
Context `{Primitives, Cbor, Ristretto, Gonum, StateCbor} {bus : Type} `{GossipChannel bus}.

(** [NewServer]: the server and its engine, before the engine starts to cycle. *)
Definition Grpc_NewServer (nodeID : string) (uid : UIDZeroSoulbound) (opts : list GrpcOption) :
    outcome gerror (GrpcServer * Engine) :=
  let s0 := {| gs_nodeID := nodeID; gs_identity := uid; gs_registry := None; gs_allowSimulated := false;
               gs_cycleInterval := defaultCycleInterval; gs_peers := []; gs_gossip := false |} in
  match apply_grpc_options s0 opts with
  | Err e => Err e
  | Panic => Panic
  | Ok s =>
      if negb (gs_allowSimulated s) && u_Simulated uid then Err (ErrText "simulated identity")
      else if (0 <? length (gs_peers s))%nat && negb (gs_gossip s)
      then Err (ErrText "server: %d peers configured but no gossip transport")
      else if gs_gossip s && (length (gs_peers s) =? 0)%nat
      then Err (ErrText "server: gossip transport configured but no peers")
      else
        let registry := fst (Registry.Register false Registry.NewRegistry (ID uid) (u_PublicKey uid)) in
        let s' := {| gs_nodeID := gs_nodeID s; gs_identity := gs_identity s; gs_registry := Some registry;
                     gs_allowSimulated := gs_allowSimulated s; gs_cycleInterval := gs_cycleInterval s;
                     gs_peers := gs_peers s; gs_gossip := gs_gossip s |} in
        let node := {| n_UID := uid; n_Peers := []; n_Addr := nodeID |} in
        Ok (s', if (length (gs_peers s) =? 0)%nat then NewEngine node (gs_cycleInterval s)
                else NewEngineWithPeers node (gs_cycleInterval s) (gs_gossip s) (Some (gs_peers s)))
  end.

Context (env : nat → bus → bus) (clock : nat → Z).
Local Notation M := (M (bus := bus)).
Local Notation "'let*' x ':=' m 'in' k" := (mbind m (fun x => k)) (at level 200, x name, right associativity).

(** The result of a call: a response or a status. *)
Definition reply (A : Type) : Type := grpc_error + A.

(** ** Submission *)

Definition authenticateSubmit (s : GrpcServer) (req : pb_SubmitRequest) : outcome gerror unit :=
  match gs_registry s with
  | None => Panic
  | Some reg =>
      match snd (Registry.Lookup reg (hex_encode (sq_Submitter req))) with
      | Ok pubKey =>
          if (length (sq_Signature req) =? 0)%nat
          then Err (WrapValidationError ErrCodeInvalidSignature "missing signature" ErrInvalidSignature)
          else if negb (VerifySignature pubKey (sq_Hash req) (sq_Submitter req) (sq_Timestamp req) (sq_Label req)
                          (sq_Signature req))
          then Err (WrapValidationError ErrCodeInvalidSignature "signature does not match submitter" ErrInvalidSignature)
          else Ok tt
      | _ => Err (WrapValidationError ErrCodeSubmitterMismatch "unknown submitter" ErrUnknownSubmitter)
      end
  end.

Definition request_entry (req : pb_SubmitRequest) : ProvenanceEntry :=
  {| e_Hash := copy_array 32 (sq_Hash req); e_Submitter := copy_array 16 (sq_Submitter req);
     e_Timestamp := sq_Timestamp req; e_Label := sq_Label req;
     e_Approver := if (0 <? length (sq_Approver req))%nat then Some (copy_array 16 (sq_Approver req)) else None;
     e_Reference := if (0 <? length (sq_Reference req))%nat then Some (copy_array 32 (sq_Reference req)) else None;
     e_Signature := sq_Signature req; e_MandateRef := None |}.

Definition refused (req : pb_SubmitRequest) (err : gerror) : pb_SubmitResponse :=
  {| sp_TxId := sq_Hash req; sp_Accepted := false; sp_Status := StError err;
     sp_ErrorCode := default "" (FromError err) |}.

Definition SubmitHash (s : GrpcServer) (req : pb_SubmitRequest) : M pb_SubmitResponse :=
  match authenticateSubmit s req with
  | Panic => lift Panic
  | Err err => ret (refused req err)
  | Ok _ => fun w =>
      match Enqueue env clock (request_entry req) w with
      | (w', Panic) => (w', Panic)
      | (w', Err err) => (w', Ok (refused req err))
      | (w', Ok _) => (w', Ok {| sp_TxId := sq_Hash req; sp_Accepted := true; sp_Status := StText "pending";
                                 sp_ErrorCode := "" |})
      end
  end.

(** ** Queries *)

(** [WaitForAnchor], with the engines seen before the context ends. *)
Definition Grpc_WaitForAnchor (ticks : list Engine) (hash : bytes) : reply pb_AnchorProof :=
  match WaitForAnchor ticks (copy_array 32 hash) with
  | None => inl Canceled
  | Some proof => inr (proofToProto proof)
  end.

Definition VerifyHash (e : Engine) (hash : bytes) : pb_AnchorProof :=
  match LookupHash e (copy_array 32 hash) with
  | None => {| pp_Found := false; pp_BlockIndex := 0; pp_BlockTime := 0; pp_StateRoot := []; pp_SmtProof := [];
               pp_Submitter := []; pp_Label := "" |}
  | Some p => {| pp_Found := true; pp_BlockIndex := ap_BlockIndex p; pp_BlockTime := ap_BlockTime p;
                 pp_StateRoot := ap_StateRoot p; pp_SmtProof := ap_SMTProof p; pp_Submitter := ap_Submitter p;
                 pp_Label := ap_Label p |}
  end.

(** [GetCurrentStateRoot]: root, block count, lambda. *)
Definition GetCurrentStateRoot (e : Engine) : bytes * Z * spec_float :=
  (GetStateRoot e, Z.of_nat (length (en_blocks e)), to_float32 (nh_Lambda1 (GetHealth e))).

Record pb_Health := MkPbHealth {
  ph_NodeId : string;
  ph_Status : string;
  ph_BlockHeight : Z;
  ph_CurrentRoot : bytes;
  ph_Lambda1 : spec_float;
  ph_ActivePeers : Z;
  ph_TotalPeers : Z;
  ph_PendingHashes : Z;
}.

Definition Grpc_GetHealth (s : GrpcServer) (e : Engine) : pb_Health :=
  let h := GetHealth e in
  {| ph_NodeId := gs_nodeID s; ph_Status := "running"; ph_BlockHeight := nh_BlockHeight h; ph_CurrentRoot := GetStateRoot e;
     ph_Lambda1 := to_float32 (nh_Lambda1 h); ph_ActivePeers := nonNegativeUint32 (Z.of_nat (nh_ActivePeers h));
     ph_TotalPeers := nonNegativeUint32 (Z.of_nat (nh_TotalPeers h));
     ph_PendingHashes := nonNegativeUint64 (Z.of_nat (nh_PendingHashes h)) |}.

Definition Grpc_GetBlock (e : Engine) (index : Z) : pb_Block :=
  match GetBlock e index with
  | None => empty_block
  | Some b => blockToProto b
  end.

Definition GetValidatorSet (e : Engine) : reply (list ValidatorInfo) :=
  match ValidatorSetSnapshot e with
  | [] => inl FailedPrecondition
  | validators => inr validators
  end.

(** [GetMerkleProof]: the proof and the root of the tree it was computed on. *)
Definition GetMerkleProof (e : Engine) (key : bytes) (blockIndex : Z) : reply (list bytes * bytes) :=
  if negb (length key =? 32)%nat then inl InvalidArgument
  else
    let checked : option grpc_error :=
      if (0 <? blockIndex)%Z then
        match GetBlock e blockIndex with
        | None => Some NotFound
        | Some block => if negb (length (b_StateRoot block) =? 32)%nat then Some FailedPrecondition else None
        end
      else None in
    match checked with
    | Some err => inl err
    | None =>
        match ProveSMT e (copy_array 32 key) with
        | Ok proof =>
            let root := GetStateRoot e in
            if negb (length root =? 32)%nat then inl FailedPrecondition else inr (proof, root)
        | _ => inl Internal
        end
    end.

Definition maxStreamBlocksPerResponse : Z := 1024.

(** The loop of [StreamBlocks] over a connected stream; [fuel] counts iterations. *)
Fixpoint send_blocks (fuel : nat) (e : Engine) (i to : Z) : option (list pb_Block) :=
  if (to <? i)%Z then Some []
  else
    match fuel with
    | O => None
    | S fuel' =>
        match GetBlock e i with
        | None => Some []
        | Some block => sent ← send_blocks fuel' e (u64 (i + 1)) to; Some (blockToProto block :: sent)
        end
    end.

Definition Grpc_StreamBlocks (e : Engine) (from to : Z) : option (list pb_Block) :=
  let to1 := if (to <? from)%Z then from else to in
  let to2 := if (maxStreamBlocksPerResponse <=? u64 (to1 - from))%Z
             then u64 (from + maxStreamBlocksPerResponse - 1) else to1 in
  send_blocks (Z.to_nat maxStreamBlocksPerResponse) e from to2.

(** ** Key rotation *)

Record pb_RotationResponse := MkPbRotation {
  pr_EntryHash : bytes;
  pr_Status : string;
  pr_Error : option gerror;
  pr_ErrorCode : string;
  pr_EffectiveCycle : Z;
  pr_ExpiryCycle : Z;
}.

Definition KeyRotationVRFKeySize : nat := 32.

Definition Grpc_SubmitKeyRotation (newPK newVRF sigNew : bytes) (effectiveCycle expiryCycle : Z) :
    M (reply pb_RotationResponse) :=
  if negb (length newPK =? KeyRotationPublicKeySize)%nat then ret (inl InvalidArgument)
  else if negb (length newVRF =? KeyRotationVRFKeySize)%nat then ret (inl InvalidArgument)
  else if negb (length sigNew =? KeyRotationSignatureSize)%nat then ret (inl InvalidArgument)
  else
    let* r := RotateKey env clock newPK newVRF sigNew effectiveCycle expiryCycle in
    match r with
    | (entry, Err err) =>
        ret (inr {| pr_EntryHash := match entry with Some k => k_Hash k | None => [] end; pr_Status := "rejected";
                    pr_Error := Some err; pr_ErrorCode := default "" (FromError err);
                    pr_EffectiveCycle := effectiveCycle; pr_ExpiryCycle := expiryCycle |})
    | (Some k, Ok _) =>
        ret (inr {| pr_EntryHash := k_Hash k; pr_Status := "pending"; pr_Error := None; pr_ErrorCode := "";
                    pr_EffectiveCycle := k_EffectiveCycle k; pr_ExpiryCycle := k_ExpiryCycle k |})
    | _ => lift Panic
    end.

(** The keys, and whether two are authoritative. *)
Definition Grpc_GetActivePublicKey (e : Engine) (validatorId : bytes) (cycle : Z) : reply (list bytes * bool) :=
  if (0 <? length validatorId)%nat && negb (length validatorId =? 16)%nat then inl InvalidArgument
  else
    let validatorID := if (0 <? length validatorId)%nat then copy_array 16 validatorId else u_RootID (n_UID (en_node e)) in
    let cycle := if (cycle =? 0)%Z then st_Cycle (en_state e) else cycle in
    match GetActivePublicKey (ky_validator (en_keys e)) validatorID cycle with
    | Ok keys => inr (keys, (1 <? length keys)%nat)
    | _ => inl NotFound
    end.

(** ** Mandates *)

(** [SubmitMandate]: the identifier and version. *)
Definition Grpc_SubmitMandate (data : bytes) : M (reply (bytes * Z)) :=
  match UnmarshalMandateEntry data with
  | Ok mandate => fun w =>
      match SubmitMandate env clock (Some mandate) w with
      | (w', Ok _) => (w', Ok (inr (m_ID mandate, m_Version mandate)))
      | (w', Err err) => (w', Ok (inl (PermissionDenied err)))
      | (w', Panic) => (w', Panic)
      end
  | Err _ => ret (inl InvalidArgument)
  | Panic => lift Panic
  end.

Definition GetMandate (e : Engine) (mandateId : bytes) : reply bytes :=
  if negb (length mandateId =? 32)%nat then inl InvalidArgument
  else
    let id := copy_array 32 mandateId in
    let found := match MandateBody e id with
                 | Some m => Some m
                 | None => GetMandateByID (po_resolver (en_policy e)) id
                 end in
    match found with
    | None => inl NotFound
    | Some mandate => match MarshalMandateEntry mandate with Some data => inr data | None => inl Internal end
    end.

Definition Grpc_GetActiveMandates (now_ : Z) (e : Engine) (timestamp : Z) : reply (list bytes) :=
  match mapM MarshalMandateEntry (ActiveMandates now_ e timestamp) with
  | Some out => inr out
  | None => inl Internal
  end.

Record pb_Gap := MkPbGap {
  pg_MandateId : bytes;
  pg_RuleIndex : Z;
  pg_EventClass : string;
  pg_Start : Z;
  pg_End : Z;
  pg_Status : ComplianceStatus;
  pg_MissingFields : list string;
}.

Record pb_Report := MkPbReport {
  pt_MandateId : bytes;
  pt_MandateLabel : string;
  pt_StartTimestamp : Z;
  pt_EndTimestamp : Z;
  pt_TotalExpected : Z;
  pt_TotalAnchored : Z;
  pt_ComplianceRate : float64;
  pt_Gaps : list pb_Gap;
  pt_Timestamp : Z;
}.

Definition complianceReportToProto (r : ComplianceReport) : pb_Report :=
  {| pt_MandateId := cr_MandateID r; pt_MandateLabel := cr_MandateLabel r;
     pt_StartTimestamp := w_StartTimestamp (cr_Window r); pt_EndTimestamp := w_EndTimestamp (cr_Window r);
     pt_TotalExpected := clampUint32 (Z.of_nat (cr_TotalExpected r));
     pt_TotalAnchored := clampUint32 (Z.of_nat (cr_TotalAnchored r));
     pt_ComplianceRate := cr_ComplianceRate r;
     pt_Gaps := (fun g => {| pg_MandateId := g_MandateID g; pg_RuleIndex := clampUint32 (Z.of_nat (g_RuleIndex g));
                             pg_EventClass := g_EventClass g; pg_Start := g_WindowStart g; pg_End := g_WindowEnd g;
                             pg_Status := g_Status g; pg_MissingFields := g_MissingFields g |}) <$> cr_Gaps r;
     pt_Timestamp := cr_Timestamp r |}.

(** [CheckCompliance]; [None] when the checker runs out of fuel. *)
Definition Grpc_CheckCompliance (fuel : nat) (now_ : Z) (e : Engine) (mandateId : bytes) (w : ComplianceWindow) :
    option (reply pb_Report) :=
  if negb (length mandateId =? 32)%nat then Some (inl InvalidArgument)
  else
    match ComplianceWindow_Validate w with
    | Ok _ =>
        r ← CheckCompliance fuel now_ e (copy_array 32 mandateId) w;
        Some (match r with Ok report => inr (complianceReportToProto report) | _ => inl NotFound end)
    | _ => Some (inl InvalidArgument)
    end.

(** ** The client (client/client.go) *)

Definition signPayload (uid : UIDZeroSoulbound) (hash submitter : bytes) (ts : Z) (label : string) : bytes :=
  SignDilithium (u_SecretKey uid) (hash ++ submitter ++ le_bytes 8 (u64 ts) ++ string_bytes label).

(** The request of [Client.Submit] at time [ts]. *)
Definition client_request (identity : option UIDZeroSoulbound) (hash : bytes) (label : string) (ts : Z) :
    pb_SubmitRequest :=
  match identity with
  | None => {| sq_Hash := hash; sq_Submitter := []; sq_Timestamp := ts; sq_Label := label; sq_Approver := [];
               sq_Reference := []; sq_Signature := [] |}
  | Some uid =>
      let submitter := copy_array 16 (u_RootID uid) in
      {| sq_Hash := hash; sq_Submitter := submitter; sq_Timestamp := ts; sq_Label := label; sq_Approver := [];
         sq_Reference := []; sq_Signature := signPayload uid hash submitter ts label |}
  end.

(** The request of [Client.SubmitSigned]. *)
Definition signed_request (hash submitter : bytes) (label : string) (approver reference : bytes)
    (signer : UIDZeroSoulbound) (ts : Z) : pb_SubmitRequest :=
  {| sq_Hash := hash; sq_Submitter := submitter; sq_Timestamp := ts; sq_Label := label; sq_Approver := approver;
     sq_Reference := reference; sq_Signature := signPayload signer hash submitter ts label |}.
End server.
