(* ===== verification/RestTheorems.v ===== *)
(** * Properties of the REST server *)
From Stdlib Require Import SpecFloat Ascii.
From S2P Require Import Prelude Crypto Toy Sha256 Smt Errors Vrf Identity IdentityTheorems Chain ToyCbor.
From S2P Require Import ChainTheorems Config Rotation Mandates Quorum QuorumTheorems TriadTheorems.
From S2P Require Import LightClient LightTheorems Gossip State StateTheorems Engine EngineCycle EngineApi.
From S2P Require Import Demo EngineFrame EngineTheorems CycleTheorems SoloTheorems ApiTheorems SoloChain Rest.
Local Open Scope string_scope.

(** ** Who may sign *)

Section construction.
Context `{UidDecode}.

(** Every key is filed under its own root, and is a production key unless simulated ones
    are allowed. *)
Definition keys_ok (s : RestServer) : Prop :=
  ∀ id uid, rs_keys s !! id = Some uid → id = ID uid ∧ (rs_allowSimulated s = false → u_Simulated uid = false).

Lemma admit_key_ok s f : keys_ok s →
  keys_ok (admit_key s f) ∧ rs_allowSimulated (admit_key s f) = rs_allowSimulated s.
Proof.
  intros Hs. unfold admit_key. destruct (kf_regular f); [|done]. cbn [negb].
  destruct (kf_data f ≫= uid_decode) as [uid|]; [|done].
  destruct (negb (rs_allowSimulated s) && u_Simulated uid) eqn:E; [done|]. split; [|done].
  intros id uid' Hl. cbn [rs_keys with_rest_keys rs_allowSimulated] in *.
  destruct (decide (id = ID uid)) as [->|Hne].
  - rewrite lookup_insert_eq in Hl. injection Hl as <-. split; [done|]. intros Hal. by rewrite Hal in E.
  - rewrite lookup_insert_ne in Hl by done. by apply Hs.
Qed.

Lemma admit_keys_ok files : ∀ s, keys_ok s → keys_ok (foldl admit_key s files).
Proof.
  induction files as [|f files IH]; intros s Hs; [done|]. cbn [foldl]. apply IH. by apply admit_key_ok.
Qed.

Lemma options_keys opts : ∀ s, rs_keys (foldl apply_option s opts) = rs_keys s.
Proof.
  induction opts as [|o opts IH]; intros s; [done|]. cbn [foldl]. rewrite IH. destruct o; cbn; by repeat case_match.
Qed.

(** Whatever the options and their order and whatever the keys directory holds, a server
    that starts without allowing simulated identities authorises requests with production
    keys only, each under its own root. *)
Theorem rest_keys_production nodeUID opts dir startTime s :
  NewServer nodeUID opts dir startTime = Ok s → keys_ok s.
Proof.
  unfold NewServer. set (s0 := MkRest _ _ _ _ _ _ _). pose proof (options_keys opts s0) as Hk.
  cbn [rs_keys] in Hk. set (s1 := foldl apply_option s0 opts) in *. rewrite Hk.
  assert (Hone : (rs_allowSimulated s1 = false → u_Simulated nodeUID = false) →
                 keys_ok (with_rest_keys {[ ID nodeUID := nodeUID ]} s1)).
  { intros Hp id uid Hl. cbn [rs_keys with_rest_keys rs_allowSimulated] in *.
    apply lookup_singleton_Some in Hl as [<- <-]. done. }
  assert (Hload : keys_ok (with_rest_keys {[ ID nodeUID := nodeUID ]} s1) →
                  loadKeysDir dir (with_rest_keys {[ ID nodeUID := nodeUID ]} s1) = Ok s → keys_ok s).
  { intros Hok. unfold loadKeysDir. destruct (String.eqb _ _); [by intros [= <-]|].
    destruct (dir _) as [files|]; [|done]. intros [= <-]. by apply admit_keys_ok. }
  unfold RequireProduction, fail_if. intros Hn.
  destruct (rs_allowSimulated s1) eqn:Ea; [apply Hload; [by apply Hone|exact Hn]|].
  destruct (u_Simulated nodeUID) eqn:Es; [done|]. apply Hload; [by apply Hone|exact Hn].
Qed.
End construction.

(** ** Separated fields *)

Definition bar : Z := 124.
Definition no_bar (l : bytes) : Prop := bar ∉ l.

Lemma bars : string_bytes "||" = [bar; bar].
Proof. reflexivity. Qed.

Lemma sep_longer (k : bytes) y1 y2 : no_bar y2 → k ≠ [] → (bar :: bar :: y2 = k ++ bar :: bar :: y1)%list → False.
Proof.
  unfold no_bar. intros Hy Hk E. apply Hy. destruct k as [|a [|b k]]; [done|..]; simplify_list_eq.
  - by left.
  - apply elem_of_app. right. by left.
Qed.

(** The last separator can be found again. *)
Lemma sep_inj (x1 x2 y1 y2 : bytes) : no_bar y1 → no_bar y2 →
  (x1 ++ string_bytes "||" ++ y1 = x2 ++ string_bytes "||" ++ y2)%list → x1 = x2 ∧ y1 = y2.
Proof.
  rewrite bars. simpl. intros H1 H2 E. apply app_eq_inv in E as [(k & E1 & E2)|(k & E1 & E2)].
  - destruct k as [|a k]; [rewrite app_nil_r in E1; naive_solver|].
    by apply (sep_longer (a :: k) y1 y2) in E2.
  - destruct k as [|a k]; [rewrite app_nil_r in E1; naive_solver|].
    by apply (sep_longer (a :: k) y2 y1) in E2.
Qed.

Lemma digits_no_bar s : ∀ acc v, digits_value s acc = Some v → no_bar (string_bytes s).
Proof.
  induction s as [|a s IH]; intros acc v Hv; [by intros ?%elem_of_nil|]. simpl in Hv.
  destruct (digit_value a) as [d|] eqn:Ed; [|done]. apply IH in Hv.
  intros [Hb|Hb]%elem_of_cons; [|done]. unfold digit_value in Ed.
  unfold bar in Hb. rewrite <- Hb in Ed. done.
Qed.

Lemma ParseUint_no_bar s v : ParseUint s = Some v → no_bar (string_bytes s).
Proof.
  unfold ParseUint. destruct s as [|a s]; [done|].
  destruct (digits_value (String a s) 0) as [w|] eqn:E; [|done]. intros _. by apply digits_no_bar in E.
Qed.

Lemma no_bar_cons a s : Z.of_nat (nat_of_ascii a) ≠ bar → no_bar (string_bytes s) → no_bar (string_bytes (String a s)).
Proof. intros Ha Hs [Hb|Hb]%elem_of_cons; [by rewrite Hb in Ha|done]. Qed.

Lemma ParseInt_no_bar s v : ParseInt s = Some v → no_bar (string_bytes s).
Proof.
  unfold ParseInt. destruct s as [|a s]; [done|].
  destruct (Ascii.eqb_spec a "+") as [->|_]; [|destruct (Ascii.eqb_spec a "-") as [->|_]]; cbv zeta iota beta.
  - destruct (ParseUint s) as [un|] eqn:E; [|done]. intros _. apply no_bar_cons; [done|by eapply ParseUint_no_bar].
  - destruct (ParseUint s) as [un|] eqn:E; [|done]. intros _. apply no_bar_cons; [done|by eapply ParseUint_no_bar].
  - destruct (ParseUint (String a s)) as [un|] eqn:E; [|done]. intros _. by eapply ParseUint_no_bar.
Qed.

Lemma hex_value_no_bar a v : hex_value a = Some v → Z.of_nat (nat_of_ascii a) ≠ bar.
Proof. unfold hex_value. intros Hv Ha. rewrite Ha in Hv. done. Qed.

Lemma hex_no_bar n : ∀ s l, (String.length s ≤ n)%nat → hex_decode s = Some l → no_bar (string_bytes s).
Proof.
  induction n as [|n IH]; intros [|a [|b s]] l Hn Hd; try done; try (by intros ?%elem_of_nil); [simpl in Hn; lia|].
  simpl in Hd. destruct (hex_value a) eqn:Ea, (hex_value b) eqn:Eb, (hex_decode s) eqn:Es; try done.
  apply no_bar_cons; [by eapply hex_value_no_bar|]. apply no_bar_cons; [by eapply hex_value_no_bar|].
  eapply IH; [|done]. simpl in Hn. lia.
Qed.

Lemma prefix_split pre : ∀ s, String.prefix pre s = true → s = pre ++ drop_string (String.length pre) s.
Proof.
  induction pre as [|a pre IH]; intros [|b s] Hp; try done. simpl in Hp |- *.
  destruct (ascii_dec a b) as [->|]; [|done].
  change (String b s = String b (pre ++ drop_string (String.length pre) s)). f_equal. by apply IH.
Qed.

Lemma string_bytes_app s1 s2 : string_bytes (s1 ++ s2) = (string_bytes s1 ++ string_bytes s2)%list.
Proof.
  induction s1 as [|a s1 IH]; [done|]. change (string_bytes (String a (s1 ++ s2)) = (string_bytes (String a s1) ++ string_bytes s2)%list).
  simpl. by rewrite <- IH.
Qed.

Lemma prefix_no_bar pre s : String.prefix pre s = true → no_bar (string_bytes pre) →
  no_bar (string_bytes (TrimPrefix s pre)) → no_bar (string_bytes s).
Proof.
  unfold TrimPrefix. intros Hp H1 H2. rewrite Hp in H2. rewrite (prefix_split _ _ Hp), string_bytes_app.
  intros [Hb|Hb]%elem_of_app; [by apply H1|by apply H2].
Qed.

(** ** The limiter *)

Section limiter.
Context (maxReq dur : Z).

(** The reference keeps every accepted time and counts those in the window. *)
Definition in_window (now : Z) (l : list Z) : list Z := filter (fun t => (now - dur / second <= t)%Z) l.

Definition reference_allow (now : Z) (l : list Z) : list Z * bool :=
  if (maxReq <=? Z.of_nat (length (in_window now l)))%Z then (l, false) else ((l ++ [now])%list, true).

(** The calls of one root at the times [ts], with their verdicts. *)
Fixpoint limiter_run (rootID : string) (ts : list Z) (rl : perRootLimiter) : list bool :=
  match ts with
  | [] => []
  | t :: ts => let '(rl', ok) := perRoot_Allow rootID t rl in ok :: limiter_run rootID ts rl'
  end.

Fixpoint reference_run (ts : list Z) (l : list Z) : list bool :=
  match ts with
  | [] => []
  | t :: ts => let '(l', ok) := reference_allow t l in ok :: reference_run ts l'
  end.

Lemma in_window_le t t' l : (t <= t')%Z → in_window t' (in_window t l) = in_window t' l.
Proof.
  intros Ht. unfold in_window. rewrite list_filter_filter. apply list_filter_iff. intros x. lia.
Qed.

Lemma in_window_app t l x : in_window t (l ++ [x]) = (in_window t l ++ in_window t [x])%list.
Proof. apply filter_app. Qed.

Lemma limiter_agrees rootID : ∀ ts rl l t0, rl_maxReq rl = maxReq → rl_windowDur rl = dur →
  (∀ t, (t0 <= t)%Z → in_window t (default [] (rl_windows rl !! rootID)) = in_window t l) →
  StronglySorted Z.le (t0 :: ts) → limiter_run rootID ts rl = reference_run ts l.
Proof.
  intros ts. induction ts as [|t ts IH]; intros rl l t0 Hm Hd Hw Hs; [done|].
  apply StronglySorted_inv in Hs as [Hs Ht0]. apply Forall_cons in Ht0 as [Ht0 _].
  pose proof (StronglySorted_inv Hs) as [_ Hts].
  cbn [limiter_run reference_run]. unfold perRoot_Allow, limiter_write, limiter_read, reference_allow.
  rewrite Hd, Hm. fold (in_window t (default [] (rl_windows rl !! rootID))). rewrite (Hw t Ht0).
  destruct (maxReq <=? _)%Z; f_equal; (eapply (IH _ _ t); [exact Hm|exact Hd| |exact Hs]);
    intros t' Ht'; cbn [rl_windows set_windows]; rewrite lookup_insert_eq; cbn [default id].
  - by apply in_window_le.
  - rewrite (in_window_app t' (in_window t l)), (in_window_app t' l), in_window_le by done. done.
Qed.

(** Calls of one root, one after the other and in the order of time, get the verdicts of
    the reference. *)
Lemma limiter_sequential rootID ts : StronglySorted Z.le ts →
  limiter_run rootID ts {| rl_windows := ∅; rl_maxReq := maxReq; rl_windowDur := dur |} = reference_run ts [].
Proof.
  intros Hs. destruct ts as [|t ts]; [done|].
  apply (limiter_agrees rootID (t :: ts) _ [] t); try done.
  constructor; [done|]. apply StronglySorted_inv in Hs as [_ Hts]. by constructor.
Qed.

(** Calls that overlap: all of them read before any of them writes. *)
Definition limiter_overlap (rootID : string) (now : Z) (k : nat) (rl : perRootLimiter) : perRootLimiter * list bool :=
  let valid := limiter_read rootID now rl in
  foldl (fun st _ => let '(rl', ok) := limiter_write rootID now valid (fst st) in (rl', (snd st ++ [ok])%list))
    (rl, []) (replicate k ()).

(** The limit does not bound overlapping calls: with room for one, any number passes. *)
Lemma limiter_race rootID now k rl :
  (Z.of_nat (length (limiter_read rootID now rl)) < rl_maxReq rl)%Z →
  snd (limiter_overlap rootID now k rl) = replicate k true.
Proof.
  intros Hroom. unfold limiter_overlap. set (valid := limiter_read rootID now rl) in *. clearbody valid.
  assert (Hgen : ∀ oks rl', rl_maxReq rl' = rl_maxReq rl →
    snd (foldl (fun st _ => let '(rl', ok) := limiter_write rootID now valid (fst st) in (rl', (snd st ++ [ok])%list))
           (rl', oks) (replicate k ())) = (oks ++ replicate k true)%list).
  { induction k as [|k IH]; intros oks rl' Hm; [by rewrite app_nil_r|]. cbn [replicate foldl fst snd].
    unfold limiter_write at 2. rewrite Hm, (proj2 (Z.leb_gt _ _)) by done. rewrite IH by done.
    by rewrite <- app_assoc. }
  by rewrite Hgen.
Qed.
End limiter.

Section server.
Context `{Primitives, Cbor, Ristretto, Gonum, StateCbor, SubmitJson, UidDecode} {bus : Type} `{GossipChannel bus}.
Context (env : nat → bus → bus) (clock : nat → Z).
Local Notation World := (World (bus := bus)).

(** ** Authentication *)

(** A request that a key holder on the list signed within half a minute of [now]. *)
Definition authentic (s : RestServer) (now : Z) (r : Request) : Prop :=
  rq_RootID r ≠ "" ∧
  (∃ ts, ParseInt (rq_Timestamp r) = Some ts ∧ (Z.abs (now - ts) <= maxTimestampSkew)%Z) ∧
  (rs_allowedRoots s = ∅ ∨ rq_RootID r ∈ rs_allowedRoots s) ∧
  ∃ uid sig, rs_keys s !! rq_RootID r = Some uid ∧ hex_decode (rq_Signature r) = Some sig ∧ rq_Signature r ≠ "" ∧
    VerifyDilithium (u_PublicKey uid) (signed_message r) sig = true.

Lemma ParseUint_range s v : ParseUint s = Some v → (v < 2 ^ 64)%Z.
Proof. unfold ParseUint. repeat case_match; try done. intros [= <-]. by apply Z.ltb_lt. Qed.

Lemma digits_nonneg s : ∀ acc v, (0 <= acc)%Z → digits_value s acc = Some v → (0 <= v)%Z.
Proof.
  induction s as [|a s IH]; intros acc v Ha Hv; simpl in Hv; [by injection Hv as <-|].
  destruct (digit_value a) as [d|] eqn:Ed; [|done]. eapply IH; [|exact Hv].
  unfold digit_value in Ed. case_match eqn:E; [|done]. injection Ed as <-.
  apply andb_true_iff in E as [E1%Z.leb_le _]. lia.
Qed.

Lemma ParseInt_range s v : ParseInt s = Some v → (- 2 ^ 63 <= v < 2 ^ 63)%Z.
Proof.
  unfold ParseInt. destruct (match s with EmptyString => _ | String a s' => _ end) as [neg rest].
  destruct (ParseUint rest) as [un|] eqn:E; [|done].
  assert (Hun : (0 <= un)%Z).
  { unfold ParseUint in E. destruct rest as [|a s']; [done|]. destruct (digits_value (String a s') 0) eqn:Ev; [|done].
    case_match; [|done]. injection E as <-. by eapply digits_nonneg. }
  destruct neg; case_match eqn:Ec; try done; intros [= <-].
  - apply Z.ltb_ge in Ec. lia.
  - apply Z.leb_gt in Ec. lia.
Qed.

(** The wrap-around of the difference cannot make a distant time look close. *)
Lemma stale_spec now ts : (0 <= now < 2 ^ 62)%Z → (- 2 ^ 63 <= ts < 2 ^ 63)%Z →
  stale now ts = false ↔ (Z.abs (now - ts) <= maxTimestampSkew)%Z.
Proof.
  intros Hn Ht. unfold stale. rewrite Z.ltb_ge. unfold maxTimestampSkew, i64.
  destruct (Z.lt_ge_cases (now - ts) (2 ^ 63)) as [Hs|Hs].
  - rewrite Z.mod_small by lia. split; lia.
  - replace (now - ts + 2 ^ 63)%Z with ((now - ts - 2 ^ 63) + 1 * 2 ^ 64)%Z by lia.
    rewrite Z.mod_add, Z.mod_small by lia. split; lia.
Qed.

Lemma authenticate_authentic s now r : (0 <= now < 2 ^ 62)%Z →
  authenticate s now r = Ok (rq_RootID r) ↔ authentic s now r.
Proof.
  intros Hn. unfold authenticate, authentic.
  destruct (String.eqb_spec (rq_RootID r) "") as [E1|E1]; [naive_solver|].
  destruct (String.eqb_spec (rq_Signature r) "") as [E2|E2]; [naive_solver|].
  destruct (String.eqb_spec (rq_Timestamp r) "") as [E3|E3]; cbn [orb].
  { rewrite E3. split; [done|]. by intros (_ & (ts & Hts & _) & _). }
  destruct (ParseInt (rq_Timestamp r)) as [ts|] eqn:Et; [|naive_solver].
  pose proof (stale_spec now ts Hn (ParseInt_range _ _ Et)) as Hst.
  destruct (stale now ts) eqn:Es.
  { split; [done|]. intros (_ & (ts' & [= <-] & Hts) & _). by apply Hst in Hts. }
  assert (Hskew : (Z.abs (now - ts) <= maxTimestampSkew)%Z) by by apply Hst.
  destruct (rs_keys s !! rq_RootID r) as [uid|] eqn:Ek; [|naive_solver].
  destruct (decide (rs_allowedRoots s = ∅ ∨ rq_RootID r ∈ rs_allowedRoots s)) as [Hw|Hw].
  - replace (bool_decide (rs_allowedRoots s ≠ ∅) && negb (bool_decide (rq_RootID r ∈ rs_allowedRoots s))) with false.
    2: { destruct Hw as [->|Hin]; [done|]. by rewrite (bool_decide_true (_ ∈ _)), andb_false_r. }
    destruct (hex_decode (rq_Signature r)) as [sig|] eqn:Eh; [|naive_solver].
    destruct (VerifyDilithium (u_PublicKey uid) (signed_message r) sig) eqn:Ev; cbn [negb].
    + split; [|done]. intros _. split_and!; eauto 8.
    + split; [done|]. intros (_ & _ & _ & uid' & sig' & [= <-] & [= <-] & _ & Hv). congruence.
  - rewrite (bool_decide_true (_ ≠ _)), bool_decide_false by naive_solver. naive_solver.
Qed.

(** C23: Authentication accepts exactly the authentic requests: those that carry a time of
    at most 30 seconds away, name a known root that the white list admits, and hold that
    root's signature over body, method, path and time. *)
Theorem rest_auth_spec s now r : (0 <= now < 2 ^ 62)%Z →
  authenticate s now r = Ok (rq_RootID r) ↔ authentic s now r.
Proof. apply authenticate_authentic. Qed.

(** ** Signatures bind requests *)

Definition served (resp : Response) : Prop := rp_Status resp = 200%Z ∨ rp_Status resp = 201%Z.

Lemma authenticate_timestamp s t r root : authenticate s t r = Ok root → no_bar (string_bytes (rq_Timestamp r)).
Proof.
  unfold authenticate. destruct (_ || _); [done|].
  destruct (ParseInt (rq_Timestamp r)) as [ts|] eqn:E; [|done]. intros _. by eapply ParseInt_no_bar.
Qed.

Lemma unauthorized_served msg : ¬ served (unauthorized msg).
Proof. unfold unauthorized. repeat case_match; by intros [|]. Qed.

Lemma unix_Ok (w w' : World) t : unix clock w = (w', Ok t) → w_eng w' = w_eng w ∧ w_bus w' = w_bus w.
Proof. unfold unix, mbind, now, ret. by intros [= <- <-]. Qed.

(** What is served behind [withAuth] was authenticated and is the handler's answer. *)
Lemma withAuth_served next r s (w w' : World) s' resp :
  withAuth clock next r s w = (w', Ok (s', resp)) → served resp →
  (∃ t root, authenticate s t r = Ok root) ∧ ∃ w1 s1, next r s1 w1 = (w', Ok resp).
Proof.
  unfold withAuth. intros Hr Hs. apply mbind_Ok in Hr as (t & w1 & _ & Hr).
  destruct (authenticate s t r) as [root|msg|] eqn:Ea; [|injection Hr as _ _ <-; by apply unauthorized_served in Hs|done].
  apply mbind_Ok in Hr as (t' & w2 & _ & Hr). destruct (perRoot_Allow root t' (rs_limiter s)) as [rl ok].
  destruct ok; [|injection Hr as _ _ <-; by destruct Hs].
  apply mbind_Ok in Hr as (resp' & w3 & Hn & Hr). injection Hr as <- _ <-. eauto 6.
Qed.

Lemma optionalAuth_served next r s (w w' : World) s' resp :
  optionalAuth clock next r s w = (w', Ok (s', resp)) → served resp → rq_RootID r ≠ "" →
  ∃ t root, authenticate s t r = Ok root.
Proof.
  unfold optionalAuth. intros Hr Hs Hid. destruct (String.eqb_spec (rq_RootID r) ""); [done|].
  apply mbind_Ok in Hr as (t & w1 & _ & Hr).
  destruct (authenticate s t r) as [root|msg|] eqn:Ea; [eauto| |done]. injection Hr as _ _ <-. by destruct Hs.
Qed.

Lemma verify_served r s (w w' : World) resp : handleVerify r s w = (w', Ok resp) → served resp →
  no_bar (string_bytes (TrimPrefix (rq_Path r) "/v1/verify/")).
Proof.
  unfold handleVerify. intros Hr Hs. destruct (negb _); [injection Hr as _ <-; by destruct Hs|].
  destruct (hex_decode _) as [l|] eqn:E; [by eapply hex_no_bar|]. injection Hr as _ <-. by destruct Hs.
Qed.

Lemma block_served r s (w w' : World) resp : handleGetBlock r s w = (w', Ok resp) → served resp →
  no_bar (string_bytes (TrimPrefix (rq_Path r) "/v1/block/")).
Proof.
  unfold handleGetBlock. intros Hr Hs. destruct (ParseUint _) as [i|] eqn:E; [by eapply ParseUint_no_bar|].
  injection Hr as _ <-. by destruct Hs.
Qed.

Lemma no_barb l : forallb (fun b => negb (b =? bar)%Z) l = true → no_bar l.
Proof.
  intros Hl Hin. apply list_elem_of_In in Hin. rewrite forallb_forall in Hl. specialize (Hl _ Hin).
  by rewrite Z.eqb_refl in Hl.
Qed.

Lemma get_no_bar m : is_get m = true → no_bar (string_bytes m).
Proof.
  unfold is_get. intros [->%String.eqb_eq| ->%String.eqb_eq]%orb_true_iff; by apply no_barb.
Qed.

(** A served request has an unambiguous path and method, and was authenticated when it
    names a root. *)
Lemma handler_served ticks r s (w w' : World) s' resp :
  Handler env clock ticks r s w = (w', Ok (s', resp)) → served resp → rq_RootID r ≠ "" →
  (∃ t root, authenticate s t r = Ok root) ∧
  no_bar (string_bytes (rq_Method r)) ∧ no_bar (string_bytes (rq_Path r)).
Proof.
  assert (Hplain : ∀ z w0, z ≠ 200%Z → z ≠ 201%Z → (w0 : World, Ok (s, plain z) : outcome gerror _) = (w', Ok (s', resp)) → served resp → False).
  { intros z w0 N1 N2 [= _ _ <-] [|]; done. }
  unfold Handler. intros Hr Hs Hid. unfold ret in Hr.
  destruct (String.eqb (rq_Method r) "OPTIONS"); [by apply Hplain in Hr|].
  destruct (clean_path (rq_Path r)); cbn [negb] in Hr; [|by apply Hplain in Hr].
  destruct (_ || _); [destruct (is_get (rq_Method r)); by apply Hplain in Hr|].
  destruct (String.eqb_spec (rq_Path r) "/v1/submit") as [E|_].
  { destruct (String.eqb_spec (rq_Method r) "POST") as [Em|_]; [|by apply Hplain in Hr].
    apply withAuth_served in Hr as [Ha _]; [|done]. rewrite E, Em. split_and!; [done|by apply no_barb..]. }
  destruct (String.prefix "/v1/verify/" (rq_Path r)) eqn:Ev.
  { destruct (is_get (rq_Method r)) eqn:Em; [|by apply Hplain in Hr].
    apply withAuth_served in Hr as [Ha (w1 & s1 & Hn)]; [|done].
    split_and!; [done|by apply get_no_bar|]. apply (prefix_no_bar _ _ Ev); [by apply no_barb|by eapply verify_served]. }
  destruct (String.prefix "/v1/block/" (rq_Path r)) eqn:Eb.
  { destruct (is_get (rq_Method r)) eqn:Em; [|by apply Hplain in Hr].
    apply withAuth_served in Hr as [Ha (w1 & s1 & Hn)]; [|done].
    split_and!; [done|by apply get_no_bar|]. apply (prefix_no_bar _ _ Eb); [by apply no_barb|by eapply block_served]. }
  destruct (String.eqb_spec (rq_Path r) "/v1/health") as [E|_].
  { destruct (is_get (rq_Method r)) eqn:Em; [|by apply Hplain in Hr].
    apply optionalAuth_served in Hr; [|done..]. rewrite E. split_and!; [done|by apply get_no_bar|by apply no_barb]. }
  destruct (String.eqb_spec (rq_Path r) "/v1/state-root") as [E|_]; [|by apply Hplain in Hr].
  destruct (is_get (rq_Method r)) eqn:Em; [|by apply Hplain in Hr].
  apply optionalAuth_served in Hr; [|done..]. rewrite E. split_and!; [done|by apply get_no_bar|by apply no_barb].
Qed.

Lemma string_bytes_eq s1 s2 : string_bytes s1 = string_bytes s2 → s1 = s2.
Proof. apply string_bytes_inj. Qed.

(** C13: A signature cannot be moved to another request. The signed string joins body,
    method, path and time with bars and the body may hold bars itself; still, two requests
    that the server answers with success under the same signed string agree in all four. *)
Theorem rest_signature_binds ticks r1 r2 s1 s2 (w1 w2 w1' w2' : World) s1' s2' resp1 resp2 :
  Handler env clock ticks r1 s1 w1 = (w1', Ok (s1', resp1)) → served resp1 → rq_RootID r1 ≠ "" →
  Handler env clock ticks r2 s2 w2 = (w2', Ok (s2', resp2)) → served resp2 → rq_RootID r2 ≠ "" →
  signed_message r1 = signed_message r2 →
  rq_Body r1 = rq_Body r2 ∧ rq_Method r1 = rq_Method r2 ∧ rq_Path r1 = rq_Path r2 ∧ rq_Timestamp r1 = rq_Timestamp r2.
Proof.
  intros Hh1 Hs1 Hi1 Hh2 Hs2 Hi2 E.
  destruct (handler_served _ _ _ _ _ _ _ Hh1 Hs1 Hi1) as ((t1 & ? & Ha1) & Hm1 & Hp1).
  destruct (handler_served _ _ _ _ _ _ _ Hh2 Hs2 Hi2) as ((t2 & ? & Ha2) & Hm2 & Hp2).
  apply authenticate_timestamp in Ha1, Ha2. unfold signed_message in E.
  assert (Hassoc : ∀ a b c d e f g : bytes, (a ++ b ++ c ++ d ++ e ++ f ++ g = (((a ++ b ++ c) ++ d ++ e) ++ f ++ g))%list).
  { intros. by rewrite !app_assoc. }
  rewrite (Hassoc (rq_Body r1)), (Hassoc (rq_Body r2)) in E.
  apply sep_inj in E as [E Et]; [|done..]. apply sep_inj in E as [E Ep]; [|done..]. apply sep_inj in E as [Eb Em]; [|done..].
  auto using string_bytes_eq.
Qed.

(** ** Submission *)

(** The answer to a refusal of [validateEntry] carries the code of the check. *)
Lemma validation_error_status hash submitter label cfg er : validateEntry hash submitter label cfg = Err er →
  rp_Status (enqueue_error er) = 400%Z.
Proof.
  intros Hv. pose proof (validateEntry_cases hash submitter label cfg) as Hc. rewrite Hv in Hc.
  destruct er; try (by destruct Hc as [[? _]|[[? _]|[? _]]]). simpl in Hc |- *.
  by destruct Hc as [[[= ->] _]|[[[= ->] _]|[[= ->] _]]].
Qed.

(** What stands in the way of an entry that the handler has built, at the time the limiter is asked. *)
Definition overloaded (e : Engine) (t : Z) (entry : ProvenanceEntry) : Prop :=
  (MaxTotalPending (apiLimitsLocked e) <= Z.of_nat (length (en_pending e)))%Z ∨
  within_rate t (pl_rateLimiter (en_pool e)) (e_Submitter entry) = false.

Definition admissible (e : Engine) (entry : ProvenanceEntry) : Prop :=
  validateEntry (e_Hash entry) (e_Submitter entry) (e_Label entry) (apiLimitsLocked e) = Ok tt.

(** An entry without a mandate reference: the status of the answer to each refusal. *)
Lemma enqueue_refused entry (w w' : World) er : e_MandateRef entry = None →
  enqueue_outcome clock entry w w' (Err er) →
  en_pending (w_eng w') = en_pending (w_eng w) ∧ w_bus w' = w_bus w ∧
  (rp_Status (enqueue_error er) = 500%Z ∧
     (en_stopped (w_eng w) = true ∨ admissible (w_eng w) entry ∧ overloaded (w_eng w) (clock (w_step w)) entry) ∨
   rp_Status (enqueue_error er) = 400%Z ∧ en_stopped (w_eng w) = false ∧ ¬ admissible (w_eng w) entry).
Proof.
  intros Hm (_ & _ & Hp & Hb & Hcases). split_and!; [done..|].
  destruct Hcases as [[-> Hs]|[[Hv Hs]|[[Hv _]|(-> & _ & Hv & _ & Ho)]]].
  - left. split; [reflexivity|by left].
  - right. split_and!; [by eapply validation_error_status|done|]. unfold admissible. congruence.
  - exfalso. unfold validateEntryAgainstMandatesLocked, ValidateEntryAgainstMandates in Hv. by rewrite Hm in Hv.
  - left. split; [reflexivity|]. right. by split.
Qed.

(** C22: A submission over REST always gets an answer, and the request and the engine decide
    which. A body that does not decode, or fails a check of the handler, gets 400 and nothing
    happens. Otherwise the handler builds an entry from the request, and: if the engine runs,
    the entry passes the engine's validation, the queue has room and the limiter lets the
    submitter pass, the entry is added to the queue, once and last, and the answer is 201
    with the proof the engine holds for the hash, or 503 when the wait ends without one; if
    the engine is stopped, the queue is full or the submitter exceeds its rate, the answer is
    500 (a rate limit too); if the entry fails the engine's validation it is 400. In the last
    two cases queue and bus are unchanged. Nothing but the pool ever changes. *)
Theorem rest_submit_spec ticks r s (w : World) : ∃ w' resp,
  handleSubmit env clock ticks r s w = (w', Ok resp) ∧ pool_only (w_eng w) (w_eng w') ∧
  match decode_submit (take maxBodyBytes (rq_Body r)) with
  | DecOk req =>
      match check_submit req with
      | inl h =>
          let e := w_eng w in
          let entry := submit_entry h req (clock (w_step w)) in
          let busy := overloaded e (clock (S (w_step w))) entry in
          let refused := en_pending (w_eng w') = en_pending e ∧ w_bus w' = w_bus w in
          (en_stopped e = false → admissible e entry → ¬ busy →
             en_pending (w_eng w') = (en_pending e ++ [entry])%list ∧
             match WaitForAnchor (ticks w') h with
             | Some proof => resp = writeJSON 201 (apiOK (proof_data (sr_Hash req) proof))
             | None => rp_Status resp = 503%Z
             end) ∧
          (en_stopped e = true ∨ admissible e entry ∧ busy → rp_Status resp = 500%Z ∧ refused) ∧
          (en_stopped e = false → ¬ admissible e entry → rp_Status resp = 400%Z ∧ refused)
      | inr _ => rp_Status resp = 400%Z ∧ w' = w
      end
  | _ => rp_Status resp = 400%Z ∧ w' = w
  end.
Proof.
  pose proof (pool_only_refl (w_eng w)) as Hrefl.
  unfold handleSubmit. destruct (decode_submit _) as [req| | |] eqn:Ed; [|by eexists _, _..].
  destruct (check_submit req) as [h|resp] eqn:Ec.
  2: { eexists _, resp. split_and!; [done..| |done]. unfold check_submit in Ec. repeat case_match; try done; by injection Ec as <-. }
  unfold mbind, now. set (w0 := {| w_eng := w_eng w; w_bus := w_bus w; w_step := S (w_step w) |}).
  set (entry := submit_entry h req (clock (w_step w))).
  pose proof (Enqueue_cases env clock entry w0) as Hq. cbv zeta.
  destruct (Enqueue env clock entry w0) as [w' [[]|er|]] eqn:Eq; [| |by destruct Hq as (_ & _ & [])].
  - destruct Hq as (Hp & _ & Hs & Hz & Hsub & Hlab & _ & Hroom & Hpend & _ & Hrate & _).
    eexists _, _. split_and!; [reflexivity|exact Hp| | |].
    + intros _ _ _. split; [exact Hpend|]. by destruct (WaitForAnchor (ticks w') h).
    + change (w_eng w0) with (w_eng w) in *. intros [Hst|[_ [Hfull|Hlim]]]; [congruence|exfalso; lia|].
      change (w_step w0) with (S (w_step w)) in Hrate. congruence.
    + intros _ Hno. destruct Hno. by apply validateEntry_Ok.
  - destruct (enqueue_refused entry w0 w' er eq_refl Hq) as (Hpend & Hbus & Hcase).
    destruct Hq as [Hp _]. eexists _, _. split_and!; [reflexivity|exact Hp|..];
      change (w_eng w0) with (w_eng w) in *; change (w_step w0) with (S (w_step w)) in *;
      destruct Hcase as [[Hst Hwhy]|(Hst & Hrun & Hbad)].
    + intros Hs Ha Hno. destruct Hwhy as [?|[_ ?]]; [congruence|done].
    + intros _ Ha. done.
    + intros _. by split_and!.
    + intros [?|[? _]]; [congruence|done].
    + intros Hs Hna. destruct Hwhy as [?|[? _]]; [congruence|done].
    + intros _ _. by split_and!.
Qed.

(** ** From submission to verification on a single node *)

Lemma check_submit_hash req h : check_submit req = inl h →
  length h = 32%nat ∧ String.length (sr_Hash req) = 64%nat ∧ ∃ l, hex_decode (sr_Hash req) = Some l ∧ copy_array 32 l = h.
Proof.
  unfold check_submit. intros Hc. destruct (String.length (sr_Hash req) =? 64)%nat eqn:El; [|done]. cbn [negb] in Hc.
  destruct (hex_decode (sr_Hash req)) as [l|]; [|done]. repeat case_match; try done. injection Hc as <-.
  split; [apply length_copy_array|]. split; [by apply Nat.eqb_eq|eauto].
Qed.

Lemma WaitForAnchor_later pre e post h : is_Some (LookupHash e h) → is_Some (WaitForAnchor (pre ++ e :: post) h).
Proof.
  intros He. induction pre as [|e' pre IH]; simpl.
  - destruct (LookupHash e h); [by eexists|by destruct He].
  - destruct (LookupHash e' h); [by eexists|done].
Qed.

Context `{!MldsaCorrect, !RistrettoLaws} (patience : nat → nat).
Context (u : UIDZeroSoulbound) (Huid : uid_wf u).
Context (Hroot_total : ∀ c n g l, is_Some (cbor_root_state c n g l)).

(** A cycle of a single node anchors what is pending. *)
Lemma solo_cycle_anchors (w : World) pf entry :
  let e := w_eng w in
  solo u e → accepts 0 None (en_blocks e) → (Z.of_nat (length (en_blocks e)) < 2 ^ 64)%Z →
  VRFProve u (makeAlpha (nextCycleLocked e) (Smt.Root (en_st e))) = Ok pf →
  entry ∈ (en_pendingEntries e ++ en_pending e)%list → length (e_Hash entry) = 32%nat →
  is_Some (LookupHash (w_eng (RunCycle env clock patience w)) (e_Hash entry)).
Proof.
  intros e Hs Hacc Hlen Hp Hmem Hh.
  assert (Hne : (en_pendingEntries e ++ en_pending e)%list ≠ []) by (intros E; rewrite E in Hmem; by apply elem_of_nil in Hmem).
  destruct (solo_step env clock patience u Huid Hroot_total w pf Hs Hacc Hlen Hne Hp)
    as (w' & block & Hrun & _ & Hblocks & _ & _ & _ & Hall).
  unfold RunCycle. rewrite Hrun. cbn [fst].
  destruct (cycle_body_atomic env clock patience w w' (Ok tt) Hrun) as (ing & Hcase); [done|]. cbv zeta in Hcase.
  assert (Hno : en_blocks (w_eng w') ≠ en_blocks e).
  { rewrite Hblocks. intros E. apply (f_equal length) in E. rewrite length_app in E. cbn [length] in E. subst e. lia. }
  destruct Hcase as [[b Hc]|[Hrb|[_ Hrb]]]; [|by destruct Hno; apply (rb_blocks _ _ _ _ Hrb)..].
  pose proof (cm_blocks _ _ _ Hc) as Hb. change (en_blocks (with_pending _ _ (w_eng w))) with (en_blocks e) in Hb.
  rewrite Hblocks in Hb. apply app_inj_2 in Hb as [_ [= <-]]; [|done].
  destruct (Hall entry Hmem) as (y & Hy & Ey). destruct (cm_anchored _ _ _ Hc y Hy) as (proof & Hproof & _).
  unfold LookupHash. rewrite Ey, copy_array_id in Hproof by done. by rewrite Hproof.
Qed.

(** A single node keeps what it promises over REST. A well-formed submission that the
    engine admits is answered with 201 as soon as the wait sees the end of the next cycle,
    and from then on a query for the hash is answered with 200. *)
Theorem rest_submit_anchored ticks pre post r s r' s' (w w1 : World) req h pf :
  solo u (w_eng w) → accepts 0 None (en_blocks (w_eng w)) → (Z.of_nat (length (en_blocks (w_eng w))) < 2 ^ 64)%Z →
  decode_submit (take maxBodyBytes (rq_Body r)) = DecOk req → check_submit req = inl h →
  Enqueue env clock (submit_entry h req (clock (w_step w)))
    {| w_eng := w_eng w; w_bus := w_bus w; w_step := S (w_step w) |} = (w1, Ok tt) →
  VRFProve u (makeAlpha (nextCycleLocked (w_eng w)) (Smt.Root (en_st (w_eng w)))) = Ok pf →
  ticks w1 = (pre ++ w_eng (RunCycle env clock patience w1) :: post)%list →
  TrimPrefix (rq_Path r') "/v1/verify/" = sr_Hash req →
  (∃ resp, handleSubmit env clock ticks r s w = (w1, Ok resp) ∧ rp_Status resp = 201%Z) ∧
  ∃ resp w2, handleVerify r' s' (RunCycle env clock patience w1) = (w2, Ok resp) ∧ rp_Status resp = 200%Z.
Proof.
  intros Hs Hacc Hlen Hd Hc Hq Hp Ht Hpath.
  set (w0 := {| w_eng := w_eng w; w_bus := w_bus w; w_step := S (w_step w) |}) in *.
  destruct (check_submit_hash _ _ Hc) as (Hh & Hl64 & l & Hhex & Hl).
  pose proof (Enqueue_cases env clock (submit_entry h req (clock (w_step w))) w0) as Ho. rewrite Hq in Ho.
  destruct Ho as (_ & _ & _ & _ & _ & _ & _ & _ & Hpend & _).
  pose proof (Enqueue_core env clock (submit_entry h req (clock (w_step w))) w0) as Hcore. rewrite Hq in Hcore. cbn [fst] in Hcore.
  pose proof (sc_ledger _ _ Hcore) as Hled. change (w_eng w0) with (w_eng w) in *.
  assert (Hanch : is_Some (LookupHash (w_eng (RunCycle env clock patience w1)) h)).
  { apply (solo_cycle_anchors w1 pf (submit_entry h req (clock (w_step w)))); [by apply (solo_same_core _ _ _ Hcore)|..].
    - unfold en_blocks in *. by rewrite Hled.
    - unfold en_blocks in *. by rewrite Hled.
    - unfold nextCycleLocked, en_blocks, en_state, en_st in *. by rewrite Hled.
    - rewrite Hpend. apply elem_of_app. right. apply elem_of_app. right. by left.
    - done. }
  split.
  - unfold handleSubmit. rewrite Hd, Hc. unfold mbind, now. fold w0. rewrite Hq.
    destruct (WaitForAnchor_later pre _ post h Hanch) as [proof Hw]. rewrite <- Ht in Hw. rewrite Hw. by eexists.
  - unfold handleVerify. rewrite Hpath, Hl64, Hhex. cbn [Nat.eqb negb]. unfold mbind, get_eng. cbn iota beta.
    rewrite Hl. destruct Hanch as [proof ->]. eexists _, _. split; reflexivity.
Qed.
End server.

(** ** Concrete instance *)

Definition demo_hash_hex : string := hex_encode (key32 5).

#[export] Instance toy_submit : SubmitJson :=
  {| decode_submit _ := DecOk {| sr_Hash := demo_hash_hex; sr_Submitter := "ci"; sr_Label := "build" |} |}.
#[export] Instance toy_uid_decode : UidDecode := {| uid_decode _ := None |}.

Definition demo_server : RestServer :=
  {| rs_nodeUID := demo_uid 7; rs_keys := {[ ID (demo_uid 7) := demo_uid 7 ]}; rs_allowedRoots := ∅;
     rs_allowSimulated := true; rs_keysDir := ""; rs_startTime := 0;
     rs_limiter := {| rl_windows := ∅; rl_maxReq := 2; rl_windowDur := minute |} |}.

Lemma rest_keys_production_witness : ∃ s,
  NewServer (demo_uid 7) [WithKeysDir "keys"; WithAllowedRoots "a, b"; WithAllowSimulatedIdentities true]
    (fun _ => Some [{| kf_regular := true; kf_data := Some [] |}]) 0 = Ok s ∧ keys_ok s.
Proof.
  eexists. split; [reflexivity|].
  apply (rest_keys_production (demo_uid 7)
           [WithKeysDir "keys"; WithAllowedRoots "a, b"; WithAllowSimulatedIdentities true]
           (fun _ => Some [{| kf_regular := true; kf_data := Some [] |}]) 0).
  reflexivity.
Defined.

Definition unsigned_request : Request :=
  {| rq_Method := "GET"; rq_Path := "/v1/state-root"; rq_RootID := ID (demo_uid 7); rq_Signature := "";
     rq_Timestamp := "7"; rq_Body := [] |}.

Definition demo_request : Request :=
  {| rq_Method := "GET"; rq_Path := "/v1/state-root"; rq_RootID := ID (demo_uid 7);
     rq_Signature := hex_encode (SignDilithium (u_SecretKey (demo_uid 7)) (signed_message unsigned_request));
     rq_Timestamp := "7"; rq_Body := [] |}.

Lemma demo_request_ok : (if authenticate demo_server 20 demo_request is Ok root then String.eqb root (rq_RootID demo_request) else false) = true.
Proof. vm_compute. reflexivity. Qed.

Lemma demo_request_authentic : authenticate demo_server 20 demo_request = Ok (rq_RootID demo_request).
Proof.
  pose proof demo_request_ok as Ha. destruct (authenticate demo_server 20 demo_request) as [root|e|]; [|discriminate Ha..].
  apply String.eqb_eq in Ha. by rewrite Ha.
Qed.

Lemma rest_auth_spec_witness : authentic demo_server 20 demo_request.
Proof. apply (rest_auth_spec demo_server 20 demo_request); [split; [discriminate|reflexivity]|exact demo_request_authentic]. Defined.

Definition demo_ticks (w : World (bus := MemoryBus)) : list Engine :=
  [w_eng w; w_eng (RunCycle demo_env demo_clock demo_patience w)].

Definition answered (o : World (bus := MemoryBus) * outcome gerror (RestServer * Response)) : bool :=
  match o with (_, Ok (_, resp)) => (rp_Status resp =? 200)%Z | _ => false end.

Lemma demo_handled : answered (Handler demo_env (fun _ => 20 * second)%Z demo_ticks demo_request demo_server fresh_world) = true.
Proof. vm_compute. reflexivity. Qed.

Lemma rest_signature_binds_witness : rq_Path demo_request = "/v1/state-root" ∧
  rq_Body demo_request = rq_Body demo_request.
Proof.
  split; [reflexivity|]. pose proof demo_handled as Hh.
  destruct (Handler demo_env (fun _ => 20 * second)%Z demo_ticks demo_request demo_server fresh_world)
    as [w' [[s' resp]|e|]] eqn:E; [|discriminate Hh..].
  apply Z.eqb_eq in Hh.
  apply (rest_signature_binds demo_env (fun _ => 20 * second)%Z demo_ticks demo_request demo_request demo_server
           demo_server fresh_world fresh_world w' w' s' s' resp resp E); [by left|discriminate|exact E|by left|discriminate|reflexivity].
Defined.

Definition submit_request : Request :=
  {| rq_Method := "POST"; rq_Path := "/v1/submit"; rq_RootID := ""; rq_Signature := ""; rq_Timestamp := "";
     rq_Body := [] |}.
Definition verify_request : Request :=
  {| rq_Method := "GET"; rq_Path := "/v1/verify/" ++ demo_hash_hex; rq_RootID := ""; rq_Signature := "";
     rq_Timestamp := ""; rq_Body := [] |}.
Definition demo_submit : submitRequest := {| sr_Hash := demo_hash_hex; sr_Submitter := "ci"; sr_Label := "build" |}.

Lemma fresh_submit : ∃ w w1 pf, fresh_world = w ∧ en_blocks (w_eng w) = [] ∧
  Enqueue demo_env demo_clock (submit_entry (key32 5) demo_submit (demo_clock (w_step w)))
    {| w_eng := w_eng w; w_bus := w_bus w; w_step := S (w_step w) |} = (w1, Ok tt) ∧
  VRFProve (demo_uid 7) (makeAlpha (nextCycleLocked (w_eng w)) (Smt.Root (en_st (w_eng w)))) = Ok pf.
Proof.
  assert (Hq : match Enqueue demo_env demo_clock (submit_entry (key32 5) demo_submit (demo_clock (w_step fresh_world)))
                       {| w_eng := w_eng fresh_world; w_bus := w_bus fresh_world; w_step := S (w_step fresh_world) |} with
               | (_, Ok _) => true | _ => false end = true) by (vm_compute; reflexivity).
  assert (Hv : match VRFProve (demo_uid 7) (makeAlpha (nextCycleLocked (w_eng fresh_world)) (Smt.Root (en_st (w_eng fresh_world)))) with
               | Ok _ => true | _ => false end = true) by (vm_compute; reflexivity).
  exists fresh_world. destruct (Enqueue _ _ _ _) as [w1 [[]|e|]]; [|discriminate Hq..].
  destruct (VRFProve _ _) as [pf|e|]; [|discriminate Hv..]. exists w1, pf. by split_and!.
Qed.

Lemma rest_submit_anchored_witness : ∃ w resp w1,
  handleSubmit demo_env demo_clock demo_ticks submit_request demo_server w = (w1, Ok resp) ∧ rp_Status resp = 201%Z.
Proof.
  assert (Hs : solo (demo_uid 7) (w_eng fresh_world)) by (by apply NewEngine_solo).
  destruct fresh_submit as (w & w1 & pf & Hw & Hb & Hq & Hv). rewrite Hw in Hs.
  destruct (rest_submit_anchored demo_env demo_clock demo_patience (demo_uid 7) demo_uid_wf toy_root_total
              demo_ticks [w_eng w1] [] submit_request demo_server verify_request demo_server w w1 demo_submit (key32 5) pf Hs)
    as [(resp & Hr & Hst) _].
  - rewrite Hb. constructor.
  - rewrite Hb. reflexivity.
  - reflexivity.
  - vm_compute. reflexivity.
  - exact Hq.
  - exact Hv.
  - reflexivity.
  - vm_compute. reflexivity.
  - exists w, resp, w1. split; [exact Hr|exact Hst].
Defined.
