(* ===== verification/GrpcTheorems.v ===== *)
(** * Properties of the gRPC server and its client *)
From Stdlib Require Import SpecFloat.
From S2P Require Import Prelude Crypto Toy Sha256 Smt SmtSpec SmtRefine SmtProofs SmtTheorems Errors Vrf Identity.
From S2P Require Import IdentityTheorems Chain ToyCbor ChainTheorems Config Rotation Mandates Quorum QuorumTheorems.
From S2P Require Import LightClient LightTheorems Gossip State StateTheorems Engine EngineCycle EngineApi Demo.
From S2P Require Import EngineFrame EngineTheorems CycleTheorems SoloTheorems ApiTheorems SoloChain Rest Grpc.

(** ** Blocks on the wire *)

(** What a reader makes of a wire entry and block: an empty optional field is absent. *)
Definition read_opt (b : bytes) : option bytes := match b with [] => None | _ => Some b end.

Definition read_entry (p : pb_Entry) : ProvenanceEntry :=
  {| e_Hash := pe_Hash p; e_Submitter := pe_Submitter p; e_Timestamp := pe_Timestamp p; e_Label := pe_Label p;
     e_Approver := read_opt (pe_Approver p); e_Reference := read_opt (pe_Reference p);
     e_Signature := pe_Signature p; e_MandateRef := read_opt (pe_MandateRef p) |}.

Definition read_block (p : pb_Block) : Block :=
  {| b_Index := pk_Index p; b_PrevHash := pk_PrevHash p; b_StateRoot := pk_StateRoot p; b_Proposer := pk_Proposer p;
     b_Anchored := Some (read_entry <$> pk_Anchored p); b_Lambda1 := pk_Lambda1 p; b_Timestamp := pk_Timestamp p;
     b_Validators := pk_Validators p;
     b_Quorum := {| TotalValidators := pk_TotalValidators p; RequiredSigs := pk_RequiredSigs p |};
     b_BlockHash := pk_BlockHash p; b_ProtocolVersion := pk_ProtocolVersion p;
     b_PrepareSigsBitmap := read_opt (pk_PrepareSigsBitmap p); b_PrepareSigs := Some (pk_PrepareSigs p);
     b_CommitSig := pk_CommitSig p; b_ExternalAnchors := pk_ExternalAnchors p;
     b_KeyRotationEpoch := pk_KeyRotationEpoch p; b_LegacyAnchor := pk_LegacyAnchor p; b_Metadata := pk_Metadata p |}.

(** Fixed-size optional fields are never empty, and counts are within their type. *)
Record wire_ok (b : Block) : Prop := {
  wo_anchored : ∃ es, b_Anchored b = Some es ∧
    Forall (fun e => e_Approver e ≠ Some [] ∧ e_Reference e ≠ Some [] ∧ e_MandateRef e ≠ Some []) es;
  wo_quorum : u64_ok (TotalValidators (b_Quorum b)) ∧ u64_ok (RequiredSigs (b_Quorum b));
  wo_version : (0 <= b_ProtocolVersion b < 2 ^ 32)%Z;
  wo_bitmap : b_PrepareSigsBitmap b ≠ Some [];
  wo_sigs : is_Some (b_PrepareSigs b);
}.

Lemma read_opt_bytes o : o ≠ Some [] → read_opt (opt_bytes o) = o.
Proof. by destruct o as [[|]|]. Qed.

Lemma nonNegative_id n : u64_ok n → nonNegativeUint64 n = n.
Proof.
  intros Hn. unfold nonNegativeUint64. rewrite (proj2 (Z.ltb_ge _ _)) by apply Hn. by apply u64_small.
Qed.

Lemma read_blockToProto b : wire_ok b → read_block (blockToProto b) = b.
Proof.
  intros [(es & Ha & Hes) [Ht Hr] Hv Hb [sigs Hs]]. destruct b as [? ? ? ? an ? ? ? [tv rq] ? ver bm ps ? ? ? ? ?].
  cbn -[Z.pow] in *. subst an ps. unfold read_block, blockToProto.
  cbn -[Z.modulo Z.pow nonNegativeUint64 read_opt fmap list_fmap].
  rewrite !nonNegative_id by done. rewrite (Z.mod_small ver) by done. f_equal.
  - f_equal. rewrite <- list_fmap_compose. induction Hes as [|e es (H1 & H2 & H3) _ IH]; [done|].
    rewrite fmap_cons, IH. f_equal. destruct e. unfold compose, read_entry, entryToProto. cbn in *.
    by rewrite !read_opt_bytes.
  - by destruct bm as [[|]|].
Qed.

Section server.
Context `{Primitives, Cbor, Ristretto, Gonum, StateCbor} {bus : Type} `{GossipChannel bus}.
Context (env : nat → bus → bus) (clock : nat → Z).
Local Notation World := (World (bus := bus)).

(** C15: The wire form of a block loses nothing: a client that reads the block served for an
    index gets the stored block back, so that its hash and the verdict of the light client
    are those of the stored block. *)
Theorem grpc_block_lossless (e : Engine) i b anchor : GetBlock e i = Some b → wire_ok b →
  let b' := read_block (Grpc_GetBlock e i) in
  b' = b ∧ ComputeBlockHash b' = ComputeBlockHash b ∧ VerifyBlock (Some b') anchor = VerifyBlock (Some b) anchor.
Proof. intros Hb Hok. unfold Grpc_GetBlock. rewrite Hb. cbv zeta. by rewrite read_blockToProto. Qed.

(** ** Streaming *)

Lemma GetBlock_lookup (e : Engine) i : (0 <= i)%Z → GetBlock e i = en_blocks e !! Z.to_nat i.
Proof.
  intros Hi. unfold GetBlock. destruct (Z.leb_spec (Z.of_nat (length (en_blocks e))) i) as [Hl|Hl]; [|done].
  symmetry. apply lookup_ge_None_2. lia.
Qed.

Lemma send_blocks_spec (e : Engine) to : (to < 2 ^ 64)%Z → (Z.of_nat (length (en_blocks e)) < 2 ^ 64)%Z →
  ∀ fuel i, (0 <= i)%Z → (to - i < Z.of_nat fuel)%Z →
  send_blocks fuel e i to = Some (blockToProto <$> take (Z.to_nat (to + 1 - i)) (drop (Z.to_nat i) (en_blocks e))).
Proof.
  intros Hto Hlen fuel. induction fuel as [|fuel IH]; intros i Hi Hf; cbn [send_blocks].
  - rewrite (proj2 (Z.ltb_lt _ _)) by lia. replace (Z.to_nat (to + 1 - i)) with 0 by lia. done.
  - destruct (Z.ltb_spec to i) as [Ht|Ht]; [replace (Z.to_nat (to + 1 - i)) with 0 by lia; done|].
    rewrite GetBlock_lookup by done. replace (Z.to_nat (to + 1 - i)) with (S (Z.to_nat (to + 1 - (i + 1)))) by lia.
    destruct (en_blocks e !! Z.to_nat i) as [b|] eqn:E.
    + pose proof (lookup_lt_Some _ _ _ E) as Hlt. rewrite (drop_S _ _ _ E). cbn [take].
      rewrite u64_small by (unfold u64_ok; lia). rewrite IH by lia. replace (Z.to_nat (i + 1)) with (S (Z.to_nat i)) by lia.
      done.
    + rewrite drop_ge by (by apply lookup_ge_None_1 in E). done.
Qed.

(** [StreamBlocks] ends, and sends the stored blocks of the range in order from its
    start, at most 1024 of them, a range that runs backwards being its first block. *)
Theorem grpc_stream_spec (e : Engine) from to : u64_ok from → u64_ok to →
  (Z.of_nat (length (en_blocks e)) < 2 ^ 64)%Z →
  Grpc_StreamBlocks e from to =
    Some (blockToProto <$> take (Z.to_nat (Z.min maxStreamBlocksPerResponse (Z.max 1 (to + 1 - from))))
                             (drop (Z.to_nat from) (en_blocks e))).
Proof.
  unfold u64_ok. intros Hf Ht Hlen. unfold Grpc_StreamBlocks. set (to1 := if (to <? from)%Z then from else to).
  assert (Hto1 : (from <= to1 < 2 ^ 64)%Z ∧ (to1 + 1 - from = Z.max 1 (to + 1 - from))%Z).
  { unfold to1. destruct (Z.ltb_spec to from); lia. }
  destruct Hto1 as [Hr E1]. rewrite <- E1. rewrite (u64_small (to1 - from)) by (unfold u64_ok; lia).
  unfold maxStreamBlocksPerResponse in *. destruct (Z.leb_spec 1024 (to1 - from)) as [Hb|Hb].
  - rewrite u64_small by (unfold u64_ok; lia). rewrite send_blocks_spec by lia. do 3 f_equal. lia.
  - rewrite send_blocks_spec by lia. do 3 f_equal. lia.
Qed.

(** ** Inclusion proofs *)

Context `{!Blake3Length}.

(** A light client gets exactly the proofs there are. For a node whose tree was filled
    with [kvs], [GetMerkleProof] serves a key exactly when it was written, and the served
    proof verifies against the served root for the value written last, provided no digest
    on the way collides. *)
Theorem grpc_merkle_proof (e : Engine) kvs k : run_ok 256 kvs → run_hash_ok 256 kvs [] →
  BulkInsert (New 256) kvs = Some (en_st e) → length k = 32 →
  match last_write kvs k with
  | Some v => ∃ proof root, GetMerkleProof e k 0 = inr (proof, root) ∧ Smt.Verify (New 256) k v root proof = true
  | None => GetMerkleProof e k 0 = inl Internal
  end.
Proof.
  intros Hrun Hhash Hins Hk.
  destruct (BulkInsert_run _ 256 _ Hhash Hrun (run_msgs_covered 256 _ [])) as (t1 & E1 & Hd & Hrep & _).
  destruct (Prove_complete 256 kvs k Hrun Hhash) as (t2 & E2 & Hp).
  rewrite Hins in E1, E2. injection E1 as <-. injection E2 as <-.
  assert (Hroot : length (GetStateRoot e) = 32).
  { unfold GetStateRoot, Smt.Root. rewrite (rep_root _ _ _ Hrep). unfold root_hash.
    destruct (tinsert_all 256 kvs TEmpty); [apply length_zeros|apply length_thash..]. }
  unfold GetMerkleProof. rewrite Hk. cbn [Nat.eqb negb Z.ltb Z.compare]. rewrite copy_array_id by done. unfold ProveSMT.
  destruct (last_write kvs k) as [v|]; [|by rewrite Hp].
  destruct Hp as (proof & -> & _ & Hv). rewrite Hroot. cbn [Nat.eqb negb]. eexists _, _. split; [reflexivity|].
  unfold Smt.Verify in *. by rewrite Hd in Hv.
Qed.

(** ** Submission *)

Lemma client_signature `{!MldsaCorrect} uid hash submitter ts label : uid_wf uid →
  VerifySignature (u_PublicKey uid) hash submitter ts label (signPayload uid hash submitter ts label) = true ∧
  signPayload uid hash submitter ts label ≠ [].
Proof.
  intros Hu. unfold VerifySignature, CanonicalPayload, signPayload. rewrite (uw_public _ Hu).
  pose proof (VerifyDilithium_Sign (u_SecretKey uid) (hash ++ submitter ++ le_bytes 8 (u64 ts) ++ string_bytes label)) as Hv.
  rewrite Hv by apply Hu. split; [done|]. intros E. rewrite E in Hv.
  specialize (Hv (uw_secret _ Hu)). apply VerifyDilithium_true in Hv as (_ & Hl & _). done.
Qed.

(** An identity known to the server passes the check with what its client signs. *)
Lemma client_authenticated `{!MldsaCorrect} s reg uid hash label ts : uid_wf uid →
  gs_registry s = Some reg → Registry.rg_cache reg !! ID uid = Some (u_PublicKey uid) →
  authenticateSubmit s (client_request (Some uid) hash label ts) = Ok tt.
Proof.
  intros Hu Hreg Hl. unfold authenticateSubmit. rewrite Hreg. cbn [client_request sq_Submitter].
  rewrite copy_array_id by apply Hu. unfold Registry.Lookup. fold (ID uid). rewrite Hl. cbn [snd sq_Signature sq_Hash sq_Timestamp sq_Label].
  destruct (client_signature uid hash (u_RootID uid) ts label Hu) as [Hv Hne].
  rewrite Hv. by destruct (signPayload _ _ _ _ _).
Qed.

(** Client and server agree. On a server that started with identity [uid], a submission
    made by a client of that identity always authenticates, whatever the hash, the label
    and the time, and is accepted exactly when the engine admits the entry, which is then
    the last one in its queue. *)
Theorem grpc_client_submits `{!MldsaCorrect} nodeID uid opts s e0 hash label ts (w : World) : uid_wf uid →
  Grpc_NewServer nodeID uid opts = Ok (s, e0) →
  let req := client_request (Some uid) hash label ts in
  ∃ w' resp, SubmitHash env clock s req w = (w', Ok resp) ∧ sp_TxId resp = hash ∧
    (sp_Accepted resp = true ↔ en_pending (w_eng w') = en_pending (w_eng w) ++ [request_entry req]) ∧
    (sp_Accepted resp = false → w_bus w' = w_bus w ∧ ∃ er, Enqueue env clock (request_entry req) w = (w', Err er)).
Proof.
  intros Hu Hnew req. pose proof (mldsa_public_length (u_SecretKey uid) (uw_secret _ Hu)) as Hpk.
  assert (Hreg : ∃ reg, gs_registry s = Some reg ∧ Registry.rg_cache reg !! ID uid = Some (u_PublicKey uid)).
  { unfold Grpc_NewServer in Hnew. destruct (apply_grpc_options _ _) as [s1|er|]; [|done..].
    repeat (case_match; [done|]). injection Hnew as <- _. eexists. split; [reflexivity|].
    unfold Registry.Register. rewrite (uw_public _ Hu), Hpk. cbn. by rewrite lookup_insert_eq. }
  destruct Hreg as (reg & Hreg & Hl). unfold SubmitHash.
  pose proof (client_authenticated s reg uid hash label ts Hu Hreg Hl) as Ha. fold req in Ha. rewrite Ha.
  pose proof (Enqueue_cases env clock (request_entry req) w) as Hq.
  destruct (Enqueue env clock (request_entry req) w) as [w' [[]|er|]]; [| |by destruct Hq as (_ & _ & [])].
  - destruct Hq as (_ & _ & _ & _ & _ & _ & _ & _ & Hpend & _). eexists _, _. split; [reflexivity|].
    split; [done|]. split; [split; done|done].
  - destruct Hq as (_ & _ & Hpend & Hbus & _). eexists _, _. split; [reflexivity|]. split; [done|]. split.
    + split; [done|]. rewrite Hpend. intros E. apply (f_equal length) in E. rewrite length_app in E. simpl in E. lia.
    + intros _. split; [done|by eexists].
Qed.

(** Approver and reference are not signed: anyone who relays a request may set them. *)
Lemma unsigned_fields s req approver reference : authenticateSubmit s req = Ok tt →
  authenticateSubmit s {| sq_Hash := sq_Hash req; sq_Submitter := sq_Submitter req; sq_Timestamp := sq_Timestamp req;
                          sq_Label := sq_Label req; sq_Approver := approver; sq_Reference := reference;
                          sq_Signature := sq_Signature req |} = Ok tt.
Proof. done. Qed.

(** [WithKey] cannot be used: it runs before the server has a registry. *)
Lemma with_key_panics nodeID uid key opts1 opts2 : (∀ o, o ∈ opts1 → ∀ k, o ≠ WithKey k) →
  Grpc_NewServer nodeID uid (opts1 ++ WithKey key :: opts2) = Panic.
Proof.
  intros Hno. unfold Grpc_NewServer.
  assert (Hgen : ∀ s, gs_registry s = None → apply_grpc_options s (opts1 ++ WithKey key :: opts2) = Panic).
  { induction opts1 as [|o opts1 IH]; intros s Hs; cbn [app apply_grpc_options].
    - cbn [apply_grpc_option]. by rewrite Hs.
    - assert (Ho : ∀ k, o ≠ WithKey k) by (apply Hno; by left).
      destruct o as [ps|g|a|k|d]; cbn [apply_grpc_option];
        [..|by destruct (Ho k)|destruct (0 <? d)%Z]; apply IH; try done; intros o' Ho'; apply Hno; by right. }
  by rewrite Hgen.
Qed.
End server.

(** ** Concrete instance *)

Definition plain_block (i : Z) : Block :=
  MkBlock i [] [] [] (Some [demo_submission 1]) fzero 0 [] (MkQuorumConfig 1 1) [] 2 None (Some []) [] [] 0 [] ∅.

Lemma plain_block_ok i : wire_ok (plain_block i).
Proof.
  split; cbn.
  - exists [demo_submission 1]. split; [reflexivity|]. repeat constructor; discriminate.
  - split; split; (reflexivity || discriminate).
  - split; [discriminate|reflexivity].
  - discriminate.
  - by eexists.
Qed.

(** A node with two blocks. *)
Definition two_blocks : Engine := with_blocks [plain_block 0; plain_block 1] (NewEngine demo_node second).

Definition demo_anchor : TrustAnchor := client_anchor (demo_uid 7) [].

Lemma grpc_block_lossless_witness : read_block (Grpc_GetBlock two_blocks 1) = plain_block 1.
Proof.
  apply (grpc_block_lossless two_blocks 1 (plain_block 1) demo_anchor); [reflexivity|apply plain_block_ok].
Defined.

Lemma grpc_stream_spec_witness : Grpc_StreamBlocks two_blocks 1 0 = Some [blockToProto (plain_block 1)].
Proof.
  rewrite (grpc_stream_spec two_blocks 1 0); [reflexivity|split; (reflexivity || discriminate)..|reflexivity].
Defined.

Definition one_entry : list (bytes * bytes) := [(key32 1, key32 10)].

Lemma one_entry_ok : run_ok 256 one_entry ∧ run_hash_ok 256 one_entry [] ∧
  ∃ t, BulkInsert (New 256) one_entry = Some t.
Proof.
  split_and!; [apply run_okb_ok; vm_compute; reflexivity|apply run_hash_okb_ok; vm_compute; reflexivity|].
  destruct (BulkInsert (New 256) one_entry) as [t|] eqn:E; [by eexists|]. vm_compute in E. discriminate E.
Qed.

Lemma grpc_merkle_proof_witness : ∃ e proof root,
  GetMerkleProof e (key32 1) 0 = inr (proof, root) ∧ Smt.Verify (New 256) (key32 1) (key32 10) root proof = true.
Proof.
  destruct one_entry_ok as (Hrun & Hhash & t & Ht).
  exists (with_st t (NewEngine demo_node second)).
  apply (grpc_merkle_proof (with_st t (NewEngine demo_node second)) one_entry (key32 1) Hrun Hhash); [exact Ht|reflexivity].
Defined.

Definition demo_server_opts : list GrpcOption := [GrpcAllowSimulated true; WithCycleInterval second].

Lemma demo_grpc : ∃ s e, Grpc_NewServer "n1" (demo_uid 7) demo_server_opts = Ok (s, e).
Proof. eexists _, _. reflexivity. Qed.

Lemma grpc_client_submits_witness : ∃ s w' resp,
  SubmitHash demo_env demo_clock s (client_request (Some (demo_uid 7)) (key32 9) "build" 5) fresh_world = (w', Ok resp) ∧
  sp_TxId resp = key32 9.
Proof.
  destruct demo_grpc as (s & e & Hnew). exists s.
  destruct (grpc_client_submits demo_env demo_clock "n1" (demo_uid 7) demo_server_opts s e (key32 9) "build" 5 fresh_world
              demo_uid_wf Hnew) as (w' & resp & Hr & Htx & _).
  exists w', resp. split; [exact Hr|exact Htx].
Defined.
