(* ===== verification/Anchor.v ===== *)
(** * Anchor publishers (pkg/anchor/anchor.go)

    Publication of committed blocks to public storage. The operating system's files are the
    class [FileSystem]: an operation can fail, and [FileSystemLaws] says what a success and
    a failure leave behind. The CID builder is [CidBuilder]. Path handling (path/filepath on
    Unix) is modelled. *)
From Stdlib Require Import Ascii.
From S2P Require Import Prelude Crypto Errors Chain BlockCodec State Rest.
Local Open Scope string_scope.

(** ** path/filepath *)

(** One component of the path, over the reversed stack of those kept. *)
Definition clean_step (rooted : bool) (stack : list string) (seg : string) : list string :=
  if String.eqb seg "" || String.eqb seg "." then stack
  else if String.eqb seg ".." then
    match stack with
    | [] => if rooted then [] else [".."]
    | top :: rest => if String.eqb top ".." then ".." :: stack else rest
    end
  else seg :: stack.

(** [filepath.Clean]. *)
Definition Clean (path : string) : string :=
  let rooted := String.prefix "/" path in
  match foldl (clean_step rooted) [] (split_at "/" path) with
  | [] => if rooted then "/" else "."
  | stack => (if rooted then "/" else "") ++ String.concat "/" (rev stack)
  end.

(** [filepath.Join] of two elements. *)
Definition Join (dir file : string) : string :=
  if String.eqb dir "" then (if String.eqb file "" then "" else Clean file)
  else Clean (dir ++ "/" ++ file).

(** ** The operating system and the CID library *)

Class FileSystem := {
  fs : Type;
  (** [os.Getwd]. *)
  getwd : option string;
  fs_read : fs → string → option bytes;
  (** [os.MkdirAll], [os.WriteFile] and [os.Rename]: the files after it, and whether it
      succeeded. *)
  MkdirAll : string → fs → fs * bool;
  WriteFile : string → bytes → fs → fs * bool;
  Rename : string → string → fs → fs * bool;
}.

(** The working directory is absolute. A write touches its file only, whose content a failed write leaves open; a rename moves
    the content or does nothing; a new directory changes no file. *)
Class FileSystemLaws `{FileSystem} : Prop := {
  getwd_absolute wd : getwd = Some wd → String.prefix "/" wd = true;
  MkdirAll_read p d q : fs_read (fst (MkdirAll p d)) q = fs_read d q;
  WriteFile_read p data d : snd (WriteFile p data d) = true → fs_read (fst (WriteFile p data d)) p = Some data;
  WriteFile_other p data d q : q ≠ p → fs_read (fst (WriteFile p data d)) q = fs_read d q;
  Rename_read p q d : p ≠ q → snd (Rename p q d) = true → fs_read (fst (Rename p q d)) q = fs_read d p;
  Rename_other p q d r : r ≠ p → r ≠ q → fs_read (fst (Rename p q d)) r = fs_read d r;
  Rename_failed p q d r : snd (Rename p q d) = false → fs_read (fst (Rename p q d)) r = fs_read d r;
}.

(** [cid.V1Builder] with the raw codec and SHA2-256: the printed CID of a digest. *)
Class CidBuilder := { cid_sum : bytes → option string }.

(** [filepath.Abs]. *)
Definition Abs `{FileSystem} (path : string) : option string :=
  if String.prefix "/" path then Some (Clean path)
  else match getwd with Some wd => Some (Join wd path) | None => None end.

(** ** Configuration *)

Record AnchorPublisherConfig := MkAnchorConfig {
  ac_Mode : string;
  ac_DesignatedPublishers : list string;
  ac_MinRedundancy : Z;
  ac_FilesystemPath : string;
  ac_IPFSEnabled : bool;
  ac_IPFSGateway : string;
  ac_IPFSHashFunc : string;
  ac_S3Enabled : bool;
}.

Definition ModeAll : string := "all".

Definition DefaultAnchorPublisherConfig : AnchorPublisherConfig :=
  {| ac_Mode := ModeAll; ac_DesignatedPublishers := []; ac_MinRedundancy := 1; ac_FilesystemPath := "./anchors";
     ac_IPFSEnabled := false; ac_IPFSGateway := ""; ac_IPFSHashFunc := "blake3-256"; ac_S3Enabled := false |}.

(** The implementations of the interface [BlockPublisher]. *)
Inductive BlockPublisher :=
| FilesystemPublisher (basePath : string)
| IPFSPublisher (gateway : string) (hashFunc : Z)
| S3Publisher (bucket region endpoint : string).

Record AnchorPublisher := MkAnchorPublisher {
  ap_config : AnchorPublisherConfig;
  ap_publishers : list BlockPublisher;
  ap_closed : bool;
}.

Section anchor.
Context `{Primitives, BlockCbor, FileSystem, CidBuilder}.

(** ** Backends *)

Definition NewFilesystemPublisher (basePath : string) (d : fs) : fs * outcome gerror BlockPublisher :=
  match Abs basePath with
  | None => (d, Err (ErrText "failed to resolve anchor path: %w"))
  | Some absPath =>
      let '(d', ok) := MkdirAll absPath d in
      (d', if ok then Ok (FilesystemPublisher absPath) else Err (ErrText "failed to create anchor directory: %w"))
  end.

Definition block_file (index : Z) : string := "block_" ++ decimal index ++ ".cbor".

(** [FilesystemPublisher.Publish]. *)
Definition publish_file (basePath : string) (block : Block) (d : fs) : fs * outcome gerror (list string) :=
  match MarshalCBOR block with
  | Ok data =>
      let path := Join basePath (block_file (b_Index block)) in
      let tmpPath := path ++ ".tmp" in
      let '(d1, ok) := WriteFile tmpPath data d in
      if negb ok then (d1, Err (ErrText "failed to write block file: %w"))
      else
        let '(d2, ok) := Rename tmpPath path d1 in
        if negb ok then (d2, Err (ErrText "failed to rename block file: %w"))
        else (d2, Ok ["file://" ++ default "" (Abs path)])
  | _ => (d, Err (ErrText "failed to marshal block: %w"))
  end.

Definition SHA2_256 : Z := 18.

Definition NewIPFSPublisher (gateway hashFunc : string) : outcome gerror BlockPublisher :=
  if String.eqb hashFunc "blake3-256" then Ok (IPFSPublisher gateway 45632)
  else if String.eqb hashFunc "sha2-256" then Ok (IPFSPublisher gateway SHA2_256)
  else Err (ErrText "unsupported IPFS hash function: %s").

Definition ErrCid : gerror := ErrText "failed to create CID: %w".

(** [IPFSPublisher.Publish]: neither the gateway nor the hash function is used. *)
Definition publish_ipfs (block : Block) : outcome gerror (list string) := (
  data <-! MarshalCBOR block ;;
  match cid_sum (blake3 data) with
  | None => Err ErrCid
  | Some c => Ok ["ipfs://" ++ c]
  end)%go.

Definition ComputeAnchorCID (block : Block) : outcome gerror string := (
  data <-! MarshalCBOR block ;;
  match cid_sum (blake3 data) with None => Err ErrCid | Some c => Ok c end)%go.

Definition VerifyAnchorCID (block : Block) (expectedCID : string) : outcome gerror bool := (
  cid <-! ComputeAnchorCID block ;; Ok (String.eqb cid expectedCID))%go.

Definition NewS3Publisher (bucket region endpoint : string) : outcome gerror BlockPublisher :=
  Ok (S3Publisher bucket region endpoint).

(** The method [Publish] of the interface. *)
Definition publish_one (p : BlockPublisher) (block : Block) (d : fs) : fs * outcome gerror (list string) :=
  match p with
  | FilesystemPublisher basePath => publish_file basePath block d
  | IPFSPublisher _ _ => (d, publish_ipfs block)
  | S3Publisher _ _ _ => (d, Err (ErrText "S3 publisher not yet implemented"))
  end.

(** The method [Close] of the interface does nothing in each of them. *)
Definition close_one (p : BlockPublisher) : outcome gerror unit := Ok tt.

(** ** The publisher *)

Definition ErrPublisherNotConfigured : gerror := ErrText "anchor publisher not configured".

Definition NewAnchorPublisher (cfg : AnchorPublisherConfig) (d : fs) : fs * outcome gerror AnchorPublisher :=
  let '(d1, r) :=
    if String.eqb (ac_FilesystemPath cfg) "" then (d, Ok [])
    else let '(d', r) := NewFilesystemPublisher (ac_FilesystemPath cfg) d in
         (d', match r with Ok p => Ok [p] | _ => Err (ErrText "failed to create filesystem publisher: %w") end) in
  (d1,
   publishers <-! r ;;
   let publishers :=
     if ac_IPFSEnabled cfg then
       match NewIPFSPublisher (ac_IPFSGateway cfg) (ac_IPFSHashFunc cfg) with
       | Ok p => publishers ++ [p]
       | _ => publishers
       end
     else publishers in
   fail_if (length publishers =? 0)%nat ErrPublisherNotConfigured ;;!
   Ok {| ap_config := cfg; ap_publishers := publishers; ap_closed := false |})%go%list.

(** One goroutine: publish, then append the URIs under the mutex and report the error. *)
Definition goroutine (block : Block) (s : fs * list string * list gerror) (p : BlockPublisher) :
    fs * list string * list gerror :=
  let '(d, anchors, errs) := s in
  let '(d', r) := publish_one p block d in
  match r with
  | Ok uris => (d', (anchors ++ uris)%list, errs)
  | Err er => (d', anchors, (errs ++ [er])%list)
  | Panic => (d', anchors, errs)
  end.

Definition ErrRedundancy : gerror := ErrText "anchor redundancy not met: got %d, need %d; errors: %v".

(** [AnchorPublisher.Publish]. [order] is the order in which the goroutines, one per
    publisher, complete: a permutation of [ap_publishers]. Go returns the anchors
    together with the error. *)
Definition AnchorPublisher_Publish (order : list BlockPublisher) (ap : AnchorPublisher) (block : Block) (d : fs) :
    fs * (list string * option gerror) :=
  if ap_closed ap then (d, ([], Some (ErrText "anchor publisher closed")))
  else
    let '(d', anchors, errs) := foldl (goroutine block) (d, [], []) order in
    (d', (anchors, if (Z.of_nat (length anchors) <? ac_MinRedundancy (ap_config ap))%Z then Some ErrRedundancy else None)).

Definition AnchorPublisher_Close (ap : AnchorPublisher) : AnchorPublisher * outcome gerror unit :=
  if ap_closed ap then (ap, Ok tt)
  else
    ({| ap_config := ap_config ap; ap_publishers := ap_publishers ap; ap_closed := true |},
     fail_if (existsb (fun p => match close_one p with Ok _ => false | _ => true end) (ap_publishers ap))
       (ErrText "errors closing publishers: %v")).

(** ** Publication of a committed block by the engine *)

Definition set_ExternalAnchors (anchors : list string) (b : Block) : Block :=
  {| b_Index := b_Index b; b_PrevHash := b_PrevHash b; b_StateRoot := b_StateRoot b; b_Proposer := b_Proposer b;
     b_Anchored := b_Anchored b; b_Lambda1 := b_Lambda1 b; b_Timestamp := b_Timestamp b;
     b_Validators := b_Validators b; b_Quorum := b_Quorum b; b_BlockHash := b_BlockHash b;
     b_ProtocolVersion := b_ProtocolVersion b; b_PrepareSigsBitmap := b_PrepareSigsBitmap b;
     b_PrepareSigs := b_PrepareSigs b; b_CommitSig := b_CommitSig b; b_ExternalAnchors := anchors;
     b_KeyRotationEpoch := b_KeyRotationEpoch b; b_LegacyAnchor := b_LegacyAnchor b; b_Metadata := b_Metadata b |}.

(** The publisher of an engine; a failure to build it is logged. *)
Definition engine_publisher (d : fs) : fs * option AnchorPublisher :=
  let '(d', r) := NewAnchorPublisher DefaultAnchorPublisherConfig d in
  (d', match r with Ok ap => Some ap | _ => None end).

(** The end of a cycle: the files, and [finalBlock] after it. The chain already holds a copy
    of [finalBlock], which this does not touch. *)
Definition publish_final (order : list BlockPublisher) (ap : option AnchorPublisher) (finalBlock : Block) (d : fs) :
    fs * Block :=
  match ap with
  | None => (d, finalBlock)
  | Some ap =>
      let '(d', (anchors, err)) := AnchorPublisher_Publish order ap finalBlock d in
      (d', match err with Some _ => finalBlock | None => set_ExternalAnchors anchors finalBlock end)
  end.
End anchor.
