(* ===== verification/ToyDisk.v ===== *)
(** * A concrete disk

    Files as a finite map, under the working directory [/srv]; only the rename of a missing
    file fails. A CID is the hexadecimal form of the digest. *)
From S2P Require Import Prelude Crypto Anchor.

#[export] Instance toy_disk : FileSystem := {|
  fs := gmap string bytes;
  getwd := Some "/srv";
  fs_read d p := d !! p;
  MkdirAll _ d := (d, true);
  WriteFile p data d := (<[p := data]> d, true);
  Rename p q d :=
    match d !! p with Some data => (<[q := data]> (delete p d), true) | None => (d, false) end;
|}.

#[export] Instance toy_disk_laws : FileSystemLaws.
Proof.
  split; cbn.
  - by intros wd [= <-].
  - done.
  - intros p data d _. apply lookup_insert_eq.
  - intros p data d q Hq. by apply lookup_insert_ne.
  - intros p q d Hpq. destruct (d !! p) as [data|] eqn:E; [|done]. intros _. apply lookup_insert_eq.
  - intros p q d r Hp Hq. destruct (d !! p); cbn; [|done]. by rewrite lookup_insert_ne, lookup_delete_ne.
  - intros p q d r. by destruct (d !! p).
Qed.

#[export] Instance toy_cid : CidBuilder := {| cid_sum digest := Some (hex_encode digest) |}.
