(* ===== verification/AnchorTheorems.v ===== *)
(** * Theorems about anchor publishers

    Path lemmas; the directory of published blocks as a map from indices to blocks, which a
    publication extends or leaves alone; redundancy and resolution of the returned URIs. *)
From Stdlib Require Import Ascii.
From S2P Require Import Prelude Crypto Toy Errors Chain ToyCbor ChainTheorems BlockCodec ToyBlock State Rest Anchor.
From S2P Require Import ToyDisk.
Local Open Scope string_scope.

(** ** Strings *)

Lemma string_app_cons x (a b : string) : String x a ++ b = String x (a ++ b).
Proof. reflexivity. Qed.

Lemma string_nil_app (b : string) : "" ++ b = b.
Proof. reflexivity. Qed.

Lemma string_app_assoc (a b c : string) : (a ++ b) ++ c = a ++ (b ++ c).
Proof. induction a as [|x a IH]; [done|]. by rewrite !string_app_cons, IH. Qed.

(** The character does not occur. *)
Fixpoint free (c : ascii) (s : string) : bool :=
  match s with
  | EmptyString => true
  | String a s' => negb (Ascii.eqb a c) && free c s'
  end.

Lemma free_app c a b : free c (a ++ b) = free c a && free c b.
Proof. induction a as [|x a IH]; [done|]. rewrite string_app_cons. cbn. by rewrite IH, andb_assoc. Qed.

Lemma split_free c s : free c s = true → split_at c s = [s].
Proof.
  induction s as [|a s IH]; [done|]. cbn. intros [Ha%negb_true_iff Hs]%andb_true_iff. by rewrite Ha, IH.
Qed.

Lemma split_nonempty c s : split_at c s ≠ [].
Proof. destruct s; cbn; [done|]. destruct (Ascii.eqb _ _); [done|]. by destruct (split_at c s). Qed.

Lemma split_app c a b : split_at c (a ++ String c b) = (split_at c a ++ split_at c b)%list.
Proof.
  induction a as [|x a IH]; [rewrite string_nil_app; cbn; by rewrite Ascii.eqb_refl|].
  rewrite string_app_cons. cbn.
  destruct (Ascii.eqb x c); [by rewrite IH|]. rewrite IH.
  pose proof (split_nonempty c a). by destruct (split_at c a).
Qed.

Lemma split_segments_free c s : Forall (fun x => free c x = true) (split_at c s).
Proof.
  induction s as [|a s IH]; cbn; [by repeat constructor|].
  destruct (Ascii.eqb a c) eqn:E; [by constructor|].
  destruct (split_at c s) as [|x l]; [repeat constructor; cbn; by rewrite E|].
  apply Forall_cons in IH as [Hx Hl]. constructor; [|done]. cbn. by rewrite E.
Qed.

Lemma concat_cons c x l : l ≠ [] → String.concat c (x :: l) = x ++ c ++ String.concat c l.
Proof. by destruct l. Qed.

Lemma concat_snoc c x l : l ≠ [] → String.concat c (l ++ [x])%list = String.concat c l ++ c ++ x.
Proof.
  induction l as [|y l IH]; [done|]. intros _. destruct (decide (l = [])) as [->|Hl]; [done|].
  rewrite <- app_comm_cons, !concat_cons, IH by (try done; by destruct l).
  by rewrite !string_app_assoc.
Qed.

Lemma split_concat l : l ≠ [] → Forall (fun x => free "/" x = true) l →
  split_at "/" (String.concat "/" l) = l.
Proof.
  induction l as [|x l IH]; [done|]. intros _ [Hx Hl]%Forall_cons.
  destruct (decide (l = [])) as [->|Hne]; [by apply split_free|].
  rewrite concat_cons, (string_app_cons "/" ""), string_nil_app by done. rewrite split_app, IH by done. by rewrite split_free.
Qed.

(** ** Decimal numerals *)

Lemma digit_value_of n : (0 ≤ n < 10)%Z → digit_value (ascii_of_nat (Z.to_nat (48 + n))) = Some n.
Proof.
  intros Hn. unfold digit_value. rewrite Ascii.nat_ascii_embedding by lia.
  rewrite Z2Nat.id by lia.
  replace ((48 <=? 48 + n)%Z && (48 + n <=? 57)%Z) with true
    by (symmetry; apply andb_true_iff; split; apply Z.leb_le; lia).
  f_equal. lia.
Qed.

Lemma decimal_loop_value fuel : ∀ n acc, (0 ≤ n < 2 ^ Z.of_nat fuel)%Z → fuel ≠ O →
  digits_value (decimal_loop fuel n acc) 0 = digits_value acc n.
Proof.
  induction fuel as [|fuel IH]; [done|]. intros n acc Hn _. cbn [decimal_loop].
  pose proof (Z.mod_pos_bound n 10). pose proof (Z.div_mod n 10).
  destruct (Z.ltb_spec n 10) as [Hlt|Hge].
  - cbn [digits_value]. rewrite digit_value_of, Z.mod_small by lia. f_equal.
  - destruct (decide (fuel = O)) as [->|Hf]; [cbn in Hn; lia|].
    rewrite Nat2Z.inj_succ, Z.pow_succ_r in Hn by lia.
    rewrite IH by (done || (split; [apply Z.div_pos; lia|apply Z.div_lt_upper_bound; lia])).
    cbn [digits_value]. rewrite digit_value_of by lia. f_equal. lia.
Qed.

Lemma decimal_value n : (0 ≤ n)%Z → digits_value (decimal n) 0 = Some n.
Proof.
  intros Hn. unfold decimal. rewrite decimal_loop_value; [done| |done]. split; [done|].
  rewrite Nat2Z.inj_succ, Z2Nat.id by apply Z.log2_nonneg.
  destruct (Z.eq_dec n 0%Z) as [->|Hz]; [done|]. apply Z.log2_spec. lia.
Qed.

Lemma digits_free s : ∀ a v, digits_value s a = Some v → free "/" s = true.
Proof.
  induction s as [|x s IH]; [done|]. intros a v. cbn [digits_value free].
  destruct (digit_value x) as [d|] eqn:E; [|done]. intros Hv. apply andb_true_iff. split; [|by eapply IH].
  apply negb_true_iff. destruct (Ascii.eqb_spec x "/") as [->|]; [|done]. by vm_compute in E.
Qed.

Lemma decimal_inj m n : (0 ≤ m)%Z → (0 ≤ n)%Z → decimal m = decimal n → m = n.
Proof.
  intros Hm Hn Heq. apply (f_equal (fun s => digits_value s 0)) in Heq. rewrite !decimal_value in Heq by done.
  congruence.
Qed.

(** ** Paths *)

(** What a directory contributes to the path of a file in it. *)
Definition dir_prefix (dir : string) : string :=
  if String.eqb dir "" then ""
  else
    let rooted := String.prefix "/" dir in
    match foldl (clean_step rooted) [] (split_at "/" dir) with
    | [] => if rooted then "/" else ""
    | stack => (if rooted then "/" else "") ++ String.concat "/" (rev stack) ++ "/"
    end.

(** The name of a file: no separator, and not one of the names that [Clean] interprets. *)
Definition plain (f : string) : Prop :=
  free "/" f = true ∧ f ≠ "" ∧ f ≠ "." ∧ f ≠ "..".

Lemma clean_step_plain rooted stack f : plain f → clean_step rooted stack f = f :: stack.
Proof.
  intros (_ & H1 & H2 & H3). unfold clean_step.
  apply String.eqb_neq in H1, H2, H3. by rewrite H1, H2, H3.
Qed.

Lemma prefix_root_app dir rest : dir ≠ "" → String.prefix "/" (dir ++ rest) = String.prefix "/" dir.
Proof. destruct dir as [|a dir]; [done|]. intros _. rewrite string_app_cons. cbn. by destruct (ascii_dec "/" a), dir, rest. Qed.

Lemma prefix_free f : free "/" f = true → String.prefix "/" f = false.
Proof.
  destruct f as [|a f]; [done|]. cbn [free String.prefix]. intros [Ha%negb_true_iff _]%andb_true_iff.
  destruct (ascii_dec "/" a) as [<-|]; [discriminate Ha|done].
Qed.

Lemma Join_plain dir f : plain f → Join dir f = dir_prefix dir ++ f.
Proof.
  intros Hf. pose proof Hf as (Hfree & Hne & _). unfold Join, dir_prefix.
  destruct (String.eqb_spec dir "") as [->|Hd].
  - apply String.eqb_neq in Hne. rewrite Hne. unfold Clean. rewrite prefix_free, split_free by done.
    cbn [foldl]. rewrite clean_step_plain by done. reflexivity.
  - unfold Clean. rewrite prefix_root_app by done.
    change ("/" ++ f) with (String "/" f). rewrite split_app, foldl_app, (split_free _ f) by done.
    cbn [foldl]. rewrite clean_step_plain by done.
    destruct (foldl _ _ _) as [|x st]; [by destruct (String.prefix "/" dir)|].
    change (rev (f :: x :: st)) with (rev (x :: st) ++ [f])%list.
    rewrite concat_snoc by (cbn; by destruct (rev st)).
    by rewrite !string_app_assoc.
Qed.

Lemma block_file_plain i : (0 ≤ i)%Z → plain (block_file i).
Proof.
  intros Hi. unfold plain, block_file. split_and!; [|done..].
  rewrite !free_app, (digits_free (decimal i) 0 i) by (by apply decimal_value). done.
Qed.

Definition block_path (dir : string) (i : Z) : string := Join dir (block_file i).

Lemma string_app_inj_r (s a b : string) : a ++ s = b ++ s → a = b.
Proof.
  intros Heq. apply (f_equal string_bytes) in Heq. apply string_bytes_inj. revert Heq.
  assert (Happ : ∀ x, string_bytes (x ++ s) = (string_bytes x ++ string_bytes s)%list).
  { intros x. induction x as [|c x IH]; [done|]. rewrite string_app_cons. cbn. by rewrite IH. }
  rewrite !Happ. apply app_inv_tail.
Qed.

Lemma block_path_inj dir i j : (0 ≤ i)%Z → (0 ≤ j)%Z → block_path dir i = block_path dir j → i = j.
Proof.
  intros Hi Hj. unfold block_path. rewrite !Join_plain by (by apply block_file_plain).
  intros Heq%(inj _). unfold block_file in Heq. apply (inj _) in Heq. apply string_app_inj_r in Heq.
  by apply decimal_inj.
Qed.

Fixpoint last_char (s : string) : option ascii :=
  match s with
  | EmptyString => None
  | String a EmptyString => Some a
  | String _ s' => last_char s'
  end.

Lemma last_char_app a b : b ≠ "" → last_char (a ++ b) = last_char b.
Proof.
  intros Hb. induction a as [|x a IH]; [done|]. rewrite string_app_cons, <- IH.
  destruct a as [|y a]; [by destruct b|done].
Qed.

Lemma tmp_path_fresh dir i j : (0 ≤ j)%Z → block_path dir i ++ ".tmp" ≠ block_path dir j.
Proof.
  intros Hj Heq. apply (f_equal last_char) in Heq. revert Heq. unfold block_path at 2.
  rewrite (Join_plain dir) by (by apply block_file_plain). unfold block_file.
  rewrite <- !string_app_assoc, !last_char_app by done. discriminate.
Qed.

(** ** Absolute paths *)

(** The components that [Clean] keeps of a rooted path. *)
Lemma clean_stack_plain segs : ∀ stack, Forall (fun x => free "/" x = true) segs → Forall plain stack →
  Forall plain (foldl (clean_step true) stack segs).
Proof.
  induction segs as [|x segs IH]; intros stack Hs Hst; [done|]. apply Forall_cons in Hs as [Hx Hs].
  cbn [foldl]. apply IH; [done|]. unfold clean_step.
  destruct (String.eqb_spec x ""), (String.eqb_spec x "."); cbn [orb]; [done..|].
  destruct (String.eqb_spec x ".."); [|by constructor].
  destruct stack as [|t st]; [done|]. apply Forall_cons in Hst as [(? & ? & ? & Ht) Hst].
  by destruct (String.eqb_spec t "..").
Qed.

Lemma foldl_clean_plain segs : ∀ stack, Forall plain segs → foldl (clean_step true) stack segs = (rev segs ++ stack)%list.
Proof.
  induction segs as [|x segs IH]; intros stack Hs; [done|]. apply Forall_cons in Hs as [Hx Hs].
  cbn [foldl rev]. by rewrite clean_step_plain, IH, <- app_assoc.
Qed.

(** A rooted path that is already clean. *)
Definition clean_rooted (p : string) : Prop :=
  p = "/" ∨ ∃ segs, segs ≠ [] ∧ Forall plain segs ∧ p = "/" ++ String.concat "/" segs.

Lemma clean_rooted_fixed p : clean_rooted p → Clean p = p.
Proof.
  intros [->|(segs & Hne & Hpl & ->)]; [reflexivity|]. unfold Clean.
  change ("/" ++ String.concat "/" segs) with ("" ++ String "/" (String.concat "/" segs)).
  rewrite split_app, split_concat; [|done|by eapply Forall_impl; [exact Hpl|intros ? [? _]]].
  assert (Hr : ∀ x, String.prefix "/" ("" ++ String "/" x) = true) by (intros x; by destruct x). rewrite Hr.
  change (split_at "/" "" ++ segs)%list with ("" :: segs). cbn [foldl].
  change (clean_step true [] "") with (@nil string). rewrite foldl_clean_plain, app_nil_r by done.
  destruct (rev segs) as [|x l] eqn:E; [apply (f_equal (@rev string)) in E; by rewrite rev_involutive in E|].
  rewrite <- E, rev_involutive. reflexivity.
Qed.

Lemma Clean_rooted p : String.prefix "/" p = true → clean_rooted (Clean p).
Proof.
  intros Hp. unfold Clean, clean_rooted. rewrite Hp.
  pose proof (clean_stack_plain (split_at "/" p) [] (split_segments_free _ _) (Forall_nil_2 _)) as Hpl.
  destruct (foldl _ _ _) as [|x st]; [by left|]. right. exists (rev (x :: st)). split_and!; [|by apply Forall_rev|done].
  cbn. by destruct (rev st).
Qed.

Lemma clean_rooted_prefix p : clean_rooted p → String.prefix "/" p = true.
Proof. intros [->|(segs & _ & _ & ->)]; [done|]. rewrite string_app_cons, string_nil_app. by destruct (String.concat "/" segs). Qed.

(** ** Publication to files *)

Section files.
Context `{Primitives, BlockCbor, !BlockCborLaws, FileSystem, !FileSystemLaws, CidBuilder}.

Lemma Abs_block_path dir i : clean_rooted dir → Abs (block_path dir i) = Some (block_path dir i).
Proof.
  intros Hd. pose proof (clean_rooted_prefix _ Hd) as Hp.
  assert (Hne : dir ≠ "") by (by intros ->).
  assert (Hc : clean_rooted (block_path dir i)).
  { unfold block_path, Join. apply String.eqb_neq in Hne as ->. apply Clean_rooted.
    by rewrite prefix_root_app by (by intros ->). }
  unfold Abs. by rewrite (clean_rooted_prefix _ Hc), clean_rooted_fixed.
Qed.

(** What one publication leaves behind: the new file, or nothing but the temporary file. *)
Lemma publish_file_spec dir block d d' r : (0 ≤ b_Index block)%Z → publish_file dir block d = (d', r) →
  let path := block_path dir (b_Index block) in
  (∀ q, q ≠ path → q ≠ path ++ ".tmp" → fs_read d' q = fs_read d q) ∧
  ((∃ data, r = Ok ["file://" ++ default "" (Abs path)] ∧ MarshalCBOR block = Ok data ∧ fs_read d' path = Some data) ∨
   (∃ e, r = Err e) ∧ fs_read d' path = fs_read d path).
Proof.
  intros Hi. unfold publish_file. fold (block_path dir (b_Index block)).
  assert (Hne : block_path dir (b_Index block) ++ ".tmp" ≠ block_path dir (b_Index block))
    by (by apply tmp_path_fresh).
  set (path := block_path dir (b_Index block)) in *. set (tmp := path ++ ".tmp") in *. cbv zeta.
  destruct (MarshalCBOR block) as [data|e|] eqn:Em; try (intros [= <- <-]; split; [done|]; right; by split; [eexists|]).
  pose proof (WriteFile_read tmp data d) as Hw. pose proof (WriteFile_other tmp data d) as Hwo.
  destruct (WriteFile tmp data d) as [d1 [|]]; cbn [fst snd negb] in *.
  2:{ intros [= <- <-]. split; [intros; by apply Hwo|]. right. split; [by eexists|]. by apply Hwo. }
  pose proof (Rename_read tmp path d1 Hne) as Hr. pose proof (Rename_other tmp path d1) as Hro.
  pose proof (Rename_failed tmp path d1) as Hrf.
  destruct (Rename tmp path d1) as [d2 [|]]; cbn [fst snd negb] in *; intros [= <- <-].
  - split; [intros q Hq1 Hq2; rewrite Hro, Hwo by done; done|]. left. exists data. rewrite Hr, Hw by done. done.
  - split; [intros q _ Hq2; by rewrite Hrf, Hwo by done|]. right. split; [by eexists|]. rewrite Hrf by done. by apply Hwo.
Qed.

(** The directory holds exactly the encodings of the blocks of the map, each under its index. *)
Definition directory (dir : string) (d : fs) (m : gmap Z Block) : Prop :=
  ∀ i, (0 ≤ i)%Z → fs_read d (block_path dir i) = m !! i ≫= cbor_block.

(** The abstract publisher: a map from indices to blocks, where a publication either
    stores the block or changes nothing. *)
Definition published (m : gmap Z Block) (block : Block) {A} (r : outcome gerror A) : gmap Z Block :=
  match r with Ok _ => <[b_Index block := block]> m | _ => m end.

Lemma publish_file_directory dir block d d' r m : (0 ≤ b_Index block)%Z →
  directory dir d m → publish_file dir block d = (d', r) → directory dir d' (published m block r).
Proof.
  intros Hi Hd Hp. destruct (publish_file_spec dir block d d' r Hi Hp) as [Hother Hcase]. intros i Hi'.
  destruct (decide (i = b_Index block)) as [->|Hne].
  - destruct Hcase as [(data & -> & Hm & Hr)|[[e ->] Hr]]; rewrite Hr; [|by apply Hd].
    cbn [published]. rewrite lookup_insert_eq. cbn. symmetry. by apply MarshalCBOR_Ok.
  - rewrite Hother; [|by intros ?%block_path_inj|by intros ?%eq_sym%tmp_path_fresh].
    destruct r; cbn [published]; [rewrite lookup_insert_ne by done|..]; by apply Hd.
Qed.

(** A sequence of publications, with what each returned. *)
Fixpoint publish_files (dir : string) (blocks : list Block) (d : fs) : fs * list (outcome gerror (list string)) :=
  match blocks with
  | [] => (d, [])
  | b :: bs =>
      let '(d1, r) := publish_file dir b d in
      let '(d2, rs) := publish_files dir bs d1 in
      (d2, r :: rs)
  end.

Lemma publish_files_directory dir blocks : ∀ d m d' rs,
  Forall (fun b => 0 ≤ b_Index b)%Z blocks →
  directory dir d m → publish_files dir blocks d = (d', rs) →
  directory dir d' (foldl (fun m br => published m (fst br) (snd br)) m (zip blocks rs)).
Proof.
  induction blocks as [|b bs IH]; intros d m d' rs Hi Hd; cbn [publish_files].
  - by intros [= <- <-].
  - apply Forall_cons in Hi as [Hi His].
    destruct (publish_file dir b d) as [d1 r] eqn:E1, (publish_files dir bs d1) as [d2 rs'] eqn:E2.
    intros [= <- <-]. cbn [zip zip_with foldl fst snd].
    eapply IH; [done..| |exact E2]. by eapply publish_file_directory.
Qed.

(** ** The publisher *)

Lemma Abs_clean path p : Abs path = Some p → clean_rooted p.
Proof.
  unfold Abs. destruct (String.prefix "/" path) eqn:Ep; [intros [= <-]; by apply Clean_rooted|].
  destruct getwd as [wd|] eqn:Ew; [|done]. intros [= <-]. pose proof (getwd_absolute wd Ew) as Hw.
  assert (Hne : wd ≠ "") by (by intros ->). unfold Join. apply String.eqb_neq in Hne as Hne'. rewrite Hne'.
  apply Clean_rooted. by rewrite prefix_root_app.
Qed.

(** What the constructor builds. *)
Inductive backends : list BlockPublisher → Prop :=
| only_files dir : clean_rooted dir → backends [FilesystemPublisher dir]
| only_ipfs gateway code : backends [IPFSPublisher gateway code]
| files_and_ipfs dir gateway code :
    clean_rooted dir → backends [FilesystemPublisher dir; IPFSPublisher gateway code].

Lemma NewFilesystemPublisher_Ok path d d' p : NewFilesystemPublisher path d = (d', Ok p) →
  ∃ dir, p = FilesystemPublisher dir ∧ clean_rooted dir ∧ ∀ q, fs_read d' q = fs_read d q.
Proof.
  unfold NewFilesystemPublisher. destruct (Abs path) as [dir|] eqn:Ea; [|done].
  pose proof (MkdirAll_read dir d) as Hm. destruct (MkdirAll dir d) as [d1 [|]]; [|done]. intros [= <- <-].
  exists dir. split_and!; [done|by eapply Abs_clean|done].
Qed.

Lemma NewAnchorPublisher_Ok cfg d d' ap : NewAnchorPublisher cfg d = (d', Ok ap) →
  ap_config ap = cfg ∧ ap_closed ap = false ∧ backends (ap_publishers ap) ∧ ∀ q, fs_read d' q = fs_read d q.
Proof.
  unfold NewAnchorPublisher. destruct (String.eqb (ac_FilesystemPath cfg) "").
  - cbn [outcome_bind]. destruct (ac_IPFSEnabled cfg); [|done]. unfold NewIPFSPublisher.
    destruct (String.eqb _ _); [|destruct (String.eqb _ _); [|done]]; intros [= <- <-]; split_and!; try done; constructor.
  - destruct (NewFilesystemPublisher (ac_FilesystemPath cfg) d) as [d1 [p| |]] eqn:E; [|done..].
    apply NewFilesystemPublisher_Ok in E as (dir & -> & Hc & Hr). cbn [outcome_bind]. unfold NewIPFSPublisher.
    destruct (ac_IPFSEnabled cfg); [destruct (String.eqb _ _); [|destruct (String.eqb _ _)]|];
      intros [= <- <-]; split_and!; try done; by constructor.
Qed.

(** The URI leads to the block: the file it names holds the encoding, which decodes to the block
    when its text is valid, or its CID verifies. *)
Definition resolves (d : fs) (block : Block) (uri : string) : Prop :=
  (∃ path data, uri = "file://" ++ path ∧ fs_read d path = Some data ∧ MarshalCBOR block = Ok data ∧
     (block_utf8 block = true → UnmarshalCBOR data = Ok block)) ∨
  (∃ c, uri = "ipfs://" ++ c ∧ VerifyAnchorCID block c = Ok true).

Lemma publish_ipfs_spec block : 
  (∃ c, publish_ipfs block = Ok ["ipfs://" ++ c] ∧ VerifyAnchorCID block c = Ok true) ∨ ∃ e, publish_ipfs block = Err e.
Proof.
  unfold publish_ipfs, VerifyAnchorCID, ComputeAnchorCID. unfold MarshalCBOR.
  destruct (cbor_block block) as [data|]; cbn [outcome_bind]; [|right; by eexists].
  destruct (cid_sum (blake3 data)) as [c|]; cbn [outcome_bind]; [|right; by eexists].
  left. exists c. by rewrite String.eqb_refl.
Qed.

Lemma publish_file_resolves dir block d d' r : clean_rooted dir → (0 ≤ b_Index block)%Z →
  publish_file dir block d = (d', r) →
  (∃ uri, r = Ok [uri] ∧ resolves d' block uri) ∨ ∃ e, r = Err e.
Proof.
  intros Hc Hi Hp. destruct (publish_file_spec dir block d d' r Hi Hp) as [_ [(data & -> & Hm & Hr)|[He _]]]; [|by right].
  left. eexists. split; [done|]. left. exists (block_path dir (b_Index block)), data.
  rewrite Abs_block_path by done. split_and!; [done..|]. intros Ha. by apply UnmarshalCBOR_Marshal.
Qed.

(** The URIs of a publisher that runs alone; a failed one has none. *)
Definition uris_of (block : Block) (d : fs) (p : BlockPublisher) : list string :=
  match snd (publish_one p block d) with Ok uris => uris | _ => [] end.

Lemma publish_runs ps order block d d' anchors errs :
  backends ps → order ≡ₚ ps → (0 ≤ b_Index block)%Z →
  foldl (goroutine block) (d, [], []) order = (d', anchors, errs) →
  Forall (resolves d' block) anchors ∧ anchors ≡ₚ (ps ≫= uris_of block d) ∧
  ∀ p, p ∈ ps → length (uris_of block d p) = 1 ∨ ∃ e, snd (publish_one p block d) = Err e.
Proof.
  intros Hb Hord Hi. unfold uris_of.
  destruct (publish_ipfs_spec block) as [(c & Ei & Hv)|[ei Ei]].
  all: destruct Hb as [dir Hc|g code|dir g code Hc];
    [apply Permutation_singleton_r in Hord as ->|apply Permutation_singleton_r in Hord as ->|
     symmetry in Hord; apply Permutation_length_2_inv in Hord as [->| ->]];
    cbn [foldl goroutine publish_one mbind list_bind app snd]; rewrite ?Ei; cbn [goroutine publish_one snd app].
  all: try (destruct (publish_file dir block d) as [d1 r] eqn:Ep;
    destruct (publish_file_resolves dir block d d1 r Hc Hi Ep) as [(uri & -> & Hres)|[e ->]]; cbn [snd app]).
  all: cbn [goroutine publish_one]; rewrite ?Ei; cbn [app].
  all: intros [= <- <- <-].
  all: split_and!.
  all: try (repeat (apply Forall_cons_2 || apply Forall_nil_2); first [exact Hres|right; exists c; by split]).
  all: try apply Permutation_refl; try (apply Permutation_swap).
  all: intros p Hp; repeat (apply elem_of_cons in Hp as [->|Hp] || by apply elem_of_nil in Hp).
  all: cbn [publish_one snd]; rewrite ?Ep, ?Ei; cbn [snd length]; eauto.
Qed.

(** C32: publication through a publisher built by the constructor, whatever the order in
    which its goroutines complete. The URIs are those of the backends that succeeded, one
    each, and every one of them leads to the published block: a file URI names a file that
    holds the encoding of the block, which decodes back to it if the text of the block is
    valid UTF-8 (the decoder takes no other text), and an IPFS URI is the identifier that
    [VerifyAnchorCID] accepts. The error is absent exactly when the URIs number at least the
    configured redundancy. *)
Theorem anchor_publish_spec cfg d0 d1 ap order block d d' anchors err :
  NewAnchorPublisher cfg d0 = (d1, Ok ap) → order ≡ₚ ap_publishers ap →
  (0 ≤ b_Index block)%Z →
  AnchorPublisher_Publish order ap block d = (d', (anchors, err)) →
  Forall (resolves d' block) anchors ∧
  anchors ≡ₚ (ap_publishers ap ≫= uris_of block d) ∧
  (∀ p, p ∈ ap_publishers ap → length (uris_of block d p) = 1 ∨ ∃ e, snd (publish_one p block d) = Err e) ∧
  (err = None ↔ ac_MinRedundancy cfg ≤ Z.of_nat (length anchors))%Z.
Proof.
  intros Hnew Hord Hi. apply NewAnchorPublisher_Ok in Hnew as (Hcfg & Hcl & Hb & _).
  unfold AnchorPublisher_Publish. rewrite Hcl, Hcfg.
  destruct (foldl (goroutine block) (d, [], []) order) as [[d2 anchors2] errs] eqn:Ef. intros [= <- <- <-].
  destruct (publish_runs _ _ _ _ _ _ _ Hb Hord Hi Ef) as (Hres & Hperm & Hone). split_and!; [done..|].
  destruct (Z.ltb_spec (Z.of_nat (length anchors2)) (ac_MinRedundancy cfg)); split; intros; (done || lia).
Qed.
End files.

(** ** A concrete publication *)

Definition redundant_config : AnchorPublisherConfig :=
  {| ac_Mode := ModeAll; ac_DesignatedPublishers := []; ac_MinRedundancy := 2; ac_FilesystemPath := "./anchors";
     ac_IPFSEnabled := true; ac_IPFSGateway := ""; ac_IPFSHashFunc := "blake3-256"; ac_S3Enabled := false |}.

Definition redundant_publisher : AnchorPublisher :=
  {| ap_config := redundant_config;
     ap_publishers := [FilesystemPublisher "/srv/anchors"; IPFSPublisher "" 45632]; ap_closed := false |}.

(** Two backends, the second completing first. *)
Lemma anchor_publish_spec_witness : ∃ d anchors,
  AnchorPublisher_Publish (rev (ap_publishers redundant_publisher)) redundant_publisher (demo_block 100) ∅
    = (d, (anchors, None)) ∧ length anchors = 2 ∧ Forall (resolves d (demo_block 100)) anchors.
Proof.
  destruct (AnchorPublisher_Publish (rev (ap_publishers redundant_publisher)) redundant_publisher (demo_block 100) ∅)
    as [d [anchors err]] eqn:E.
  pose proof (anchor_publish_spec redundant_config ∅ ∅ redundant_publisher _ (demo_block 100) ∅ d anchors err
    eq_refl (symmetry (Permutation_rev _)) ltac:(done) E) as (Hres & Hperm & _ & Herr).
  assert (Hlen : length anchors = 2) by (rewrite Hperm; reflexivity).
  exists d, anchors. rewrite (proj2 Herr); [|rewrite Hlen; reflexivity]. split; [reflexivity|]. by split.
Defined.
