(* ===== verification/Published.v ===== *)
(** * The published chain of a single node

    The engine of [SoloChain] with its anchor publisher: every block that a cycle appends is
    published, with a disk that may fail. What a third party reads from the directory is
    the node's chain, and it can be followed with nothing but the node's public key. *)
From Stdlib Require Import SpecFloat.
From S2P Require Import Prelude Crypto Toy Sha256 Smt Errors Vrf Identity IdentityTheorems Chain ToyCbor.
From S2P Require Import ChainTheorems Config Rotation Mandates Quorum QuorumTheorems LightClient.
From S2P Require Import LightTheorems Gossip State StateTheorems Engine EngineCycle EngineApi EngineFrame.
From S2P Require Import Demo EngineTheorems CycleTheorems SoloTheorems ApiTheorems SoloChain.
From S2P Require Import BlockCodec ToyBlock Anchor ToyDisk AnchorTheorems.

Section published.
Context `{Primitives, Cbor, Ristretto, Gonum, StateCbor} `{!MldsaCorrect, !RistrettoLaws}
  {bus : Type} `{GossipChannel bus}.
Context `{BlockCbor, !BlockCborLaws, FileSystem, !FileSystemLaws, CidBuilder}.
Context (env : nat → bus → bus) (clock : nat → Z) (patience : nat → nat).
Context (u : UIDZeroSoulbound) (Huid : uid_wf u).
Context (Hroot_total : ∀ c n g l, is_Some (cbor_root_state c n g l)).
Context (ap : AnchorPublisher).

Local Notation World := (World (bus := bus)).

(** One call, and the publication of what it appended to the chain. *)
Definition audited_do (s : World * fs) (op : solo_op) : World * fs :=
  let '(w, d) := s in
  let w' := solo_do env clock patience w op in
  (w', foldl (fun d b => fst (publish_final (ap_publishers ap) (Some ap) b d)) d
         (drop (length (en_blocks (w_eng w))) (en_blocks (w_eng w')))).

Definition audited_run (ops : list solo_op) (s : World * fs) : World * fs := foldl audited_do s ops.

(** The chain that the files of a directory hold, up to a length. *)
Definition read_directory (dir : string) (d : fs) (n : nat) : option (list Block) :=
  mapM (fun i => data ← fs_read d (block_path dir (Z.of_nat i)); 
                 match UnmarshalCBOR data with Ok b => Some b | _ => None end) (seq 0 n).

(** Every write succeeds, and so does every rename of a file that exists. *)
Definition reliable : Prop :=
  (∀ p data d, snd (WriteFile p data d) = true) ∧
  (∀ p q d, is_Some (fs_read d p) → snd (Rename p q d) = true).

(** The directory holds blocks of the chain, and all of them if the disk is reliable. *)
Definition mirrors (dir : string) (blocks : list Block) (d : fs) : Prop :=
  ∃ m, directory dir d m ∧
    (∀ i b, m !! i = Some b → ∃ n, i = Z.of_nat n ∧ blocks !! n = Some b) ∧
    (reliable → ∀ n b, blocks !! n = Some b → m !! Z.of_nat n = Some b).

Lemma publish_file_reliable dir block d : reliable → ∃ d' uris, publish_file dir block d = (d', Ok uris).
Proof.
  intros [Hw Hr]. unfold publish_file. destruct (MarshalCBOR_total block) as [data ->].
  set (tmp := Join dir (block_file (b_Index block)) +:+ ".tmp").
  specialize (Hw tmp data d). pose proof (WriteFile_read tmp data d Hw) as Hf.
  destruct (WriteFile tmp data d) as [d1 ok]; cbn [fst snd] in Hw, Hf. subst ok. cbn [negb].
  specialize (Hr tmp (Join dir (block_file (b_Index block))) d1 (mk_is_Some _ _ Hf)).
  destruct (Rename _ _ d1) as [d2 ok]; cbn [snd] in Hr. subst ok. cbn [negb]. by eexists _, _.
Qed.

(** A publisher with files only. *)
Context (dir : string) (Hap : ap_publishers ap = [FilesystemPublisher dir]) (Hopen : ap_closed ap = false).

Lemma publish_final_files block d :
  fst (publish_final (ap_publishers ap) (Some ap) block d) = fst (publish_file dir block d).
Proof.
  unfold publish_final, AnchorPublisher_Publish. rewrite Hopen, Hap. cbn [foldl goroutine publish_one].
  destruct (publish_file dir block d) as [d' [uris|e|]]; by case_match.
Qed.

Lemma mirrors_snoc blocks block d : mirrors dir blocks d → b_Index block = Z.of_nat (length blocks) →
  mirrors dir (blocks ++ [block]) (fst (publish_final (ap_publishers ap) (Some ap) block d)).
Proof.
  intros (m & Hd & Hsound & Hcompl) Hi. rewrite publish_final_files.
  destruct (publish_file dir block d) as [d' r] eqn:Ep. cbn [fst].
  exists (published m block r). split; [eapply publish_file_directory; [lia|done..]|].
  assert (Hold : ∀ i b, m !! i = Some b → ∃ n, i = Z.of_nat n ∧ (blocks ++ [block]) !! n = Some b).
  { intros i b (n & -> & Hn)%Hsound. exists n. split; [done|]. by apply lookup_app_l_Some. }
  split.
  - intros i b. destruct r; cbn [published]; [|by apply Hold..]. rewrite lookup_insert_Some, Hi.
    intros [[<- <-]|[_ Hm]]; [|by apply Hold]. exists (length blocks). split; [done|]. by rewrite lookup_app_r, Nat.sub_diag by lia.
  - intros Hrel n b Hn. destruct (publish_file_reliable dir block d Hrel) as (d2 & uris & Ep2).
    rewrite Ep in Ep2. injection Ep2 as -> ->. cbn [published]. rewrite Hi.
    apply lookup_app_Some in Hn as [Hn|[Hge Hn]].
    + rewrite lookup_insert_ne; [by apply Hcompl|]. apply lookup_lt_Some in Hn. lia.
    + apply list_lookup_singleton_Some in Hn as [Hz ->]. replace n with (length blocks) by lia. apply lookup_insert_eq.
Qed.

(** ** Runs *)

Definition audited (s : World * fs) : Prop :=
  good u (fst s) ∧
  ((Z.of_nat (length (en_blocks (w_eng (fst s)))) < 2 ^ 64)%Z →
   mirrors dir (en_blocks (w_eng (fst s))) (snd s)).

(** A call appends at most one block. *)
Lemma solo_do_blocks op (w : World) : good u w →
  en_blocks (w_eng (solo_do env clock patience w op)) = en_blocks (w_eng w) ∨
  ∃ block, en_blocks (w_eng (solo_do env clock patience w op)) = en_blocks (w_eng w) ++ [block].
Proof.
  intros Hg. assert (op = DoCycle ∨ op ≠ DoCycle) as [->|Hop] by (destruct op; auto).
  - destruct (cycle_blocks env clock patience u Huid Hroot_total w (gd_solo _ _ Hg)) as [_ [Hb|(block & Hb & _)]];
      [by left|right; by exists block].
  - left. unfold en_blocks. by rewrite (sc_ledger _ _ (call_core env clock patience op w Hop)).
Qed.

Lemma good_index (w : World) k b : good u w → (Z.of_nat (length (en_blocks (w_eng w))) < 2 ^ 64)%Z →
  en_blocks (w_eng w) !! k = Some b → b_Index b = Z.of_nat k.
Proof.
  intros Hg Hlen Hk. destruct (gd_chain _ _ Hg Hlen) as [Hacc _].
  rewrite (accepts_index _ _ _ _ _ Hacc Hk). cbn [first_index]. unfold u64. apply lookup_lt_Some in Hk.
  rewrite Z.mod_small; lia.
Qed.

Lemma audited_step op s : audited s → audited (audited_do s op).
Proof.
  destruct s as [w d]. intros [Hg Hm]. cbn [fst snd] in *.
  pose proof (good_step env clock patience u Huid Hroot_total op w Hg) as Hg'.
  unfold audited_do. split; [exact Hg'|]. cbn [fst snd]. intros Hlen.
  destruct (solo_do_blocks op w Hg) as [Hb|(block & Hb)].
  - rewrite Hb in *. rewrite drop_all. by apply Hm.
  - pose proof (good_index _ (length (en_blocks (w_eng w))) block Hg' Hlen) as Hi. rewrite Hb in *.
    rewrite drop_app_length. cbn [foldl].
    rewrite length_app in Hlen. cbn [length] in Hlen.
    apply mirrors_snoc; [apply Hm; lia|]. apply Hi. by rewrite lookup_app_r, Nat.sub_diag by lia.
Qed.

Lemma audited_run_inv ops : ∀ s, audited s → audited (audited_run ops s).
Proof. induction ops as [|op ops IH]; intros s Hs; [done|]. apply IH. by apply audited_step. Qed.

Lemma audited_run_fst ops : ∀ s, fst (audited_run ops s) = solo_run env clock patience ops (fst s).
Proof. induction ops as [|op ops IH]; intros [w d]; [done|]. unfold audited_run, solo_run in *. cbn [foldl]. by rewrite IH. Qed.

Lemma mirrors_read blocks d i data : mirrors dir blocks d → fs_read d (block_path dir (Z.of_nat i)) = Some data →
  ∃ b, blocks !! i = Some b ∧ MarshalCBOR b = Ok data.
Proof.
  intros (m & Hd & Hsound & _) Hr. specialize (Hd (Z.of_nat i) ltac:(lia)). rewrite Hr in Hd.
  destruct (m !! Z.of_nat i) as [b|] eqn:E; [|done]. cbn in Hd.
  destruct (Hsound _ _ E) as (n & Hn & Hb). apply Nat2Z.inj in Hn as <-. exists b. by rewrite MarshalCBOR_Ok.
Qed.

Lemma mirrors_holds blocks d i b : reliable → mirrors dir blocks d → blocks !! i = Some b →
  ∃ data, fs_read d (block_path dir (Z.of_nat i)) = Some data ∧ MarshalCBOR b = Ok data.
Proof.
  intros Hrel (m & Hd & _ & Hcompl) Hb. specialize (Hd (Z.of_nat i) ltac:(lia)).
  rewrite (Hcompl Hrel i b Hb) in Hd. cbn in Hd. destruct (MarshalCBOR_total b) as [data Hm].
  exists data. split; [|done]. by rewrite Hd, <- MarshalCBOR_Ok.
Qed.

Lemma mirrors_read_all blocks d : reliable → mirrors dir blocks d →
  Forall (fun b => block_utf8 b = true) blocks → read_directory dir d (length blocks) = Some blocks.
Proof.
  intros Hrel Hm Ha. unfold read_directory. apply mapM_Some.
  apply Forall2_same_length_lookup. rewrite length_seq. split; [done|].
  intros i x b [-> Hlt]%lookup_seq Hb. rewrite Nat.add_0_l.
  destruct (mirrors_holds _ _ _ _ Hrel Hm Hb) as (data & -> & Hd). cbn.
  rewrite Forall_lookup in Ha. by rewrite (UnmarshalCBOR_Marshal b data (Ha _ _ Hb) Hd).
Qed.
End published.

(** The publisher that an engine builds has files only. *)
Lemma engine_publisher_files `{FileSystem, !FileSystemLaws} d d1 ap :
  engine_publisher d = (d1, Some ap) →
  ∃ dir, clean_rooted dir ∧ ap_publishers ap = [FilesystemPublisher dir] ∧ ap_closed ap = false ∧
    ∀ q, fs_read d1 q = fs_read d q.
Proof.
  unfold engine_publisher, NewAnchorPublisher. cbn [ac_FilesystemPath DefaultAnchorPublisherConfig String.eqb Ascii.eqb].
  destruct (NewFilesystemPublisher _ d) as [d2 [p| |]] eqn:E; [|done..].
  apply NewFilesystemPublisher_Ok in E as (dir & -> & Hc & Hr). intros [= <- <-]. exists dir. by split_and!.
Qed.

(** C12: What a single node publishes is its chain, and anyone can follow it. Take any
    sequence of submissions, mandates, configuration changes and cycles (no key rotations) on
    a node built by [NewEngine], with the publisher its engine builds, a directory without
    blocks at the start and a disk whose operations may fail. The chain is followed by a
    light client that holds the node's public key; every block file that exists is the
    encoding of the block of the chain with that index, and decodes to it if the text of the
    block is valid UTF-8; and if the disk does not fail, there is a file for every block, and
    reading the files in order gives the whole chain when its text is valid UTF-8. *)
Theorem published_chain_audit `{Primitives, Cbor, Ristretto, Gonum, StateCbor, !MldsaCorrect, !RistrettoLaws}
    {bus : Type} `{GossipChannel bus} `{BlockCbor, !BlockCborLaws, FileSystem, !FileSystemLaws, CidBuilder}
    env clock patience u node interval ops (b : bus) n d0 d1 ap dir :
  uid_wf u → (∀ c n g l, is_Some (cbor_root_state c n g l)) → n_UID node = u →
  engine_publisher d0 = (d1, Some ap) → ap_publishers ap = [FilesystemPublisher dir] →
  (∀ i, (0 ≤ i)%Z → fs_read d0 (block_path dir i) = None) →
  let s := audited_run env clock patience ap ops ({| w_eng := NewEngine node interval; w_bus := b; w_step := n |}, d1) in
  let blocks := en_blocks (w_eng (fst s)) in
  (Z.of_nat (length blocks) < 2 ^ 64)%Z →
  followed u blocks ∧
  (∀ i data, fs_read (snd s) (block_path dir (Z.of_nat i)) = Some data →
     ∃ b, blocks !! i = Some b ∧ MarshalCBOR b = Ok data ∧ (block_utf8 b = true → UnmarshalCBOR data = Ok b)) ∧
  (reliable →
     (∀ i b, blocks !! i = Some b →
        ∃ data, fs_read (snd s) (block_path dir (Z.of_nat i)) = Some data ∧ MarshalCBOR b = Ok data) ∧
     (Forall (fun b => block_utf8 b = true) blocks → read_directory dir (snd s) (length blocks) = Some blocks)).
Proof.
  intros Huid Hroot Hn Hpub Hap Hempty s blocks Hlen.
  destruct (engine_publisher_files d0 d1 ap Hpub) as (dir' & _ & Hap' & Hopen & Hread).
  rewrite Hap in Hap'. injection Hap' as <-.
  assert (Hs : audited u dir s).
  { apply (audited_run_inv env clock patience u Huid Hroot ap dir Hap Hopen). split; cbn [fst snd].
    - split; [by apply NewEngine_solo|]. intros _. split; [constructor|]. by intros i x Hx.
    - intros _. exists ∅. split_and!; [|done|done]. intros i Hi. by rewrite Hread, Hempty. }
  destruct Hs as [Hg Hm]. specialize (Hm Hlen). split_and!.
  - by apply (gd_chain u (fst s) Hg).
  - intros i data (b' & Hb & Hd)%(mirrors_read dir _ _ _ _ Hm). exists b'. split_and!; [done..|].
    intros Ha. by apply UnmarshalCBOR_Marshal.
  - intros Hrel. split; [intros i b'; by apply mirrors_holds|by apply mirrors_read_all].
Qed.

(** ** A concrete run *)

Lemma toy_disk_reliable : reliable.
Proof. split; [done|]. intros p q d [data E]. cbn in E |- *. by rewrite E. Qed.

Definition audit_ops : list solo_op := [DoEnqueue (demo_submission 1); DoCycle].

Lemma audit_blocks : ∃ w, solo_run demo_env demo_clock demo_patience audit_ops fresh_world = w ∧
  (length (en_blocks (w_eng w)) =? 1)%nat && forallb block_utf8 (en_blocks (w_eng w)) = true.
Proof. eexists. split; [reflexivity|]. vm_compute. reflexivity. Qed.

Definition demo_publisher : AnchorPublisher :=
  {| ap_config := DefaultAnchorPublisherConfig; ap_publishers := [FilesystemPublisher "/srv/anchors"];
     ap_closed := false |}.

Lemma published_chain_audit_witness : ∃ s block,
  audited_run demo_env demo_clock demo_patience demo_publisher audit_ops (fresh_world, ∅) = s ∧
  en_blocks (w_eng (fst s)) = [block] ∧ followed (demo_uid 7) [block] ∧
  read_directory "/srv/anchors" (snd s) 1 = Some [block].
Proof.
  destruct audit_blocks as (w & Hw & [Hlen Hutf8]%andb_true_iff).
  pose proof (published_chain_audit demo_env demo_clock demo_patience (demo_uid 7) demo_node second audit_ops
    NewMemoryBus 0 ∅ ∅ demo_publisher "/srv/anchors" demo_uid_wf toy_root_total eq_refl eq_refl eq_refl
    ltac:(intros i _; reflexivity)) as Hall.
  fold fresh_world in Hall.
  pose proof (audited_run_fst demo_env demo_clock demo_patience demo_publisher audit_ops (fresh_world, ∅)) as Hfst.
  destruct (audited_run _ _ _ _ _ _) as [w' d] eqn:Hs in Hall, Hfst.
  cbn [fst snd] in Hall, Hfst. rewrite Hw in Hfst. subst w'. apply Nat.eqb_eq in Hlen.
  destruct Hall as (Hf & _ & [_ Hread]%(fun f => f toy_disk_reliable)).
  - rewrite Hlen. reflexivity.
  - assert (Ha : Forall (fun b => block_utf8 b = true) (en_blocks (w_eng w))).
    { rewrite forallb_forall in Hutf8. apply Forall_forall. intros x Hx%list_elem_of_In. by apply Hutf8. }
    specialize (Hread Ha). destruct (en_blocks (w_eng w)) as [|block [|]] eqn:Eb; try discriminate Hlen.
    exists (w, d), block. split; [exact Hs|]. cbn [fst snd]. split; [exact Eb|]. split; [exact Hf|].
    exact Hread.
Defined.
