(* ===== verification/Daemon.v ===== *)
(** * The node daemon (cmd/provenanced/main.go)

    Flags, the peer list, and the construction of the node: the gossip transport, the gRPC
    server with its engine, the REST server. Reading files and the start of the transport
    are parameters; listening, metrics and signals are left out. [log.Fatalf] is an error. *)
From Stdlib Require Import SpecFloat Ascii.
From S2P Require Import Prelude Crypto Smt Errors Vrf Identity Chain Config Rotation Mandates Quorum Gossip.
From S2P Require Import State Engine EngineCycle EngineApi Rest Grpc.
Local Open Scope string_scope.

(** [envFlag], given the environment; the name is not used. *)
Definition envFlag (getenv : string → string) (name env def : string) : string :=
  if negb (String.eqb (getenv env) "") then getenv env
  else if negb (String.eqb def "") then def else "".

Definition splitList (s : string) : list string :=
  filter (fun p => p ≠ "") (TrimSpace <$> split_at ","%char s).

(** [strings.Cut] at a single character. *)
Fixpoint Cut (c : ascii) (s : string) : option (string * string) :=
  match s with
  | EmptyString => None
  | String a s' =>
      if Ascii.eqb a c then Some ("", s')
      else match Cut c s' with Some (before, after) => Some (String a before, after) | None => None end
  end.

Section daemon.
Context `{UidDecode} (read : string → option bytes).

(** The loop of [parsePeers]; [seen] are the addresses so far, [peers] the peers so far. *)
Fixpoint parse_loop (selfUID : UIDZeroSoulbound) (seen : gset string) (peers : list Peer) (entries : list string) :
    outcome gerror (list Peer) :=
  match entries with
  | [] => Ok peers
  | entry :: entries =>
      match Cut "=" entry with
      | None => Err (ErrText "entry %q is not addr=uid-file")
      | Some (addr, uidPath) =>
          if bool_decide (addr ∈ seen) then Err (ErrText "address %q listed more than once")
          else
            match read uidPath with
            | None => Err (ErrText "peer %s: %w")
            | Some data =>
                match uid_decode data with
                | None => Err (ErrText "peer %s: %w")
                | Some peerUID =>
                    if String.eqb (ID peerUID) (ID selfUID)
                    then Err (ErrText "peer %s resolves to this node's own identity (%s)")
                    else parse_loop selfUID ({[ addr ]} ∪ seen)
                           (peers ++ [{| p_UID := peerUID; p_Addr := addr; p_Alive := true |}])%list entries
                end
            end
      end
  end.

Definition parsePeers (spec : string) (selfUID : option UIDZeroSoulbound) (selfAddr : string) :
    outcome gerror (list Peer) :=
  let spec := TrimSpace spec in
  if String.eqb spec "" then Ok []
  else
    match selfUID with
    | None => Err (ErrText "own identity not resolved")
    | Some uid => (
        peers <-! parse_loop uid {[ selfAddr ]} [{| p_UID := uid; p_Addr := selfAddr; p_Alive := true |}]
                    (splitList spec) ;;
        fail_if (length peers <? 2)%nat (ErrText "only one validator in the peer set") ;;!
        Ok peers)%go
    end.
End daemon.

(** The flags that decide how the node is built. *)
Record daemon_flags := MkDaemonFlags {
  df_uidFile : string;
  df_nodeID : string;
  df_peers : string;
  df_restKeysDir : string;
  df_restAllowedRoots : string;
  df_restRateLimit : Z;
  df_allowSimulated : bool;
}.

Section main.
Context `{Primitives, Cbor, Ristretto, Gonum, StateCbor, SubmitJson, UidDecode}.

(** The options of the gRPC server; [p2p] says whether the transport starts. *)
Definition server_options (read : string → option bytes) (p2p : bool) (fl : daemon_flags) (uid : UIDZeroSoulbound) :
    outcome gerror (list GrpcOption) :=
  let base := [GrpcAllowSimulated (df_allowSimulated fl)] in
  if String.eqb (TrimSpace (df_peers fl)) "" then Ok base
  else (
    peerList <-! parsePeers read (df_peers fl) (Some uid) (df_nodeID fl) ;;
    fail_if (negb p2p) (ErrText "p2p: %v") ;;!
    Ok (base ++ [WithPeers peerList; WithGossip true])%list)%go.

(** [main] up to the point where it listens. *)
Definition daemon_main (read : string → option bytes) (dir : string → option (list key_file)) (startTime : Z)
    (p2p : bool) (fl : daemon_flags) : outcome gerror (GrpcServer * Engine * RestServer) := (
  fail_if (String.eqb (df_uidFile fl) "") (ErrText "--uid-file (or IPC_UID_FILE) is required") ;;!
  fail_if (String.eqb (df_nodeID fl) "") (ErrText "--node-id (or IPC_NODE_ID) is required") ;;!
  match read (df_uidFile fl) with
  | None => Err (ErrText "read uid file: %v")
  | Some data =>
      match uid_decode data with
      | None => Err (ErrText "unmarshal uid: %v")
      | Some uid =>
          opts <-! server_options read p2p fl uid ;;
          srv <-! Grpc_NewServer (df_nodeID fl) uid opts ;;
          rest <-! NewServer uid
                     [WithKeysDir (df_restKeysDir fl); WithAllowedRoots (df_restAllowedRoots fl);
                      WithRateLimit (df_restRateLimit fl); WithAllowSimulatedIdentities (df_allowSimulated fl)]
                     dir startTime ;;
          Ok (srv.1, srv.2, rest)
      end
  end)%go.
End main.
