(* ===== verification/DaemonTheorems.v ===== *)
(** * Theorems about the node daemon

    What a peer list must look like to be accepted, what it does not have to look like, and
    the node that the flags build. *)
From Stdlib Require Import SpecFloat Ascii.
From S2P Require Import Prelude Crypto Toy Smt Errors Vrf Identity Chain ToyCbor ChainTheorems Config Rotation.
From S2P Require Import Mandates Quorum QuorumTheorems Gossip State Engine EngineCycle EngineApi Rest Grpc Daemon.

Section peers.
Context `{UidDecode} (read : string → option bytes).

(** An entry of the list and the peer it stands for. *)
Definition peer_entry (self : UIDZeroSoulbound) (entry : string) (p : Peer) : Prop :=
  ∃ path data, Cut "=" entry = Some (p_Addr p, path) ∧ read path = Some data ∧
    uid_decode data = Some (p_UID p) ∧ p_Alive p = true ∧ ID (p_UID p) ≠ ID self.

Lemma parse_loop_Ok self entries : ∀ seen peers peers',
  parse_loop read self seen peers entries = Ok peers' ↔
  ∃ new, peers' = peers ++ new ∧ Forall2 (peer_entry self) entries new ∧
    NoDup (p_Addr <$> new) ∧ ∀ p, p ∈ new → p_Addr p ∉ seen.
Proof.
  induction entries as [|entry entries IH]; intros seen peers peers'; cbn [parse_loop].
  { split.
    - intros [= <-]. exists []. rewrite app_nil_r. split_and!; [done|constructor|constructor|]. by intros p ?%elem_of_nil.
    - intros (new & -> & Hf & _). apply Forall2_nil_inv_l in Hf as ->. by rewrite app_nil_r. }
  split.
  - destruct (Cut "=" entry) as [[addr path]|] eqn:Ec; [|done]. case_bool_decide as Hseen; [done|].
    destruct (read path) as [data|] eqn:Er; [|done]. destruct (uid_decode data) as [uid|] eqn:Eu; [|done].
    destruct (String.eqb_spec (ID uid) (ID self)) as [|Hid]; [done|]. rewrite IH.
    intros (new & -> & Hf & Hnd & Hns). exists (MkPeer uid addr true :: new). split_and!.
    + by rewrite <- app_assoc.
    + constructor; [|done]. by exists path, data.
    + rewrite fmap_cons. apply NoDup_cons. split; [|done]. intros (q & Hq & Hin)%list_elem_of_fmap.
      apply (Hns q Hin). cbn in Hq. rewrite <- Hq. set_solver.
    + intros q [->|Hq]%elem_of_cons; [done|]. specialize (Hns q Hq). set_solver.
  - intros (new & -> & Hf & Hnd & Hns). apply Forall2_cons_inv_l in Hf as (p & new' & (path & data & Hc & Hr & Hu & Ha & Hid) & Hf & ->).
    rewrite Hc. rewrite bool_decide_eq_false_2 by (apply Hns; by left). rewrite Hr, Hu.
    rewrite (proj2 (String.eqb_neq _ _) Hid). apply IH. exists new'. rewrite fmap_cons in Hnd. apply NoDup_cons in Hnd as [Hni Hnd].
    destruct p as [pu pa pl]. cbn in Ha, Hni |- *. subst pl. split_and!; [by rewrite <- app_assoc|done|done|].
    intros q Hq Hin. apply elem_of_union in Hin as [Heq%elem_of_singleton|Hin].
    + apply Hni. rewrite <- Heq. by apply list_elem_of_fmap_2.
    + apply (Hns q); [by right|done].
Qed.

Lemma parsePeers_Ok spec self selfAddr peers : TrimSpace spec ≠ "" →
  parsePeers read spec (Some self) selfAddr = Ok peers ↔
  ∃ others, peers = {| p_UID := self; p_Addr := selfAddr; p_Alive := true |} :: others ∧
    Forall2 (peer_entry self) (splitList (TrimSpace spec)) others ∧ others ≠ [] ∧ NoDup (p_Addr <$> peers).
Proof.
  intros Hne. unfold parsePeers. rewrite (proj2 (String.eqb_neq _ _) Hne), bind_Ok. split.
  - intros (ps & (new & -> & Hf & Hnd & Hns)%parse_loop_Ok & Hr). apply fail_if_pass in Hr as [Hlen%Nat.ltb_ge [= <-]].
    exists new. split_and!; [done|done| |].
    + intros ->. cbn in Hlen. lia.
    + cbn. apply NoDup_cons. split; [|done]. intros (q & Hq & Hin)%list_elem_of_fmap. apply (Hns q Hin). set_solver.
  - intros (others & -> & Hf & Ho & Hnd). eexists. split.
    + apply parse_loop_Ok. exists others. rewrite fmap_cons in Hnd. apply NoDup_cons in Hnd as [Hni Hnd].
      split_and!; [reflexivity|done|done|]. intros p Hp Heq%elem_of_singleton. apply Hni. cbn. rewrite <- Heq. by apply list_elem_of_fmap_2.
    + apply fail_if_pass. split; [|done]. apply Nat.ltb_ge. destruct others; [done|]. cbn. lia.
Qed.

(** C34: which specs [parsePeers] accepts, and what it returns. A spec of white space alone
    gives no peers, with no error. Any other one is accepted exactly when this node's own
    identity is resolved, every entry is [addr=uid-file] with a readable file that decodes to
    an identity other than this node's own, all addresses are different from each other and
    from this node's, and at least one other validator is named; the result is this node
    first, then the peers in the order given. The identities of the others are compared with
    this node's only: two entries may carry one identity under two addresses, against the
    comment of the function (see [one_identity_two_votes]). *)
Theorem parse_peers_spec spec selfUID selfAddr peers :
  parsePeers read spec selfUID selfAddr = Ok peers ↔
  if String.eqb (TrimSpace spec) "" then peers = []
  else ∃ self others, selfUID = Some self ∧
    peers = {| p_UID := self; p_Addr := selfAddr; p_Alive := true |} :: others ∧
    Forall2 (peer_entry self) (splitList (TrimSpace spec)) others ∧ others ≠ [] ∧ NoDup (p_Addr <$> peers).
Proof.
  destruct (String.eqb_spec (TrimSpace spec) "") as [He|Hne].
  { unfold parsePeers. rewrite He. cbn. split; congruence. }
  destruct selfUID as [self|].
  - rewrite parsePeers_Ok by done. split; [intros (others & Ho); by exists self, others|].
    intros (self' & others & [= <-] & Ho). by exists others.
  - split; [|by intros (? & ? & ? & _)]. unfold parsePeers. by rewrite (proj2 (String.eqb_neq _ _) Hne).
Qed.
End peers.

(** Distinct addresses are not distinct identities: one validator listed under two addresses
    is accepted, and its one signature, repeated, makes the quorum of two out of three. *)
Lemma one_identity_two_votes `{Primitives, UidDecode} data a self selfAddr block v s cycle :
  uid_decode data = Some a → ID a ≠ ID self → selfAddr ≠ "x" → selfAddr ≠ "y" →
  b_PrepareSigsBitmap block = Some [6%Z] → b_PrepareSigs block = Some [s; s] →
  verifySignatureWithOverlap v (u_RootID a) (b_BlockHash block) s cycle = true →
  ∃ peers, parsePeers (fun _ => Some data) "x=a,y=a" (Some self) selfAddr = Ok peers ∧ length peers = 3 ∧
    verifyPrepareQuorum block peers cycle (Some v) = true.
Proof.
  intros Hu Hid Hx Hy Hbm Hsigs Hv.
  exists [MkPeer self selfAddr true; MkPeer a "x" true; MkPeer a "y" true]. split_and!; [|done|].
  - apply parsePeers_Ok; [done|]. eexists. split; [reflexivity|]. split_and!; [|done|].
    + change (splitList (TrimSpace "x=a,y=a")) with ["x=a"; "y=a"].
      constructor; [|constructor; [|constructor]]; exists "a", data; by split_and!.
    + cbn. repeat (apply NoDup_cons; split); [set_solver|set_solver|set_solver|apply NoDup_nil_2].
  - unfold verifyPrepareQuorum. rewrite Hbm, Hsigs. cbn [prepare_loop length Nat.mul Nat.add Nat.leb].
    change (bit_at [6%Z] 0) with false. change (bit_at [6%Z] 1) with true. change (bit_at [6%Z] 2) with true.
    cbn [negb verify_peer_sig p_UID].
    change (countBitsBefore [6%Z] 1) with 0. change (countBitsBefore [6%Z] 2) with 1.
    cbn [lookup list_lookup nth_error]. rewrite ?Hv. by destruct (is_degraded_block block).
Qed.

(** ** The node that the flags build *)

Section node.
Context `{Primitives, Cbor, Ristretto, Gonum, StateCbor, SubmitJson, UidDecode}.

Lemma server_options_Ok read p2p fl uid opts : server_options read p2p fl uid = Ok opts ↔
  if String.eqb (TrimSpace (df_peers fl)) "" then opts = [GrpcAllowSimulated (df_allowSimulated fl)]
  else p2p = true ∧ ∃ peers, parsePeers read (df_peers fl) (Some uid) (df_nodeID fl) = Ok peers ∧
    opts = [GrpcAllowSimulated (df_allowSimulated fl); WithPeers peers; WithGossip true].
Proof.
  unfold server_options. destruct (String.eqb _ ""); [split; congruence|]. rewrite bind_Ok. split.
  - intros (peers & Hp & [Hn%negb_false_iff [= <-]]%fail_if_pass). eauto.
  - intros [-> (peers & Hp & ->)]. exists peers. by split.
Qed.

Lemma parsePeers_nonempty read spec uid addr peers : TrimSpace spec ≠ "" →
  parsePeers read spec (Some uid) addr = Ok peers → (length peers =? 0)%nat = false.
Proof.
  intros Hne. unfold parsePeers. rewrite (proj2 (String.eqb_neq _ _) Hne), bind_Ok.
  intros (ps & _ & [Hl%Nat.ltb_ge [= ->]]%fail_if_pass). apply Nat.eqb_neq. lia.
Qed.

(** A node that starts has the identity of its file, which is not a simulated one unless
    that was allowed; without peers it is a single node, and with peers an engine over the
    list of [parsePeers] with the gossip transport. *)
Lemma daemon_node read dir startTime p2p fl srv e rest :
  daemon_main read dir startTime p2p fl = Ok (srv, e, rest) →
  ∃ data uid, read (df_uidFile fl) = Some data ∧ uid_decode data = Some uid ∧
    (df_allowSimulated fl = false → u_Simulated uid = false) ∧
    let node := {| n_UID := uid; n_Peers := []; n_Addr := df_nodeID fl |} in
    if String.eqb (TrimSpace (df_peers fl)) "" then e = NewEngine node defaultCycleInterval
    else ∃ peers, parsePeers read (df_peers fl) (Some uid) (df_nodeID fl) = Ok peers ∧
      e = NewEngineWithPeers node defaultCycleInterval true (Some peers).
Proof.
  unfold daemon_main. intros (_ & (_ & Hr)%fail_if_pass)%fail_if_pass.
  destruct (read (df_uidFile fl)) as [data|]; [|done]. destruct (uid_decode data) as [uid|] eqn:Eu; [|done].
  apply bind_Ok in Hr as (opts & Hopts & Hr). apply bind_Ok in Hr as (srv' & Hs & Hr).
  apply bind_Ok in Hr as (rest' & _ & [= _ <- _]). exists data, uid. split; [done|]. split; [done|].
  apply server_options_Ok in Hopts. destruct (String.eqb (TrimSpace (df_peers fl)) "") eqn:Ep.
  - subst opts. unfold Grpc_NewServer in Hs. cbn -[NewEngine NewEngineWithPeers Registry.Register] in Hs.
    destruct (negb (df_allowSimulated fl) && u_Simulated uid) eqn:Esim; [done|]. injection Hs as <-.
    split; [|done]. intros Ha. by rewrite Ha in Esim.
  - destruct Hopts as [_ (peers & Hp & ->)]. unfold Grpc_NewServer in Hs.
    cbn -[NewEngine NewEngineWithPeers Registry.Register Nat.ltb Nat.eqb] in Hs.
    destruct (negb (df_allowSimulated fl) && u_Simulated uid) eqn:Esim; [done|].
    apply String.eqb_neq in Ep. rewrite (parsePeers_nonempty _ _ _ _ _ Ep Hp), andb_false_r in Hs. injection Hs as <-.
    split; [intros Ha; by rewrite Ha in Esim|]. by exists peers.
Qed.
End node.

(** ** Concrete instance *)

#[local] Instance demo_decode : UidDecode := {|
  uid_decode data := match data with [k] => Some (demo_uid k) | _ => None end;
|}.

Definition demo_read (path : string) : option bytes :=
  if String.eqb path "two.cbor" then Some [2%Z] else if String.eqb path "three.cbor" then Some [3%Z] else None.

Lemma parse_peers_spec_witness :
  parsePeers demo_read " b=two.cbor, c=three.cbor" (Some (demo_uid 1)) "a" =
  Ok [MkPeer (demo_uid 1) "a" true; MkPeer (demo_uid 2) "b" true; MkPeer (demo_uid 3) "c" true].
Proof.
  apply parse_peers_spec.
  assert (E : String.eqb (TrimSpace " b=two.cbor, c=three.cbor") "" = false) by (vm_compute; reflexivity). rewrite E.
  exists (demo_uid 1), [MkPeer (demo_uid 2) "b" true; MkPeer (demo_uid 3) "c" true].
  split; [reflexivity|]. split; [reflexivity|]. split_and!.
  - constructor; [|constructor; [|constructor]].
    + exists "two.cbor", [2%Z]. split_and!; try reflexivity. vm_compute. discriminate.
    + exists "three.cbor", [3%Z]. split_and!; try reflexivity. vm_compute. discriminate.
  - discriminate.
  - apply (bool_decide_eq_true_1 (NoDup _)). vm_compute. reflexivity.
Defined.
