(* ===== verification/Client.v ===== *)
(** * The Go client (client/client.go)

    The calls of a client on a server: a call is the server's handler followed by the
    conversion of its response. Dialling is left out. [BlockTime] of a submission is 0 in
    every response of the server. *)
From Stdlib Require Import SpecFloat.
From S2P Require Import Prelude Crypto Smt Errors Vrf Identity Chain Config Rotation Mandates Quorum Gossip.
From S2P Require Import State Engine EngineCycle EngineApi Rest Grpc.

Record Ticket := MkTicket {
  tc_Hash : bytes;
  tc_Status : status_text;
  tc_BlockTime : Z;
  tc_ErrorCode : string;
}.

(** The client's [AnchorProof]: the proof of the server without its siblings. *)
Record ClientProof := MkClientProof {
  cp_Found : bool;
  cp_BlockIndex : Z;
  cp_BlockTime : Z;
  cp_StateRoot : bytes;
  cp_Submitter : bytes;
  cp_Label : string;
}.

Record ClientHealth := MkClientHealth {
  ch_NodeID : string;
  ch_Status : string;
  ch_Height : Z;
  ch_Lambda1 : spec_float;
  ch_Peers : Z;
  ch_Pending : Z;
}.

Definition anchorProofFromPB (p : pb_AnchorProof) : ClientProof :=
  {| cp_Found := pp_Found p; cp_BlockIndex := pp_BlockIndex p; cp_BlockTime := pp_BlockTime p;
     cp_StateRoot := pp_StateRoot p; cp_Submitter := pp_Submitter p; cp_Label := pp_Label p |}.

Section client.
Context `{Primitives, Cbor, Ristretto, Gonum, StateCbor} {bus : Type} `{GossipChannel bus}.
Context (env : nat → bus → bus) (clock : nat → Z) (s : GrpcServer).

Local Notation M := (M (bus := bus)).
Local Notation "'let*' x ':=' m 'in' k" := (mbind m (fun x => k)) (at level 200, x name, right associativity).

Definition ticket_of (hash : bytes) (resp : pb_SubmitResponse) : Ticket :=
  {| tc_Hash := hash; tc_Status := sp_Status resp; tc_BlockTime := 0; tc_ErrorCode := sp_ErrorCode resp |}.

Definition Client_Submit (identity : option UIDZeroSoulbound) (hash : bytes) (label : string) : M Ticket :=
  let* ts := now clock in
  let* resp := SubmitHash env clock s (client_request identity hash label ts) in
  ret (ticket_of hash resp).

Definition Client_SubmitSigned (hash submitter : bytes) (label : string) (approver reference : bytes)
    (signer : UIDZeroSoulbound) : M Ticket :=
  let* ts := now clock in
  let* resp := SubmitHash env clock s (signed_request hash submitter label approver reference signer ts) in
  ret (ticket_of hash resp).

Definition Client_WaitForAnchor (ticks : list Engine) (hash : bytes) : reply ClientProof :=
  match Grpc_WaitForAnchor ticks hash with
  | inl err => inl err
  | inr resp => inr (anchorProofFromPB resp)
  end.

Definition Client_Verify (e : Engine) (hash : bytes) : ClientProof := anchorProofFromPB (VerifyHash e hash).

Definition Client_Health (e : Engine) : ClientHealth :=
  let resp := Grpc_GetHealth s e in
  {| ch_NodeID := ph_NodeId resp; ch_Status := ph_Status resp; ch_Height := ph_BlockHeight resp; ch_Lambda1 := ph_Lambda1 resp;
     ch_Peers := clampToInt (ph_ActivePeers resp); ch_Pending := clampToInt (ph_PendingHashes resp) |}.

(** Root and block. *)
Definition Client_StateRoot (e : Engine) : bytes * Z :=
  let '(root, block, _) := GetCurrentStateRoot e in (root, block).
End client.
