(* ===== verification/NodeTheorems.v ===== *)
(** * A node from its flags to a verified hash

    The daemon, the gRPC server, the client, the engine and the light client together. *)
From Stdlib Require Import SpecFloat.
From S2P Require Import Prelude Crypto Toy Sha256 Smt Errors Vrf Identity IdentityTheorems Chain ToyCbor.
From S2P Require Import ChainTheorems Config Rotation Mandates Quorum QuorumTheorems LightClient.
From S2P Require Import LightTheorems Gossip State StateTheorems Engine EngineCycle EngineApi EngineFrame.
From S2P Require Import Demo EngineTheorems CycleTheorems SoloTheorems ApiTheorems SoloChain.
From S2P Require Import Rest RestTheorems Grpc GrpcTheorems Daemon DaemonTheorems Client.

Section node.
Context `{Primitives, Cbor, Ristretto, Gonum, StateCbor, SubmitJson, UidDecode} `{!MldsaCorrect, !RistrettoLaws}
  {bus : Type} `{GossipChannel bus}.
Context (env : nat → bus → bus) (clock : nat → Z) (patience : nat → nat).
Context (Hroot_total : ∀ c n g l, is_Some (cbor_root_state c n g l)).

Local Notation World := (World (bus := bus)).

(** A pending ticket means that the engine admitted the entry. *)
Lemma Client_Submit_pending s identity hash label (w w1 : World) ticket :
  Client_Submit env clock s identity hash label w = (w1, Ok ticket) → tc_Status ticket = StText "pending" →
  let w0 := {| w_eng := w_eng w; w_bus := w_bus w; w_step := S (w_step w) |} in
  Enqueue env clock (request_entry (client_request identity hash label (clock (w_step w)))) w0 = (w1, Ok tt).
Proof.
  unfold Client_Submit, mbind, now, ret. cbv zeta. unfold SubmitHash.
  destruct (authenticateSubmit _ _) as [[]|er|]; [| |done].
  2:{ intros [= <- <-]. done. }
  destruct (Enqueue env clock _ _) as [w' [[]|er|]]; [|by intros [= <- <-]|done]. by intros [= <- <-].
Qed.

(** A cycle after an admitted submission makes the hash verifiable. *)
Lemma submitted_found u s identity hash label (w w1 : World) ticket pf :
  uid_wf u → good u w → (Z.of_nat (length (en_blocks (w_eng w))) < 2 ^ 64)%Z → length hash = 32 →
  Client_Submit env clock s identity hash label w = (w1, Ok ticket) → tc_Status ticket = StText "pending" →
  VRFProve u (makeAlpha (nextCycleLocked (w_eng w)) (Smt.Root (en_st (w_eng w)))) = Ok pf →
  good u w1 ∧ cp_Found (Client_Verify (w_eng (RunCycle env clock patience w1)) hash) = true.
Proof.
  intros Hu Hg Hlen Hh Hsub Hpend Hp. pose proof (Client_Submit_pending _ _ _ _ _ _ _ Hsub Hpend) as Hq. cbv zeta in Hq.
  set (entry := request_entry _) in Hq. set (w0 := {| w_eng := w_eng w; w_bus := w_bus w; w_step := S (w_step w) |}) in Hq.
  pose proof (Enqueue_cases env clock entry w0) as Ho. rewrite Hq in Ho.
  destruct Ho as (_ & _ & _ & _ & _ & _ & _ & _ & Hpool & _).
  pose proof (Enqueue_core env clock entry w0) as Hcore. rewrite Hq in Hcore. cbn [fst] in Hcore.
  pose proof (sc_ledger _ _ Hcore) as Hled. change (w_eng w0) with (w_eng w) in *.
  destruct (gd_chain _ _ Hg Hlen) as [Hacc _].
  assert (He : e_Hash entry = hash).
  { unfold entry. cbn [request_entry e_Hash]. destruct identity; cbn [client_request sq_Hash]; by apply copy_array_id. }
  split.
  - split; [by apply (solo_same_core _ _ _ Hcore), Hg|]. unfold en_blocks. rewrite Hled. apply Hg.
  - assert (Hanch : is_Some (LookupHash (w_eng (RunCycle env clock patience w1)) hash)).
    { rewrite <- He. apply (solo_cycle_anchors env clock patience u Hu Hroot_total w1 pf entry);
        [by apply (solo_same_core _ _ _ Hcore), Hg|..].
      - unfold en_blocks in *. by rewrite Hled.
      - unfold en_blocks in *. by rewrite Hled.
      - unfold nextCycleLocked, en_blocks, en_state, en_st in *. by rewrite Hled.
      - rewrite Hpool. apply elem_of_app. right. apply elem_of_app. right. by left.
      - by rewrite He. }
    unfold Client_Verify, VerifyHash. rewrite copy_array_id by done. by destruct Hanch as [proof ->].
Qed.

(** C1: From flags to a verified hash. A daemon started without peers builds a node whose
    identity is that of its file. Take any history of submissions, mandates, configuration
    changes and cycles, without key rotations. A hash that a client then submits and that is
    answered with a pending ticket is found by the client's [Verify] after the next cycle,
    provided the node can compute its VRF proof for that cycle, and the chain that then holds
    it is followed by a light client that was given the node's public key only. *)
Theorem node_end_to_end read dir startTime p2p fl srv e rest u data :
  daemon_main read dir startTime p2p fl = Ok (srv, e, rest) →
  Rest.TrimSpace (df_peers fl) = "" → read (df_uidFile fl) = Some data → uid_decode data = Some u → uid_wf u →
  ∀ ops (b : bus) n identity hash label w1 ticket pf,
  let w := solo_run env clock patience ops {| w_eng := e; w_bus := b; w_step := n |} in
  let w2 := RunCycle env clock patience w1 in
  Client_Submit env clock srv identity hash label w = (w1, Ok ticket) → tc_Status ticket = StText "pending" →
  length hash = 32 → (Z.of_nat (length (en_blocks (w_eng w2))) < 2 ^ 64)%Z →
  VRFProve u (makeAlpha (nextCycleLocked (w_eng w)) (Smt.Root (en_st (w_eng w)))) = Ok pf →
  cp_Found (Client_Verify (w_eng w2) hash) = true ∧ followed u (en_blocks (w_eng w2)).
Proof.
  intros Hmain Hnop Hread Hdec Hu ops b n identity hash label w1 ticket pf w w2 Hsub Hpend Hh Hlen Hp.
  destruct (daemon_node _ _ _ _ _ _ _ _ Hmain) as (data' & u' & Hr' & Hd' & _ & He).
  rewrite Hread in Hr'. injection Hr' as <-. rewrite Hdec in Hd'. injection Hd' as <-.
  rewrite Hnop in He. cbn [String.eqb] in He. subst e.
  assert (Hg : good u w).
  { apply (good_run env clock patience u Hu Hroot_total). split; [by apply NewEngine_solo|].
    intros _. split; [constructor|]. by intros i x Hx. }
  pose proof (Client_Submit_pending _ _ _ _ _ _ _ Hsub Hpend) as Hq. cbv zeta in Hq.
  assert (Hlen1 : (length (en_blocks (w_eng w)) ≤ length (en_blocks (w_eng w2)))%nat).
  { pose proof (Enqueue_core env clock (request_entry (client_request identity hash label (clock (w_step w))))
      {| w_eng := w_eng w; w_bus := w_bus w; w_step := S (w_step w) |}) as Hcore. rewrite Hq in Hcore. cbn [fst] in Hcore.
    assert (Hb1 : en_blocks (w_eng w1) = en_blocks (w_eng w))
      by (unfold en_blocks; by rewrite (sc_ledger _ _ Hcore)).
    assert (Hs1 : solo u (w_eng w1)) by (apply (solo_same_core _ _ _ Hcore), Hg).
    destruct (cycle_blocks env clock patience u Hu Hroot_total w1 Hs1) as [_ [Hb|(block & Hb & _)]];
      unfold w2; rewrite Hb, Hb1; rewrite ?length_app; lia. }
  destruct (submitted_found u srv identity hash label w w1 ticket pf Hu Hg ltac:(lia) Hh Hsub Hpend Hp) as [Hg1 Hfound].
  split; [exact Hfound|].
  pose proof (good_step env clock patience u Hu Hroot_total DoCycle w1 Hg1) as Hg2. cbn [solo_do] in Hg2.
  by apply (gd_chain _ _ Hg2).
Qed.
End node.

(** ** Concrete instance *)

#[local] Instance node_decode : UidDecode := {|
  uid_decode data := match data with [k] => Some (demo_uid k) | _ => None end;
|}.

Definition node_flags : daemon_flags := MkDaemonFlags "me.cbor" "n1" " " "" "" 100 true.

Definition node_started : outcome gerror (GrpcServer * Engine * RestServer) :=
  daemon_main (fun _ => Some [7%Z]) (fun _ => None) 0 false node_flags.

Definition pending_ticket (t : Ticket) : bool :=
  match tc_Status t with StText s => String.eqb s "pending" | StError _ => false end.

Definition node_run_ok (o : outcome gerror (GrpcServer * Engine * RestServer)) : bool :=
  match o with
  | Ok (srv, e, _) =>
      let w := {| w_eng := e; w_bus := NewMemoryBus; w_step := 0 |} in
      match Client_Submit demo_env demo_clock srv (Some (demo_uid 7)) (key32 9) "build" w with
      | (w1, Ok t) => pending_ticket t && (length (en_blocks (w_eng (RunCycle demo_env demo_clock demo_patience w1))) =? 1)%nat
      | _ => false
      end &&
      match VRFProve (demo_uid 7) (makeAlpha (nextCycleLocked e) (Smt.Root (en_st e))) with Ok _ => true | _ => false end
  | _ => false
  end.

Lemma node_run : ∃ o, node_started = o ∧ node_run_ok o = true.
Proof. exists node_started. split; [reflexivity|]. vm_compute. reflexivity. Qed.

Lemma node_end_to_end_witness : ∃ srv e rest w1 ticket,
  node_started = Ok (srv, e, rest) ∧
  Client_Submit demo_env demo_clock srv (Some (demo_uid 7)) (key32 9) "build"
    {| w_eng := e; w_bus := NewMemoryBus; w_step := 0 |} = (w1, Ok ticket) ∧
  cp_Found (Client_Verify (w_eng (RunCycle demo_env demo_clock demo_patience w1)) (key32 9)) = true.
Proof.
  destruct node_run as (o & Ho & Hok). destruct o as [[[srv e] rest]|er|]; [|discriminate Hok..].
  unfold node_run_ok in Hok. apply andb_true_iff in Hok as [Hsub Hvrf].
  destruct (Client_Submit demo_env demo_clock srv (Some (demo_uid 7)) (key32 9) "build" _) as [w1 [t|er|]] eqn:Es;
    [|discriminate Hsub..].
  apply andb_true_iff in Hsub as [Ht Hlen]. apply Nat.eqb_eq in Hlen.
  destruct (VRFProve (demo_uid 7) _) as [pf|er|] eqn:Ev; [|discriminate Hvrf..].
  exists srv, e, rest, w1, t. split; [exact Ho|]. split; [exact Es|].
  refine (proj1 (node_end_to_end demo_env demo_clock demo_patience toy_root_total
    (fun _ => Some [7%Z]) (fun _ => None) 0 false node_flags srv e rest (demo_uid 7) [7%Z] Ho _ _ _ demo_uid_wf
    [] NewMemoryBus 0 (Some (demo_uid 7)) (key32 9) "build" w1 t pf Es _ _ _ Ev)).
  - reflexivity.
  - reflexivity.
  - reflexivity.
  - unfold pending_ticket in Ht. destruct (tc_Status t) as [s|]; [|discriminate Ht]. apply String.eqb_eq in Ht. by rewrite Ht.
  - reflexivity.
  - rewrite Hlen. reflexivity.
Defined.
