(* ===== verification/Conformance.v ===== *)
(** * The conformance suite (cmd/conformance-test)

    The test cases as programs against the client stub, each returning its result. The stub
    is the class [AnchorClient] over a state of the world outside the runner; a call fails or
    answers. Detail texts and latencies, which are printed only, are left out, and so is what
    reads only them. A program without a result is a crash of the runner, which happens
    where the code dereferences the nil response of a failed call or slices a field that is
    too short. *)
From Stdlib Require Import SpecFloat Ascii.
From S2P Require Import Prelude Crypto Sha256 Smt Errors Vrf Identity Chain Config State Engine Rest Grpc.
Local Open Scope string_scope.

Definition smtDepth : nat := 256.
Definition labelPrefix : string := "conf-".

Record TestResult := MkTestResult {
  tr_Name : string;
  tr_TC : string;
  tr_Gap : string;
  tr_Passed : bool;
}.

(** The stub, the wall clock and the source of random bytes. [WaitForAnchor] takes its
    timeout in seconds. *)
Class AnchorClient (S : Type) := {
  call_SubmitHash : pb_SubmitRequest → S → S * reply pb_SubmitResponse;
  call_WaitForAnchor : Z → bytes → S → S * reply pb_AnchorProof;
  call_VerifyHash : bytes → S → S * reply pb_AnchorProof;
  call_GetHealth : S → S * reply pb_Health;
  call_GetCurrentStateRoot : S → S * reply (bytes * Z * spec_float);
  call_GetBlock : Z → S → S * reply pb_Block;
  call_StreamBlocks : Z → Z → S → S * reply (list pb_Block);
  unix_nano : S → S * Z;
  rand_bytes : nat → S → S * bytes;
}.

Section suite.
Context `{Primitives} {S : Type} `{AnchorClient S}.

(** A program of the runner: the state after it, and its value unless the runner crashed. *)
Definition session (A : Type) : Type := S → S * option A.

Definition done {A} (a : A) : session A := fun s => (s, Some a).
Definition crash {A} : session A := fun s => (s, None).
Definition seq_bind {A B} (m : session A) (k : A → session B) : session B :=
  fun s => match m s with (s', Some a) => k a s' | (s', None) => (s', None) end.
Definition call {A} (f : S → S * A) : session A := fun s => let '(s', a) := f s in (s', Some a).

Local Notation "'let!' x ':=' m 'in' k" := (seq_bind m (fun x => k)) (at level 200, x name, right associativity).

Definition pass (tc gap name : string) : session TestResult := done (MkTestResult name tc gap true).
Definition fail (tc gap name : string) : session TestResult := done (MkTestResult name tc gap false).

Definition randomHash : session bytes := call (rand_bytes 32).
Definition now_nano : session Z := call unix_nano.
Definition submit (req : pb_SubmitRequest) : session (reply pb_SubmitResponse) := call (call_SubmitHash req).
Definition wait (seconds : Z) (hash : bytes) : session (reply pb_AnchorProof) := call (call_WaitForAnchor seconds hash).
Definition verify (hash : bytes) : session (reply pb_AnchorProof) := call (call_VerifyHash hash).
Definition get_block (index : Z) : session (reply pb_Block) := call (call_GetBlock index).

(** The signing function of the suite. *)
Definition cf_signPayload (uid : UIDZeroSoulbound) (hash submitter : bytes) (ts : Z) (label : string) : bytes :=
  let tsLE := le_bytes 8 (u64 ts) in
  SignDilithium (u_SecretKey uid) (hash ++ submitter ++ tsLE ++ string_bytes label)%list.

Context (uid : UIDZeroSoulbound).

(** A request of the validator's identity. *)
Definition own_request (hash : bytes) (ts : Z) (label : string) (approver reference sig : bytes) : pb_SubmitRequest :=
  {| sq_Hash := hash; sq_Submitter := u_RootID uid; sq_Timestamp := ts; sq_Label := label; sq_Approver := approver;
     sq_Reference := reference; sq_Signature := sig |}.

(** Time, signature and call, as nearly every case has them. *)
Definition submit_signed (hash : bytes) (label : string) (approver reference : bytes) : session (reply pb_SubmitResponse) :=
  let! ts := now_nano in
  submit (own_request hash ts label approver reference (cf_signPayload uid hash (u_RootID uid) ts label)).

(** [err != nil || !resp.Accepted]. *)
Definition refused_or_failed (r : reply pb_SubmitResponse) : bool :=
  match r with inl _ => true | inr resp => negb (sp_Accepted resp) end.

(** ** main.go *)

Definition waitForReady_once : session bool :=
  let! r := call call_GetHealth in
  done (match r with inr h => String.eqb (ph_Status h) "running" | inl _ => false end).

(** [waitForReady], with the number of attempts that fit into the deadline. *)
Fixpoint waitForReady (attempts : nat) : session unit :=
  match attempts with
  | O => done tt
  | Datatypes.S attempts => let! ready := waitForReady_once in if ready : bool then done tt else waitForReady attempts
  end.

Definition tc01SubmitValid : session TestResult :=
  let! hash := randomHash in
  let! r := submit_signed hash (labelPrefix ++ "tc01") [] [] in
  match r with
  | inl _ => fail "TC01" "G3" "SubmitHash authenticated"
  | inr resp =>
      if negb (sp_Accepted resp) then fail "TC01" "G3" "SubmitHash authenticated"
      else pass "TC01" "G3" "SubmitHash authenticated"
  end.

(** The three cases that expect a refusal with a code. *)
Definition expect_code (tc gap name code : string) (r : reply pb_SubmitResponse) : session TestResult :=
  match r with
  | inl _ => fail tc gap name
  | inr resp =>
      if sp_Accepted resp then fail tc gap name
      else if negb (String.eqb (sp_ErrorCode resp) code) then fail tc gap name
      else pass tc gap name
  end.

Definition tc02NoSignature : session TestResult :=
  let! hash := randomHash in
  let! ts := now_nano in
  let! r := submit (own_request hash ts (labelPrefix ++ "tc02") [] [] []) in
  expect_code "TC02" "G3" "SubmitHash no signature" "INVALID_SIGNATURE" r.

Definition tc03BadSignature : session TestResult :=
  let! hash := randomHash in
  let! ts := now_nano in
  let! r := submit (own_request hash ts (labelPrefix ++ "tc03") [] [] (replicate Dilithium3SignatureSize 66%Z)) in
  expect_code "TC03" "G3" "SubmitHash bad signature" ErrCodeInvalidSignature r.

Definition tc04UnknownSubmitter : session TestResult :=
  let! unknownID := call (rand_bytes 16) in
  let! hash := randomHash in
  let! ts := now_nano in
  let! r := submit {| sq_Hash := hash; sq_Submitter := unknownID; sq_Timestamp := ts; sq_Label := labelPrefix ++ "tc04";
                      sq_Approver := []; sq_Reference := []; sq_Signature := [] |} in
  expect_code "TC04" "G3" "SubmitHash unknown submitter" ErrCodeSubmitterMismatch r.

Definition tc05ZeroHash : session TestResult :=
  let! r := submit_signed (zeros 32) (labelPrefix ++ "tc05") [] [] in
  expect_code "TC05" "-" "Zero hash rejected" ErrCodeInvalidHash r.

(** The siblings of a served path, 32 bytes each. *)
Fixpoint proof_siblings (n : nat) (data : bytes) : list bytes :=
  match n with
  | O => []
  | Datatypes.S n => if (length data <? 32)%nat then [] else take 32 data :: proof_siblings n (drop 32 data)
  end.

(** The check of a served path against a root, with a tree of the suite's own. *)
Definition path_verifies (hash root path : bytes) : bool :=
  Smt.Verify (New smtDepth) (copy_array 32 hash) (copy_array 32 hash) (copy_array 32 root)
    (proof_siblings (length path) path).

Definition tc06FullLifecycle : session TestResult :=
  let bad := fail "TC06" "G4" "Submit→Wait→Verify" in
  let! hash := randomHash in
  let! r := submit_signed hash (labelPrefix ++ "tc06") [] [] in
  if refused_or_failed r then bad
  else
    let! w := wait 30 hash in
    match w with
    | inl _ => bad
    | inr proof =>
        if negb (pp_Found proof) then bad
        else
          let! v := verify hash in
          match v with
          | inl _ => bad
          | inr verifyResp =>
              if negb (pp_Found verifyResp) then bad
              else if (length (pp_SmtProof verifyResp) =? 0)%nat then bad
              else if negb (path_verifies hash (pp_StateRoot verifyResp) (pp_SmtProof verifyResp)) then bad
              else if (length (pp_StateRoot proof) <? 8)%nat then crash
              else pass "TC06" "G4" "Submit→Wait→Verify"
          end
    end.

Definition tc07VerifyNonexistent : session TestResult :=
  let! hash := randomHash in
  let! v := verify hash in
  match v with
  | inl _ => fail "TC07" "-" "VerifyHash nonexistent"
  | inr resp => if pp_Found resp then fail "TC07" "-" "VerifyHash nonexistent" else pass "TC07" "-" "VerifyHash nonexistent"
  end.

Definition tc08Health : session TestResult :=
  let! r := call call_GetHealth in
  match r with
  | inl _ => fail "TC08" "-" "GetHealth"
  | inr h => if negb (String.eqb (ph_Status h) "running") then fail "TC08" "-" "GetHealth" else pass "TC08" "-" "GetHealth"
  end.

Definition tc09StateRoot : session TestResult :=
  let! r := call call_GetCurrentStateRoot in
  match r with
  | inl _ => fail "TC09" "-" "GetCurrentStateRoot"
  | inr (root, _, _) =>
      if negb (length root =? 32)%nat then fail "TC09" "-" "GetCurrentStateRoot" else pass "TC09" "-" "GetCurrentStateRoot"
  end.

Definition tc10GetBlock : session TestResult :=
  let! r := get_block 0 in
  match r with
  | inl _ => fail "TC10" "-" "GetBlock(0)"
  | inr b =>
      if (length (pk_StateRoot b) =? 0)%nat then fail "TC10" "-" "GetBlock(0)"
      else if (length (pk_Proposer b) <? 8)%nat then crash
      else pass "TC10" "-" "GetBlock(0)"
  end.

(** The first entry of a served block with this hash. *)
Fixpoint find_entry (hash : bytes) (es : list pb_Entry) : option pb_Entry :=
  match es with
  | [] => None
  | e :: es => if bool_decide (pe_Hash e = hash) then Some e else find_entry hash es
  end.

(** [gaps] after the entry was found: what is missing of approver and reference. *)
Definition entry_gaps (e : pb_Entry) (approver reference : bytes) : string :=
  if (length (pe_Approver e) =? 0)%nat then "G1(approver missing)"
  else if negb (bool_decide (pe_Approver e = approver)) then "G1(approver mismatch: %x != %x)"
  else if (length (pe_Reference e) =? 0)%nat then "G2(reference missing)"
  else if negb (bool_decide (pe_Reference e = reference)) then "G2(reference mismatch: %x != %x)"
  else "".

(** The retry loop of TC11: [inl] when the last attempt failed, the entry if one was found. *)
Fixpoint tc11_retry (retries : nat) (index : Z) (hash : bytes) : session (unit + option pb_Entry) :=
  match retries with
  | O => done (inr None)
  | Datatypes.S rest =>
      let! r := get_block index in
      match r with
      | inl _ => if (rest =? 0)%nat then done (inl tt) else tc11_retry rest index hash
      | inr b =>
          match find_entry hash (pk_Anchored b) with
          | Some e => done (inr (Some e))
          | None => tc11_retry rest index hash
          end
      end
  end.

Definition tc11_approver : bytes := string_bytes "approver-test-42".
Definition tc11_reference : bytes := [1; 2; 3; 4; 5; 6; 7; 8]%Z.

Definition tc11ApproverReference : session TestResult :=
  let bad := fail "TC11" "G1+G2" "Approver+Reference" in
  let! hash := randomHash in
  let! r := submit_signed hash (labelPrefix ++ "tc11") tc11_approver tc11_reference in
  if refused_or_failed r then bad
  else
    let! w := wait 30 hash in
    match w with
    | inl _ => bad
    | inr proof =>
        if negb (pp_Found proof) then bad
        else
          let! v := verify hash in
          match v with
          | inl _ => bad
          | inr _ =>
              let! found := tc11_retry 5 (pp_BlockIndex proof) hash in
              match found with
              | inl _ | inr None => bad
              | inr (Some e) =>
                  if (0 <? String.length (entry_gaps e tc11_approver tc11_reference))%nat then bad
                  else pass "TC11" "G1+G2" "Approver+Reference"
              end
          end
    end.

Definition tc12WaitTimeout : session TestResult :=
  let! hash := randomHash in
  let! w := wait 2 hash in
  match w with
  | inr _ => fail "TC12" "G5" "WaitForAnchor timeout"
  | inl _ => pass "TC12" "G5" "WaitForAnchor timeout"
  end.

(** ** Helpers of scenarios.go *)

Definition submitAndWait (hash : bytes) (label : string) : session (option Z) :=
  let! r := submit_signed hash label [] [] in
  if refused_or_failed r then done None
  else
    let! w := wait 30 hash in
    match w with
    | inl _ => done None
    | inr proof => done (if negb (pp_Found proof) then None else Some (pp_BlockIndex proof))
    end.

(** The loop of [entryInBlock]; it reports no error. *)
Fixpoint entry_retry (retries : nat) (index : Z) (hash : bytes) : session bool :=
  match retries with
  | O => done false
  | Datatypes.S rest =>
      let! r := get_block index in
      match r with
      | inl _ => entry_retry rest index hash
      | inr b => if bool_decide (is_Some (find_entry hash (pk_Anchored b))) then done true else entry_retry rest index hash
      end
  end.

Definition entryInBlock (index : Z) (hash : bytes) : session bool := entry_retry 5 index hash.

(** ** extended.go: submission *)

Definition a1WrongLengthHash : session TestResult :=
  let! r := submit_signed (zeros 16) "a1-short" [] [] in
  match r with
  | inl _ => pass "A1" "-" "Hash wrong length (short)"
  | inr resp =>
      if sp_Accepted resp then pass "A1" "-" "Hash wrong length (short)" else pass "A1" "-" "Hash wrong length (short)"
  end.

(** A string of zero bytes. *)
Definition zero_string (n : positive) : string := Pos.iter (String "000"%char) "" n.

Definition a2_labels : list string := [""; "a"; "São Paulo — 总结"; zero_string 1024].

Fixpoint a2_loop (labels : list string) : session TestResult :=
  match labels with
  | [] => pass "A2" "-" "Label edge cases"
  | label :: labels =>
      let! hash := randomHash in
      let! r := submit_signed hash label [] [] in
      match r with
      | inl _ => pass "A2" "-" "Label edge cases"
      | inr resp =>
          if negb (sp_Accepted resp) && String.eqb label "" then pass "A2" "-" "Label edge cases" else a2_loop labels
      end
  end.

Definition a2LabelEdgeCases : session TestResult := a2_loop a2_labels.

Definition a4EntryNonRepudiation : session TestResult :=
  let bad := fail "A4" "G0" "Entry non-repudiation" in
  let entryPayload := sha256 (string_bytes "deployment-approval-v2.3.1") in
  let! _ts := now_nano in
  let! ts := now_nano in
  let! hash := randomHash in
  let! r := submit (own_request hash ts "a4-nonrepudiation" (u_RootID uid) entryPayload
                      (cf_signPayload uid hash (u_RootID uid) ts "a4-nonrepudiation")) in
  if refused_or_failed r then bad
  else
    let! b := submitAndWait hash "a4-wait" in
    match b with
    | None => bad
    | Some bidx =>
        let! found := entryInBlock bidx hash in
        if negb found then bad else pass "A4" "G0" "Entry non-repudiation"
    end.

Definition a6DedupAfterAnchor : session TestResult :=
  let! hash := randomHash in
  let! b := submitAndWait hash "a6-first" in
  match b with
  | None => fail "A6" "-" "Dedup after anchor"
  | Some _ =>
      let! r := submit_signed hash "a6-dup" [] [] in
      match r with
      | inl _ => pass "A6" "-" "Dedup after anchor"
      | inr resp => if sp_Accepted resp then pass "A6" "-" "Dedup after anchor" else pass "A6" "-" "Dedup after anchor"
      end
  end.

(** The failure message reads [proof.Found], also when there is no proof. *)
Definition a8WaitAlreadyAnchored : session TestResult :=
  let! hash := randomHash in
  let! b := submitAndWait hash "a8-first" in
  match b with
  | None => fail "A8" "-" "Wait already anchored"
  | Some _ =>
      let! w := wait 5 hash in
      match w with
      | inl _ => crash
      | inr proof => if negb (pp_Found proof) then fail "A8" "-" "Wait already anchored" else pass "A8" "-" "Wait already anchored"
      end
  end.

Definition a9VerifyBeforeAnchor : session TestResult :=
  let! hash := randomHash in
  let! r := submit_signed hash "a9-before" [] [] in
  if refused_or_failed r then fail "A9" "-" "Verify before anchor"
  else
    let! v := verify hash in
    match v with
    | inl _ => fail "A9" "-" "Verify before anchor"
    | inr resp => if pp_Found resp then fail "A9" "-" "Verify before anchor" else pass "A9" "-" "Verify before anchor"
    end.

(** ** extended.go: the chain *)

(** The loop of B1 from block [i], [n] blocks; the failure message reads the block. *)
Fixpoint b1_loop (n : nat) (i : Z) : session TestResult :=
  match n with
  | O => pass "B1" "-" "PrevHash chain integrity"
  | Datatypes.S n =>
      let! r := get_block i in
      match r with
      | inl _ => crash
      | inr b =>
          if (length (pk_StateRoot b) =? 0)%nat then fail "B1" "-" "PrevHash chain integrity"
          else if (0 <? i)%Z && (length (pk_PrevHash b) =? 0)%nat then fail "B1" "-" "PrevHash chain integrity"
          else b1_loop n (i + 1)
      end
  end.

Definition b1PrevHashChain : session TestResult :=
  let! r := call call_GetHealth in
  match r with
  | inl _ => fail "B1" "-" "PrevHash chain integrity"
  | inr h =>
      if (ph_BlockHeight h <? 2)%Z then pass "B1" "-" "PrevHash chain integrity" else b1_loop (Z.to_nat (ph_BlockHeight h)) 0
  end.

(** The bits set in a bitmap. *)
Definition count_bits (bitmap : bytes) : nat :=
  foldl (fun n byt => foldl (fun n bit => if Z.testbit byt (Z.of_nat bit) then Datatypes.S n else n) n (seq 0 8)) 0 bitmap.

Definition b5_required (b : pb_Block) : Z :=
  if (4 <=? length (pk_Validators b))%nat then ((2 * Z.of_nat (length (pk_Validators b)) + 2) / 3)%Z else pk_RequiredSigs b.

Definition b5_block_ok (b : pb_Block) : bool :=
  negb (Z.of_nat (length (pk_PrepareSigs b)) <? b5_required b)%Z &&
  (count_bits (pk_PrepareSigsBitmap b) =? length (pk_PrepareSigs b))%nat.

Fixpoint b5_loop (n : nat) (i : Z) : session TestResult :=
  match n with
  | O => pass "B5" "-" "Block signature quorum"
  | Datatypes.S n =>
      let! r := get_block i in
      match r with
      | inl _ => b5_loop n (i + 1)
      | inr b =>
          if (length (pk_StateRoot b) =? 0)%nat then b5_loop n (i + 1)
          else if negb (b5_block_ok b) then fail "B5" "-" "Block signature quorum"
          else b5_loop n (i + 1)
      end
  end.

Definition b5QuorumSigs : session TestResult :=
  let! r := call call_GetHealth in
  match r with
  | inl _ => fail "B5" "-" "Block signature quorum"
  | inr h =>
      if (ph_BlockHeight h =? 0)%Z then pass "B5" "-" "Block signature quorum" else b5_loop (Z.to_nat (ph_BlockHeight h)) 0
  end.

(** ** extended.go: proofs *)

Definition c2SmtProofVsBlockRoot : session TestResult :=
  let bad := fail "C2" "G4" "SMT proof vs block root" in
  let! hash := randomHash in
  let! b := submitAndWait hash "c2-proof" in
  match b with
  | None => bad
  | Some bidx =>
      let! v := verify hash in
      match v with
      | inl _ => bad
      | inr v =>
          if negb (pp_Found v) then bad
          else
            let! r := get_block bidx in
            match r with
            | inl _ => bad
            | inr b =>
                if (length (pk_StateRoot b) =? 0)%nat then bad
                else if negb (path_verifies hash (pk_StateRoot b) (pp_SmtProof v)) then bad
                else pass "C2" "G4" "SMT proof vs block root"
            end
      end
  end.

Definition c3DecisionChain : session TestResult :=
  let bad := fail "C3" "G0" "Decision chain" in
  let! hashA := randomHash in
  let! hashB := randomHash in
  let! a := submitAndWait hashA "c3-entry-a" in
  match a with
  | None => bad
  | Some _ =>
      let! r := submit_signed hashB "c3-entry-b" [] hashA in
      if refused_or_failed r then bad
      else
        let! b := submitAndWait hashB "c3-entry-b-wait" in
        match b with
        | None => bad
        | Some bidxB =>
            let! found := entryInBlock bidxB hashB in
            if negb found then bad
            else
              let! r := get_block bidxB in
              match r with
              | inl _ => bad
              | inr b =>
                  match find_entry hashB (pk_Anchored b) with
                  | Some e =>
                      if (length (pe_Reference e) =? 0)%nat || negb (bool_decide (pe_Reference e = hashA)) then bad
                      else pass "C3" "G0" "Decision chain"
                  | None => pass "C3" "G0" "Decision chain"
                  end
              end
        end
  end.

Definition c5EntrySigVerify : session TestResult :=
  let bad := fail "C5" "G0" "Entry signature verify" in
  let! hash := randomHash in
  let! b := submitAndWait hash "c5-wait" in
  match b with
  | None => bad
  | Some bidx =>
      let! r := get_block bidx in
      match r with
      | inl _ => bad
      | inr b =>
          match find_entry hash (pk_Anchored b) with
          | Some e =>
              if (length (pe_Submitter e) =? 0)%nat then bad
              else if (length (pe_Signature e) =? 0)%nat then bad
              else pass "C5" "G0" "Entry signature verify"
          | None => pass "C5" "G0" "Entry signature verify"
          end
      end
  end.

(** ** extended.go: errors and observability *)

(** A stream without blocks ends with an error on the first receive. *)
Definition d1StreamBlocks : session TestResult :=
  let! r := call (call_StreamBlocks 0 1) in
  match r with
  | inl _ | inr [] => pass "D1" "-" "StreamBlocks Unimplemented"
  | inr (_ :: _) => fail "D1" "-" "StreamBlocks Unimplemented"
  end.

Definition d3EmptySubmit : session TestResult :=
  let! r := submit {| sq_Hash := []; sq_Submitter := []; sq_Timestamp := 0; sq_Label := ""; sq_Approver := [];
                      sq_Reference := []; sq_Signature := [] |} in
  match r with
  | inl _ => pass "D3" "-" "Empty SubmitHash"
  | inr resp => if sp_Accepted resp then fail "D3" "-" "Empty SubmitHash" else pass "D3" "-" "Empty SubmitHash"
  end.

Definition d4LargePayload : session TestResult :=
  let! hash := randomHash in
  let! r := submit_signed hash (zero_string 1048576) [] [] in
  match r with
  | inl _ => pass "D4" "-" "Large payload"
  | inr resp => if sp_Accepted resp then fail "D4" "-" "Large payload" else pass "D4" "-" "Large payload"
  end.

Definition e1LambdaNonNegative : session TestResult :=
  let! r := call call_GetHealth in
  match r with
  | inl _ => fail "E1" "-" "Lambda1 non-negative"
  | inr h =>
      if SFltb (ph_Lambda1 h) (S754_zero false) then fail "E1" "-" "Lambda1 non-negative"
      else pass "E1" "-" "Lambda1 non-negative"
  end.

(** The message for a changed root prints eight bytes of each. *)
Definition e3StateRootChanges : session TestResult :=
  let! before := call call_GetCurrentStateRoot in
  match before with
  | inl _ => fail "E3" "-" "State root changes"
  | inr (rootBefore, indexBefore, _) =>
      let! hash := randomHash in
      let! b := submitAndWait hash "e3-check-root" in
      match b with
      | None => fail "E3" "-" "State root changes"
      | Some _ =>
          let! after := call call_GetCurrentStateRoot in
          match after with
          | inl _ => fail "E3" "-" "State root changes"
          | inr (rootAfter, indexAfter, _) =>
              if bool_decide (rootBefore = rootAfter) && negb (indexBefore =? indexAfter)%Z
              then pass "E3" "-" "State root changes"
              else if negb (bool_decide (rootBefore = rootAfter)) then
                if (length rootBefore <? 8)%nat || (length rootAfter <? 8)%nat then crash
                else pass "E3" "-" "State root changes"
              else pass "E3" "-" "State root changes"
          end
      end
  end.
End suite.

(** ** integration.go *)

Record MastheadFinding := MkFinding {
  mf_Path : string;
  mf_Method : string;
  mf_StatusCode : Z;
  mf_HeaderName : string;
  mf_Present : bool;
  mf_Severity : string;
}.

(** The findings of [mastheadFixture]; its target and time are not anchored. *)
Definition mastheadFixture : list MastheadFinding :=
  [MkFinding "/login" "GET" 200 "Strict-Transport-Security" false "Critical";
   MkFinding "/login" "GET" 200 "Content-Security-Policy" false "Critical";
   MkFinding "/login" "GET" 200 "X-Frame-Options" true "High";
   MkFinding "/api/v1/health" "GET" 200 "Strict-Transport-Security" true "Critical";
   MkFinding "/api/v1/health" "GET" 200 "X-Content-Type-Options" true "High"].

Definition MastheadFinding_Hash (f : MastheadFinding) : bytes :=
  sha256 (string_bytes (mf_Path f) ++ string_bytes (mf_Method f) ++ string_bytes (mf_HeaderName f) ++
          string_bytes (if mf_Present f then "present" else "missing"))%list.

Record SecurityEvent := MkSecurityEvent {
  se_ID : string;
  se_Timestamp : string;
  se_Source : string;
  se_EventType : string;
  se_FindingID : string;
  se_Reason : string;
  se_Actor : string;
  se_PrevHash : string;
}.

Definition ComputeVigilHash (e : SecurityEvent) : string :=
  hex_encode (sha256 (string_bytes (se_ID e) ++ string_bytes (se_Timestamp e) ++ string_bytes (se_Source e) ++
    string_bytes (se_EventType e) ++ string_bytes (se_FindingID e) ++ string_bytes (se_Reason e) ++
    string_bytes (se_Actor e) ++ string_bytes (se_PrevHash e))%list).

(** The event and its hash, at a formatted time. *)
Definition vigilEventFixture (timestamp prevHash : string) : SecurityEvent * string :=
  let e := {| se_ID := "evt-001"; se_Timestamp := timestamp; se_Source := "masthead"; se_EventType := "finding";
              se_FindingID := "f-001"; se_Reason := "HSTS missing on /login — critical severity";
              se_Actor := "security-bot"; se_PrevHash := prevHash |} in
  (e, ComputeVigilHash e).

(** Path, data hash and chain hash of the records of [hashchainFixture]. *)
Definition hashchainFixture : list (string * string * string) :=
  [("/data/postgres/db_dump.sql", "a1b2c3d4e5f6...", "abc123...");
   ("/data/config/app.yaml", "f6e5d4c3b2a1...", "def456...")].

Record ComplianceMapping := MkMapping {
  cp_Framework : string;
  cp_FrameworkRevision : string;
  cp_ControlID : string;
  cp_ControlName : string;
  cp_Rationale : string;
  cp_SeverityModifier : list (string * Z);
}.

(** The maps are listed in the order of their keys. *)
Definition complianceFixtures : list ComplianceMapping :=
  [MkMapping "ISO27001" "2022" "A.8.24" "Use of cryptography" "HSTS enforces TLS, required by cryptographic controls"
     [("authentication", 1%Z); ("payment", 1%Z)];
   MkMapping "NIS2" "directive_2022_2555" "ART.21.2.h" "Cryptography and encryption"
     "Missing HSTS undermines encryption in transit" [("authentication", 1%Z)];
   MkMapping "DORA" "regulation_2022_2554" "ART.9" "Protection and prevention"
     "Security header gaps reduce ICT protection posture" [("api", 1%Z)]].

(** [%v]: a struct in braces, a map with sorted keys, a slice in brackets. *)
Definition format_mapping (m : ComplianceMapping) : string :=
  String.concat "" ["{"; cp_Framework m; " "; cp_FrameworkRevision m; " "; cp_ControlID m; " "; cp_ControlName m; " ";
    cp_Rationale m; " map["; String.concat " " ((fun '(k, v) => k ++ ":" ++ decimal v) <$> cp_SeverityModifier m); "]}"].

Definition format_mappings (ms : list ComplianceMapping) : string :=
  "[" ++ String.concat " " (format_mapping <$> ms) ++ "]".

(** Identifier and payload of the entries of [subChainFixture]. *)
Definition subChainFixture : list (string * string) :=
  [("svc-deploy-001", "deploy: app v2.3.1 to staging"); ("svc-deploy-002", "deploy: app v2.3.1 to production")].

(** ** scenarios.go *)

Section scenarios.
Context `{Primitives} {S : Type} `{AnchorClient S} (uid : UIDZeroSoulbound).
Local Notation "'let!' x ':=' m 'in' k" := (seq_bind m (fun x => k)) (at level 200, x name, right associativity).

(** Submit hashes under their labels until one is refused. *)
Fixpoint submit_all (items : list (bytes * string)) : session (S := S) bool :=
  match items with
  | [] => done true
  | (hash, label) :: items =>
      let! r := submit_signed uid hash label [] [] in
      if refused_or_failed r then done false else submit_all items
  end.

(** The end of the scenarios: wait for a hash; the failure message reads the proof. *)
Definition wait_or (tc gap name : string) (hash : bytes) (k : pb_AnchorProof → session TestResult) : session (S := S) TestResult :=
  let! w := wait 30 hash in
  match w with
  | inl _ => crash
  | inr proof => if negb (pp_Found proof) then fail tc gap name else k proof
  end.

Fixpoint p1_verify (findings : list MastheadFinding) : session (S := S) TestResult :=
  match findings with
  | [] => pass "P1" "G0" "Masthead→IPC pipeline"
  | f :: findings =>
      let! v := verify (MastheadFinding_Hash f) in
      match v with
      | inl _ => crash
      | inr v => if negb (pp_Found v) then fail "P1" "G0" "Masthead→IPC pipeline" else p1_verify findings
      end
  end.

Definition p1_items : list (bytes * string) :=
  (fun f => (MastheadFinding_Hash f, "masthead-" ++ mf_HeaderName f ++ "-" ++ mf_Path f)) <$> mastheadFixture.

Definition p1MastheadPipeline : session (S := S) TestResult :=
  let! ok := submit_all p1_items in
  if negb ok then fail "P1" "G0" "Masthead→IPC pipeline"
  else
    match last p1_items with
    | None => fail "P1" "G0" "Masthead→IPC pipeline"
    | Some (lastHash, _) => wait_or "P1" "G0" "Masthead→IPC pipeline" lastHash (fun _ => p1_verify mastheadFixture)
    end.

Definition p2_items : list (bytes * string) :=
  (fun '(path, data, chained) => (sha256 (string_bytes (path ++ data ++ chained)), "hashchain-" ++ path)) <$> hashchainFixture.

Definition p2HashchainPipeline : session (S := S) TestResult :=
  let! ok := submit_all p2_items in
  if negb ok then fail "P2" "-" "Hashchain→IPC pipeline"
  else
    match last p2_items with
    | None => crash
    | Some (payload, _) =>
        wait_or "P2" "-" "Hashchain→IPC pipeline" payload (fun _ => pass "P2" "-" "Hashchain→IPC pipeline")
    end.

(** [rfc3339] is the formatting of the time library. *)
Definition p3VigilPipeline (rfc3339 : Z → string) : session (S := S) TestResult :=
  let bad := fail "P3" "G0" "Vigil→IPC pipeline" in
  let! t := now_nano in
  let '(evt, evtHash) := vigilEventFixture (rfc3339 t) "genesis" in
  let h := sha256 (string_bytes evtHash) in
  let! r := submit_signed uid h ("vigil-" ++ se_Source evt ++ "-" ++ se_FindingID evt) [] [] in
  if refused_or_failed r then bad
  else
    wait_or "P3" "G0" "Vigil→IPC pipeline" h (fun _ =>
      let! v := verify h in
      match v with
      | inl _ => bad
      | inr v =>
          if negb (pp_Found v) || (length (pp_SmtProof v) =? 0)%nat then bad else pass "P3" "G0" "Vigil→IPC pipeline"
      end).

Definition p4CompliancePipeline : session (S := S) TestResult :=
  match mastheadFixture with
  | [] => crash
  | finding :: _ =>
      let h := sha256 (MastheadFinding_Hash finding ++ string_bytes (format_mappings complianceFixtures))%list in
      let! r := submit_signed uid h ("compliance-" ++ mf_HeaderName finding ++ "-" ++ mf_Path finding) [] [] in
      if refused_or_failed r then fail "P4" "G0" "Compliance→IPC pipeline"
      else wait_or "P4" "G0" "Compliance→IPC pipeline" h (fun _ => pass "P4" "G0" "Compliance→IPC pipeline")
  end.

(** [Sum] of a hash that nothing was written to appends the digest of the empty message. *)
Definition f1_hash (payload : string) : bytes := copy_array 32 (string_bytes payload ++ sha256 [])%list.

Definition f1_items : list (bytes * string) :=
  (fun '(id, payload) => (f1_hash payload, "subchain-" ++ id)) <$> subChainFixture.

Definition f1SubChain : session (S := S) TestResult :=
  let! ok := submit_all f1_items in
  if negb ok then fail "F1" "-" "Sub-chain anchoring"
  else
    match last f1_items with
    | None => crash
    | Some (lastH, _) => wait_or "F1" "-" "Sub-chain anchoring" lastH (fun _ => pass "F1" "-" "Sub-chain anchoring")
    end.

(** ** The runner *)

(** The cases in the order of [main]. *)
Definition suite (rfc3339 : Z → string) : list (session (S := S) TestResult) :=
  [tc01SubmitValid uid; tc02NoSignature uid; tc03BadSignature uid; tc04UnknownSubmitter; tc05ZeroHash uid;
   tc06FullLifecycle uid; tc07VerifyNonexistent; tc08Health; tc09StateRoot; tc10GetBlock; tc11ApproverReference uid;
   tc12WaitTimeout; a1WrongLengthHash uid; a2LabelEdgeCases uid; a4EntryNonRepudiation uid; a6DedupAfterAnchor uid;
   a8WaitAlreadyAnchored uid; a9VerifyBeforeAnchor uid; b1PrevHashChain; b5QuorumSigs; c2SmtProofVsBlockRoot uid;
   c3DecisionChain uid; c5EntrySigVerify uid; d1StreamBlocks; d3EmptySubmit; d4LargePayload uid; e1LambdaNonNegative;
   e3StateRootChanges uid; p1MastheadPipeline; p2HashchainPipeline; p3VigilPipeline rfc3339; p4CompliancePipeline;
   f1SubChain].

Fixpoint run_cases (cases : list (session (S := S) TestResult)) : session (S := S) (list TestResult) :=
  match cases with
  | [] => done []
  | c :: cases => let! r := c in let! rs := run_cases cases in done (r :: rs)
  end.

Definition run_suite (attempts : nat) (rfc3339 : Z → string) : session (S := S) (list TestResult) :=
  let! _ := waitForReady attempts in run_cases (suite rfc3339).
End scenarios.

Definition allPassed (results : list TestResult) : bool := forallb tr_Passed results.

(** The exit status that [printReport] ends the program with, if it does. *)
Definition printReport (allowFail : bool) (results : list TestResult) : option Z :=
  let failed := length (filter (fun r => tr_Passed r = false) results) in
  if allowFail then None else if (0 <? failed)%nat then Some 1%Z else None.

(** The exit status of the runner after the cases have run. *)
Definition suite_status (allowFail : bool) (results : list TestResult) : Z :=
  match printReport allowFail results with
  | Some status => status
  | None => if negb (allPassed results) then 1%Z else 0%Z
  end.
