(* ===== verification/ConformanceTheorems.v ===== *)
(** * The conformance suite against a node

    A node with its gRPC server as the other side of the suite, under any schedule of cycles
    and of calls by other clients; what the verdicts of the suite mean. *)
From Stdlib Require Import SpecFloat Ascii.
From S2P Require Import Prelude Crypto Toy Sha256 Smt SmtSpec SmtRefine SmtProofs SmtTheorems Errors Vrf Identity.
From S2P Require Import IdentityTheorems Chain ToyCbor ChainTheorems Config Rotation Mandates Quorum QuorumTheorems.
From S2P Require Import LightClient LightTheorems Gossip State StateTheorems Engine EngineCycle EngineApi EngineFrame.
From S2P Require Import Demo EngineTheorems CycleTheorems SoloTheorems ApiTheorems SoloChain Typed Receipts.
From S2P Require Import Rest Grpc GrpcTheorems Conformance.
Local Open Scope string_scope.

(** ** A node behind the stub *)

Section node.
Context `{Primitives, Cbor, Ristretto, Gonum, StateCbor} {bus : Type} `{GossipChannel bus}.
Context (env : nat → bus → bus) (clock : nat → Z) (patience : nat → nat) (srv : GrpcServer).
(** What else happens: before a call, between two polls of a wait, and the random bytes. *)
Context (between : nat → list solo_op) (during : nat → list (list solo_op)) (random : nat → nat → bytes).

Local Notation World := (World (bus := bus)).

(** The node and the number of calls so far. *)
Record live := MkLive {
  lv_world : World;
  lv_calls : nat;
}.

(** The world when a call arrives. *)
Definition arrive (l : live) : World := solo_run env clock patience (between (lv_calls l)) (lv_world l).

Definition after (l : live) (w : World) : live := MkLive w (S (lv_calls l)).

(** The worlds that the polls of a wait see. *)
Fixpoint poll_worlds (w : World) (chunks : list (list solo_op)) : list World :=
  match chunks with
  | [] => []
  | c :: chunks => let w' := solo_run env clock patience c w in w' :: poll_worlds w' chunks
  end.

(** A query leaves the node as it is. *)
Definition query {A} (f : Engine → A) (l : live) : live * reply A :=
  let w := arrive l in (after l w, inr (f (w_eng w))).

(** A panic of a handler ends the server. *)
Definition live_submit (req : pb_SubmitRequest) (l : live) : live * reply pb_SubmitResponse :=
  match Grpc.SubmitHash env clock srv req (arrive l) with
  | (w, Ok resp) => (after l w, inr resp)
  | (w, _) => (after l w, inl Internal)
  end.

(** The answer to a wait; by the time the caller goes on all of the schedule has happened. *)
Definition live_wait (hash : bytes) (l : live) : live * reply pb_AnchorProof :=
  let w := arrive l in
  let worlds := poll_worlds w (during (lv_calls l)) in
  (after l (default w (last worlds)), Grpc_WaitForAnchor (w_eng <$> worlds) hash).

#[export] Instance live_client : AnchorClient live := {|
  call_SubmitHash := live_submit;
  call_WaitForAnchor _ := live_wait;
  call_VerifyHash hash := query (fun e => VerifyHash e hash);
  call_GetHealth := query (Grpc_GetHealth srv);
  call_GetCurrentStateRoot := query GetCurrentStateRoot;
  call_GetBlock index := query (fun e => Grpc_GetBlock e index);
  call_StreamBlocks from to := query (fun e => default [] (Grpc_StreamBlocks e from to));
  unix_nano l := (after l (arrive l), clock (lv_calls l));
  rand_bytes n l := (after l (arrive l), random n (lv_calls l));
|}.


(** ** Worlds of a session *)

Context `{!MldsaCorrect, !RistrettoLaws, !Blake3Length} (u : UIDZeroSoulbound) (Huid : uid_wf u).
Context (Hroot_total : ∀ c n g l, is_Some (cbor_root_state c n g l)).

(** What can become of a world. *)
Definition later (w w' : World) : Prop := ∃ ops, w' = solo_run env clock patience ops w.

#[local] Instance later_preorder : PreOrder later.
Proof.
  split; [by exists []|]. intros w1 w2 w3 [ops ->] [ops' ->]. exists (ops ++ ops')%list.
  unfold solo_run. by rewrite foldl_app.
Qed.

Lemma arrive_later l : later (lv_world l) (arrive l).
Proof. by eexists. Qed.

Lemma poll_worlds_later chunks : ∀ w w', w' ∈ poll_worlds w chunks →
  later w w' ∧ later w' (default w (last (poll_worlds w chunks))).
Proof.
  induction chunks as [|c chunks IH]; intros w w'; cbn [poll_worlds]; [by intros ?%not_elem_of_nil|].
  set (w1 := solo_run env clock patience c w). assert (Hw1 : later w w1) by (by eexists).
  assert (Hlast : default w (last (w1 :: poll_worlds w1 chunks)) = default w1 (last (poll_worlds w1 chunks)))
    by (rewrite last_cons; by destruct (last (poll_worlds w1 chunks))).
  rewrite Hlast. intros [->|Hin]%elem_of_cons.
  - split; [done|]. destruct (last (poll_worlds w1 chunks)) as [w2|] eqn:E; [|reflexivity]. cbn [default].
    apply last_Some_elem_of in E. apply (IH w1 w2 E).
  - destruct (IH w1 w' Hin) as [Hl1 Hl2]. split; [by transitivity w1|done].
Qed.

Lemma wait_later l hash : later (arrive l) (lv_world (fst (live_wait hash l))).
Proof.
  unfold live_wait. cbn [fst after lv_world]. destruct (last _) as [w|] eqn:E; [|reflexivity].
  cbn [default]. apply last_Some_elem_of in E. by apply (poll_worlds_later _ _ _ E).
Qed.

Lemma submit_later req l : later (arrive l) (lv_world (fst (live_submit req l))).
Proof.
  unfold live_submit, SubmitHash. destruct (authenticateSubmit srv req) as [[]|er|]; [|reflexivity|reflexivity].
  exists [DoEnqueue (request_entry req)]. cbn [solo_run foldl solo_do].
  destruct (Enqueue env clock (request_entry req) (arrive l)) as [w [[]|er|]]; reflexivity.
Qed.

Lemma receipted_later w w' : receipted u (w_eng w) → later w w' → receipted u (w_eng w').
Proof. intros Hr [ops ->]. by apply receipted_run. Qed.

Lemma blocks_later w w' : receipted u (w_eng w) → later w w' → en_blocks (w_eng w) `prefix_of` en_blocks (w_eng w').
Proof.
  intros Hr [ops ->]. revert w Hr. induction ops as [|op ops IH]; intros w Hr; [done|].
  change (solo_run env clock patience (op :: ops) w) with (solo_run env clock patience ops (solo_do env clock patience w op)).
  transitivity (en_blocks (w_eng (solo_do env clock patience w op))).
  2:{ apply IH. apply (receipted_later w); [done|]. by exists [op]. }
  assert (op = DoCycle ∨ op ≠ DoCycle) as [->|Hop] by (destruct op; auto).
  - destruct (cycle_blocks env clock patience u Huid Hroot_total w (rc_solo _ _ Hr)) as [_ [Hb|(block & Hb & _)]];
      cbn [solo_do]; rewrite Hb; [done|by apply prefix_app_r].
  - pose proof (call_core env clock patience op w Hop) as Hk. unfold en_blocks. by rewrite (sc_ledger _ _ Hk).
Qed.

(** An answered hash stays answered. *)
Lemma answered_later w w' h : receipted u (w_eng w) → later w w' →
  is_Some (LookupHash (w_eng w) h) → is_Some (LookupHash (w_eng w') h).
Proof.
  intros Hr Hl [p Hp]. unfold LookupHash in *. destruct (rc_some _ _ Hr h p Hp) as (i & b & x & Hf & _).
  rewrite <- (rf_hash _ _ _ _ _ _ Hf). apply (rc_all _ _ (receipted_later _ _ Hr Hl) b); [|apply Hf].
  destruct (blocks_later _ _ Hr Hl) as [rest ->]. apply elem_of_app. left.
  apply (list_elem_of_lookup_2 _ i), Hf.
Qed.

(** ** The life of a hash *)

Lemma proof_siblings_eq n data : proof_siblings n data = split_siblings n data.
Proof. revert data. induction n as [|n IH]; intros data; [done|]. cbn. by case_match; [|rewrite IH]. Qed.

(** Another hash was anchored in the chain up to the block that the node names for [h]. *)
Definition in_company (e : Engine) (h : bytes) : Prop :=
  ∃ p i b x, LookupHash e h = Some p ∧ ap_BlockIndex p = Z.of_nat i ∧
    b ∈ take (S i) (en_blocks e) ∧ x ∈ elems (b_Anchored b) ∧ e_Hash x ≠ h.

Lemma last_write_entry kvs k v : last_write kvs k = Some v → k ∈ kvs.*1.
Proof.
  induction kvs as [|[k0 v0] kvs IH]; [done|]. rewrite fmap_cons, elem_of_cons. cbn [last_write fst].
  destruct (last_write kvs k) as [v'|]; [intros [= ->]; right; by apply IH|]. case_decide; [by left|done].
Qed.

(** The path in a receipt verifies, and it is empty exactly when the hash is alone. *)
Lemma receipt_path (w : World) h p : receipted u (w_eng w) →
  hashes_ok (en_blocks (w_eng w)) → run_hash_ok 256 (chain_writes (en_blocks (w_eng w))) [] →
  LookupHash (w_eng w) h = Some p →
  length (ap_StateRoot p) = 32%nat ∧ (ap_SMTProof p ≠ [] ↔ in_company (w_eng w) h) ∧
  Verify (New 256) h h (ap_StateRoot p) (siblings_of (ap_SMTProof p)) = true.
Proof.
  intros Hr Hok HD Hp. unfold in_company. rewrite Hp. unfold LookupHash in *. set (blocks := en_blocks (w_eng w)) in *.
  destruct (rc_some _ _ Hr h p Hp) as (i & b & x & Hf & Hsmt). fold blocks in Hf, Hsmt.
  set (front := take (S i) blocks) in *.
  assert (Hokf : hashes_ok front) by (by apply Forall_take).
  assert (HDf : run_hash_ok 256 (chain_writes front) []).
  { pose proof (take_drop (S i) blocks) as Htd. fold front in Htd. unfold chain_writes in HD.
    rewrite <- Htd, bind_app in HD. by apply run_hash_ok_prefix in HD. }
  assert (Hbf : b ∈ front).
  { apply (list_elem_of_lookup_2 _ i). unfold front. rewrite lookup_take_lt by lia. apply Hf. }
  pose proof (chain_last_write _ _ _ Hokf Hbf (rf_entry _ _ _ _ _ _ Hf)) as Hwh. rewrite (rf_hash _ _ _ _ _ _ Hf) in Hwh.
  rewrite (rf_root _ _ _ _ _ _ Hf), (rc_roots _ _ Hr i b (rf_block _ _ _ _ _ _ Hf)). fold blocks front.
  pose proof (chain_writes_ok _ Hokf) as Hrun. split; [apply tree_of_typed|]. split; [|rewrite Hsmt; by apply prove_chain].
  destruct (Prove_complete 256 (chain_writes front) h Hrun HDf) as (t & Ht & Hpr).
  rewrite Hwh in Hpr. destruct Hpr as (proof & Hprove & _). rewrite Hsmt, (BulkInsert_chain _ _ Ht), Hprove.
  cbn [default]. split.
  - intros Hne. destruct (decide (Forall (fun kv => kv.1 = h) (chain_writes front))) as [Hall|Hex].
    + destruct Hne. rewrite (Prove_alone _ _ _ _ _ Hrun HDf Ht Hprove); [done|]. intros k' [v Hk'%last_write_entry].
      apply list_elem_of_fmap in Hk' as (kv & -> & Hkv). rewrite Forall_forall in Hall. by apply Hall.
    + apply not_Forall_Exists in Hex; [|apply _].
      apply Exists_exists in Hex as (kv & (b' & x' & Hb' & Hx' & ->)%chain_writes_elem & Hother).
      cbn [fst compose] in Hother. rewrite (hashes_ok_copy _ _ _ Hokf Hb' Hx') in Hother.
      exists p, i, b', x'. split_and!; [done|apply Hf|done..].
  - intros (p' & i' & b' & x' & [= <-] & Hi' & Hb' & Hx' & Hother).
    rewrite (rf_index _ _ _ _ _ _ Hf) in Hi'. apply Nat2Z.inj in Hi' as <-. fold front in Hb'.
    pose proof (Prove_width _ _ _ _ _ Hrun HDf Ht Hprove) as Hwidth.
    assert (Hne : proof ≠ []).
    { apply (Prove_nonempty _ _ _ _ _ _ _ _ Hrun HDf Ht Hprove Hwh (chain_last_write _ _ _ Hokf Hb' Hx')).
      rewrite (hashes_ok_copy _ _ _ Hokf Hb' Hx'). by intros ->. }
    destruct proof as [|s proof]; [done|]. apply Forall_cons in Hwidth as [Hs _]. cbn [concat].
    intros E. apply app_nil in E as [-> _]. discriminate Hs.
Qed.

(** A hash that the node did not know when it had already anchored another has company. *)
Lemma later_in_company w w' h : receipted u (w_eng w) → later w w' → hashes_ok (en_blocks (w_eng w')) →
  (∃ b x, b ∈ en_blocks (w_eng w) ∧ x ∈ elems (b_Anchored b)) → LookupHash (w_eng w) h = None →
  is_Some (LookupHash (w_eng w') h) → in_company (w_eng w') h.
Proof.
  intros Hr Hl Hok (b0 & x0 & Hb0 & Hx0) Hnone [p Hp]. unfold LookupHash in Hnone, Hp.
  pose proof (receipted_later _ _ Hr Hl) as Hr'. destruct (rc_some _ _ Hr' h p Hp) as (i & b & x & Hf & _).
  destruct (blocks_later _ _ Hr Hl) as [rest Hpre].
  assert (Hi : (length (en_blocks (w_eng w)) ≤ i)%nat).
  { destruct (Nat.le_gt_cases (length (en_blocks (w_eng w))) i) as [|Hlt]; [done|]. exfalso.
    pose proof (rf_block _ _ _ _ _ _ Hf) as Hbi. rewrite Hpre, lookup_app_l in Hbi by done.
    apply list_elem_of_lookup_2 in Hbi. destruct (rc_all _ _ Hr b x Hbi (rf_entry _ _ _ _ _ _ Hf)) as [q Hq].
    rewrite (rf_hash _ _ _ _ _ _ Hf), Hnone in Hq. done. }
  exists p, i, b0, x0. split_and!; [done|apply Hf| |done|].
  - rewrite Hpre, take_app_ge by lia. apply elem_of_app. by left.
  - intros Heq. destruct (rc_all _ _ Hr b0 x0 Hb0 Hx0) as [q Hq].
    rewrite (hashes_ok_copy (en_blocks (w_eng w')) b0 x0), Heq, Hnone in Hq; [done|done| |done].
    rewrite Hpre. apply elem_of_app. by left.
Qed.

(** The same for the calls of a session. *)
Lemma submit_signed_later uid hash label approver reference l l' r :
  submit_signed uid hash label approver reference l = (l', Some r) → later (lv_world l) (lv_world l').
Proof.
  unfold submit_signed, seq_bind, now_nano, submit, call. cbn [unix_nano call_SubmitHash live_client].
  match goal with |- context [live_submit ?req ?l'] => pose proof (submit_later req l') as Hs;
    destruct (live_submit req l') as [l1' r'] end. intros [= <- _].
  cbn [fst] in Hs. transitivity (lv_world (after l (arrive l))); [apply arrive_later|].
  etransitivity; [apply arrive_later|exact Hs].
Qed.

Lemma wait_session_later seconds hash l l' w :
  wait seconds hash l = (l', Some w) → later (lv_world l) (lv_world l').
Proof.
  pose proof (wait_later l hash) as Hx. unfold wait, call. cbn [call_WaitForAnchor live_client].
  destruct (live_wait hash l) as [l2' w']. intros [= <- _]. etransitivity; [apply arrive_later|exact Hx].
Qed.

Lemma WaitForAnchor_some ticks h p : WaitForAnchor ticks h = Some p → ∃ e, e ∈ ticks ∧ LookupHash e h = Some p.
Proof.
  induction ticks as [|e ticks IH]; [done|]. cbn [WaitForAnchor].
  destruct (LookupHash e h) as [q|] eqn:E; [intros [= <-]; exists e; split; [left|done]|].
  intros (e' & Hin & He')%IH. exists e'. split; [by right|done].
Qed.

(** What an answered wait tells about the world that follows. *)
Lemma wait_answer l seconds hash l' proof : receipted u (w_eng (lv_world l)) → length hash = 32%nat →
  wait seconds hash l = (l', Some (inr proof)) →
  pp_Found proof = true ∧ length (pp_StateRoot proof) = 32%nat ∧ is_Some (LookupHash (w_eng (lv_world l')) hash).
Proof.
  intros Hr Hh. unfold wait, call. cbn [call_WaitForAnchor live_client]. unfold live_wait.
  set (worlds := poll_worlds (arrive l) (during (lv_calls l))). intros [= <- Ha].
  unfold Grpc_WaitForAnchor in Ha. rewrite copy_array_id in Ha by done.
  destruct (WaitForAnchor (w_eng <$> worlds) hash) as [p|] eqn:Ew; [|done]. injection Ha as <-.
  apply WaitForAnchor_some in Ew as (e & He & Hp). apply list_elem_of_fmap in He as (wt & -> & Hwt).
  destruct (poll_worlds_later _ _ _ Hwt) as [Hl1 Hl2].
  assert (Hrt : receipted u (w_eng wt)).
  { apply (receipted_later (lv_world l)); [done|]. transitivity (arrive l); [apply arrive_later|done]. }
  destruct (rc_some _ _ Hrt hash p Hp) as (i & b & x & Hf & _). cbn [proofToProto pp_Found pp_StateRoot after lv_world].
  split_and!; [apply Hf| |].
  - rewrite (rf_root _ _ _ _ _ _ Hf), (rc_roots _ _ Hrt i b (rf_block _ _ _ _ _ _ Hf)). apply tree_of_typed.
  - apply (answered_later wt); [done|exact Hl2|by exists p].
Qed.

(** C35: The lifecycle case of the suite against a single node (submit, wait, verify, check the
    Merkle path with a tree of its own). Take any schedule of cycles and of submissions,
    mandates and configuration changes by other clients, before and during the case, without
    key rotations, and let the digests of the node's tree not collide. The case ends without
    a crash, and it passes exactly when the submission was accepted, the wait was answered in
    time, and another hash was anchored up to the block of this one. It never fails for a
    wrong proof: the last condition is there because the path of the only hash in the tree
    is empty, and the case takes an empty path for a failure. *)
Theorem lifecycle_conformance node interval ops (b : bus) n uid l hash l0 r l1 w l2 :
  n_UID node = u →
  lv_world l = solo_run env clock patience ops {| w_eng := NewEngine node interval; w_bus := b; w_step := n |} →
  randomHash l = (l0, Some hash) → submit_signed uid hash (labelPrefix ++ "tc06") [] [] l0 = (l1, Some r) →
  wait 30 hash l1 = (l2, Some w) → length hash = 32%nat →
  hashes_ok (en_blocks (w_eng (arrive l2))) → run_hash_ok 256 (chain_writes (en_blocks (w_eng (arrive l2)))) [] →
  ∃ l3 res, tc06FullLifecycle uid l = (l3, Some res) ∧
    (tr_Passed res = true ↔
     refused_or_failed r = false ∧ (∃ p, w = inr p) ∧ in_company (w_eng (arrive l2)) hash).
Proof.
  intros Hn Hw Hrand Hsub Hwait Hh Hok HD.
  assert (Hr : receipted u (w_eng (lv_world l))) by (rewrite Hw; by apply receipted_run, NewEngine_receipted).
  assert (Hl0 : later (lv_world l) (lv_world l0)) by (injection Hrand as <- _; apply arrive_later).
  pose proof (submit_signed_later _ _ _ _ _ _ _ _ Hsub) as Hl1. pose proof (wait_session_later _ _ _ _ _ Hwait) as Hl2.
  assert (Hr1 : receipted u (w_eng (lv_world l1))) by (apply (receipted_later _ _ Hr); by transitivity (lv_world l0)).
  unfold tc06FullLifecycle. unfold seq_bind at 1. rewrite Hrand. unfold seq_bind at 1. rewrite Hsub.
  destruct (refused_or_failed r) eqn:Er.
  { eexists _, _. split; [reflexivity|]. cbn. split; [done|by intros [? _]]. }
  unfold seq_bind at 1. rewrite Hwait. destruct w as [er|proof].
  { eexists _, _. split; [reflexivity|]. cbn. split; [done|intros [_ [[? ?] _]]; done]. }
  destruct (wait_answer _ _ _ _ _ Hr1 Hh Hwait) as (Hfound & Hroot & Hans). rewrite Hfound. cbn [negb].
  unfold seq_bind, verify, call. cbn [call_VerifyHash live_client query].
  assert (Hr2 : receipted u (w_eng (lv_world l2))) by (by apply (receipted_later _ _ Hr1)).
  destruct (answered_later _ (arrive l2) hash Hr2 (arrive_later l2) Hans) as [p Hp].
  unfold VerifyHash. rewrite copy_array_id, Hp by done. cbn [pp_Found pp_SmtProof pp_StateRoot negb].
  destruct (receipt_path (arrive l2) hash p) as (Hlen & Hne & Hv); try done.
  { by apply (receipted_later _ _ Hr2), arrive_later. }
  destruct (length (ap_SMTProof p) =? 0)%nat eqn:Hz.
  { apply Nat.eqb_eq, nil_length_inv in Hz. eexists _, _. split; [reflexivity|]. cbn. split; [done|].
    by intros [_ [_ ?%Hne]]. }
  assert (Hcomp : in_company (w_eng (arrive l2)) hash) by (apply Hne; by intros E; rewrite E in Hz).
  unfold path_verifies, smtDepth. rewrite !copy_array_id, proof_siblings_eq by done.
  unfold siblings_of in Hv. rewrite Hv, Hroot. cbn [negb Nat.ltb Nat.leb].
  eexists _, _. split; [reflexivity|]. cbn. split; [by eauto|done].
Qed.

(** ** Cases with another verdict *)

(** A node with a block serves it, and the case that expects no stream fails. *)
Lemma stream_case_fails l : en_blocks (w_eng (arrive l)) ≠ [] →
  (Z.of_nat (length (en_blocks (w_eng (arrive l)))) < 2 ^ 64)%Z →
  ∃ l', d1StreamBlocks l = (l', Some (MkTestResult "StreamBlocks Unimplemented" "D1" "-" false)).
Proof.
  intros Hb Hlen. unfold d1StreamBlocks, seq_bind, call. cbn [call_StreamBlocks live_client query].
  rewrite grpc_stream_spec by (done || unfold u64_ok; lia). cbn [default].
  destruct (en_blocks (w_eng (arrive l))) as [|b bs]; [done|]. eexists. reflexivity.
Qed.
End node.

(** ** The suite on any server *)

Section any.
Context `{Primitives} {S : Type} `{AnchorClient S} (uid : UIDZeroSoulbound).

(** Two cases pass on every server. *)
Lemma vacuous_cases s : ∃ s1 s2,
  a1WrongLengthHash uid s = (s1, Some (MkTestResult "Hash wrong length (short)" "A1" "-" true)) ∧
  a2LabelEdgeCases uid s = (s2, Some (MkTestResult "Label edge cases" "A2" "-" true)).
Proof.
  assert (Hloop : ∀ labels s, ∃ s', a2_loop uid labels s = (s', Some (MkTestResult "Label edge cases" "A2" "-" true))).
  { intros labels. induction labels as [|label labels IH]; intros s0; [by eexists|]. cbn [a2_loop].
    unfold seq_bind, submit_signed, randomHash, now_nano, submit, seq_bind, call.
    destruct (rand_bytes 32 s0) as [s1 hash], (unix_nano s1) as [s2 ts], (call_SubmitHash _ s2) as [s3 [er|resp]];
      [by eexists|]. case_match; [by eexists|apply IH]. }
  destruct (Hloop a2_labels s) as [s2 H2].
  unfold a1WrongLengthHash, submit_signed, now_nano, submit, seq_bind, call.
  destruct (unix_nano s) as [s' ts], (call_SubmitHash _ s') as [s'' [er|resp]]; eexists _, s2; (split; [|exact H2]);
    [reflexivity|]. by destruct (sp_Accepted resp).
Qed.

(** A served reference has 32 bytes or none. *)
Definition reference_widths : Prop := ∀ i s s' b, call_GetBlock i s = (s', inr b) →
  Forall (fun e => length (pe_Reference e) = 0%nat ∨ length (pe_Reference e) = 32%nat) (pk_Anchored b).

Lemma find_entry_elem hash es e : find_entry hash es = Some e → e ∈ es.
Proof.
  induction es as [|e0 es IH]; [done|]. cbn [find_entry]. case_bool_decide; [intros [= <-]; left|].
  intros ?%IH. by right.
Qed.

Lemma tc11_retry_width (Hw : reference_widths) n i hash : ∀ s s' e, tc11_retry n i hash s = (s', Some (inr (Some e))) →
  length (pe_Reference e) = 0%nat ∨ length (pe_Reference e) = 32%nat.
Proof.
  induction n as [|n IH]; intros s s' e; [done|]. cbn [tc11_retry]. unfold seq_bind, get_block, call.
  destruct (call_GetBlock i s) as [s1 [er|b]] eqn:Eb.
  - destruct (n =? 0)%nat; [done|apply IH].
  - destruct (find_entry hash (pk_Anchored b)) as [e0|] eqn:Ee; [|apply IH]. intros [= _ <-].
    apply find_entry_elem in Ee. pose proof (Hw i s s1 b Eb) as Hall. rewrite Forall_forall in Hall. by apply Hall.
Qed.

(** The case for approver and reference sends a reference of eight bytes and asks for the
    same back, but a reference is stored as an array of 32: it never passes. *)
Lemma reference_case_fails (Hw : reference_widths) s s' res :
  tc11ApproverReference uid s = (s', Some res) → tr_Passed res = false.
Proof.
  unfold tc11ApproverReference. unfold seq_bind at 1. destruct (randomHash s) as [s1 [hash|]]; [|done].
  unfold seq_bind at 1. destruct (submit_signed _ _ _ _ _ s1) as [s2 [r|]]; [|done].
  destruct (refused_or_failed r); [by intros [= _ <-]|].
  unfold seq_bind at 1. destruct (wait 30 hash s2) as [s3 [[er|proof]|]]; [by intros [= _ <-]| |done].
  destruct (negb (pp_Found proof)); [by intros [= _ <-]|].
  unfold seq_bind at 1. destruct (verify hash s3) as [s4 [[er|v]|]]; [by intros [= _ <-]| |done].
  unfold seq_bind. destruct (tc11_retry 5 _ hash s4) as [s5 [[[]|[e|]]|]] eqn:Et; [by intros [= _ <-]| |by intros [= _ <-]|done].
  apply (tc11_retry_width Hw) in Et as He. unfold entry_gaps.
  destruct (length (pe_Approver e) =? 0)%nat; [by intros [= _ <-]|]. case_bool_decide; [|by intros [= _ <-]]. cbn [negb].
  destruct (length (pe_Reference e) =? 0)%nat; [by intros [= _ <-]|]. case_bool_decide as Hr; [|by intros [= _ <-]].
  rewrite Hr in He. by destruct He.
Qed.
End any.

(** The flag that is to make the runner exit with 0 in any case has no effect. *)
Lemma suite_status_spec allowFail results : suite_status allowFail results = 0%Z ↔ Forall (fun r => tr_Passed r = true) results.
Proof.
  unfold suite_status, printReport, allPassed.
  assert (Hiff : forallb tr_Passed results = true ↔ Forall (fun r => tr_Passed r = true) results).
  { rewrite forallb_forall, Forall_forall. setoid_rewrite list_elem_of_In. done. }
  destruct (Nat.ltb_spec 0 (length (filter (fun r => tr_Passed r = false) results))) as [Hf|Hf].
  - assert (Hn : ¬ Forall (fun r => tr_Passed r = true) results).
    { intros Hall. rewrite Forall_forall in Hall. destruct (filter _ results) as [|r rs] eqn:E; [cbn in Hf; lia|].
      assert (Hin : r ∈ filter (fun r => tr_Passed r = false) results) by (rewrite E; left).
      apply list_elem_of_filter in Hin as [Hr Hin]. by rewrite (Hall r Hin) in Hr. }
    destruct allowFail; [|done]. destruct (forallb tr_Passed results); [by destruct Hn; apply Hiff|done].
  - destruct allowFail; (destruct (forallb tr_Passed results); [by rewrite <- Hiff|]);
      (split; [done|intros Hall%Hiff; done]).
Qed.

(** What the sub-chain scenario anchors for its second entry is the text itself, no digest. *)
Lemma subchain_scenario_plaintext :
  f1_hash "deploy: app v2.3.1 to production" = string_bytes "deploy: app v2.3.1 to production".
Proof. vm_compute. reflexivity. Qed.

(** ** Concrete instance *)

Definition first_hash : bytes := replicate 32 1%Z.

Definition first_submission : ProvenanceEntry :=
  {| e_Hash := first_hash; e_Submitter := 1%Z :: zeros 15; e_Timestamp := 50; e_Label := "release";
     e_Approver := None; e_Reference := None; e_Signature := []; e_MandateRef := None |}.

Definition suite_ops : list solo_op := [DoEnqueue first_submission; DoCycle].

Definition suite_world : World (bus := MemoryBus) := solo_run demo_env demo_clock demo_patience suite_ops fresh_world.

Definition quiet (n : nat) : list solo_op := [].
Definition one_cycle (n : nat) : list (list solo_op) := [[DoCycle]].
Definition fixed_random (n k : nat) : bytes := replicate n 254%Z.

(** The session: submission, wait, and the conditions on the chain that is then there. *)
Definition in_companyb (e : Engine) (h : bytes) : bool :=
  match LookupHash e h with
  | Some p => (0 <=? ap_BlockIndex p)%Z &&
      existsb (fun b => existsb (fun x => negb (bool_decide (e_Hash x = h))) (elems (b_Anchored b)))
        (take (S (Z.to_nat (ap_BlockIndex p))) (en_blocks e))
  | None => false
  end.

Lemma in_companyb_ok e h : in_companyb e h = true → in_company e h.
Proof.
  unfold in_companyb, in_company. destruct (LookupHash e h) as [p|]; [|done].
  intros [Hi%Z.leb_le (b & Hb & (x & Hx & Hne)%existsb_exists)%existsb_exists]%andb_true_iff.
  apply negb_true_iff, bool_decide_eq_false in Hne.
  exists p, (Z.to_nat (ap_BlockIndex p)), b, x.
  split_and!; [done|by rewrite Z2Nat.id|by apply list_elem_of_In|by apply list_elem_of_In|done].
Qed.

Definition session_ok (srv : GrpcServer) (w0 : World (bus := MemoryBus)) : bool :=
  let client := live_client demo_env demo_clock demo_patience srv quiet one_cycle fixed_random in
  let l0 := after (MkLive w0 0) w0 in
  match submit_signed (demo_uid 7) (fixed_random 32 0) (labelPrefix ++ "tc06") [] [] l0 with
  | (l1, Some (inr resp)) =>
      sp_Accepted resp &&
      match wait 30 (fixed_random 32 0) l1 with
      | (l2, Some (inr _)) =>
          hashes_okb (en_blocks (w_eng (lv_world l2))) &&
          run_hash_okb 256 (chain_writes (en_blocks (w_eng (lv_world l2)))) [] &&
          in_companyb (w_eng (lv_world l2)) (fixed_random 32 0)
      | _ => false
      end
  | _ => false
  end.

Lemma session_runs : ∃ srv w0, suite_world = w0 ∧ session_ok srv w0 = true.
Proof.
  destruct (Grpc_NewServer "n1" (demo_uid 7) demo_server_opts) as [[srv e]| |] eqn:E; [|discriminate E..].
  exists srv, suite_world. split; [reflexivity|]. injection E as <- _. vm_compute. reflexivity.
Qed.

Lemma suite_world_start : suite_world = solo_run demo_env demo_clock demo_patience suite_ops
  {| w_eng := NewEngine demo_node second; w_bus := NewMemoryBus; w_step := 0 |}.
Proof. unfold suite_world, fresh_world. reflexivity. Qed.

Lemma lifecycle_conformance_witness : ∃ srv w0 l3 res, suite_world = w0 ∧
  tc06FullLifecycle (H0 := live_client demo_env demo_clock demo_patience srv quiet one_cycle fixed_random)
    (demo_uid 7) (MkLive w0 0) = (l3, Some res) ∧ tr_Passed res = true.
Proof.
  destruct session_runs as (srv & w0 & Hw0 & Hok). exists srv, w0. unfold session_ok in Hok.
  set (client := live_client demo_env demo_clock demo_patience srv quiet one_cycle fixed_random) in *.
  set (l0 := after (MkLive w0 0) w0) in *.
  destruct (submit_signed (demo_uid 7) (fixed_random 32 0) (labelPrefix ++ "tc06") [] [] l0) as [l1 [[er|resp]|]] eqn:Es;
    [discriminate Hok| |discriminate Hok].
  apply andb_true_iff in Hok as [Hacc Hok].
  destruct (wait 30 (fixed_random 32 0) l1) as [l2 [[er|proof]|]] eqn:Ew; [discriminate Hok| |discriminate Hok].
  apply andb_true_iff in Hok as [[Hh HD]%andb_true_iff Hcomp].
  pose proof suite_world_start as Hstart. rewrite Hw0 in Hstart.
  destruct (lifecycle_conformance demo_env demo_clock demo_patience srv quiet one_cycle fixed_random (demo_uid 7)
    demo_uid_wf toy_root_total demo_node second suite_ops NewMemoryBus 0 (demo_uid 7) (MkLive w0 0) (fixed_random 32 0)
    l0 (inr resp) l1 (inr proof) l2 eq_refl Hstart eq_refl Es Ew eq_refl (hashes_okb_ok _ Hh)
    (run_hash_okb_ok _ _ _ HD)) as (l3 & res & Hrun & Hpass).
  exists l3, res. split; [exact Hw0|]. split; [exact Hrun|]. apply Hpass. split; [|split].
  - cbn [refused_or_failed]. rewrite Hacc. reflexivity.
  - exists proof; reflexivity.
  - exact (in_companyb_ok _ _ Hcomp).
Defined.
