(* ===== verification/EngineLoop.v ===== *)
(** * The goroutine of the engine (pkg/consensus/engine.go: Start, cycleLoop)

    The loop between two ticks, as a step relation: each step is one of the loop's own
    moves, or a call that another goroutine makes on the engine. Every method holds the
    engine's mutex, so calls fall between the moves and never inside one. *)
From Stdlib Require Import SpecFloat.
From S2P Require Import Prelude Crypto Smt Errors Vrf Identity Chain Config Rotation Mandates Quorum Gossip.
From S2P Require Import State Engine EngineCycle EngineApi SoloTheorems SoloChain.

(** A call of another goroutine. *)
Inductive engine_call :=
| CallSolo (op : solo_op)
| CallSubmitKeyRotation (entry : option KeyRotationEntry)
| CallRotateKey (newPublicKey newVRFPublicKey sigNew : bytes) (effectiveCycle expiryCycle : Z)
| CallRecordRotationBody (entry : option KeyRotationEntry).

(** Where the loop stands. *)
Inductive loop_phase :=
| LpArm                  (* before a call of NewTicker *)
| LpWait (period : Z)    (* in the select, with a ticker of this period *)
| LpRun                  (* a tick was received and its time stored *)
| LpMeasure              (* RunCycle has returned *)
| LpReturned
| LpCrashed.

Section loop.
Context `{Primitives, Cbor, Ristretto, Gonum, StateCbor} {bus : Type} `{GossipChannel bus}.
Context (env : nat → bus → bus) (clock : nat → Z) (patience : nat → nat).

Local Notation World := (World (bus := bus)).

Definition engine_do (w : World) (c : engine_call) : World :=
  match c with
  | CallSolo op => solo_do env clock patience w op
  | CallSubmitKeyRotation entry => fst (SubmitKeyRotation env clock entry w)
  | CallRotateKey pk vrf sig eff exp => fst (RotateKey env clock pk vrf sig eff exp w)
  | CallRecordRotationBody entry => fst (RecordRotationBody entry w)
  end.

(** [Stop] also cancels the context of the loop. *)
Definition cancels (c : engine_call) : bool :=
  match c with CallSolo DoStop => true | _ => false end.

Record Loop := MkLoop {
  lp_world : World;
  lp_cancelled : bool;
  lp_phase : loop_phase;
}.

(** [Start]: the goroutine begins with the creation of a ticker. *)
Definition Start (w : World) : Loop := {| lp_world := w; lp_cancelled := false; lp_phase := LpArm |}.

(** [time.NewTicker] panics for a duration that is not positive; nothing recovers it. *)
Definition NewTicker (d : Z) : loop_phase := if (0 <? d)%Z then LpWait d else LpCrashed.

(** [time.Since] saturates. *)
Definition time_sub (t u : Z) : Z := Z.max (- 2 ^ 63) (Z.min (2 ^ 63 - 1) (t - u)).

Definition set_lastCycleStart (t : Z) (e : Engine) : Engine :=
  let tm := en_timing e in
  with_timing {| tm_rttEWMA := tm_rttEWMA tm; tm_rttSamples := tm_rttSamples tm; tm_lastCycleStart := t;
                 tm_cycleDuration := tm_cycleDuration tm; tm_cycleTimeout := tm_cycleTimeout tm |} e.

(** The period the loop reports. *)
Definition CycleDuration (e : Engine) : Z := tm_cycleDuration (en_timing e).

(** [updateCycleDuration] with the time it measures. *)
Definition measure (w : World) : World :=
  {| w_eng := updateCycleDuration (time_sub (clock (w_step w)) (tm_lastCycleStart (en_timing (w_eng w)))) (w_eng w);
     w_bus := w_bus w; w_step := S (w_step w) |}.

(** The loop's own move; [tick] is the time that a tick carries. In the select a cancelled
    context and a tick may both be ready, and either may be taken. *)
Definition loop_move (tick : Z) (l : Loop) : Loop :=
  let w := lp_world l in
  match lp_phase l with
  | LpArm => {| lp_world := w; lp_cancelled := lp_cancelled l;
                lp_phase := NewTicker (CycleDuration (w_eng w)) |}
  | LpWait _ => {| lp_world := on_engine (set_lastCycleStart tick) w; lp_cancelled := lp_cancelled l;
                   lp_phase := LpRun |}
  | LpRun => {| lp_world := RunCycle env clock patience w; lp_cancelled := lp_cancelled l; lp_phase := LpMeasure |}
  | LpMeasure => {| lp_world := measure w; lp_cancelled := lp_cancelled l; lp_phase := LpArm |}
  | LpReturned | LpCrashed => l
  end.

Definition loop_call (c : engine_call) (l : Loop) : Loop :=
  {| lp_world := engine_do (lp_world l) c; lp_cancelled := lp_cancelled l || cancels c; lp_phase := lp_phase l |}.

(** A step, with the call that made it. *)
Inductive loop_step : option engine_call → Loop → Loop → Prop :=
| step_move tick l : lp_phase l ≠ LpReturned → lp_phase l ≠ LpCrashed → loop_step None l (loop_move tick l)
| step_done l period : lp_phase l = LpWait period → lp_cancelled l = true →
    loop_step None l {| lp_world := lp_world l; lp_cancelled := true; lp_phase := LpReturned |}
| step_call c l : lp_phase l ≠ LpCrashed → loop_step (Some c) l (loop_call c l).

(** What can happen to an engine after [Start], when the calls satisfy [P]. *)
Definition loop_reaches (P : engine_call → Prop) (e : Engine) (l : Loop) : Prop :=
  ∃ (b : bus) (n : nat),
    rtc (fun l l' => ∃ a, loop_step a l l' ∧ from_option P True a) (Start {| w_eng := e; w_bus := b; w_step := n |}) l.

(** The moves of the loop when nobody calls, with the times of the ticks. *)
Definition loop_moves (ticks : list Z) (l : Loop) : Loop := foldl (fun l t => loop_move t l) l ticks.
End loop.
