(* ===== verification/EngineLoopTheorems.v ===== *)
(** * Theorems about the cycle loop

    The period of the loop stays within the bounds that the configuration names, whatever
    is called on the engine and whatever the cycles do; and the loop of a single node keeps
    a valid chain and anchors what is pending. *)
From Stdlib Require Import SpecFloat.
From S2P Require Import Prelude Crypto Toy Smt Errors Vrf Identity IdentityTheorems Chain ToyCbor Config Rotation.
From S2P Require Import Mandates Quorum LightClient LightTheorems Gossip State StateTheorems Engine EngineCycle EngineApi.
From S2P Require Import EngineFrame ChainTheorems QuorumTheorems Demo SoloTheorems SoloChain RestTheorems EngineLoop.

Create HintDb clocked.

Section clocked.
Context `{Primitives, Cbor, Ristretto, Gonum, StateCbor} {bus : Type} `{GossipChannel bus}.
Context (env : nat → bus → bus) (clock : nat → Z) (patience : nat → nat).

Local Notation World := (World (bus := bus)).
Local Notation M := (M (bus := bus)).

(** ** What keeps the configuration and the timing of the engine *)

Record same_clock (e e' : Engine) : Prop := {
  sk_cfg : en_cfg e' = en_cfg e;
  sk_timing : en_timing e' = en_timing e;
}.

#[local] Instance same_clock_preorder : PreOrder same_clock.
Proof. split; [done|]. intros e1 e2 e3 [] []. split; congruence. Qed.

Definition clocked {A} (m : M A) : Prop := ∀ w, same_clock (w_eng w) (w_eng (fst (m w))).

Lemma framed_clocked {A} (m : M A) : framed m → clocked m.
Proof. intros Hm w. destruct (Hm w) as [t ->]. done. Qed.

Lemma core_clocked {A} (m : M A) : core_kept m → clocked m.
Proof. intros Hm w. destruct (Hm w). by split. Qed.

Lemma clocked_bind {A B} (m : M A) (k : A → M B) : clocked m → (∀ a, clocked (k a)) → clocked (mbind m k).
Proof.
  intros Hm Hk w. specialize (Hm w). unfold mbind. destruct (m w) as [w1 [a|er|]]; [|done..].
  etrans; [exact Hm|apply Hk].
Qed.

Lemma clocked_modify f : (∀ e, same_clock e (f e)) → clocked (modify (bus := bus) f).
Proof. intros Hf w. apply Hf. Qed.

Lemma clocked_or_abort {A} all snap (m : M A) k : clocked m → (∀ a, clocked (k a)) → clocked (or_abort all snap m k).
Proof.
  intros Hm Hk w. specialize (Hm w). unfold or_abort. destruct (m w) as [w1 [a|er|]]; [|by etrans; [exact Hm|]|done].
  etrans; [exact Hm|apply Hk].
Qed.

Lemma same_clock_foldl {A} (f : Engine → A → Engine) l :
  (∀ e a, same_clock e (f e a)) → ∀ e, same_clock e (foldl f e l).
Proof. intros Hf. induction l as [|a l IH]; intros e; [done|]. etrans; [apply (Hf e a)|apply IH]. Qed.

Lemma process_rotations_clock entries e : same_clock e (processKeyRotationEntriesLocked entries e).
Proof. apply same_clock_foldl. intros e0 pe. unfold admit_rotation_entry. by repeat case_match. Qed.

Lemma process_mandates_clock entries e : same_clock e (processMandateEntriesLocked entries e).
Proof. apply same_clock_foldl. intros e0 pe. unfold admit_mandate_entry. by repeat case_match. Qed.

Lemma degraded_phase_clock active q b : clocked (degraded_phase (bus := bus) active q b).
Proof. intros w. unfold degraded_phase, degraded_step. by destruct (lg_degraded _). Qed.

Lemma apply_phase_clock : clocked (apply_phase (bus := bus)).
Proof. intros w. unfold apply_phase. destruct (Apply _ _ _ _ _) as [lap [s|er|]]; done. Qed.

Lemma ingest_clock : clocked (ingestGossipedEntriesLocked env clock).
Proof.
  unfold ingestGossipedEntriesLocked. apply clocked_bind; [apply framed_clocked, framed_get_eng|]. intros e.
  case_match; [apply framed_clocked, framed_ret|].
  apply clocked_bind; [apply framed_clocked, framed_bus_read|]. intros pool.
  case_match; [apply framed_clocked, framed_ret|].
  apply clocked_bind; [apply framed_clocked, framed_now|]. intros t. by apply clocked_modify.
Qed.

#[local] Hint Resolve framed_RunPreparePhase framed_RunCommitPhase framed_get_eng framed_bus_write framed_ret : framed.
#[local] Hint Resolve ingest_clock degraded_phase_clock apply_phase_clock : clocked.
#[local] Hint Resolve process_rotations_clock process_mandates_clock : clocked.

Ltac clocked_step :=
  match goal with
  | |- clocked (mbind _ _) => apply clocked_bind; [|intros ?]
  | |- clocked (or_abort _ _ _ _) => apply clocked_or_abort; [|intros ?]
  | |- clocked (if ?x then _ else _) => destruct x
  | |- clocked (modify _) => apply clocked_modify; first [done | auto with clocked]
  | |- clocked _ => first [ solve [auto with clocked] | solve [apply framed_clocked; auto with framed] ]
  end.

Lemma cycle_clock : clocked (cycle_body env clock patience).
Proof. unfold cycle_body. repeat (cbv zeta; clocked_step). Qed.

Lemma Enqueue_clock entry : clocked (Enqueue env clock entry).
Proof. apply core_clocked, Enqueue_core. Qed.

#[local] Hint Resolve Enqueue_clock : clocked.

Lemma SubmitKeyRotation_clock entry : clocked (SubmitKeyRotation env clock entry).
Proof. destruct entry as [k|]; [|done]. unfold SubmitKeyRotation. repeat clocked_step. Qed.

Lemma RotateKey_clock pk vrf sig eff exp : clocked (RotateKey env clock pk vrf sig eff exp).
Proof.
  unfold RotateKey. repeat clocked_step. destruct (NewKeyRotationEntryWithNewSignature _ _ _ _ _ _ _ _) as [k|er|]; [|done..].
  intros w. pose proof (SubmitKeyRotation_clock (Some k) w) as Hk.
  by destruct (SubmitKeyRotation env clock (Some k) w) as [w' [x|er|]].
Qed.

Lemma engine_do_clock c w : same_clock (w_eng w) (w_eng (engine_do env clock patience w c)).
Proof.
  destruct c as [op|entry|pk vrf sig eff exp|[k|]]; simpl.
  - assert (op = DoCycle ∨ op ≠ DoCycle) as [->|Hop] by (destruct op; auto); [apply cycle_clock|].
    destruct (call_core env clock patience op w Hop). by split.
  - apply SubmitKeyRotation_clock.
  - apply RotateKey_clock.
  - by destruct (Rotation_VerifyHash k).
  - done.
Qed.
End clocked.

(** ** The period *)

(** The longest period of a loop whose engine was built with this interval. *)
Definition longest_period (interval : Z) : Z :=
  if (interval <? MaxCycleDuration DefaultConfig)%Z then (4 * interval)%Z else interval.

Section pace.
Context `{Primitives, Cbor, Ristretto, Gonum, StateCbor}.

(** The timing of an engine built with this interval. *)
Record paced (interval : Z) (e : Engine) : Prop := {
  pc_base : BaseInterval (en_cfg e) = interval;
  pc_max : MaxCycleDuration (en_cfg e) =
           if (interval <? MaxCycleDuration DefaultConfig)%Z then (interval * 4)%Z else MaxCycleDuration DefaultConfig;
  pc_low : (interval ≤ CycleDuration e)%Z;
  pc_high : (CycleDuration e ≤ longest_period interval)%Z;
}.

Lemma paced_same_clock interval e e' : same_clock e e' → paced interval e → paced interval e'.
Proof. intros [Hc Ht] [? ? ? ?]. by split; unfold CycleDuration; rewrite ?Hc, ?Ht. Qed.

Lemma paced_update interval rtt e : (0 < interval)%Z → paced interval e → paced interval (updateCycleDuration rtt e).
Proof.
  intros Hi [Hb Hm Hl Hh]. unfold updateCycleDuration.
  split; [exact Hb|exact Hm|..]; unfold CycleDuration; cbn [with_timing en_timing tm_cycleDuration]; rewrite Hb, Hm; unfold longest_period;
    repeat case_match; lia.
Qed.

Lemma paced_lastCycleStart interval t e : paced interval e → paced interval (set_lastCycleStart t e).
Proof. intros [Hb Hm Hl Hh]. by split. Qed.

Lemma newEngine_paced node interval gossip peers : (0 < interval)%Z → paced interval (newEngine node interval gossip peers).
Proof.
  intros Hi. split; cbn -[MaxCycleDuration DefaultConfig Z.mul]; [done| |lia|].
  - apply Z.ltb_lt in Hi. by rewrite Hi.
  - unfold longest_period. case_match; lia.
Qed.

Lemma NewEngineWithPeers_clock node interval gossip peers :
  same_clock (newEngine node interval gossip peers) (NewEngineWithPeers node interval gossip peers).
Proof. unfold NewEngineWithPeers, registerPeerValidatorSetLocked. cbv zeta. by case_match. Qed.

(** The engine is built by one of the two constructors. *)
Definition built (node : Node) (interval : Z) (gossip : bool) (peers : slice Peer) (e : Engine) : Prop :=
  e = newEngine node interval gossip peers ∨ e = NewEngineWithPeers node interval gossip peers.
End pace.

Section period.
Context `{Primitives, Cbor, Ristretto, Gonum, StateCbor} {bus : Type} `{GossipChannel bus}.
Context (env : nat → bus → bus) (clock : nat → Z) (patience : nat → nat) (interval : Z).

Local Notation Loop := (Loop (bus := bus)).
Local Notation loop_move := (loop_move env clock patience).
Local Notation loop_step := (loop_step env clock patience).
Local Notation loop_reaches := (loop_reaches env clock patience).

Lemma built_clock node gossip peers e : built node interval gossip peers e →
  same_clock (newEngine node interval gossip peers) e.
Proof. intros [->| ->]; [done|apply NewEngineWithPeers_clock]. Qed.

Record in_step (l : Loop) : Prop := {
  is_paced : paced interval (w_eng (lp_world l));
  is_alive : lp_phase l ≠ LpCrashed;
  is_period : ∀ p, lp_phase l = LpWait p → p = CycleDuration (w_eng (lp_world l));
}.

Lemma arm_waits e : (0 < interval)%Z → paced interval e →
  NewTicker (CycleDuration e) = LpWait (CycleDuration e).
Proof. intros Hi [_ _ Hl _]. unfold NewTicker. by rewrite (proj2 (Z.ltb_lt _ _)) by lia. Qed.

Lemma in_step_move tick l : (0 < interval)%Z → in_step l → in_step (loop_move tick l).
Proof.
  intros Hi [Hp Ha Hw]. unfold EngineLoop.loop_move. destruct (lp_phase l) eqn:Eph; [| | | |by split; rewrite ?Eph..].
  - cbv zeta. rewrite arm_waits by done. split; [exact Hp|done|]. by intros p [= <-].
  - split; [by apply paced_lastCycleStart|done..].
  - split; [|done..]. eapply paced_same_clock; [apply cycle_clock|exact Hp].
  - split; [by apply paced_update|done..].
Qed.

Lemma in_step_step a l l' : (0 < interval)%Z → loop_step a l l' → in_step l → in_step l'.
Proof.
  intros Hi Hstep Hl. destruct Hstep as [tick l ? ?|l p ? ?|c l ?].
  - by apply in_step_move.
  - split; [apply Hl|done..].
  - pose proof (engine_do_clock env clock patience c (lp_world l)) as Hc.
    split; [by eapply paced_same_clock, Hl|apply Hl|]. intros p Hp. cbn [loop_call lp_world]. unfold CycleDuration.
    rewrite (sk_timing _ _ Hc). by apply (is_period _ Hl).
Qed.

Lemma in_step_reaches P node gossip peers e l : (0 < interval)%Z → built node interval gossip peers e →
  loop_reaches P e l → in_step l.
Proof.
  intros Hi He (b & n & Hrun). eapply (rtc_ind_r in_step); [| |exact Hrun].
  - split; [|done..]. eapply paced_same_clock; [by eapply built_clock|by apply newEngine_paced].
  - intros l1 l2 _ (a & Hstep & _) Hl. by eapply in_step_step.
Qed.

(** A live loop always has a move, and its moves keep it alive. *)
Lemma moves_reach P node gossip peers e ticks : (0 < interval)%Z → built node interval gossip peers e →
  ∀ l, loop_reaches P e l → lp_phase l ≠ LpReturned →
  loop_reaches P e (loop_moves env clock patience ticks l) ∧ lp_phase (loop_moves env clock patience ticks l) ≠ LpReturned.
Proof.
  intros Hi He. induction ticks as [|t ticks IH]; intros l Hl Hr; [done|]. cbn [loop_moves foldl].
  apply IH.
  - pose proof (is_alive _ (in_step_reaches P node gossip peers e l Hi He Hl)) as Ha.
    destruct Hl as (b & n & Hrun). exists b, n. eapply rtc_r; [exact Hrun|]. exists None. by split; [constructor|].
  - unfold EngineLoop.loop_move. destruct (lp_phase l) eqn:E; try done.
    + cbn [lp_phase]. unfold NewTicker. by case_match.
    + by rewrite E.
Qed.

(** A loop that never gets past its first ticker. *)
Definition stillborn (l : Loop) : Prop :=
  lp_phase l = LpCrashed ∨
  lp_phase l = LpArm ∧ CycleDuration (w_eng (lp_world l)) = interval.

Lemma stillborn_step a l l' : (interval ≤ 0)%Z → loop_step a l l' → stillborn l → stillborn l'.
Proof.
  intros Hi Hstep [Hc|[Ha Ht]]; destruct Hstep as [tick l ? ?|l p ? ?|c l ?]; try congruence.
  - left. unfold EngineLoop.loop_move. rewrite Ha. cbn [lp_phase]. unfold NewTicker.
    by rewrite Ht, (proj2 (Z.ltb_ge _ _)).
  - right. split; [exact Ha|]. cbn [loop_call lp_world]. unfold CycleDuration. by rewrite (sk_timing _ _ (engine_do_clock env clock patience c (lp_world l))).
Qed.

(** C24: The period of the cycle loop. An engine built with a positive interval never
    crashes its loop, whatever is called on it and however its cycles end, and the ticker
    always has the period that [CycleDuration] reports, at least the interval and at most
    four times the interval (or exactly the interval from ten seconds on). With any other interval the loop does not
    survive the creation of its first ticker. *)
Theorem cycle_loop_period P node gossip peers e l :
  built node interval gossip peers e → loop_reaches P e l →
  if (0 <? interval)%Z
  then lp_phase l ≠ LpCrashed ∧ (∀ p, lp_phase l = LpWait p →
         p = CycleDuration (w_eng (lp_world l)) ∧ (interval ≤ p ≤ longest_period interval)%Z)
  else lp_phase l = LpCrashed ∨ lp_phase l = LpArm ∧ ∀ tick, lp_phase (loop_move tick l) = LpCrashed.
Proof.
  intros He Hl. destruct (Z.ltb_spec 0 interval) as [Hi|Hi].
  { destruct (in_step_reaches P node gossip peers e l Hi He Hl) as [Hp Ha Hw]. split; [exact Ha|].
    intros p Hph. rewrite (Hw p Hph). split; [done|]. split; apply Hp. }
  assert (Hs : stillborn l).
  { destruct Hl as (b & n & Hrun). eapply (rtc_ind_r stillborn); [| |exact Hrun].
    - right. split; [done|]. cbn. unfold CycleDuration. by rewrite (sk_timing _ _ (built_clock _ _ _ _ He)).
    - intros l1 l2 _ (a & Hstep & _) Hs. by eapply stillborn_step. }
  destruct Hs as [Hc|[Ha Ht]]; [by left|right]. split; [exact Ha|]. intros tick.
  unfold EngineLoop.loop_move. rewrite Ha. cbn [lp_phase]. unfold NewTicker. by rewrite Ht, (proj2 (Z.ltb_ge _ _)).
Qed.
End period.

(** The cap of a node with the default interval is twelve seconds and not the ten of the
    configuration: a cycle of ten seconds makes the next one wait for twelve. *)
Lemma default_cap_exceeded `{Primitives, Cbor, Ristretto, Gonum, StateCbor} node gossip peers :
  CycleDuration (updateCycleDuration (10 * second) (newEngine node (BaseInterval DefaultConfig) gossip peers)) =
  (12 * second)%Z ∧ MaxCycleDuration DefaultConfig = (10 * second)%Z.
Proof. split; vm_compute; reflexivity. Qed.

(** ** The loop of a single node *)

Section solo_loop.
Context `{Primitives, Cbor, Ristretto, Gonum, StateCbor} `{!MldsaCorrect, !RistrettoLaws}
  {bus : Type} `{GossipChannel bus}.
Context (env : nat → bus → bus) (clock : nat → Z) (patience : nat → nat).
Context (u : UIDZeroSoulbound) (Huid : uid_wf u).
Context (Hroot_total : ∀ c n g l, is_Some (cbor_root_state c n g l)).

Local Notation Loop := (Loop (bus := bus)).
Local Notation loop_move := (loop_move env clock patience).
Local Notation loop_moves := (loop_moves env clock patience).
Local Notation loop_step := (loop_step env clock patience).
Local Notation loop_reaches := (loop_reaches env clock patience).

(** Calls other than key rotations. *)
Definition no_rotation (c : engine_call) : Prop :=
  match c with CallSolo _ => True | _ => False end.

(** Two worlds whose engines differ in their timing only. *)
Definition retimed (w w' : World (bus := bus)) : Prop := ∃ t, w_eng w' = with_timing t (w_eng w).

Lemma good_retimed w w' : retimed w w' → good u w → good u w'.
Proof.
  intros [t Ht] [[? ? ? ? ? ? ? ? ?] Hc]. split; rewrite Ht; [by split|exact Hc].
Qed.

Lemma retimed_tick tick w : retimed w (on_engine (set_lastCycleStart tick) w).
Proof. by eexists. Qed.

Lemma retimed_measure w : retimed w (measure clock w).
Proof. by eexists. Qed.

#[local] Hint Resolve retimed_tick retimed_measure : core.

Lemma good_move tick l : good u (lp_world l) → good u (lp_world (loop_move tick l)).
Proof.
  intros Hg. unfold EngineLoop.loop_move. destruct (lp_phase l); cbn [lp_world]; try exact Hg.
  - by eapply good_retimed.
  - by apply (good_step env clock patience u Huid Hroot_total DoCycle).
  - by eapply good_retimed.
Qed.

Lemma good_loop_step a l l' : loop_step a l l' → from_option no_rotation True a →
  good u (lp_world l) → good u (lp_world l').
Proof.
  intros Hstep Ha Hg. destruct Hstep as [tick l ? ?|l p ? ?|[op| | |] l ?]; try done; [by apply good_move|].
  by apply (good_step env clock patience u Huid Hroot_total).
Qed.

Lemma good_reaches node interval l : n_UID node = u → loop_reaches no_rotation (NewEngine node interval) l →
  good u (lp_world l).
Proof.
  intros Hn (b & n & Hrun). eapply (rtc_ind_r (fun l => good u (lp_world l))); [| |exact Hrun].
  - split; [by apply NewEngine_solo|]. intros _. split; [constructor|]. by intros i x Hx.
  - intros l1 l2 _ (a & Hstep & Ha) Hg. by eapply good_loop_step.
Qed.

(** The state of a loop in which the hash of [entry] is about to be anchored. *)
Record awaits (entry : ProvenanceEntry) (pf : VRFProof) (w : World (bus := bus)) : Prop := {
  aw_good : good u w;
  aw_short : (Z.of_nat (length (en_blocks (w_eng w))) < 2 ^ 64)%Z;
  aw_pending : entry ∈ en_pendingEntries (w_eng w) ++ en_pending (w_eng w);
  aw_proof : VRFProve u (makeAlpha (nextCycleLocked (w_eng w)) (Smt.Root (en_st (w_eng w)))) = Ok pf;
}.

Lemma awaits_retimed entry pf w w' : retimed w w' → awaits entry pf w → awaits entry pf w'.
Proof.
  intros Hr [Hg Hs Hp Hv]. pose proof (good_retimed _ _ Hr Hg) as Hg'. destruct Hr as [t Ht].
  split; [exact Hg'|rewrite Ht..]; done.
Qed.

Lemma awaits_cycle entry pf w : awaits entry pf w → length (e_Hash entry) = 32 →
  is_Some (LookupHash (w_eng (RunCycle env clock patience w)) (e_Hash entry)).
Proof.
  intros [Hg Hs Hp Hv] Hh. apply (solo_cycle_anchors env clock patience u Huid Hroot_total w pf); try done; [apply Hg|].
  by apply (gd_chain _ _ Hg).
Qed.

Lemma NewTicker_not_run d : NewTicker d ≠ LpRun.
Proof. unfold NewTicker. by case_match. Qed.

(** The moves other than a cycle keep the anchor proofs. *)
Lemma move_keeps_anchors tick l : lp_phase l ≠ LpRun →
  en_anchored (w_eng (lp_world (loop_move tick l))) = en_anchored (w_eng (lp_world l)).
Proof. intros Hne. unfold EngineLoop.loop_move. by destruct (lp_phase l). Qed.

(** Four moves of a live loop contain exactly one cycle. *)
Lemma four_moves interval entry pf l ticks :
  (0 < interval)%Z → in_step interval l → lp_phase l ≠ LpReturned → awaits entry pf (lp_world l) →
  length (e_Hash entry) = 32 → length ticks = 4 →
  is_Some (LookupHash (w_eng (lp_world (loop_moves ticks l))) (e_Hash entry)).
Proof.
  intros Hi [Hpaced Halive _] Hret Haw Hh Ht.
  destruct ticks as [|t1 [|t2 [|t3 [|t4 [|]]]]]; try discriminate Ht. clear Ht.
  unfold EngineLoop.loop_moves. cbn [foldl]. destruct l as [w c ph]. cbn [lp_world lp_phase] in *.
  destruct ph as [|p| | | |]; [..|by destruct Hret|by destruct Halive].
  - unfold EngineLoop.loop_move at 4. cbn [lp_phase lp_world lp_cancelled]. rewrite (arm_waits interval) by done.
    apply (awaits_cycle entry pf); [|done]. exact (awaits_retimed entry pf _ _ (retimed_tick _ _) Haw).
  - apply (awaits_cycle entry pf); [|done]. exact (awaits_retimed entry pf _ _ (retimed_tick _ _) Haw).
  - set (l3 := EngineLoop.loop_move _ _ _ t3 _). unfold LookupHash.
    assert (Hph : lp_phase l3 ≠ LpRun) by apply NewTicker_not_run.
    rewrite (move_keeps_anchors t4 l3 Hph). exact (awaits_cycle entry pf w Haw Hh).
  - unfold EngineLoop.loop_move at 3 4. cbn [lp_phase lp_world lp_cancelled].
    rewrite (arm_waits interval) by (try done; by apply paced_update).
    apply (awaits_cycle entry pf); [|done]. exact (awaits_retimed entry pf _ _ (retimed_tick _ _) (awaits_retimed entry pf _ _ (retimed_measure _) Haw)).
Qed.

(** C9: The loop of a single node with a positive interval serves. At every moment of the
    loop, whatever submissions, mandates and configuration changes other goroutines make in
    between (no key rotations, after which the engine would keep signing with its old key),
    the chain is one that a light client follows with the node's key alone; and when a hash is
    pending and the node can compute its VRF proof for the next cycle, the loop's next four
    moves leave it anchored. *)
Theorem cycle_loop_serves node interval l :
  n_UID node = u → (0 < interval)%Z → loop_reaches no_rotation (NewEngine node interval) l →
  let e := w_eng (lp_world l) in
  (Z.of_nat (length (en_blocks e)) < 2 ^ 64)%Z →
  followed u (en_blocks e) ∧
  ∀ entry pf ticks, lp_phase l ≠ LpReturned → entry ∈ en_pendingEntries e ++ en_pending e →
    length (e_Hash entry) = 32 → VRFProve u (makeAlpha (nextCycleLocked e) (Smt.Root (en_st e))) = Ok pf →
    length ticks = 4 → is_Some (LookupHash (w_eng (lp_world (loop_moves ticks l))) (e_Hash entry)).
Proof.
  intros Hn Hi Hl e Hlen. pose proof (good_reaches _ _ _ Hn Hl) as Hg. split; [by apply (gd_chain _ _ Hg)|].
  intros entry pf ticks Hret Hin Hh Hp Ht. apply (four_moves interval entry pf); [exact Hi| |done|by split|done|done].
  eapply in_step_reaches; [exact Hi| |exact Hl]. by left.
Qed.
End solo_loop.

(** ** Concrete instance *)

Local Notation demo_call := (loop_call demo_env demo_clock demo_patience).
Local Notation demo_reaches := (loop_reaches demo_env demo_clock demo_patience).

(** Two submissions before the first ticker. *)
Definition demo_start : Loop (bus := MemoryBus) :=
  demo_call (CallSolo (DoEnqueue (demo_submission 2)))
    (demo_call (CallSolo (DoEnqueue (demo_submission 1))) (Start fresh_world)).

(** A full turn of the loop with nothing to do, ending in the next wait. *)
Definition demo_turn : Loop (bus := MemoryBus) :=
  loop_moves demo_env demo_clock demo_patience [0; 0; 0; 0; 0]%Z (Start fresh_world).

Lemma demo_start_reached : demo_reaches no_rotation (NewEngine demo_node second) demo_start.
Proof.
  exists NewMemoryBus, 0. eapply rtc_l; [|apply rtc_once].
  - exists (Some (CallSolo (DoEnqueue (demo_submission 1)))). split; [|exact I]. apply step_call. discriminate.
  - exists (Some (CallSolo (DoEnqueue (demo_submission 2)))). split; [|exact I]. apply step_call. discriminate.
Qed.

Lemma demo_turn_reached : demo_reaches no_rotation (NewEngine demo_node second) demo_turn.
Proof.
  unfold demo_turn.
  refine (proj1 (moves_reach demo_env demo_clock demo_patience second no_rotation demo_node false None _
    [0; 0; 0; 0; 0]%Z eq_refl (or_introl eq_refl) (Start fresh_world) _ _)); [|discriminate].
  exists NewMemoryBus, 0. apply rtc_refl.
Qed.

Lemma demo_turn_waits : ∃ l, demo_turn = l ∧
  match lp_phase l with LpWait p => (p =? second)%Z | _ => false end = false ∧
  match lp_phase l with LpWait _ => true | _ => false end = true.
Proof. exists demo_turn. split_and!; [reflexivity|vm_compute; reflexivity..]. Qed.

(** After the first turn the loop waits longer than the interval it was built with. *)
Lemma cycle_loop_period_witness : ∃ p, lp_phase demo_turn = LpWait p ∧ p ≠ second ∧ (second ≤ p ≤ 4 * second)%Z.
Proof.
  destruct (cycle_loop_period demo_env demo_clock demo_patience second no_rotation demo_node false None _ demo_turn
    (or_introl eq_refl) demo_turn_reached) as [_ Hp].
  destruct demo_turn_waits as (l & Hl & Hne & Hw). rewrite Hl in Hp |- *.
  destruct (lp_phase l) as [|p| | | |]; try discriminate Hw. exists p. split; [reflexivity|].
  split; [intros ->; discriminate Hne|]. exact (proj2 (Hp p eq_refl)).
Defined.

Lemma demo_start_ready : ∃ l, demo_start = l ∧ lp_phase l ≠ LpReturned ∧
  (Z.of_nat (length (en_blocks (w_eng (lp_world l)))) <? 2 ^ 64)%Z = true ∧
  demo_submission 2 ∈ en_pendingEntries (w_eng (lp_world l)) ++ en_pending (w_eng (lp_world l)) ∧
  match VRFProve (demo_uid 7) (makeAlpha (nextCycleLocked (w_eng (lp_world l))) (Smt.Root (en_st (w_eng (lp_world l)))))
  with Ok _ => true | _ => false end = true.
Proof.
  exists demo_start. split_and!; [reflexivity|discriminate|vm_compute; reflexivity| |vm_compute; reflexivity].
  apply (bool_decide_unpack _). vm_compute. exact I.
Qed.

(** The two submissions are anchored by the first four moves. *)
Lemma cycle_loop_serves_witness : ∃ l, demo_start = l ∧
  is_Some (LookupHash (w_eng (lp_world (loop_moves demo_env demo_clock demo_patience [1; 2; 3; 4]%Z l))) (key32 2)).
Proof.
  pose proof (cycle_loop_serves demo_env demo_clock demo_patience (demo_uid 7) demo_uid_wf toy_root_total
    demo_node second demo_start eq_refl eq_refl demo_start_reached) as Hserve. cbv zeta in Hserve.
  destruct demo_start_ready as (l & Hl & Hret & Hlen & Hin & Hvrf). rewrite Hl in Hserve.
  destruct (VRFProve (demo_uid 7) (makeAlpha (nextCycleLocked (w_eng (lp_world l))) (Smt.Root (en_st (w_eng (lp_world l))))))
    as [pf|er|] eqn:Ep; [|discriminate Hvrf..].
  exists l. split; [exact Hl|].
  exact (proj2 (Hserve (proj1 (Z.ltb_lt _ _) Hlen)) (demo_submission 2) pf [1; 2; 3; 4]%Z Hret Hin eq_refl eq_refl eq_refl).
Defined.
