(* ===== verification/Provectl.v ===== *)
(** * The admin command (cmd/provectl: main.go, init.go)

    [init] writes identity files; the other commands make one call each over the client stub
    [AnchorClient] and print its answer. [log.Fatal] is [Fatal], with the format of its
    message; a printed line is its label and the value in it; the last line of [init], which
    repeats its arguments, is left out. The server always sets the block
    of a submission's answer and the rate of the health report to 0.
    Flag parsing (cobra) and dialling are left out. *)
From Stdlib Require Import SpecFloat.
From S2P Require Import Prelude Crypto Errors Vrf Identity State Rest Grpc Anchor Conformance.
Local Open Scope string_scope.

(** ** init *)

(** [cbor.Marshal] of an identity. *)
Class UidEncode := { uid_encode : UIDZeroSoulbound → option bytes }.

Section init.
Context `{Primitives, UidCbor, Ristretto, FileSystem, UidEncode}.

Definition init_network : bytes := copy_array 32 (string_bytes "gleipnir-genesis-network").

Definition init_seed (i : Z) : string :=
  "gleipnir-validator-" ++ decimal i ++ "-" ++ hex_encode (string_bytes ("genesis-" ++ decimal i)).

Definition init_file (i : Z) : string := "uid-" ++ decimal i ++ ".cbor".

(** One turn of the loop: the line that it prints, a file name and an identity. *)
Definition init_one (outDir : string) (i : Z) (d : fs) : fs * outcome gerror (string * string) :=
  match NewUIDZero (init_seed i) init_network true None with
  | Err _ => (d, Err (ErrText "NewUIDZero: %w"))
  | Panic => (d, Panic)
  | Ok uid =>
      match uid_encode uid with
      | None => (d, Err (ErrText "cbor marshal uid-%d: %w"))
      | Some em =>
          let '(d', ok) := WriteFile (Join outDir (init_file i)) em d in
          if ok : bool then (d', Ok (init_file i, ID uid)) else (d', Err (ErrText "write %s: %w"))
      end
  end.

(** The loop from [i], with [n] turns to go. *)
Fixpoint init_loop (outDir : string) (n : nat) (i : Z) (d : fs) : fs * outcome gerror (list (string * string)) :=
  match n with
  | O => (d, Ok [])
  | S n =>
      match init_one outDir i d with
      | (d1, Ok line) =>
          match init_loop outDir n (i + 1) d1 with
          | (d2, Ok lines) => (d2, Ok (line :: lines))
          | (d2, Err e) => (d2, Err e)
          | (d2, Panic) => (d2, Panic)
          end
      | (d1, Err e) => (d1, Err e)
      | (d1, Panic) => (d1, Panic)
      end
  end.

Definition cmdInit (validators : Z) (outDir : string) (d : fs) : fs * outcome gerror (list (string * string)) :=
  let '(d1, ok) := MkdirAll outDir d in
  if ok : bool then init_loop outDir (Z.to_nat validators) 1 d1 else (d1, Err (ErrText "mkdir: %w")).
End init.

(** ** Calls on a node *)

Inductive cell :=
| CText (s : string)
| CStatus (s : status_text)
| CInt (n : Z)
| CHex (b : bytes)
| CFloat (f : spec_float)
| CBool (b : bool)
| CRatio (a b : Z).

Inductive cli_out :=
| Fatal (format : string)
| Printed (lines : list (string * cell)).

Section commands.
Context {S : Type} `{AnchorClient S}.

Local Notation "'let!' x ':=' m 'in' k" := (seq_bind m (fun x => k)) (at level 200, x name, right associativity).

Definition healthCmd : session cli_out (S := S) :=
  let! r := call call_GetHealth in
  done match r with
  | inl _ => Fatal "health failed: %v"
  | inr resp =>
      Printed [("Node", CText (ph_NodeId resp)); ("Status", CText (ph_Status resp)); ("Height", CInt (ph_BlockHeight resp));
               ("StateRoot", CHex (ph_CurrentRoot resp)); ("λ₁", CFloat (ph_Lambda1 resp));
               ("Peers", CRatio (ph_ActivePeers resp) (ph_TotalPeers resp)); ("Pending", CInt (ph_PendingHashes resp));
               ("TPS", CFloat (S754_zero false))]
  end.

Definition rootStateCmd : session cli_out (S := S) :=
  let! r := call call_GetCurrentStateRoot in
  done match r with
  | inl _ => Fatal "root failed: %v"
  | inr (root, block, lambda1) => Printed [("StateRoot", CHex root); ("Block", CInt block); ("λ₁", CFloat lambda1)]
  end.

(** The request of an anonymous submission. *)
Definition bare_request (hash : bytes) (label : string) (ts : Z) : pb_SubmitRequest :=
  {| sq_Hash := hash; sq_Submitter := []; sq_Timestamp := ts; sq_Label := label; sq_Approver := []; sq_Reference := [];
     sq_Signature := [] |}.

Definition submitCmd (hashHex label : string) : session cli_out (S := S) :=
  if String.eqb hashHex "" then done (Fatal "--hash is required")
  else
    match hex_decode hashHex with
    | None => done (Fatal "invalid hash: %v")
    | Some hash =>
        let! ts := now_nano in
        let! r := submit (bare_request hash label ts) in
        done match r with
        | inl _ => Fatal "submit failed: %v"
        | inr resp => Printed [("Accepted", CBool (sp_Accepted resp)); ("Status", CStatus (sp_Status resp));
                               ("Block", CInt 0); ("BlockTime", CInt 0)]
        end
    end.

Definition verifyCmd (hashHex : string) : session cli_out (S := S) :=
  if String.eqb hashHex "" then done (Fatal "--hash is required")
  else
    match hex_decode hashHex with
    | None => done (Fatal "invalid hash: %v")
    | Some hash =>
        let! r := verify hash in
        done match r with
        | inl _ => Fatal "verify failed: %v"
        | inr resp =>
            if pp_Found resp
            then Printed [("Found", CText "yes"); ("Block", CInt (pp_BlockIndex resp));
                          ("BlockTime", CInt (pp_BlockTime resp)); ("StateRoot", CHex (pp_StateRoot resp));
                          ("Submitter", CHex (pp_Submitter resp)); ("Label", CText (pp_Label resp))]
            else Printed [("Found", CText "no")]
        end
    end.
End commands.
