(* ===== verification/ProvectlTheorems.v ===== *)
(** * Theorems about the admin command

    The files of [provectl init] start nodes; the other commands against a live node. *)
From Stdlib Require Import SpecFloat.
From S2P Require Import Prelude Crypto Toy Sha256 Smt Errors Vrf Identity IdentityTheorems Chain ToyCbor ChainTheorems.
From S2P Require Import Config Rotation Mandates Quorum QuorumTheorems LightClient LightTheorems Gossip State StateTheorems.
From S2P Require Import Engine EngineCycle EngineApi Demo SoloTheorems SoloChain Rest Grpc GrpcTheorems Anchor ToyDisk.
From S2P Require Import AnchorTheorems Daemon DaemonTheorems Conformance ConformanceTheorems Provectl.
Local Open Scope string_scope.

(** Decoding gives back the identity that was encoded. *)
Class UidCodecLaws `{Primitives, Ristretto, UidEncode, UidDecode} : Prop := {
  uid_codec u data : uid_wf u → uid_encode u = Some data → uid_decode data = Some u;
}.

Section init.
Context `{Primitives, UidCbor, Ristretto, !RistrettoLaws, FileSystem, !FileSystemLaws, UidEncode}.
Context (Hview : ∀ v, is_Some (cbor_public_view v)) (outDir : string).

Definition init_path (i : Z) : string := Join outDir (init_file i).

Lemma init_file_plain i : (0 ≤ i)%Z → plain (init_file i).
Proof.
  intros Hi. unfold plain, init_file. split_and!; [|done..].
  rewrite !free_app, (digits_free (decimal i) 0 i) by (by apply decimal_value). done.
Qed.

Lemma init_path_inj i j : (0 ≤ i)%Z → (0 ≤ j)%Z → init_path i = init_path j → i = j.
Proof.
  intros Hi Hj. unfold init_path. rewrite !Join_plain by (by apply init_file_plain).
  intros Heq%(inj _). unfold init_file in Heq. apply (inj _) in Heq. apply string_app_inj_r in Heq.
  by apply decimal_inj.
Qed.

Lemma init_path_nonempty i : (0 ≤ i)%Z → init_path i ≠ "".
Proof.
  intros Hi. unfold init_path. rewrite Join_plain by (by apply init_file_plain).
  by destruct (dir_prefix outDir).
Qed.

(** File [i] holds the identity of seed [i], and the line says so. *)
Definition created (d : fs) (i : Z) (line : string * string) : Prop :=
  ∃ u data, NewUIDZero (init_seed i) init_network true None = Ok u ∧ uid_encode u = Some data ∧
    line = (init_file i, ID u) ∧ fs_read d (init_path i) = Some data.

Lemma init_one_Ok i d d' line : init_one outDir i d = (d', Ok line) →
  created d' i line ∧ ∀ q, q ≠ init_path i → fs_read d' q = fs_read d q.
Proof.
  unfold init_one. destruct (NewUIDZero _ _ _ _) as [u|er|] eqn:Eu; [|done..].
  destruct (uid_encode u) as [em|] eqn:Ee; [|done]. fold (init_path i).
  pose proof (WriteFile_read (init_path i) em d) as Hr. pose proof (WriteFile_other (init_path i) em d) as Ho.
  destruct (WriteFile (init_path i) em d) as [d1 [|]]; [|done]. intros [= <- <-]. cbn in Hr, Ho.
  split; [|exact Ho]. exists u, em. split_and!; auto.
Qed.

Lemma init_loop_Ok n : ∀ i d d' lines, (0 ≤ i)%Z → init_loop outDir n i d = (d', Ok lines) →
  length lines = n ∧
  (∀ k line, lines !! k = Some line → created d' (i + Z.of_nat k) line) ∧
  (∀ q, (∀ j, (i ≤ j)%Z → q ≠ init_path j) → fs_read d' q = fs_read d q).
Proof.
  induction n as [|n IH]; intros i d d' lines Hi; cbn [init_loop].
  { intros [= <- <-]. by split_and!. }
  destruct (init_one outDir i d) as [d1 [line|er|]] eqn:E1; [|done..].
  destruct (init_loop outDir n (i + 1) d1) as [d2 [rest|er|]] eqn:E2; [|done..]. intros [= <- <-].
  destruct (init_one_Ok _ _ _ _ E1) as [Hc1 Ho1]. destruct (IH (i + 1)%Z _ _ _ ltac:(lia) E2) as (Hlen & Hc & Ho). split_and!.
  - cbn [length]. by rewrite Hlen.
  - intros [|k] x Hx; cbn in Hx.
    + injection Hx as <-. replace (i + Z.of_nat 0)%Z with i by lia.
      destruct Hc1 as (u & data & Hu & He & Hl & Hr). exists u, data. split_and!; [done..|].
      rewrite Ho; [done|]. intros j Hj Heq. apply init_path_inj in Heq; lia.
    + replace (i + Z.of_nat (S k))%Z with (i + 1 + Z.of_nat k)%Z by lia. by apply Hc.
  - intros q Hq. rewrite Ho by (intros j Hj; apply Hq; lia). apply Ho1. apply Hq. lia.
Qed.

Lemma cmdInit_Ok validators d d' lines : cmdInit validators outDir d = (d', Ok lines) →
  length lines = Z.to_nat validators ∧ ∀ i, (1 ≤ i ≤ validators)%Z →
    ∃ line, lines !! Z.to_nat (i - 1) = Some line ∧ created d' i line.
Proof.
  unfold cmdInit. destruct (MkdirAll outDir d) as [d1 [|]]; [|done]. intros Hloop.
  apply init_loop_Ok in Hloop as (Hlen & Hc & _); [|lia]. split; [done|]. intros i Hi.
  destruct (lines !! Z.to_nat (i - 1)) as [line|] eqn:El.
  - exists line. split; [done|]. replace i with (1 + Z.of_nat (Z.to_nat (i - 1)))%Z by lia. by apply Hc.
  - apply lookup_ge_None in El. lia.
Qed.
End init.

(** ** From init to a node *)

Section start.
Context `{Primitives, Cbor, Ristretto, Gonum, StateCbor, SubmitJson, UidDecode, UidCbor, FileSystem, UidEncode}.
Context `{!RistrettoLaws, !FileSystemLaws, !UidCodecLaws}.
Context (Hview : ∀ v, is_Some (cbor_public_view v)).

(** The options that the daemon gives to its REST server. *)
Definition rest_options (fl : daemon_flags) : list ServerOption :=
  [WithKeysDir (df_restKeysDir fl); WithAllowedRoots (df_restAllowedRoots fl); WithRateLimit (df_restRateLimit fl);
   WithAllowSimulatedIdentities (df_allowSimulated fl)].

(** A daemon without peers, given a file with a simulated identity. *)
Lemma daemon_simulated read dir startTime p2p fl data u :
  df_uidFile fl ≠ "" → df_nodeID fl ≠ "" → TrimSpace (df_peers fl) = "" →
  read (df_uidFile fl) = Some data → uid_decode data = Some u → u_Simulated u = true →
  if df_allowSimulated fl
  then ∀ rest, NewServer u (rest_options fl) dir startTime = Ok rest →
         ∃ srv, daemon_main read dir startTime p2p fl =
           Ok (srv, NewEngine {| n_UID := u; n_Peers := []; n_Addr := df_nodeID fl |} defaultCycleInterval, rest)
  else daemon_main read dir startTime p2p fl = Err (ErrText "simulated identity").
Proof.
  intros Hf Hn Hp Hr Hd Hs. apply String.eqb_neq in Hf, Hn. unfold daemon_main. rewrite Hf, Hn, Hr, Hd.
  unfold server_options. rewrite Hp. fold (rest_options fl). unfold fail_if. cbn [outcome_bind String.eqb].
  unfold Grpc_NewServer. cbn -[NewServer NewEngine Registry.Register rest_options].
  destruct (df_allowSimulated fl); cbn -[NewServer NewEngine Registry.Register rest_options].
  - intros rest ->. by eexists.
  - by rewrite Hs.
Qed.

(** C33: The files of [provectl init] start nodes. When it succeeds it has written one file
    per validator, none of which overwrites another; and a daemon that is pointed to one of
    them runs a single node with the sealed identity that [init] derived and printed for that
    file, if simulated identities are allowed, and refuses to start if they are not. *)
Theorem init_starts_nodes outDir validators d d' lines :
  cmdInit validators outDir d = (d', Ok lines) →
  length lines = Z.to_nat validators ∧
  ∀ i, (1 ≤ i ≤ validators)%Z → ∃ u,
    lines !! Z.to_nat (i - 1) = Some (init_file i, ID u) ∧ uid_wf u ∧ VerifyDigest u = true ∧
    ∀ dir startTime p2p fl,
      df_uidFile fl = Join outDir (init_file i) → df_nodeID fl ≠ "" → TrimSpace (df_peers fl) = "" →
      if df_allowSimulated fl
      then ∀ rest, NewServer u (rest_options fl) dir startTime = Ok rest →
             ∃ srv, daemon_main (fs_read d') dir startTime p2p fl =
               Ok (srv, NewEngine {| n_UID := u; n_Peers := []; n_Addr := df_nodeID fl |} defaultCycleInterval, rest)
      else daemon_main (fs_read d') dir startTime p2p fl = Err (ErrText "simulated identity").
Proof.
  intros Hinit. destruct (cmdInit_Ok outDir validators d d' lines Hinit) as [Hlen Hc]. split; [exact Hlen|].
  intros i Hi. destruct (Hc i Hi) as (line & Hline & u & data & Hu & He & -> & Hr).
  destruct (NewUIDZero_spec (init_seed i) init_network true None (or_introl eq_refl) Hview)
    as (u' & Hu' & Hwf & Hdig & Hsim & _). rewrite Hu in Hu'. injection Hu' as <-.
  exists u. split_and!; [done..|]. intros dir startTime p2p fl Hf Hn Hp.
  apply (daemon_simulated (fs_read d') dir startTime p2p fl data u); try done.
  - rewrite Hf. apply init_path_nonempty. lia.
  - by rewrite Hf.
  - by apply uid_codec.
Qed.
End start.

(** ** Submissions without an identity *)

Section anonymous.
Context `{Primitives, Cbor, Ristretto, Gonum, StateCbor} {bus : Type} `{GossipChannel bus}.
Context (env : nat → bus → bus) (clock : nat → Z) (patience : nat → nat).
Context (between : nat → list solo_op) (during : nat → list (list solo_op)) (random : nat → nat → bytes).

(** No server knows the empty submitter. *)
Lemma bare_refused nodeID uid opts srv e hash label ts : uid_wf uid → Grpc_NewServer nodeID uid opts = Ok (srv, e) →
  authenticateSubmit srv (bare_request hash label ts) =
  Err (WrapValidationError ErrCodeSubmitterMismatch "unknown submitter" ErrUnknownSubmitter).
Proof.
  intros Hu. unfold Grpc_NewServer. destruct (apply_grpc_options _ _) as [s|er|]; [|done..].
  repeat (case_match; [done|]). intros [= <- _]. unfold authenticateSubmit. cbn [gs_registry bare_request sq_Submitter hex_encode].
  assert (Hid : ID uid ≠ "").
  { unfold ID. pose proof (uw_root _ Hu) as Hl. by destruct (u_RootID uid). }
  unfold Registry.Lookup, Registry.Register, Registry.NewRegistry. cbn [Registry.rg_db Registry.rg_cache].
  destruct (length (u_PublicKey uid) =? 1952)%nat; cbn [negb fst snd Registry.rg_cache Registry.rg_db]; rewrite ?lookup_insert_ne by done;
    by rewrite lookup_empty.
Qed.

Local Notation live := (live (bus := bus)).

(** [provectl submit] is refused by every node, which stays as it was. *)
Lemma provectl_submit_refused nodeID uid opts srv e hashHex label hash l :
  uid_wf uid → Grpc_NewServer nodeID uid opts = Ok (srv, e) → hashHex ≠ "" → hex_decode hashHex = Some hash →
  let client := live_client env clock patience srv between during random in
  let '(l', out) := submitCmd (S := live) hashHex label l in
  out = Some (Printed [("Accepted", CBool false);
                       ("Status", CStatus (StError (WrapValidationError ErrCodeSubmitterMismatch "unknown submitter" ErrUnknownSubmitter)));
                       ("Block", CInt 0); ("BlockTime", CInt 0)]) ∧
  lv_world l' = arrive env clock patience between (after l (arrive env clock patience between l)).
Proof.
  intros Hu Hs Hne Hh client. apply String.eqb_neq in Hne. unfold submitCmd. rewrite Hne, Hh.
  unfold seq_bind, now_nano, submit, call, done. cbn [call_SubmitHash unix_nano live_client client].
  unfold live_submit, SubmitHash. rewrite (bare_refused nodeID uid opts srv e) by done. done.
Qed.
End anonymous.

(** ** Concrete instance *)

#[local] Instance uid_eq_dec : EqDecision UIDZeroSoulbound.
Proof. solve_decision. Defined.

#[local] Instance uid_countable : countable.Countable UIDZeroSoulbound.
Proof.
  refine (countable.inj_countable'
    (fun u => (u_RootID u, u_PublicKey u, u_SecretKey u, u_VRFPublicKey u, u_VRFSecretKey u, u_ContractHash u,
               u_FinalDigest u, u_Simulated u))
    (fun '(a, b, c, d, e, f, g, h) => MkUID a b c d e f g h) _).
  by intros [].
Defined.

#[local] Instance toy_uid_encode : UidEncode := {| uid_encode u := Some (toy_cbor u) |}.
#[local] Instance toy_uid_decode : UidDecode := {| uid_decode := toy_uncbor |}.

#[local] Instance toy_uid_codec : UidCodecLaws.
Proof. split. intros u data _ [= <-]. apply toy_uncbor_cbor. Qed.

Lemma toy_view_total : ∀ v, is_Some (cbor_public_view v).
Proof. by eexists. Qed.

Definition no_files : @fs toy_disk := (∅ : gmap string bytes).

Lemma init_run : ∃ d' lines, cmdInit 2 "uids" no_files = (d', Ok lines).
Proof.
  assert (Hok : match snd (cmdInit 2 "uids" no_files) with Ok _ => true | _ => false end = true) by (vm_compute; reflexivity).
  destruct (cmdInit 2 "uids" no_files) as [d' [lines|er|]]; [by eexists _, _|discriminate Hok..].
Qed.

Definition init_flags (allow : bool) : daemon_flags := MkDaemonFlags (Join "uids" (init_file 2)) "n2" "" "" "" 100 allow.

(** The second of two files starts a node, or does not. *)
Lemma init_starts_nodes_witness : ∃ d' lines u srv rest, cmdInit 2 "uids" no_files = (d', Ok lines) ∧ length lines = 2 ∧
  daemon_main (fs_read d') (fun _ => None) 0 false (init_flags true) =
    Ok (srv, NewEngine {| n_UID := u; n_Peers := []; n_Addr := "n2" |} defaultCycleInterval, rest) ∧
  daemon_main (fs_read d') (fun _ => None) 0 false (init_flags false) = Err (ErrText "simulated identity").
Proof.
  destruct init_run as (d' & lines & Hr).
  destruct (init_starts_nodes toy_view_total "uids" 2 no_files d' lines Hr) as [Hlen Hall].
  destruct (Hall 2%Z) as (u & _ & _ & _ & Hd); [lia|].
  assert (Hrest : ∃ rest, NewServer u (rest_options (init_flags true)) (fun _ => None) 0 = Ok rest) by (eexists; reflexivity).
  destruct Hrest as [rest Hrest].
  destruct (Hd (fun _ => None) 0%Z false (init_flags true) eq_refl ltac:(discriminate) eq_refl rest Hrest) as [srv Hs].
  exists d', lines, u, srv, rest. split_and!; [exact Hr|exact Hlen|exact Hs|].
  exact (Hd (fun _ => None) 0%Z false (init_flags false) eq_refl ltac:(discriminate) eq_refl).
Defined.
