(* ===== verification/PipelineSim.v ===== *)
(** * The load generator (cmd/pipeline-sim/main.go)

    Counters shared by atomic operations; [updateMinMax] as a machine whose steps are the
    atomic operations of its two compare-and-swap loops, so that any number of callers can be
    interleaved; one simulated submission as a program over the client stub of its target;
    the statistics. Then the theorems: every interleaving ends with the right values, and what
    the counters say after a run. Flag parsing, the sleep and the printed text are left out. *)
From Stdlib Require Import SpecFloat ZifyBool.
From S2P Require Import Prelude Crypto Toy Sha256 Smt Errors Vrf Identity IdentityTheorems Chain ToyCbor Config Gossip.
From S2P Require Import State StateTheorems Engine EngineCycle EngineApi SoloChain Rest Grpc Conformance.
From S2P Require Import ConformanceTheorems Provectl ProvectlTheorems.
Local Open Scope string_scope.

(** ** Counters *)

Definition MaxInt64 : Z := 2 ^ 63 - 1.

Record Counters := MkCounters {
  totalSubmits : Z;
  totalErrors : Z;
  totalLatency : Z;
  minLatency : Z;
  maxLatency : Z;
}.

(** The zero values, with the store at the start of [main]. *)
Definition counters0 : Counters :=
  {| totalSubmits := 0; totalErrors := 0; totalLatency := 0; minLatency := MaxInt64; maxLatency := 0 |}.

Definition add_error (c : Counters) : Counters :=
  {| totalSubmits := totalSubmits c; totalErrors := u64 (totalErrors c + 1); totalLatency := totalLatency c;
     minLatency := minLatency c; maxLatency := maxLatency c |}.

Definition add_submit (latency : Z) (c : Counters) : Counters :=
  {| totalSubmits := u64 (totalSubmits c + 1); totalErrors := totalErrors c;
     totalLatency := i64 (totalLatency c + latency); minLatency := minLatency c; maxLatency := maxLatency c |}.

Definition set_min (v : Z) (c : Counters) : Counters :=
  {| totalSubmits := totalSubmits c; totalErrors := totalErrors c; totalLatency := totalLatency c;
     minLatency := v; maxLatency := maxLatency c |}.

Definition set_max (v : Z) (c : Counters) : Counters :=
  {| totalSubmits := totalSubmits c; totalErrors := totalErrors c; totalLatency := totalLatency c;
     minLatency := minLatency c; maxLatency := v |}.

(** ** updateMinMax *)

(** The next atomic operation of a call, with the value that was loaded. *)
Inductive mm_pc :=
| MinLoad
| MinCas (cur : Z)
| MaxLoad
| MaxCas (cur : Z)
| MmDone.

#[export] Instance mm_pc_eq_dec : EqDecision mm_pc.
Proof. solve_decision. Defined.

(** One atomic operation of [updateMinMax(lat)] and the tests up to the next one. *)
Definition mm_step (lat : Z) (pc : mm_pc) (c : Counters) : mm_pc * Counters :=
  match pc with
  | MinLoad => (if (minLatency c <=? lat)%Z then MaxLoad else MinCas (minLatency c), c)
  | MinCas cur => if (minLatency c =? cur)%Z then (MaxLoad, set_min lat c) else (MinLoad, c)
  | MaxLoad => (if (lat <=? maxLatency c)%Z then MmDone else MaxCas (maxLatency c), c)
  | MaxCas cur => if (maxLatency c =? cur)%Z then (MmDone, set_max lat c) else (MaxLoad, c)
  | MmDone => (MmDone, c)
  end.

(** A call in progress: its argument and where it stands. *)
Definition caller : Type := Z * mm_pc.

(** Any caller that is not done may make the next step. *)
Inductive mm_moves : Counters * list caller → Counters * list caller → Prop :=
| mm_move i lat pc c ts : ts !! i = Some (lat, pc) → pc ≠ MmDone →
    mm_moves (c, ts) (snd (mm_step lat pc c), <[i := (lat, fst (mm_step lat pc c))]> ts).

Definition mm_start (lats : list Z) : list caller := (fun lat => (lat, MinLoad)) <$> lats.

(** A call on its own. *)
Fixpoint mm_run (fuel : nat) (lat : Z) (pc : mm_pc) (c : Counters) : option Counters :=
  match pc, fuel with
  | MmDone, _ => Some c
  | _, O => None
  | _, S fuel => let '(pc', c') := mm_step lat pc c in mm_run fuel lat pc' c'
  end.

(** Four operations are enough for a call that is not disturbed. *)
Definition updateMinMax (lat : Z) (c : Counters) : option Counters := mm_run 4 lat MinLoad c.

(** ** Statistics *)

Definition microsecond : Z := 1000.

Record Stats := MkStats {
  ss_ops : Z;
  ss_ok : Z;
  ss_err : Z;
  ss_avg : Z;
  ss_min : Z;
  ss_max : Z;
}.

(** [printStats]; the rate, a float of the operations over the time passed, is left out. *)
Definition printStats (ops : Z) (c : Counters) : Stats :=
  let submits := totalSubmits c in
  let avg := if (0 <? submits)%Z
             then let total := if (totalLatency c <? 0)%Z then 0%Z else totalLatency c in
                  i64 (i64 (total / submits) * microsecond)
             else 0%Z in
  {| ss_ops := ops; ss_ok := submits; ss_err := totalErrors c; ss_avg := avg;
     ss_min := i64 (minLatency c * microsecond); ss_max := i64 (maxLatency c * microsecond) |}.

(** ** The pipeline *)

Section pipeline.
Context {S : Type} `{clock : AnchorClient S}.
(** [grpc.NewClient]: the stub of a target, or an error. *)
Context (dial : string → option (AnchorClient S)) (pipelineID : string).

Local Notation "'let!' x ':=' m 'in' k" := (seq_bind m (fun x => k)) (at level 200, x name, right associativity).

Definition sim_hash (seq nano : Z) : bytes :=
  sha256 (string_bytes (pipelineID ++ "-" ++ decimal seq ++ "-" ++ decimal nano)).

Definition sim_label (seq : Z) : string := pipelineID ++ "-seq-" ++ decimal seq.

(** [time.Since(start).Microseconds()]. *)
Definition micros (start stop : Z) : Z := Z.quot (stop - start) microsecond.

Definition simulateOne (target : string) (seq : Z) (c : Counters) : session Counters (S := S) :=
  let! nano := call (unix_nano (AnchorClient := clock)) in
  match dial target with
  | None => done (add_error c)
  | Some stub =>
      let! start := call (unix_nano (AnchorClient := clock)) in
      let! ts := call (unix_nano (AnchorClient := clock)) in
      let! r := call (call_SubmitHash (AnchorClient := stub) (bare_request (sim_hash seq nano) (sim_label seq) ts)) in
      match r with
      | inl _ => done (add_error c)
      | inr resp =>
          let! stop := call (unix_nano (AnchorClient := clock)) in
          let latency := micros start stop in
          match updateMinMax latency (add_submit latency c) with
          | None => crash
          | Some c' => done (if sp_Accepted resp then c' else add_error c')
          end
      end
  end.

(** The variables of [main] and what it has printed. *)
Record Pipeline := MkPipeline {
  pi_ops : Z;
  pi_counters : Counters;
  pi_printed : list Stats;
}.

Definition pipeline0 : Pipeline := {| pi_ops := 0; pi_counters := counters0; pi_printed := [] |}.

Context (addrs : list string) (duration : Z).

(** One turn of the loop of [main], which is left when the duration is over. *)
Definition sim_turn (start : Z) (p : Pipeline) : session (Pipeline * bool) (S := S) :=
  let! over := (if (0 <? duration)%Z
                then let! t := call (unix_nano (AnchorClient := clock)) in done (duration <? t - start)%Z
                else done false) in
  if over : bool then done (p, false)
  else
    match addrs !! Z.to_nat (pi_ops p mod Z.of_nat (length addrs)) with
    | None => crash
    | Some target =>
        let! c := simulateOne target (pi_ops p) (pi_counters p) in
        let ops := u64 (pi_ops p + 1) in
        let printed := if (ops mod 100 =? 0)%Z then (pi_printed p ++ [printStats ops c])%list else pi_printed p in
        done ({| pi_ops := ops; pi_counters := c; pi_printed := printed |}, true)
    end.

(** At most [n] turns, and the statistics at the end when the loop is left. *)
Fixpoint sim_run (n : nat) (start : Z) (p : Pipeline) : session Pipeline (S := S) :=
  match n with
  | O => done p
  | Datatypes.S n =>
      let! r := sim_turn start p in
      let '(p', again) := r in
      if again : bool then sim_run n start p'
      else done {| pi_ops := pi_ops p'; pi_counters := pi_counters p';
                   pi_printed := (pi_printed p' ++ [printStats (pi_ops p') (pi_counters p')])%list |}
  end.
End pipeline.

(** * Theorems about the load generator *)

Local Close Scope string_scope.

(** ** Termination *)

Definition weigh {A} (f : A → nat) (l : list A) : nat := sum_list_with f l.

(** Replacing one element, while the weight of the others grows by at most [d]. *)
Lemma weigh_insert {A} (f g : A → nat) (d : nat) (x y : A) : (∀ z, g z ≤ f z + d) →
  ∀ l i, l !! i = Some x → weigh g (<[i := y]> l) + f x ≤ weigh f l + g y + d * length l.
Proof.
  intros Hg. unfold weigh. assert (Hall : ∀ l, sum_list_with g l ≤ sum_list_with f l + d * length l).
  { induction l as [|z l IH]; cbn [sum_list_with length]; [lia|]. pose proof (Hg z). lia. }
  induction l as [|z l IH]; intros [|i] Hi; [done|done|..].
  - injection Hi as ->. cbn [sum_list_with length insert list_insert]. pose proof (Hall l). lia.
  - change (<[S i := y]> (z :: l)) with (z :: <[i := y]> l). cbn [sum_list_with length].
    pose proof (IH i Hi). pose proof (Hg z). lia.
Qed.

(** What is left to do for a caller among [n]; a stale value costs one more round. *)
Definition mm_weight (n : nat) (c : Counters) (t : caller) : nat :=
  match snd t with
  | MmDone => 0
  | MaxCas cur => 2 * n + 1 + if (maxLatency c =? cur)%Z then 1 else 3
  | MaxLoad => 2 * n + 3
  | MinCas cur => 4 * n + 5 + if (minLatency c =? cur)%Z then 1 else 3
  | MinLoad => 4 * n + 7
  end.

Lemma mm_weight_min n v c t : mm_weight n (set_min v c) t ≤ mm_weight n c t + 2.
Proof. destruct t as [lat []]; cbn; repeat case_match; lia. Qed.

Lemma mm_weight_max n v c t : mm_weight n (set_max v c) t ≤ mm_weight n c t + 2.
Proof. destruct t as [lat []]; cbn; repeat case_match; lia. Qed.

Lemma mm_weight_decreases c ts c' ts' : mm_moves (c, ts) (c', ts') →
  length ts' = length ts ∧ weigh (mm_weight (length ts) c') ts' < weigh (mm_weight (length ts) c) ts.
Proof.
  inversion 1 as [i lat pc ? ? Hi Hpc]; subst. split; [apply length_insert|]. set (n := length ts).
  pose proof (weigh_insert (A := caller) (mm_weight n c) (mm_weight n c) 0 (lat, pc)) as Hsame.
  pose proof (λ v, weigh_insert (A := caller) (mm_weight n c) _ 2 (lat, pc) (lat, MaxLoad) (mm_weight_min n v c) ts i Hi) as Hmin.
  pose proof (λ v, weigh_insert (A := caller) (mm_weight n c) _ 2 (lat, pc) (lat, MmDone) (mm_weight_max n v c) ts i Hi) as Hmax.
  assert (Hq : ∀ pc', mm_weight n c (lat, pc') < mm_weight n c (lat, pc) →
    weigh (mm_weight n c) (<[i := (lat, pc')]> ts) < weigh (mm_weight n c) ts).
  { intros pc' Hlt. specialize (Hsame (lat, pc') ltac:(lia) ts i Hi). unfold caller in *. lia. }
  fold n in Hmin, Hmax. unfold caller in *.
  destruct pc as [|cur| |cur|]; cbn [mm_step]; [..|done].
  - cbn [fst snd]. apply Hq. cbn. case_match; cbn; rewrite ?Z.eqb_refl; lia.
  - destruct (minLatency c =? cur)%Z eqn:E; cbn [fst snd]; [|apply Hq; cbn; rewrite E; lia].
    specialize (Hmin lat). cbn in Hmin. rewrite E in Hmin. cbn. lia.
  - cbn [fst snd]. apply Hq. cbn. case_match; cbn; rewrite ?Z.eqb_refl; lia.
  - destruct (maxLatency c =? cur)%Z eqn:E; cbn [fst snd]; [|apply Hq; cbn; rewrite E; lia].
    specialize (Hmax lat). cbn in Hmax. rewrite E in Hmax. cbn. lia.
Qed.

Lemma mm_steps_bounded k : ∀ c ts s, nsteps mm_moves k (c, ts) s → k ≤ weigh (mm_weight (length ts) c) ts.
Proof.
  induction k as [|k IH]; intros c ts s; [lia|]. inversion 1 as [|? ? [c1 ts1] ? Hm Hrest]; subst.
  destruct (mm_weight_decreases _ _ _ _ Hm) as [Hl Hw]. apply IH in Hrest. rewrite Hl in Hrest. lia.
Qed.

Lemma mm_start_weight n c lats : weigh (mm_weight n c) (mm_start lats) = (length lats * (4 * n + 7))%nat.
Proof. induction lats as [|lat lats IH]; [done|]. cbn in *. unfold weigh, mm_start in IH. lia. Qed.

(** ** Results *)

(** The minimum (or maximum) of a list is what is below it and in it. *)
Lemma foldr_min_unique m m0 l : (m ≤ m0)%Z → (∀ x, x ∈ l → (m ≤ x)%Z) → m = m0 ∨ m ∈ l → foldr Z.min m0 l = m.
Proof.
  intros H0 Hall Hin. assert (Hle : (m ≤ foldr Z.min m0 l)%Z).
  { clear Hin. induction l as [|x l IH]; cbn; [done|]. pose proof (Hall x ltac:(set_solver)).
    specialize (IH ltac:(set_solver)). lia. }
  assert (Hge : ∀ x, x = m0 ∨ x ∈ l → (foldr Z.min m0 l ≤ x)%Z).
  { clear. induction l as [|y l IH]; intros x Hx; cbn; [set_solver|]. pose proof (IH m0 (or_introl eq_refl)).
    destruct Hx as [->|[->|Hx]%elem_of_cons]; [lia..|]. pose proof (IH x (or_intror Hx)). lia. }
  pose proof (Hge m Hin). lia.
Qed.

Lemma foldr_max_unique m m0 l : (m0 ≤ m)%Z → (∀ x, x ∈ l → (x ≤ m)%Z) → m = m0 ∨ m ∈ l → foldr Z.max m0 l = m.
Proof.
  intros H0 Hall Hin. pose proof (foldr_min_unique (- m)%Z (- m0)%Z (Z.opp <$> l)) as Hmin.
  assert (Hneg : ∀ l', foldr Z.min (- m0)%Z (Z.opp <$> l') = (- foldr Z.max m0 l')%Z).
  { induction l' as [|x l' IH]; cbn; [done|]. rewrite IH. lia. }
  rewrite Hneg in Hmin. apply Z.opp_inj, Hmin; [lia| |].
  - intros x (y & -> & Hy)%list_elem_of_fmap. specialize (Hall y Hy). lia.
  - destruct Hin as [->|Hin]; [by left|right]. apply list_elem_of_fmap. by exists m.
Qed.

(** What a caller has achieved. *)
Definition mm_promise (c : Counters) (t : caller) : Prop :=
  match snd t with
  | MinLoad => True
  | MinCas cur => (fst t < cur)%Z
  | MaxLoad => (minLatency c ≤ fst t)%Z
  | MaxCas cur => (minLatency c ≤ fst t)%Z ∧ (cur < fst t)%Z
  | MmDone => (minLatency c ≤ fst t ≤ maxLatency c)%Z
  end.

Record mm_inv (c0 : Counters) (lats : list Z) (c : Counters) (ts : list caller) : Prop := {
  mi_lats : ts.*1 = lats;
  mi_min : (minLatency c ≤ minLatency c0)%Z ∧ (minLatency c = minLatency c0 ∨ minLatency c ∈ lats);
  mi_max : (maxLatency c0 ≤ maxLatency c)%Z ∧ (maxLatency c = maxLatency c0 ∨ maxLatency c ∈ lats);
  mi_promises : Forall (mm_promise c) ts;
  mi_rest : set_min 0 (set_max 0 c) = set_min 0 (set_max 0 c0);
}.

(** Promises survive a lower minimum and a higher maximum. *)
Lemma mm_promise_mono c c' t : (minLatency c' ≤ minLatency c)%Z → (maxLatency c ≤ maxLatency c')%Z →
  mm_promise c t → mm_promise c' t.
Proof. intros Hmin Hmax. destruct t as [lat []]; cbn; lia. Qed.

Lemma mm_step_spec lat pc c : pc ≠ MmDone → mm_promise c (lat, pc) →
  let '(pc', c') := mm_step lat pc c in
  mm_promise c' (lat, pc') ∧ set_min 0 (set_max 0 c') = set_min 0 (set_max 0 c) ∧
  (minLatency c' ≤ minLatency c)%Z ∧ (minLatency c' = minLatency c ∨ minLatency c' = lat) ∧
  (maxLatency c ≤ maxLatency c')%Z ∧ (maxLatency c' = maxLatency c ∨ maxLatency c' = lat).
Proof.
  intros Hpc Hp. destruct pc as [|cur| |cur|]; cbn [mm_step]; [| | | |done].
  - destruct (minLatency c <=? lat)%Z eqn:E; cbn in *; split_and!; auto; lia.
  - destruct (minLatency c =? cur)%Z eqn:E; cbn in *; split_and!; auto; lia.
  - destruct (lat <=? maxLatency c)%Z eqn:E; cbn in *; split_and!; auto; lia.
  - destruct (maxLatency c =? cur)%Z eqn:E; cbn in *; split_and!; auto; lia.
Qed.

Lemma mm_inv_step c0 lats c ts c' ts' : mm_moves (c, ts) (c', ts') → mm_inv c0 lats c ts → mm_inv c0 lats c' ts'.
Proof.
  inversion 1 as [i lat pc ? ? Hi Hpc]; subst. intros [Hl [Hm1 Hm2] [HM1 HM2] Hall Hr]. unfold caller in *.
  pose proof (mm_step_spec lat pc c Hpc (Forall_lookup_1 _ _ _ _ Hall Hi)) as Hs.
  destruct (mm_step lat pc c) as [pc' c1]. cbn [fst snd] in *. destruct Hs as (Hp & Hr1 & Hn1 & Hn2 & Hx1 & Hx2).
  assert (Hin : lat ∈ lats) by (rewrite <- Hl; apply list_elem_of_fmap; exists (lat, pc); split; [done|by eapply list_elem_of_lookup_2]).
  split.
  - rewrite list_fmap_insert, Hl. apply list_insert_id. rewrite <- Hl, list_lookup_fmap. unfold caller in *. by rewrite Hi.
  - split; [lia|]. destruct Hn2 as [->| ->]; auto.
  - split; [lia|]. destruct Hx2 as [->| ->]; auto.
  - apply Forall_insert; [|done]. eapply Forall_impl; [exact Hall|]. intros t. by apply mm_promise_mono.
  - congruence.
Qed.

Lemma mm_inv_start c lats : mm_inv c lats c (mm_start lats).
Proof.
  split; [|by split; [|left]..| |done].
  - unfold mm_start. rewrite <- list_fmap_compose. apply list_fmap_id.
  - unfold mm_start. apply Forall_fmap, Forall_forall. done.
Qed.

(** C36: Any number of concurrent calls of [updateMinMax] finish with the right values. Under
    every interleaving of their atomic operations, [n] calls make at most [n (4 n + 7)] steps
    in all, although a compare-and-swap may fail and be repeated; and when none can move they
    have all returned, the minimum and the maximum are those of the values before and of all
    arguments, and the other counters are as they were. *)
Theorem update_min_max_concurrent c lats k c' ts :
  nsteps mm_moves k (c, mm_start lats) (c', ts) →
  k ≤ length lats * (4 * length lats + 7) ∧
  (¬ (∃ s, mm_moves (c', ts) s) →
     ts = (fun lat => (lat, MmDone)) <$> lats ∧
     minLatency c' = foldr Z.min (minLatency c) lats ∧ maxLatency c' = foldr Z.max (maxLatency c) lats ∧
     totalSubmits c' = totalSubmits c ∧ totalErrors c' = totalErrors c ∧ totalLatency c' = totalLatency c).
Proof.
  intros Hrun. split.
  { apply mm_steps_bounded in Hrun. rewrite mm_start_weight in Hrun. unfold mm_start in Hrun.
    by rewrite length_fmap in Hrun. }
  intros Hstuck. assert (Hinv : mm_inv c lats c' ts).
  { apply rtc_nsteps_2 in Hrun. refine (rtc_ind_r (fun s => mm_inv c lats s.1 s.2) (c, mm_start lats) (mm_inv_start c lats) _ _ Hrun).
    intros [c1 ts1] [c2 ts2] _ Hm. by apply mm_inv_step. }
  destruct Hinv as [Hl [Hm1 Hm2] [HM1 HM2] Hall Hr].
  assert (Hdone : ∀ t, t ∈ ts → snd t = MmDone).
  { intros [lat pc] Ht. apply list_elem_of_lookup_1 in Ht as [i Hi]. destruct (decide (pc = MmDone)) as [?|Hpc]; [done|].
    destruct Hstuck. eexists. by constructor. }
  assert (Hb : ∀ lat, lat ∈ lats → (minLatency c' ≤ lat ≤ maxLatency c')%Z).
  { intros lat. rewrite <- Hl. intros ([lat' pc] & -> & Ht)%list_elem_of_fmap. pose proof (Hdone _ Ht) as Hd. cbn in Hd. subst pc.
    rewrite Forall_forall in Hall. by apply (Hall _ Ht). }
  injection Hr as H1 H2 H3. split_and!; [| | |done..].
  - rewrite <- Hl, <- list_fmap_compose. rewrite <- (list_fmap_id ts) at 1. apply list_fmap_ext. intros i [lat pc] Ht.
    apply list_elem_of_lookup_2, Hdone in Ht. cbn in Ht |- *. by rewrite Ht.
  - symmetry. apply foldr_min_unique; [done| |done]. intros x Hx. by apply Hb.
  - symmetry. apply foldr_max_unique; [done| |done]. intros x Hx. by apply Hb.
Qed.

(** ** A contended run *)

(** The moves of the callers in the given order. *)
Fixpoint mm_schedule (order : list nat) (s : Counters * list caller) : option (Counters * list caller) :=
  match order with
  | [] => Some s
  | i :: order =>
      match snd s !! i with
      | Some (lat, pc) =>
          if decide (pc = MmDone) then None
          else mm_schedule order (snd (mm_step lat pc (fst s)), <[i := (lat, fst (mm_step lat pc (fst s)))]> (snd s))
      | None => None
      end
  end.

Lemma mm_schedule_steps order : ∀ s s', mm_schedule order s = Some s' → nsteps mm_moves (length order) s s'.
Proof.
  induction order as [|i order IH]; intros [c ts] s'; cbn -[mm_step]; [intros [= <-]; constructor|].
  destruct (ts !! i) as [[lat pc]|] eqn:Hi; [|done]. destruct (decide (pc = MmDone)); [done|].
  intros Hs. econstructor; [by constructor|]. by apply IH.
Qed.

(** Two callers: the second loses both races and repeats its loops. *)
Lemma update_min_max_concurrent_witness :
  let c' := set_min 3 (set_max 5 counters0) in
  nsteps mm_moves 11 (counters0, mm_start [5; 3]%Z) (c', [(5%Z, MmDone); (3%Z, MmDone)]) ∧ 11 ≤ 2 * (4 * 2 + 7) ∧
  minLatency c' = foldr Z.min (minLatency counters0) [5; 3]%Z.
Proof.
  pose proof (mm_schedule_steps [0; 1; 0; 1; 1; 1; 0; 1; 0; 1; 1] (counters0, mm_start [5; 3]%Z)
    (set_min 3 (set_max 5 counters0), [(5%Z, MmDone); (3%Z, MmDone)]) ltac:(vm_compute; reflexivity)) as Hrun.
  destruct (update_min_max_concurrent _ _ _ _ _ Hrun) as [Hk Hend]. split; [exact Hrun|]. split; [exact Hk|].
  apply Hend. intros [s Hs]. inversion Hs as [i lat pc ? ? Hi Hpc]; subst.
  destruct i as [|[|[|i]]]; [injection Hi as <- <-; by destruct Hpc|injection Hi as <- <-; by destruct Hpc|discriminate Hi..].
Defined.

(** ** What the counters say *)

(** What can become of a submission. *)
Inductive sim_event :=
| EvFailed
| EvAnswered (latency : Z) (accepted : bool).

Definition sim_apply (c : Counters) (ev : sim_event) : Counters :=
  match ev with
  | EvFailed => add_error c
  | EvAnswered lat accepted =>
      let c1 := add_submit lat c in
      let c2 := set_min (Z.min (minLatency c) lat) (set_max (Z.max (maxLatency c) lat) c1) in
      if accepted then c2 else add_error c2
  end.

(** A call that is not disturbed needs no more than its four operations. *)
Lemma updateMinMax_alone lat c :
  updateMinMax lat c = Some (set_min (Z.min (minLatency c) lat) (set_max (Z.max (maxLatency c) lat) c)).
Proof.
  unfold updateMinMax. cbn [mm_run mm_step]. destruct c as [s e l mn mx]. cbn [minLatency maxLatency].
  destruct (Z.leb_spec mn lat) as [Hn|Hn].
  - rewrite Z.min_l by done. cbn [mm_run mm_step maxLatency]. destruct (Z.leb_spec lat mx) as [Hx|Hx].
    + by rewrite Z.max_l.
    + cbn [mm_run mm_step maxLatency]. rewrite Z.eqb_refl, Z.max_r by lia. done.
  - rewrite Z.min_r by lia. cbn [mm_run mm_step minLatency]. rewrite Z.eqb_refl. cbn [mm_run mm_step set_min maxLatency].
    destruct (Z.leb_spec lat mx) as [Hx|Hx].
    + by rewrite Z.max_l.
    + cbn [mm_run mm_step maxLatency]. rewrite Z.eqb_refl, Z.max_r by lia. done.
Qed.

Definition answered (ev : sim_event) : bool := match ev with EvAnswered _ _ => true | EvFailed => false end.
Definition in_error (ev : sim_event) : bool := match ev with EvAnswered _ true => false | _ => true end.
Definition latencies (evs : list sim_event) : list Z :=
  evs ≫= fun ev => match ev with EvAnswered lat _ => [lat] | EvFailed => [] end.

Definition count (f : sim_event → bool) (evs : list sim_event) : Z := Z.of_nat (length (List.filter f evs)).

(** The counters of fewer than 2^64 submissions: a refused one is counted as a submission
    and as an error. *)
Lemma sim_counts evs : (Z.of_nat (length evs) < 2 ^ 64)%Z →
  let c := foldl sim_apply counters0 evs in
  totalSubmits c = count answered evs ∧ totalErrors c = count in_error evs ∧
  minLatency c = foldr Z.min MaxInt64 (latencies evs) ∧ maxLatency c = foldr Z.max 0%Z (latencies evs).
Proof.
  induction evs as [|ev evs IH] using rev_ind; [done|]. rewrite length_app. cbn [length]. intros Hlen.
  destruct IH as (Hs & He & Hmn & Hmx); [lia|]. rewrite foldl_app. cbn [foldl].
  set (c := foldl sim_apply counters0 evs) in *.
  assert (Hmin : ∀ l x m, foldr Z.min m (l ++ [x]) = Z.min (foldr Z.min m l) x)
    by (induction l as [|y l IHl]; intros x m; cbn; [lia|rewrite IHl; lia]).
  assert (Hmax : ∀ l x m, foldr Z.max m (l ++ [x]) = Z.max (foldr Z.max m l) x)
    by (induction l as [|y l IHl]; intros x m; cbn; [lia|rewrite IHl; lia]).
  assert (Hu : ∀ f, u64 (count f evs + 1) = (count f evs + 1)%Z).
  { intros f. unfold u64, count. apply Z.mod_small. pose proof (List.filter_length_le f evs). lia. }
  assert (Hl : latencies (evs ++ [ev]) = latencies evs ++ latencies [ev]) by apply bind_app.
  assert (Hf : ∀ f, count f (evs ++ [ev]) = (count f evs + if f ev then 1 else 0)%Z)
    by (intros f; unfold count; rewrite List.filter_app, length_app; cbn; destruct (f ev); cbn; lia).
  rewrite Hl, !Hf. destruct ev as [|lat [|]]; cbn [latencies mbind list_bind app answered in_error];
    rewrite ?app_nil_r, ?Hmin, ?Hmax, ?Z.add_0_r;
    cbn [sim_apply add_error add_submit set_min set_max totalSubmits totalErrors minLatency maxLatency];
    rewrite ?Hs, ?He, ?Hu, ?Hmn, ?Hmx; try done;
    change (latencies [EvAnswered lat _]) with [lat]; by rewrite Hmin, Hmax.
Qed.

(** Before the first answer the printed minimum is minus one microsecond: the initial value
    overflows when it is turned into nanoseconds. *)
Lemma no_answer_min ops evs : latencies evs = [] → (Z.of_nat (length evs) < 2 ^ 64)%Z →
  ss_min (printStats ops (foldl sim_apply counters0 evs)) = (- microsecond)%Z.
Proof.
  intros Hl Hlen. destruct (sim_counts evs Hlen) as (_ & _ & Hmn & _). cbv zeta in Hmn. rewrite Hl in Hmn.
  unfold printStats. cbn [ss_min]. rewrite Hmn. reflexivity.
Qed.

Section pipeline.
Context {S : Type} (clock : AnchorClient S) (dial : string → option (AnchorClient S)) (pipelineID : string).

(** A simulated submission is one of the events, and it is only an acceptance when the
    target answered so. *)
Lemma simulateOne_event target seq c s : ∃ s' ev,
  simulateOne (clock := clock) dial pipelineID target seq c s = (s', Some (sim_apply c ev)) ∧
  (∀ lat, ev = EvAnswered lat true → ∃ stub hash ts s1 s2 resp, dial target = Some stub ∧
     call_SubmitHash (AnchorClient := stub) (bare_request hash (sim_label pipelineID seq) ts) s1 = (s2, inr resp) ∧
     sp_Accepted resp = true).
Proof.
  unfold simulateOne, seq_bind, call, Conformance.done. destruct (unix_nano s) as [s1 nano].
  destruct (dial target) as [stub|] eqn:Ed; [|by exists s1, EvFailed].
  destruct (unix_nano s1) as [s2 start]. destruct (unix_nano s2) as [s3 ts].
  destruct (call_SubmitHash _ s3) as [s4 [err|resp]] eqn:Es; [by exists s4, EvFailed|].
  destruct (unix_nano s4) as [s5 stop]. rewrite updateMinMax_alone.
  exists s5, (EvAnswered (micros start stop) (sp_Accepted resp)). split; [reflexivity|].
  intros lat [= _ Ha]. by eexists _, _, _, _, _, _.
Qed.

Context (addrs : list string) (duration : Z) (Haddrs : addrs ≠ []).

(** The pipeline never crashes, and its counters are those of its submissions. *)
Lemma sim_run_events n start : ∀ p s, ∃ s' p' evs,
  sim_run (clock := clock) dial pipelineID addrs duration n start p s = (s', Some p') ∧
  pi_counters p' = foldl sim_apply (pi_counters p) evs ∧ length evs ≤ n.
Proof.
  induction n as [|n IH]; intros p s; cbn [sim_run]; [by exists s, p, []|].
  unfold seq_bind at 1, sim_turn.
  set (over := if (0 <? duration)%Z then _ else _).
  assert (Hover : ∃ s1 b, over s = (s1, Some b)).
  { unfold over, seq_bind, call, Conformance.done. case_match; [destruct (unix_nano s)|]; by eexists _, _. }
  destruct Hover as (s1 & b & Hb). unfold seq_bind at 1. rewrite Hb. destruct b.
  { unfold Conformance.done. eexists _, _, []. split_and!; [reflexivity|done|cbn; lia]. }
  destruct (addrs !! _) as [target|] eqn:Et.
  2:{ apply lookup_ge_None in Et. destruct addrs as [|a l]; [done|].
      pose proof (Z.mod_pos_bound (pi_ops p) (Z.of_nat (length (a :: l)))) as Hm. cbn [length] in *. lia. }
  destruct (simulateOne_event target (pi_ops p) (pi_counters p) s1) as (s2 & ev & Hs & _).
  unfold seq_bind at 1. rewrite Hs. unfold Conformance.done at 1.
  match goal with |- context [sim_run _ _ _ _ n start ?q s2] => destruct (IH q s2) as (s' & p' & evs & Hr & Hc & Hlen) end.
  rewrite Hr. exists s', p', (ev :: evs). split_and!; [reflexivity|exact Hc|cbn; lia].
Qed.
End pipeline.

Section nodes.
Context `{Primitives, Cbor, Ristretto, Gonum, StateCbor} {bus : Type} `{GossipChannel bus}.
Context (env : nat → bus → bus) (clock : nat → Z) (patience : nat → nat).
Context (between : nat → list solo_op) (during : nat → list (list solo_op)) (random : nat → nat → bytes).

(** Against a node built by [Grpc_NewServer] no submission of the pipeline is accepted. *)
Lemma pipeline_never_accepted nodeID uid opts srv e dial pipelineID target seq c (l : live (bus := bus)) :
  uid_wf uid → Grpc_NewServer nodeID uid opts = Ok (srv, e) →
  dial target = Some (live_client env clock patience srv between during random) →
  ∃ l' ev, simulateOne (clock := live_client env clock patience srv between during random) dial pipelineID target seq c l =
    (l', Some (sim_apply c ev)) ∧ in_error ev = true.
Proof.
  intros Hu Hs Hd.
  destruct (simulateOne_event (live_client env clock patience srv between during random) dial pipelineID target seq c l)
    as (l' & ev & Hrun & Hacc). exists l', ev. split; [exact Hrun|]. destruct ev as [|lat [|]]; try done.
  destruct (Hacc lat eq_refl) as (stub & hash & ts & l1 & l2 & resp & Hstub & Hcall & Ha). rewrite Hd in Hstub.
  injection Hstub as <-. cbn [call_SubmitHash live_client] in Hcall. unfold live_submit, SubmitHash in Hcall.
  rewrite (bare_refused nodeID uid opts srv e) in Hcall by done. injection Hcall as _ <-. discriminate Ha.
Qed.
End nodes.
