(* ===== verification/CubeRoom.v ===== *)
(** * The onboarding front end (frontend-test/cube-room/main.go)

    A room derives identities from the key of a company and anchors onboarding records over
    the REST interface of a node. The HKDF of golang.org/x/crypto, the encoding of the
    record and the lower-casing of text are parameters; the decoded body of a request is an
    argument, and the exchange with the node is a function of the request. The theorems show
    that derivation paths are never reused and determine the identities, and that the room's
    requests authenticate at a node that knows the company. Serving files,
    flags and the printed log are left out. *)
From Stdlib Require Import SpecFloat Ascii.
From S2P Require Import Prelude Crypto Toy Sha256 Errors Vrf Identity IdentityTheorems ToyCbor Config QuorumTheorems State.
From S2P Require Import Rest RestTheorems Anchor AnchorTheorems.
Local Open Scope string_scope.

Record DerivationStep := MkStep {
  ds_Label : string;
  ds_Index : Z;
}.

Record ChildUID := MkChild {
  ch_UID : UIDZeroSoulbound;
  ch_Name : string;
  ch_Role : string;
  ch_Path : list DerivationStep;
  ch_CreatedAt : Z;
}.

#[export] Instance step_eq_dec : EqDecision DerivationStep.
Proof. solve_decision. Defined.

Record CubeRoom := MkRoom {
  cr_companyUID : UIDZeroSoulbound;
  cr_children : list ChildUID;
  cr_deriveIndex : gmap string Z;
  cr_startTime : Z;
}.

Class CubeLib := {
  (** [hkdf.Expand(sha256.New, secret, info)], read up to a length. *)
  hkdf_read : bytes → bytes → nat → bytes;
  (** [json.Marshal] of the record: identity, name, role, time, path. *)
  marshal_context : string → string → string → Z → list DerivationStep → bytes;
  (** [strings.ToLower]. *)
  to_lower : string → string;
}.

(** [strings.ReplaceAll(s, " ", "-")]. *)
Fixpoint dashes (s : string) : string :=
  match s with
  | EmptyString => EmptyString
  | String a s' => String (if Ascii.eqb a " " then "-"%char else a) (dashes s')
  end.

(** A double quote. *)
Definition dq : string := String (Ascii.ascii_of_nat 34) "".

(** A request to the node: an address that is no URL, an error of the connection, a response. *)
Inductive http_result :=
| HttpBadURL
| HttpFailed
| HttpAnswer (resp : Response).

Inductive cube_response :=
| CubeError (status : Z) (msg : string)
| CubeDerived (uid_id : string) (path : list DerivationStep) (public_key : string)
| CubeAnchored (block_index : Z) (state_root hash : string)
| CubeStatus (company : string) (children : nat) (info : option (string * Z * nat)) (uptime : Z).

Section room.
Context `{Primitives, UidCbor, Ristretto, CubeLib}.

(** ** Derivation *)

Definition nextIndex (label : string) (s : CubeRoom) : CubeRoom * Z :=
  let idx := default 0%Z (cr_deriveIndex s !! label) in
  ({| cr_companyUID := cr_companyUID s; cr_children := cr_children s;
      cr_deriveIndex := <[label := ((idx + 1) mod 2 ^ 32)%Z]> (cr_deriveIndex s); cr_startTime := cr_startTime s |}, idx).

Definition deriveSeed (parentKey : bytes) (label : string) (index : Z) : bytes :=
  let parentSecret := hmac_sha256 parentKey (string_bytes label ++ be_bytes 4 index)%list in
  hkdf_read parentSecret (string_bytes "gleipnir-uid-derivation-v1") 64.

Definition with_root (root : bytes) (u : UIDZeroSoulbound) : UIDZeroSoulbound :=
  {| u_RootID := root; u_PublicKey := u_PublicKey u; u_SecretKey := u_SecretKey u; u_VRFPublicKey := u_VRFPublicKey u;
     u_VRFSecretKey := u_VRFSecretKey u; u_ContractHash := u_ContractHash u; u_FinalDigest := u_FinalDigest u;
     u_Simulated := u_Simulated u |}.

Definition cube_network : bytes := copy_array 32 (string_bytes "gleipnir-frontend-network").

Definition role_label (role : string) : string := "role-" ++ to_lower (dashes role).
Definition member_label (name : string) : string := "member-" ++ to_lower (dashes name).

(** [deriveChild]; the indices are used up even when the identity cannot be made. *)
Definition deriveChild (now : Z) (name role : string) (s : CubeRoom) : CubeRoom * outcome uid_error ChildUID :=
  let roleLabel := role_label role in
  let nameLabel := member_label name in
  let '(s1, roleIndex) := nextIndex roleLabel s in
  let roleSeed := deriveSeed (u_SecretKey (cr_companyUID s)) roleLabel roleIndex in
  let '(s2, nameIndex) := nextIndex nameLabel s1 in
  let nameSeed := deriveSeed roleSeed nameLabel nameIndex in
  match NewUIDZero (hex_encode nameSeed) cube_network true None with
  | Err e => (s2, Err e)
  | Panic => (s2, Panic)
  | Ok uid =>
      let hash := Hash (nameSeed ++ string_bytes "rootid")%list in
      let child := {| ch_UID := with_root (copy_array 16 (take 16 hash)) uid; ch_Name := name; ch_Role := role;
                      ch_Path := [MkStep roleLabel roleIndex; MkStep nameLabel nameIndex]; ch_CreatedAt := now |} in
      ({| cr_companyUID := cr_companyUID s2; cr_children := (cr_children s2 ++ [child])%list;
          cr_deriveIndex := cr_deriveIndex s2; cr_startTime := cr_startTime s2 |}, Ok child)
  end.

(** [body] is [None] when it is not valid JSON. A handler that panics sends nothing. *)
Definition handleDerive (method : string) (body : option (string * string)) (now : Z) (s : CubeRoom) :
    CubeRoom * option cube_response :=
  if negb (String.eqb method "POST") then (s, Some (CubeError 405 "method not allowed"))
  else
    match body with
    | None => (s, Some (CubeError 400 "invalid JSON"))
    | Some (name, role) =>
        if String.eqb name "" || String.eqb role "" then (s, Some (CubeError 400 "name and role required"))
        else
          match deriveChild now name role s with
          | (s', Ok child) =>
              (s', Some (CubeDerived (ID (ch_UID child)) (ch_Path child) (hex_encode (u_PublicKey (ch_UID child)))))
          | (s', Err _) => (s', Some (CubeError 500 "%v"))
          | (s', Panic) => (s', None)
          end
    end.

(** ** Anchoring *)

(** The body of the submission, made with [fmt.Sprintf]: nothing in it is escaped. *)
Definition submit_body (hashHex submitter name : string) : string :=
  "{" ++ dq ++ "hash" ++ dq ++ ":" ++ dq ++ hashHex ++ dq ++ "," ++
  dq ++ "submitter" ++ dq ++ ":" ++ dq ++ submitter ++ dq ++ "," ++
  dq ++ "label" ++ dq ++ ":" ++ dq ++ "cube-onboarding-" ++ name ++ dq ++ "}".

Definition anchor_request (company : UIDZeroSoulbound) (body : string) (ts : Z) : Request :=
  let tsStr := decimal ts in
  let sigMaterial := body ++ "||POST||/v1/submit||" ++ tsStr in
  {| rq_Method := "POST"; rq_Path := "/v1/submit"; rq_RootID := ID company;
     rq_Signature := hex_encode (SignDilithium (u_SecretKey company) (string_bytes sigMaterial));
     rq_Timestamp := tsStr; rq_Body := string_bytes body |}.

(** The fields [block_index] and [state_root] of a response, zero where it has none. *)
Definition anchor_fields (body : option apiResponse) : Z * string :=
  match body with
  | None => (0%Z, "")
  | Some r =>
      match ar_Data r with
      | Some (DataProof _ block_index _ state_root _ _ _) => (block_index, state_root)
      | Some (DataBlock _ _ state_root _ _ _ _ _ _ _ _) => (0%Z, state_root)
      | Some (DataHealth _ _ _ _ _ _ state_root _) => (0%Z, state_root)
      | Some (DataRoot state_root _) => (0%Z, state_root)
      | None => (0%Z, "")
      end
  end.

(** [http] performs a request on the node; [t1] and [t2] are the two readings of the clock. *)
Definition handleAnchor {T} (http : Request → T → T * http_result) (method : string)
    (body : option (string * string * string)) (t1 t2 : Z) (s : CubeRoom) (w : T) : T * cube_response :=
  if negb (String.eqb method "POST") then (w, CubeError 405 "method not allowed")
  else
    match body with
    | None => (w, CubeError 400 "invalid JSON")
    | Some (uidID, name, role) =>
        match list_find (fun c => ID (ch_UID c) = uidID) (cr_children s) with
        | None => (w, CubeError 404 "child UID not found - derive first")
        | Some (_, child) =>
            let hash := Hash (marshal_context uidID name role t1 (ch_Path child)) in
            let hashHex := hex_encode hash in
            let submitBody := submit_body hashHex (ID (cr_companyUID s)) name in
            match http (anchor_request (cr_companyUID s) submitBody t2) w with
            | (w', HttpBadURL) => (w', CubeError 500 "%v")
            | (w', HttpFailed) => (w', CubeError 502 "gleipnir unreachable: %v")
            | (w', HttpAnswer resp) =>
                if negb (rp_Status resp =? 201)%Z then (w', CubeError 502 "gleipnir returned %d: %s")
                else let '(block, root) := anchor_fields (rp_Body resp) in (w', CubeAnchored block root hashHex)
            end
        end
    end.

(** ** Status *)

Definition handleStatus {T} (http : Request → T → T * http_result) (now : Z) (s : CubeRoom) (w : T) :
    T * cube_response :=
  let '(w', resp) := http {| rq_Method := "GET"; rq_Path := "/v1/health"; rq_RootID := ""; rq_Signature := "";
                             rq_Timestamp := ""; rq_Body := [] |} w in
  let info :=
    match resp with
    | HttpAnswer r =>
        if (rp_Status r =? 200)%Z then
          match rp_Body r with
          | Some b => match ar_Data b with
                      | Some (DataHealth node_id height pending _ _ _ _ _) => Some (node_id, height, pending)
                      | Some (DataRoot _ height) => Some ("", height, 0%nat)
                      | _ => Some ("", 0%Z, 0%nat)
                      end
          | None => None
          end
        else None
    | _ => None
    end in
  (w', CubeStatus (ID (cr_companyUID s)) (length (cr_children s)) info (Z.quot (now - cr_startTime s) second)).
End room.

(** * Theorems about the front end *)

Section derive.
Context `{Primitives, UidCbor, Ristretto, CubeLib}.

(** A room as [main] makes it. *)
Definition new_room (company : UIDZeroSoulbound) (t : Z) : CubeRoom :=
  {| cr_companyUID := company; cr_children := []; cr_deriveIndex := ∅; cr_startTime := t |}.

(** A request for a child: the time, the name and the role. *)
Definition derive_all (reqs : list (Z * string * string)) (s : CubeRoom) : CubeRoom :=
  foldl (fun s '(t, name, role) => fst (deriveChild t name role s)) s reqs.

(** The identity at the end of a path of two steps. *)
Definition path_uid (company : UIDZeroSoulbound) (path : list DerivationStep) (u : UIDZeroSoulbound) : Prop :=
  ∃ l1 i1 l2 i2 uid, path = [MkStep l1 i1; MkStep l2 i2] ∧
    let seed := deriveSeed (deriveSeed (u_SecretKey company) l1 i1) l2 i2 in
    NewUIDZero (hex_encode seed) cube_network true None = Ok uid ∧
    u = with_root (copy_array 16 (take 16 (Hash (seed ++ string_bytes "rootid")%list))) uid.

Definition next_of (s : CubeRoom) (label : string) : Z := default 0%Z (cr_deriveIndex s !! label).

(** The role step of a child. *)
Definition role_step (c : ChildUID) : option DerivationStep := head (ch_Path c).

Record room_inv (company : UIDZeroSoulbound) (n : Z) (s : CubeRoom) : Prop := {
  ri_company : cr_companyUID s = company;
  ri_next : ∀ label, (0 ≤ next_of s label ≤ n)%Z;
  ri_used : ∀ c, c ∈ cr_children s → ∃ l i, role_step c = Some (MkStep l i) ∧ (i < next_of s l)%Z;
  ri_fresh : NoDup (role_step <$> cr_children s);
  ri_path : ∀ c, c ∈ cr_children s → path_uid company (ch_Path c) (ch_UID c);
}.

Lemma labels_differ role name : role_label role ≠ member_label name.
Proof. unfold role_label, member_label. discriminate. Qed.

Lemma nextIndex_spec label s s' idx : nextIndex label s = (s', idx) → (0 ≤ next_of s label < 2 ^ 32 - 1)%Z →
  idx = next_of s label ∧ cr_companyUID s' = cr_companyUID s ∧ cr_children s' = cr_children s ∧
  next_of s' label = (idx + 1)%Z ∧ ∀ l, l ≠ label → next_of s' l = next_of s l.
Proof.
  unfold nextIndex. fold (next_of s label). intros [= <- <-] Hb. split_and!; [done..| |].
  - unfold next_of at 1. cbn. rewrite lookup_insert_eq. cbn. by rewrite Z.mod_small by lia.
  - intros l Hl. unfold next_of. cbn. by rewrite lookup_insert_ne.
Qed.

Lemma room_inv_step company n s t name role : (0 ≤ n < 2 ^ 32 - 1)%Z → room_inv company n s →
  room_inv company (n + 1) (fst (deriveChild t name role s)).
Proof.
  intros Hn [Hco Hnx Hus Hfr Hpa]. unfold deriveChild.
  destruct (nextIndex (role_label role) s) as [s1 i1] eqn:E1.
  destruct (nextIndex_spec _ _ _ _ E1) as (-> & Hco1 & Hch1 & Hr1 & Ho1); [specialize (Hnx (role_label role)); lia|].
  destruct (nextIndex (member_label name) s1) as [s2 i2] eqn:E2.
  assert (Hm : next_of s1 (member_label name) = next_of s (member_label name)) by (apply Ho1; intros ?; by eapply labels_differ).
  destruct (nextIndex_spec _ _ _ _ E2) as (-> & Hco2 & Hch2 & Hr2 & Ho2); [rewrite Hm; specialize (Hnx (member_label name)); lia|].
  rewrite Hm in *.
  assert (Hle : ∀ l, (next_of s l ≤ next_of s2 l ≤ next_of s l + 1)%Z).
  { intros l. destruct (decide (l = member_label name)) as [->|?]; [lia|]. rewrite Ho2 by done.
    destruct (decide (l = role_label role)) as [->|?]; [lia|]. rewrite Ho1 by done. lia. }
  assert (Hrole : next_of s2 (role_label role) = (next_of s (role_label role) + 1)%Z)
    by (rewrite Ho2 by apply labels_differ; done).
  assert (Hkeep : ∀ c, c ∈ cr_children s → ∃ l i, role_step c = Some (MkStep l i) ∧ (i < next_of s2 l)%Z).
  { intros c Hc. destruct (Hus c Hc) as (l & i & Hl & Hi). exists l, i. split; [done|]. specialize (Hle l). lia. }
  assert (Hnx2 : ∀ label, (0 ≤ next_of s2 label ≤ n + 1)%Z) by (intros l; specialize (Hle l); specialize (Hnx l); lia).
  destruct (NewUIDZero _ _ _ _) as [uid|er|] eqn:Eu; cbn [fst].
  2-3: split; [congruence|done|rewrite Hch2, Hch1; done..].
  rewrite Hch2, Hch1. split; cbn [cr_companyUID cr_children].
  - congruence.
  - done.
  - intros c [Hc| ->%list_elem_of_singleton]%elem_of_app; [by apply Hkeep|]. cbn. eexists _, _. split; [done|].
    refine (Z.lt_le_trans _ _ _ _ (Z.eq_le_incl _ _ (eq_sym Hrole))). lia.
  - rewrite fmap_app. apply NoDup_app. split_and!; [done| |apply NoDup_singleton].
    intros x (c & -> & Hc)%list_elem_of_fmap [= Hx]%list_elem_of_singleton. destruct (Hus c Hc) as (l & i & Hl & Hi).
    rewrite Hl in Hx. injection Hx as -> ->. lia.
  - intros c [Hc| ->%list_elem_of_singleton]%elem_of_app; [by apply Hpa|]. cbn. rewrite <- Hco.
    by eexists _, _, _, _, uid.
Qed.

Lemma room_inv_run company reqs : ∀ n s, (0 ≤ n)%Z → (n + Z.of_nat (length reqs) < 2 ^ 32)%Z → room_inv company n s →
  room_inv company (n + Z.of_nat (length reqs)) (derive_all reqs s).
Proof.
  induction reqs as [|[[t name] role] reqs IH]; intros n s Hn0 Hn Hs; cbn [derive_all foldl length] in *.
  { by replace (n + Z.of_nat 0)%Z with n by lia. }
  replace (n + Z.of_nat (S (length reqs)))%Z with (n + 1 + Z.of_nat (length reqs))%Z by lia.
  apply IH; [lia..|]. apply room_inv_step; [lia|done].
Qed.

(** A room never derives the same child twice, and a child is recovered from its path.
    After any sequence of fewer than 2^32 derivations, also failed ones and ones that repeat
    a name and a role, no two children have the same derivation path, and each child has the
    identity that its path derives from the company's secret key. *)
Lemma cube_paths_unique company t reqs : (Z.of_nat (length reqs) < 2 ^ 32)%Z →
  let s := derive_all reqs (new_room company t) in
  NoDup (ch_Path <$> cr_children s) ∧
  ∀ c, c ∈ cr_children s → path_uid company (ch_Path c) (ch_UID c).
Proof.
  intros Hlen s. assert (Hinv : room_inv company (0 + Z.of_nat (length reqs)) s).
  { apply room_inv_run; [lia..|]. split; [done| |..]; cbn.
    - intros label. unfold next_of. cbn. rewrite lookup_empty. cbn. lia.
    - intros c Hc. by apply not_elem_of_nil in Hc.
    - constructor.
    - intros c Hc. by apply not_elem_of_nil in Hc. }
  split; [|apply Hinv]. pose proof (ri_fresh _ _ _ Hinv) as Hf.
  apply (NoDup_fmap_1 head). by rewrite <- list_fmap_compose.
Qed.

(** The digest of a child is that of the identity before its root was replaced. *)
Lemma child_digest_stale `{!MldsaCorrect, !RistrettoLaws} t name role s s' c : (∀ v, is_Some (cbor_public_view v)) →
  deriveChild t name role s = (s', Ok c) →
  ∃ root, CalculateFinalDigest (with_root root (ch_UID c)) = Ok (u_FinalDigest (ch_UID c)).
Proof.
  intros Hview. unfold deriveChild. destruct (nextIndex _ s) as [s1 i1]. destruct (nextIndex _ s1) as [s2 i2].
  set (seed := hex_encode _).
  destruct (NewUIDZero_spec seed cube_network true None (or_introl eq_refl) Hview) as (uid & -> & _ & Hd & _).
  intros [= _ <-]. exists (u_RootID uid). unfold VerifyDigest in Hd.
  change (CalculateFinalDigest _) with (CalculateFinalDigest uid).
  destruct (CalculateFinalDigest uid) as [d|er|]; [|done..]. by apply bool_decide_eq_true in Hd as ->.
Qed.
End derive.

(** ** Anchoring *)

Lemma ParseInt_digits s v : s ≠ "" → digits_value s 0 = Some v → (0 ≤ v < 2 ^ 63)%Z → ParseInt s = Some v.
Proof.
  intros Hne Hd Hv. destruct s as [|a s']; [done|]. unfold ParseInt.
  assert (Ha : is_Some (digit_value a)) by (cbn in Hd; destruct (digit_value a); [by eexists|done]).
  destruct (Ascii.eqb_spec a "+"%char) as [->|_]; [by destruct Ha|].
  destruct (Ascii.eqb_spec a "-"%char) as [->|_]; [by destruct Ha|].
  unfold ParseUint. rewrite Hd. rewrite (proj2 (Z.ltb_lt _ _)) by lia. by rewrite (proj2 (Z.leb_gt _ _)) by lia.
Qed.

Section anchor.
Context `{Primitives, UidCbor, Ristretto, CubeLib, !MldsaCorrect}.
Context (company : UIDZeroSoulbound) (Huid : uid_wf company).
(** A signature is a string of bytes. *)
Context (Hbytes : ∀ msg, Forall byte_ok (SignDilithium (u_SecretKey company) msg)).

(** A node that knows the company and does not exclude it. *)
Record admits (s : RestServer) : Prop := {
  ad_key : rs_keys s !! ID company = Some company;
  ad_white : rs_allowedRoots s = ∅ ∨ ID company ∈ rs_allowedRoots s;
}.

Lemma anchor_signed_message body ts :
  signed_message (anchor_request company body ts) = string_bytes (body ++ "||POST||/v1/submit||" ++ decimal ts).
Proof.
  unfold signed_message, anchor_request. cbn [rq_Body rq_Method rq_Path rq_Timestamp].
  change "||POST||/v1/submit||" with ("||" ++ "POST" ++ "||" ++ "/v1/submit" ++ "||").
  by rewrite !string_app_assoc, !string_bytes_app.
Qed.

Lemma anchor_authentic s body now ts : admits s → (0 ≤ ts < 2 ^ 62)%Z → (Z.abs (now - ts) ≤ maxTimestampSkew)%Z →
  authentic s now (anchor_request company body ts).
Proof.
  intros [Hk Hw] Hts Hskew. unfold authentic. cbn [anchor_request rq_RootID rq_Timestamp rq_Signature]. split_and!.
  - unfold ID. pose proof (uw_root _ Huid) as Hl. by destruct (u_RootID company).
  - exists ts. split; [|done]. apply ParseInt_digits; [|apply decimal_value; lia|lia].
    intros E. pose proof (decimal_value ts ltac:(lia)) as Hv. rewrite E in Hv. injection Hv as <-. discriminate E.
  - done.
  - exists company, (SignDilithium (u_SecretKey company) (string_bytes (body ++ "||POST||/v1/submit||" ++ decimal ts))).
    split_and!; [done|by apply hex_decode_encode| |].
    + pose proof (length_SignDilithium (u_SecretKey company) (string_bytes (body ++ "||POST||/v1/submit||" ++ decimal ts))
        (uw_secret _ Huid)) as Hl. by destruct (SignDilithium _ _).
    + change (signed_message _) with (signed_message (anchor_request company body ts)).
      rewrite anchor_signed_message, (uw_public _ Huid). apply VerifyDilithium_Sign, Huid.
Qed.

(** Such a request is never turned away. *)
Lemma anchor_authenticates s body now ts : admits s → (0 ≤ ts < 2 ^ 62)%Z → (0 ≤ now < 2 ^ 62)%Z →
  (Z.abs (now - ts) ≤ maxTimestampSkew)%Z → authenticate s now (anchor_request company body ts) = Ok (ID company).
Proof. intros Ha Hts Hnow Hskew. apply (authenticate_authentic s now); [done|]. by apply anchor_authentic. Qed.
End anchor.

(** Nothing in the body is escaped: a name can close the label and set any field again, and
    the company signs it. *)
Lemma body_injection hashHex submitter name h :
  submit_body hashHex submitter (name ++ dq ++ "," ++ dq ++ "hash" ++ dq ++ ":" ++ dq ++ h) =
  "{" ++ dq ++ "hash" ++ dq ++ ":" ++ dq ++ hashHex ++ dq ++ "," ++
  dq ++ "submitter" ++ dq ++ ":" ++ dq ++ submitter ++ dq ++ "," ++
  dq ++ "label" ++ dq ++ ":" ++ dq ++ "cube-onboarding-" ++ name ++ dq ++ "," ++
  dq ++ "hash" ++ dq ++ ":" ++ dq ++ h ++ dq ++ "}".
Proof. unfold submit_body. by rewrite !string_app_assoc. Qed.

(** ** Concrete instance *)

#[local] Instance toy_cube : CubeLib := {|
  hkdf_read secret info n := take n (secret ++ secret)%list;
  marshal_context uid name role t path := string_bytes (uid ++ name ++ role);
  to_lower s := s;
|}.

Definition cube_reqs : list (Z * string * string) :=
  [(1%Z, "Ada", "dev ops"); (2%Z, "Ada", "dev ops"); (3%Z, "Bob", "dev ops")].

Lemma cube_paths_unique_witness : ∃ s, derive_all cube_reqs (new_room (demo_uid 7) 0) = s ∧
  length (cr_children s) = 3 ∧ NoDup (ch_Path <$> cr_children s).
Proof.
  eexists. split; [reflexivity|]. split; [vm_compute; reflexivity|].
  exact (proj1 (cube_paths_unique (demo_uid 7) 0 cube_reqs eq_refl)).
Defined.

(** A derived child fails the check of its own digest. *)
Example derived_child_unsealed :
  VerifyDigest <$> (ch_UID <$> cr_children (derive_all [(1%Z, "Ada", "dev")] (new_room (demo_uid 7) 0))) = [false].
Proof. vm_compute. reflexivity. Qed.
